(* ===== verification/_CoqProject ===== *)
-Q . S2P
Prelude.v
Rust.v
Ring.v
Errors.v
Channel.v
PageSize.v
Layout.v
Shmem.v
Alloc.v
Join.v
Concurrency.v
WeakMemory.v
Typing.v
Lifetime.v
Words.v
Metadata.v
Clients.v
LosslessProducer.v
LosslessConsumer.v
LosslessQueue.v
LosslessReservation.v
LosslessRefinement.v
LosslessInterface.v
LosslessLifetime.v
LosslessHeartbeats.v
LosslessWords.v
LosslessProtocol.v
LosslessOperations.v
LosslessClients.v
LosslessClientLogic.v
Interprocess.v
LosslessConcurrent.v
LosslessWeak.v
LosslessPair.v
LosslessTheorems.v
HeadlessProducer.v
HeadlessConsumer.v
HeadlessLog.v
HeadlessRefinement.v
HeadlessInterface.v
HeadlessLifetime.v
HeadlessClients.v
HeadlessWords.v
HeadlessConcurrent.v
HeadlessPair.v
HeadlessTheorems.v
LifetimeTheorems.v
ShmemJoin.v
Process.v
Intraprocess.v
Benchmark.v
HeadlessClientTheorems.v
SystemTheorems.v
WeakTheorems.v
ClientTheorems.v
LosslessWitnesses.v
WeakWitnesses.v
LifetimeWitnesses.v
ClientWitnesses.v
HeadlessWitnesses.v
SystemWitnesses.v
HeadlessClientWitnesses.v
MetadataTest.v
LosslessTests.v
HeadlessTests.v
