(* ===== verification/Prelude.v ===== *)
(** * Verification of the [que] channel library

    [que] ([src/que/]) is a Rust library of bounded channels over one block of
    memory, either shared between processes or owned by one process through
    an [Arc].  This development models the library and proves what its two
    channels promise.

    ** The program

    - [Channel] ([src/que/src/lib.rs]) is the block: atomic words ([tail],
      [head], the two heartbeats, [capacity], [magic]), padding, and
      [buffer: [T; N]].  [N] is a power of two; position [p] of the stream
      lives in cell [p & (N - 1)].
    - The lossless channel ([src/que/src/lossless/]) has one producer and one
      consumer.  The producer writes cells ahead of [tail] and publishes them
      by storing [tail]; the consumer reads up to [tail] and gives cells back
      by storing [head], in bursts of a quarter of the capacity.  The producer
      refuses to overwrite what has not been given back.  Reservations write
      several cells before one [commit]; zero-copy pops lend the cell.
    - The headless channel ([src/que/src/headless_spmc/]) has one producer
      and many consumers, each reading every [interval]-th position.  The
      producer never waits.  A consumer reads optimistically, loads [tail]
      again, and keeps the value only if it cannot have been overwritten.
    - Producers and consumers find the block either through [lossless_pair],
      [headless_pair] and [headless_multi] (memory owned by an [Arc] whose
      count the handles share) or through shared memory objects
      ([src/que/src/shmem.rs], [src/que/src/page_size.rs]): open or create the
      object, size it in whole pages, map it, and join according to the magic
      number found there.
    - Programs that use the library come with it: the loom tests, the
      examples and a benchmark.

    ** The model

    Operations are programs ([Channel.prog]): trees whose nodes are the
    accesses to shared memory in the order of the source, each atomic access
    with its memory ordering.  A method on [&mut self] returns the new
    [self].  One text has three semantics.  [Channel.run] executes a program
    alone.  [Channel.act_step] makes one access, so that the accesses of
    several threads interleave; a cell access is not atomic: a write begins
    and ends in different steps, and a read that overlaps a write returns an
    arbitrary value.  [WeakMemory.weak] makes one access on a release/acquire
    memory, where a thread may see old values.  Freed memory, cells out of
    range and dropped values are part of the state ([World]).  Machine
    integers are [Z] with their 64 bits written out ([Rust.uadd],
    [wrapping_add], ...); the [Profile] class says whether overflow panics
    (debug) or wraps (release), and every theorem holds for both unless it
    names one.  Programs that use a channel are interaction trees whose events
    are calls ([Clients]); they run in the threads of the concurrent model.

    The order of the files, with what each models:

    - [Prelude], [Rust], [Ring]: tactics and list lemmas; results, panics and
      [usize] arithmetic; the ring buffer indexed modulo a power of two.
    - [Errors]: [QueError], [ShmemError], their conversions and messages.
    - [Channel]: [Channel], [ChannelMode], [MAGIC]; programs and semantics.
    - [PageSize], [Layout], [Shmem]: [page_size.rs]; [repr(C, align(128))]
      with [padded_atomic.rs]; [Shmem::open_or_create], [close] and
      [cleanup_shmem] over the system calls, which are a class of operations
      ([Shmem.OS]) that the code calls and that any kernel may answer as it likes.
    - [Join]: the assertions all joins begin with, the share of the [Arc] they
      take, and the decision on the magic number and the capacity.
    - [Concurrency]: threads that run the calls of an interface over a
      memory, crash (where they are processes) and start again; reachable
      configurations as the closure of a step relation; the rely-guarantee
      rule [reachable_ok].  [WeakMemory]: the release/acquire memory.
      [Typing], [Words]: invariants of every access, and the one that all
      memory words and handles are 64-bit words and that no operation touches
      the padding.  [Metadata]: an interface whose threads also access the
      padding.  [Lifetime]: one whose threads may drop their handles, and what
      that changes.
    - [Clients]: programs that make calls; [follows], which calls and answers
      they can have behind them; [keeps], a program logic for them.
    - [LosslessProducer], [LosslessConsumer]: [lossless/producer.rs] and
      [lossless/consumer.rs], one definition per method.
      [LosslessQueue]: the abstract bounded queue, the relation [represents]
      between it and the channel, each operation as a queue operation.
      [LosslessReservation]: the same for [Reservation].
      [LosslessRefinement]: sequences of calls.
    - [LosslessInterface]: the calls of the two threads, joins included, and
      the values sent and received.  [LosslessProtocol]: what the two sides
      rely on, as a class of memories.  [LosslessOperations]: every operation
      verified once against that class.  [LosslessConcurrent] and
      [LosslessWeak]: its instances for interleaved accesses with crashes and
      restarts, and for release/acquire memory.  [LosslessHeartbeats]: when
      the producer can see the consumer beat.  [LosslessWords]: words.
      [LosslessLifetime]: [impl Drop].
      [LosslessPair]: joins in every state of the memory; [lossless_pair].
    - [LosslessClients]: the loom tests, [examples/lossless.rs] and the two
      programs of the interprocess example, as clients.
      [LosslessClientLogic], [Interprocess]: what they keep.
    - [HeadlessProducer], [HeadlessConsumer], [HeadlessLog],
      [HeadlessRefinement], [HeadlessInterface], [HeadlessWords],
      [HeadlessLifetime], [HeadlessConcurrent], [HeadlessPair]: the same for [headless_spmc/]; the
      abstract object is a log of which a sliding window is readable.
      [HeadlessClients]: [examples/broadcast.rs] and the threads of the
      benchmark ([src/examples/benchmark]), and their logic.
    - [ShmemJoin]: [join_or_create_shmem], [join_shmem], [join_shmem_multi].
      [Process]: sequential programs over the operating system and the memories
      of the objects they map.  [Intraprocess]: the intraprocess example.
      [Benchmark]: the set-up and the end of the benchmark, and
      [benches/bench.rs].
    - [Alloc]: [utils.rs], which is not compiled into the crate.
    - [LosslessTheorems], [HeadlessTheorems], [LifetimeTheorems],
      [SystemTheorems], [WeakTheorems], [ClientTheorems],
      [HeadlessClientTheorems]: the theorems.  The files named [...Witnesses] apply each of them to
      concrete channels, schedules and systems.  [LosslessTests],
      [HeadlessTests]: the unit tests of the crate, evaluated; [MetadataTest]:
      the one with two threads, and metadata among all lossless calls.

    ** What the theorems show

    - Concurrency, lossless: for every interleaving of any calls of a producer
      thread (joins, [push], [sync], [reserve], [write_next], [write_all],
      [write_iter], [commit], [cancel], heartbeats) and a consumer thread
      (joins, [pop], [pop_zerocopy], [Deref], dropping the element,
      heartbeats), and wherever the processes crash and join again, what is
      read is what was sent, in order ([lossless_fifo],
      [lossless_pop_prefix]); no cell read overlaps a write, nothing panics
      ([lossless_no_race_no_panic]); the counters always delimit an intact
      window ([lossless_window]); every call returns after a bounded number
      of its own accesses ([lossless_wait_free]).
    - Concurrency, headless: a value returned is the one pushed at that
      position although reads may be torn ([headless_pops_what_was_pushed]);
      an unlapped consumer misses nothing
      ([headless_unlapped_loses_nothing]); nothing panics
      ([headless_no_panic]).
    - Weak memory: the orderings of the lossless channel are enough
      ([lossless_weak_fifo], [lossless_weak_race_free]); those of the headless
      channel are not ([headless_weak_returns_overwritten]).
    - Types: memory words and handles stay 64-bit words in every execution,
      with no bound on the positions ([lossless_words_stay_words],
      [headless_words_stay_words]).  The padding is left alone, so a word its
      users keep there is theirs ([metadata_synchronized]).
    - Refinement: sequential runs give the replies of the abstract queue
      ([lossless_refines_queue]) and log ([headless_refines_log]); what goes in
      comes out ([lossless_roundtrip], [headless_roundtrip]).
    - Operations: [push], [commit], [write_all] against [write_next],
      [write_iter], zero-copy against [pop], heartbeats, [next_modulo], and
      the panics, one theorem each.
    - Joins and lifetime: what each join does in every state of the memory;
      that pairs and groups start empty; that two processes that map one
      fresh object get one queue.  Handles of one process may be dropped at
      any time, in any order, while other threads are in the middle of their
      calls: the memory is released exactly with the last, and everything
      above still holds ([lossless_drops_any_time],
      [headless_drops_any_time]).
    - Layout, pages, shared memory: offsets, alignment and bounds of the
      cells; sizes are least multiples of the page size; descriptors are
      closed on every path; the errors of [close]; the block [Alloc] takes
      fits a channel and goes back as it was taken.
    - Clients: the assertions of the loom tests hold on release/acquire
      memory; the lossless, interprocess and intraprocess examples deliver
      what they send and fail only if the system fails them.  The
      interprocess example can also wait for ever
      ([interprocess_ack_missed]); the broadcast example always fails its
      own assertion ([broadcast_never_completes]); the benchmark ends only
      if no message is lost ([benchmark_needs_every_message]).
    - Limits of the code that the model makes visible: [write_iter] consumes
      an item it does not write, [push] drops the value it overwrites, a
      stale [head] disables backpressure, a headless channel of capacity 1
      never delivers, releasing the memory drops values that were popped, and
      close to [2 ^ 64] the counters are misjudged
      ([headless_repeats_at_the_limit], [lossless_counters_end]).

    ** Bounds and fuel

    Positions are 64-bit counters that only grow.  In the theorems about
    interleavings the producer makes a call only while its tail is below
    [2^64] less the capacity (less 64 more for headless strides, which are at
    most 64): with a capacity that fits into memory, a channel would have to
    carry close to 2^64 values to reach the limit.  [write_iter] has fuel for
    one item more than the reservation has slots, which its loop cannot
    exceed.  Headless [pop] loops while the producer laps the consumer; its
    fuel is a parameter, two iterations suffice when the producer rests
    ([headless_pop_result]), and the concurrent theorems hold for any fuel, a
    pop that runs out having read nothing; clients repeat such a pop, so for
    them it has no bound.  Clients have no fuel either: [keeps] looks at a
    bounded part of a tree and its rules hold for every bound.

    ** What is not modelled

    Unwinding after a panic is not followed: a panic ends the run.  That it
    drops the handles of its thread is like any other drop of them.
    [DerefMut] on a lent element is an operation but not a call of the
    concurrent interface.  The release/acquire semantics covers threads of
    one process that own their handles from the start, not joins, crashes and
    drops.  That all mappings of one object show the same memory is
    built into [Process] and [shmem_bootstrap].  Terminal output, the
    clock (examples ask it, and any answer is possible; the benchmarks only
    measure with it), the benchmark of the standard library's own channel, the
    selection of [std] or [loom] atomics ([atomic_compat.rs]) and the separate
    C port ([src/c/]) are left out.  Of the padding, only its first eight bytes
    can be accessed, as one atomic word, and only by its users ([Metadata]);
    other uses of the pointers [get_padding_ptr] returns are theirs. *)

From Stdlib Require Export ZArith Lia.
From stdpp Require Export base list option strings numbers pretty.

#[global] Open Scope Z_scope.

(** ** Tactics *)

(** Case analysis on the boolean comparisons of [Z] that occur in the goal or
    in a hypothesis, turning each one into the proposition it decides. *)
Ltac bool_case :=
  match goal with
  | |- context [if ?a =? ?b then _ else _] => destruct (Z.eqb_spec a b)
  | |- context [if ?a <? ?b then _ else _] => destruct (Z.ltb_spec a b)
  | |- context [if ?a <=? ?b then _ else _] => destruct (Z.leb_spec a b)
  | |- context [if ?a >=? ?b then _ else _] => rewrite (Z.geb_leb a b)
  | |- context [if ?a >? ?b then _ else _] => rewrite (Z.gtb_ltb a b)
  | H : context [if ?a =? ?b then _ else _] |- _ => destruct (Z.eqb_spec a b)
  | H : context [if ?a <? ?b then _ else _] |- _ => destruct (Z.ltb_spec a b)
  | H : context [if ?a <=? ?b then _ else _] |- _ => destruct (Z.leb_spec a b)
  end.

Ltac bool_cases := repeat bool_case.

(** ** Hint databases *)

(** [que] holds the facts that discharge side conditions (bounds, lookups);
    [que_run] the equations that execute a program step by step. *)
Create HintDb que.
Create HintDb que_run.

(** ** Lists *)

Lemma list_lookup_snoc_cases {A} (l : list A) (x y : A) (i : nat) :
  (l ++ [x]) !! i = Some y →
  l !! i = Some y ∨ (i = length l ∧ x = y).
Proof.
  intros H. destruct (decide (i < length l)%nat) as [Hi|Hi].
  - rewrite lookup_app_l in H by done. by left.
  - rewrite lookup_app_r in H by lia. apply list_lookup_singleton_Some in H.
    right. destruct H. split; [lia|done].
Qed.

Lemma length_zapp {A} (l k : list A) :
  Z.of_nat (length (l ++ k)) = Z.of_nat (length l) + Z.of_nat (length k).
Proof. rewrite length_app. lia. Qed.

Lemma length_zcons {A} (x : A) (l : list A) :
  Z.of_nat (length (x :: l)) = 1 + Z.of_nat (length l).
Proof. cbn [length]. lia. Qed.

(** A list whose elements are found in another at the same indices is a
    prefix of it. *)
Lemma prefix_of_lookup {A} (l k : list A) :
  (∀ i x, l !! i = Some x → k !! i = Some x) → l `prefix_of` k.
Proof.
  revert k. induction l as [|x l IH]; intros k H; [apply prefix_nil|].
  destruct k as [|y k]; [by specialize (H 0%nat x eq_refl)|].
  specialize (H 0%nat x eq_refl) as Hy. injection Hy as ->.
  apply prefix_cons, IH. intros i z Hi. exact (H (S i) z Hi).
Qed.

(** Strengthens what relates two lists by what is known of the first. *)
Lemma Forall2_and_l {A B} (P R : A → B → Prop) (Q : A → Prop) l k :
  Forall2 P l k → Forall Q l → (∀ x y, P x y → Q x → R x y) → Forall2 R l k.
Proof.
  intros HP HQ HR. induction HP as [|x y l k Hxy HP IH]; [constructor|].
  apply Forall_cons in HQ as [Hx HQ]. constructor; [by apply HR|by apply IH].
Qed.

(** The value of a computation that succeeds. *)
Lemma default_Some {A} (d : A) (o : option A) :
  (if o then true else false) = true → o = Some (default d o).
Proof. by destruct o. Qed.

Lemma take_length_take {A} (l : list A) (n : nat) : take (length (take n l)) l = take n l.
Proof.
  rewrite length_take. destruct (decide (n ≤ length l)%nat).
  - by rewrite Nat.min_l.
  - by rewrite Nat.min_r, !take_ge by lia.
Qed.
