(* ===== verification/Rust.v ===== *)
(** * The fragment of Rust the sources use

    Machine integers are [Z] at their width ([usize] and [u64] are 64 bits
    wide on the supported targets); [+], [-] and [*] on [usize] follow the
    build profile: with overflow checks (debug builds) they panic, without
    (release builds) they wrap.  [res] is the outcome of a computation that
    can panic, [result] is [core::result::Result]. *)

From S2P Require Import Prelude.

(** ** Panics *)

Inductive panic : Type :=
  | AddOverflow
  | SubOverflow
  | MulOverflow
  | DivByZero
  | AssertFailed (msg : string)
  | UnwrapFailed
  | ExplicitPanic (msg : string)
  | OutOfFuel.

#[export] Instance panic_eq_dec : EqDecision panic.
Proof. solve_decision. Defined.

Inductive res (A : Type) : Type :=
  | Val (a : A)
  | Pan (p : panic).
Arguments Val {A} a.
Arguments Pan {A} p.

#[export] Instance res_ret : MRet res := fun A a => Val a.
#[export] Instance res_bind : MBind res := fun A B f m =>
  match m with Val a => f a | Pan p => Pan p end.

(** ** [Result] *)

Inductive result (A E : Type) : Type :=
  | Ok (a : A)
  | Err (e : E).
Arguments Ok {A E} a.
Arguments Err {A E} e.

Definition is_ok {A E} (r : result A E) : bool :=
  match r with Ok _ => true | Err _ => false end.

Definition is_err {A E} (r : result A E) : bool := negb (is_ok r).

Definition unwrap {A E} (r : result A E) : res A :=
  match r with Ok a => Val a | Err _ => Pan UnwrapFailed end.

Definition map_err {A E F} (f : E → F) (r : result A E) : result A F :=
  match r with Ok a => Ok a | Err e => Err (f e) end.

(** [NonNull::new(a).unwrap()] at address [a]. *)
Definition NonNull_new_unwrap (a : Z) : res Z :=
  if a =? 0 then Pan UnwrapFailed else Val a.

Lemma NonNull_new_unwrap_val a : a ≠ 0 → NonNull_new_unwrap a = Val a.
Proof. intros H. unfold NonNull_new_unwrap. by rewrite (proj2 (Z.eqb_neq _ _) H). Qed.

(** ** Integers *)

(** The build profile: are overflow checks compiled in? *)
Class Profile := overflow_checks : bool.

Definition debug_profile : Profile := true.
Definition release_profile : Profile := false.

Notation usize_lim := (2 ^ 64)%Z.
Notation i64_max := (2 ^ 63 - 1)%Z.

Definition wrap64 (x : Z) : Z := x mod usize_lim.

Definition is_usize (x : Z) : Prop := 0 ≤ x < usize_lim.

Section Arithmetic.
Context {prof : Profile}.

(** The value of an arithmetic expression whose mathematical value is [x]. *)
Definition checked (p : panic) (x : Z) : res Z :=
  if (0 <=? x) && (x <? usize_lim) then Val x
  else if overflow_checks then Pan p else Val (wrap64 x).

Definition uadd (x y : Z) : res Z := checked AddOverflow (x + y).
Definition usub (x y : Z) : res Z := checked SubOverflow (x - y).
Definition umul (x y : Z) : res Z := checked MulOverflow (x * y).

Definition urem (x y : Z) : res Z :=
  if y =? 0 then Pan DivByZero else Val (x mod y).
Definition udiv (x y : Z) : res Z :=
  if y =? 0 then Pan DivByZero else Val (x / y).

(** [usize::div_ceil]. *)
Definition div_ceil (x y : Z) : res Z :=
  d ← udiv x y;
  r ← urem x y;
  if 0 <? r then uadd d 1 else Val d.

Lemma checked_val p x : is_usize x → checked p x = Val x.
Proof.
  intros [H1 H2]. unfold checked.
  by rewrite (proj2 (Z.leb_le _ _) H1), (proj2 (Z.ltb_lt _ _) H2).
Qed.

Lemma uadd_val x y : is_usize (x + y) → uadd x y = Val (x + y).
Proof. apply checked_val. Qed.

Lemma usub_val x y : is_usize (x - y) → usub x y = Val (x - y).
Proof. apply checked_val. Qed.

Lemma umul_val x y : is_usize (x * y) → umul x y = Val (x * y).
Proof. apply checked_val. Qed.

Lemma urem_val x y : y ≠ 0 → urem x y = Val (x mod y).
Proof. intros. unfold urem. by rewrite (proj2 (Z.eqb_neq _ _)). Qed.

(** Outside the range the profile decides. *)
Lemma checked_out p x :
  ¬ is_usize x →
  checked p x = if overflow_checks then Pan p else Val (wrap64 x).
Proof.
  unfold checked, is_usize. intros H.
  destruct (Z.leb_spec 0 x); destruct (Z.ltb_spec x usize_lim);
    cbn [andb]; done || lia.
Qed.
End Arithmetic.

(** The wrapping operations never panic. *)
Definition wrapping_add (x y : Z) : Z := wrap64 (x + y).
Definition wrapping_sub (x y : Z) : Z := wrap64 (x - y).

Lemma wrap64_small x : is_usize x → wrap64 x = x.
Proof. apply Z.mod_small. Qed.

Lemma wrap64_is_usize x : is_usize (wrap64 x).
Proof. apply Z.mod_pos_bound. reflexivity. Qed.

(** [i64::try_from(usize)]. *)
Definition try_into_i64 (x : Z) : option Z :=
  if x <=? i64_max then Some x else None.

(** ** [usize::is_power_of_two] *)

Fixpoint pos_count_ones (p : positive) : Z :=
  match p with
  | xH => 1
  | xO q => pos_count_ones q
  | xI q => 1 + pos_count_ones q
  end.

Definition count_ones (x : Z) : Z :=
  match x with Zpos p => pos_count_ones p | _ => 0 end.

Definition is_power_of_two (x : Z) : bool := count_ones x =? 1.

Lemma pos_count_ones_pos p : 1 ≤ pos_count_ones p.
Proof. induction p; cbn [pos_count_ones]; lia. Qed.

Lemma pos_count_ones_1 p :
  pos_count_ones p = 1 → ∃ k, 0 ≤ k ∧ Zpos p = 2 ^ k.
Proof.
  induction p as [q IH|q IH|]; cbn [pos_count_ones].
  - pose proof (pos_count_ones_pos q). lia.
  - intros (k & Hk & E)%IH. exists (k + 1). split; [lia|].
    rewrite Z.pow_add_r by lia. lia.
  - intros _. by exists 0.
Qed.

Lemma is_power_of_two_iff x :
  is_power_of_two x = true ↔ ∃ k, 0 ≤ k ∧ x = 2 ^ k.
Proof.
  unfold is_power_of_two. rewrite Z.eqb_eq. split.
  - destruct x as [|p|p]; cbn [count_ones]; try done. apply pos_count_ones_1.
  - intros (k & Hk & ->). pattern k. apply natlike_ind; [done| |done].
    clear k Hk. intros k Hk IH. rewrite Z.pow_succ_r by done.
    destruct (2 ^ k) as [|p|p] eqn:E; cbn [count_ones] in IH; lia || done.
Qed.

(** A capacity the code accepts: a power of two that fits [usize]. *)
Definition capacity_ok (N : Z) : Prop :=
  is_power_of_two N = true ∧ N < usize_lim.

Lemma capacity_ok_pos N : capacity_ok N → 0 < N < usize_lim.
Proof.
  intros [(k & Hk & ->)%is_power_of_two_iff ?]. split; [|done].
  by apply Z.pow_pos_nonneg.
Qed.

(** A power of two that fits [usize] leaves room for twice its value. *)
Lemma capacity_ok_double N : capacity_ok N → 2 * N ≤ usize_lim.
Proof.
  intros [(k & Hk & ->)%is_power_of_two_iff H].
  apply Z.pow_lt_mono_r_iff in H; [|lia..].
  rewrite <- Z.pow_succ_r by done. apply Z.pow_le_mono_r; lia.
Qed.

(** Masking with [N - 1] is the remainder modulo [N]. *)
Lemma land_mask N x : is_power_of_two N = true → Z.land x (N - 1) = x mod N.
Proof.
  intros (k & Hk & ->)%is_power_of_two_iff.
  rewrite <- Z.land_ones by done. f_equal. rewrite Z.ones_equiv. lia.
Qed.

#[export] Hint Resolve wrap64_is_usize : que.
