(* ===== verification/Ring.v ===== *)
(** * Ring buffers

    The lemmas about [buffer: [T; N]] indexed by positions modulo [N] that
    both channels share.  A position is an unbounded counter; position [p]
    lives in cell [p mod N]. *)

From S2P Require Import Prelude.

Section Ring.
Context {T : Type} (N : Z).
Context (HN : 0 < N).

Implicit Types (buf : list T) (pos : Z) (vs : list T).

(** The cell of position [pos] and its contents. *)
Definition slot (pos : Z) : nat := Z.to_nat (pos mod N).
Definition ring_get buf pos : option T := buf !! slot pos.

(** [buf] holds the values [vs] at the positions from [pos] on. *)
Definition holds buf pos vs : Prop :=
  ∀ i v, vs !! i = Some v → ring_get buf (pos + Z.of_nat i) = Some v.

Lemma slot_lt pos : (slot pos < Z.to_nat N)%nat.
Proof. unfold slot. pose proof (Z.mod_pos_bound pos N HN). lia. Qed.

Lemma slot_Z pos : Z.of_nat (slot pos) = pos mod N.
Proof. unfold slot. pose proof (Z.mod_pos_bound pos N HN). lia. Qed.

(** Two positions less than [N] apart share a cell only if they are equal. *)
Lemma mod_window p q : - N < p - q < N → p mod N = q mod N → p = q.
Proof.
  intros Hw E.
  pose proof (Z.div_mod p N ltac:(lia)). pose proof (Z.div_mod q N ltac:(lia)).
  assert (p - q = N * (p / N - q / N)) by lia.
  assert (p / N - q / N = 0) by nia. lia.
Qed.

Lemma slot_window p q : - N < p - q < N → slot p = slot q → p = q.
Proof.
  intros Hw E. apply mod_window; [done|].
  rewrite <- (slot_Z p), <- (slot_Z q). lia.
Qed.

Lemma ring_get_is_Some buf pos :
  Z.of_nat (length buf) = N → is_Some (ring_get buf pos).
Proof. intros H. apply lookup_lt_is_Some. pose proof (slot_lt pos). lia. Qed.

Lemma ring_get_set_eq buf pos v :
  Z.of_nat (length buf) = N → ring_get (<[slot pos := v]> buf) pos = Some v.
Proof.
  intros H. unfold ring_get. apply list_lookup_insert_eq.
  pose proof (slot_lt pos). lia.
Qed.

Lemma ring_get_set_ne buf p q v :
  - N < p - q < N → p ≠ q →
  ring_get (<[slot p := v]> buf) q = ring_get buf q.
Proof.
  intros Hw Hne. unfold ring_get. apply list_lookup_insert_ne.
  intros E. by apply Hne, slot_window.
Qed.

Lemma holds_nil buf pos : holds buf pos [].
Proof. intros i v. by rewrite lookup_nil. Qed.

Lemma holds_cons buf pos v vs :
  holds buf pos (v :: vs) ↔ ring_get buf pos = Some v ∧ holds buf (pos + 1) vs.
Proof.
  split.
  - intros H. split.
    + rewrite <- (H 0%nat v eq_refl). f_equal. lia.
    + intros i u Hi. rewrite <- (H (S i) u Hi). f_equal. lia.
  - intros [H1 H2] [|i] u Hi; cbn in Hi.
    + injection Hi as ->. rewrite <- H1. f_equal. lia.
    + rewrite <- (H2 i u Hi). f_equal. lia.
Qed.

Lemma holds_app buf pos vs us :
  holds buf pos (vs ++ us) ↔
  holds buf pos vs ∧ holds buf (pos + Z.of_nat (length vs)) us.
Proof.
  revert pos. induction vs as [|v vs IH]; intros pos.
  - cbn [app length]. rewrite Z.add_0_r. split; [|tauto].
    intros; split; [apply holds_nil|done].
  - rewrite <- app_comm_cons, !holds_cons, IH, length_zcons.
    rewrite <- Z.add_assoc. tauto.
Qed.

(** Writing a cell outside the window leaves the window alone. *)
Lemma holds_set_out buf pos vs p v :
  pos + Z.of_nat (length vs) ≤ p → p < pos + N →
  holds buf pos vs → holds (<[slot p := v]> buf) pos vs.
Proof.
  intros H1 H2 H i u Hi. pose proof (lookup_lt_Some _ _ _ Hi).
  rewrite ring_get_set_ne by lia. by apply H.
Qed.

(** Appending at the right end of the window. *)
Lemma holds_snoc buf pos vs v :
  Z.of_nat (length buf) = N → Z.of_nat (length vs) < N →
  holds buf pos vs →
  holds (<[slot (pos + Z.of_nat (length vs)) := v]> buf) pos (vs ++ [v]).
Proof.
  intros Hl Hlt H. apply holds_app. split.
  - apply holds_set_out; [lia..|done].
  - apply holds_cons. split; [|apply holds_nil]. by apply ring_get_set_eq.
Qed.

(** *** Writing a run of consecutive positions *)

Fixpoint ring_fill buf pos vs : list T :=
  match vs with
  | [] => buf
  | v :: vs => ring_fill (<[slot pos := v]> buf) (pos + 1) vs
  end.

Lemma length_ring_fill buf pos vs : length (ring_fill buf pos vs) = length buf.
Proof.
  revert buf pos. induction vs as [|v vs IH]; intros; cbn; [done|].
  by rewrite IH, length_insert.
Qed.

Lemma holds_fill_out buf pos vs p us :
  pos + Z.of_nat (length vs) ≤ p → p + Z.of_nat (length us) ≤ pos + N →
  holds buf pos vs → holds (ring_fill buf p us) pos vs.
Proof.
  revert buf p. induction us as [|u us IH]; intros buf p H1 H2 H; [done|].
  rewrite length_zcons in H2. cbn [ring_fill].
  apply IH; [lia..|]. apply holds_set_out; [lia..|done].
Qed.

Lemma holds_fill buf pos vs :
  Z.of_nat (length buf) = N → Z.of_nat (length vs) ≤ N →
  holds (ring_fill buf pos vs) pos vs.
Proof.
  revert buf pos. induction vs as [|v vs IH]; intros buf pos Hl Hv;
    [apply holds_nil|].
  rewrite length_zcons in Hv. apply holds_cons. cbn [ring_fill]. split.
  - assert (H : holds (<[slot pos := v]> buf) pos [v]).
    { apply holds_cons. split; [|apply holds_nil]. by apply ring_get_set_eq. }
    apply (holds_fill_out _ pos [v] (pos + 1) vs) in H; [|cbn; lia..].
    by apply holds_cons in H as [? _].
  - apply IH; [by rewrite length_insert|lia].
Qed.

(** A run that does not reach the end of the buffer is contiguous. *)
Lemma slot_succ pos : pos mod N + 1 < N → slot (pos + 1) = S (slot pos).
Proof.
  intros H. pose proof (Z.mod_pos_bound pos N HN).
  apply Nat2Z.inj. rewrite Nat2Z.inj_succ, !slot_Z.
  rewrite <- Z.add_mod_idemp_l by lia. rewrite Z.mod_small by lia. lia.
Qed.

Lemma slot_wrap pos : slot (pos + (N - pos mod N)) = 0%nat.
Proof.
  apply Nat2Z.inj. rewrite slot_Z.
  replace (pos + (N - pos mod N)) with ((pos / N + 1) * N).
  - by rewrite Z.mod_mul by lia.
  - pose proof (Z.div_mod pos N ltac:(lia)). lia.
Qed.
End Ring.
