(* ===== verification/Errors.v ===== *)
(** * Error values

    [QueError] of [src/que/src/lib.rs] and [ShmemError] of
    [src/que/src/shmem.rs], with their conversions and messages.  [Errno] is
    nix's enumeration of the operating system's error numbers, kept as the
    number ([e as i32]). *)

From S2P Require Import Prelude.
From S2P Require Import Rust.

Definition Errno : Type := Z.
Definition EBADF : Errno := 9.
Definition ENOMEM : Errno := 12.
Definition EACCES : Errno := 13.

Inductive ShmemError : Type :=
  | BadFileDescriptor
  | AllocationFailedErr
  | InvalidPermissions
  | UnlinkError
  | ShmemErrno (e : Z).

#[export] Instance ShmemError_eq_dec : EqDecision ShmemError.
Proof. solve_decision. Defined.

Inductive QueError : Type :=
  | CorruptionDetected
  | InvalidSize
  | Uninitialized
  | IncorrectCapacity (capacity : Z)
  | QueShmemError (e : ShmemError)
  | Full.

#[export] Instance QueError_eq_dec : EqDecision QueError.
Proof. solve_decision. Defined.

(** [impl From<ShmemError> for QueError]. *)
Definition QueError_from (value : ShmemError) : QueError := QueShmemError value.

(** [impl From<Errno> for ShmemError]. *)
Definition ShmemError_from (e : Errno) : ShmemError :=
  if e =? EBADF then BadFileDescriptor
  else if e =? ENOMEM then AllocationFailedErr
  else if e =? EACCES then InvalidPermissions
  else ShmemErrno e.

(** [impl Debug for ShmemError]; [Display] prints the same text. *)
Definition ShmemError_fmt (self : ShmemError) : string :=
  match self with
  | BadFileDescriptor => "Bad file descriptor for shared memory object"
  | AllocationFailedErr =>
      "Failed to allocate shared memory. If using huge/gigantic pages, have you preallocated pages?"
  | InvalidPermissions =>
      "Invalid permissions for opening/mmaping shared memory object"
  | UnlinkError => "Failed to unlink huge page"
  | ShmemErrno e => "Other system error: " +:+ pretty e
  end.

(** The conversion keeps distinct error numbers apart: no information about
    the failed call is lost. *)
Lemma ShmemError_from_inj e1 e2 :
  ShmemError_from e1 = ShmemError_from e2 → e1 = e2.
Proof.
  unfold ShmemError_from, EBADF, ENOMEM, EACCES.
  bool_cases; intros E; simplify_eq; done.
Qed.

Lemma ShmemError_from_not_unlink e : ShmemError_from e ≠ UnlinkError.
Proof. unfold ShmemError_from. by bool_cases. Qed.

(** [impl Display for QueError]: the derived [Debug]. *)
Definition QueError_fmt (self : QueError) : string :=
  match self with
  | CorruptionDetected => "CorruptionDetected"
  | InvalidSize => "InvalidSize"
  | Uninitialized => "Uninitialized"
  | IncorrectCapacity capacity => "IncorrectCapacity(" +:+ pretty capacity +:+ ")"
  | QueShmemError e => "ShmemError(" +:+ ShmemError_fmt e +:+ ")"
  | Full => "Full"
  end.

Lemma ShmemError_fmt_inj e1 e2 : ShmemError_fmt e1 = ShmemError_fmt e2 → e1 = e2.
Proof. destruct e1, e2; cbn; intros H; by simplify_eq. Qed.

Lemma closing_inj s1 s2 : s1 +:+ ")" = s2 +:+ ")" → s1 = s2.
Proof.
  revert s2. induction s1 as [|a s1 IH]; intros [|b s2]; cbn; intros H; simplify_eq; try done.
  - by destruct s2.
  - by destruct s1.
  - f_equal. by apply IH.
Qed.

(** Different errors print different messages. *)
Lemma QueError_fmt_inj e1 e2 : QueError_fmt e1 = QueError_fmt e2 → e1 = e2.
Proof.
  destruct e1 as [| | |n1|s1|], e2 as [| | |n2|s2|]; cbn; try done; intros H; simplify_eq.
  - apply closing_inj in H. by apply (inj pretty) in H as ->.
  - f_equal. by apply ShmemError_fmt_inj, closing_inj.
Qed.
