(* ===== verification/Channel.v ===== *)
(** * The shared channel and the programs that access it

    [Channel] is the structure of [src/que/src/lib.rs] that producer and
    consumer share.  The operations of both channels are programs ([prog]):
    finite trees of accesses to the shared memory, in the order in which the
    code performs them, each atomic access with the ordering the code asks
    for.  One program text has two semantics:

    - [run] executes a program alone (the sequential semantics, executable);
    - [act_step] is one access by one of several threads; accesses to a cell
      of the buffer are not atomic: a write has a beginning and an end, and a
      read that overlaps a write yields an arbitrary value (a torn read).

    The world also carries what a run leaves behind besides the channel: the
    strong count of the [Arc] that owns a process-local channel, the values
    the operations have dropped (overwritten cells, locals that go out of
    scope, the buffer with the last [Arc]; not what unwinding from a panic or
    a caller drops), and two instruments no program can observe
    ([published]: the value each position had when [tail] moved past it;
    [begun]/[ended]: how many writes of a cell have started and finished). *)

From S2P Require Import Prelude.
From S2P Require Import Rust.
From S2P Require Import Ring.

(** ** Data *)

(** The atomic fields of [Channel], and the first eight bytes of its padding:
    the padding is the user's, who may access it as an [AtomicU64]. *)
Inductive loc : Type :=
  | TAIL
  | HEAD
  | PRODUCER_HEARTBEAT
  | CONSUMER_HEARTBEAT
  | CAPACITY
  | MAGIC_WORD
  | PADDING.

#[export] Instance loc_eq_dec : EqDecision loc.
Proof. solve_decision. Defined.

(** The orderings of [std::sync::atomic], less the two stronger ones, which
    the code does not use. *)
Inductive ordering : Type := Relaxed | Acquire | Release.

(** [ShmemMode] and [LocalMode] with [ChannelMode::BACKED_BY_ARCC]. *)
Inductive mode : Type := ShmemMode | LocalMode.

Definition BACKED_BY_ARCC (M : mode) : bool :=
  match M with ShmemMode => false | LocalMode => true end.

(** [u64::from_le_bytes]. *)
Fixpoint from_le_bytes (bs : list Z) : Z :=
  match bs with [] => 0 | b :: bs => b + 256 * from_le_bytes bs end.

(** [u64::to_le_bytes], for a word of [n] bytes. *)
Fixpoint to_le_bytes (n : nat) (x : Z) : list Z :=
  match n with
  | O => []
  | S n => x mod 256 :: to_le_bytes n (x / 256)
  end.

Lemma to_le_bytes_length n x : length (to_le_bytes n x) = n.
Proof. revert x. induction n as [|n IH]; intros x; cbn; [done|]. by rewrite IH. Qed.

Lemma from_to_le_bytes n x :
  0 ≤ x < 256 ^ Z.of_nat n → from_le_bytes (to_le_bytes n x) = x.
Proof.
  revert x. induction n as [|n IH]; intros x Hx; [cbn in *; lia|].
  rewrite Nat2Z.inj_succ, Z.pow_succ_r in Hx by lia. cbn.
  rewrite IH; [pose proof (Z.div_mod x 256 ltac:(done)); lia|].
  split; [apply Z.div_pos; lia|apply Z.div_lt_upper_bound; lia].
Qed.

(** [*b"TEMPORAL"]. *)
Definition TEMPORAL : list Z :=
  (fun a => Z.of_nat (Ascii.nat_of_ascii a)) <$> String.list_ascii_of_string "TEMPORAL".

Definition MAGIC : Z := from_le_bytes TEMPORAL.
#[global] Arguments MAGIC : simpl never.

Lemma MAGIC_nonzero : MAGIC ≠ 0.
Proof. done. Qed.

Record Channel (T : Type) : Type := mkChannel {
  tail : Z;
  head : Z;
  producer_heartbeat : Z;
  consumer_heartbeat : Z;
  padding : list Z;
  capacity : Z;
  magic : Z;
  buffer : list T
}.
Arguments mkChannel {T}.
Arguments tail {T}. Arguments head {T}.
Arguments producer_heartbeat {T}. Arguments consumer_heartbeat {T}.
Arguments padding {T}. Arguments capacity {T}. Arguments magic {T}.
Arguments buffer {T}.

(** [core::mem::zeroed]: every field zero, every element the value [zeroed]
    whose representation is all zero bits. *)
Definition zeroed_channel {T} (zeroed : T) (N : Z) : Channel T :=
  mkChannel 0 0 0 0 (replicate 112 0) 0 0 (replicate (Z.to_nat N) zeroed).

Definition get_loc {T} (l : loc) (c : Channel T) : Z :=
  match l with
  | TAIL => tail c
  | HEAD => head c
  | PRODUCER_HEARTBEAT => producer_heartbeat c
  | CONSUMER_HEARTBEAT => consumer_heartbeat c
  | CAPACITY => capacity c
  | MAGIC_WORD => magic c
  | PADDING => from_le_bytes (take 8 (padding c))
  end.

Definition set_loc {T} (l : loc) (v : Z) (c : Channel T) : Channel T :=
  let put t h ph ch cap mg := mkChannel t h ph ch (padding c) cap mg (buffer c) in
  let pad := to_le_bytes 8 v ++ drop 8 (padding c) in
  let ph := producer_heartbeat c in
  let ch := consumer_heartbeat c in
  match l with
  | TAIL => put v (head c) ph ch (capacity c) (magic c)
  | HEAD => put (tail c) v ph ch (capacity c) (magic c)
  | PRODUCER_HEARTBEAT => put (tail c) (head c) v ch (capacity c) (magic c)
  | CONSUMER_HEARTBEAT => put (tail c) (head c) ph v (capacity c) (magic c)
  | CAPACITY => put (tail c) (head c) ph ch v (magic c)
  | MAGIC_WORD => put (tail c) (head c) ph ch (capacity c) v
  | PADDING => mkChannel (tail c) (head c) ph ch pad (capacity c) (magic c) (buffer c)
  end.

Lemma get_set_padding {T} v (c : Channel T) :
  0 ≤ v < 2 ^ 64 → get_loc PADDING (set_loc PADDING v c) = v.
Proof.
  intros Hv. change (from_le_bytes (take 8 (to_le_bytes 8 v ++ drop 8 (padding c))) = v).
  rewrite take_app_length'; [by apply from_to_le_bytes|by rewrite to_le_bytes_length].
Qed.

Definition set_buffer {T} (buf : list T) (c : Channel T) : Channel T :=
  mkChannel (tail c) (head c) (producer_heartbeat c) (consumer_heartbeat c)
    (padding c) (capacity c) (magic c) buf.

Record World (T : Type) : Type := mkWorld {
  chan : Channel T;
  strong : Z;                   (* strong count of the owning Arc *)
  freed : bool;                 (* the Arc's allocation has been released *)
  dropped : list T;             (* values on which drop glue has run *)
  published : Z → option T;
  begun : nat → nat;
  ended : nat → nat
}.
Arguments mkWorld {T}.
Arguments chan {T}. Arguments strong {T}. Arguments freed {T}.
Arguments dropped {T}. Arguments published {T}.
Arguments begun {T}. Arguments ended {T}.

(** Shared memory that holds channel [c], before any access. *)
Definition world_of {T} (c : Channel T) : World T :=
  mkWorld c 1 false [] (fun _ => None) (fun _ => 0%nat) (fun _ => 0%nat).

(** ** Accesses *)

(** The elementary accesses: atomic loads, stores and read-modify-writes, the
    two halves of a read and of a write of a buffer cell ([drops] says that
    the write is an assignment, which drops the value it overwrites), the end
    of the scope of a value that has not been moved, and the changes of the
    [Arc]'s strong count. *)
Inductive act (T : Type) : Type → Type :=
  | Load (l : loc) (o : ordering) : act T Z
  | Store (l : loc) (o : ordering) (v : Z) : act T unit
  | FetchAdd (l : loc) (o : ordering) (d : Z) : act T Z
  | ReadBegin (i : nat) : act T (nat * nat)
  | ReadEnd (i : nat) (stamp : nat * nat) : act T T
  | WriteBegin (i : nat) (drops : bool) : act T unit
  | WriteEnd (i : nat) (v : T) : act T unit
  | DropValue (v : T) : act T unit
  | ArcIncrement : act T unit
  | ArcDrop : act T unit.
Arguments Load {T}. Arguments Store {T}. Arguments FetchAdd {T}.
Arguments ReadBegin {T}. Arguments ReadEnd {T}.
Arguments WriteBegin {T}. Arguments WriteEnd {T}.
Arguments DropValue {T}. Arguments ArcIncrement {T}. Arguments ArcDrop {T}.

Section Accesses.
Context {T : Type} (N : Z).
Implicit Types (w : World T) (c : Channel T).

Definition with_chan c w : World T :=
  mkWorld c (strong w) (freed w) (dropped w) (published w) (begun w) (ended w).

(** A store to [tail] publishes the positions it moves past. *)
Definition publish (t' : Z) w : Z → option T := fun p =>
  if (tail (chan w) <=? p) && (p <? t') then ring_get N (buffer (chan w)) p
  else published w p.

Definition do_store (l : loc) (v : Z) w : World T :=
  mkWorld (set_loc l v (chan w)) (strong w) (freed w) (dropped w)
    (if decide (l = TAIL) then publish v w else published w)
    (begun w) (ended w).

Definition bump (f : nat → nat) (i : nat) : nat → nat :=
  fun j => if decide (i = j) then S (f j) else f j.

Lemma bump_ne f i j : i ≠ j → bump f i j = f j.
Proof. intros. unfold bump. by rewrite decide_False. Qed.

Definition do_write_begin (i : nat) (drops : bool) w : World T :=
  mkWorld (chan w) (strong w) (freed w)
    (if drops then dropped w ++ option_list (buffer (chan w) !! i) else dropped w)
    (published w) (bump (begun w) i) (ended w).

Definition do_write_end (i : nat) (v : T) w : World T :=
  mkWorld (set_buffer (<[i := v]> (buffer (chan w))) (chan w))
    (strong w) (freed w) (dropped w) (published w)
    (begun w) (bump (ended w) i).

Definition do_drop_value (v : T) w : World T :=
  mkWorld (chan w) (strong w) (freed w) (dropped w ++ [v]) (published w)
    (begun w) (ended w).

Definition with_strong (s : Z) w : World T :=
  mkWorld (chan w) s (freed w) (dropped w) (published w) (begun w) (ended w).

(** Dropping the last [Arc] drops the channel, hence its buffer. *)
Definition do_arc_drop w : World T :=
  if strong w =? 1 then
    mkWorld (chan w) 0 true (dropped w ++ buffer (chan w))
      (published w) (begun w) (ended w)
  else with_strong (strong w - 1) w.

Lemma do_arc_drop_shared w :
  strong w ≠ 1 → do_arc_drop w = with_strong (strong w - 1) w.
Proof. intros H. unfold do_arc_drop. by rewrite (proj2 (Z.eqb_neq _ _) H). Qed.

Lemma published_store_new t' w x :
  tail (chan w) ≤ x < t' →
  published (do_store TAIL t' w) x = ring_get N (buffer (chan w)) x.
Proof.
  intros [H1%Z.leb_le H2%Z.ltb_lt].
  change (publish t' w x = ring_get N (buffer (chan w)) x).
  unfold publish. by rewrite H1, H2.
Qed.

Lemma published_store_old t' w x :
  x < tail (chan w) → published (do_store TAIL t' w) x = published w x.
Proof.
  intros H%Z.leb_gt. change (publish t' w x = published w x).
  unfold publish. by rewrite H.
Qed.

(** Moving [tail] back or not at all publishes nothing. *)
Lemma published_store_same t' w x :
  t' ≤ tail (chan w) → published (do_store TAIL t' w) x = published w x.
Proof.
  intros H. change (publish t' w x = published w x). unfold publish.
  destruct (Z.leb_spec (tail (chan w)) x), (Z.ltb_spec x t'); done || lia.
Qed.

(** One access by a thread of several.  No access is possible to memory
    that has been freed or beyond the buffer. *)
Definition act_step {X} (a : act T X) : World T → X → World T → Prop :=
  match a with
  | Load l _ => fun w x w' =>
      freed w = false ∧ x = get_loc l (chan w) ∧ w' = w
  | Store l _ v => fun w x w' => freed w = false ∧ w' = do_store l v w
  | FetchAdd l _ d => fun w x w' =>
      freed w = false ∧ x = get_loc l (chan w) ∧
      w' = do_store l (wrap64 (x + d)) w
  | ReadBegin i => fun w x w' =>
      freed w = false ∧ x = (begun w i, ended w i) ∧ w' = w
  | ReadEnd i s => fun w x w' =>
      freed w = false ∧ w' = w ∧
      ∃ u, buffer (chan w) !! i = Some u ∧
           (s.1 = s.2 → begun w i = s.1 → x = u)
  | WriteBegin i d => fun w x w' =>
      freed w = false ∧ (i < length (buffer (chan w)))%nat ∧
      w' = do_write_begin i d w
  | WriteEnd i v => fun w x w' =>
      freed w = false ∧ (i < length (buffer (chan w)))%nat ∧
      w' = do_write_end i v w
  | DropValue v => fun w x w' => freed w = false ∧ w' = do_drop_value v w
  | ArcIncrement => fun w x w' =>
      freed w = false ∧ w' = with_strong (strong w + 1) w
  | ArcDrop => fun w x w' => freed w = false ∧ w' = do_arc_drop w
  end.

(** The same access, alone: reads are not torn. *)
Definition act_run {X} (a : act T X) (w : World T) : option (X * World T) :=
  if freed w then None else
  match a in act _ X return option (X * World T) with
  | Load l _ => Some (get_loc l (chan w), w)
  | Store l _ v => Some (tt, do_store l v w)
  | FetchAdd l _ d =>
      Some (get_loc l (chan w),
            do_store l (wrap64 (get_loc l (chan w) + d)) w)
  | ReadBegin i => Some ((begun w i, ended w i), w)
  | ReadEnd i _ => (fun u => (u, w)) <$> buffer (chan w) !! i
  | WriteBegin i d =>
      if decide (i < length (buffer (chan w)))%nat
      then Some (tt, do_write_begin i d w) else None
  | WriteEnd i v =>
      if decide (i < length (buffer (chan w)))%nat
      then Some (tt, do_write_end i v w) else None
  | DropValue v => Some (tt, do_drop_value v w)
  | ArcIncrement => Some (tt, with_strong (strong w + 1) w)
  | ArcDrop => Some (tt, do_arc_drop w)
  end.

(** The sequential semantics is one of the behaviours of the other. *)
Lemma act_run_step {X} (a : act T X) w x w' :
  act_run a w = Some (x, w') → act_step a w x w'.
Proof.
  unfold act_run. destruct (freed w) eqn:Hf; [done|].
  destruct a; cbn; try (intros; simplify_eq; by auto).
  - intros ([u E] & -> & Hu)%fmap_Some || intros H.
    apply fmap_Some in H as (u & Hu & [= <- <-]). eauto 10.
  - case_decide; intros; simplify_eq; auto.
  - case_decide; intros; simplify_eq; auto.
Qed.
End Accesses.

(** ** Programs *)

Inductive prog (T A : Type) : Type :=
  | Ret (a : A)
  | Panic (p : panic)
  | Do (X : Type) (a : act T X) (k : X → prog T A).
Arguments Ret {T A}. Arguments Panic {T A}. Arguments Do {T A X}.

Fixpoint prog_bind {T A B} (f : A → prog T B) (m : prog T A) : prog T B :=
  match m with
  | Ret a => f a
  | Panic p => Panic p
  | Do a k => Do a (fun x => prog_bind f (k x))
  end.

#[export] Instance prog_mret {T} : MRet (prog T) := fun A a => Ret a.
#[export] Instance prog_mbind {T} : MBind (prog T) := fun A B f m => prog_bind f m.

Definition lift {T A} (r : res A) : prog T A :=
  match r with Val a => Ret a | Pan p => Panic p end.

Definition assert {T} (b : bool) (msg : string) : prog T unit :=
  if b then Ret tt else Panic (AssertFailed msg).

Section Operations.
Context {T : Type}.

Definition load (l : loc) (o : ordering) : prog T Z := Do (Load l o) Ret.
Definition store (l : loc) (o : ordering) (v : Z) : prog T unit :=
  Do (Store l o v) Ret.
Definition fetch_add (l : loc) (o : ordering) (d : Z) : prog T Z :=
  Do (FetchAdd l o d) Ret.

(** [ptr::read(buffer.add(i))]. *)
Definition read_cell (i : nat) : prog T T :=
  Do (ReadBegin i) (fun s => Do (ReadEnd i s) Ret).

(** [*buffer.add(i) = v]: drops the overwritten value. *)
Definition assign_cell (i : nat) (v : T) : prog T unit :=
  Do (WriteBegin i true) (fun _ => Do (WriteEnd i v) Ret).

(** One element of a [copy_nonoverlapping]. *)
Definition copy_cell (i : nat) (v : T) : prog T unit :=
  Do (WriteBegin i false) (fun _ => Do (WriteEnd i v) Ret).

(** [copy_nonoverlapping(vs, buffer.add(i), vs.len())]. *)
Fixpoint copy_nonoverlapping (i : nat) (vs : list T) : prog T unit :=
  match vs with
  | [] => Ret tt
  | v :: vs => _ ← copy_cell i v; copy_nonoverlapping (S i) vs
  end.

(** A local value goes out of scope. *)
Definition drop_value (v : T) : prog T unit := Do (DropValue v) Ret.

Definition arc_increment : prog T unit := Do ArcIncrement Ret.
Definition arc_drop : prog T unit := Do ArcDrop Ret.
End Operations.

(** ** Running a program alone *)

Inductive outcome (T A : Type) : Type :=
  | Done (a : A) (w : World T)
  | Panicked (p : panic) (w : World T)
  | UB.
Arguments Done {T A}. Arguments Panicked {T A}. Arguments UB {T A}.

Fixpoint run {T A} (N : Z) (m : prog T A) (w : World T) : outcome T A :=
  match m with
  | Ret a => Done a w
  | Panic p => Panicked p w
  | Do a k =>
      match act_run N a w with
      | Some (x, w') => run N (k x) w'
      | None => UB
      end
  end.

(** The value a program returns, if it returns. *)
Definition value {T A} (o : outcome T A) : option A :=
  match o with Done a _ => Some a | _ => None end.

(** Sequencing of outcomes. *)
Definition obind {T A B} (o : outcome T A) (f : A → World T → outcome T B) :
    outcome T B :=
  match o with
  | Done a w => f a w
  | Panicked p w => Panicked p w
  | UB => UB
  end.

Section Running.
Context {T : Type} (N : Z).
Implicit Types (w : World T).

Lemma run_bind {A B} (m : prog T A) (f : A → prog T B) w :
  run N (m ≫= f) w = obind (run N m w) (fun a w' => run N (f a) w').
Proof.
  revert w. induction m as [a|p|X a k IH]; intros w; [done..|].
  cbn. destruct (act_run N a w) as [[x w']|]; [|done]. apply IH.
Qed.

Lemma run_ret {A} (a : A) w : run N (mret a) w = Done a w.
Proof. done. Qed.

Lemma run_Ret {A} (a : A) w : run N (Ret a) w = Done a w.
Proof. done. Qed.

Lemma run_lift {A} (r : res A) (a : A) w :
  r = Val a → run N (lift r) w = Done a w.
Proof. by intros ->. Qed.

Lemma run_load l o w :
  freed w = false → run N (load l o) w = Done (get_loc l (chan w)) w.
Proof. intros H. cbn. unfold act_run. by rewrite H. Qed.

Lemma run_store l o v w :
  freed w = false → run N (store l o v) w = Done tt (do_store N l v w).
Proof. intros H. cbn. unfold act_run. by rewrite H. Qed.

Lemma run_fetch_add l o d w :
  freed w = false →
  run N (fetch_add l o d) w =
  Done (get_loc l (chan w)) (do_store N l (wrap64 (get_loc l (chan w) + d)) w).
Proof. intros H. cbn. unfold act_run. by rewrite H. Qed.

Lemma run_read_cell i u w :
  freed w = false → buffer (chan w) !! i = Some u →
  run N (read_cell i) w = Done u w.
Proof.
  intros H Hu. unfold read_cell. cbn [run]. unfold act_run. rewrite H.
  cbn [run]. by rewrite H, Hu.
Qed.

Lemma run_drop_value v w :
  freed w = false → run N (drop_value v) w = Done tt (do_drop_value v w).
Proof. intros H. cbn. unfold act_run. by rewrite H. Qed.

(** The effect of a whole write. *)
Definition do_write (i : nat) (drops : bool) (v : T) w : World T :=
  do_write_end i v (do_write_begin i drops w).

Lemma run_write_cell i d v w :
  freed w = false → (i < length (buffer (chan w)))%nat →
  run N (Do (WriteBegin i d) (fun _ => Do (WriteEnd i v) Ret)) w =
  Done tt (do_write i d v w).
Proof.
  intros H Hi. cbn. unfold act_run. rewrite H.
  rewrite decide_True by done. cbn. rewrite H. by rewrite decide_True.
Qed.

Lemma run_assign_cell i v w :
  freed w = false → (i < length (buffer (chan w)))%nat →
  run N (assign_cell i v) w = Done tt (do_write i true v w).
Proof. apply run_write_cell. Qed.

Lemma run_copy_cell i v w :
  freed w = false → (i < length (buffer (chan w)))%nat →
  run N (copy_cell i v) w = Done tt (do_write i false v w).
Proof. apply run_write_cell. Qed.

(** *** The [Arc] of a process-local channel *)

(** Dropping [n] handles, one after the other. *)
Fixpoint arc_drops (n : nat) : prog T unit :=
  match n with
  | O => mret tt
  | S n => _ ← arc_drop; arc_drops n
  end.

Lemma run_arc_drop w :
  freed w = false → run N arc_drop w = Done tt (do_arc_drop w).
Proof. intros H. cbn. unfold act_run. by rewrite H. Qed.

(** The memory is released with the last handle, and the buffer is dropped
    with it. *)
Lemma run_arc_drops n w :
  freed w = false → 0 < Z.of_nat n ≤ strong w →
  ∃ w', run N (arc_drops n) w = Done tt w' ∧
    strong w' = strong w - Z.of_nat n ∧
    freed w' = (strong w =? Z.of_nat n) ∧
    dropped w' = dropped w ++
      (if strong w =? Z.of_nat n then buffer (chan w) else []).
Proof.
  revert w. induction n as [|n IH]; intros w Hf Hn; [lia|].
  cbn [arc_drops]. rewrite run_bind, run_arc_drop by done. cbn [obind].
  unfold do_arc_drop.
  destruct (Z.eqb_spec (strong w) 1) as [E|E].
  - assert (n = 0%nat) as -> by lia. eexists. split; [done|].
    rewrite E. cbn. auto.
  - destruct n as [|n].
    + eexists. split; [done|]. rewrite (proj2 (Z.eqb_neq _ _)) by lia.
      cbn. rewrite app_nil_r. split_and!; done || lia.
    + destruct (IH (with_strong (strong w - 1) w)) as (w' & Ew & H1 & H2 & H3);
        [done|cbn; lia|].
      exists w'. split; [exact Ew|]. rewrite H1, H2, H3. cbn [strong with_strong].
      replace (strong w - 1 =? Z.of_nat (S n)) with (strong w =? Z.of_nat (S (S n)))
        by (apply eq_true_iff_eq; rewrite !Z.eqb_eq; lia).
      split_and!; [lia|done|done].
Qed.

End Running.

#[export] Hint Rewrite @length_insert : que_run.

Lemma run_lift_bind {T A B} N (r : res A) (a : A) (f : A → prog T B) w :
  r = Val a → run N (lift r ≫= f) w = run N (f a) w.
Proof. by intros ->. Qed.

(** [run_step] executes the first access of a sequential run; [run_lift]
    evaluates the arithmetic that comes next, [tac] proving that it does not
    overflow. *)
Ltac run_step :=
  rewrite run_bind;
  first
    [ rewrite run_load by done
    | rewrite run_store by done
    | rewrite run_fetch_add by done
    | erewrite run_read_cell by (first [ done | eassumption ])
    | rewrite run_assign_cell by (try done; autorewrite with que_run; eauto with que)
    | rewrite run_copy_cell by (try done; autorewrite with que_run; eauto with que)
    | rewrite run_drop_value by done
    | rewrite run_ret ];
  cbn [obind].

Tactic Notation "run_lift" tactic3(tac) :=
  erewrite run_lift_bind;
  [| first [ apply uadd_val | apply usub_val | apply umul_val
           | apply urem_val | reflexivity ]; unfold is_usize; tac].
