(* ===== verification/PageSize.v ===== *)
(** * Page sizes

    [src/que/src/page_size.rs] on Linux.  The system page size comes from
    [sysconf(PAGE_SIZE)], which is an argument here. *)

From S2P Require Import Prelude.
From S2P Require Import Rust.
From S2P Require Import Errors.

(** [size.div_ceil(page_size)] divides, [*] is checked or wraps. *)
Definition get_upligned_size {prof : Profile} (page_size size : Z) : res Z :=
  d ← div_ceil size page_size;
  umul page_size d.

Inductive PageSize : Type := Standard | Huge | Gigantic.

Definition GIGANTIC : Z := Z.shiftl 1 30.
Definition HUGE : Z := Z.shiftl 1 21.

(** What [sysconf] returns: an error, no value, or a [c_long]. *)
Definition sysconf_result : Type := result (option Z) Errno.

(** [PageSize::standard]: two [expect]s, [try_into().unwrap()]. *)
Definition standard (sysconf : sysconf_result) : res Z :=
  match sysconf with
  | Err _ => Pan (ExplicitPanic "unable to get default page size")
  | Ok None => Pan (ExplicitPanic "unable to get default page size")
  | Ok (Some n) => if n <? 0 then Pan UnwrapFailed else Val n
  end.

Definition mem_size {prof : Profile} (sysconf : sysconf_result) (self : PageSize)
    (size : Z) : res Z :=
  match self with
  | Standard => page ← standard sysconf; get_upligned_size page size
  | Huge => get_upligned_size HUGE size
  | Gigantic => get_upligned_size GIGANTIC size
  end.

Definition is_huge (self : PageSize) : bool :=
  match self with Huge => true | _ => false end.

Definition is_gigantic (self : PageSize) : bool :=
  match self with Gigantic => true | _ => false end.

(** The size of one page. *)
Definition page_bytes (system : Z) (self : PageSize) : Z :=
  match self with Standard => system | Huge => HUGE | Gigantic => GIGANTIC end.

Section Sizes.
Context {prof : Profile}.

(** The least multiple of [page] that is not below [size]. *)
Definition uplign (page size : Z) : Z := page * ((size + page - 1) / page).

Lemma uplign_spec page size :
  0 < page → uplign page size mod page = 0 ∧ size ≤ uplign page size < size + page.
Proof.
  intros Hp. unfold uplign. rewrite Z.mul_comm, Z.mod_mul by lia.
  pose proof (Z.div_mod (size + page - 1) page ltac:(lia)).
  pose proof (Z.mod_pos_bound (size + page - 1) page Hp). split; [done|lia].
Qed.

Lemma div_ceil_val x y :
  0 ≤ x < usize_lim → 0 < y → div_ceil x y = Val ((x + y - 1) / y).
Proof.
  intros Hx Hy. unfold div_ceil, udiv. rewrite (proj2 (Z.eqb_neq _ _)) by lia.
  cbn [mbind res_bind]. rewrite urem_val by lia. cbn [mbind res_bind].
  pose proof (Z.div_mod x y ltac:(lia)). pose proof (Z.mod_pos_bound x y Hy).
  pose proof (Z.div_pos x y ltac:(lia) Hy).
  assert (x / y ≤ x) by (apply Z.div_le_upper_bound; nia).
  destruct (Z.ltb_spec 0 (x mod y)).
  - assert (y ≠ 1) by (intros ->; rewrite Z.mod_1_r in *; lia).
    assert (x / y < usize_lim - 1) by (apply Z.div_lt_upper_bound; nia).
    rewrite uadd_val by (unfold is_usize; lia). f_equal.
    apply Z.div_unique with (x mod y - 1); lia.
  - f_equal. apply Z.div_unique with (y - 1); lia.
Qed.

Lemma get_upligned_size_val page size :
  0 < page → 0 ≤ size → size + page ≤ usize_lim →
  get_upligned_size page size = Val (uplign page size).
Proof.
  intros Hp Hs Hb. unfold get_upligned_size. rewrite div_ceil_val by lia.
  cbn [mbind res_bind]. destruct (uplign_spec page size Hp) as [_ Hu].
  unfold uplign in *. apply umul_val. unfold is_usize. lia.
Qed.

Lemma mem_size_val system self size :
  0 < system ≤ GIGANTIC → 0 ≤ size ≤ i64_max →
  mem_size (Ok (Some system)) self size = Val (uplign (page_bytes system self) size).
Proof.
  intros Hp Hs. assert (EG : GIGANTIC = 1073741824) by done.
  assert (EH : HUGE = 2097152) by done.
  destruct self; cbn [mem_size standard page_bytes].
  - rewrite (proj2 (Z.ltb_ge _ _)) by lia. cbn [mbind res_bind].
    apply get_upligned_size_val; lia.
  - apply get_upligned_size_val; lia.
  - apply get_upligned_size_val; lia.
Qed.
End Sizes.
