(* ===== verification/Layout.v ===== *)
(** * Memory layout of the channel

    [Channel] is [repr(C, align(128))] ([src/que/src/lib.rs]) and its counters
    are wrapped to 128 bytes each ([src/que/src/padded_atomic.rs]).  The
    layout of a [repr(C)] structure is the one the Rust reference defines:
    fields in order, each at the next multiple of its alignment, the total
    rounded up to the largest alignment. *)

From S2P Require Import Prelude.
From S2P Require Import Rust.

Record field : Type := mkField { f_size : Z; f_align : Z }.

(** The least multiple of [a] that is not below [x]. *)
Definition align_up (x a : Z) : Z := a * ((x + a - 1) / a).

(** Offsets of the fields from [at] on, and the end of the last one. *)
Fixpoint repr_c (at_ : Z) (fs : list field) : list Z * Z :=
  match fs with
  | [] => ([], at_)
  | f :: fs =>
      let off := align_up at_ (f_align f) in
      let '(offs, last) := repr_c (off + f_size f) fs in
      (off :: offs, last)
  end.

Definition max_align (min : Z) (fs : list field) : Z :=
  foldr (fun f a => Z.max (f_align f) a) min fs.

(** [CachePaddedAtomicUsize]: an [AtomicUsize] in [repr(C, align(128))]. *)
Definition padded_fields : list field := [mkField 8 8].

Definition CachePaddedAtomicUsize : field :=
  let a := max_align 128 padded_fields in
  mkField (align_up (repr_c 0 padded_fields).2 a) a.

Section Channel.
(** Size and alignment of [T], and the capacity. *)
Context (size align N : Z).

Definition channel_fields : list field :=
  [ CachePaddedAtomicUsize; CachePaddedAtomicUsize;
    CachePaddedAtomicUsize; CachePaddedAtomicUsize;
    mkField (128 - 16) 1;       (* padding: [u8; 128 - 16] *)
    mkField 8 8;                (* capacity: AtomicUsize *)
    mkField 8 8;                (* magic: AtomicU64 *)
    mkField (N * size) align;   (* buffer: [T; N] *)
    mkField 0 1 ].              (* mode: PhantomData *)

(** [offset_of!] of the fields, as [print_layout] lists them. *)
Definition layout : list Z := take 8 (repr_c 0 channel_fields).1.

Definition channel_align : Z := max_align 128 channel_fields.

Definition size_of_channel : Z :=
  align_up (repr_c 0 channel_fields).2 channel_align.

(** The address of cell [i] of the channel at [base]. *)
Definition cell_address (base : Z) (i : nat) : Z :=
  base + align_up 640 align + Z.of_nat i * size.
End Channel.

(** What [src/que/examples/layout.rs] prints: the layouts for a [u64] and for
    one in a structure of alignment 256. *)
Definition layout_main : list (list Z) := [layout 8 8 8; layout 256 256 8].

Example layout_main_prints :
  layout_main = [[0; 128; 256; 384; 512; 624; 632; 640]; [0; 128; 256; 384; 512; 624; 632; 768]].
Proof. reflexivity. Qed.

Lemma align_up_spec x a :
  0 < a → align_up x a mod a = 0 ∧ x ≤ align_up x a < x + a.
Proof.
  intros Ha. unfold align_up. rewrite Z.mul_comm, Z.mod_mul by lia.
  pose proof (Z.div_mod (x + a - 1) a ltac:(lia)).
  pose proof (Z.mod_pos_bound (x + a - 1) a Ha). split; [done|lia].
Qed.

Lemma align_up_id x a : 0 < a → x mod a = 0 → align_up x a = x.
Proof.
  intros Ha Hx. unfold align_up. pose proof (Z.div_mod x a ltac:(lia)) as E.
  rewrite Hx, Z.add_0_r in E. rewrite E at 1. rewrite E at 2. f_equal.
  symmetry. apply Z.div_unique with (a - 1); lia.
Qed.

Lemma layout_val size align N :
  0 < align →
  layout size align N = [0; 128; 256; 384; 512; 624; 632; align_up 640 align].
Proof. intros. reflexivity. Qed.

Lemma channel_align_val size align N :
  0 < align → channel_align size align N = Z.max align 128.
Proof. intros Ha. unfold channel_align, max_align. cbn. lia. Qed.

Lemma size_of_channel_val size align N :
  0 < align → 0 ≤ N * size →
  size_of_channel size align N =
  align_up (align_up 640 align + N * size) (Z.max align 128).
Proof.
  intros Ha Hs. unfold size_of_channel. rewrite channel_align_val by done. f_equal.
  change ((repr_c 0 (channel_fields size align N)).2) with
    (align_up (align_up 640 align + N * size) 1 + 0).
  rewrite align_up_id; [lia|lia|apply Z.mod_1_r].
Qed.
