(* ===== verification/Shmem.v ===== *)
(** * Shared memory objects

    [src/que/src/shmem.rs] on Linux.  The system calls, made through nix and
    libc, are the operations of the class [OS] over an abstract state [S];
    their answers are arbitrary.  A computation is a state transformer that
    may panic; messages printed to the terminal are not modelled. *)

From S2P Require Import Prelude.
From S2P Require Import Rust.
From S2P Require Import Errors.
From S2P Require Import PageSize.

(** ** The system calls *)

Class OS (S : Type) : Type := {
  (** [open(path, O_RDWR | O_CREAT, mode)]. *)
  os_open : string → S → result Z Errno * S;
  (** [shm_open(name, O_RDWR | O_CREAT, mode)]. *)
  os_shm_open : string → S → result Z Errno * S;
  (** The field [st_size] of [fstat(fd)]. *)
  os_fstat_size : Z → S → result Z Errno;
  os_ftruncate : Z → Z → S → result unit Errno * S;
  (** [mmap(None, length, PROT_READ | PROT_WRITE, flags, fd, 0)]. *)
  os_mmap : Z → Z → Z → S → result Z Errno * S;
  (** Closing a descriptor, as dropping an [OwnedFd] does. *)
  os_close : Z → S → S;
  os_munmap : Z → Z → S → Z * S;
  os_unlink : string → S → Z * S;
  (** [shm_unlink] at the bytes of a string that no NUL byte ends. *)
  os_shm_unlink : string → S → Z * S
}.

Definition MAP_SHARED : Z := 1.
Definition MAP_HUGETLB : Z := 262144.           (* 0x40000 *)
Definition MAP_HUGE_1GB : Z := Z.shiftl 30 26.

(** ** Computations *)

Definition io (S A : Type) : Type := S → res A * S.

#[export] Instance io_ret {S} : MRet (io S) := fun A a s => (Val a, s).
#[export] Instance io_bind {S} : MBind (io S) := fun A B f m s =>
  match m s with
  | (Val a, s') => f a s'
  | (Pan p, s') => (Pan p, s')
  end.

(** A system call, a query, and a computation that does not use the system. *)
Definition call_os {S A} (f : S → A * S) : io S A := fun s => (Val (f s).1, (f s).2).
Definition query_os {S A} (f : S → A) : io S A := fun s => (Val (f s), s).
Definition pure_io {S A} (r : res A) : io S A := fun s => (r, s).

(** [r?] in a function that returns a [ShmemError]: [from] converts. *)
Definition question {S A B} (r : result A Errno) (k : A → io S (result B ShmemError)) :
    io S (result B ShmemError) :=
  match r with Ok a => k a | Err e => mret (Err (ShmemError_from e)) end.

(** ** [Shmem] *)

Record Shmem : Type := mkShmem {
  s_id : string;
  s_size : Z;
  s_fd : Z;
  s_addr : Z;
  s_page_size : PageSize
}.

(** [CString::new(id)] is an error if a byte of [id] is NUL. *)
Definition has_nul (id : string) : bool :=
  existsb (fun a => Nat.eqb (Ascii.nat_of_ascii a) 0) (String.list_ascii_of_string id).

Lemma has_nul_app s1 s2 : has_nul (s1 +:+ s2) = has_nul s1 || has_nul s2.
Proof.
  unfold has_nul. induction s1 as [|a s1 IH]; [done|].
  change (String a s1 +:+ s2) with (String a (s1 +:+ s2)).
  cbn [String.list_ascii_of_string existsb]. by rewrite IH, orb_assoc.
Qed.

Definition CString_new_unwrap (id : string) : res string :=
  if has_nul id then Pan UnwrapFailed else Val id.

Section Shmem.
Context {S : Type} {os : OS S}.

Definition map_flags (page_size : PageSize) : Z :=
  let flags := MAP_SHARED in
  let flags := if is_huge page_size then Z.lor flags MAP_HUGETLB else flags in
  if is_gigantic page_size then Z.lor (Z.lor flags MAP_HUGETLB) MAP_HUGE_1GB
  else flags.

(** The tail of [open_or_create]: the descriptor is an [OwnedFd] of the
    function, so every way out closes it. *)
Definition map_fd (id : string) (uplined_size : Z) (page_size : PageSize) (fd : Z) :
    io S (result Shmem ShmemError) :=
  addr ← call_os (os_mmap (wrap64 uplined_size) (map_flags page_size) fd);
  _ ← call_os (fun s => (tt, os_close fd s));
  match addr with
  | Ok addr => mret (Ok (mkShmem id uplined_size fd addr page_size))
  | Err e => mret (Err (ShmemErrno e))
  end.

(** Sets the size of a [shm_open]ed object if it is not the wanted one;
    an error closes the descriptor on the way out. *)
Definition resize_fd (uplined_size fd : Z) (k : io S (result Shmem ShmemError)) :
    io S (result Shmem ShmemError) :=
  let fail e := _ ← call_os (fun s => (tt, os_close fd s));
                mret (Err (ShmemError_from e)) in
  stat ← query_os (os_fstat_size fd);
  match stat with
  | Err e => fail e
  | Ok st_size =>
      if negb (st_size =? uplined_size) then
        r ← call_os (os_ftruncate fd uplined_size);
        match r with Err e => fail e | Ok _ => k end
      else k
  end.

Definition open_or_create (id : string) (uplined_size : Z) (page_size : PageSize) :
    io S (result Shmem ShmemError) :=
  if is_gigantic page_size then
    fd ← call_os (os_open ("/mnt/gigantic/" +:+ id));
    question fd (map_fd id uplined_size page_size)
  else if is_huge page_size then
    fd ← call_os (os_open ("/mnt/hugepages/" +:+ id));
    question fd (map_fd id uplined_size page_size)
  else
    path ← pure_io (CString_new_unwrap id);
    fd ← call_os (os_shm_open path);
    question fd (fun fd =>
      resize_fd uplined_size fd (map_fd id uplined_size page_size fd)).

(** [close]: a failed [munmap] or [shm_unlink] is only reported on the
    terminal, a failed [unlink] of a huge page file is an error. *)
Definition close (self : Shmem) : io S (result unit ShmemError) :=
  _ ← call_os (os_munmap (s_addr self) (wrap64 (s_size self)));
  if is_gigantic (s_page_size self) then
    c_path ← pure_io (CString_new_unwrap ("/mnt/gigantic/" +:+ s_id self));
    r ← call_os (os_unlink c_path);
    if negb (r =? 0) then mret (Err UnlinkError) else mret (Ok tt)
  else if is_huge (s_page_size self) then
    c_path ← pure_io (CString_new_unwrap ("/mnt/hugepages/" +:+ s_id self));
    r ← call_os (os_unlink c_path);
    if negb (r =? 0) then mret (Err UnlinkError) else mret (Ok tt)
  else
    _ ← call_os (os_shm_unlink (s_id self));
    mret (Ok tt).

Definition get_mut_ptr (self : Shmem) : Z := s_addr self.

Definition cleanup_shmem (id : string) (size : Z) (page_size : PageSize) :
    io S (result unit ShmemError) :=
  shmem ← open_or_create id size page_size;
  match shmem with
  | Ok shmem => close shmem
  | Err e => mret (Err e)
  end.

(** ** What the functions do *)

Lemma resize_fd_cases size fd k s :
  resize_fd size fd k s =
  match os_fstat_size fd s with
  | Err e => (Val (Err (ShmemError_from e)), os_close fd s)
  | Ok n =>
      if n =? size then k s
      else match os_ftruncate fd size s with
           | (Ok _, s1) => k s1
           | (Err e, s1) => (Val (Err (ShmemError_from e)), os_close fd s1)
           end
  end.
Proof.
  unfold resize_fd, query_os, mbind, io_bind; cbn.
  destruct (os_fstat_size fd s) as [n|e]; [|done].
  destruct (n =? size); cbn; [done|]. unfold call_os; cbn.
  by destruct (os_ftruncate fd size s) as [[[]|e] s1].
Qed.
End Shmem.
