(* ===== verification/Alloc.v ===== *)
(** * The allocation helper

    [src/que/src/utils.rs]: a zeroed block with the layout of a channel.  The
    module is written for tests and is not compiled into the crate at present
    (its declaration in [lib.rs] is commented out). *)

From Stdlib Require Import Strings.String.
From S2P Require Import Prelude.
From S2P Require Import Rust.
From S2P Require Import Errors.
From S2P Require Import Layout.
From S2P Require Import Shmem.

(** ** [std::alloc] *)

(** [Layout::from_size_align]: the alignment is a power of two, and the size
    rounded up to it fits [isize]. *)
Record layout : Type := mkLayout { l_size : Z; l_align : Z }.

Definition from_size_align (size align : Z) : result layout unit :=
  if is_power_of_two align && (size <=? i64_max + 1 - align)
  then Ok (mkLayout size align) else Err tt.

(** The global allocator, which the code calls. *)
Class Allocator (S : Type) : Type := {
  alloc_zeroed : layout → S → Z * S;
  dealloc : Z → layout → S → S
}.

(** ** [Alloc] *)

Record Alloc : Type := mkAlloc { a_ptr : Z; a_layout : layout }.

Section Alloc.
Context {S : Type} {al : Allocator S}.

Definition Alloc_new (size align : Z) : io S Alloc :=
  layout ← pure_io (unwrap (from_size_align size align));
  ptr ← call_os (alloc_zeroed layout);
  if ptr =? 0 then pure_io (Pan (ExplicitPanic "alloc failed during test"))
  else mret (mkAlloc ptr layout).

(** [impl Drop for Alloc]. *)
Definition drop_alloc (self : Alloc) : io S unit :=
  call_os (fun s => (tt, dealloc (a_ptr self) (a_layout self) s)).

(** For elements of a size and an alignment. *)
Definition new_spsc_buffer (size align N : Z) : io S Alloc :=
  let buffer_align := channel_align size align N in
  let buffer_size := size_of_channel size align N in
  Alloc_new buffer_size buffer_align.

(** ** What it does *)

Lemma from_size_align_ok size align :
  is_power_of_two align = true → size ≤ i64_max + 1 - align →
  from_size_align size align = Ok (mkLayout size align).
Proof. intros Ha Hs. unfold from_size_align. by rewrite Ha, (proj2 (Z.leb_le _ _) Hs). Qed.

Lemma channel_align_power size align N :
  is_power_of_two align = true →
  is_power_of_two (channel_align size align N) = true ∧ channel_align size align N mod 128 = 0.
Proof.
  intros Ha. pose proof Ha as (k & Hk & E)%is_power_of_two_iff.
  assert (0 < align) by (rewrite E; by apply Z.pow_pos_nonneg).
  rewrite channel_align_val by done. destruct (Z.max_spec align 128) as [[Hl ->]|[Hl ->]]; [done|].
  split; [done|]. rewrite E in Hl |- *. change 128 with (2 ^ 7) in Hl |- *.
  apply Z.pow_le_mono_r_iff in Hl; [|done..].
  replace k with ((k - 7) + 7) by lia. rewrite Z.pow_add_r by lia. apply Z.mod_mul. done.
Qed.

(** A block for any element type whose channel fits the address space has the
    layout of the channel; the allocator failing is a panic. *)
Lemma new_spsc_buffer_spec size align N s :
  is_power_of_two align = true →
  size_of_channel size align N ≤ i64_max + 1 - channel_align size align N →
  let l := mkLayout (size_of_channel size align N) (channel_align size align N) in
  let '(ptr, s') := alloc_zeroed l s in
  new_spsc_buffer size align N s =
    (if ptr =? 0 then Pan (ExplicitPanic "alloc failed during test") else Val (mkAlloc ptr l), s').
Proof.
  intros Ha Hs l. destruct (alloc_zeroed l s) as [ptr s'] eqn:E.
  unfold new_spsc_buffer, Alloc_new.
  rewrite from_size_align_ok; [|exact (proj1 (channel_align_power size align N Ha))|exact Hs].
  unfold mbind, io_bind, pure_io, call_os. cbn [unwrap]. fold l. rewrite E. cbn [fst snd].
  by destruct (ptr =? 0).
Qed.

(** An allocator that honours the layout gives a block that every join
    accepts, and gets back what it has given. *)
Lemma new_spsc_buffer_joinable size align N s b s' :
  (∀ l s, (alloc_zeroed l s).1 mod l_align l = 0) →
  is_power_of_two align = true →
  size_of_channel size align N ≤ i64_max + 1 - channel_align size align N →
  new_spsc_buffer size align N s = (Val b, s') →
  a_ptr b ≠ 0 ∧ a_ptr b mod 128 = 0 ∧
  drop_alloc b s' =
    (Val tt, dealloc (a_ptr b)
       (mkLayout (size_of_channel size align N) (channel_align size align N)) s').
Proof.
  intros Haligned Ha Hs. pose proof (new_spsc_buffer_spec size align N s Ha Hs) as H.
  cbv zeta in H. set (l := mkLayout _ _) in *. pose proof (Haligned l s) as Hm. intros E. rewrite E in H.
  destruct (alloc_zeroed l s) as [ptr s1]. cbn [fst] in Hm.
  destruct (Z.eqb_spec ptr 0); [done|]. injection H as -> ->. split_and!; [done| |done]. cbn.
  destruct (channel_align_power size align N Ha) as [(k & Hk & Ek)%is_power_of_two_iff Hc].
  assert (0 < channel_align size align N) by (rewrite Ek; by apply Z.pow_pos_nonneg).
  change (l_align l) with (channel_align size align N) in Hm.
  apply Z.mod_divide in Hm; [|lia]. apply Z.mod_divide in Hc; [|done].
  apply Z.mod_divide; [done|]. by etrans.
Qed.
End Alloc.
