(* ===== verification/Join.v ===== *)
(** * Joining a channel

    What the producers and consumers of both channels share when they join:
    the checks of the arguments, the share of the owning [Arc], and the
    decision on the magic number and the capacity found in the memory. *)

From S2P Require Import Prelude.
From S2P Require Import Rust.
From S2P Require Import Errors.
From S2P Require Import Channel.

Section Joining.
Context {T : Type} (M : mode) (N : Z).
Implicit Types (w : World T).

(** The two assertions every join begins with. *)
Definition check_join (buffer : Z) : prog T unit :=
  _ ← assert ((0 <? N) && is_power_of_two N) "Capacity must be a power of two";
  assert (buffer mod 128 =? 0) "unaligned".

(** An address at which shared memory can be mapped: never null, and on a
    page boundary, hence aligned for a channel. *)
Definition mapped_at (buffer : Z) : bool := negb (buffer =? 0) && (buffer mod 128 =? 0).

Lemma mapped_at_true buffer : mapped_at buffer = true → buffer ≠ 0 ∧ buffer mod 128 = 0.
Proof.
  unfold mapped_at. rewrite andb_true_iff, negb_true_iff, Z.eqb_neq, Z.eqb_eq. done.
Qed.

(** The handle's share of the [Arc]. *)
Definition attach w : World T :=
  if BACKED_BY_ARCC M then with_strong (strong w + 1) w else w.

(** A channel set up by a producer that found no magic number.  [head] is
    left as it is: the consumer sets it when it joins. *)
Definition initialised (c : Channel T) : Channel T :=
  mkChannel 0 (head c) 0 0 (padding c) N MAGIC (buffer c).

(** Every way of joining looks at the magic number, then at the capacity:
    [joined] is what happens to a channel of the right kind, [fresh] to
    memory that is all zero there; the other cases are errors that leave
    everything as it is. *)
Definition join_cases {A} w (joined fresh : outcome T (result A QueError)) :
    outcome T (result A QueError) :=
  if magic (chan w) =? MAGIC then
    if capacity (chan w) =? N then joined
    else Done (Err (IncorrectCapacity (capacity (chan w)))) w
  else if magic (chan w) =? 0 then fresh
  else Done (Err CorruptionDetected) w.

End Joining.

Section Laws.
Context {T : Type} (M : mode) (N : Z).
Implicit Types (w : World T).

Lemma run_attach {A} (f : unit → prog T A) w :
  freed w = false →
  run N ((if BACKED_BY_ARCC M then arc_increment else mret tt) ≫= f) w =
  run N (f tt) (attach M w).
Proof.
  intros Hf. unfold attach. destruct (BACKED_BY_ARCC M); [|done].
  cbn. unfold act_run. by rewrite Hf.
Qed.

Lemma attach_chan w : chan (attach M w) = chan w.
Proof. unfold attach. by destruct (BACKED_BY_ARCC M). Qed.

Lemma attach_freed w : freed (attach M w) = freed w.
Proof. unfold attach. by destruct (BACKED_BY_ARCC M). Qed.

Lemma check_join_ok {A} (f : unit → prog T A) buffer :
  capacity_ok N → buffer mod 128 = 0 → check_join N buffer ≫= f = f tt.
Proof.
  intros HN Hb. pose proof (capacity_ok_pos N HN). destruct HN as [Hp _].
  unfold check_join, assert. rewrite Hp.
  rewrite (proj2 (Z.ltb_lt 0 N)) by lia. by rewrite (proj2 (Z.eqb_eq _ _) Hb).
Qed.

Lemma run_check_join {A} (f : unit → prog T A) buffer w :
  capacity_ok N → buffer mod 128 = 0 →
  run N (check_join N buffer ≫= f) w = run N (f tt) w.
Proof. intros. by rewrite check_join_ok. Qed.

Lemma run_check_join_capacity {A} (f : unit → prog T A) buffer w :
  is_power_of_two N = false →
  run N (check_join N buffer ≫= f) w =
  Panicked (AssertFailed "Capacity must be a power of two") w.
Proof. intros H. unfold check_join. by rewrite H, andb_false_r. Qed.

Lemma run_check_join_unaligned {A} (f : unit → prog T A) buffer w :
  capacity_ok N → buffer mod 128 ≠ 0 →
  run N (check_join N buffer ≫= f) w = Panicked (AssertFailed "unaligned") w.
Proof.
  intros HN Hb. pose proof (capacity_ok_pos N HN). destruct HN as [Hp _].
  unfold check_join, assert. rewrite Hp.
  rewrite (proj2 (Z.ltb_lt 0 N)) by lia. by rewrite (proj2 (Z.eqb_neq _ _) Hb).
Qed.

Lemma join_cases_joined {A} w (joined fresh : outcome T (result A QueError)) :
  magic (chan w) = MAGIC → capacity (chan w) = N → join_cases N w joined fresh = joined.
Proof. intros E1 E2. unfold join_cases. by rewrite E1, E2, !Z.eqb_refl. Qed.

Lemma join_cases_fresh {A} w (joined fresh : outcome T (result A QueError)) :
  magic (chan w) = 0 → join_cases N w joined fresh = fresh.
Proof. intros E. unfold join_cases. by rewrite E. Qed.
End Laws.

(** Executes a join in memory that is alive. *)
Ltac join_steps :=
  repeat first
    [ rewrite run_attach by done
    | erewrite run_lift_bind by (by apply NonNull_new_unwrap_val)
    | rewrite run_bind, run_load by (by rewrite ?attach_freed); cbn [obind]
    | rewrite run_bind, run_store by (by rewrite ?attach_freed); cbn [obind]
    | rewrite run_bind, run_fetch_add by (by rewrite ?attach_freed); cbn [obind] ];
  rewrite ?run_ret, ?attach_chan; try done.

Ltac join_split N w :=
  unfold join_cases; do 2 run_step;
  change (get_loc MAGIC_WORD (chan w)) with (magic (chan w));
  change (get_loc CAPACITY (chan w)) with (capacity (chan w));
  destruct (magic (chan w) =? MAGIC);
    [ destruct (capacity (chan w) =? N); cbn [negb]; [|done]
    | destruct (magic (chan w) =? 0); [|done] ].
