(* ===== verification/Concurrency.v ===== *)
(** * Threads, and rely-guarantee reasoning about them

    Several threads share a memory.  A thread is idle, holding a handle (a
    producer or a consumer), or runs the program of one call.  Every access
    of every program is a step of its own and steps of different threads
    interleave freely; in particular a cell write of one thread can begin, a
    read of the same cell by another begin and end, and the write end after
    that.  A thread that is a process of its own can also disappear at any
    moment, also between the two halves of a write, and start again.

    What an access does is the business of a [memory]: [sc] interleaves the
    accesses to one [World]; [WeakMemory] has another.  [reachable_ok] is the
    rely-guarantee rule: if each thread's accesses satisfy its guarantee as
    long as the others' satisfy its rely, every reachable state satisfies the
    invariant, no thread panics and no access is undefined. *)

From S2P Require Import Prelude.
From S2P Require Import Rust.
From S2P Require Import Channel.

(** ** Memories *)

(** What a thread's accesses do to the memory the threads share: [mstep] is
    the effect of an access by thread [i]; [mrun] is an executable part of it
    (the optional number says which of the possible values a load returns);
    [mcrash] is what is left when thread [i] disappears where it would have
    performed an access, [mcut] one such outcome. *)
Record memory (T : Type) : Type := mkMemory {
  mstate : Type;
  mstep : nat → ∀ X, act T X → mstate → X → mstate → Prop;
  mrun : nat → option nat → ∀ X, act T X → mstate → option (X * mstate);
  mcrash : nat → ∀ X, act T X → mstate → mstate → Prop;
  mcut : nat → ∀ X, act T X → mstate → option mstate;
  mrun_step : ∀ i o X (a : act T X) s x s',
    mrun i o X a s = Some (x, s') → mstep i X a s x s';
  mcut_crash : ∀ i X (a : act T X) s s', mcut i X a s = Some s' → mcrash i X a s s'
}.
Arguments mstate {T}. Arguments mstep {T} m i {X}. Arguments mrun {T} m i o {X}.
Arguments mcrash {T} m i {X}. Arguments mcut {T} m i {X}.

(** A cell write that a crash cuts short leaves an arbitrary value. *)
Definition crash_step {T X} (a : act T X) : World T → World T → Prop :=
  match a with
  | WriteEnd i _ => fun w w' => ∃ u, w' = do_write_end i u w
  | _ => fun w w' => w' = w
  end.

Definition crash_run {T X} (a : act T X) (w : World T) : option (World T) :=
  match a with WriteEnd i v => Some (do_write_end i v w) | _ => Some w end.

Lemma crash_run_step {T X} (a : act T X) w w' :
  crash_run a w = Some w' → crash_step a w w'.
Proof. destruct a; cbn; intros [= <-]; eauto. Qed.

(** One world, whose accesses interleave. *)
Definition sc {T} (N : Z) : memory T :=
  mkMemory T (World T) (fun _ X a => act_step N a) (fun _ _ X a => act_run N a)
    (fun _ X a => crash_step a) (fun _ X a => crash_run a)
    (fun _ _ X a => act_run_step N a) (fun _ X a => crash_run_step a).

(** ** The machine *)

(** What a thread can do with a handle: [exec h c] is the program of call [c]
    on [h] (none if the call is not available), which returns the next handle
    and a reply.  [down i] is the handle thread [i] is left with if it can
    crash, and [cut] stands for the answer of a call that a crash has cut
    short. *)
Record interface (T : Type) : Type := mkInterface {
  handle : Type;
  call : Type;
  answer : Type;
  exec : handle → call → option (prog T (handle * answer));
  down : nat → option handle;
  cut : answer
}.
Arguments handle {T}. Arguments call {T}. Arguments answer {T}.
Arguments exec {T}. Arguments down {T}. Arguments cut {T}.

(** The calls a thread has completed, oldest first, with their answers. *)
Definition history {T} (C : interface T) : Type := list (call C * answer C).

Inductive thread {T} (C : interface T) : Type :=
  | Idle (h : handle C) (hist : history C)
  | Busy (c : call C) (m : prog T (handle C * answer C)) (hist : history C).
Arguments Idle {T C}. Arguments Busy {T C}.

(** The call a thread is running, if any, and the calls it has completed. *)
Definition calls_of {T} {C : interface T} (t : thread C) : option (call C) * history C :=
  match t with
  | Idle _ hist => (None, hist)
  | Busy c _ hist => (Some c, hist)
  end.

(** The program a busy thread still has to run. *)
Definition prog_of {T} {C : interface T} (t : thread C) :
    option (prog T (handle C * answer C)) :=
  match t with Idle _ _ => None | Busy _ m _ => Some m end.

(** An executable part of the machine: thread [i] starts a call, goes on
    with the one it runs (an access that is not torn, or the return), reads
    the [k]-th of the values it may read, or crashes. *)
Inductive move {T} (C : interface T) : Type :=
  | Start (i : nat) (c : call C)
  | Go (i : nat)
  | Pick (i : nat) (k : nat)
  | Crash (i : nat).
Arguments Start {T C}. Arguments Go {T C}. Arguments Pick {T C}. Arguments Crash {T C}.

Section Machine.
Context {T : Type} (M : memory T) {C : interface T}.

Definition config : Type := mstate M * list (thread C).

Inductive step : config → config → Prop :=
  | step_call w ts i h hist c m :
      ts !! i = Some (Idle h hist) → exec C h c = Some m →
      step (w, ts) (w, <[i := Busy c m hist]> ts)
  | step_act w ts i c hist X (a : act T X) k x w' :
      ts !! i = Some (Busy c (Do a k) hist) → mstep M i a w x w' →
      step (w, ts) (w', <[i := Busy c (k x) hist]> ts)
  | step_return w ts i c hist h r :
      ts !! i = Some (Busy c (Ret (h, r)) hist) →
      step (w, ts) (w, <[i := Idle h (hist ++ [(c, r)])]> ts)
  | step_crash_idle w ts i h hist d :
      ts !! i = Some (Idle h hist) → down C i = Some d →
      step (w, ts) (w, <[i := Idle d hist]> ts)
  | step_crash w ts i c hist X (a : act T X) k d w' :
      ts !! i = Some (Busy c (Do a k) hist) → down C i = Some d →
      mcrash M i a w w' →
      step (w, ts) (w', <[i := Idle d (hist ++ [(c, cut C)])]> ts).

Inductive reachable (s : config) : config → Prop :=
  | reachable_refl : reachable s s
  | reachable_step s1 s2 : reachable s s1 → step s1 s2 → reachable s s2.

#[export] Instance reachable_trans : Transitive reachable.
Proof. intros s1 s2 s3 H H'. induction H'; [done|by eapply reachable_step]. Qed.

(** *** Schedules *)

Definition go (i : nat) (o : option nat) (s : config) : option config :=
  let '(w, ts) := s in
  match ts !! i with
  | Some (Busy c (Do a k) hist) =>
      (fun xw => (xw.2, <[i := Busy c (k xw.1) hist]> ts)) <$> mrun M i o a w
  | Some (Busy c (Ret (h, r)) hist) =>
      Some (w, <[i := Idle h (hist ++ [(c, r)])]> ts)
  | _ => None
  end.

Definition play_move (m : move C) (s : config) : option config :=
  let '(w, ts) := s in
  match m with
  | Start i c =>
      match ts !! i with
      | Some (Idle h hist) =>
          (fun m => (w, <[i := Busy c m hist]> ts)) <$> exec C h c
      | _ => None
      end
  | Go i => go i None s
  | Pick i k => go i (Some k) s
  | Crash i =>
      d ← down C i;
      match ts !! i with
      | Some (Idle h hist) => Some (w, <[i := Idle d hist]> ts)
      | Some (Busy c (Do a k) hist) =>
          (fun w' => (w', <[i := Idle d (hist ++ [(c, cut C)])]> ts)) <$> mcut M i a w
      | _ => None
      end
  end.

Fixpoint play (ms : list (move C)) (s : config) : option config :=
  match ms with
  | [] => Some s
  | m :: ms => play_move m s ≫= play ms
  end.

Lemma go_step i o s s' : go i o s = Some s' → step s s'.
Proof.
  destruct s as [w ts]; cbn.
  destruct (ts !! i) as [[h hist|c' m hist]|] eqn:Hi; try done.
  destruct m as [[h r]|p|X a k]; try done.
  - intros [= <-]. by eapply step_return.
  - intros ([x w'] & Ha%mrun_step & ->)%fmap_Some. by eapply step_act.
Qed.

Lemma play_move_step m s s' : play_move m s = Some s' → step s s'.
Proof.
  destruct m as [i c|i|i k|i]; [|destruct s; apply go_step..|]; destruct s as [w ts]; cbn.
  - destruct (ts !! i) as [[h hist|c' m hist]|] eqn:Hi; try done.
    intros (m & Hm & ->)%fmap_Some. by eapply step_call.
  - intros (d & Hd & H)%bind_Some.
    destruct (ts !! i) as [[h hist|c' [|p|X a k] hist]|] eqn:Hi; try done.
    + injection H as <-. by eapply step_crash_idle.
    + apply fmap_Some in H as (w' & Ha%mcut_crash & ->). by eapply step_crash.
Qed.

Lemma play_reachable ms s0 s s' :
  reachable s0 s → play ms s = Some s' → reachable s0 s'.
Proof.
  revert s. induction ms as [|m ms IH]; intros s Hr; cbn.
  - by intros [= <-].
  - intros (s1 & Hm%play_move_step & Hp)%bind_Some.
    eapply IH; [|done]. by eapply reachable_step.
Qed.
End Machine.
Arguments config {T}.

(** A thread that runs [m] performs at most [n] accesses before it returns,
    whatever it reads. *)
Fixpoint accesses_le {T A} (n : nat) (m : prog T A) {struct m} : Prop :=
  match m with
  | Ret _ => True
  | Panic _ => True
  | Do a k => match n with O => False | S n => ∀ x, accesses_le n (k x) end
  end.

Section Accesses.
Context {T : Type}.

Lemma accesses_le_S {A} (m : prog T A) n : accesses_le n m → accesses_le (S n) m.
Proof.
  revert n. induction m as [a|p|X a k IH]; intros n; cbn; [done..|].
  destruct n as [|n]; [done|]. intros H x. by apply IH.
Qed.

Lemma accesses_le_bind {A B} (m : prog T A) (f : A → prog T B) n k :
  accesses_le n m → (∀ a, accesses_le k (f a)) → accesses_le (n + k) (m ≫= f).
Proof.
  intros Hm Hf. revert n Hm. induction m as [a|p|X a c IH]; intros n Hm; [|done|].
  - clear Hm. induction n as [|n IHn]; [apply Hf|]. exact (accesses_le_S _ _ IHn).
  - destruct n as [|n]; [done|]. cbn. intros x. by apply IH.
Qed.

Lemma accesses_le_lift {A B} (r : res A) (f : A → prog T B) n :
  (∀ a, accesses_le n (f a)) → accesses_le n (lift r ≫= f).
Proof. intros H. destruct r; [apply H|done]. Qed.
End Accesses.

(** Follows a program to its end, splitting on its tests. *)
Ltac count_accesses :=
  repeat first
    [ done
    | match goal with |- context [lift ?r] => destruct r; cbn [lift] end
    | progress (cbn [accesses_le mbind prog_mbind prog_bind load store fetch_add
                     read_cell assign_cell copy_cell arc_increment arc_drop
                     mret prog_mret])
    | match goal with |- ∀ _, _ => intros ? end
    | case_match ].

(** ** Weakest preconditions under interference *)

(** A step that changes nothing is always allowed. *)
Definition moves {S} (G : S → S → Prop) (w w' : S) : Prop := w' = w ∨ G w w'.

Section WP.
Context {T : Type} (M : memory T) (i : nat).
Context (Safe : ∀ X, act T X → mstate M → Prop).
Context (Inv J K : mstate M → Prop) (R G : mstate M → mstate M → Prop).
Implicit Types w : mstate M.

(** Before each access the others may have moved the memory along [R]; the
    access must be possible and [Safe], change nothing or as [G] says, and keep the global
    invariant [Inv] and the invariant [J] of this call.  If the thread
    crashes instead, the same is true of what it leaves, and [K] holds. *)
Fixpoint wp {A} (m : prog T A) (Φ : A → mstate M → Prop) w : Prop :=
  match m with
  | Ret a => Φ a w
  | Panic _ => False
  | Do a k => ∀ w1, R w w1 → Inv w1 → J w1 →
      (Safe _ a w1 ∧ ∃ x w2, mstep M i a w1 x w2) ∧
      (∀ w2, mcrash M i a w1 w2 → moves G w1 w2 ∧ Inv w2 ∧ K w2) ∧
      ∀ x w2, mstep M i a w1 x w2 →
        moves G w1 w2 ∧ Inv w2 ∧ J w2 ∧ wp (k x) Φ w2
  end.

Lemma wp_bind {A B} (m : prog T A) (f : A → prog T B) Φ w :
  wp m (fun a => wp (f a) Φ) w → wp (m ≫= f) Φ w.
Proof.
  revert w. induction m as [a|p|X a k IH]; intros w; cbn; [done..|].
  intros H w1 HR HI HJ. destruct (H w1 HR HI HJ) as (H1 & H2 & H3). do 2 (split; [done|]).
  intros x w2 Hs. destruct (H3 x w2 Hs) as (?&?&?&?). split_and!; [done..|].
  by apply IH.
Qed.

Lemma wp_mono {A} (m : prog T A) (Φ Ψ : A → mstate M → Prop) w :
  (∀ a w, Φ a w → Ψ a w) → wp m Φ w → wp m Ψ w.
Proof.
  intros HΦ. revert w. induction m as [a|p|X a k IH]; intros w; cbn; [auto|done|].
  intros H w1 HR HI HJ. destruct (H w1 HR HI HJ) as (H1 & H2 & H3). do 2 (split; [done|]).
  intros x w2 Hs. destruct (H3 x w2 Hs) as (?&?&?&?). auto.
Qed.

Lemma wp_ret {A} (a : A) (Φ : A → mstate M → Prop) w : Φ a w → wp (mret a) Φ w.
Proof. done. Qed.

Lemma wp_lift {A B} (r : res A) (a : A) (f : A → prog T B) Φ w :
  r = Val a → wp (f a) Φ w → wp (lift r ≫= f) Φ w.
Proof. by intros ->. Qed.

(** A thread that has not taken its next step yet stays fine when the
    others move. *)
Lemma wp_stable `{!Transitive R} {A} (m : prog T A) (Φ : A → mstate M → Prop) w w' :
  (∀ a w w', Φ a w → R w w' → Inv w' → Φ a w') →
  wp m Φ w → R w w' → Inv w' → wp m Φ w'.
Proof.
  intros HΦ. destruct m as [a|p|X a k]; cbn; [by eauto|done|].
  intros H HR HI w1 HR1 HI1 HJ1. apply H; [by etrans|done..].
Qed.
End WP.

(** What the thread's own steps keep can join what is known. *)
Lemma wp_frame {T} (M : memory T) i Safe (Inv J K P : mstate M → Prop) R G {A}
    (m : prog T A) (Φ : A → mstate M → Prop) w :
  (∀ w w', P w → G w w' → P w') → wp M i Safe Inv J K R G m Φ w →
  wp M i Safe Inv (fun w => P w ∧ J w) (fun w => P w ∧ K w) R G m Φ w.
Proof.
  intros HG. assert (HP : ∀ w w', P w → moves G w w' → P w') by (intros ? ? ? [->|]; eauto).
  revert w. induction m as [a|p|X a k IH]; intros w; cbn; [done..|].
  intros H w1 HR HI [HP1 HJ]. destruct (H w1 HR HI HJ) as (H1 & H2 & H3). split; [done|]. split.
  - intros w2 Hc. destruct (H2 w2 Hc) as (?&?&?). split_and!; eauto.
  - intros x w2 Hs. destruct (H3 x w2 Hs) as (?&?&?&?). split_and!; eauto.
Qed.

(** *** Accesses to one world *)

Section WorldWP.
Context {T : Type} (N : Z) (i : nat).
Context (Safe : ∀ X, act T X → World T → Prop).
Context (Inv J K : World T → Prop) (R G : World T → World T → Prop).
Implicit Types w : World T.
#[local] Notation WP := (wp (sc N) i Safe Inv J K R G).

Lemma wp_load {A} l o (k : Z → prog T A) Φ w :
  (∀ w1, R w w1 → Inv w1 → J w1 →
     freed w1 = false ∧ Safe _ (Load l o) w1 ∧ K w1 ∧
     WP (k (get_loc l (chan w1))) Φ w1) →
  WP (load l o ≫= k) Φ w.
Proof.
  intros H w1 HR HI HJ. destruct (H w1 HR HI HJ) as (Hf & HS & HK & Hk). split_and!.
  - done.
  - eexists _, _. by split.
  - intros w2 ->. split_and!; [by left|done|done].
  - intros x w2 (_ & -> & ->). split_and!; [by left|done..].
Qed.

Lemma wp_store {A} l o v (k : unit → prog T A) Φ w :
  (∀ w1, R w w1 → Inv w1 → J w1 →
     freed w1 = false ∧ Safe _ (Store l o v) w1 ∧ K w1 ∧
     G w1 (do_store N l v w1) ∧ Inv (do_store N l v w1) ∧
     J (do_store N l v w1) ∧ WP (k tt) Φ (do_store N l v w1)) →
  WP (store l o v ≫= k) Φ w.
Proof.
  intros H w1 HR HI HJ. destruct (H w1 HR HI HJ) as (Hf & HS & HK & Hk). split_and!.
  - done.
  - exists tt. eexists. by split.
  - intros w2 ->. split_and!; [by left|done|done].
  - intros [] w2 (_ & ->). destruct Hk as (?&?&?&?). split_and!; [by right|done..].
Qed.

Lemma wp_fetch_add {A} l o d (k : Z → prog T A) Φ w :
  (∀ w1, R w w1 → Inv w1 → J w1 →
     freed w1 = false ∧ Safe _ (FetchAdd l o d) w1 ∧ K w1 ∧
     ∀ w2, w2 = do_store N l (wrap64 (get_loc l (chan w1) + d)) w1 →
     G w1 w2 ∧ Inv w2 ∧ J w2 ∧ WP (k (get_loc l (chan w1))) Φ w2) →
  WP (fetch_add l o d ≫= k) Φ w.
Proof.
  intros H w1 HR HI HJ. destruct (H w1 HR HI HJ) as (Hf & HS & HK & Hk). split_and!.
  - done.
  - eexists _, _. by split_and!.
  - intros w2 ->. split_and!; [by left|done|done].
  - intros x w2 (_ & -> & ->). destruct (Hk _ eq_refl) as (?&?&?&?).
    split_and!; [by right|done..].
Qed.

Lemma wp_drop_value {A} v (k : unit → prog T A) Φ w :
  (∀ w1, R w w1 → Inv w1 → J w1 →
     freed w1 = false ∧ Safe _ (DropValue v) w1 ∧ K w1 ∧
     G w1 (do_drop_value v w1) ∧ Inv (do_drop_value v w1) ∧
     J (do_drop_value v w1) ∧ WP (k tt) Φ (do_drop_value v w1)) →
  WP (drop_value v ≫= k) Φ w.
Proof.
  intros H w1 HR HI HJ. destruct (H w1 HR HI HJ) as (Hf & HS & HK & Hk). split_and!.
  - done.
  - exists tt. eexists. by split.
  - intros w2 ->. split_and!; [by left|done|done].
  - intros [] w2 (_ & ->). destruct Hk as (?&?&?&?). split_and!; [by right|done..].
Qed.

(** A whole cell write: the two halves, the other threads moving before
    each. *)
Lemma wp_write {A} c d v (k : unit → prog T A) Φ w :
  (∀ w1, R w w1 → Inv w1 → J w1 →
     let w2 := do_write_begin c d w1 in
     freed w1 = false ∧ (c < length (buffer (chan w1)))%nat ∧
     Safe _ (WriteBegin c d) w1 ∧ K w1 ∧ G w1 w2 ∧ Inv w2 ∧ J w2 ∧
     ∀ w3, R w2 w3 → Inv w3 → J w3 →
       freed w3 = false ∧ (c < length (buffer (chan w3)))%nat ∧
       Safe _ (WriteEnd c v) w3 ∧
       (∀ u, G w3 (do_write_end c u w3) ∧ Inv (do_write_end c u w3) ∧
             K (do_write_end c u w3)) ∧
       J (do_write_end c v w3) ∧ WP (k tt) Φ (do_write_end c v w3)) →
  WP (Do (WriteBegin c d) (fun _ => Do (WriteEnd c v) Ret) ≫= k) Φ w.
Proof.
  intros H w1 HR HI HJ.
  destruct (H w1 HR HI HJ) as (Hf & Hc & HS & HK & HG & HI2 & HJ2 & H3). split_and!.
  - done.
  - exists tt. eexists. by split_and!.
  - intros w2 ->. split_and!; [by left|done|done].
  - intros [] w2 (_ & _ & ->). split_and!; [by right|done..|]. intros w3 HR3 HI3 HJ3.
    destruct (H3 w3 HR3 HI3 HJ3) as (Hf3 & Hc3 & HS3 & Hu & HJ4 & Hk). split_and!.
    + done.
    + exists tt. eexists. by split_and!.
    + intros w4 (u & ->). destruct (Hu u) as (?&?&?). split_and!; [by right|done..].
    + intros [] w4 (_ & _ & ->). destruct (Hu v) as (?&?&_).
      split_and!; [by right|done..].
Qed.

(** A whole cell read; the value [v] is the cell's if no write was in
    progress when the read began and none has begun since. *)
Lemma wp_read {A} c (k : T → prog T A) Φ w :
  (∀ w1, R w w1 → Inv w1 → J w1 →
     freed w1 = false ∧ Safe _ (ReadBegin c) w1 ∧ K w1 ∧
     ∀ w3, R w1 w3 → Inv w3 → J w3 →
       freed w3 = false ∧ Safe _ (ReadEnd c (begun w1 c, ended w1 c)) w3 ∧ K w3 ∧
       is_Some (buffer (chan w3) !! c) ∧
       ∀ v, (begun w1 c = ended w1 c → begun w3 c = begun w1 c →
             buffer (chan w3) !! c = Some v) → WP (k v) Φ w3) →
  WP (read_cell c ≫= k) Φ w.
Proof.
  intros H w1 HR HI HJ. destruct (H w1 HR HI HJ) as (Hf & HS & HK & H3). split_and!.
  - done.
  - eexists _, _. by split_and!.
  - intros w2 ->. split_and!; [by left|done|done].
  - intros st w2 (_ & -> & ->). split_and!; [by left|done..|]. intros w3 HR3 HI3 HJ3.
    destruct (H3 w3 HR3 HI3 HJ3) as (Hf3 & HS3 & HK3 & [u Hu] & Hk). split_and!.
    + done.
    + exists u, w3. split_and!; [done..|]. by exists u.
    + intros w4 ->. split_and!; [by left|done|done].
    + intros v w4 (_ & -> & u' & Hu' & Hclean). split_and!; [by left|done..|].
      apply Hk. intros E1 E2. by rewrite (Hclean E1 E2).
Qed.
End WorldWP.

(** No data race: a cell that is about to be read is not being written, and
    no write of it has begun since the read began. *)
Definition race_free {T} (X : Type) (a : act T X) (w : World T) : Prop :=
  match a with
  | ReadBegin i => begun w i = ended w i
  | ReadEnd i s => s.1 = s.2 ∧ begun w i = s.1
  | _ => True
  end.

(** ** Soundness *)

Section Soundness.
Context {T : Type} (M : memory T) (C : interface T).
Context (Safe : nat → ∀ X, act T X → mstate M → Prop).
Context (Inv : mstate M → Prop).
(** Rely, guarantee, invariant of the handle when idle, the invariant that
    also holds while a call is in progress, and the one a crash leaves. *)
Context (R G : nat → mstate M → mstate M → Prop).
Context (I : nat → handle C → history C → mstate M → Prop).
Context (J : nat → option (call C) → history C → mstate M → Prop).
Context (K : nat → call C → history C → mstate M → Prop).

Definition wp_call (i : nat) (c : call C) (hist : history C)
    (m : prog T (handle C * answer C)) (w : mstate M) : Prop :=
  wp M i (Safe i) Inv (J i (Some c) hist) (K i c hist) (R i) (G i) m
    (fun hr => I i hr.1 (hist ++ [(c, hr.2)])) w.

Context `{HRt : !∀ i, Transitive (R i)}.
Context (G_R : ∀ i j w w', i ≠ j → G i w w' → R j w w').
Context (R_refl : ∀ i w, R i w w).
Context (I_stable : ∀ i h hist w w',
  I i h hist w → R i w w' → Inv w' → I i h hist w').
Context (J_stable : ∀ i o hist w w',
  J i o hist w → R i w w' → Inv w' → J i o hist w').
Context (I_J : ∀ i h hist w, I i h hist w → J i None hist w).
Context (I_call : ∀ i h hist c m w,
  I i h hist w → Inv w → exec C h c = Some m →
  J i (Some c) hist w ∧ wp_call i c hist m w).
Context (I_down : ∀ i h hist d w,
  I i h hist w → down C i = Some d → I i d hist w).
Context (K_down : ∀ i c hist d w,
  K i c hist w → Inv w → down C i = Some d → I i d (hist ++ [(c, cut C)]) w).

Definition thread_ok (i : nat) (t : thread C) (w : mstate M) : Prop :=
  match t with
  | Idle h hist => I i h hist w
  | Busy c m hist => J i (Some c) hist w ∧ wp_call i c hist m w
  end.

Definition config_ok (s : config M C) : Prop :=
  Inv s.1 ∧ ∀ i t, s.2 !! i = Some t → thread_ok i t s.1.

Lemma thread_ok_stable i t w w' :
  thread_ok i t w → R i w w' → Inv w' → thread_ok i t w'.
Proof.
  destruct t as [h hist|c m hist]; cbn; [by eauto|].
  intros [HJ Hwp] HR HI. split; [by eauto|]. eapply wp_stable; eauto.
Qed.

(** The new state is fine if the others are and the thread that moved is. *)
Lemma config_ok_update w ts i t :
  Inv w → (∀ j u, i ≠ j → ts !! j = Some u → thread_ok j u w) →
  thread_ok i t w → config_ok (w, <[i := t]> ts).
Proof.
  intros HI Ht H. split; [done|]. cbn. intros j u Hj.
  apply list_lookup_insert_Some in Hj as [(-> & -> & _)|[Hne Hj]]; [done|].
  by apply Ht.
Qed.

(** The same when the memory has changed as the guarantee allows. *)
Lemma config_ok_move w ts i t w' :
  config_ok (w, ts) → moves (G i) w w' → Inv w' → thread_ok i t w' →
  config_ok (w', <[i := t]> ts).
Proof.
  intros [HI Ht] HG HI' H. apply config_ok_update; [done| |done].
  intros j u Hne Hj. destruct HG as [->|HG]; [by apply Ht|].
  eapply thread_ok_stable; [by apply Ht|by eapply G_R|done].
Qed.

Lemma step_ok s s' : config_ok s → step M s s' → config_ok s'.
Proof.
  intros Hok Hs. pose proof Hok as [HI Ht]. destruct Hs as
    [w ts i h hist c m Hi Hm|w ts i c hist X a k x w' Hi Ha|w ts i c hist h r Hi
    |w ts i h hist d Hi Hd|w ts i c hist X a k d w' Hi Hd Ha];
    cbn in *.
  - apply config_ok_update; [done|by auto|]. cbn. apply I_call with h; auto.
    by apply (Ht _ _ Hi).
  - destruct (Ht _ _ Hi) as [HJ H]. cbn in H.
    destruct (H w (R_refl i w) HI HJ) as (_ & _ & H2).
    destruct (H2 x w' Ha) as (HG & HI' & HJ' & Hk).
    by eapply config_ok_move.
  - apply config_ok_update; [done|by auto|]. by destruct (Ht _ _ Hi).
  - apply config_ok_update; [done|by auto|]. cbn. eapply I_down; [by apply (Ht _ _ Hi)|done].
  - destruct (Ht _ _ Hi) as [HJ H]. cbn in H.
    destruct (H w (R_refl i w) HI HJ) as (_ & H2 & _).
    destruct (H2 w' Ha) as (HG & HI' & HK).
    eapply config_ok_move; [done..|]. cbn. by eapply K_down.
Qed.

Lemma reachable_ok s s' : config_ok s → reachable M s s' → config_ok s'.
Proof. intros Hok. induction 1; [done|]. by eapply step_ok. Qed.

(** A running thread is never at a panic and can always take its next
    access, which is safe. *)
Lemma config_ok_safe s i c m hist :
  config_ok s → s.2 !! i = Some (Busy c m hist) →
  match m with
  | Ret _ => True
  | Panic _ => False
  | Do a _ => Safe i _ a s.1 ∧ ∃ x w', mstep M i a s.1 x w'
  end.
Proof.
  intros [HI Ht] Hi. destruct (Ht _ _ Hi) as [HJ H].
  destruct m as [hr|p|X a k]; cbn in *; [done|done|].
  by destruct (H s.1 (R_refl i _) HI HJ).
Qed.

(** What is known of a thread at any time, and of its history. *)
Lemma config_ok_J s i t :
  config_ok s → s.2 !! i = Some t →
  J i (calls_of t).1 (calls_of t).2 s.1.
Proof.
  intros [HI Ht] Hi. specialize (Ht _ _ Hi). destruct t; cbn in *; [by eauto|tauto].
Qed.

(** The initial configuration: every thread is idle. *)
Lemma config_ok_idle w hs :
  Inv w → (∀ i h, hs !! i = Some h → I i h [] w) →
  config_ok (w, (fun h => Idle h []) <$> hs).
Proof.
  intros HI Hh. split; [done|]. cbn. intros i t Hi.
  apply list_lookup_fmap_Some in Hi as (h & -> & Hi). by apply Hh.
Qed.
End Soundness.
