(* ===== verification/WeakMemory.v ===== *)
(** * A release/acquire memory

    The accesses of the programs under the orderings the code asks for, on a
    memory that is not sequentially consistent.  Every atomic location has
    the list of the messages stored to it, in modification order, and every
    thread a [view]: the newest message of each location it must not read
    past, and the reads and writes of buffer cells it knows to be over.  A
    load may return any message that is not older than the thread's view; an
    acquire load takes over the view of the message, which is the view of the
    thread that stored it with release.  The buffer cells are not atomic: a
    read returns any value the cell has had that is not older than the last
    write the reader knows of, or an arbitrary one while a write is going on.

    The accesses to the cells are free of data races if whoever begins one
    knows that the conflicting ones are over ([weak_race_free]).  A store
    appends to the modification order; that this is the only possibility
    (the thread knows the newest message) is part of [weak_race_free] too. *)

From S2P Require Import Prelude.
From S2P Require Import Rust.
From S2P Require Import Ring.
From S2P Require Import Channel.
From S2P Require Import Concurrency.

(** ** Views *)

(** [v_msg l] is the index of a message of [l], [v_writes c] the number of
    writes of cell [c] that are over, [v_reads j c] the number of reads of it
    by thread [j] that are over. *)
Record view : Type := mkView {
  v_msg : loc → nat;
  v_writes : nat → nat;
  v_reads : nat → nat → nat
}.

Definition view_bottom : view := mkView (fun _ => 0%nat) (fun _ => 0%nat) (fun _ _ => 0%nat).

Definition view_join (V W : view) : view :=
  mkView (fun l => v_msg V l `max` v_msg W l)%nat
    (fun c => v_writes V c `max` v_writes W c)%nat
    (fun j c => v_reads V j c `max` v_reads W j c)%nat.

(** The view of a thread that has come to message [k] of [l], or has finished
    the [n]-th write of [c], or, being thread [j], the [n]-th read of it. *)
Definition view_at_msg (l : loc) (k : nat) (V : view) : view :=
  mkView (fun l' => if decide (l = l') then k else v_msg V l') (v_writes V) (v_reads V).

Definition view_at_write (c n : nat) (V : view) : view :=
  mkView (v_msg V) (fun c' => if decide (c = c') then n else v_writes V c') (v_reads V).

Definition view_at_read (j c n : nat) (V : view) : view :=
  mkView (v_msg V) (v_writes V)
    (fun j' c' => if decide (j = j' ∧ c = c') then n else v_reads V j' c').

Record message : Type := mkMessage { m_value : Z; m_view : view }.

(** [values c] are the values cell [c] has had, the first being the one it had
    at the start, so that [length (values c) - 1] writes are over; [writes]
    and [reads] count those that have begun.  [published] is the instrument
    of [World]: the value each position had when [tail] moved past it. *)
Record Weak (T : Type) : Type := mkWeak {
  msgs : loc → list message;
  values : nat → list T;
  writes : nat → nat;
  reads : nat → nat → nat;
  views : nat → view;
  weak_published : Z → option T
}.
Arguments mkWeak {T}. Arguments msgs {T}. Arguments values {T}.
Arguments writes {T}. Arguments reads {T}. Arguments views {T}.
Arguments weak_published {T}.

(** The newest value of a location. *)
Definition newest {T} (l : loc) (w : Weak T) : Z :=
  match last (msgs w l) with Some m => m_value m | None => 0 end.

#[global] Arguments newest : simpl never.

(** A world in which everything is known to every thread. *)
Definition weaken {T} (w : World T) : Weak T :=
  mkWeak (fun l => [mkMessage (get_loc l (chan w)) view_bottom])
    (fun c => option_list (buffer (chan w) !! c)) (fun _ => 0%nat) (fun _ _ => 0%nat)
    (fun _ => view_bottom) (fun _ => None).

(** ** Accesses *)

Section Accesses.
Context {T : Type} (N : Z).
Implicit Types (w : Weak T) (i c : nat).

Definition with_view i (V : view) w : Weak T :=
  mkWeak (msgs w) (values w) (writes w) (reads w)
    (fun j => if decide (i = j) then V else views w j) (weak_published w).

Lemma views_with_view i V w : views (with_view i V w) i = V.
Proof. cbn. by rewrite decide_True. Qed.

(** The thread's view after reading message [k], [m], of [l]. *)
Definition view_load (l : loc) (o : ordering) (k : nat) (m : message) (V : view) : view :=
  match o with
  | Acquire => view_join (view_at_msg l k V) (m_view m)
  | _ => view_at_msg l k V
  end.

(** A new message of [l], the newest, with the view [Vm]. *)
Definition do_append i (l : loc) (v : Z) (Vi Vm : view) w : Weak T :=
  with_view i Vi
    (mkWeak (fun l' => if decide (l = l') then msgs w l' ++ [mkMessage v Vm] else msgs w l')
       (values w) (writes w) (reads w) (views w)
       (if decide (l = TAIL) then
          fun x => if (newest TAIL w <=? x) && (x <? v) then last (values w (slot N x))
                   else weak_published w x
        else weak_published w)).

(** The part of a thread's view that it releases. *)
Definition released (o : ordering) (V : view) : view :=
  match o with Release => V | _ => view_bottom end.

Definition weak_store i (l : loc) (o : ordering) (v : Z) w : Weak T :=
  let V := view_at_msg l (length (msgs w l)) (views w i) in
  do_append i l v V (released o V) w.

Lemma weak_published_store i o v w x :
  weak_published (weak_store i TAIL o v w) x =
    if (newest TAIL w <=? x) && (x <? v) then last (values w (slot N x))
    else weak_published w x.
Proof. done. Qed.

(** A read-modify-write reads the newest message [m] and continues its
    release sequence. *)
Definition weak_fetch_add i (l : loc) (o : ordering) (d : Z) (m : message) w : Weak T :=
  let V := view_load l o (length (msgs w l)) m (views w i) in
  do_append i l (wrap64 (m_value m + d)) V (view_join (m_view m) (released o V)) w.

Definition weak_read_begin i c w : Weak T :=
  mkWeak (msgs w) (values w) (writes w)
    (fun j c' => if decide (i = j ∧ c = c') then S (reads w j c') else reads w j c')
    (views w) (weak_published w).

Definition weak_read_end i c w : Weak T :=
  with_view i (view_at_read i c (reads w i c) (views w i)) w.

Definition weak_write_begin c w : Weak T :=
  mkWeak (msgs w) (values w) (bump (writes w) c) (reads w) (views w) (weak_published w).

Definition weak_write_end i c (v : T) w : Weak T :=
  with_view i (view_at_write c (length (values w c)) (views w i))
    (mkWeak (msgs w) (fun c' => if decide (c = c') then values w c' ++ [v] else values w c')
       (writes w) (reads w) (views w) (weak_published w)).

(** A cell's stamp: the writes begun, the writes over. *)
Definition weak_stamp c w : nat * nat := (writes w c, pred (length (values w c))).

(** One access by thread [i].  Freeing the memory is not part of this model:
    there is no [Arc] in it. *)
Definition weak_step i {X} (a : act T X) : Weak T → X → Weak T → Prop :=
  match a with
  | Load l o => fun w x w' =>
      ∃ k m, msgs w l !! k = Some m ∧ (v_msg (views w i) l ≤ k)%nat ∧ x = m_value m ∧
             w' = with_view i (view_load l o k m (views w i)) w
  | Store l o v => fun w x w' => w' = weak_store i l o v w
  | FetchAdd l o d => fun w x w' =>
      ∃ m, last (msgs w l) = Some m ∧ x = m_value m ∧ w' = weak_fetch_add i l o d m w
  | ReadBegin c => fun w x w' =>
      values w c ≠ [] ∧ x = weak_stamp c w ∧ w' = weak_read_begin i c w
  | ReadEnd c s => fun w x w' =>
      values w c ≠ [] ∧ w' = weak_read_end i c w ∧
      (s.1 = s.2 → writes w c = s.1 →
       ∃ k, values w c !! k = Some x ∧ (v_writes (views w i) c ≤ k)%nat)
  | WriteBegin c _ => fun w x w' => values w c ≠ [] ∧ w' = weak_write_begin c w
  | WriteEnd c v => fun w x w' => values w c ≠ [] ∧ w' = weak_write_end i c v w
  | DropValue _ => fun w x w' => w' = w
  | ArcIncrement => fun w x w' => False
  | ArcDrop => fun w x w' => False
  end.

(** An executable part: [o] is the index of the message or of the value to be
    read, the newest one if it is not given. *)
Definition pick {A} (o : option nat) (from : nat) (xs : list A) : option (nat * A) :=
  let k := default (pred (length xs)) o in
  if decide (from ≤ k)%nat then (fun x => (k, x)) <$> xs !! k else None.

Lemma pick_spec {A} o from (xs : list A) k x :
  pick o from xs = Some (k, x) → xs !! k = Some x ∧ (from ≤ k)%nat.
Proof.
  unfold pick. case_decide; [|done]. by intros (y & Hy & [= -> ->])%fmap_Some.
Qed.

Definition weak_run i (o : option nat) {X} (a : act T X) (w : Weak T) :
    option (X * Weak T) :=
  match a in act _ X return option (X * Weak T) with
  | Load l ord =>
      (fun km => (m_value km.2, with_view i (view_load l ord km.1 km.2 (views w i)) w)) <$>
        pick o (v_msg (views w i) l) (msgs w l)
  | Store l ord v => Some (tt, weak_store i l ord v w)
  | FetchAdd l ord d =>
      (fun m => (m_value m, weak_fetch_add i l ord d m w)) <$> last (msgs w l)
  | ReadBegin c =>
      if decide (values w c = []) then None
      else Some (weak_stamp c w, weak_read_begin i c w)
  | ReadEnd c _ =>
      (fun kx => (kx.2, weak_read_end i c w)) <$> pick o (v_writes (views w i) c) (values w c)
  | WriteBegin c _ =>
      if decide (values w c = []) then None else Some (tt, weak_write_begin c w)
  | WriteEnd c v =>
      if decide (values w c = []) then None else Some (tt, weak_write_end i c v w)
  | DropValue _ => Some (tt, w)
  | ArcIncrement | ArcDrop => None
  end.

Lemma weak_run_step i o X (a : act T X) w x w' :
  weak_run i o a w = Some (x, w') → weak_step i a w x w'.
Proof.
  destruct a; cbn.
  - intros ([k m] & [? ?]%pick_spec & [= -> ->])%fmap_Some. eauto 10.
  - by intros [= <-].
  - intros (m & ? & [= -> ->])%fmap_Some. eauto.
  - case_decide; [done|]. by intros [= <- <-].
  - intros ([k m] & [? ?]%pick_spec & [= -> ->])%fmap_Some. split_and!; [|done|eauto].
    intros E. by rewrite E in *.
  - case_decide; [done|]. by intros [= <-].
  - case_decide; [done|]. by intros [= <-].
  - by intros [= <-].
  - done.
  - done.
Qed.
End Accesses.

(** The threads of one process do not crash alone. *)
Definition weak_crash {T} (i : nat) {X} (a : act T X) (w w' : Weak T) : Prop := False.
Definition weak_cut {T} (i : nat) {X} (a : act T X) (w : Weak T) : option (Weak T) := None.

Lemma weak_cut_crash {T} i X (a : act T X) (w w' : Weak T) :
  weak_cut i a w = Some w' → weak_crash i a w w'.
Proof. done. Qed.

Definition weak {T} (N : Z) : memory T :=
  mkMemory T (Weak T) (fun i X a => weak_step N i a) (fun i o X a => weak_run N i o a)
    (@weak_crash T) (@weak_cut T) (weak_run_step N) weak_cut_crash.

(** ** Data races *)

(** An access to a cell begins only when the conflicting accesses are over
    and known to be; a location is written only by a thread that knows its
    newest message. *)
Definition weak_race_free {T} (i : nat) (X : Type) (a : act T X) (w : Weak T) : Prop :=
  match a with
  | ReadBegin c => (writes w c ≤ v_writes (views w i) c)%nat
  | ReadEnd c s => s.1 = s.2 ∧ writes w c = s.1
  | WriteBegin c _ =>
      (writes w c ≤ v_writes (views w i) c)%nat ∧
      ∀ j, j ≠ i → (reads w j c ≤ v_reads (views w i) j c)%nat
  | Store l _ _ => length (msgs w l) = S (v_msg (views w i) l)
  | FetchAdd l _ _ => length (msgs w l) = S (v_msg (views w i) l)
  | _ => True
  end.

(** ** The order of views *)

Record view_le (V W : view) : Prop := {
  vle_msg : ∀ l, (v_msg V l ≤ v_msg W l)%nat;
  vle_writes : ∀ c, (v_writes V c ≤ v_writes W c)%nat;
  vle_reads : ∀ j c, (v_reads V j c ≤ v_reads W j c)%nat
}.

#[export] Instance view_le_preorder : PreOrder view_le.
Proof.
  split; [by split|]. intros V1 V2 V3 [A1 A2 A3] [B1 B2 B3].
  split; intros; [specialize (A1 l); specialize (B1 l)|specialize (A2 c); specialize (B2 c)
  |specialize (A3 j c); specialize (B3 j c)]; lia.
Qed.

Lemma view_load_le l o k m V : (v_msg V l ≤ k)%nat → view_le V (view_load l o k m V).
Proof.
  intros H. destruct o; split; cbn; intros; try lia; case_decide; subst; lia.
Qed.

Lemma view_load_msg l o k m V : (k ≤ v_msg (view_load l o k m V) l)%nat.
Proof. destruct o; cbn; rewrite decide_True by done; lia. Qed.

Lemma view_load_acquire l k m V : view_le (m_view m) (view_load l Acquire k m V).
Proof. split; cbn; intros; lia. Qed.

(** ** Weakest preconditions *)

Section WeakWP.
Context {T : Type} (N : Z) (i : nat).
Context (Safe : ∀ X, act T X → Weak T → Prop).
Context (Inv J K : Weak T → Prop) (R G : Weak T → Weak T → Prop).
Implicit Types w : Weak T.
#[local] Notation WP := (wp (weak N) i Safe Inv J K R G).

Lemma weak_wp_load {A} l o (k : Z → prog T A) Φ w :
  (∀ w1, R w w1 → Inv w1 → J w1 →
     Safe _ (Load l o) w1 ∧ (v_msg (views w1 i) l < length (msgs w1 l))%nat ∧
     ∀ n m, msgs w1 l !! n = Some m → (v_msg (views w1 i) l ≤ n)%nat →
       let w2 := with_view i (view_load l o n m (views w1 i)) w1 in
       G w1 w2 ∧ Inv w2 ∧ J w2 ∧ WP (k (m_value m)) Φ w2) →
  WP (load l o ≫= k) Φ w.
Proof.
  intros H w1 HR HI HJ. destruct (H w1 HR HI HJ) as (HS & Hlt & Hk). split_and!.
  - done.
  - destruct (lookup_lt_is_Some_2 _ _ Hlt) as [m Hm]. eexists _, _, _, m.
    split_and!; [done|lia|done|done].
  - done.
  - intros x w2 (n & m & Hm & Hn & -> & ->). destruct (Hk n m Hm Hn) as (?&?&?&?).
    split_and!; [by right|done..].
Qed.

Lemma weak_wp_store {A} l o v (k : unit → prog T A) Φ w :
  (∀ w1, R w w1 → Inv w1 → J w1 → let w2 := weak_store N i l o v w1 in
     Safe _ (Store l o v) w1 ∧ G w1 w2 ∧ Inv w2 ∧ J w2 ∧ WP (k tt) Φ w2) →
  WP (store l o v ≫= k) Φ w.
Proof.
  intros H w1 HR HI HJ. destruct (H w1 HR HI HJ) as (HS & Hk). split_and!.
  - done.
  - by exists tt; eexists.
  - done.
  - intros [] w2 ->. destruct Hk as (?&?&?&?). split_and!; [by right|done..].
Qed.

Lemma weak_wp_fetch_add {A} l o d (k : Z → prog T A) Φ w :
  (∀ w1, R w w1 → Inv w1 → J w1 →
     Safe _ (FetchAdd l o d) w1 ∧ ∃ m, last (msgs w1 l) = Some m ∧
     let w2 := weak_fetch_add N i l o d m w1 in
     G w1 w2 ∧ Inv w2 ∧ J w2 ∧ WP (k (m_value m)) Φ w2) →
  WP (fetch_add l o d ≫= k) Φ w.
Proof.
  intros H w1 HR HI HJ. destruct (H w1 HR HI HJ) as (HS & m & Hm & Hk). split_and!.
  - done.
  - eexists _, _, m. by split_and!.
  - done.
  - intros x w2 (m' & Hm' & -> & ->). rewrite Hm in Hm'. injection Hm' as <-.
    destruct Hk as (?&?&?&?). split_and!; [by right|done..].
Qed.

Lemma weak_wp_drop_value {A} v (k : unit → prog T A) Φ w :
  (∀ w1, R w w1 → Inv w1 → J w1 →
     Safe _ (DropValue v) w1 ∧ WP (k tt) Φ w1) →
  WP (drop_value v ≫= k) Φ w.
Proof.
  intros H w1 HR HI HJ. destruct (H w1 HR HI HJ) as (HS & Hk). split_and!.
  - done.
  - by exists tt; eexists.
  - done.
  - intros [] w2 ->. split_and!; [by left|done..].
Qed.

Lemma weak_wp_write {A} c d v (k : unit → prog T A) Φ w :
  (∀ w1, R w w1 → Inv w1 → J w1 → let w2 := weak_write_begin c w1 in
     values w1 c ≠ [] ∧ Safe _ (WriteBegin c d) w1 ∧ G w1 w2 ∧ Inv w2 ∧ J w2 ∧
     ∀ w3, R w2 w3 → Inv w3 → J w3 → let w4 := weak_write_end i c v w3 in
       values w3 c ≠ [] ∧ Safe _ (WriteEnd c v) w3 ∧ G w3 w4 ∧ Inv w4 ∧ J w4 ∧
       WP (k tt) Φ w4) →
  WP (Do (WriteBegin c d) (fun _ => Do (WriteEnd c v) Ret) ≫= k) Φ w.
Proof.
  intros H w1 HR HI HJ. destruct (H w1 HR HI HJ) as (Hc & HS & HG & HI2 & HJ2 & H3).
  split_and!.
  - done.
  - exists tt. by eexists.
  - done.
  - intros [] w2 (_ & ->). split_and!; [by right|done..|]. intros w3 HR3 HI3 HJ3.
    destruct (H3 w3 HR3 HI3 HJ3) as (Hc3 & HS3 & HG3 & HI4 & HJ4 & Hk). split_and!.
    + done.
    + exists tt. by eexists.
    + done.
    + intros [] w4 (_ & ->). split_and!; [by right|done..].
Qed.

(** The value read is the newest if the reader knows of the write of it and
    no other has begun. *)
Lemma weak_wp_read {A} c (k : T → prog T A) Φ w :
  (∀ w1, R w w1 → Inv w1 → J w1 → let w2 := weak_read_begin i c w1 in
     values w1 c ≠ [] ∧ Safe _ (ReadBegin c) w1 ∧ G w1 w2 ∧ Inv w2 ∧ J w2 ∧
     ∀ w3, R w2 w3 → Inv w3 → J w3 → let w4 := weak_read_end i c w3 in
       (v_writes (views w3 i) c < length (values w3 c))%nat ∧
       Safe _ (ReadEnd c (weak_stamp c w1)) w3 ∧ G w3 w4 ∧ Inv w4 ∧ J w4 ∧
       ∀ v, (length (values w1 c) = S (writes w1 c) → writes w3 c = writes w1 c →
             (length (values w3 c) ≤ S (v_writes (views w3 i) c))%nat →
             last (values w3 c) = Some v) → WP (k v) Φ w4) →
  WP (read_cell c ≫= k) Φ w.
Proof.
  intros H w1 HR HI HJ. destruct (H w1 HR HI HJ) as (Hc & HS & HG & HI2 & HJ2 & H3).
  split_and!.
  - done.
  - eexists _. by eexists.
  - done.
  - intros x w2 (_ & -> & ->). split_and!; [by right|done..|]. intros w3 HR3 HI3 HJ3.
    destruct (H3 w3 HR3 HI3 HJ3) as (Hc3 & HS3 & HG3 & HI4 & HJ4 & Hk). split_and!.
    + done.
    + destruct (lookup_lt_is_Some_2 _ _ Hc3) as [u Hu]. exists u. eexists.
      split_and!; [by intros E; rewrite E in Hc3; cbn in Hc3; lia|done|eauto].
    + done.
    + intros v w4 (_ & -> & Hv). split_and!; [by right|done..|]. apply Hk.
      intros E1 E2 E3. destruct Hv as (n & Hn & Hle); [cbn; lia|cbn; lia|].
      rewrite last_lookup. pose proof (lookup_lt_Some _ _ _ Hn).
      by replace (pred _) with n by lia.
Qed.
End WeakWP.
