(* ===== verification/Typing.v ===== *)
(** * Typing programs and threads

    An invariant of every access, whatever the accesses are for: a program is
    [typed] if, as long as its accesses are answered as [Post] says, they are
    what [Pre] allows and it returns what it promises.  If every access that
    [Pre] allows keeps an invariant of the memory and is answered as [Post]
    says, then threads that make typed calls keep it too. *)

From S2P Require Import Prelude.
From S2P Require Import Rust.
From S2P Require Import Channel.
From S2P Require Import Concurrency.

Section Typing.
Context {T : Type}.
Context (Pre : ∀ X, act T X → Prop) (Post : ∀ X, act T X → X → Prop).

Fixpoint typed {A} (Q : A → Prop) (m : prog T A) : Prop :=
  match m with
  | Ret a => Q a
  | Panic _ => True
  | Do a k => Pre _ a ∧ ∀ x, Post _ a x → typed Q (k x)
  end.

Lemma typed_bind {A B} (P : A → Prop) (Q : B → Prop) (m : prog T A) (f : A → prog T B) :
  typed P m → (∀ a, P a → typed Q (f a)) → typed Q (m ≫= f).
Proof.
  intros Hm Hf. induction m as [a|p|X a k IH]; cbn in *; [by apply Hf|done|].
  destruct Hm as [Hs Hk]. split; [done|]. intros x Hx. by apply IH, Hk.
Qed.

Lemma typed_mono {A} (P Q : A → Prop) (m : prog T A) :
  typed P m → (∀ a, P a → Q a) → typed Q m.
Proof.
  intros Hm HQ. induction m as [a|p|X a k IH]; cbn in *; [by apply HQ|done|].
  destruct Hm as [Hs Hk]. split; [done|]. intros x Hx. by apply IH, Hk.
Qed.

Lemma typed_lift {A B} (Q : B → Prop) (r : res A) (f : A → prog T B) :
  (∀ a, r = Val a → typed Q (f a)) → typed Q (lift r ≫= f).
Proof. destruct r; cbn; [auto|done]. Qed.

(** ** Threads *)

Section Threads.
Context (N : Z) (C : interface T).
(** The invariant of the channel, what the idle thread [i] with the handle [h]
    knows, what is left of that during a call, and which calls it makes after
    which history. *)
Context (Chan : Channel T → Prop) (Idles : nat → handle C → history C → Prop).
Context (Busies : nat → history C → Prop).
Context (allowed : nat → history C → call C → Prop).

Context (act_typed : ∀ X (a : act T X) w x w',
  act_step N a w x w' → Chan (chan w) → Pre _ a → Post _ a x ∧ Chan (chan w')).
Context (crash_typed : ∀ X (a : act T X) w w',
  crash_step a w w' → Chan (chan w) → Chan (chan w')).
Context (exec_typed : ∀ i h hist c m,
  Idles i h hist → allowed i hist c → exec C h c = Some m →
  typed (fun hr => Idles i hr.1 (hist ++ [(c, hr.2)])) m).
Context (idle_busy : ∀ i h hist, Idles i h hist → Busies i hist).
Context (down_typed : ∀ i h hist d,
  Idles i h hist → down C i = Some d → Idles i d hist).
Context (cut_typed : ∀ i h hist c d,
  Idles i h hist → allowed i hist c → down C i = Some d → Idles i d (hist ++ [(c, cut C)])).

Definition thread_typed (i : nat) (t : thread C) : Prop :=
  match t with
  | Idle h hist => Idles i h hist
  | Busy c m hist =>
      Busies i hist ∧ typed (fun hr => Idles i hr.1 (hist ++ [(c, hr.2)])) m ∧
      ∀ d, down C i = Some d → Idles i d (hist ++ [(c, cut C)])
  end.

Definition config_typed (s : config (sc N) C) : Prop :=
  Chan (chan s.1) ∧ ∀ i t, s.2 !! i = Some t → thread_typed i t.

(** Every call made, the one in progress included, is allowed. *)
Definition thread_allowed (i : nat) (t : thread C) : Prop :=
  (∀ pre c a, pre ++ [(c, a)] `prefix_of` (calls_of t).2 → allowed i pre c) ∧
  (∀ c, (calls_of t).1 = Some c → allowed i (calls_of t).2 c).

Definition all_allowed (s : config (sc N) C) : Prop :=
  ∀ i t, s.2 !! i = Some t → thread_allowed i t.

Lemma config_typed_update (w : World T) ts i t :
  Chan (chan w) → (∀ i t, ts !! i = Some t → thread_typed i t) →
  thread_typed i t → config_typed (w, <[i := t]> ts).
Proof.
  intros Hw Hts Ht. split; [done|]. cbn. intros j u Hj.
  apply list_lookup_insert_Some in Hj as [(-> & <- & _)|[_ Hj]]; [done|by eapply Hts].
Qed.

Lemma step_typed s s' : config_typed s → all_allowed s' → step (sc N) s s' → config_typed s'.
Proof.
  intros [Hw Hts] Hall Hs. destruct Hs as
    [w ts i h hist c m Hi Hm|w ts i c hist X a k x w' Hi Ha|w ts i c hist h r Hi
    |w ts i h hist d Hi Hd|w ts i c hist X a k d w' Hi Hd Ha];
    cbn in *; pose proof (Hts _ _ Hi) as Ht; cbn in Ht.
  - assert (Hc : allowed i hist c).
    { destruct (Hall i (Busy c m hist)) as [_ H]; [|by apply H].
      by apply list_lookup_insert_eq, (lookup_lt_Some _ _ _ Hi). }
    apply config_typed_update; [done..|].
    split_and!; [by eapply idle_busy|by eapply exec_typed|by eauto].
  - destruct Ht as (Hb & [Hp Hk] & Hd). destruct (act_typed _ a w x w' Ha Hw Hp).
    apply config_typed_update; [done..|]. split_and!; [done|by apply Hk|done].
  - apply config_typed_update; [done..|]. apply Ht.
  - apply config_typed_update; [done..|]. by eapply down_typed.
  - apply config_typed_update; [by eapply crash_typed|done|]. by apply Ht.
Qed.

(** A thread's calls only grow. *)
Lemma thread_allowed_before i (t t' : thread C) :
  (calls_of t).2 `prefix_of` (calls_of t').2 →
  (∀ c, (calls_of t).1 = Some c →
     (calls_of t').1 = Some c ∧ (calls_of t').2 = (calls_of t).2 ∨
     ∃ a, (calls_of t).2 ++ [(c, a)] `prefix_of` (calls_of t').2) →
  thread_allowed i t' → thread_allowed i t.
Proof.
  intros Hpre Hcur [H1 H2]. split.
  - intros pre c a Hp. eapply H1. by etrans.
  - intros c Hc. destruct (Hcur c Hc) as [[E1 E2]|[a Hp]]; [rewrite <- E2; by apply H2|].
    by eapply H1.
Qed.

Lemma all_allowed_before s s' : step (sc N) s s' → all_allowed s' → all_allowed s.
Proof.
  intros Hs Hall j u Hj.
  assert (H : ∀ i t t' ts, ts !! i = Some t → s.2 = ts → s'.2 = <[i := t']> ts →
    (thread_allowed i t' → thread_allowed i t) → thread_allowed j u).
  { intros i t t' ts Hi E E' Ht. rewrite E in Hj. destruct (decide (i = j)) as [<-|Hne].
    - assert (t = u) as <- by congruence. apply Ht, Hall. rewrite E'.
      by apply list_lookup_insert_eq, (lookup_lt_Some _ _ _ Hi).
    - apply Hall. rewrite E'. by rewrite list_lookup_insert_ne. }
  destruct Hs as [w ts i h hist c m Hi Hm|w ts i c hist X a k x w' Hi Ha|w ts i c hist h r Hi
    |w ts i h hist d Hi Hd|w ts i c hist X a k d w' Hi Hd Ha];
    (eapply H; [exact Hi|done|done|]); apply thread_allowed_before; cbn; try done;
    try (by apply prefix_app_r); intros ? [= <-]; eauto.
Qed.

Lemma reachable_typed s s' :
  config_typed s → reachable (sc N) s s' → all_allowed s' → config_typed s'.
Proof.
  intros H Hr. induction Hr as [|s1 s2 Hr IH Hs]; [done|]. intros Hall.
  eapply step_typed; [|done|done]. by eapply IH, all_allowed_before.
Qed.
End Threads.
End Typing.

(** More may be allowed, and answers may say more. *)
Lemma typed_weaken {T} (Pre Pre' : ∀ X, act T X → Prop) (Post Post' : ∀ X, act T X → X → Prop)
    {A} (Q : A → Prop) (m : prog T A) :
  (∀ X (a : act T X), Pre X a → Pre' X a) →
  (∀ X (a : act T X) x, Post' X a x → Post X a x) →
  typed Pre Post Q m → typed Pre' Post' Q m.
Proof.
  intros HPre HPost. induction m as [a|p|X a k IH]; cbn; [done..|].
  intros [Ha Hk]. split; [by apply HPre|]. intros x Hx. by apply IH, Hk, HPost.
Qed.
