(* ===== verification/Lifetime.v ===== *)
(** * Handles that are dropped

    In one process the handles share the memory through an [Arc]: every
    handle owns one share, dropping it ([impl Drop]) gives the share back,
    and the last to do so releases the memory.  [droppable] adds that to an
    interface: a thread may drop its handle between any two calls, while the
    other threads are in the middle of theirs.  [droppable_erases] says that
    this changes nothing for the others: every execution is, drops apart, one
    in which nobody drops, as long as the memory lives, and it lives until the
    last share is gone. *)

From S2P Require Import Prelude.
From S2P Require Import Rust.
From S2P Require Import Channel.
From S2P Require Import Concurrency.
From S2P Require Import Typing.

(** ** Programs that leave the count alone *)

Definition not_arc {T X} (a : act T X) : Prop :=
  match a with ArcIncrement | ArcDrop => False | _ => True end.

Definition arcless {T A} : prog T A → Prop :=
  typed (T := T) (@not_arc T) (fun _ _ _ => True) (fun _ => True).

Section Arcless.
Context {T : Type}.

Lemma arcless_bind {A B} (m : prog T A) (f : A → prog T B) :
  arcless m → (∀ a, arcless (f a)) → arcless (m ≫= f).
Proof. intros Hm Hf. exact (typed_bind _ _ (fun _ => True) _ m f Hm (fun a _ => Hf a)). Qed.

Lemma arcless_lift {A B} (r : res A) (f : A → prog T B) :
  (∀ a, arcless (f a)) → arcless (lift r ≫= f).
Proof. intros H. exact (typed_lift _ _ _ r f (fun a _ => H a)). Qed.

Lemma arcless_copy i (vs : list T) : arcless (copy_nonoverlapping i vs).
Proof.
  revert i. induction vs as [|v vs IH]; intros i; [done|].
  cbn [copy_nonoverlapping]. apply arcless_bind; [done|]. intros _. apply IH.
Qed.
End Arcless.

(** Follows a program that contains no call of another to its end. *)
Ltac follow_arcless :=
  repeat first
    [ done
    | apply arcless_lift; intros ?
    | match goal with
      | |- arcless (let '(_, _) := ?x in _) => destruct x
      | |- arcless (mret _) => done
      | |- arcless (_ ≫= _) => apply arcless_bind; [|intros ?]
      end
    | case_match ].

(** ** Accesses and the count *)

Section Accesses.
Context {T : Type} (N : Z).
Implicit Types (w : World T).

(** No other access looks at the count or changes it. *)
Lemma act_step_strong {X} (a : act T X) k w x w1 :
  not_arc a → act_step N a w x w1 →
  act_step N a (with_strong k w) x (with_strong k w1) ∧ strong w1 = strong w ∧
  freed w1 = false ∧ freed w = false.
Proof.
  destruct a; cbn; try done; intros _ H; destruct_and?; subst; try done; eauto 10.
Qed.

Lemma act_step_possible {X} (a : act T X) k w x w1 :
  not_arc a → act_step N a (with_strong k w) x w1 → ∃ w2, act_step N a w x w2.
Proof.
  destruct a; cbn; try done; intros _ H; destruct_and?; eauto 10.
Qed.
End Accesses.

Lemma do_inv {T B X X'} (P : ∀ X, act T X → (X → prog T B) → Prop)
    (a : act T X) k (a' : act T X') k' :
  Do a k = Do a' k' → P X' a' k' → P X a k.
Proof.
  intros E HP. change (match Do a k with Do a k => P _ a k | _ => True end). by rewrite E.
Qed.

(** An access at the head of a sequence is one of its first program. *)
Lemma bind_do_inv {T A B X} (P : ∀ X, act T X → (X → prog T B) → Prop)
    (a : act T X) k (m : prog T A) f :
  Do a k = (m ≫= f) →
  (∀ r, m = Ret r → Do a k = f r → P X a k) →
  (∀ X' (a' : act T X') k', m = Do a' k' → P X' a' (fun x => k' x ≫= f)) → P X a k.
Proof.
  intros E Hr Hd. destruct m as [r|p|X' a' k']; [by apply (Hr r)|done|].
  apply (do_inv P a k a' (fun x => k' x ≫= f)); [exact E|by apply Hd].
Qed.

(** ** The interface with drops *)

Section Droppable.
Context {T : Type} (C : interface T).
(** The program that drops a handle, if it can be dropped: a handle that is
    borrowed cannot. *)
Context (drop_of : handle C → option (prog T unit)).

(** A call of [C], or [None], the drop; a handle of [C], or [None] where it
    has been dropped. *)
Definition use (m : prog T (handle C * answer C)) :
    prog T (option (handle C) * option (answer C)) :=
  '(h, a) ← m; mret (Some h, Some a).

Definition relinquish (m : prog T unit) : prog T (option (handle C) * option (answer C)) :=
  _ ← m; mret (None, None).

Definition droppable_exec (h : option (handle C)) (c : option (call C)) :
    option (prog T (option (handle C) * option (answer C))) :=
  match h, c with
  | Some h, Some c => m ← exec C h c; Some (use m)
  | Some h, None => m ← drop_of h; Some (relinquish m)
  | None, _ => None
  end.

Definition droppable : interface T :=
  mkInterface T (option (handle C)) (option (call C)) (option (answer C))
    droppable_exec (fun _ => None) None.

(** The calls that are not drops. *)
Definition used (hist : history droppable) : history C :=
  omap (fun e => c ← e.1; a ← e.2; Some (c, a)) hist.

Definition current (c : option (call droppable)) : option (call C) := mjoin c.

Lemma used_snoc hist (c : call C) (a : answer C) :
  used (hist ++ [(Some c, Some a)]) = used hist ++ [(c, a)].
Proof. unfold used. by rewrite omap_app. Qed.

Lemma used_drop hist : used (hist ++ [(None, None)]) = used hist.
Proof. unfold used. by rewrite omap_app, app_nil_r. Qed.

(** Does the thread still own its share?  Its drop gives the share back in
    its only access. *)
Definition holds (t : thread droppable) : bool :=
  match t with
  | Idle None _ | Busy None (Ret _) _ => false
  | _ => true
  end.

Definition shares (ts : list (thread droppable)) : Z :=
  foldr (fun t n => (if holds t then 1 else 0) + n) 0 ts.

Lemma shares_insert ts i t t' :
  ts !! i = Some t →
  shares (<[i := t']> ts) =
  shares ts - (if holds t then 1 else 0) + (if holds t' then 1 else 0).
Proof.
  revert i. induction ts as [|u ts IH]; intros [|i] Hi; [done..| |].
  - injection Hi as ->. cbn. lia.
  - specialize (IH i Hi). change (<[S i:=t']> (u :: ts)) with (u :: <[i:=t']> ts).
    unfold shares in *. cbn [foldr]. lia.
Qed.

Lemma shares_ge ts : 0 ≤ shares ts.
Proof.
  unfold shares. induction ts as [|t ts IH]; [done|]. cbn [foldr]. destruct (holds t); lia.
Qed.

Lemma shares_pos ts i t : ts !! i = Some t → holds t = true → 1 ≤ shares ts.
Proof.
  intros Hi Ht. set (gone := Idle (C := droppable) None []).
  pose proof (shares_insert ts i t gone Hi) as E. rewrite Ht in E.
  change (holds gone) with false in E. cbv iota in E. pose proof (shares_ge (<[i := gone]> ts)). lia.
Qed.
End Droppable.
Arguments use {T C}. Arguments relinquish {T C}. Arguments used {T C drop_of}. Arguments current {T C drop_of}.
Arguments holds {T C drop_of}. Arguments shares {T C drop_of} : simpl never.

(** ** Executions without the drops *)

Section Erasure.
Context {T : Type} (N : Z) (C : interface T) (drop_of : handle C → option (prog T unit)).
#[local] Notation D := (droppable C drop_of).
Implicit Types (w : World T) (ts : list (thread D)) (us : list (thread C)).

(** Every thread, and the one that does the same without dropping. *)
Inductive tracks : thread D → thread C → Prop :=
  | tracks_idle h hist hist' :
      used hist = hist' → tracks (Idle (C := D) (Some h) hist) (Idle h hist')
  | tracks_busy c m hist hist' :
      used hist = hist' → arcless m →
      tracks (Busy (C := D) (Some c) (use m) hist) (Busy c m hist')
  | tracks_dropping h m hist hist' :
      used hist = hist' → m = relinquish arc_drop → tracks (Busy (C := D) None m hist) (Idle h hist')
  | tracks_dropped h hist hist' :
      used hist = hist' → tracks (Busy (C := D) None (Ret (None, None)) hist) (Idle h hist')
  | tracks_gone h hist hist' :
      used hist = hist' → tracks (Idle (C := D) None hist) (Idle h hist').

(** The memory is alive as long as there are shares, and then differs from
    the one nobody gives up only in their number, [k] there; with the last
    share the buffer has been dropped. *)
Record erases (k : Z) (s : config (sc N) D) (s' : config (sc N) C) : Prop := {
  er_threads : Forall2 tracks s.2 s'.2;
  er_strong : strong s.1 = shares s.2;
  er_memory :
    if freed s.1 then
      shares s.2 = 0 ∧ chan s.1 = chan s'.1 ∧ dropped s.1 = dropped s'.1 ++ buffer (chan s'.1)
    else 0 < shares s.2 ∧ s'.1 = with_strong k s.1;
  er_alive : freed s'.1 = false
}.

Context (exec_arcless : ∀ h c m, exec C h c = Some m → arcless m).
Context (drops_arc : ∀ h m, drop_of h = Some m → m = arc_drop).

Lemma tracks_lookup ts us i t :
  Forall2 tracks ts us → ts !! i = Some t → ∃ u, us !! i = Some u ∧ tracks t u.
Proof. intros HF Hi. destruct (Forall2_lookup_l _ _ _ _ _ HF Hi) as (u & ? & ?). eauto. Qed.

(** A move of a thread that is none in the execution without drops. *)
Lemma erases_stutter k w ts s' i t t' u :
  erases k (w, ts) s' → ts !! i = Some t → s'.2 !! i = Some u → tracks t' u →
  holds t' = holds t → erases k (w, <[i := t']> ts) s'.
Proof.
  destruct s' as [w' us]. intros [HF Hs Hm Ha] Hi Hu Ht Hh. cbn in *.
  assert (E : shares (<[i := t']> ts) = shares ts) by (rewrite (shares_insert _ _ _ i t), Hh by done; lia).
  split; cbn; rewrite ?E; try done.
  rewrite <- (list_insert_id us i u Hu). by apply Forall2_insert.
Qed.

(** A move of both, which keeps the share. *)
Lemma erases_both k w ts s' w1 w1' i t t' u' :
  erases k (w, ts) s' → ts !! i = Some t → tracks t' u' → holds t' = holds t →
  strong w1 = strong w → freed w1 = freed w → (freed w = true → w1 = w ∧ w1' = s'.1) →
  (freed w = false → w1' = with_strong k w1) →
  erases k (w1, <[i := t']> ts) (w1', <[i := u']> s'.2).
Proof.
  destruct s' as [w' us]. intros [HF Hs Hm Ha] Hi Ht Hh Es Ef Hdead Hlive. cbn in *.
  assert (E : shares (<[i := t']> ts) = shares ts) by (rewrite (shares_insert _ _ _ i t), Hh by done; lia).
  destruct (freed w) eqn:Hfr.
  - destruct (Hdead eq_refl) as [-> ->]. split; cbn; rewrite ?E, ?Hfr; try done. by apply Forall2_insert.
  - rewrite (Hlive eq_refl). split; cbn; rewrite ?E, ?Es, ?Ef; try done; [by apply Forall2_insert|].
    by split; [apply Hm|].
Qed.

(** The calls of the other execution. *)
Lemma erases_call k w ts s' i h hist c m :
  erases k (w, ts) s' → ts !! i = Some (Idle (C := D) (Some h) hist) → exec C h c = Some m →
  ∃ s1', reachable (sc N) s' s1' ∧
    erases k (w, <[i := Busy (C := D) (Some c) (use m) hist]> ts) s1'.
Proof.
  intros He Hi Hm. destruct (tracks_lookup _ _ _ _ (er_threads _ _ _ He) Hi) as (u & Hu & Ht).
  destruct s' as [w' us]; cbn [fst snd] in Hu.
  inversion Ht as [? ? hist' Eh| | | |]; subst. eexists. split.
  - eapply reachable_step; [apply reachable_refl|]. by eapply step_call.
  - pose proof (er_memory _ _ _ He) as Hmem. cbn in Hmem.
    eapply (erases_both k w ts (w', us) w w'); try done.
    + constructor; [done|exact (exec_arcless _ _ _ Hm)].
    + intros Hf. rewrite Hf in Hmem. apply Hmem.
Qed.

Lemma erases_access k w ts w' us i c m hist X (a : act T X) k' x w1 :
  erases k (w, ts) (w', us) → ts !! i = Some (Busy (C := D) (Some c) (Do a k') hist) →
  us !! i = Some (Busy c m (used hist)) → arcless m →
  Do a k' = use m → act_step N a w x w1 →
  ∃ s1', reachable (sc N) (w', us) s1' ∧
    erases k (w1, <[i := Busy (C := D) (Some c) (k' x) hist]> ts) s1'.
Proof.
  intros He Hi Hu Hm E. revert x Hi.
  apply (bind_do_inv (fun X a k' => ∀ x, ts !! i = Some (Busy (C := D) (Some c) (Do a k') hist) →
    act_step N a w x w1 → ∃ s1', reachable (sc N) (w', us) s1' ∧
      erases k (w1, <[i := Busy (C := D) (Some c) (k' x) hist]> ts) s1') a k' m _ E);
    [by intros [h r]|].
  clear E. intros Y b kb -> x Hi Ha. destruct Hm as [Hn Hk].
  destruct (act_step_strong N b k w x w1 Hn Ha) as (Ha' & Es & Ef1 & Ef).
  pose proof (er_memory _ _ _ He) as Hmem. cbn in Hmem. rewrite Ef in Hmem.
  destruct Hmem as [Hpos ->].
  exists (with_strong k w1, <[i := Busy c (kb x) (used hist)]> us). split.
  - eapply reachable_step; [apply reachable_refl|]. by eapply step_act with (a := b).
  - eapply (erases_both k w ts (with_strong k w, us) w1); try done.
    + constructor; [done|by apply Hk].
    + by rewrite Ef.
    + by rewrite Ef.
Qed.
(** The drop of a handle: the last one releases the memory. *)
Lemma erases_drop k w ts w' us i h hist X (a : act T X) k' x w1 :
  erases k (w, ts) (w', us) → ts !! i = Some (Busy (C := D) None (Do a k') hist) →
  us !! i = Some (Idle h (used hist)) →
  Do a k' = relinquish arc_drop → act_step N a w x w1 →
  erases k (w1, <[i := Busy (C := D) None (k' x) hist]> ts) (w', us).
Proof.
  intros He Hi Hu E. revert x Hi.
  apply (do_inv (fun X a k' => ∀ x, ts !! i = Some (Busy (C := D) None (Do a k') hist) →
    act_step N a w x w1 → erases k (w1, <[i := Busy (C := D) None (k' x) hist]> ts) (w', us))
    a k' _ _ E). clear E.
  intros x Hi [Hf ->]. destruct He as [HF Hs Hm Ha]. cbn in *.
  rewrite Hf in Hm. destruct Hm as [Hpos ->].
  set (t' := Busy (C := D) None _ hist).
  assert (Esh : shares (<[i := t']> ts) = shares ts - 1).
  { pose proof (shares_insert _ _ _ i _ t' Hi : _ = shares ts - 1 + 0) as E. lia. }
  assert (HF' : Forall2 tracks (<[i := t']> ts) us).
  { rewrite <- (list_insert_id us i _ Hu). apply Forall2_insert; [done|by constructor]. }
  unfold do_arc_drop. destruct (Z.eqb_spec (strong w) 1).
  - split; cbn; [done|lia| |done]. split_and!; [lia|done|done].
  - split; cbn; [done|lia| |done]. rewrite Hf. split; [lia|done].
Qed.

Lemma erases_step k s s1 s' :
  erases k s s' → step (sc N) s s1 → ∃ s1', reachable (sc N) s' s1' ∧ erases k s1 s1'.
Proof.
  intros He Hs. destruct Hs as
    [w ts i h hist c m Hi Hm|w ts i c hist X a k' x w1 Hi Ha|w ts i c hist h r Hi
    |w ts i h hist d Hi Hd|w ts i c hist X a k' d w1 Hi Hd Ha]; try done;
    destruct (tracks_lookup _ _ _ _ (er_threads _ _ _ He) Hi) as (u & Hu & Ht);
    destruct s' as [w' us]; cbn [fst snd] in Hu.
  - cbn in Hm. destruct h as [h|], c as [c|]; try done; apply bind_Some in Hm as (m' & Em & [= <-]).
    + by eapply erases_call.
    + apply drops_arc in Em as ->. inversion Ht; subst. eexists. split; [apply reachable_refl|].
      eapply erases_stutter; [done|done|exact Hu|by constructor|done].
  - inversion Ht; subst.
    + by eapply erases_access.
    + eexists. split; [apply reachable_refl|]. by eapply erases_drop.
  - inversion Ht; subst.
    + match goal with E : use ?m = _ |- _ =>
        destruct m as [[h' r']|p|Y b kb]; try done; injection E as <- <- end.
      eexists. split.
      * eapply reachable_step; [apply reachable_refl|]. by eapply step_return.
      * pose proof (er_memory _ _ _ He) as Hmem. cbn in Hmem.
        eapply (erases_both k w ts (w', us) w w'); try done.
        -- constructor. apply used_snoc.
        -- intros Hf. rewrite Hf in Hmem. apply Hmem.
    + match goal with E : Ret _ = relinquish _ |- _ => discriminate E end.
    + eexists. split; [apply reachable_refl|].
      eapply erases_stutter; [done|done|exact Hu|constructor; apply used_drop|done].
Qed.

(** Every execution is, drops apart, one without them. *)
Lemma droppable_erases k s0 s s0' :
  erases k s0 s0' → reachable (sc N) s0 s → ∃ s', reachable (sc N) s0' s' ∧ erases k s s'.
Proof.
  intros He Hr. induction Hr as [|s1 s2 Hr IH Hs]; [by eexists; split; [apply reachable_refl|]|].
  destruct IH as (s1' & Hr' & He'). destruct (erases_step _ _ _ _ He' Hs) as (s2' & Hr2 & He2).
  exists s2'. split; [by etrans|done].
Qed.

(** *** From the start *)

(** Threads that own these handles, one share each. *)
Definition droppable_start w (hs : list (handle C)) : config (sc N) D :=
  (w, (fun h => Idle (C := D) (Some h) []) <$> hs).

Lemma erases_start w hs :
  freed w = false → hs ≠ [] → strong w = Z.of_nat (length hs) →
  erases (strong w) (droppable_start w hs) (w, (fun h => Idle h []) <$> hs).
Proof.
  intros Hf Hhs Hs.
  assert (E : shares (droppable_start w hs).2 = Z.of_nat (length hs)).
  { clear. unfold shares. cbn. induction hs as [|h hs IH]; [done|]. cbn. cbn in IH. lia. }
  split; rewrite ?E; cbn; try done.
  - apply Forall2_fmap, Forall_Forall2_diag, Forall_true. intros h. by constructor.
  - rewrite Hf. split; [destruct hs; [done|cbn; lia]|]. by destruct w.
Qed.

(** What each thread has done. *)
Lemma erases_calls k s s' i t :
  erases k s s' → s.2 !! i = Some t →
  ∃ t', s'.2 !! i = Some t' ∧ used (calls_of t).2 = (calls_of t').2 ∧
        current (calls_of t).1 = (calls_of t').1.
Proof.
  intros He Hi. destruct (tracks_lookup _ _ _ _ (er_threads _ _ _ He) Hi) as (t' & Ht' & Ht).
  exists t'. split; [done|]. by destruct Ht.
Qed.

(** The memory is released with the last share, and not before. *)
Lemma erases_freed k s s' : erases k s s' → freed s.1 = bool_decide (shares s.2 = 0).
Proof.
  intros [_ _ Hm _]. destruct (freed s.1).
  - destruct Hm as [-> _]. by rewrite bool_decide_true.
  - rewrite bool_decide_false; [done|]. destruct Hm. lia.
Qed.

Lemma erases_chan k s s' : erases k s s' → chan s.1 = chan s'.1.
Proof. intros [_ _ Hm _]. destruct (freed s.1); [apply Hm|]. by destruct Hm as [_ ->]. Qed.

(** The buffer is dropped with it. *)
Lemma erases_dropped k s s' :
  erases k s s' → freed s.1 = true → ∃ vs, dropped s.1 = vs ++ buffer (chan s.1).
Proof.
  intros He Hf. rewrite (erases_chan _ _ _ He). destruct He as [_ _ Hm _]. rewrite Hf in Hm.
  destruct Hm as (_ & _ & ->). eauto.
Qed.

(** What a thread does next is possible. *)
Definition can_go {C' : interface T} (s : config (sc N) C') : Prop :=
  ∀ i c m hist, s.2 !! i = Some (Busy c m hist) →
  match m with
  | Ret _ => True
  | Panic _ => False
  | Do a _ => ∃ x w', act_step N a s.1 x w'
  end.

Lemma erases_can_go k s s' : erases k s s' → can_go s' → can_go s.
Proof.
  intros He Hgo i c m hist Hi. pose proof (er_memory _ _ _ He) as Hm.
  assert (Hf : holds (Busy (C := D) c m hist) = true → freed s.1 = false).
  { intros Hh. pose proof (shares_pos _ _ _ _ _ Hi Hh).
    destruct (freed s.1); [destruct Hm; lia|done]. }
  destruct (tracks_lookup _ _ _ _ (er_threads _ _ _ He) Hi) as (u & Hu & Ht).
  inversion Ht as [|? m' ? ? Eh Ha|? ? ? ? Eh E| |]; subst.
  - specialize (Hgo i _ _ _ Hu). rewrite Hf in Hm by done. destruct Hm as [_ E]. rewrite E in Hgo.
    destruct m' as [[h r]|p|X a k']; try done. destruct Hgo as (x & w' & Hgo).
    destruct Ha as [Ha _]. cbn. destruct (act_step_possible N a k _ x w' Ha Hgo) as [w2 H]. eauto.
  - specialize (Hf eq_refl). exists tt. eexists. by split.
  - done.
Qed.
End Erasure.
