(* ===== verification/Words.v ===== *)
(** * Machine words

    The programs compute on integers of 64 bits.  [words] says that a program
    stores only words, and none in the padding, whatever words it loads, and
    returns what it promises; the words of the shared memory and of the handles
    then remain words in every execution, under either build profile and without
    any bound on the positions: an operation that leaves the range wraps or
    panics. *)

From S2P Require Import Prelude.
From S2P Require Import Rust.
From S2P Require Import Channel.
From S2P Require Import Concurrency.
From S2P Require Import Typing.

(** ** Arithmetic *)

Section Arithmetic.
Context {prof : Profile}.

Lemma checked_word p x y : checked p x = Val y → is_usize y.
Proof.
  unfold checked. destruct (Z.leb_spec 0 x), (Z.ltb_spec x usize_lim); cbn;
    try (intros [= <-]; unfold is_usize; lia);
    destruct overflow_checks; try done; intros [= <-]; apply wrap64_is_usize.
Qed.

Lemma uadd_word x y z : uadd x y = Val z → is_usize z.
Proof. apply checked_word. Qed.

Lemma usub_word x y z : usub x y = Val z → is_usize z.
Proof. apply checked_word. Qed.
End Arithmetic.

Lemma small_word x : 0 ≤ x < 2 ^ 16 → is_usize x.
Proof. unfold is_usize. lia. Qed.

Create HintDb words.
#[export] Hint Resolve uadd_word usub_word wrap64_is_usize : words.
#[export] Hint Extern 1 (is_usize _) => assumption : words.
#[export] Hint Extern 2 (is_usize _) => (apply small_word; lia) : words.

(** ** Programs *)

(** An access stores words, none of them in the padding, and is answered by
    words. *)
Definition stores_word {T X} (a : act T X) : Prop :=
  match a with
  | Store l _ v => l ≠ PADDING ∧ is_usize v
  | FetchAdd l _ d => l ≠ PADDING ∧ is_usize d
  | _ => True
  end.

Definition answers_word {T X} (a : act T X) : X → Prop :=
  match a with Load _ _ => is_usize | FetchAdd _ _ _ => is_usize | _ => fun _ => True end.

Definition words {T A} : (A → Prop) → prog T A → Prop :=
  typed (T := T) (@stores_word T) (@answers_word T).

Section Words.
Context {T : Type}.
Implicit Types (w : World T).

Lemma words_bind {A B} (P : A → Prop) (Q : B → Prop) (m : prog T A) (f : A → prog T B) :
  words P m → (∀ a, P a → words Q (f a)) → words Q (m ≫= f).
Proof. apply typed_bind. Qed.

Lemma words_lift {A B} (Q : B → Prop) (r : res A) (f : A → prog T B) :
  (∀ a, r = Val a → words Q (f a)) → words Q (lift r ≫= f).
Proof. apply typed_lift. Qed.

Lemma words_load {A} (Q : A → Prop) l o (f : Z → prog T A) :
  (∀ x, is_usize x → words Q (f x)) → words Q (load l o ≫= f).
Proof. by split. Qed.

Lemma words_store {A} (Q : A → Prop) l o v (f : unit → prog T A) :
  l ≠ PADDING → is_usize v → words Q (f tt) → words Q (store l o v ≫= f).
Proof. by split; [|intros []]. Qed.

Lemma words_fetch_add {A} (Q : A → Prop) l o d (f : Z → prog T A) :
  l ≠ PADDING → is_usize d → (∀ x, is_usize x → words Q (f x)) →
  words Q (fetch_add l o d ≫= f).
Proof. by split. Qed.

Lemma words_read {A} (Q : A → Prop) i (f : T → prog T A) :
  (∀ v, words Q (f v)) → words Q (read_cell i ≫= f).
Proof. cbn. auto. Qed.

Lemma words_write {A} (Q : A → Prop) i d v (f : unit → prog T A) :
  words Q (f tt) → words Q (Do (WriteBegin i d) (fun _ => Do (WriteEnd i v) Ret) ≫= f).
Proof. cbn. intros. do 2 (split; [done|intros [] _]). done. Qed.

Lemma words_drop_value {A} (Q : A → Prop) v (f : unit → prog T A) :
  words Q (f tt) → words Q (drop_value v ≫= f).
Proof. by split; [|intros []]. Qed.

Lemma copy_words i (vs : list T) : words (fun _ => True) (copy_nonoverlapping i vs).
Proof.
  revert i. induction vs as [|v vs IH]; intros i; [done|]. apply words_write, IH.
Qed.

Lemma words_copy {A} (Q : A → Prop) i vs (f : unit → prog T A) :
  words Q (f tt) → words Q (copy_nonoverlapping i vs ≫= f).
Proof. intros Hf. apply (words_bind _ _ _ _ (copy_words i vs)). by intros []. Qed.

(** ** Memory *)

Definition channel_words (c : Channel T) : Prop := ∀ l, is_usize (get_loc l c).

Lemma channel_words_set l v c :
  channel_words c → is_usize v → channel_words (set_loc l v c).
Proof.
  intros Hc Hv l'. pose proof (Hc TAIL). pose proof (Hc HEAD).
  pose proof (Hc PRODUCER_HEARTBEAT). pose proof (Hc CONSUMER_HEARTBEAT).
  pose proof (Hc CAPACITY). pose proof (Hc MAGIC_WORD). pose proof (Hc PADDING).
  destruct l; [by destruct l'..|]. destruct l'; try done.
  by rewrite get_set_padding.
Qed.

Lemma act_step_words N {X} (a : act T X) w x w' :
  act_step N a w x w' → channel_words (chan w) → stores_word a →
  answers_word a x ∧ channel_words (chan w').
Proof.
  intros Hs Hw Ha. destruct a; cbn in *.
  - destruct Hs as (_ & -> & ->). auto.
  - destruct Hs as (_ & ->), Ha. split; [done|]. by apply channel_words_set.
  - destruct Hs as (_ & -> & ->). split; [done|].
    apply channel_words_set; [done|apply wrap64_is_usize].
  - by destruct Hs as (_ & _ & ->).
  - by destruct Hs as (_ & -> & _).
  - by destruct Hs as (_ & _ & ->).
  - destruct Hs as (_ & _ & ->). split; [done|]. intros l. by specialize (Hw l); destruct l.
  - by destruct Hs as (_ & ->).
  - by destruct Hs as (_ & ->).
  - destruct Hs as (_ & ->). split; [done|]. unfold do_arc_drop. by case_match.
Qed.

(** Only a store to it changes the padding. *)
Lemma set_loc_padding l v (c : Channel T) : l ≠ PADDING → padding (set_loc l v c) = padding c.
Proof. by destruct l. Qed.

Lemma act_step_padding N {X} (a : act T X) w x w' :
  act_step N a w x w' → stores_word a → padding (chan w') = padding (chan w).
Proof.
  intros Hs Ha. destruct a; cbn in *; destruct_and?; subst; try done;
    try (by apply set_loc_padding).
  unfold do_arc_drop. by case_match.
Qed.

Lemma crash_step_padding {X} (a : act T X) w w' :
  crash_step a w w' → padding (chan w') = padding (chan w).
Proof. destruct a; cbn; try (by intros ->). by intros (u & ->). Qed.

Lemma crash_step_words {X} (a : act T X) w w' :
  crash_step a w w' → channel_words (chan w) → channel_words (chan w').
Proof.
  intros Hs Hw. destruct a; cbn in *; try (by subst w').
  destruct Hs as (u & ->). intros l. by specialize (Hw l); destruct l.
Qed.

(** ** Threads *)

Section Threads.
Context (N : Z) (C : interface T) (handle_words : handle C → Prop).
Context (exec_words : ∀ h c m, handle_words h → exec C h c = Some m →
  words (fun hr => handle_words hr.1) m).
Context (down_words : ∀ i d, down C i = Some d → handle_words d).

Definition config_words : config (sc N) C → Prop :=
  config_typed (@stores_word T) (@answers_word T) N C channel_words
    (fun _ h _ => handle_words h) (fun _ _ => True).

(** An invariant of the channel that every access of the programs keeps. *)
Lemma reachable_keeps (Chan : Channel T → Prop) s s' :
  (∀ X (a : act T X) w x w', act_step N a w x w' → channel_words (chan w) →
     stores_word a → Chan (chan w) → Chan (chan w')) →
  (∀ X (a : act T X) w w', crash_step a w w' → Chan (chan w) → Chan (chan w')) →
  config_words s → Chan (chan s.1) → reachable (sc N) s s' →
  config_words s' ∧ Chan (chan s'.1).
Proof.
  intros Hact Hcrash [Hw Hts] Hc Hr.
  assert (H : config_typed (@stores_word T) (@answers_word T) N C
    (fun c => channel_words c ∧ Chan c) (fun _ h _ => handle_words h) (fun _ _ => True) s').
  { eapply (reachable_typed _ _ N C _ (fun _ h _ => handle_words h) (fun _ _ => True)
      (fun _ _ _ => True)); [|..|split; [by split|exact Hts]|exact Hr|done].
    - intros X a w x w' Ha [H1 H2] Hs. destruct (act_step_words N a w x w' Ha H1 Hs). eauto.
    - intros X a w w' Ha [H1 H2]. split; [by eapply crash_step_words|by eapply Hcrash].
    - intros i h hist c m Hh _. by apply exec_words.
    - done.
    - intros. by eapply down_words.
    - intros. by eapply down_words. }
  destruct H as [[H1 H2] H3]. by split; [split|].
Qed.

Lemma reachable_words s s' :
  config_words s → reachable (sc N) s s' →
  config_words s' ∧ padding (chan s'.1) = padding (chan s.1).
Proof.
  intros H Hr. apply (reachable_keeps (fun c => padding c = padding (chan s.1)) s); try done.
  - intros X a w x w' Ha _ Hs <-. by eapply act_step_padding.
  - intros X a w w' Ha <-. by eapply crash_step_padding.
Qed.
End Threads.
End Words.

(** Follows a program, splitting on its tests. *)
Ltac follow_words :=
  repeat first
    [ apply words_lift; intros ? ?
    | apply words_load; intros ? ?
    | apply words_fetch_add; [done| |intros ? ?]
    | apply words_store; [done| |]
    | apply words_read; intros ?
    | apply words_write
    | apply words_drop_value
    | apply words_copy
    | match goal with |- words _ (if ?b then _ else _) => destruct b eqn:? end
    | match goal with |- words _ (mret _) => cbn [words mret prog_mret] end
    | match goal with |- words _ (Panic _) => exact Logic.I end ].
