(* ===== verification/Metadata.v ===== *)
(** * The padding as shared metadata

    Every handle gives out a pointer to the padding of the channel
    ([get_padding_ptr]), for the user to keep what he likes there; the test
    [test_synchronized_metadata] of [src/que/src/lossless/mod.rs] accesses it
    as an [AtomicU64].  [with_metadata] adds these accesses to the calls of
    any channel, so that they interleave with all its operations, and the
    theorems say that neither disturbs the other: a channel whose programs
    leave the padding alone cannot change the metadata, and what is read of it
    is what was there, or what was stored. *)

From S2P Require Import Prelude.
From S2P Require Import Rust.
From S2P Require Import Channel.
From S2P Require Import Concurrency.
From S2P Require Import Typing.
From S2P Require Import Words.

(** ** Programs and calls *)

(** [store(metadata, Ordering::Release)] on the padding as an [AtomicU64]. *)
Definition store_metadata {T} (metadata : Z) : prog T unit := store PADDING Release metadata.

(** [metadata.load(Ordering::Acquire)]. *)
Definition load_metadata {T} : prog T Z := load PADDING Acquire.

Inductive metadata_call (K : Type) : Type :=
  | ChannelCall (c : K)
  | SetMetadata (metadata : Z)
  | GetMetadata.
Arguments ChannelCall {K}. Arguments SetMetadata {K}. Arguments GetMetadata {K}.

#[export] Instance metadata_call_eq_dec {K} `{EqDecision K} : EqDecision (metadata_call K).
Proof. solve_decision. Defined.

Inductive metadata_answer (R : Type) : Type :=
  | ChannelAnswer (a : R)
  | AStored
  | AMetadata (metadata : Z).
Arguments ChannelAnswer {R}. Arguments AStored {R}. Arguments AMetadata {R}.

Section Interface.
Context {T : Type} (C : interface T).
(** The pointer to the padding a thread has got from its handle. *)
Context (padding_ptr : handle C → option Z).

Definition metadata_exec (h : handle C) (c : metadata_call (call C)) :
    option (prog T (handle C * metadata_answer (answer C))) :=
  match c, padding_ptr h with
  | ChannelCall c, _ =>
      match exec C h c with
      | Some m => Some ('(h, a) ← m; mret (h, ChannelAnswer a))
      | None => None
      end
  | SetMetadata v, Some _ => Some (_ ← store_metadata v; mret (h, AStored))
  | GetMetadata, Some _ => Some (v ← load_metadata; mret (h, AMetadata v))
  | _, None => None
  end.

Definition with_metadata : interface T :=
  mkInterface T (handle C) (metadata_call (call C)) (metadata_answer (answer C))
    metadata_exec (down C) (ChannelAnswer (cut C)).

(** ** Accesses *)

(** The channel's programs store words outside the padding; what is stored
    there is as [ok] says. *)
Definition stores_metadata (ok : Z → Prop) {X} (a : act T X) : Prop :=
  match a with
  | Store PADDING _ v => is_usize v ∧ ok v
  | _ => stores_word a
  end.

Definition answers_metadata (ok : Z → Prop) {X} (a : act T X) : X → Prop :=
  match a in act _ X return X → Prop with
  | Load PADDING _ => fun x => is_usize x ∧ ok x
  | a => answers_word a
  end.

Definition metadata_ok (ok : Z → Prop) (c : Channel T) : Prop :=
  channel_words c ∧ ok (get_loc PADDING c).

Definition is_set (v : Z) {X} (a : act T X) : Prop :=
  match a with Store PADDING _ u => u = v | _ => False end.

Lemma words_metadata {A} (ok ok' : Z → Prop) (Q : A → Prop) (m : prog T A) :
  words Q m → typed (@stores_metadata ok) (@answers_metadata ok') Q m.
Proof.
  apply typed_weaken.
  - intros X [| [] | | | | | | | |]; cbn; naive_solver.
  - intros X [[] | | | | | | | | |] x; cbn; naive_solver.
Qed.

Lemma get_loc_padding (c c' : Channel T) :
  padding c = padding c' → get_loc PADDING c = get_loc PADDING c'.
Proof. intros E. cbn. by rewrite E. Qed.

(** An access either leaves the metadata or stores it. *)
Lemma act_step_metadata (ok : Z → Prop) N {X} (a : act T X) w x w' :
  act_step N a w x w' → stores_metadata ok a → channel_words (chan w) →
  channel_words (chan w') ∧
  (get_loc PADDING (chan w') = get_loc PADDING (chan w) ∨ ok (get_loc PADDING (chan w'))) ∧
  ∀ v, is_set v a → get_loc PADDING (chan w') = v.
Proof.
  intros Hs Ha Hw.
  assert (H : stores_word a → (∀ v, ¬ is_set v a) → channel_words (chan w') ∧
    (get_loc PADDING (chan w') = get_loc PADDING (chan w) ∨ ok (get_loc PADDING (chan w'))) ∧
    ∀ v, is_set v a → get_loc PADDING (chan w') = v).
  { intros Hs' Hn. destruct (act_step_words N a w x w' Hs Hw Hs'). split_and!; [done| |].
    - left. by eapply get_loc_padding, act_step_padding.
    - intros v Hv. by destruct (Hn v). }
  destruct a as [| [] | | | | | | | |]; try (by apply H; [exact Ha|intros ? []]).
  cbn [stores_metadata] in Ha. destruct Ha as [Hv Hok], Hs as (_ & ->).
  change (chan (do_store N PADDING v w)) with (set_loc PADDING v (chan w)).
  rewrite get_set_padding by done. split_and!; [by apply channel_words_set|by right|done].
Qed.

Lemma crash_step_metadata {X} (a : act T X) (w w' : World T) :
  crash_step a w w' → get_loc PADDING (chan w') = get_loc PADDING (chan w).
Proof. intros. by eapply get_loc_padding, crash_step_padding. Qed.

(** ** Threads *)

Section Threads.
Context (N : Z) (handle_words : handle C → Prop).
Context (exec_words : ∀ h c m, handle_words h → exec C h c = Some m →
  words (fun hr => handle_words hr.1) m).
Context (down_words : ∀ i d, down C i = Some d → handle_words d).
(** What threads store, and what they find; and the calls a thread had
    completed when it was known what it finds. *)
Context (ok_set ok_get : Z → Prop) (ok_found : ∀ v, ok_set v → ok_get v).
Context (base : nat → option (history with_metadata)).

Definition answer_found (e : metadata_call (call C) * metadata_answer (answer C)) : Prop :=
  match e.2 with AMetadata x => ok_get x | _ => True end.

Definition found_since (i : nat) (hist : history with_metadata) : Prop :=
  ∀ hist0, base i = Some hist0 → ∃ rest, hist = hist0 ++ rest ∧ Forall answer_found rest.

Definition finds (i : nat) (h : handle C) (hist : history with_metadata) : Prop :=
  handle_words h ∧ found_since i hist.

Definition set_allowed (i : nat) (hist : history with_metadata) (c : metadata_call (call C)) : Prop :=
  match c with SetMetadata v => is_usize v ∧ ok_set v | _ => True end.

Definition config_finds : config (sc N) with_metadata → Prop :=
  config_typed (@stores_metadata ok_set) (@answers_metadata ok_get) N
    with_metadata (metadata_ok ok_get) finds found_since.

Lemma finds_snoc i h h' hist c a :
  finds i h hist → handle_words h' → answer_found (c, a) → finds i h' (hist ++ [(c, a)]).
Proof.
  intros [_ Hf] Hh Ha. split; [done|]. intros hist0 Hb.
  destruct (Hf hist0 Hb) as (rest & -> & Hr). exists (rest ++ [(c, a)]).
  rewrite app_assoc. split; [done|]. apply Forall_app. by repeat constructor.
Qed.

Lemma metadata_exec_typed i h hist c m :
  finds i h hist → set_allowed i hist c → metadata_exec h c = Some m →
  typed (@stores_metadata ok_set) (@answers_metadata ok_get)
    (fun hr => finds i hr.1 (hist ++ [(c, hr.2)])) m.
Proof.
  intros Hf Hc Hm. pose proof Hf as [Hh _]. destruct c as [c|v|]; cbn in Hm.
  - destruct (exec C h c) as [m'|] eqn:E; [|done]. injection Hm as <-.
    eapply typed_bind; [by eapply words_metadata, exec_words|]. intros [h' a] Ha. cbn.
    by eapply finds_snoc.
  - destruct (padding_ptr h); [|done]. injection Hm as <-. split; [done|]. intros [] _. cbn.
    by eapply finds_snoc.
  - destruct (padding_ptr h); [|done]. injection Hm as <-. split; [done|]. intros x [_ Hx]. cbn.
    by eapply finds_snoc.
Qed.

Lemma reachable_finds s s' :
  config_finds s → reachable (sc N) s s' → all_allowed N with_metadata set_allowed s' →
  config_finds s'.
Proof.
  apply reachable_typed.
  - intros X a w x w' Ha [Hw Hx] Hs.
    destruct (act_step_metadata ok_set N a w x w' Ha Hs Hw) as (Hw' & Hp & _). split.
    + assert (Hl : stores_word a → answers_word a x) by (intros Hs'; by eapply act_step_words).
      destruct a as [[] | [] | | | | | | | |]; cbn in *; try (by apply Hl); try done.
      destruct Ha as (_ & -> & _). split; [apply (Hw PADDING)|done].
    + split; [done|]. destruct Hp as [->|Hp]; [done|]. by apply ok_found.
  - intros X a w w' Ha [Hw Hx]. split; [by eapply crash_step_words|].
    by rewrite (crash_step_metadata a w w' Ha).
  - intros i h hist c m. apply metadata_exec_typed.
  - by intros i h hist [].
  - intros i h hist d [_ Hf] Hd. split; [by eapply down_words|done].
  - intros i h hist c d Hf _ Hd. by eapply finds_snoc; [|eapply down_words|].
Qed.

Lemma thread_found i t :
  thread_typed (@stores_metadata ok_set) (@answers_metadata ok_get) with_metadata
    finds found_since i t → found_since i (calls_of t).2.
Proof. destruct t; cbn; [by intros []|by intros [? _]]. Qed.
End Threads.

(** ** A value that is stored once *)

Section Once.
Context (N : Z) (handle_words : handle C → Prop).
Context (exec_words : ∀ h c m, handle_words h → exec C h c = Some m →
  words (fun hr => handle_words hr.1) m).
Context (down_words : ∀ i d, down C i = Some d → handle_words d).
Context (v : Z).

(** Memory starts with no metadata, and [v] is the only metadata stored. *)
Definition absent_or_v (x : Z) : Prop := x = 0 ∨ x = v.

#[local] Notation from_start := (fun _ : nat => Some ([] : history with_metadata)).
#[local] Notation config_once := (config_finds N handle_words (eq v) absent_or_v from_start).

Definition holds (w : World T) : Prop := get_loc PADDING (chan w) = v.

Definition stored (hist : history with_metadata) : Prop := (SetMetadata v, AStored) ∈ hist.

(** A store that has been answered, or is about to be, is in memory. *)
Definition store_done (w : World T) (t : thread with_metadata) : Prop :=
  (stored (calls_of t).2 → holds w) ∧
  match t with
  | Busy (SetMetadata u) (Do a k) _ => is_set u a ∧ ∀ x, ∃ h, k x = Ret (h, AStored)
  | Busy (SetMetadata u) (Ret _) _ => u = v → holds w
  | _ => True
  end.

Definition stores_done (s : config (sc N) with_metadata) : Prop :=
  ∀ i t, s.2 !! i = Some t → store_done s.1 t.

Lemma store_done_mono w w' t : (holds w → holds w') → store_done w t → store_done w' t.
Proof.
  intros Hm [Hs Ht]. split; [auto|]. destruct t as [|[] [] hist]; auto.
Qed.

Lemma stores_done_update w w' ts i t :
  (holds w → holds w') → stores_done (w, ts) → store_done w' t →
  stores_done (w', <[i := t]> ts).
Proof.
  intros Hm Hs Ht j u Hj. cbn in *.
  apply list_lookup_insert_Some in Hj as [(-> & <- & _)|[_ Hj]]; [done|].
  eapply store_done_mono; [done|]. by apply (Hs j).
Qed.

Lemma stored_snoc hist c a :
  stored (hist ++ [(c, a)]) → stored hist ∨ (c, a) = (SetMetadata v, AStored).
Proof. unfold stored. rewrite elem_of_app, list_elem_of_singleton. naive_solver. Qed.

Lemma step_stores_done s s' :
  config_once s → stores_done s → step (sc N) s s' → stores_done s'.
Proof.
  intros [Hw Hts] Hd Hs. destruct Hs as
    [w ts i h hist c m Hi Hm|w ts i c hist X a k x w' Hi Ha|w ts i c hist h r Hi
    |w ts i h hist d Hi Hdown|w ts i c hist X a k d w' Hi Hdown Ha];
    cbn in *; pose proof (Hd _ _ Hi) as [Hst Ht]; cbn in Hst, Ht;
    (eapply stores_done_update; [|exact Hd|]; [try done|]).
  - split; [done|]. destruct c as [c|u|]; [done| |done]. cbn in Hm.
    destruct (padding_ptr h); [|done]. injection Hm as <-. split; [done|]. by exists h.
  - destruct (Hts _ _ Hi) as (_ & [Hpre _] & _). intros Hh.
    destruct (act_step_metadata (eq v) N a w x w' Ha Hpre (proj1 Hw)) as (_ & [E|E] & _);
      [|done]. unfold holds. by rewrite E.
  - destruct (Hts _ _ Hi) as (_ & [Hpre _] & _).
    destruct (act_step_metadata (eq v) N a w x w' Ha Hpre (proj1 Hw)) as (_ & E & Hset).
    split; cbn.
    + intros Hh%Hst. unfold holds in *. by destruct E as [->|<-].
    + destruct c as [c|u|]; [by destruct (k x)| |by destruct (k x)].
      destruct Ht as [Ha' Hk]. destruct (Hk x) as [h ->]. intros ->. by apply Hset.
  - split; [|done]. cbn. intros [Hh|E]%stored_snoc; [by apply Hst|].
    injection E as -> ->. by apply Ht.
  - by split.
  - intros Hh. unfold holds. by rewrite (crash_step_metadata a w w' Ha).
  - split; [|done]. cbn. intros [Hh|E]%stored_snoc; [|done].
    unfold holds. rewrite (crash_step_metadata a w w' Ha). by apply Hst.
Qed.

(** Threads that have done nothing yet, and no metadata. *)
Definition metadata_start (s : config (sc N) with_metadata) : Prop :=
  channel_words (chan s.1) ∧ get_loc PADDING (chan s.1) = 0 ∧
  ∀ i (t : thread with_metadata), s.2 !! i = Some t →
    ∃ h, t = Idle (C := with_metadata) h [] ∧ handle_words h.

#[local] Notation sets_v := (all_allowed N with_metadata (set_allowed (eq v))).

Lemma start_once s : metadata_start s → config_once s ∧ stores_done s.
Proof.
  intros (Hw & H0 & Hts). split; [split|].
  - split; [done|]. by left.
  - intros i t Hi. destruct (Hts i t Hi) as (h & -> & Hh). split; [done|].
    intros hist0 [= <-]. by exists [].
  - intros i t Hi. destruct (Hts i t Hi) as (h & -> & Hh). split; [|done].
    by intros ?%not_elem_of_nil.
Qed.

Lemma reachable_once s0 s :
  metadata_start s0 → reachable (sc N) s0 s → sets_v s → config_once s ∧ stores_done s.
Proof.
  intros H0 Hr. induction Hr as [|s1 s2 Hr IH Hs]; [by intros _; apply start_once|].
  intros Hall. destruct IH as [H1 H2]; [by eapply all_allowed_before|].
  split; [|by eapply step_stores_done].
  eapply (reachable_finds N handle_words exec_words down_words (eq v) absent_or_v);
    [by right|exact H1|by econstructor; [constructor|]|done].
Qed.

(** The threads that are idle in [s]. *)
Definition idle_history (s : config (sc N) with_metadata) (i : nat) :
    option (history with_metadata) :=
  match s.2 !! i with Some (Idle _ hist) => Some hist | _ => None end.

Lemma idle_history_thread s i hist :
  idle_history s i = Some hist → ∃ h, s.2 !! i = Some (Idle (C := with_metadata) h hist).
Proof.
  unfold idle_history. destruct (s.2 !! i) as [[h hist'|c m hist']|] eqn:E; try done.
  intros [= ->]. by exists h.
Qed.

Lemma config_from_here s :
  config_once s → holds s.1 →
  config_finds N handle_words (eq v) (eq v) (idle_history s) s.
Proof.
  intros [[Hw _] Hts] Hh. split; [by split|]. intros i t Hi.
  pose proof (Hts i t Hi) as Ht.
  assert (Hb : idle_history s i = match t with Idle _ hist => Some hist | _ => None end)
    by (unfold idle_history; by rewrite Hi).
  clear Hi. destruct t as [h hist|c m hist]; cbn in Hts, Ht, Hb |- *.
  - destruct Ht as [Hh' _]. split; [done|]. intros hist0. rewrite Hb.
    intros [= <-]. exists []. by rewrite app_nil_r.
  - assert (Hn : ∀ hist, found_since (eq v) (idle_history s) i hist).
    { intros hist' hist0. by rewrite Hb. }
    destruct Ht as (_ & Hm & Hd). split_and!; [done| |].
    + eapply typed_mono; [eapply typed_weaken; [done| |exact Hm]|].
      * intros X [[] | | | | | | | | |] x; cbn; unfold absent_or_v; naive_solver.
      * cbn. by intros [h a] [Ha _].
    + intros d Hdown. by destruct (Hd d Hdown).
Qed.

(** However the threads' calls interleave, the channel's included: what a
    thread finds is nothing or [v]; once a store has returned, [v] is in
    memory, and whatever a thread asks for from then on is [v]. *)
Lemma metadata_once s0 s1 s2 :
  metadata_start s0 → reachable (sc N) s0 s1 → reachable (sc N) s1 s2 → sets_v s2 →
  (∀ i t, s2.2 !! i = Some t → Forall (answer_found absent_or_v) (calls_of t).2) ∧
  ∀ j tj, s1.2 !! j = Some tj → stored (calls_of tj).2 →
    holds s1.1 ∧
    ∀ i h1 hist1 t, s1.2 !! i = Some (Idle h1 hist1) → s2.2 !! i = Some t →
      ∃ rest, (calls_of t).2 = hist1 ++ rest ∧ Forall (answer_found (eq v)) rest.
Proof.
  intros H0 Hr1 Hr2 Hall.
  assert (Hall1 : sets_v s1).
  { clear H0 Hr1. induction Hr2 as [|s2 s3 Hr IH Hs]; [done|].
    by eapply IH, all_allowed_before. }
  destruct (reachable_once s0 s1 H0 Hr1 Hall1) as [H1 Hd1].
  assert (H2 : config_once s2).
  { eapply (reachable_finds N handle_words exec_words down_words (eq v) absent_or_v);
      [by right|exact H1|done..]. }
  split.
  - intros i t Hi. destruct (thread_found _ _ _ _ i t (proj2 H2 i t Hi) [] eq_refl)
      as (rest & -> & Hrest). done.
  - intros j tj Hj Hst. destruct (Hd1 j tj Hj) as [Hh _]. specialize (Hh Hst).
    split; [done|]. intros i h1 hist1 t Hi1 Hi2.
    assert (H3 : config_finds N handle_words (eq v) (eq v) (idle_history s1) s2).
    { eapply (reachable_finds N handle_words exec_words down_words (eq v) (eq v));
        [done|by apply config_from_here|done..]. }
    apply (thread_found _ _ _ _ i t (proj2 H3 i t Hi2)). unfold idle_history. by rewrite Hi1.
Qed.
End Once.
End Interface.
