(* ===== verification/Clients.v ===== *)
(** * Programs that use a channel

    A client is a program that makes calls, and may do so forever: it polls
    until the other side has done something.  Clients are interaction trees
    whose events are calls of an [interface]; [follows] says which calls and
    answers a client can have behind it, and [keeps] is a logic for what it
    can do: it holds of a client if, whatever answers a channel may give, the
    client never panics and its history satisfies an invariant at any time.
    [keeps] looks at a bounded part of the tree, and the rules hold for every
    bound, so a client that never ends is no different from one that does. *)

From Stdlib Require Import Strings.String.
From S2P Require Import Prelude.
From S2P Require Import Rust.
From S2P Require Import Errors.
From S2P Require Import Channel.
From S2P Require Import Concurrency.
From ITree Require Import Core.ITreeDefinition.

#[export] Instance itree_mret {E} : MRet (itree E) := fun R r => Ret r.
#[export] Instance itree_mbind {E} : MBind (itree E) := fun R S k t => ITree.bind t k.

Lemma observe_bind {E R S} (t : itree E R) (k : R → itree E S) :
  observe (ITree.bind t k) =
  match observe t with
  | RetF r => observe (k r)
  | TauF t => TauF (ITree.bind t k)
  | VisF e h => VisF e (fun x => ITree.bind (h x) k)
  end.
Proof.
  change (observe (ITree.bind t k)) with
    (observe (match observe t with
              | RetF r => k r
              | TauF t => Tau (ITree.bind t k)
              | VisF e h => Vis e (fun x => ITree.bind (h x) k)
              end)).
  by destruct (observe t).
Qed.

(** ** Clients *)

Section Clients.
Context {T : Type} (C : interface T).

(** Besides calls, a client can panic, and ask its environment, which gives
    any answer: the operating system, or a clock. *)
Variant clientE : Type → Type :=
  | Call (c : call C) : clientE (answer C)
  | Ask (X : Type) : clientE X
  | Fail (msg : string) : clientE Empty_set.

Definition client : Type → Type := itree clientE.

(** A call whose answer is of the kind the caller expects.  No answer that a
    crash leaves is: the client is gone. *)
Definition expect {X} (c : call C) (answered : answer C → option X) : client X :=
  a ← ITree.trigger (Call c);
  match answered a with Some x => mret x | None => ITree.spin end.

(** [assert!], and [unwrap]. *)
Definition panic {X} (msg : string) : client X :=
  x ← ITree.trigger (Fail msg); match x : Empty_set with end.

Definition client_assert (b : bool) (msg : string) : client unit :=
  if b then mret tt else panic msg.

(** [while !poll {}]. *)
Definition wait (poll : client bool) : client unit :=
  ITree.iter (fun _ => b ← poll; mret (if b : bool then inr tt else inl tt)) tt.

(** [for x in xs { body }]. *)
Fixpoint for_each {X} (xs : list X) (body : X → client unit) : client unit :=
  match xs with
  | [] => mret tt
  | x :: xs => _ ← body x; for_each xs body
  end.

(** The client has made the calls [hist] and goes on as [t']. *)
Inductive follows {R} : client R → list (call C * answer C) → client R → Prop :=
  | follows_nil t : follows t [] t
  | follows_tau t t1 hist t' :
      observe t = TauF t1 → follows t1 hist t' → follows t hist t'
  | follows_ask t X k x hist t' :
      observe t = VisF (Ask X) k → follows (k x) hist t' → follows t hist t'
  | follows_call t c k a hist t' :
      observe t = VisF (Call c) k → follows (k a) hist t' → follows t ((c, a) :: hist) t'.

(** The thread runs the client [t]: it has made the client's calls and is
    about to go on, or makes its next. *)
Definition runs {R} (t : client R) (th : thread C) : Prop :=
  ∃ t', follows t (calls_of th).2 t' ∧
        ∀ c, (calls_of th).1 = Some c → ∃ k, observe t' = VisF (Call c) k.

Lemma runs_idle {R} (t t' : client R) th :
  (calls_of th).1 = None → follows t (calls_of th).2 t' → runs t th.
Proof. intros E H. exists t'. split; [done|]. intros c. by rewrite E. Qed.

(** Where a client is: it has not panicked, except where that is [tolerated],
    and if it has ended its result is as [Φ] says. *)
Definition ends_well {R} (tolerated : string → Prop) (Φ : R → Prop) (t : client R) : Prop :=
  match observe t with
  | RetF r => Φ r
  | VisF (Fail msg) _ => tolerated msg
  | _ => True
  end.

(** Executable: what is left of a client that has made the calls [hist], if
    it makes them, and asks its environment nothing meanwhile. *)
Fixpoint drive `{EqDecision (call C)} {R} (fuel : nat) (t : client R)
    (hist : list (call C * answer C)) : option (client R) :=
  match fuel with
  | O => match hist with [] => Some t | _ => None end
  | S fuel =>
      match observe t, hist with
      | TauF t, _ => drive fuel t hist
      | _, [] => Some t
      | RetF _, _ => None
      | VisF e k, (c', a) :: hist =>
          match e in clientE X return (X → client R) → option (client R) with
          | Call c => fun k => if decide (c = c') then drive fuel (k a) hist else None
          | _ => fun _ => None
          end k
      end
  end.

Lemma drive_follows `{EqDecision (call C)} {R} fuel (t : client R) hist t' :
  drive fuel t hist = Some t' → follows t hist t'.
Proof.
  revert t hist. induction fuel as [|fuel IH]; intros t hist; cbn.
  - destruct hist; [|done]. intros [= <-]. constructor.
  - destruct (observe t) as [r|t1|X e k] eqn:E.
    + destruct hist as [|[c' a] hist]; [|done]. intros [= <-]. constructor.
    + intros H. eapply follows_tau; eauto.
    + destruct hist as [|[c' a] hist]; [intros [= <-]; constructor|].
      destruct e as [c|X|msg]; try done. case_decide as Ec; [|done]. subst c'. intros H.
      eapply follows_call; eauto.
Qed.

(** What is left of a client that has made the calls of a thread; whether it
    has made them, and no call is in progress. *)
Definition left_of `{EqDecision (call C)} {R} (fuel : nat) (t : client R) (th : thread C) : client R :=
  default t (drive fuel t (calls_of th).2).

Definition made `{EqDecision (call C)} {R} (fuel : nat) (t : client R) (th : thread C) : bool :=
  match drive fuel t (calls_of th).2, (calls_of th).1 with
  | Some _, None => true
  | _, _ => false
  end.

Lemma made_follows `{EqDecision (call C)} {R} fuel (t : client R) th :
  made fuel t th = true → follows t (calls_of th).2 (left_of fuel t th).
Proof.
  unfold made, left_of. destruct (drive _ _ _) as [t'|] eqn:E; [|done].
  intros _. by eapply drive_follows.
Qed.

Lemma made_runs `{EqDecision (call C)} {R} fuel (t : client R) th :
  made fuel t th = true → runs t th.
Proof.
  intros H. eapply runs_idle; [|by apply made_follows].
  unfold made in H. by destruct (drive _ _ _), (calls_of th).1.
Qed.

(** The result of a client that has ended. *)
Definition result_of {R} (t : client R) : option R :=
  match observe t with RetF r => Some r | _ => None end.

Lemma ends_well_result {R} (tolerated : string → Prop) (Φ : R → Prop) t r :
  ends_well tolerated Φ t → result_of t = Some r → Φ r.
Proof. unfold ends_well, result_of. destruct (observe t); [|done..]. by intros H [= <-]. Qed.

Lemma ends_well_mono {R} (tolerated : string → Prop) (Φ Φ' : R → Prop) t :
  ends_well tolerated Φ t → (∀ r, Φ r → Φ' r) → ends_well tolerated Φ' t.
Proof. unfold ends_well. intros H HΦ. destruct (observe t); [by apply HΦ|done..]. Qed.

(** ** A logic of clients *)

Section Keeps.
(** The answers a channel can give after a history, the invariant of the
    history (with the call in progress), and the panics that are tolerated. *)
Context (legal : list (call C * answer C) → Prop).
Context (Ψ : option (call C) → list (call C * answer C) → Prop).
Context (tolerated : string → Prop).
Implicit Types (hist : list (call C * answer C)).

Fixpoint keeps {R} (n : nat) (t : client R) (hist : list (call C * answer C))
    (Φ : R → list (call C * answer C) → Prop) : Prop :=
  match n with
  | O => True
  | S n =>
      Ψ None hist ∧
      match observe t with
      | RetF r => Φ r hist
      | TauF t => keeps n t hist Φ
      | VisF e k =>
          match e in clientE X return (X → client R) → Prop with
          | Call c => fun k => Ψ (Some c) hist ∧ ∀ a,
              legal (hist ++ [(c, a)]) → keeps n (k a) (hist ++ [(c, a)]) Φ
          | Ask X => fun k => ∀ x, keeps n (k x) hist Φ
          | Fail msg => fun _ => tolerated msg
          end k
      end
  end.

Lemma keeps_mono {R} n m (t : client R) hist (Φ Φ' : R → list (call C * answer C) → Prop) :
  keeps n t hist Φ → (m ≤ n)%nat → (∀ r h, Φ r h → Φ' r h) → keeps m t hist Φ'.
Proof.
  intros H Hm HΦ. revert m t hist H Hm.
  induction n as [|n IH]; intros [|m] t hist H Hm; try done; [lia|].
  destruct H as [Hinv H]. split; [done|]. destruct (observe t) as [r|t'|X e k]; [by apply HΦ|..].
  - apply IH; [done|lia].
  - destruct e as [c|X|msg]; [|intros x; apply IH; [done|lia]|done].
    destruct H as [Hc H]. split; [done|]. intros a Ha. apply IH; [by apply H|lia].
Qed.

Lemma keeps_ret {R} n (r : R) hist (Φ : R → list (call C * answer C) → Prop) :
  Ψ None hist → Φ r hist → keeps n (mret r) hist Φ.
Proof. by destruct n. Qed.

Lemma keeps_bind {R U} n (t : client R) (k : R → client U) hist Φ Φ' :
  keeps n t hist Φ →
  (∀ m r h, (m ≤ n)%nat → Ψ None h → Φ r h → keeps m (k r) h Φ') →
  keeps n (t ≫= k) hist Φ'.
Proof.
  unfold mbind, itree_mbind. revert t hist. induction n as [|n IH]; intros t hist H Hk; [done|].
  assert (Hk' : ∀ m r h, (m ≤ n)%nat → Ψ None h → Φ r h → keeps m (k r) h Φ') by eauto.
  destruct H as [Hinv H]. destruct (observe t) as [r|t'|X e h] eqn:E.
  - assert (Eb : observe (ITree.bind t k) = observe (k r)) by (by rewrite observe_bind, E).
    specialize (Hk (S n) r hist (le_n _) Hinv H). cbn [keeps] in *. by rewrite Eb.
  - assert (Eb : observe (ITree.bind t k) = TauF (ITree.bind t' k)) by (by rewrite observe_bind, E).
    cbn [keeps]. rewrite Eb. split; [done|]. by apply IH.
  - assert (Eb : observe (ITree.bind t k) = VisF e (fun x => ITree.bind (h x) k))
      by (by rewrite observe_bind, E).
    cbn [keeps]. rewrite Eb. split; [done|].
    destruct e as [c|X|msg]; [|intros x; by apply IH|done].
    destruct H as [Hc H]. split; [done|]. intros a Ha. by apply IH; [apply H|].
Qed.

(** A loop keeps what its body keeps. *)
Lemma keeps_iter {R I} n (body : I → client (I + R)) (Inv : I → list (call C * answer C) → Prop)
    i hist Φ :
  (∀ m i h, (m ≤ n)%nat → Ψ None h → Inv i h →
     keeps m (body i) h (fun x h' => match x with inl i => Inv i h' | inr r => Φ r h' end)) →
  Ψ None hist → Inv i hist → keeps n (ITree.iter body i) hist Φ.
Proof.
  revert i hist. induction n as [|n IH]; intros i hist Hb HΨ Hi; [done|].
  assert (Hn : ∀ i hist, Ψ None hist → Inv i hist → keeps n (ITree.iter body i) hist Φ) by eauto.
  assert (Hs : ∀ m x h, (m ≤ S n)%nat → Ψ None h →
    match x with inl i => Inv i h | inr r => Φ r h end →
    keeps m (match x with inl i => Tau (ITree.iter body i) | inr r => Ret r end) h Φ).
  { intros [|m] [i'|r] h Hm Hh Hx; try done. split; [done|]. cbn.
    by apply (keeps_mono n m _ _ Φ Φ); [apply Hn|lia|]. }
  pose proof (keeps_bind (S n) (body i) _ hist _ _ (Hb (S n) i hist (le_n _) HΨ Hi) Hs) as H.
  exact H.
Qed.

Lemma keeps_ask {R} n X (k : X → client R) hist Φ :
  Ψ None hist → (∀ m x, (m ≤ n)%nat → keeps m (k x) hist Φ) →
  keeps n (ITree.trigger (Ask X) ≫= k) hist Φ.
Proof.
  intros HΨ Hk. apply (keeps_bind _ _ _ _ (fun _ h => h = hist)).
  - destruct n; [done|]. split; [done|]. cbn. intros x. by apply keeps_ret.
  - intros m r h Hm _ ->. by apply Hk.
Qed.

Lemma keeps_call {R} n c (k : answer C → client R) hist Φ :
  Ψ None hist → Ψ (Some c) hist →
  (∀ m a, (m < n)%nat → legal (hist ++ [(c, a)]) → keeps m (k a) (hist ++ [(c, a)]) Φ) →
  keeps n (ITree.trigger (Call c) ≫= k) hist Φ.
Proof.
  intros HΨ Hc Hk. destruct n as [|n]; [done|]. split; [done|]. cbn. split; [done|].
  intros a Ha. destruct n as [|n]; [done|].
  specialize (Hk (S n) a ltac:(lia) Ha). cbn [keeps] in *.
  assert (E : observe (ITree.bind (Ret a) k) = observe (k a)) by done.
  change (ITree.subst k (Ret a)) with (ITree.bind (Ret a) k). rewrite E. exact Hk.
Qed.

Lemma keeps_spin {R} n hist (Φ : R → list (call C * answer C) → Prop) :
  Ψ None hist → keeps n ITree.spin hist Φ.
Proof. intros H. induction n as [|n IH]; [done|]. by split. Qed.

Lemma keeps_expect {X} n c (f : answer C → option X) hist :
  Ψ None hist → Ψ (Some c) hist →
  (∀ a, legal (hist ++ [(c, a)]) → Ψ None (hist ++ [(c, a)])) →
  keeps n (expect c f) hist
    (fun x h => ∃ a, f a = Some x ∧ h = hist ++ [(c, a)] ∧ legal h).
Proof.
  intros HΨ Hc Ha. apply keeps_call; [done..|]. intros m a _ Hl. specialize (Ha a Hl).
  destruct (f a) as [x|] eqn:E; [apply keeps_ret; eauto|by apply keeps_spin].
Qed.

Lemma keeps_assert n b msg hist :
  Ψ None hist → b = true → keeps n (client_assert b msg) hist (fun _ h => h = hist).
Proof. intros ? ->. by apply keeps_ret. Qed.

Lemma keeps_panic {X} n msg hist (Φ : X → list (call C * answer C) → Prop) :
  Ψ None hist → tolerated msg → keeps n (panic msg) hist Φ.
Proof. intros. by destruct n. Qed.

(** A loop that polls keeps what one poll keeps. *)
Lemma keeps_wait n poll (Inv : list (call C * answer C) → Prop) hist Φ :
  Ψ None hist → Inv hist →
  (∀ m h, Ψ None h → Inv h →
     keeps m poll h (fun (b : bool) h => if b then Φ tt h else Inv h)) →
  keeps n (wait poll) hist Φ.
Proof.
  intros HΨ HI Hp. apply (keeps_iter _ _ (fun _ => Inv)); [|done..]. intros m [] h _ Hh Hi.
  eapply keeps_bind; [by apply Hp|]. intros m' b h' _ Hh' Hb.
  apply keeps_ret; [done|]. by destruct b.
Qed.

Lemma keeps_for_each {X} n (xs : list X) body (Inv : list X → list (call C * answer C) → Prop)
    hist :
  Ψ None hist → Inv xs hist →
  (∀ m x xs h, Ψ None h → Inv (x :: xs) h → keeps m (body x) h (fun _ => Inv xs)) →
  keeps n (for_each xs body) hist (fun _ => Inv []).
Proof.
  intros HΨ HI Hb. revert n hist HΨ HI.
  induction xs as [|x xs IH]; intros n hist HΨ HI; [by apply keeps_ret|].
  eapply keeps_bind; [by apply Hb|]. intros m [] h _ Hh Hi. by apply IH.
Qed.

(** ** Soundness *)

Lemma keeps_follows {R} (t t' : client R) hist0 hist n Φ :
  follows t hist t' → (∀ h, h `prefix_of` hist → legal (hist0 ++ h)) →
  (∀ n, keeps n t hist0 Φ) → keeps n t' (hist0 ++ hist) Φ.
Proof.
  intros Hf. revert hist0 n.
  induction Hf as [t|t t1 hist t' E Hf IH|t X k x hist t' E Hf IH|t c k a hist t' E Hf IH];
    intros hist0 n Hl Hk.
  - by rewrite app_nil_r.
  - apply IH; [done|]. intros m. specialize (Hk (S m)). cbn in Hk. rewrite E in Hk. apply Hk.
  - apply IH; [done|]. intros m. specialize (Hk (S m)). cbn in Hk. rewrite E in Hk. apply Hk.
  - rewrite cons_middle, app_assoc. apply IH.
    + intros h Hh. rewrite <- app_assoc. by apply Hl, prefix_cons.
    + intros m. specialize (Hk (S m)). cbn in Hk. rewrite E in Hk.
      destruct Hk as (_ & _ & Hk). apply Hk, Hl, prefix_cons, prefix_nil.
Qed.

(** What is known of the history of a thread that runs a client. *)
Lemma keeps_runs {R} (t : client R) th Φ :
  (∀ n, keeps n t [] Φ) → runs t th →
  (∀ h, h `prefix_of` (calls_of th).2 → legal h) → Ψ (calls_of th).1 (calls_of th).2.
Proof.
  intros Hk (t' & Hf & Hc) Hl.
  destruct (keeps_follows t t' [] _ 1%nat Φ Hf Hl Hk) as [HΨ H]. cbn in *.
  destruct (calls_of th).1 as [c|]; [|done].
  destruct (Hc c eq_refl) as [k Ek]. rewrite Ek in H. apply H.
Qed.

(** Where a client is that has panicked or returned. *)
Lemma keeps_outcome {R} (t t' : client R) hist Φ :
  (∀ n, keeps n t [] Φ) → follows t hist t' →
  (∀ h, h `prefix_of` hist → legal h) → ends_well tolerated (fun r => Φ r hist) t'.
Proof.
  intros Hk Hf Hl. destruct (keeps_follows t t' [] hist 1%nat Φ Hf Hl Hk) as [_ H].
  unfold ends_well. cbn in *.
  destruct (observe t') as [r|t1|X e k]; [done..|]. by destruct e.
Qed.
End Keeps.

(** ** Threads that run clients *)

(** What a thread has done before its last step. *)
Lemma follows_before {R} (t t' : client R) hist e :
  follows t (hist ++ [e]) t' →
  ∃ t1 k, follows t hist t1 ∧ observe t1 = VisF (Call e.1) k ∧ follows (k e.2) [] t'.
Proof.
  intros Hf. remember (hist ++ [e]) as hist' eqn:Eh. revert hist Eh.
  induction Hf as [t|t t1 hist' t' E Hf IH|t X k x hist' t' E Hf IH|t c k a hist' t' E Hf IH];
    intros hist Eh.
  - by destruct hist.
  - destruct (IH hist Eh) as (t2 & k & H1 & H2 & H3). exists t2, k.
    split; [|done]. by eapply follows_tau.
  - destruct (IH hist Eh) as (t2 & k2 & H1 & H2 & H3). exists t2, k2.
    split; [|done]. by eapply follows_ask.
  - destruct hist as [|e' hist].
    + injection Eh as <- ->. exists t, k. split; [constructor|done].
    + injection Eh as <- ->. destruct (IH hist eq_refl) as (t2 & k2 & H1 & H2 & H3).
      exists t2, k2. split; [|done]. by eapply follows_call.
Qed.

(** What one step does to the calls of a thread: nothing, or it begins a call,
    or it ends one. *)
Inductive calls_step : option (call C) * history C → option (call C) * history C → Prop :=
  | calls_same x : calls_step x x
  | calls_begin c hist : calls_step (None, hist) (Some c, hist)
  | calls_end c a hist : calls_step (Some c, hist) (None, hist ++ [(c, a)]).

Lemma calls_step_begin x x' c :
  calls_step x x' → x.1 = None → x'.1 = Some c → x'.2 = x.2.
Proof. by intros []. Qed.

Lemma step_calls {M : memory T} (s s' : config M C) i th' :
  step M s s' → s'.2 !! i = Some th' →
  ∃ th, s.2 !! i = Some th ∧ calls_step (calls_of th) (calls_of th').
Proof.
  intros Hs Hi.
  assert (H : ∀ ts j t1 t2, s.2 = ts → s'.2 = <[j := t2]> ts → ts !! j = Some t1 →
    calls_step (calls_of t1) (calls_of t2) →
    ∃ th, s.2 !! i = Some th ∧ calls_step (calls_of th) (calls_of th')).
  { intros ts j t1 t2 E E' Hj Hc. rewrite E' in Hi. rewrite E.
    apply list_lookup_insert_Some in Hi as [(-> & -> & _)|[_ Hi]]; [by eauto|].
    exists th'. split; [done|constructor]. }
  destruct Hs as [w ts j h hist c m Hj Hm|w ts j c hist X a k x w' Hj Ha|w ts j c hist h r Hj
    |w ts j h hist d Hj Hd|w ts j c hist X a k d w' Hj Hd Ha];
    (eapply H; [done|done|exact Hj|constructor]).
Qed.

(** A thread that runs a client has run it before. *)
Lemma runs_before {R} (t : client R) th th' :
  calls_step (calls_of th) (calls_of th') → runs t th' → runs t th.
Proof.
  unfold runs. intros Hs. destruct Hs as [x|c hist|c a hist]; [done|..].
  - intros (t' & Hf & _). by exists t'.
  - intros (t' & Hf & _). destruct (follows_before t t' hist (c, a) Hf) as (t1 & k & H1 & H2 & _).
    exists t1. split; [done|]. intros c' [= <-]. by exists k.
Qed.
End Clients.

Arguments Call {T C}. Arguments Ask {T C}. Arguments Fail {T C}.
Arguments expect {T C X}. Arguments panic {T C X}. Arguments client_assert {T C}.
Arguments wait {T C}. Arguments for_each {T C X}. Arguments follows {T C R}. Arguments drive {T C} {_} {R}. Arguments result_of {T C R}.
Arguments left_of {T C} {_} {R}. Arguments made {T C} {_} {R}.
Arguments runs {T C R}. Arguments ends_well {T C R}. Arguments keeps {T C} legal Ψ tolerated {R}.

(** The next event of a concrete client. *)
Ltac observed :=
  lazymatch goal with |- ?l = _ => let o := eval hnf in l in exact (eq_refl o) end.
