(* ===== verification/LosslessProducer.v ===== *)
(** * The lossless producer

    [src/que/src/lossless/producer.rs] (and [burst_amount] of
    [src/que/src/lossless/mod.rs]): joining a channel, [push], [sync], the
    heartbeats, and reservations.  A method that takes [&mut self] returns the
    new value of [self] next to its result; [commit] and [cancel] take the
    reservation by value and give back the producer it borrows. *)

From S2P Require Import Prelude.
From S2P Require Import Rust.
From S2P Require Import Ring.
From S2P Require Import Errors.
From S2P Require Import Channel.
From S2P Require Import Join.

Definition BURST_DENOM : Z := 4.

Definition burst_amount (N : Z) : Z :=
  let x := N / BURST_DENOM in
  if x =? 0 then 1 else x.

(** [spsc] is the address of the channel; [last_consumer_heartbeat] is the
    value [consumer_heartbeat] last saw. *)
Record Producer : Type := mkProducer {
  p_spsc : Z;
  p_tail : Z;
  p_written : Z;
  p_last_consumer_heartbeat : Z
}.

Record Reservation : Type := mkReservation {
  r_producer : Producer;
  r_start_tail : Z;
  r_count : Z;
  r_written : Z;
  r_committed : bool
}.

Section Producer.
Context {T : Type} {prof : Profile} (M : mode) (N : Z).

Definition MODULO_MASK : Z := N - 1.

(** The cell index [x & MODULO_MASK]. *)
Definition mask_index (x : Z) : nat := Z.to_nat (Z.land x MODULO_MASK).

Definition join_or_initialize_in_ (buffer : Z) :
    prog T (result Producer QueError) :=
  _ ← check_join N buffer;
  magic ← load MAGIC_WORD Acquire;
  capacity ← load CAPACITY Acquire;
  if magic =? MAGIC then
    if negb (capacity =? N) then mret (Err (IncorrectCapacity capacity))
    else
      _ ← fetch_add PRODUCER_HEARTBEAT Release 1;
      _ ← (if BACKED_BY_ARCC M then arc_increment else mret tt);
      spsc ← lift (NonNull_new_unwrap buffer);
      tail ← load TAIL Acquire;
      last ← load CONSUMER_HEARTBEAT Acquire;
      mret (Ok (mkProducer spsc tail 0 last))
  else if magic =? 0 then
    _ ← store TAIL Release 0;
    _ ← store CONSUMER_HEARTBEAT Release 0;
    _ ← store PRODUCER_HEARTBEAT Release 0;
    _ ← store CAPACITY Release N;
    _ ← store MAGIC_WORD Release MAGIC;
    _ ← (if BACKED_BY_ARCC M then arc_increment else mret tt);
    spsc ← lift (NonNull_new_unwrap buffer);
    last ← load CONSUMER_HEARTBEAT Acquire;
    mret (Ok (mkProducer spsc 0 0 last))
  else mret (Err CorruptionDetected).

Definition join_ (buffer : Z) : prog T (result Producer QueError) :=
  _ ← check_join N buffer;
  magic ← load MAGIC_WORD Acquire;
  capacity ← load CAPACITY Acquire;
  if magic =? MAGIC then
    if negb (capacity =? N) then mret (Err (IncorrectCapacity capacity))
    else
      _ ← (if BACKED_BY_ARCC M then arc_increment else mret tt);
      spsc ← lift (NonNull_new_unwrap buffer);
      tail ← load TAIL Acquire;
      last ← load CONSUMER_HEARTBEAT Acquire;
      mret (Ok (mkProducer spsc tail 0 last))
  else if magic =? 0 then mret (Err Uninitialized)
  else mret (Err CorruptionDetected).

(** The part of [join_or_create_shmem] that follows the opening of the
    shared memory, mapped at [buffer].  It repeats
    [join_or_initialize_in_] without the two assertions and without the
    increment of the heartbeat. *)
Definition join_or_create_mapped (buffer : Z) :
    prog T (result Producer QueError) :=
  magic ← load MAGIC_WORD Acquire;
  capacity ← load CAPACITY Acquire;
  if magic =? MAGIC then
    if negb (capacity =? N) then mret (Err (IncorrectCapacity capacity))
    else
      spsc ← lift (NonNull_new_unwrap buffer);
      tail ← load TAIL Acquire;
      last ← load CONSUMER_HEARTBEAT Acquire;
      mret (Ok (mkProducer spsc tail 0 last))
  else if magic =? 0 then
    _ ← store TAIL Release 0;
    _ ← store PRODUCER_HEARTBEAT Release 0;
    _ ← store CONSUMER_HEARTBEAT Release 0;
    _ ← store CAPACITY Release N;
    _ ← store MAGIC_WORD Release MAGIC;
    spsc ← lift (NonNull_new_unwrap buffer);
    last ← load CONSUMER_HEARTBEAT Acquire;
    mret (Ok (mkProducer spsc 0 0 last))
  else mret (Err CorruptionDetected).

Definition push (self : Producer) (value : T) :
    prog T (Producer * result unit QueError) :=
  head ← load HEAD Acquire;
  limit ← lift (uadd head N);
  if p_tail self =? limit then
    _ ← drop_value value; mret (self, Err Full)
  else
    _ ← assign_cell (mask_index (p_tail self)) value;
    tail ← lift (uadd (p_tail self) 1);
    written ← lift (uadd (p_written self) 1);
    mret (mkProducer (p_spsc self) tail written
            (p_last_consumer_heartbeat self), Ok tt).

Definition beat (self : Producer) : prog T unit :=
  _ ← fetch_add PRODUCER_HEARTBEAT Release 1; mret tt.

Definition sync (self : Producer) : prog T Producer :=
  let self := mkProducer (p_spsc self) (p_tail self) 0
                (p_last_consumer_heartbeat self) in
  _ ← store TAIL Release (p_tail self);
  mret self.

Definition consumer_heartbeat (self : Producer) : prog T (Producer * bool) :=
  heartbeat ← load CONSUMER_HEARTBEAT Acquire;
  if negb (heartbeat =? p_last_consumer_heartbeat self) then
    mret (mkProducer (p_spsc self) (p_tail self) (p_written self) heartbeat, true)
  else mret (self, false).

Definition get_padding_ptr (self : Producer) : Z := p_spsc self + 512.

(** A failed reservation leaves the borrowed producer as it is. *)
Definition reserve (self : Producer) (count : Z) :
    prog T (result Reservation QueError) :=
  if count =? 0 then mret (Err InvalidSize)
  else if N <? count then mret (Err InvalidSize)
  else
    head ← load HEAD Acquire;
    in_flight ← lift (usub (p_tail self) head);
    available_space ← lift (usub N in_flight);
    if available_space <? count then mret (Err Full)
    else mret (Ok (mkReservation self (p_tail self) count 0 false)).

(** *** [impl Reservation] *)

Definition len (self : Reservation) : Z := r_count self.

Definition written (self : Reservation) : Z := r_written self.

Definition remaining (self : Reservation) : res Z :=
  usub (r_count self) (r_written self).

Definition with_written (self : Reservation) (n : Z) : Reservation :=
  mkReservation (r_producer self) (r_start_tail self) (r_count self) n
    (r_committed self).

Definition write_next (self : Reservation) (value : T) : prog T Reservation :=
  if r_count self <=? r_written self then
    Panic (ExplicitPanic "Attempted to write beyond reservation limit")
  else
    position ← lift (uadd (r_start_tail self) (r_written self));
    _ ← assign_cell (mask_index position) value;
    n ← lift (uadd (r_written self) 1);
    mret (with_written self n).

Definition write_all (self : Reservation) (values : list T) :
    prog T Reservation :=
  let count := Z.of_nat (length values) in
  remaining ← lift (remaining self);
  if remaining <? count then
    Panic (ExplicitPanic "Attempted to write more values than slots remaining")
  else if bool_decide (values = []) then mret self
  else
    position ← lift (uadd (r_start_tail self) (r_written self));
    let start_index := mask_index position in
    end_index ← lift (uadd (Z.of_nat start_index) count);
    _ ← (if end_index <=? N then copy_nonoverlapping start_index values
         else
           first_part_len ← lift (usub N (Z.of_nat start_index));
           _ ← copy_nonoverlapping start_index
                 (take (Z.to_nat first_part_len) values);
           copy_nonoverlapping 0 (drop (Z.to_nat first_part_len) values));
    n ← lift (uadd (r_written self) count);
    mret (with_written self n).

(** [write_iter] over any iterator [I]: [next] yields the next item and the
    advanced iterator.  The [for] loop takes an item before it tests whether
    the reservation is full.  [fuel] bounds the number of items taken. *)
Section WriteIter.
Context {I : Type} (next : I → option (T * I)).

Fixpoint write_iter_loop (fuel : nat) (self : Reservation) (iter : I) :
    prog T (Reservation * I) :=
  match fuel with
  | O => Panic OutOfFuel
  | S fuel =>
      match next iter with
      | None => mret (self, iter)
      | Some (value, iter) =>
          if r_count self <=? r_written self then
            _ ← drop_value value; mret (self, iter)
          else
            self ← write_next self value;
            write_iter_loop fuel self iter
      end
  end.

Definition write_iter (self : Reservation) (iter : I) :
    prog T (Reservation * I * Z) :=
  let start_written := r_written self in
  '(self, iter) ← write_iter_loop
                    (S (Z.to_nat (r_count self - r_written self))) self iter;
  n ← lift (usub (r_written self) start_written);
  mret (self, iter, n).
End WriteIter.

Definition commit (self : Reservation) : prog T Producer :=
  let p := r_producer self in
  tail ← lift (uadd (p_tail p) (r_written self));
  written ← lift (uadd (p_written p) (r_written self));
  let p := mkProducer (p_spsc p) tail written (p_last_consumer_heartbeat p) in
  if burst_amount N <=? p_written p then sync p else mret p.

Definition cancel (self : Reservation) : prog T Producer :=
  mret (r_producer self).

(** [impl Drop for Producer]. *)
Definition drop_producer (self : Producer) : prog T unit :=
  if BACKED_BY_ARCC M then arc_drop else mret tt.
End Producer.

(** *** In shared memory *)

(** Joins, and sets the channel up if it is not. *)
Definition join_or_initialize_in {T} {prof : Profile} (N buffer : Z) :
    prog T (result Producer QueError) := join_or_initialize_in_ ShmemMode N buffer.

(** Joins a channel that exists. *)
Definition join {T} {prof : Profile} (N buffer : Z) : prog T (result Producer QueError) :=
  join_ ShmemMode N buffer.
