(* ===== verification/LosslessConsumer.v ===== *)
(** * The lossless consumer

    [src/que/src/lossless/consumer.rs]: joining, [pop], [pop_zerocopy] with
    the [Element] it returns, and the heartbeats. *)

From S2P Require Import Prelude.
From S2P Require Import Rust.
From S2P Require Import Ring.
From S2P Require Import Errors.
From S2P Require Import Channel.
From S2P Require Import Join.
From S2P Require Import LosslessProducer.

Record Consumer : Type := mkConsumer {
  c_spsc : Z;
  c_head : Z;
  c_items_since_last_sync : Z;
  c_consumer_index : Z;
  c_last_producer_heartbeat : Z
}.

(** [value] borrows the cell with index [e_value]. *)
Record Element : Type := mkElement {
  e_value : nat;
  e_consumer : Consumer
}.

Section Consumer.
Context {T : Type} {prof : Profile} (M : mode) (N : Z).

Definition join (buffer : Z) : prog T (result Consumer QueError) :=
  _ ← check_join N buffer;
  magic ← load MAGIC_WORD Acquire;
  capacity ← load CAPACITY Acquire;
  if magic =? MAGIC then
    if negb (capacity =? N) then mret (Err (IncorrectCapacity capacity))
    else
      new_head ← load TAIL Acquire;
      _ ← store HEAD Release new_head;
      _ ← (if BACKED_BY_ARCC M then arc_increment else mret tt);
      last ← load PRODUCER_HEARTBEAT Acquire;
      mret (Ok (mkConsumer buffer new_head 0 0 last))
  else if magic =? 0 then mret (Err Uninitialized)
  else mret (Err CorruptionDetected).

Definition maybe_sync (self : Consumer) : prog T Consumer :=
  if burst_amount N <=? c_items_since_last_sync self then
    let self := mkConsumer (c_spsc self) (c_head self) 0
                  (c_consumer_index self) (c_last_producer_heartbeat self) in
    _ ← store HEAD Release (c_head self);
    mret self
  else mret self.

(** [self.head += 1; self.items_since_last_sync += 1; self.maybe_sync()]:
    the end of [pop], and [Element]'s [drop]. *)
Definition advance (self : Consumer) : prog T Consumer :=
  head ← lift (uadd (c_head self) 1);
  items ← lift (uadd (c_items_since_last_sync self) 1);
  maybe_sync (mkConsumer (c_spsc self) head items (c_consumer_index self)
                (c_last_producer_heartbeat self)).

Definition pop (self : Consumer) : prog T (Consumer * option T) :=
  let head_index := mask_index N (c_head self) in
  tail ← load TAIL Acquire;
  if tail <=? c_head self then mret (self, None)
  else
    value ← read_cell head_index;
    self ← advance self;
    mret (self, Some value).

Definition pop_zerocopy (self : Consumer) :
    prog T (Consumer + Element) :=
  let head_index := mask_index N (c_head self) in
  tail ← load TAIL Acquire;
  if tail <=? c_head self then mret (inl self)
  else mret (inr (mkElement head_index self)).

(** [impl Deref], [impl DerefMut] (an assignment through it) and
    [impl Drop] for [Element]. *)
Definition deref (self : Element) : prog T T := read_cell (e_value self).

(** [PartialEq] and [PartialOrd] of an element compare its value. *)
Definition element_eq (eqb : T → T → bool) (self : Element) (other : T) : prog T bool :=
  v ← deref self; mret (eqb v other).

Definition element_partial_cmp (cmp : T → T → option comparison) (self : Element)
    (other : T) : prog T (option comparison) :=
  v ← deref self; mret (cmp v other).

Definition deref_mut (self : Element) (v : T) : prog T unit :=
  assign_cell (e_value self) v.

Definition drop_element (self : Element) : prog T Consumer :=
  advance (e_consumer self).

Definition beat (self : Consumer) : prog T unit :=
  _ ← fetch_add CONSUMER_HEARTBEAT Release 1; mret tt.

Definition producer_heartbeat (self : Consumer) : prog T (Consumer * bool) :=
  heartbeat ← load PRODUCER_HEARTBEAT Acquire;
  if negb (heartbeat =? c_last_producer_heartbeat self) then
    mret (mkConsumer (c_spsc self) (c_head self)
            (c_items_since_last_sync self) (c_consumer_index self) heartbeat, true)
  else mret (self, false).

Definition get_padding_ptr (self : Consumer) : Z := c_spsc self + 512.

(** [impl Drop for Consumer]. *)
Definition drop_consumer (self : Consumer) : prog T unit :=
  if BACKED_BY_ARCC M then arc_drop else mret tt.
End Consumer.
