(* ===== verification/LosslessQueue.v ===== *)
(** * The lossless channel as a bounded queue

    The abstract queue the lossless channel promises, the relation between it
    and a producer, a consumer and the shared memory, and the functional
    behaviour of every operation, run alone, as an operation of the queue. *)

From S2P Require Import Prelude.
From S2P Require Import Rust.
From S2P Require Import Ring.
From S2P Require Import Errors.
From S2P Require Import Channel.
From S2P Require Import LosslessProducer.
From S2P Require Import LosslessConsumer.

(** ** The specification *)

(** A bounded queue with delayed effects at both ends: [q_pending] has been
    pushed but not published, [q_items] can be read, and [q_credit] elements
    have been read without their cells being given back. *)
Record Queue (T : Type) : Type := mkQueue {
  q_items : list T;
  q_pending : list T;
  q_credit : Z
}.
Arguments mkQueue {T}. Arguments q_items {T}. Arguments q_pending {T}.
Arguments q_credit {T}.

Section Specification.
Context {T : Type} (N : Z).
Implicit Types q : Queue T.

Definition q_used q : Z :=
  q_credit q + Z.of_nat (length (q_items q)) + Z.of_nat (length (q_pending q)).

Definition q_push (v : T) q : Queue T * result unit QueError :=
  if N <=? q_used q then (q, Err Full)
  else (mkQueue (q_items q) (q_pending q ++ [v]) (q_credit q), Ok tt).

Definition q_sync q : Queue T :=
  mkQueue (q_items q ++ q_pending q) [] (q_credit q).

Definition q_pop q : Queue T * option T :=
  match q_items q with
  | [] => (q, None)
  | v :: vs =>
      let credit := q_credit q + 1 in
      (mkQueue vs (q_pending q)
         (if burst_amount N <=? credit then 0 else credit), Some v)
  end.

(** Can [count] cells be reserved? *)
Definition q_reserve (count : Z) q : result unit QueError :=
  if (count =? 0) || (N <? count) then Err InvalidSize
  else if N <? q_used q + count then Err Full
  else Ok tt.

(** Committing the values [vs] of a reservation. *)
Definition q_commit (vs : list T) q : Queue T :=
  let q := mkQueue (q_items q) (q_pending q ++ vs) (q_credit q) in
  if burst_amount N <=? Z.of_nat (length (q_pending q)) then q_sync q else q.
End Specification.

Lemma burst_amount_bounds N : 0 < N → 1 ≤ burst_amount N ≤ N.
Proof.
  intros. unfold burst_amount, BURST_DENOM.
  pose proof (Z.div_le_upper_bound N 4 N). pose proof (Z.div_pos N 4).
  bool_cases; lia.
Qed.

Lemma mask_index_slot N x : is_power_of_two N = true → mask_index N x = slot N x.
Proof. intros. unfold mask_index, MODULO_MASK, slot. by rewrite land_mask. Qed.

(** Re-establishes the relation after an operation. *)
Ltac rep_solve :=
  split; unfold q_sync, q_used in *; cbn -[Z.add];
  autorewrite with que_run; try done; cbn [q_credit q_items q_pending length] in *;
  rewrite ?length_zapp; cbn [length]; try lia; try done.

(** ** The relation *)

Section Refinement.
Context {T : Type} {prof : Profile} (N : Z).
Context (HN : capacity_ok N).
Implicit Types (w : World T) (q : Queue T) (p : Producer) (c : Consumer).

(** The shared memory and the two handles represent [q]. *)
Record represents q p c w : Prop := {
  rep_alive : freed w = false;
  rep_length : Z.of_nat (length (buffer (chan w))) = N;
  rep_credit : 0 ≤ q_credit q < burst_amount N;
  rep_items : c_items_since_last_sync c = q_credit q;
  rep_head : head (chan w) = c_head c - q_credit q;
  rep_head_pos : 0 ≤ head (chan w);
  rep_tail : tail (chan w) = c_head c + Z.of_nat (length (q_items q));
  rep_local_tail :
    p_tail p = tail (chan w) + Z.of_nat (length (q_pending q));
  rep_written : p_written p = Z.of_nat (length (q_pending q));
  rep_bound : q_used q ≤ N;
  rep_holds : holds N (buffer (chan w)) (c_head c) (q_items q ++ q_pending q)
}.

Let HN0 : 0 < N < usize_lim := capacity_ok_pos N HN.
Let Hpow : is_power_of_two N = true := proj1 HN.

Lemma mask_slot x : mask_index N x = slot N x.
Proof. by apply mask_index_slot. Qed.

Lemma slot_in_buffer w x :
  Z.of_nat (length (buffer (chan w))) = N →
  (slot N x < length (buffer (chan w)))%nat.
Proof. intros E. pose proof (slot_lt N (proj1 HN0) x). lia. Qed.

#[local] Hint Resolve slot_in_buffer : que.

(** The local tail is the next free position: credit, items and pending
    values lie between the shared head and it. *)
Lemma rep_used q p c w :
  represents q p c w → p_tail p - head (chan w) = q_used q.
Proof. intros []. unfold q_used. lia. Qed.

Lemma rep_used_nonneg q p c w : represents q p c w → 0 ≤ q_used q.
Proof. intros []. unfold q_used. lia. Qed.

Lemma rep_tail_nonneg q p c w : represents q p c w → 0 ≤ p_tail p.
Proof. intros []. lia. Qed.

(** *** The producer *)

(** [push] is [q_push], as long as the counters stay below [2 ^ 64]. *)
Lemma push_spec q p c w v :
  represents q p c w → p_tail p + N < usize_lim →
  ∃ p' w', run N (push N p v) w = Done (p', (q_push N v q).2) w' ∧
           represents (q_push N v q).1 p' c w' ∧
           p_tail p' + q_used q = p_tail p + q_used (q_push N v q).1.
Proof.
  intros R Hb. pose proof (rep_used _ _ _ _ R) as Hu. pose proof R as [].
  pose proof (Zle_0_nat (length (q_items q))).
  pose proof (Zle_0_nat (length (q_pending q))).
  unfold push. run_step. change (get_loc HEAD (chan w)) with (head (chan w)).
  run_lift (unfold q_used in *; lia).
  unfold q_push. destruct (Z.eqb_spec (p_tail p) (head (chan w) + N)).
  - rewrite (proj2 (Z.leb_le _ _)) by lia. run_step. rewrite run_ret.
    eexists _, _. split_and!; [done| |done]. by destruct R.
  - rewrite (proj2 (Z.leb_gt _ _)) by lia.
    rewrite mask_slot. run_step.
    run_lift (unfold q_used in *; lia). run_lift (unfold q_used in *; lia).
    eexists _, _. split; [reflexivity|].
    split; [|cbn; unfold q_used; cbn; rewrite length_zapp; cbn; lia].
    rep_solve.
    rewrite app_assoc. replace (p_tail p) with
      (c_head c + Z.of_nat (length (q_items q ++ q_pending q)))
      by (rewrite length_zapp; lia).
    apply holds_snoc; [lia|done| |done]. rewrite length_zapp; lia.
Qed.

(** [sync] publishes everything that is pending. *)
Lemma sync_spec q p c w :
  represents q p c w →
  ∃ p' w', run N (sync p) w = Done p' w' ∧ represents (q_sync q) p' c w' ∧
           p_tail p' = p_tail p ∧ tail (chan w') = p_tail p.
Proof.
  intros R. pose proof (rep_used _ _ _ _ R) as Hu. pose proof R as [].
  unfold sync. run_step. rewrite run_ret.
  eexists _, _. split; [reflexivity|]. split; [|done].
  rep_solve. by rewrite app_nil_r.
Qed.

(** *** The consumer *)

Lemma advance_spec q v vs p c w :
  represents q p c w → q_items q = v :: vs → c_head c + 1 < usize_lim →
  ∃ c' w', run N (advance N c) w = Done c' w' ∧
           represents (q_pop N q).1 p c' w' ∧ c_head c' = c_head c + 1.
Proof.
  intros R E Hb. pose proof (rep_used _ _ _ _ R) as Hu. pose proof R as [].
  unfold q_used in *. rewrite E in *. cbn [length app] in *.
  apply holds_cons in rep_holds0 as [_ Hrest].
  pose proof (burst_amount_bounds N ltac:(lia)).
  unfold advance. run_lift lia. run_lift lia.
  unfold maybe_sync, q_pop. rewrite E. cbn [c_items_since_last_sync c_head].
  rewrite rep_items0. destruct (Z.leb_spec (burst_amount N) (q_credit q + 1)).
  - run_step. rewrite run_ret. eexists _, _. split; [reflexivity|].
    split; [rep_solve|done].
  - rewrite run_ret. eexists _, _. split; [reflexivity|].
    split; [rep_solve|done].
Qed.

(** [pop] is [q_pop]. *)
Lemma pop_spec q p c w :
  represents q p c w → p_tail p < usize_lim →
  ∃ c' w', run N (pop N c) w = Done (c', (q_pop N q).2) w' ∧
           represents (q_pop N q).1 p c' w'.
Proof.
  intros R Hb. pose proof R as [].
  unfold pop. run_step. change (get_loc TAIL (chan w)) with (tail (chan w)).
  unfold q_pop. destruct (q_items q) as [|v vs] eqn:E; cbn [length] in *.
  - rewrite (proj2 (Z.leb_le _ _)) by lia. exists c, w. auto.
  - rewrite (proj2 (Z.leb_gt _ _)) by lia. rewrite mask_slot.
    pose proof rep_holds0 as [Hv _]%holds_cons.
    run_step. rewrite run_bind.
    destruct (advance_spec q v vs p c w R E ltac:(lia)) as (c' & w' & -> & R' & _).
    cbn [obind]. rewrite run_ret. unfold q_pop in R'. rewrite E in R'.
    eauto.
Qed.

(** Reading through [pop_zerocopy] and dropping the element is [pop]. *)
Definition pop_through_element (c : Consumer) : prog T (Consumer * option T) :=
  r ← pop_zerocopy N c;
  match r with
  | inl c => mret (c, None)
  | inr e => v ← deref e; c ← drop_element N e; mret (c, Some v)
  end.

Lemma pop_through_element_spec c w :
  run N (pop_through_element c) w = run N (pop N c) w.
Proof.
  unfold pop_through_element, pop_zerocopy, pop. rewrite !run_bind.
  destruct (run N (load TAIL Acquire) w); cbn [obind]; [|done..].
  by bool_case.
Qed.
End Refinement.
