(* ===== verification/LosslessReservation.v ===== *)
(** * Reservations of the lossless producer

    The functional behaviour of [reserve], [write_next], [write_all],
    [write_iter], [commit] and [cancel] as operations of the abstract queue of
    [LosslessQueue], and the equivalence of the two-copy [write_all] with
    writing one value at a time. *)

From S2P Require Import Prelude.
From S2P Require Import Rust.
From S2P Require Import Ring.
From S2P Require Import Errors.
From S2P Require Import Channel.
From S2P Require Import LosslessProducer.
From S2P Require Import LosslessConsumer.
From S2P Require Import LosslessQueue.

Section Reservation.
Context {T : Type} {prof : Profile} (N : Z).
Context (HN : capacity_ok N).
Implicit Types (w : World T) (q : Queue T) (p : Producer) (c : Consumer)
  (r : Reservation) (vs us : list T).

Let HN0 : 0 < N < usize_lim := capacity_ok_pos N HN.
#[local] Hint Resolve slot_in_buffer : que.

(** ** Writing cells *)

(** Writing [vs] at the positions from [pos] on. *)
Fixpoint ring_writes (drops : bool) (pos : Z) vs w : World T :=
  match vs with
  | [] => w
  | v :: vs => ring_writes drops (pos + 1) vs (do_write (slot N pos) drops v w)
  end.

Lemma ring_writes_chan d pos vs w :
  chan (ring_writes d pos vs w) =
  set_buffer (ring_fill N (buffer (chan w)) pos vs) (chan w).
Proof.
  revert pos w. induction vs as [|v vs IH]; intros pos w; cbn.
  - by destruct (chan w).
  - by rewrite IH.
Qed.

Lemma ring_writes_freed d pos vs w : freed (ring_writes d pos vs w) = freed w.
Proof. revert pos w. induction vs as [|v vs IH]; intros; cbn; [done|by rewrite IH]. Qed.

Lemma ring_writes_app d pos vs us w :
  ring_writes d pos (vs ++ us) w =
  ring_writes d (pos + Z.of_nat (length vs)) us (ring_writes d pos vs w).
Proof.
  revert pos w. induction vs as [|v vs IH]; intros; cbn [app ring_writes].
  - f_equal. cbn. lia.
  - rewrite IH. f_equal. rewrite length_zcons. lia.
Qed.

(** A copy that stays below the end of the buffer. *)
Lemma run_copy pos vs w :
  freed w = false → Z.of_nat (length (buffer (chan w))) = N →
  pos mod N + Z.of_nat (length vs) ≤ N →
  run N (copy_nonoverlapping (slot N pos) vs) w =
  Done tt (ring_writes false pos vs w).
Proof.
  revert pos w. induction vs as [|v vs IH]; intros pos w Hf Hl Hp; [done|].
  rewrite length_zcons in Hp. cbn [copy_nonoverlapping ring_writes].
  run_step. destruct vs as [|v' vs]; [done|].
  rewrite length_zcons in Hp.
  rewrite <- slot_succ by lia. apply IH; [done|by cbn; rewrite length_insert|].
  rewrite <- Z.add_mod_idemp_l by lia.
  pose proof (Z.mod_pos_bound pos N). rewrite length_zcons, Z.mod_small by lia.
  lia.
Qed.

(** The code's case distinction between one copy and two. *)
Lemma run_copies pos vs w :
  freed w = false → Z.of_nat (length (buffer (chan w))) = N →
  Z.of_nat (length vs) ≤ N →
  run N (if Z.of_nat (slot N pos) + Z.of_nat (length vs) <=? N
         then copy_nonoverlapping (slot N pos) vs
         else
           first_part_len ← lift (usub N (Z.of_nat (slot N pos)));
           _ ← copy_nonoverlapping (slot N pos) (take (Z.to_nat first_part_len) vs);
           copy_nonoverlapping 0 (drop (Z.to_nat first_part_len) vs)) w =
  Done tt (ring_writes false pos vs w).
Proof.
  intros Hf Hl Hv. rewrite slot_Z by lia.
  pose proof (Z.mod_pos_bound pos N ltac:(lia)).
  bool_case; [by apply run_copy|]. run_lift lia.
  set (k := Z.to_nat (N - pos mod N)).
  assert (Hk : Z.of_nat (length (take k vs)) = N - pos mod N)
    by (rewrite length_take; lia).
  rewrite run_bind, run_copy by (done || lia). cbn [obind].
  rewrite <- (slot_wrap N) with (pos := pos) by lia.
  rewrite run_copy; [|by rewrite ring_writes_freed| |].
  - rewrite <- Hk, <- ring_writes_app. by rewrite take_drop.
  - rewrite ring_writes_chan. cbn. by rewrite length_ring_fill.
  - rewrite length_drop. pose proof (slot_Z N ltac:(lia) (pos + (N - pos mod N))).
    rewrite slot_wrap in * by lia. lia.
Qed.

(** ** The reservation relation *)

(** [r] reserves [r_count r] cells after the pending ones, of which the
    first hold [vs]. *)
Record reserved q r vs c w : Prop := {
  res_rep : represents N q (r_producer r) c w;
  res_start : r_start_tail r = p_tail (r_producer r);
  res_written : r_written r = Z.of_nat (length vs);
  res_le : Z.of_nat (length vs) ≤ r_count r;
  res_room : q_used q + r_count r ≤ N;
  res_holds : holds N (buffer (chan w)) (p_tail (r_producer r)) vs
}.

Lemma represents_fill q p c w w' pos us :
  represents N q p c w →
  p_tail p ≤ pos → pos + Z.of_nat (length us) ≤ head (chan w) + N →
  freed w' = false →
  chan w' = set_buffer (ring_fill N (buffer (chan w)) pos us) (chan w) →
  represents N q p c w'.
Proof.
  intros [] H1 H2 Hf E. split; rewrite ?E; cbn; try done.
  - by rewrite length_ring_fill.
  - apply holds_fill_out; [lia|rewrite length_zapp; lia|lia|done].
Qed.

(** Writing the next values of a reservation. *)
Lemma reserved_fill q r vs c w w' us :
  reserved q r vs c w →
  Z.of_nat (length vs) + Z.of_nat (length us) ≤ r_count r →
  freed w' = false →
  chan w' = set_buffer
    (ring_fill N (buffer (chan w)) (r_start_tail r + r_written r) us) (chan w) →
  reserved q (with_written r (r_written r + Z.of_nat (length us))) (vs ++ us) c w'.
Proof.
  intros [R Hs Hw Hle Hroom Hh] Hlen Hf E.
  pose proof (rep_used _ _ _ _ _ R) as Hu.
  pose proof (rep_used_nonneg _ _ _ _ _ R).
  rewrite Hs, Hw in E. split; cbn; rewrite ?length_zapp; try lia; try done.
  - eapply represents_fill; [done| | |done|done]; lia.
  - rewrite E. cbn. apply holds_app. split.
    + apply holds_fill_out; [lia..|done].
    + apply holds_fill; [lia| |lia]. apply R.
Qed.

(** ** The operations *)

Lemma reserve_spec q p c w count :
  represents N q p c w → 0 ≤ count < usize_lim → p_tail p < usize_lim →
  ∃ o, run N (reserve N p count) w = Done o w ∧
    match q_reserve N count q with
    | Ok _ => ∃ r, o = Ok r ∧ r_count r = count ∧ r_producer r = p ∧
                   reserved q r [] c w
    | Err e => o = Err e
    end.
Proof.
  intros R Hc Hb. pose proof (rep_used _ _ _ _ _ R) as Hu.
  pose proof R as [].
  unfold reserve, q_reserve. bool_case; cbn [orb]; [by eauto|].
  bool_case; [by eauto|]. run_step.
  change (get_loc HEAD (chan w)) with (head (chan w)).
  run_lift lia. run_lift lia. rewrite Hu.
  destruct (Z.ltb_spec (N - q_used q) count); destruct (Z.ltb_spec N (q_used q + count));
    try lia; rewrite run_ret; eexists; (split; [reflexivity|]); [done|].
  eexists. split_and!; [done..|].
  split; cbn; done || lia.
Qed.

Lemma write_next_run q r vs c w v :
  reserved q r vs c w → Z.of_nat (length vs) < r_count r →
  p_tail (r_producer r) + N < usize_lim →
  run N (write_next N r v) w =
  Done (with_written r (r_written r + 1))
       (ring_writes true (r_start_tail r + r_written r) [v] w).
Proof.
  intros [Rr Hs Hw Hle Hroom Hh] Hlt Hb. pose proof Rr as [].
  pose proof (rep_used _ _ _ _ _ Rr) as Hu.
  pose proof (rep_used_nonneg _ _ _ _ _ Rr).
  unfold write_next. rewrite (proj2 (Z.leb_gt _ _)) by lia.
  run_lift lia. rewrite mask_slot by done. run_step. by run_lift lia.
Qed.

Lemma write_next_spec q r vs c w v :
  reserved q r vs c w → Z.of_nat (length vs) < r_count r →
  p_tail (r_producer r) + N < usize_lim →
  ∃ r' w', run N (write_next N r v) w = Done r' w' ∧
           reserved q r' (vs ++ [v]) c w' ∧ r_producer r' = r_producer r ∧
           r_count r' = r_count r.
Proof.
  intros R Hlt Hb. erewrite write_next_run by done. eexists _, _.
  split; [reflexivity|]. split; [|done].
  apply (reserved_fill q r vs c w _ [v]); [done|cbn; lia| |apply ring_writes_chan].
  rewrite ring_writes_freed. apply R.
Qed.

(** Writing past the end of the reservation panics, before any access. *)
Lemma write_next_full q r vs c w v :
  reserved q r vs c w → Z.of_nat (length vs) = r_count r →
  ∃ msg, run N (write_next N r v) w = Panicked (ExplicitPanic msg) w.
Proof.
  intros [] E. unfold write_next. rewrite (proj2 (Z.leb_le _ _)) by lia. by eexists.
Qed.

Lemma write_all_run q r vs c w us :
  reserved q r vs c w →
  Z.of_nat (length vs) + Z.of_nat (length us) ≤ r_count r →
  p_tail (r_producer r) + N < usize_lim →
  run N (write_all N r us) w =
  Done (with_written r (r_written r + Z.of_nat (length us)))
       (ring_writes false (r_start_tail r + r_written r) us w).
Proof.
  intros [Rr Hs Hw Hle Hroom Hh] Hlen Hb. pose proof Rr as [].
  pose proof (rep_used _ _ _ _ _ Rr) as Hu.
  pose proof (rep_used_nonneg _ _ _ _ _ Rr).
  unfold write_all. unfold remaining. run_lift lia.
  rewrite (proj2 (Z.ltb_ge _ _)) by lia.
  destruct us as [|u us].
  - rewrite bool_decide_true by done. cbn. rewrite Z.add_0_r. by destruct r.
  - rewrite bool_decide_false by done. run_lift lia. rewrite mask_slot by done.
    pose proof (slot_lt N (proj1 HN0) (r_start_tail r + r_written r)).
    pose proof (capacity_ok_double N HN).
    run_lift lia. rewrite run_bind, run_copies by (done || lia). cbn [obind].
    run_lift lia. done.
Qed.

Lemma write_all_spec q r vs c w us :
  reserved q r vs c w →
  Z.of_nat (length vs) + Z.of_nat (length us) ≤ r_count r →
  p_tail (r_producer r) + N < usize_lim →
  ∃ r' w', run N (write_all N r us) w = Done r' w' ∧
           reserved q r' (vs ++ us) c w'.
Proof.
  intros R Hlen Hb. erewrite write_all_run by done. eexists _, _.
  split; [reflexivity|].
  eapply reserved_fill; [done..| |apply ring_writes_chan].
  rewrite ring_writes_freed. apply R.
Qed.

(** Writing one value at a time. *)
Fixpoint write_each r us : prog T Reservation :=
  match us with
  | [] => mret r
  | u :: us => r ← write_next N r u; write_each r us
  end.

Lemma write_each_run q r vs c w us :
  reserved q r vs c w →
  Z.of_nat (length vs) + Z.of_nat (length us) ≤ r_count r →
  p_tail (r_producer r) + N < usize_lim →
  run N (write_each r us) w =
  Done (with_written r (r_written r + Z.of_nat (length us)))
       (ring_writes true (r_start_tail r + r_written r) us w).
Proof.
  revert r vs w. induction us as [|u us IH]; intros r vs w R Hlen Hb.
  - cbn. rewrite Z.add_0_r. by destruct r.
  - rewrite length_zcons in *. cbn [write_each].
    destruct (write_next_spec q r vs c w u R) as (r' & w' & E & R' & Hp & Hc);
      [lia..|].
    pose proof E as E'. erewrite write_next_run in E' by (done || lia).
    injection E' as <- <-. rewrite run_bind, E. cbn [obind].
    rewrite (IH _ _ _ R'); [|rewrite length_zapp; cbn; lia|done].
    cbn. f_equal; [|f_equal; lia]. unfold with_written. cbn. f_equal. lia.
Qed.

(** The reservation is too small for the slice: [write_all] panics before
    it touches the buffer. *)
Lemma write_all_full q r vs c w us :
  reserved q r vs c w → r_count r < usize_lim →
  r_count r < Z.of_nat (length vs) + Z.of_nat (length us) →
  ∃ msg, run N (write_all N r us) w = Panicked (ExplicitPanic msg) w.
Proof.
  intros [] Hc Hlen. unfold write_all, remaining. run_lift lia.
  rewrite (proj2 (Z.ltb_lt _ _)) by lia. by eexists.
Qed.

(** [commit] appends the written values to the pending ones and publishes
    only when a burst has accumulated. *)
Lemma commit_spec q r vs c w :
  reserved q r vs c w → p_tail (r_producer r) + N < usize_lim →
  ∃ p' w', run N (commit N r) w = Done p' w' ∧
           represents N (q_commit N vs q) p' c w' ∧
           p_tail p' = p_tail (r_producer r) + Z.of_nat (length vs).
Proof.
  intros [Rr Hs Hw Hle Hroom Hh] Hb. pose proof Rr as [].
  pose proof (rep_used _ _ _ _ _ Rr) as Hu.
  pose proof (rep_used_nonneg _ _ _ _ _ Rr).
  unfold commit, q_commit. run_lift lia.
  run_lift (unfold q_used in *; lia). cbn [p_written].
  set (q' := mkQueue _ _ _).
  set (p' := mkProducer _ _ _ _).
  assert (R' : represents N q' p' c w).
  { subst q' p'. rep_solve. rewrite app_assoc. apply holds_app. split; [done|].
    rewrite length_zapp.
    replace (c_head c + _) with (p_tail (r_producer r)) by lia. done. }
  replace (p_written (r_producer r) + r_written r)
    with (Z.of_nat (length (q_pending q'))) by (subst q'; cbn; rewrite length_zapp; lia).
  bool_case.
  - destruct (sync_spec N q' p' c w R') as (p'' & w'' & -> & ? & E & _).
    eexists _, _. split_and!; [reflexivity|done|]. rewrite E. cbn. lia.
  - eexists _, _. split_and!; [reflexivity|done|]. cbn. lia.
Qed.

(** *** [write_iter] *)

(** A list as an iterator. *)
Definition list_next us : option (T * list T) :=
  match us with [] => None | u :: us => Some (u, us) end.

Lemma write_iter_loop_spec q r vs c w us fuel :
  reserved q r vs c w → p_tail (r_producer r) + N < usize_lim →
  (Z.to_nat (r_count r - r_written r) < fuel)%nat →
  let k := Z.to_nat (r_count r - r_written r) in
  ∃ r' w', run N (write_iter_loop N list_next fuel r us) w =
           Done (r', drop (S k) us) w' ∧
           reserved q r' (vs ++ take k us) c w' ∧
           (∀ u, us !! k = Some u → last (dropped w') = Some u).
Proof.
  revert r vs w us. induction fuel as [|fuel IH]; intros r vs w us R Hb Hfuel; [lia|].
  cbn zeta. cbn [write_iter_loop]. pose proof R as [Rr Hs Hw Hle Hroom Hh].
  destruct us as [|u us]; cbn [list_next].
  { exists r, w. rewrite take_nil, app_nil_r. by split_and!. }
  bool_case.
  { replace (Z.to_nat _) with 0%nat by lia.
    pose proof (rep_alive _ _ _ _ _ Rr). run_step. rewrite run_ret. eexists _, _. rewrite take_0, app_nil_r.
    split_and!; [done| |intros ? [= <-]; apply last_snoc].
    by destruct Rr; split. }
  destruct (write_next_spec q r vs c w u R) as (r1 & w1 & E1 & R1 & Hp1 & Hc1); [lia..|].
  rewrite run_bind, E1. cbn [obind]. pose proof R1 as [_ _ Hw1 _ _ _].
  rewrite length_zapp in Hw1. cbn in Hw1.
  destruct (IH r1 _ w1 us R1) as (r2 & w2 & E2 & R2 & Hd); [by rewrite Hp1|lia|].
  replace (Z.to_nat (r_count r - r_written r))
    with (S (Z.to_nat (r_count r1 - r_written r1))) by lia.
  exists r2, w2. split_and!; [done| |done]. cbn [take]. by rewrite <- app_assoc in R2.
Qed.

Lemma write_iter_spec q r vs c w us :
  reserved q r vs c w → p_tail (r_producer r) + N < usize_lim →
  let k := Z.to_nat (r_count r - r_written r) in
  ∃ r' w', run N (write_iter N list_next r us) w =
           Done (r', drop (S k) us, Z.of_nat (length (take k us))) w' ∧
           reserved q r' (vs ++ take k us) c w' ∧
           (∀ u, us !! k = Some u → last (dropped w') = Some u).
Proof.
  intros R Hb k. unfold write_iter.
  destruct (write_iter_loop_spec q r vs c w us _ R Hb (Nat.lt_succ_diag_r _))
    as (r' & w' & E & R' & Hd).
  rewrite run_bind, E. cbn [obind]. pose proof R as [Rr ? ? ? ? _].
  pose proof R' as [Rr' ? Hw' Hle' ? _]. pose proof Rr as [].
  pose proof (rep_used _ _ _ _ _ Rr) as Hu.
  pose proof (rep_used_nonneg _ _ _ _ _ Rr).
  rewrite length_zapp in Hw'.
  pose proof (length_take us (Z.to_nat (r_count r - r_written r))).
  run_lift lia.
  eexists _, _. split; [|by split]. rewrite run_ret. do 2 f_equal. fold k in Hw'. lia.
Qed.
End Reservation.
