(* ===== verification/LosslessRefinement.v ===== *)
(** * Runs of the lossless channel refine runs of the queue

    A run is a sequence of calls on the producer and the consumer, each
    executed to its end before the next.  Whatever the sequence, the replies
    of the code are those of the abstract queue, and the queue neither loses,
    duplicates nor reorders values. *)

From S2P Require Import Prelude.
From S2P Require Import Rust.
From S2P Require Import Ring.
From S2P Require Import Errors.
From S2P Require Import Channel.
From S2P Require Import LosslessProducer.
From S2P Require Import LosslessConsumer.
From S2P Require Import LosslessQueue.
From S2P Require Import LosslessReservation.

Inductive command (T : Type) : Type :=
  | CPush (v : T)
  | CSync
  | CPop
  | CBatch (vs : list T).  (* reserve, write_all, commit *)
Arguments CPush {T}. Arguments CSync {T}. Arguments CPop {T}. Arguments CBatch {T}.

Inductive reply (T : Type) : Type :=
  | RPush (r : result unit QueError)
  | RSync
  | RPop (o : option T)
  | RBatch (r : result unit QueError).
Arguments RPush {T}. Arguments RSync {T}. Arguments RPop {T}. Arguments RBatch {T}.

Section Runs.
Context {T : Type} {prof : Profile} (N : Z).
Implicit Types (w : World T) (q : Queue T) (p : Producer) (c : Consumer).

(** ** Runs of the code *)

(** [let r = p.reserve(vs.len())?; r.write_all(vs); r.commit()]. *)
Definition batch p (vs : list T) : prog T (Producer * result unit QueError) :=
  r ← reserve N p (Z.of_nat (length vs));
  match r with
  | Err e => mret (p, Err e)
  | Ok r => r ← write_all N r vs; p ← commit N r; mret (p, Ok tt)
  end.

Definition exec (cmd : command T) (s : Producer * Consumer) :
    prog T (Producer * Consumer * reply T) :=
  let '(p, c) := s in
  match cmd with
  | CPush v => '(p, r) ← push N p v; mret (p, c, RPush r)
  | CSync => p ← sync p; mret (p, c, RSync)
  | CPop => '(c, o) ← pop N c; mret (p, c, RPop o)
  | CBatch vs => '(p, r) ← batch p vs; mret (p, c, RBatch r)
  end.

Fixpoint exec_all (cmds : list (command T)) (s : Producer * Consumer) :
    prog T (Producer * Consumer * list (reply T)) :=
  match cmds with
  | [] => mret (s, [])
  | cmd :: cmds =>
      '(s, r) ← exec cmd s;
      '(s, rs) ← exec_all cmds s;
      mret (s, r :: rs)
  end.

(** ** Runs of the queue *)

Definition q_batch (vs : list T) q : Queue T * result unit QueError :=
  match q_reserve N (Z.of_nat (length vs)) q with
  | Err e => (q, Err e)
  | Ok _ => (q_commit N vs q, Ok tt)
  end.

Definition q_exec (cmd : command T) q : Queue T * reply T :=
  match cmd with
  | CPush v => let '(q, r) := q_push N v q in (q, RPush r)
  | CSync => (q_sync q, RSync)
  | CPop => let '(q, o) := q_pop N q in (q, RPop o)
  | CBatch vs => let '(q, r) := q_batch vs q in (q, RBatch r)
  end.

Fixpoint q_exec_all (cmds : list (command T)) q : Queue T * list (reply T) :=
  match cmds with
  | [] => (q, [])
  | cmd :: cmds =>
      let '(q, r) := q_exec cmd q in
      let '(q, rs) := q_exec_all cmds q in
      (q, r :: rs)
  end.

(** How far a command can advance the local tail. *)
Definition cost (cmd : command T) : Z :=
  match cmd with
  | CPush _ => 1
  | CBatch vs => Z.of_nat (length vs)
  | _ => 0
  end.

Fixpoint costs (cmds : list (command T)) : Z :=
  match cmds with [] => 0 | cmd :: cmds => cost cmd + costs cmds end.

Lemma costs_nonneg cmds : 0 ≤ costs cmds.
Proof.
  induction cmds as [|cmd cmds IH]; [done|].
  destruct cmd; cbn [costs cost]; lia.
Qed.

(** ** The simulation *)

Context (HN : capacity_ok N).
Let HN0 : 0 < N < usize_lim := capacity_ok_pos N HN.

Lemma batch_spec q p c w vs :
  represents N q p c w →
  p_tail p + Z.of_nat (length vs) + N < usize_lim →
  ∃ p' w', run N (batch p vs) w = Done (p', (q_batch vs q).2) w' ∧
           represents N (q_batch vs q).1 p' c w' ∧
           p_tail p' ≤ p_tail p + Z.of_nat (length vs).
Proof.
  intros R Hb. pose proof (rep_tail_nonneg _ _ _ _ _ R).
  unfold batch, q_batch. rewrite run_bind.
  destruct (reserve_spec N HN q p c w (Z.of_nat (length vs)) R)
    as (o & E & Ho); [lia..|].
  rewrite E. cbn [obind].
  destruct (q_reserve N _ q) as [[]|e].
  - destruct Ho as (r & -> & Hc & Hp & Rr).
    destruct (write_all_spec N HN q r [] c w vs Rr) as (r' & w' & E' & Rr');
      [cbn; lia|rewrite Hp; lia|].
    pose proof E' as E2. erewrite write_all_run in E2; [|done..|cbn; lia|rewrite Hp; lia].
    injection E2 as Er _.
    assert (Hp' : r_producer r' = p) by by rewrite <- Er.
    rewrite run_bind, E'. cbn [obind app] in *.
    destruct (commit_spec N HN q r' vs c w' Rr') as (p' & w'' & E3 & R3 & Ht);
      [rewrite Hp'; lia|].
    rewrite run_bind, E3. cbn [obind]. rewrite run_ret.
    eexists _, _. split_and!; [done..|]. rewrite Ht, Hp'. lia.
  - subst o. rewrite run_ret. eexists _, _. split_and!; [done..|lia].
Qed.

Lemma exec_spec q p c w cmd :
  represents N q p c w → p_tail p + cost cmd + N < usize_lim →
  ∃ p' c' w', run N (exec cmd (p, c)) w = Done (p', c', (q_exec cmd q).2) w' ∧
              represents N (q_exec cmd q).1 p' c' w' ∧
              p_tail p' ≤ p_tail p + cost cmd.
Proof.
  intros R Hb. pose proof (rep_tail_nonneg _ _ _ _ _ R).
  destruct cmd as [v| | |vs]; cbn [exec q_exec cost] in *;
    rewrite run_bind.
  - destruct (push_spec N HN q p c w v R) as (p' & w' & -> & R' & Ht); [lia|].
    cbn [obind]. rewrite run_ret. destruct (q_push N v q) as [q' r] eqn:E.
    eexists _, _, _. split_and!; [done..|]. cbn in *.
    unfold q_push in E. revert E. bool_case; intros [= <- <-]; [lia|].
    unfold q_used in Ht. cbn in Ht. rewrite length_zapp in Ht. cbn in Ht. lia.
  - destruct (sync_spec N q p c w R) as (p' & w' & -> & R' & Ht & _).
    cbn [obind]. rewrite run_ret. eexists _, _, _. split_and!; [done..|]. lia.
  - destruct (pop_spec N HN q p c w R) as (c' & w' & -> & R'); [lia|].
    cbn [obind]. rewrite run_ret. destruct (q_pop N q) as [q' o].
    eexists _, _, _. split_and!; [done..|]. lia.
  - destruct (batch_spec q p c w vs R) as (p' & w' & -> & R' & Ht); [lia|].
    cbn [obind]. rewrite run_ret. destruct (q_batch vs q) as [q' r].
    eexists _, _, _. by split_and!.
Qed.

Lemma exec_all_spec cmds q p c w :
  represents N q p c w → p_tail p + costs cmds + N < usize_lim →
  ∃ p' c' w',
    run N (exec_all cmds (p, c)) w = Done (p', c', (q_exec_all cmds q).2) w' ∧
    represents N (q_exec_all cmds q).1 p' c' w'.
Proof.
  revert q p c w. induction cmds as [|cmd cmds IH]; intros q p c w R Hb.
  { eexists _, _, _. by split. }
  cbn [exec_all q_exec_all costs] in *. pose proof (costs_nonneg cmds).
  destruct (exec_spec q p c w cmd R) as (p1 & c1 & w1 & E1 & R1 & Ht1); [lia|].
  destruct (q_exec cmd q) as [q1 r1]; cbn [fst snd] in *.
  destruct (IH q1 p1 c1 w1 R1) as (p2 & c2 & w2 & E2 & R2); [lia|].
  destruct (q_exec_all cmds q1) as [q2 rs]; cbn [fst snd] in *.
  rewrite run_bind, E1. cbn [obind]. rewrite run_bind, E2. cbn [obind].
  rewrite run_ret. eexists _, _, _. by split.
Qed.

(** ** The queue is FIFO *)

Definition contents q : list T := q_items q ++ q_pending q.

(** The values a command and its reply put into or take out of the queue. *)
Definition accepted (cmd : command T) (r : reply T) : list T :=
  match cmd, r with
  | CPush v, RPush (Ok _) => [v]
  | CBatch vs, RBatch (Ok _) => vs
  | _, _ => []
  end.

Definition delivered (r : reply T) : list T :=
  match r with RPop (Some v) => [v] | _ => [] end.

Fixpoint all_accepted (cmds : list (command T)) (rs : list (reply T)) : list T :=
  match cmds, rs with
  | cmd :: cmds, r :: rs => accepted cmd r ++ all_accepted cmds rs
  | _, _ => []
  end.

Definition all_delivered (rs : list (reply T)) : list T := rs ≫= delivered.

Lemma q_exec_fifo cmd q :
  contents q ++ accepted cmd (q_exec cmd q).2 =
  delivered (q_exec cmd q).2 ++ contents (q_exec cmd q).1.
Proof.
  unfold contents. destruct cmd as [v| | |vs]; cbn.
  - unfold q_push. bool_case; cbn; by rewrite ?app_nil_r, <- ?app_assoc.
  - by rewrite !app_nil_r.
  - unfold q_pop. destruct (q_items q) eqn:E; cbn; by rewrite ?E, app_nil_r.
  - unfold q_batch. destruct (q_reserve _ _ _); cbn; [|by rewrite app_nil_r].
    unfold q_commit. bool_case; cbn; by rewrite ?app_nil_r, ?app_assoc.
Qed.

Lemma q_exec_all_fifo cmds q :
  contents q ++ all_accepted cmds (q_exec_all cmds q).2 =
  all_delivered (q_exec_all cmds q).2 ++ contents (q_exec_all cmds q).1.
Proof.
  revert q. induction cmds as [|cmd cmds IH]; intros q; cbn.
  { by rewrite app_nil_r. }
  pose proof (q_exec_fifo cmd q) as H.
  destruct (q_exec cmd q) as [q1 r1]. specialize (IH q1).
  destruct (q_exec_all cmds q1) as [q2 rs]. cbn in *.
  change (all_delivered (r1 :: rs)) with (delivered r1 ++ all_delivered rs).
  rewrite app_assoc, H.
  by rewrite <- app_assoc, IH, app_assoc.
Qed.

(** ** Round trips of the queue *)

Lemma q_exec_all_app cmds cmds' q :
  q_exec_all (cmds ++ cmds') q =
  ((q_exec_all cmds' (q_exec_all cmds q).1).1,
   (q_exec_all cmds q).2 ++ (q_exec_all cmds' (q_exec_all cmds q).1).2).
Proof.
  revert q. induction cmds as [|cmd cmds IH]; intros q; cbn.
  { by destruct (q_exec_all cmds' q). }
  destruct (q_exec cmd q) as [q1 r]. rewrite IH. by destruct (q_exec_all cmds q1).
Qed.

Lemma q_push_all vs q :
  q_used q + Z.of_nat (length vs) ≤ N →
  q_exec_all (CPush <$> vs) q =
  (mkQueue (q_items q) (q_pending q ++ vs) (q_credit q), (fun _ => RPush (Ok tt)) <$> vs).
Proof.
  revert q. induction vs as [|v vs IH]; intros q Hu; cbn.
  { rewrite app_nil_r. by destruct q. }
  unfold q_push. unfold q_used in *. cbn [length] in Hu. bool_case; [lia|].
  rewrite IH; cbn; [by rewrite <- app_assoc|]. rewrite length_app. cbn. lia.
Qed.

(** Popping everything. *)
Lemma q_pop_all vs pending k :
  ∃ k', q_exec_all ((fun _ => CPop) <$> vs) (mkQueue vs pending k) =
        (mkQueue [] pending k', (fun v => RPop (Some v)) <$> vs).
Proof.
  revert k. induction vs as [|v vs IH]; intros k; [by exists k|]. cbn.
  destruct (IH (if burst_amount N <=? k + 1 then 0 else k + 1)) as (k' & ->). by exists k'.
Qed.

(** Sending values and taking them out again. *)
Definition round_trip (vs : list T) : list (command T) :=
  (CPush <$> vs) ++ CSync :: ((fun _ => CPop) <$> vs).

Lemma q_round_trip vs k :
  k + Z.of_nat (length vs) ≤ N →
  ∃ k', q_exec_all (round_trip vs) (mkQueue [] [] k) =
        (mkQueue [] [] k',
         ((fun _ => RPush (Ok tt)) <$> vs) ++ RSync :: ((fun v => RPop (Some v)) <$> vs)).
Proof.
  intros Hk. unfold round_trip. rewrite q_exec_all_app, q_push_all by (unfold q_used; cbn; lia).
  destruct (q_pop_all vs [] k) as (k' & E).
  cbn [fst snd q_exec_all q_exec q_items q_pending q_credit app]. unfold q_sync.
  cbn [q_items q_pending q_credit app]. rewrite E. by exists k'.
Qed.

Lemma costs_app cmds cmds' : costs (cmds ++ cmds') = costs cmds + costs cmds'.
Proof. induction cmds as [|cmd cmds IH]; cbn; lia. Qed.

Lemma costs_round_trip vs : costs (round_trip vs) = Z.of_nat (length vs).
Proof.
  unfold round_trip. rewrite costs_app. cbn.
  assert (Hpops : costs ((fun _ : T => CPop) <$> vs) = 0) by (by induction vs).
  rewrite Hpops. assert (costs (CPush <$> vs) = Z.of_nat (length vs)); [|lia].
  clear. induction vs as [|v vs IH]; cbn [fmap list_fmap costs cost length]; lia.
Qed.
End Runs.
