(* ===== verification/LosslessInterface.v ===== *)
(** * The calls of the lossless channel's two threads

    What a producer thread and a consumer thread can call, for every memory
    the calls may run on, and what their histories say: the values sent, the
    values received. *)

From S2P Require Import Prelude.
From S2P Require Import Rust.
From S2P Require Import Ring.
From S2P Require Import Errors.
From S2P Require Import Channel.
From S2P Require Import Join.
From S2P Require Import Concurrency.
From S2P Require Import LosslessProducer.
From S2P Require Import LosslessConsumer.
From S2P Require Import LosslessQueue.
From S2P Require Import LosslessReservation.

(** ** The interface of the two threads *)

(** The values a thread can own.  A [Reservation] borrows its producer and an
    [Element] its consumer, so at most one of each pair can be used.  A
    process that has crashed, or not joined yet, owns nothing but its role. *)
Inductive lossless_handle : Type :=
  | HProducer (p : Producer)
  | HReservation (r : Reservation)
  | HConsumer (c : Consumer)
  | HElement (e : Element)
  | HNoProducer
  | HNoConsumer.

Inductive lossless_call (T : Type) : Type :=
  | Push (v : T) | Sync | ProducerBeat | ConsumerHeartbeat
  | Reserve (count : Z) | WriteNext (v : T) | WriteAll (vs : list T)
  | WriteIter (vs : list T) | Commit | Cancel
  | Pop | PopZerocopy | Deref | DropElement | ConsumerBeat | ProducerHeartbeat
  | JoinProducer (buffer : Z) | JoinConsumer (buffer : Z).
Arguments Push {T}. Arguments Sync {T}. Arguments ProducerBeat {T}.
Arguments ConsumerHeartbeat {T}. Arguments Reserve {T}. Arguments WriteNext {T}.
Arguments WriteAll {T}. Arguments WriteIter {T}.
Arguments Commit {T}. Arguments Cancel {T}. Arguments Pop {T}.
Arguments PopZerocopy {T}. Arguments Deref {T}. Arguments DropElement {T}.
Arguments ConsumerBeat {T}. Arguments ProducerHeartbeat {T}.
Arguments JoinProducer {T}. Arguments JoinConsumer {T}.

#[export] Instance lossless_call_eq_dec {T} `{EqDecision T} : EqDecision (lossless_call T).
Proof. solve_decision. Defined.

Inductive lossless_answer (T : Type) : Type :=
  | AUnit
  | ABool (b : bool)
  | ACount (n : Z)
  | AResult (r : result unit QueError)
  | AOption (o : option T)
  | AValue (v : T)
  | AJoined (x : Z)   (* the position the new handle is at *)
  | ACut.
Arguments AUnit {T}. Arguments ABool {T}. Arguments ACount {T}. Arguments AResult {T}.
Arguments AOption {T}. Arguments AValue {T}. Arguments AJoined {T}. Arguments ACut {T}.

Section Interface.
Context {T : Type} {prof : Profile} (N : Z).
(** Is the channel in memory that processes share?  Each join maps it at some
    address.  Threads of one process share its fate: they do not crash alone,
    and have joined before they are created. *)
Context (shared : bool).

(** The calls a handle offers.  [WriteNext] and [WriteAll] beyond the
    reservation, where the documentation says that they panic, and calls that
    could move a counter past [2 ^ 64 - N] are not offered; [WriteIter] is
    given an iterator over a list. *)
Definition lossless_exec (h : lossless_handle) (c : lossless_call T) :
    option (prog T (lossless_handle * lossless_answer T)) :=
  match h, c with
  | HProducer p, Push v =>
      if p_tail p + N + 1 <? usize_lim then
        Some ('(p, r) ← push N p v; mret (HProducer p, AResult r))
      else None
  | HProducer p, Sync => Some (p ← sync p; mret (HProducer p, AUnit))
  | HProducer p, ProducerBeat =>
      Some (_ ← LosslessProducer.beat p; mret (HProducer p, AUnit))
  | HProducer p, ConsumerHeartbeat =>
      Some ('(p, b) ← consumer_heartbeat p; mret (HProducer p, ABool b))
  | HProducer p, Reserve count =>
      if (0 <=? count) && (p_tail p + N + 1 <? usize_lim) then
        Some (r ← reserve N p count;
              match r with
              | Ok r => mret (HReservation r, AResult (Ok tt))
              | Err e => mret (HProducer p, AResult (Err e))
              end)
      else None
  | HReservation r, WriteNext v =>
      if r_written r <? r_count r then
        Some (r ← write_next N r v; mret (HReservation r, AUnit))
      else None
  | HReservation r, WriteAll vs =>
      if r_written r + Z.of_nat (length vs) <=? r_count r then
        Some (r ← write_all N r vs; mret (HReservation r, AUnit))
      else None
  | HReservation r, WriteIter vs =>
      Some ('(r, _, n) ← write_iter N list_next r vs; mret (HReservation r, ACount n))
  | HReservation r, Commit =>
      Some (p ← commit N r; mret (HProducer p, AUnit))
  | HReservation r, Cancel =>
      Some (p ← cancel r; mret (HProducer p, AUnit))
  | HConsumer c, Pop =>
      Some ('(c, o) ← pop N c; mret (HConsumer c, AOption o))
  | HConsumer c, PopZerocopy =>
      Some (r ← pop_zerocopy N c;
            match r with
            | inl c => mret (HConsumer c, ABool false)
            | inr e => mret (HElement e, ABool true)
            end)
  | HElement e, Deref => Some (v ← deref e; mret (HElement e, AValue v))
  | HElement e, DropElement =>
      Some (c ← drop_element N e; mret (HConsumer c, AUnit))
  | HConsumer c, ConsumerBeat =>
      Some (_ ← LosslessConsumer.beat c; mret (HConsumer c, AUnit))
  | HConsumer c, ProducerHeartbeat =>
      Some ('(c, b) ← producer_heartbeat c; mret (HConsumer c, ABool b))
  | HNoProducer, JoinProducer buffer =>
      if shared && mapped_at buffer then
      Some (r ← join_or_create_mapped N buffer;
            match r with
            | Ok p => mret (HProducer p, AJoined (p_tail p))
            | Err e => mret (HNoProducer, AResult (Err e))
            end)
      else None
  | HNoConsumer, JoinConsumer buffer =>
      if shared && mapped_at buffer then
      Some (r ← join ShmemMode N buffer;
            match r with
            | Ok c => mret (HConsumer c, AJoined (c_head c))
            | Err e => mret (HNoConsumer, AResult (Err e))
            end)
      else None
  | _, _ => None
  end.

(** What is left of thread [i]: thread 0 is the producer's, thread 1 the
    consumer's. *)
Definition lossless_down (i : nat) : option lossless_handle :=
  if shared then Some (match i with 0%nat => HNoProducer | _ => HNoConsumer end) else None.

Definition lossless : interface T :=
  mkInterface T lossless_handle (lossless_call T) (lossless_answer T) lossless_exec
    lossless_down ACut.

(** ** What the histories say *)

(** The position of the first value sent. *)
Context (t0 : Z).

(** The values sent, and the values written to the open reservation.  A
    producer that joins again goes on after the last value published: what
    its predecessor had not published is lost. *)
Definition sent_step (s : list T * list T)
    (e : lossless_call T * lossless_answer T) : list T * list T :=
  match e with
  | (Push v, AResult (Ok _)) => (s.1 ++ [v], s.2)
  | (Reserve _, AResult (Ok _)) => (s.1, [])
  | (WriteNext v, _) => (s.1, s.2 ++ [v])
  | (WriteAll vs, _) => (s.1, s.2 ++ vs)
  | (WriteIter vs, ACount n) => (s.1, s.2 ++ take (Z.to_nat n) vs)
  | (Commit, _) => (s.1 ++ s.2, [])
  | (Cancel, _) => (s.1, [])
  | (JoinProducer _, AJoined t) => (take (Z.to_nat (t - t0)) s.1, [])
  | _ => s
  end.

Definition sent_state (hist : history lossless) : list T * list T :=
  foldl sent_step ([], []) hist.

(** The values sent, those of a commit in progress included. *)
Definition sent (o : option (lossless_call T)) (hist : history lossless) : list T :=
  let s := sent_state hist in
  match o with Some Commit => s.1 ++ s.2 | _ => s.1 end.

(** How many elements have been consumed, and the values read with the
    number of the element each is the value of.  A consumer that joins again
    starts after what is published then. *)
Definition received_step (s : nat * list (nat * T))
    (e : lossless_call T * lossless_answer T) : nat * list (nat * T) :=
  match e with
  | (Pop, AOption (Some v)) => (S s.1, s.2 ++ [(s.1, v)])
  | (Deref, AValue v) => (s.1, s.2 ++ [(s.1, v)])
  | (DropElement, _) => (S s.1, s.2)
  | (JoinConsumer _, AJoined h) => (Z.to_nat (h - t0), s.2)
  | _ => s
  end.

Definition received_state (hist : history lossless) : nat * list (nat * T) :=
  foldl received_step (0%nat, []) hist.

Definition received (hist : history lossless) : list (nat * T) :=
  (received_state hist).2.

(** Where the consumer joined last, in shared memory. *)
Definition joined_step (x : Z) (e : lossless_call T * lossless_answer T) : Z :=
  match e with (JoinConsumer _, AJoined h) => h | _ => x end.

Definition joined_at (hist : history lossless) : Z := foldl joined_step t0 hist.

(** How many values sent are not published, given how many the open
    reservation holds. *)
Definition unpublished_step (u batch : Z) (e : lossless_call T * lossless_answer T) : Z :=
  match e with
  | (Push _, AResult (Ok _)) => u + 1
  | (Sync, AUnit) | (JoinProducer _, AJoined _) => 0
  | (Commit, AUnit) => if burst_amount N <=? u + batch then 0 else u + batch
  | _ => u
  end.

Definition unpublished (hist : history lossless) : Z :=
  (foldl (fun x e => (unpublished_step x.1 (Z.of_nat (length x.2.2)) e, sent_step x.2 e))
     (0, ([], [])) hist).1.

(** What an answer says to a producer with the history [hist]: a value that
    was accepted had room; one that was refused comes after enough others to
    fill the channel; and a producer always can join. *)
Definition answer_ok (hist : history lossless)
    (e : lossless_call T * lossless_answer T) : Prop :=
  match e with
  | (Push _, AResult (Ok _)) => unpublished hist < N
  | (Push _, AResult (Err e)) =>
      e = Full ∧ N ≤ t0 + Z.of_nat (length (sent_state hist).1)
  | (Reserve count, AResult (Ok _)) => unpublished hist + count ≤ N
  | (Reserve count, AResult (Err e)) =>
      e = InvalidSize ∧ (count = 0 ∨ N < count) ∨
      e = Full ∧ N < t0 + Z.of_nat (length (sent_state hist).1) + count
  | (JoinProducer _, AResult _) => False
  | _ => True
  end.

Inductive answers_ok : history lossless → Prop :=
  | answers_nil : answers_ok []
  | answers_snoc hist e : answers_ok hist → answer_ok hist e → answers_ok (hist ++ [e]).

(** One call more. *)
Implicit Types (hist : list (lossless_call T * lossless_answer T))
  (e : lossless_call T * lossless_answer T).

Lemma sent_state_snoc hist e : sent_state (hist ++ [e]) = sent_step (sent_state hist) e.
Proof. unfold sent_state. by rewrite foldl_app. Qed.

Lemma received_state_snoc hist e :
  received_state (hist ++ [e]) = received_step (received_state hist) e.
Proof. unfold received_state. by rewrite foldl_app. Qed.

Lemma joined_at_snoc hist e : joined_at (hist ++ [e]) = joined_step (joined_at hist) e.
Proof. unfold joined_at. by rewrite foldl_app. Qed.

Lemma unpublished_snoc hist e :
  unpublished (hist ++ [e]) =
  unpublished_step (unpublished hist) (Z.of_nat (length (sent_state hist).2)) e.
Proof.
  unfold unpublished. rewrite foldl_app. cbn. do 2 f_equal.
  unfold sent_state. generalize 0 (@nil T, @nil T).
  induction hist as [|e' hist IH]; intros u x; cbn; [done|]. by rewrite IH.
Qed.

Lemma answers_ok_prefix hist hist' : answers_ok hist' → hist `prefix_of` hist' → answers_ok hist.
Proof.
  intros H [k ->]. induction k as [|e k IH] using rev_ind; [by rewrite app_nil_r in H|].
  rewrite app_assoc in H. inversion H as [E|h e' H' _ E]; [by destruct (hist ++ k)|].
  apply IH. by apply app_inj_tail in E as [<- _].
Qed.
End Interface.

Arguments sent_state {T prof} N shared t0 hist.
Arguments joined_at {T prof} N shared t0 hist.
Arguments received_state {T prof} N shared t0 hist.
