(* ===== verification/LosslessLifetime.v ===== *)
(** * Dropping the handles of the lossless channel

    The producer and the consumer of a channel in the memory of one process,
    which they share through an [Arc], with [impl Drop] of either as a call
    of [Lifetime.droppable]. *)

From S2P Require Import Prelude.
From S2P Require Import Rust.
From S2P Require Import Errors.
From S2P Require Import Channel.
From S2P Require Import Concurrency.
From S2P Require Import Typing.
From S2P Require Import Lifetime.
From S2P Require Import LosslessProducer.
From S2P Require Import LosslessConsumer.
From S2P Require Import LosslessReservation.
From S2P Require Import LosslessInterface.

Section Lossless.
Context {T : Type} {prof : Profile} (N : Z).

(** A producer with a reservation and a consumer with an element are
    borrowed. *)
Definition lossless_drop (h : lossless_handle) : option (prog T unit) :=
  match h with
  | HProducer p => Some (drop_producer LocalMode p)
  | HConsumer c => Some (drop_consumer LocalMode c)
  | _ => None
  end.

Lemma lossless_drops_arc h m : lossless_drop h = Some m → m = arc_drop.
Proof. by destruct h; intros [= <-]. Qed.

Lemma sync_arcless p : arcless (T := T) (sync p).
Proof. done. Qed.

Lemma write_next_arcless r (v : T) : arcless (write_next N r v).
Proof. unfold write_next, assign_cell. follow_arcless. Qed.

Lemma write_all_arcless r (vs : list T) : arcless (write_all N r vs).
Proof.
  unfold write_all. apply arcless_lift; intros rem. do 2 (case_match; [done|]).
  do 2 (apply arcless_lift; intros ?). apply arcless_bind; [|intros _; follow_arcless].
  case_match; [apply arcless_copy|]. apply arcless_lift; intros first.
  apply arcless_bind; [apply arcless_copy|]. intros _. apply arcless_copy.
Qed.

Lemma write_iter_arcless r (us : list T) : arcless (write_iter N list_next r us).
Proof.
  unfold write_iter. apply arcless_bind; [|intros [r' us']; follow_arcless].
  generalize (S (Z.to_nat (r_count r - r_written r))). intros fuel. revert r us.
  induction fuel as [|fuel IH]; intros r us; [done|].
  cbn [write_iter_loop]. destruct us as [|u us]; cbn [list_next]; [done|].
  case_match; [done|]. apply arcless_bind; [apply write_next_arcless|]. intros r'. apply IH.
Qed.

Lemma advance_arcless c : arcless (T := T) (advance N c).
Proof. unfold advance, maybe_sync. follow_arcless. Qed.

(** No call of threads that have joined touches the count. *)
Lemma lossless_exec_arcless h (c : lossless_call T) m :
  lossless_exec N false h c = Some m → arcless m.
Proof.
  destruct h, c; cbn [lossless_exec]; try done; intros Hm; try case_match; try done;
    apply (inj Some) in Hm as <-; (apply arcless_bind; [|intros ?; by repeat case_match]).
  - unfold push, assign_cell. follow_arcless.
  - done.
  - done.
  - unfold consumer_heartbeat. follow_arcless.
  - unfold reserve. follow_arcless.
  - apply write_next_arcless.
  - apply write_all_arcless.
  - apply write_iter_arcless.
  - unfold commit. follow_arcless.
  - unfold cancel. done.
  - unfold pop, advance, maybe_sync. follow_arcless.
  - unfold pop_zerocopy. follow_arcless.
  - done.
  - unfold LosslessConsumer.producer_heartbeat. follow_arcless.
  - done.
  - apply advance_arcless.
Qed.
End Lossless.
