(* ===== verification/LosslessHeartbeats.v ===== *)
(** * The heartbeat a producer waits for

    Only a beat of the consumer, and the set-up of the channel, write the
    consumer's heartbeat: until the consumer beats, [consumer_heartbeat] is
    false. *)

From S2P Require Import Prelude.
From S2P Require Import Rust.
From S2P Require Import Ring.
From S2P Require Import Errors.
From S2P Require Import Channel.
From S2P Require Import Join.
From S2P Require Import Concurrency.
From S2P Require Import Typing.
From S2P Require Import LosslessProducer.
From S2P Require Import LosslessConsumer.
From S2P Require Import LosslessQueue.
From S2P Require Import LosslessReservation.
From S2P Require Import LosslessInterface.
From S2P Require Import Clients.

(** ** Programs *)

Section Programs.
Context {T : Type} {prof : Profile} (N b : Z).
Implicit Types (p : Producer) (r : Reservation) (c : Consumer).

(** As long as the heartbeat is [b], an access reads [b] from it, and leaves
    it there. *)
Definition leaves {X} (a : act T X) : Prop :=
  match a with
  | Store CONSUMER_HEARTBEAT _ v => v = b
  | FetchAdd CONSUMER_HEARTBEAT _ _ => False
  | _ => True
  end.

Definition reads {X} (a : act T X) : X → Prop :=
  match a with Load CONSUMER_HEARTBEAT _ => fun x => x = b | _ => fun _ => True end.

Definition steady {A} : (A → Prop) → prog T A → Prop := typed (T := T) (@leaves) (@reads).

Lemma steady_do {A X} (Q : A → Prop) (a : act T X) (f : X → prog T A) :
  leaves a → (∀ x, reads a x → steady Q (f x)) → steady Q (Do a Ret ≫= f).
Proof. by split. Qed.

Lemma steady_read {A} (Q : A → Prop) i (f : T → prog T A) :
  (∀ v, steady Q (f v)) → steady Q (read_cell i ≫= f).
Proof. cbn. auto. Qed.

Lemma steady_write {A} (Q : A → Prop) i d v (f : unit → prog T A) :
  steady Q (f tt) → steady Q (Do (WriteBegin i d) (fun _ => Do (WriteEnd i v) Ret) ≫= f).
Proof. cbn. intros. do 2 (split; [done|intros [] _]). done. Qed.

Lemma copy_steady i (vs : list T) : steady (fun _ => True) (copy_nonoverlapping i vs).
Proof. revert i. induction vs as [|v vs IH]; intros i; [done|]. apply steady_write, IH. Qed.

Lemma steady_copy {A} (Q : A → Prop) i vs (f : unit → prog T A) :
  steady Q (f tt) → steady Q (copy_nonoverlapping i vs ≫= f).
Proof. intros Hf. apply (typed_bind _ _ _ _ _ _ (copy_steady i vs)). by intros []. Qed.

(** Follows a program, splitting on its tests. *)
#[local] Ltac follow :=
  repeat first
    [ apply typed_lift; intros ? _
    | apply steady_do; [try exact Logic.I; try reflexivity|intros ? ?]
    | apply steady_read; intros ?
    | apply steady_write
    | apply steady_copy
    | match goal with |- typed _ _ _ (if ?b then _ else _) => destruct b eqn:? end
    | match goal with |- steady _ (if ?b then _ else _) => destruct b eqn:? end
    | match goal with |- _ _ (mret _) => cbn [typed steady mret prog_mret] end
    | match goal with |- _ _ (Panic _) => exact Logic.I end ].

(** The producer has seen the heartbeat. *)
Definition seen p : Prop := p_last_consumer_heartbeat p = b.

Lemma sync_steady p : seen p → steady seen (sync p).
Proof. intros Hp. unfold sync. cbn zeta. by follow. Qed.

Lemma push_steady p (v : T) : seen p → steady (fun pr => seen pr.1) (push N p v).
Proof. intros Hp. unfold push, assign_cell. by follow. Qed.

Lemma consumer_heartbeat_steady p :
  seen p → steady (fun pr => seen pr.1 ∧ pr.2 = false) (consumer_heartbeat p).
Proof.
  intros Hp. unfold consumer_heartbeat. apply steady_do; [done|]. intros x Hx. cbn in Hx.
  subst x. by rewrite Hp, Z.eqb_refl.
Qed.

Lemma reserve_steady p count :
  seen p → steady (fun o => match o with Ok r => seen (r_producer r) | Err _ => True end)
             (reserve N p count).
Proof. intros Hp. unfold reserve. by follow. Qed.

Definition seen_by r : Prop := seen (r_producer r).

Lemma write_next_steady r (v : T) : seen_by r → steady seen_by (write_next N r v).
Proof. intros Hr. unfold write_next, assign_cell. by follow. Qed.

Lemma write_all_steady r (vs : list T) : seen_by r → steady seen_by (write_all N r vs).
Proof.
  intros Hr. unfold write_all. apply typed_lift; intros rem _. case_match; [done|].
  case_bool_decide; [done|]. apply typed_lift; intros position _.
  apply typed_lift; intros end_index _. apply (typed_bind _ _ (fun _ => True)).
  - case_match; [apply copy_steady|]. apply typed_lift; intros first _.
    apply steady_copy, copy_steady.
  - intros _ _. by follow.
Qed.

Lemma write_iter_loop_steady fuel r (us : list T) :
  seen_by r → steady (fun ri => seen_by ri.1) (write_iter_loop N list_next fuel r us).
Proof.
  revert r us. induction fuel as [|fuel IH]; intros r us Hr; [done|].
  cbn [write_iter_loop]. destruct us as [|u us]; cbn [list_next]; [done|].
  case_match; [by apply steady_do|].
  eapply typed_bind; [by apply write_next_steady|]. intros r' Hr'. by apply IH.
Qed.

Lemma write_iter_steady r (us : list T) :
  seen_by r → steady (fun rin => seen_by rin.1.1) (write_iter N list_next r us).
Proof.
  intros Hr. unfold write_iter. eapply typed_bind; [by apply write_iter_loop_steady|].
  intros [r' us'] Hr'. by follow.
Qed.

Lemma commit_steady r : seen_by r → steady seen (commit N r).
Proof. intros Hr. unfold commit. by follow. Qed.

Lemma join_or_create_mapped_steady buffer :
  b = 0 → steady (fun o => match o with Ok p => seen p | Err _ => True end)
    (join_or_create_mapped N buffer).
Proof. intros Hb. unfold join_or_create_mapped. by follow. Qed.

(** The consumer's operations, other than its beat, leave the heartbeat. *)
Lemma advance_steady c : steady (fun _ => True) (advance N c).
Proof. unfold advance, maybe_sync. by follow. Qed.

Lemma pop_steady c : steady (fun _ => True) (pop N c).
Proof.
  unfold pop. follow; [done|]. eapply typed_bind; [apply advance_steady|done].
Qed.

Lemma pop_zerocopy_steady c : steady (fun _ => True) (pop_zerocopy N c).
Proof. unfold pop_zerocopy. by follow. Qed.

Lemma producer_heartbeat_steady c : steady (fun _ => True) (producer_heartbeat c).
Proof. unfold producer_heartbeat. by follow. Qed.

Lemma join_steady buffer : steady (fun _ => True) (join ShmemMode N buffer).
Proof.
  unfold join. apply (typed_bind _ _ (fun _ => True)).
  - unfold check_join, assert. by repeat case_match.
  - intros _ _. cbn [BACKED_BY_ARCC]. by follow.
Qed.

(** ** Calls *)

Definition producer_sees (h : lossless_handle) : Prop :=
  match h with
  | HProducer p => seen p
  | HReservation r => seen_by r
  | HNoProducer => True
  | _ => False
  end.

Definition consumer_side (h : lossless_handle) : Prop :=
  match h with HConsumer _ | HElement _ | HNoConsumer => True | _ => False end.

(** The producer has been told of a beat. *)
Definition is_ack (e : lossless_call T * lossless_answer T) : bool :=
  match e with (ConsumerHeartbeat, ABool b) => b | _ => false end.

Definition is_join (c : lossless_call T) : bool :=
  match c with JoinProducer _ => true | _ => false end.

Definition is_beat (c : lossless_call T) : bool :=
  match c with ConsumerBeat => true | _ => false end.

Context (shared : bool).

Lemma producer_exec_steady h (cl : lossless_call T) m :
  producer_sees h → (is_join cl = true → b = 0) → lossless_exec N shared h cl = Some m →
  steady (fun hr => producer_sees hr.1 ∧ is_ack (cl, hr.2) = false) m.
Proof.
  intros Hh Hj Hm.
  destruct h as [p|r|c|e| |], cl; cbn [lossless_exec] in Hm; try done;
    try match type of Hm with (if ?b then _ else _) = _ => destruct b eqn:Hb; [|done] end;
    apply (inj Some) in Hm as <-; cbn [producer_sees] in Hh.
  - eapply typed_bind; [by apply push_steady|]. by intros [p' r].
  - eapply typed_bind; [by apply sync_steady|]. by intros p'.
  - unfold LosslessProducer.beat. by follow.
  - eapply typed_bind; [by apply consumer_heartbeat_steady|]. by intros [p' b'] [].
  - eapply typed_bind; [by apply reserve_steady|]. by intros [r|e].
  - eapply typed_bind; [by apply write_next_steady|]. by intros r'.
  - eapply typed_bind; [by apply write_all_steady|]. by intros r'.
  - eapply typed_bind; [by apply write_iter_steady|]. by intros [[r' us] n].
  - eapply typed_bind; [by apply commit_steady|]. by intros p'.
  - by split.
  - eapply typed_bind; [by apply join_or_create_mapped_steady, Hj|]. by intros [p|e].
Qed.

Lemma consumer_exec_steady h (cl : lossless_call T) m :
  consumer_side h → is_beat cl = false → lossless_exec N shared h cl = Some m →
  steady (fun hr => consumer_side hr.1) m.
Proof.
  intros Hh Hb Hm.
  destruct h as [p|r|c|e| |], cl; cbn [lossless_exec] in Hm; try done;
    try match type of Hm with (if ?b then _ else _) = _ => destruct b eqn:?; [|done] end;
    apply (inj Some) in Hm as <-.
  - eapply typed_bind; [apply pop_steady|]. by intros [c' o] _.
  - eapply typed_bind; [apply pop_zerocopy_steady|]. by intros [c'|e] _.
  - eapply typed_bind; [apply producer_heartbeat_steady|]. by intros [c' b'] _.
  - unfold deref. by follow.
  - eapply typed_bind; [apply advance_steady|]. by intros c' _.
  - eapply typed_bind; [apply join_steady|]. by intros [c|e] _.
Qed.
End Programs.

(** ** Executions *)

Section Steps.
Context {T : Type} (N b : Z).

Lemma act_step_steady {X} (a : act T X) w x w' :
  act_step N a w x w' → Channel.consumer_heartbeat (chan w) = b → leaves b a →
  reads b a x ∧ Channel.consumer_heartbeat (chan w') = b.
Proof.
  intros Hs Hw Hl. destruct a as [l o|l o v|l o d| | | | | | |]; cbn in *.
  - destruct Hs as (_ & -> & ->). by destruct l.
  - destruct Hs as (_ & ->). by destruct l.
  - destruct Hs as (_ & -> & ->). by destruct l.
  - by destruct Hs as (_ & _ & ->).
  - by destruct Hs as (_ & -> & _).
  - by destruct Hs as (_ & _ & ->).
  - by destruct Hs as (_ & _ & ->).
  - by destruct Hs as (_ & ->).
  - by destruct Hs as (_ & ->).
  - destruct Hs as (_ & ->). split; [done|]. unfold do_arc_drop. by case_match.
Qed.

Lemma crash_step_steady {X} (a : act T X) w w' :
  crash_step a w w' → Channel.consumer_heartbeat (chan w) = b →
  Channel.consumer_heartbeat (chan w') = b.
Proof.
  intros Hs Hw. destruct a; cbn in *; try (by subst w'). by destruct Hs as (u & ->).
Qed.
End Steps.

Section Executions.
Context {T : Type} {prof : Profile} (N : Z) (shared : bool).
#[local] Notation C := (lossless (T := T) N shared).
Implicit Types (hist : list (lossless_call T * lossless_answer T)).

Lemma lossless_down_side i d :
  lossless_down shared i = Some d →
  d = match i with 0%nat => HNoProducer | _ => HNoConsumer end.
Proof. unfold lossless_down. destruct shared; congruence. Qed.

(** The calls after the first [n], the one in progress included. *)
Definition calls_since (n : nat) (t : thread C) : list (lossless_call T) :=
  drop n (calls_of t).2.*1 ++ option_list (calls_of t).1.

Lemma calls_step_prefix (x x' : option (lossless_call T) * list (lossless_call T * lossless_answer T)) :
  calls_step C x x' → x.2 `prefix_of` x'.2.
Proof. intros []; cbn; [done..|by eexists]. Qed.

(** One step adds the call it begins, if it begins one. *)
Lemma calls_since_step n (good : lossless_call T → Prop) (t t' : thread C) :
  calls_step C (calls_of t) (calls_of t') → (n ≤ length (calls_of t).2)%nat →
  (∀ c, (calls_of t').1 = Some c → (calls_of t).1 = None → good c) →
  Forall good (calls_since n t) →
  (n ≤ length (calls_of t').2)%nat ∧ Forall good (calls_since n t').
Proof.
  unfold calls_since. generalize (calls_of t) (calls_of t'). intros x x' Hs Hn Hc Hg.
  destruct Hs as [x|c hist|c a hist]; [done|..]; cbn in *.
  - split; [done|]. rewrite app_nil_r in Hg. apply Forall_app. split; [done|].
    apply Forall_singleton. by apply Hc.
  - rewrite length_app, fmap_app, drop_app_le, app_nil_r by (rewrite length_fmap; lia).
    split; [lia|done].
Qed.

(** What is known of those is known of every call, as far as the others are
    allowed. *)
Lemma calls_since_allowed n (allowed : nat → list (lossless_call T * lossless_answer T) →
    lossless_call T → Prop) i (good : lossless_call T → Prop) (t : thread C) :
  (∀ hist c, (length hist < n)%nat ∨ good c → allowed i hist c) →
  Forall good (calls_since n t) → thread_allowed C allowed i t.
Proof.
  intros Hal Hg. unfold calls_since in Hg. apply Forall_app in Hg as [Hg Hc]. split.
  - intros pre c a [post E]. apply Hal. destruct (decide (length pre < n)%nat); [by left|right].
    apply (Forall_lookup_1 _ _ (length pre - n) c Hg). rewrite lookup_drop.
    replace (n + (length pre - n))%nat with (length pre) by lia.
    rewrite list_lookup_fmap, E, <- app_assoc. cbn [app].
    by rewrite (list_lookup_middle pre post (c, a)).
  - intros c E. apply Hal. right. rewrite E in Hc. by inversion Hc.
Qed.

(** Until the consumer beats, the producer is not told of a beat. *)
Lemma no_beat_no_ack b w h0 h1 hist0 hist1 (s : config (sc N) C) tp tc :
  Channel.consumer_heartbeat (chan w) = b → producer_sees b h0 → consumer_side h1 →
  reachable (sc N) (w, [Idle (C := C) h0 hist0; Idle (C := C) h1 hist1]) s →
  s.2 !! 0%nat = Some tp → s.2 !! 1%nat = Some tc →
  Forall (fun c => is_join c = true → b = 0) (calls_since (length hist0) tp) →
  Forall (fun c => is_beat c = false) (calls_since (length hist1) tc) →
  Forall (fun e => is_ack e = false) (drop (length hist0) (calls_of tp).2).
Proof.
  intros Hw Hh0 Hh1 Hr Hp Hc Hj Hb.
  set (allowed (i : nat) hist (c : lossless_call T) := match i with
    | 0%nat => (length hist < length hist0)%nat ∨ (is_join c = true → b = 0)
    | 1%nat => (length hist < length hist1)%nat ∨ is_beat c = false
    | _ => True end).
  set (Idles (i : nat) (h : lossless_handle) hist := match i with
    | 0%nat => (length hist0 ≤ length hist)%nat ∧ producer_sees b h ∧
               Forall (fun e => is_ack e = false) (drop (length hist0) hist)
    | 1%nat => (length hist1 ≤ length hist)%nat ∧ consumer_side h
    | _ => False end).
  set (Busies (i : nat) hist := match i with
    | 0%nat => Forall (fun e => is_ack e = false) (drop (length hist0) hist)
    | _ => True end).
  assert (Hty : config_typed (@leaves T b) (@reads T b) N C
                  (fun c => Channel.consumer_heartbeat c = b) Idles Busies s).
  { eapply (reachable_typed _ _ N C _ Idles Busies allowed); [..|exact Hr|].
    - intros X a w1 x w2 Ha Hb1 Hl. by eapply act_step_steady.
    - intros X a w1 w2. apply crash_step_steady.
    - intros [|[|i]] h hist c m Hi Hal Hm; [| |done].
      + destruct Hi as (Hlen & Hs & Hq). eapply typed_mono;
          [apply (producer_exec_steady N b shared h c m Hs); [|exact Hm]|].
        { destruct Hal; [lia|done]. }
        intros [h' r] [Hs' Ha]. split_and!; [rewrite length_app; cbn; lia|done|].
        rewrite drop_app_le by done. apply Forall_app. split; [done|by apply Forall_singleton].
      + destruct Hi as (Hlen & Hs). eapply typed_mono;
          [apply (consumer_exec_steady N b shared h c m Hs); [|exact Hm]|].
        { destruct Hal; [lia|done]. }
        intros [h' r] Hs'. split; [rewrite length_app; cbn; lia|done].
    - intros [|[|i]] h hist Hi; [by destruct Hi as (_ & _ & ?)|done..].
    - intros [|[|i]] h hist d Hi Hd; [| |done];
        apply lossless_down_side in Hd as ->.
      + destruct Hi as (?&?&?). by split_and!.
      + destruct Hi. by split.
    - intros [|[|i]] h hist c d Hi Hal Hd; [| |done];
        apply lossless_down_side in Hd as ->.
      + destruct Hi as (?&?&?). split_and!; [rewrite length_app; cbn; lia|done|].
        rewrite drop_app_le by done. apply Forall_app. split; [done|].
        apply Forall_singleton. by destruct c.
      + destruct Hi. split; [rewrite length_app; cbn; lia|done].
    - split; [done|]. intros [|[|i]] t Ht; [apply (inj Some) in Ht as <-..|done]; cbn.
      + split_and!; [done|done|]. by rewrite drop_all.
      + by split.
    - intros [|[|i]] t Ht; [| |by split].
      + cbn in Hp, Ht. rewrite Hp in Ht. injection Ht as <-.
        by apply (calls_since_allowed (length hist0) allowed 0 (fun c => is_join c = true → b = 0)).
      + cbn in Hc, Ht. rewrite Hc in Ht. injection Ht as <-.
        by apply (calls_since_allowed (length hist1) allowed 1 (fun c => is_beat c = false)). }
  destruct Hty as [_ Hty]. specialize (Hty 0%nat tp Hp).
  destruct tp as [h hist|c m hist]; cbn in *; [by destruct Hty as (_ & _ & ?)|].
  by destruct Hty as (? & _).
Qed.
End Executions.
