(* ===== verification/LosslessWords.v ===== *)
(** * The lossless channel computes on machine words

    Every operation of the lossless channel keeps the words of its handle
    words, and stores only words. *)

From S2P Require Import Prelude.
From S2P Require Import Rust.
From S2P Require Import Ring.
From S2P Require Import Errors.
From S2P Require Import Channel.
From S2P Require Import Join.
From S2P Require Import Concurrency.
From S2P Require Import Words.
From S2P Require Import LosslessProducer.
From S2P Require Import LosslessConsumer.
From S2P Require Import LosslessQueue.
From S2P Require Import LosslessReservation.
From S2P Require Import LosslessInterface.

Section Lossless.
Context {T : Type} {prof : Profile} (N : Z) (HN : is_usize N).

Definition producer_words (p : Producer) : Prop :=
  is_usize (p_tail p) ∧ is_usize (p_written p) ∧ is_usize (p_last_consumer_heartbeat p).

Definition reservation_words (r : Reservation) : Prop :=
  producer_words (r_producer r) ∧ is_usize (r_start_tail r) ∧ is_usize (r_count r) ∧
  is_usize (r_written r).

Definition consumer_words (c : Consumer) : Prop :=
  is_usize (c_head c) ∧ is_usize (c_items_since_last_sync c) ∧
  is_usize (c_last_producer_heartbeat c).

Definition handle_words (h : lossless_handle) : Prop :=
  match h with
  | HProducer p => producer_words p
  | HReservation r => reservation_words r
  | HConsumer c => consumer_words c
  | HElement e => consumer_words (e_consumer e)
  | HNoProducer | HNoConsumer => True
  end.

Implicit Types (p : Producer) (c : Consumer) (r : Reservation).

#[local] Ltac word_facts :=
  unfold handle_words, reservation_words, producer_words, consumer_words in *;
  cbn in *; destruct_and?; split_and?; eauto with words.

Lemma MAGIC_word : is_usize MAGIC.
Proof. split; vm_compute; [discriminate|reflexivity]. Qed.
#[local] Hint Resolve MAGIC_word : words.

Lemma push_words p (v : T) :
  producer_words p → words (fun pr => producer_words pr.1) (push N p v).
Proof. intros. unfold push, assign_cell. follow_words; word_facts. Qed.

Lemma sync_words p : producer_words p → words (T := T) producer_words (sync p).
Proof. intros. unfold sync. cbn zeta. follow_words; word_facts. Qed.

Lemma consumer_heartbeat_words p :
  producer_words p → words (T := T) (fun pr => producer_words pr.1) (consumer_heartbeat p).
Proof. intros. unfold consumer_heartbeat. follow_words; word_facts. Qed.

Lemma reserve_words p count :
  producer_words p → 0 ≤ count →
  words (T := T) (fun o => match o with Ok r => reservation_words r | Err _ => True end)
    (reserve N p count).
Proof.
  intros Hp Hc. unfold reserve. follow_words; try done. word_facts.
  unfold is_usize in *. rewrite Z.ltb_ge in *. lia.
Qed.

Lemma write_next_words r (v : T) :
  reservation_words r → words reservation_words (write_next N r v).
Proof. intros. unfold write_next, assign_cell. follow_words; word_facts. Qed.

Lemma write_all_words r (vs : list T) :
  reservation_words r → words reservation_words (write_all N r vs).
Proof.
  intros Hr. unfold write_all. apply words_lift; intros rem _. case_match; [done|].
  case_bool_decide; [done|]. apply words_lift; intros position _.
  apply words_lift; intros end_index _.
  apply (words_bind (fun _ => True)).
  - case_match; [apply copy_words|]. apply words_lift; intros first _.
    apply words_copy, copy_words.
  - intros _ _. follow_words. word_facts.
Qed.

Lemma write_iter_loop_words fuel r (us : list T) :
  reservation_words r →
  words (fun ri => reservation_words ri.1) (write_iter_loop N list_next fuel r us).
Proof.
  revert r us. induction fuel as [|fuel IH]; intros r us Hr; [done|].
  cbn [write_iter_loop]. destruct us as [|u us]; cbn [list_next]; [done|].
  case_match; [by apply words_drop_value|].
  eapply words_bind; [by apply write_next_words|]. intros r' Hr'. by apply IH.
Qed.

Lemma write_iter_words r (us : list T) :
  reservation_words r →
  words (fun rin => reservation_words rin.1.1) (write_iter N list_next r us).
Proof.
  intros Hr. unfold write_iter. eapply words_bind; [by apply write_iter_loop_words|].
  intros [r' us'] Hr'. by follow_words.
Qed.

Lemma commit_words r : reservation_words r → words (T := T) producer_words (commit N r).
Proof.
  intros Hr. unfold commit. follow_words; try apply sync_words; word_facts.
Qed.

Lemma advance_words c : consumer_words c → words (T := T) consumer_words (advance N c).
Proof. intros. unfold advance, maybe_sync. follow_words; word_facts. Qed.

Lemma pop_words c :
  consumer_words c → words (T := T) (fun co => consumer_words co.1) (pop N c).
Proof.
  intros Hc. unfold pop. follow_words; [done|].
  eapply words_bind; [by apply advance_words|]. by intros c' Hc'.
Qed.

Lemma pop_zerocopy_words c :
  consumer_words c →
  words (T := T) (fun o => match o with inl c => consumer_words c
                                      | inr e => consumer_words (e_consumer e) end)
    (pop_zerocopy N c).
Proof. intros Hc. unfold pop_zerocopy. by follow_words. Qed.

Lemma producer_heartbeat_words c :
  consumer_words c → words (T := T) (fun cb => consumer_words cb.1) (producer_heartbeat c).
Proof. intros. unfold producer_heartbeat. follow_words; word_facts. Qed.

Lemma join_or_create_mapped_words buffer :
  words (T := T) (fun o => match o with Ok p => producer_words p | Err _ => True end)
    (join_or_create_mapped N buffer).
Proof. unfold join_or_create_mapped. follow_words; word_facts. Qed.

Lemma consumer_join_words buffer :
  words (T := T) (fun o => match o with Ok c => consumer_words c | Err _ => True end)
    (join ShmemMode N buffer).
Proof.
  unfold join. apply (words_bind (fun _ => True)).
  - unfold check_join, assert. by repeat case_match.
  - intros _ _. cbn [BACKED_BY_ARCC]. follow_words; word_facts.
Qed.
(** Every call the threads can make. *)
Lemma lossless_exec_words shared h (cl : lossless_call T) m :
  handle_words h → lossless_exec N shared h cl = Some m →
  words (fun hr => handle_words hr.1) m.
Proof.
  intros Hh Hm.
  destruct h as [p|r|c|e| |], cl; cbn [lossless_exec] in Hm; try done;
    try match type of Hm with (if ?b then _ else _) = _ => destruct b eqn:Hb; [|done] end;
    apply (inj Some) in Hm as <-; cbn [handle_words] in Hh.
  - eapply words_bind; [by apply push_words|]. by intros [p' r].
  - eapply words_bind; [by apply sync_words|]. by intros p'.
  - unfold LosslessProducer.beat. follow_words; word_facts.
  - eapply words_bind; [by apply consumer_heartbeat_words|]. by intros [p' b].
  - apply andb_true_iff in Hb as [Hc%Z.leb_le _].
    eapply words_bind; [by apply reserve_words|]. by intros [r|e].
  - eapply words_bind; [by apply write_next_words|]. by intros r'.
  - eapply words_bind; [by apply write_all_words|]. by intros r'.
  - eapply words_bind; [by apply write_iter_words|]. by intros [[r' us] n].
  - eapply words_bind; [by apply commit_words|]. by intros p'.
  - apply Hh.
  - eapply words_bind; [by apply pop_words|]. by intros [c' o].
  - eapply words_bind; [by apply pop_zerocopy_words|]. by intros [c'|e].
  - unfold LosslessConsumer.beat. follow_words; word_facts.
  - eapply words_bind; [by apply producer_heartbeat_words|]. by intros [c' b].
  - unfold deref. follow_words. exact Hh.
  - eapply words_bind; [by apply advance_words|]. by intros c'.
  - eapply words_bind; [apply join_or_create_mapped_words|]. by intros [p|e].
  - eapply words_bind; [apply consumer_join_words|]. by intros [c|e].
Qed.

Lemma lossless_down_words shared i d :
  lossless_down shared i = Some d → handle_words d.
Proof.
  unfold lossless_down. destruct shared; [|done]. by destruct i; intros [= <-].
Qed.
End Lossless.
