(* ===== verification/LosslessProtocol.v ===== *)
(** * The protocol of the lossless channel

    What the two sides of the lossless channel rely on is not the memory
    itself but a protocol: the producer owns the free cells and the consumer
    the published ones, and loads and stores of [head] and [tail] pass cells
    from one to the other.  [spsc] is that protocol as an interface of the
    memory the threads run on: what each side owns, and what each access does
    to it.  Every operation is verified once, against the interface;
    [LosslessConcurrent] implements it for interleaved accesses to one world
    and [LosslessWeak] for a release/acquire memory. *)

From S2P Require Import Prelude.
From S2P Require Import Rust.
From S2P Require Import Ring.
From S2P Require Import Errors.
From S2P Require Import Channel.
From S2P Require Import Join.
From S2P Require Import Concurrency.
From S2P Require Import LosslessProducer.
From S2P Require Import LosslessConsumer.
From S2P Require Import LosslessQueue.
From S2P Require Import LosslessReservation.
From S2P Require Import LosslessInterface.

(** ** The interface *)

(** The handle after a heartbeat has been looked at. *)
Definition producer_saw (p : Producer) (heartbeat : Z) : Producer :=
  mkProducer (p_spsc p) (p_tail p) (p_written p) heartbeat.

Definition consumer_saw (c : Consumer) (heartbeat : Z) : Consumer :=
  mkConsumer (c_spsc c) (c_head c) (c_items_since_last_sync c) (c_consumer_index c) heartbeat.

(** The producer's handle after [n] more cells have been written, and with
    everything published. *)
Definition producer_wrote (p : Producer) (n : Z) : Producer :=
  mkProducer (p_spsc p) (p_tail p + n) (p_written p + n) (p_last_consumer_heartbeat p).

Definition producer_synced (p : Producer) : Producer :=
  mkProducer (p_spsc p) (p_tail p) 0 (p_last_consumer_heartbeat p).

(** The consumer's handle one element further, with [items] to give back. *)
Definition consumer_next (c : Consumer) (items : Z) : Consumer :=
  mkConsumer (c_spsc c) (c_head c + 1) items (c_consumer_index c) (c_last_producer_heartbeat c).

Section Interface.
Context {T : Type} {prof : Profile} (N t0 : Z) (shared : bool) (M : memory T).
Implicit Types (w : mstate M) (p : Producer) (c : Consumer) (s vs : list T).

(** The state of the protocol: the published tail, the values published so
    far, and what each side owns.  The producer that owns [p] has sent [s],
    and has written [vs] after them to a reservation of [room] cells; the
    consumer that owns [c] has consumed [n] elements, and is [ready] if it
    knows that the next one is there. *)
Class spsc : Type := {
  sp_safe : nat → ∀ X, act T X → mstate M → Prop;
  sp_inv : mstate M → Prop;
  sp_tail : mstate M → Z;
  sp_published : mstate M → Z → option T;
  sp_resting : mstate M → Prop;
  producer_move : mstate M → mstate M → Prop;
  consumer_move : mstate M → mstate M → Prop;
  producer_owns : Producer → list T → list T → Z → mstate M → Prop;
  consumer_owns : Consumer → nat → mstate M → Prop;
  consumer_ready : Consumer → mstate M → Prop
}.

Context `{P : spsc}.

(** Published values stay published. *)
Definition later w w' : Prop :=
  sp_tail w ≤ sp_tail w' ∧ ∀ x, x < sp_tail w → sp_published w' x = sp_published w x.

#[export] Instance later_trans : Transitive later.
Proof.
  intros w1 w2 w3 [H1 H2] [K1 K2]. split; [lia|]. intros x Hx.
  rewrite K2 by lia. by apply H2.
Qed.

(** At any time, the published values are those sent. *)
Definition sent_published s w : Prop :=
  t0 ≤ sp_tail w ≤ t0 + Z.of_nat (length s) ∧
  ∀ k, t0 + Z.of_nat k < sp_tail w → sp_published w (t0 + Z.of_nat k) = s !! k.

(** What a producer that is gone leaves behind. *)
Definition producer_down s w : Prop := sent_published s w ∧ sp_resting w.

Definition got_published (got : list (nat * T)) w : Prop :=
  Forall (fun e => t0 + Z.of_nat e.1 < sp_tail w ∧
                   sp_published w (t0 + Z.of_nat e.1) = Some e.2) got.

(** Thread 0 is the producer, thread 1 the consumer; there is no other. *)
Definition guar (i : nat) : mstate M → mstate M → Prop :=
  match i with 0%nat => producer_move | 1%nat => consumer_move | _ => fun _ _ => False end.
Definition rely (i : nat) : mstate M → mstate M → Prop :=
  match i with 0%nat => consumer_move | 1%nat => producer_move | _ => fun _ _ => True end.

#[local] Notation WPP s := (wp M 0 (sp_safe 0) sp_inv (sent_published s) (producer_down s)
  consumer_move producer_move).
#[local] Notation WPC got := (wp M 1 (sp_safe 1) sp_inv (got_published got) (got_published got)
  producer_move consumer_move).

(** The laws.  Each access hands its caller what it then owns. *)
Class spsc_laws : Prop := {
  producer_move_trans : Transitive producer_move;
  consumer_move_trans : Transitive consumer_move;
  producer_move_refl w : producer_move w w;
  consumer_move_refl w : consumer_move w w;
  producer_move_later w w' : producer_move w w' → later w w';
  consumer_move_same w w' : consumer_move w w' →
    sp_tail w' = sp_tail w ∧ (∀ x, sp_published w' x = sp_published w x) ∧
    (sp_resting w → sp_resting w');
  producer_owns_stable p s vs room w w' :
    producer_owns p s vs room w → consumer_move w w' → producer_owns p s vs room w';
  consumer_owns_stable c n w w' :
    consumer_owns c n w → producer_move w w' → consumer_owns c n w';
  consumer_ready_stable c w w' :
    consumer_ready c w → producer_move w w' → consumer_ready c w';

  (** What owning means. *)
  producer_owns_down p s vs room w : producer_owns p s vs room w → producer_down s w;
  producer_owns_bounds p s vs room w : producer_owns p s vs room w →
    p_tail p = t0 + Z.of_nat (length s) ∧ Z.of_nat (length vs) ≤ room ≤ N ∧
    p_tail p + room < usize_lim ∧ 0 ≤ p_written p ≤ p_tail p;
  consumer_owns_bounds c n w : consumer_owns c n w →
    c_head c = t0 + Z.of_nat n ∧ 0 ≤ c_items_since_last_sync c < burst_amount N;
  consumer_ready_bounds c w : sp_inv w → consumer_ready c w → c_head c + 1 < usize_lim;

  (** Changes of the handle alone. *)
  producer_owns_saw p s vs room b w :
    producer_owns p s vs room w → producer_owns (producer_saw p b) s vs room w;
  producer_owns_commit p s vs room w : producer_owns p s vs room w →
    producer_owns (producer_wrote p (Z.of_nat (length vs))) (s ++ vs) [] 0 w;
  producer_owns_cancel p s vs room w : producer_owns p s vs room w → producer_owns p s [] 0 w;
  consumer_owns_saw c n b w : consumer_owns c n w → consumer_owns (consumer_saw c b) n w;
  consumer_owns_next c n w : consumer_owns c n w → consumer_ready c w →
    c_items_since_last_sync c + 1 < burst_amount N →
    consumer_owns (consumer_next c (c_items_since_last_sync c + 1)) (S n) w;

  (** The producer's accesses. *)
  wp_load_head A sj p s (k : Z → prog T A) Φ w :
    producer_owns p s [] 0 w →
    (∀ head w', 0 ≤ head → head + p_written p ≤ p_tail p → p_tail p ≤ head + N →
       (∀ room, 0 ≤ room → p_tail p + room ≤ head + N → p_tail p + room < usize_lim →
                producer_owns p s [] room w') → WPP sj (k head) Φ w') →
    WPP sj (load HEAD Acquire ≫= k) Φ w;
  wp_write_cell A sj p s vs room d v (k : unit → prog T A) Φ w :
    producer_owns p s vs room w → Z.of_nat (length vs) < room →
    (∀ w', producer_owns p s (vs ++ [v]) room w' → WPP sj (k tt) Φ w') →
    let i := slot N (p_tail p + Z.of_nat (length vs)) in
    WPP sj (Do (WriteBegin i d) (fun _ => Do (WriteEnd i v) Ret) ≫= k) Φ w;
  wp_producer_drop A sj p s vs room v (k : unit → prog T A) Φ w :
    producer_owns p s vs room w →
    (∀ w', producer_owns p s vs room w' → WPP sj (k tt) Φ w') →
    WPP sj (drop_value v ≫= k) Φ w;
  wp_publish A sj p s (k : unit → prog T A) Φ w :
    producer_owns p s [] 0 w → (∀ w', sent_published s w' → sent_published sj w') →
    (∀ w', producer_owns (producer_synced p) s [] 0 w' → WPP sj (k tt) Φ w') →
    WPP sj (store TAIL Release (p_tail p) ≫= k) Φ w;
  wp_producer_look A sj p s (k : Z → prog T A) Φ w :
    producer_owns p s [] 0 w →
    (∀ b w', producer_owns p s [] 0 w' → WPP sj (k b) Φ w') →
    WPP sj (load CONSUMER_HEARTBEAT Acquire ≫= k) Φ w;
  wp_producer_bump A sj p s (k : Z → prog T A) Φ w :
    producer_owns p s [] 0 w →
    (∀ b w', producer_owns p s [] 0 w' → WPP sj (k b) Φ w') →
    WPP sj (fetch_add PRODUCER_HEARTBEAT Release 1 ≫= k) Φ w;

  (** The consumer's accesses. *)
  wp_load_tail A got c n (k : Z → prog T A) Φ w :
    consumer_owns c n w →
    (∀ tail w', sp_inv w' → later w w' → consumer_owns c n w' →
       (c_head c < tail → consumer_ready c w') → WPC got (k tail) Φ w') →
    WPC got (load TAIL Acquire ≫= k) Φ w;
  wp_read_cell A got c n (k : T → prog T A) Φ w :
    consumer_owns c n w → consumer_ready c w →
    (∀ v w', sp_inv w' → later w w' → consumer_owns c n w' → consumer_ready c w' →
       got_published [(n, v)] w' → WPC got (k v) Φ w') →
    WPC got (read_cell (slot N (c_head c)) ≫= k) Φ w;
  wp_release A got c n (k : unit → prog T A) Φ w :
    consumer_owns c n w → consumer_ready c w →
    (∀ w', later w w' → consumer_owns (consumer_next c 0) (S n) w' → WPC got (k tt) Φ w') →
    WPC got (store HEAD Release (c_head c + 1) ≫= k) Φ w;
  wp_consumer_look A got c n (k : Z → prog T A) Φ w :
    consumer_owns c n w →
    (∀ b w', later w w' → consumer_owns c n w' → WPC got (k b) Φ w') →
    WPC got (load PRODUCER_HEARTBEAT Acquire ≫= k) Φ w;
  wp_consumer_bump A got c n (k : Z → prog T A) Φ w :
    consumer_owns c n w →
    (∀ b w', later w w' → consumer_owns c n w' → WPC got (k b) Φ w') →
    WPC got (fetch_add CONSUMER_HEARTBEAT Release 1 ≫= k) Φ w;

  (** Joining, where the memory is shared: a producer goes on after the last
      value published, a consumer starts after it. *)
  wp_join_producer b s Φ w :
    shared = true → mapped_at b = true → producer_down s w →
    (∀ p w', p_written p = 0 → producer_owns p (take (Z.to_nat (p_tail p - t0)) s) [] 0 w' →
             Φ (Ok p) w') →
    WPP s (join_or_create_mapped N b) Φ w;
  wp_join_consumer b got Φ w :
    shared = true → mapped_at b = true →
    (∀ c w', later w w' → c_head c ≤ sp_tail w' →
             consumer_owns c (Z.to_nat (c_head c - t0)) w' → Φ (Ok c) w') →
    (∀ e w', later w w' → Φ (Err e) w') →
    WPC got (join ShmemMode N b) Φ w
}.
End Interface.

Arguments sp_safe {T M spsc}.
Arguments sp_inv {T M spsc}.
Arguments sp_tail {T M spsc}.
Arguments sp_published {T M spsc}.
Arguments sp_resting {T M spsc}.
Arguments producer_move {T M spsc}.
Arguments consumer_move {T M spsc}.
Arguments producer_owns {T M spsc}.
Arguments consumer_owns {T M spsc}.
Arguments consumer_ready {T M spsc}.
Arguments later {T M P}.
Arguments sent_published {T} t0 {M P}.
Arguments producer_down {T} t0 {M P}.
Arguments got_published {T} t0 {M P}.
Arguments guar {T M P}.
Arguments rely {T M P}.
Arguments producer_move_trans {T N t0 shared M P spsc_laws}.
Arguments consumer_move_trans {T N t0 shared M P spsc_laws}.
Arguments producer_move_refl {T N t0 shared M P spsc_laws}.
Arguments consumer_move_refl {T N t0 shared M P spsc_laws}.
Arguments producer_move_later {T N t0 shared M P spsc_laws}.
Arguments consumer_move_same {T N t0 shared M P spsc_laws}.
Arguments producer_owns_stable {T N t0 shared M P spsc_laws}.
Arguments consumer_owns_stable {T N t0 shared M P spsc_laws}.
Arguments consumer_ready_stable {T N t0 shared M P spsc_laws}.
Arguments producer_owns_down {T N t0 shared M P spsc_laws}.
Arguments producer_owns_bounds {T N t0 shared M P spsc_laws}.
Arguments consumer_owns_bounds {T N t0 shared M P spsc_laws}.
Arguments consumer_ready_bounds {T N t0 shared M P spsc_laws}.
Arguments producer_owns_saw {T N t0 shared M P spsc_laws}.
Arguments producer_owns_commit {T N t0 shared M P spsc_laws}.
Arguments producer_owns_cancel {T N t0 shared M P spsc_laws}.
Arguments consumer_owns_saw {T N t0 shared M P spsc_laws}.
Arguments consumer_owns_next {T N t0 shared M P spsc_laws}.
Arguments wp_load_head {T N t0 shared M P spsc_laws}.
Arguments wp_write_cell {T N t0 shared M P spsc_laws}.
Arguments wp_producer_drop {T N t0 shared M P spsc_laws}.
Arguments wp_publish {T N t0 shared M P spsc_laws}.
Arguments wp_producer_look {T N t0 shared M P spsc_laws}.
Arguments wp_producer_bump {T N t0 shared M P spsc_laws}.
Arguments wp_load_tail {T N t0 shared M P spsc_laws}.
Arguments wp_read_cell {T N t0 shared M P spsc_laws}.
Arguments wp_release {T N t0 shared M P spsc_laws}.
Arguments wp_consumer_look {T N t0 shared M P spsc_laws}.
Arguments wp_consumer_bump {T N t0 shared M P spsc_laws}.
Arguments wp_join_producer {T N t0 shared M P spsc_laws}.
Arguments wp_join_consumer {T N t0 shared M P spsc_laws}.
