(* ===== verification/LosslessOperations.v ===== *)
(** * The operations of the lossless channel under its protocol

    Every call of the two threads, verified against the interface [spsc]
    whatever the memory is, and what follows for the reachable
    configurations. *)

From S2P Require Import Prelude.
From S2P Require Import Rust.
From S2P Require Import Ring.
From S2P Require Import Errors.
From S2P Require Import Channel.
From S2P Require Import Join.
From S2P Require Import Concurrency.
From S2P Require Import LosslessProducer.
From S2P Require Import LosslessConsumer.
From S2P Require Import LosslessQueue.
From S2P Require Import LosslessReservation.
From S2P Require Import LosslessInterface.
From S2P Require Import LosslessProtocol.

Section Operations.
Context {T : Type} {prof : Profile} (N : Z) (HN : capacity_ok N).
Context (t0 : Z) (Ht0 : 0 ≤ t0) (shared : bool) (M : memory T).
Context `{P : !spsc M} `{L : !spsc_laws N t0 shared M}.
Implicit Types (w : mstate M) (p : Producer) (c : Consumer) (r : Reservation)
  (s vs : list T) (hist : history (lossless (T := T) N shared)).

Let HN0 : 0 < N < usize_lim := capacity_ok_pos N HN.

#[local] Notation sent_published := (sent_published t0).
#[local] Notation producer_down := (producer_down t0).
#[local] Notation got_published := (got_published t0).
#[local] Notation WPP s := (wp M 0 (sp_safe 0) sp_inv (sent_published s) (producer_down s)
  consumer_move producer_move).
#[local] Notation WPC got := (wp M 1 (sp_safe 1) sp_inv (got_published got) (got_published got)
  producer_move consumer_move).

(** ** What stays true *)

Lemma got_published_later got w w' : got_published got w → later w w' → got_published got w'.
Proof.
  intros H [Ht Hp]. eapply Forall_impl; [exact H|]. cbn. intros [k v] [H1 H2]; cbn in *.
  split; [lia|]. by rewrite Hp.
Qed.

Lemma got_published_snoc got e w :
  got_published got w → got_published [e] w → got_published (got ++ [e]) w.
Proof. intros. by apply Forall_app. Qed.

Lemma sent_published_stable s w w' :
  sent_published s w → consumer_move w w' → sent_published s w'.
Proof.
  intros [Ht Hp] (E & Ep & _)%consumer_move_same. split; rewrite E; [done|].
  intros k Hk. rewrite Ep. by apply Hp.
Qed.

Lemma producer_down_stable s w w' :
  producer_down s w → consumer_move w w' → producer_down s w'.
Proof.
  intros [Hs Hq] HG. split; [by eapply sent_published_stable|].
  apply consumer_move_same in HG as (_ & _ & H). by apply H.
Qed.

Lemma got_published_stable got w w' :
  got_published got w → producer_move w w' → got_published got w'.
Proof.
  intros HG HR. eapply got_published_later; [done|]. by eapply producer_move_later.
Qed.

Lemma producer_owns_sent p s vs room w : producer_owns p s vs room w → sent_published s w.
Proof. intros H. by apply producer_owns_down in H as [? _]. Qed.

(** ** The producer's operations *)

(** What owning the handle says about its numbers. *)
#[local] Ltac producer_bounds H :=
  let B := fresh "B" in
  pose proof (producer_owns_bounds _ _ _ _ _ H) as B; cbn [length] in B.

Lemma wp_sync sj p s w Φ :
  producer_owns p s [] 0 w →
  (∀ w', sent_published s w' → sent_published sj w') →
  (∀ w', producer_owns (producer_synced p) s [] 0 w' → Φ (producer_synced p) w') →
  WPP sj (sync p) Φ w.
Proof.
  intros O HJ HΦ. unfold sync. cbn zeta.
  apply (wp_publish _ sj p s); [done|done|].
  intros w' O'. by apply wp_ret, HΦ.
Qed.

Lemma wp_push sj p s v w Φ :
  producer_owns p s [] 0 w → p_tail p + N + 1 < usize_lim →
  (∀ w', N ≤ p_tail p → producer_owns p s [] 0 w' → Φ (p, Err Full) w') →
  (∀ w', p_written p < N → producer_owns (producer_wrote p 1) (s ++ [v]) [] 0 w' →
         Φ (producer_wrote p 1, Ok tt) w') →
  WPP sj (push N p v) Φ w.
Proof.
  intros O Hb Hfull HΦ. producer_bounds O. unfold push.
  eapply wp_load_head; [done|]. intros hd w1 Hh Hwr Hle Hroom.
  eapply wp_lift; [apply uadd_val; unfold is_usize; lia|].
  bool_case.
  { eapply wp_producer_drop; [apply (Hroom 0); lia|].
    intros w2 O2. apply wp_ret, Hfull; [lia|done]. }
  rewrite mask_slot by done. rewrite <- (Z.add_0_r (p_tail p)) at 1.
  change 0 with (Z.of_nat (length (@nil T))).
  eapply wp_write_cell; [apply (Hroom 1); lia|cbn; lia|].
  intros w2 O2. apply producer_owns_commit in O2.
  eapply wp_lift; [apply uadd_val; unfold is_usize; lia|].
  eapply wp_lift; [apply uadd_val; unfold is_usize; lia|].
  apply wp_ret, HΦ; [lia|done].
Qed.

Lemma wp_consumer_heartbeat sj p s w Φ :
  producer_owns p s [] 0 w →
  (∀ p' b w', p_written p' = p_written p → producer_owns p' s [] 0 w' → Φ (p', b) w') →
  WPP sj (consumer_heartbeat p) Φ w.
Proof.
  intros O HΦ. eapply wp_producer_look; [done|]. intros b w' O'.
  case_match; apply wp_ret, HΦ; try done. by apply producer_owns_saw.
Qed.

Lemma wp_producer_beat sj p s w Φ :
  producer_owns p s [] 0 w →
  (∀ w', producer_owns p s [] 0 w' → Φ tt w') →
  WPP sj (LosslessProducer.beat p) Φ w.
Proof.
  intros O HΦ. eapply wp_producer_bump; [done|]. intros b w' O'.
  by apply wp_ret, HΦ.
Qed.

Lemma wp_reserve sj p s count w Φ :
  producer_owns p s [] 0 w → p_tail p + N + 1 < usize_lim → 0 ≤ count →
  (∀ e w', e = InvalidSize ∧ (count = 0 ∨ N < count) ∨ e = Full ∧ N < p_tail p + count →
           producer_owns p s [] 0 w' → Φ (Err e) w') →
  (∀ w', p_written p + count ≤ N → producer_owns p s [] count w' →
     Φ (Ok (mkReservation p (p_tail p) count 0 false)) w') →
  WPP sj (reserve N p count) Φ w.
Proof.
  intros O Hb Hc Herr HΦ. producer_bounds O. unfold reserve.
  bool_case; [apply wp_ret, Herr; [left; split; [done|lia]|done]|].
  bool_case; [apply wp_ret, Herr; [left; split; [done|lia]|done]|].
  eapply wp_load_head; [done|]. intros hd w1 Hh Hwr Hle Hroom.
  eapply wp_lift; [apply usub_val; unfold is_usize; lia|].
  eapply wp_lift; [apply usub_val; unfold is_usize; lia|].
  bool_case; apply wp_ret; [apply Herr|apply HΦ]; try (apply Hroom; lia); [|lia].
  right. split; [done|lia].
Qed.

Lemma wp_write_next sj r s vs v w Φ :
  producer_owns (r_producer r) s vs (r_count r) w →
  r_start_tail r = p_tail (r_producer r) →
  r_written r = Z.of_nat (length vs) → r_written r < r_count r →
  0 ≤ p_tail (r_producer r) →
  (∀ w', producer_owns (r_producer r) s (vs ++ [v]) (r_count r) w' →
     Φ (with_written r (r_written r + 1)) w') →
  WPP sj (write_next N r v) Φ w.
Proof.
  intros O Hs Hw Hlt H0 HΦ. producer_bounds O. unfold write_next.
  rewrite (proj2 (Z.leb_gt _ _)) by lia.
  eapply wp_lift; [apply uadd_val; unfold is_usize; lia|].
  rewrite mask_slot by done. rewrite Hs, Hw.
  eapply wp_write_cell; [done|lia|]. intros w' O'.
  eapply wp_lift; [apply uadd_val; unfold is_usize; lia|].
  rewrite <- Hw. by apply wp_ret, HΦ.
Qed.

(** A block copy that stays below the end of the buffer. *)
Lemma wp_copy sj p s vs room us (Φ : unit → mstate M → Prop) w :
  producer_owns p s vs room w →
  Z.of_nat (length vs) + Z.of_nat (length us) ≤ room →
  (p_tail p + Z.of_nat (length vs)) mod N + Z.of_nat (length us) ≤ N →
  (∀ w', producer_owns p s (vs ++ us) room w' → Φ tt w') →
  WPP sj (copy_nonoverlapping (slot N (p_tail p + Z.of_nat (length vs))) us) Φ w.
Proof.
  revert vs w. induction us as [|u us IH]; intros vs w O Hroom Hend HΦ.
  - apply wp_ret, HΦ. by rewrite app_nil_r.
  - rewrite length_zcons in Hroom, Hend. cbn [copy_nonoverlapping].
    eapply wp_write_cell; [exact O|lia|]. intros w' O'.
    destruct us as [|u' us]; [apply wp_ret, HΦ, O'|].
    rewrite length_zcons in Hroom, Hend.
    rewrite <- slot_succ by lia.
    replace (p_tail p + Z.of_nat (length vs) + 1) with
      (p_tail p + Z.of_nat (length (vs ++ [u]))) by (rewrite length_zapp; cbn; lia).
    apply IH; [done| | |].
    + rewrite length_zapp, length_zcons. cbn. lia.
    + rewrite length_zcons.
      replace (p_tail p + Z.of_nat (length (vs ++ [u]))) with
        (p_tail p + Z.of_nat (length vs) + 1) by (rewrite length_zapp; cbn; lia).
      pose proof (slot_Z N ltac:(lia) (p_tail p + Z.of_nat (length vs))) as E1.
      pose proof (slot_Z N ltac:(lia) (p_tail p + Z.of_nat (length vs) + 1)) as E2.
      rewrite slot_succ in E2 by lia. lia.
    + intros w''. rewrite <- app_assoc. apply HΦ.
Qed.

Lemma wp_write_all sj r s vs us w Φ :
  producer_owns (r_producer r) s vs (r_count r) w →
  r_start_tail r = p_tail (r_producer r) →
  r_written r = Z.of_nat (length vs) →
  r_written r + Z.of_nat (length us) ≤ r_count r →
  0 ≤ p_tail (r_producer r) → r_count r ≤ N →
  (∀ w', producer_owns (r_producer r) s (vs ++ us) (r_count r) w' →
     Φ (with_written r (r_written r + Z.of_nat (length us))) w') →
  WPP sj (write_all N r us) Φ w.
Proof.
  intros O Hs Hw Hle H0 HcN HΦ. producer_bounds O.
  pose proof (capacity_ok_double N HN). unfold write_all, remaining.
  eapply wp_lift; [apply usub_val; unfold is_usize; lia|].
  rewrite (proj2 (Z.ltb_ge _ _)) by lia.
  destruct us as [|u us].
  { rewrite bool_decide_true by done. apply wp_ret. rewrite app_nil_r in HΦ.
    specialize (HΦ w O). cbn in HΦ. rewrite Z.add_0_r in HΦ. by destruct r. }
  rewrite bool_decide_false by done. remember (u :: us) as vs' eqn:E. clear E u us.
  eapply wp_lift; [apply uadd_val; unfold is_usize; lia|].
  rewrite mask_slot by done. rewrite Hs, Hw.
  set (pos := p_tail (r_producer r) + Z.of_nat (length vs)).
  pose proof (slot_lt N (proj1 HN0) pos). pose proof (slot_Z N (proj1 HN0) pos) as Ez.
  eapply wp_lift; [apply uadd_val; unfold is_usize; lia|].
  apply wp_bind.
  assert (Hdone : ∀ w', producer_owns (r_producer r) s (vs ++ vs') (r_count r) w' →
    WPP sj (n ← lift (uadd (r_written r) (Z.of_nat (length vs'))); mret (with_written r n)) Φ w').
  { intros w' O'. eapply wp_lift; [apply uadd_val; unfold is_usize; lia|].
    by apply wp_ret, HΦ. }
  bool_case; [eapply (wp_copy sj (r_producer r) s vs); [exact O|lia|fold pos; lia|];
              intros w' O'; rewrite <- Hw; by apply Hdone|].
  eapply wp_lift; [apply usub_val; unfold is_usize; lia|].
  set (j := Z.to_nat (N - Z.of_nat (slot N pos))).
  assert (Hj : Z.of_nat (length (take j vs')) = N - pos mod N)
    by (rewrite length_take; lia).
  pose proof (f_equal length (take_drop j vs')) as Hlen. rewrite length_app in Hlen.
  apply wp_bind. eapply (wp_copy sj (r_producer r) s vs); [exact O|lia|fold pos; lia|].
  intros w' O'.
  assert (E : slot N (p_tail (r_producer r) + Z.of_nat (length (vs ++ take j vs'))) = 0%nat)
    by (rewrite length_zapp, Hj, Z.add_assoc; apply slot_wrap; lia).
  rewrite <- E at 3. eapply wp_copy; [exact O'|rewrite length_zapp; lia| |].
  - rewrite length_zapp, Hj, Z.add_assoc. fold pos.
    pose proof (slot_Z N (proj1 HN0) (pos + (N - pos mod N))) as E0.
    rewrite slot_wrap in E0 by lia. lia.
  - intros w''. rewrite <- app_assoc, take_drop, <- Hw. apply Hdone.
Qed.

Lemma wp_write_iter_loop sj fuel r s vs us w Φ :
  producer_owns (r_producer r) s vs (r_count r) w →
  r_start_tail r = p_tail (r_producer r) →
  r_written r = Z.of_nat (length vs) → 0 ≤ p_tail (r_producer r) →
  (Z.to_nat (r_count r - r_written r) < fuel)%nat →
  (∀ w', let k := Z.to_nat (r_count r - r_written r) in
     producer_owns (r_producer r) s (vs ++ take k us) (r_count r) w' →
     Φ (with_written r (r_written r + Z.of_nat (length (take k us))), drop (S k) us) w') →
  WPP sj (write_iter_loop N list_next fuel r us) Φ w.
Proof.
  revert r vs us w. induction fuel as [|fuel IH]; intros r vs us w O Hs Hw H0 Hf HΦ; [lia|].
  producer_bounds O. cbn [write_iter_loop].
  destruct us as [|u us]; cbn [list_next].
  { apply wp_ret. specialize (HΦ w). cbn zeta in HΦ. rewrite take_nil, app_nil_r in HΦ.
    cbn in HΦ. rewrite Z.add_0_r in HΦ. destruct r. by apply HΦ. }
  bool_case.
  { eapply wp_producer_drop; [done|]. intros w1 P1. apply wp_ret.
    specialize (HΦ w1). cbn zeta in HΦ. replace (Z.to_nat _) with 0%nat in HΦ by lia.
    rewrite take_0, app_nil_r in HΦ. cbn in HΦ. rewrite Z.add_0_r in HΦ.
    destruct r. by apply HΦ. }
  apply wp_bind. eapply wp_write_next; [done..|lia|done|]. intros w' O'.
  eapply (IH (with_written r (r_written r + 1)) (vs ++ [u])); cbn; [done|done| |done|lia|].
  { rewrite length_zapp. cbn. lia. }
  intros w''. specialize (HΦ w''). cbn zeta in HΦ.
  replace (Z.to_nat (r_count r - r_written r)) with
    (S (Z.to_nat (r_count r - (r_written r + 1)))) in HΦ by lia.
  set (k := Z.to_nat (r_count r - (r_written r + 1))) in *. cbn zeta in *.
  rewrite <- app_assoc. intros O''. specialize (HΦ O'').
  replace (r_written r + 1 + Z.of_nat (length (take k us))) with
    (r_written r + Z.of_nat (length (take (S k) (u :: us)))) by (cbn [take length]; lia).
  exact HΦ.
Qed.

Lemma wp_write_iter sj r s vs us w Φ :
  producer_owns (r_producer r) s vs (r_count r) w →
  r_start_tail r = p_tail (r_producer r) →
  r_written r = Z.of_nat (length vs) → 0 ≤ p_tail (r_producer r) →
  (∀ r' rest n w', r_producer r' = r_producer r → r_start_tail r' = r_start_tail r →
     r_count r' = r_count r → r_written r' = r_written r + Z.of_nat (length (take n us)) →
     producer_owns (r_producer r) s (vs ++ take n us) (r_count r) w' →
     Φ (r', rest, Z.of_nat (length (take n us))) w') →
  WPP sj (write_iter N list_next r us) Φ w.
Proof.
  intros O Hs Hw H0 HΦ. producer_bounds O. unfold write_iter. apply wp_bind.
  eapply wp_write_iter_loop; [done..|lia|]. intros w' k O'.
  producer_bounds O'. pose proof B0 as (_ & Hv & _). rewrite length_zapp in Hv.
  eapply wp_lift; [apply usub_val; cbn; unfold is_usize; lia|]. apply wp_ret. cbn.
  rewrite Z.add_simpl_l. by eapply (HΦ _ _ k).
Qed.

Lemma wp_commit r s vs w Φ :
  producer_owns (r_producer r) s vs (r_count r) w →
  r_written r = Z.of_nat (length vs) →
  (∀ p' w', p_written p' = (if burst_amount N <=? p_written (r_producer r) + r_written r
                            then 0 else p_written (r_producer r) + r_written r) →
            producer_owns p' (s ++ vs) [] 0 w' → Φ p' w') →
  WPP (s ++ vs) (commit N r) Φ w.
Proof.
  intros O Hw HΦ. producer_bounds O. unfold commit.
  eapply wp_lift; [apply uadd_val; unfold is_usize; lia|].
  eapply wp_lift; [apply uadd_val; unfold is_usize; lia|].
  pose proof (producer_owns_commit _ _ _ _ _ O) as O'. rewrite <- Hw in O'.
  cbn [p_written]. destruct (Z.leb_spec (burst_amount N) (p_written (r_producer r) + r_written r)).
  - eapply wp_sync; [exact O'|done|]. intros w' O''. by apply HΦ.
  - by apply wp_ret, HΦ.
Qed.

(** ** The consumer's operations *)

Lemma wp_advance got c n w Φ :
  consumer_owns c n w → consumer_ready c w → sp_inv w →
  (∀ c' w', later w w' → consumer_owns c' (S n) w' → Φ c' w') →
  WPC got (advance N c) Φ w.
Proof.
  intros O Hr HI HΦ. pose proof (consumer_owns_bounds _ _ _ O).
  pose proof (consumer_ready_bounds _ _ HI Hr). pose proof (burst_amount_bounds N ltac:(lia)).
  unfold advance, maybe_sync.
  eapply wp_lift; [apply uadd_val; unfold is_usize; lia|].
  eapply wp_lift; [apply uadd_val; unfold is_usize; lia|].
  cbn [c_items_since_last_sync c_head]. bool_case.
  - apply (wp_release _ got c n); [done..|]. intros w' Hl O'. by apply wp_ret, HΦ.
  - apply wp_ret, HΦ; [done|]. by apply consumer_owns_next.
Qed.

Lemma wp_pop got c n w Φ :
  consumer_owns c n w →
  (∀ w', later w w' → consumer_owns c n w' → Φ (c, None) w') →
  (∀ c' v w', later w w' → consumer_owns c' (S n) w' → got_published [(n, v)] w' →
     Φ (c', Some v) w') →
  WPC got (pop N c) Φ w.
Proof.
  intros O Hnone HΦ. unfold pop. eapply wp_load_tail; [done|].
  intros tl w1 _ Hl1 O1 Hr. bool_case; [by apply wp_ret, Hnone|]. rewrite mask_slot by done.
  eapply wp_read_cell; [done|apply Hr; lia|]. intros v w2 HI2 Hl2 O2 Hr2 Hg2.
  apply wp_bind. eapply wp_advance; [done..|]. intros c' w3 Hl3 O3.
  apply wp_ret, HΦ; [by etrans; [|etrans]|done|by eapply got_published_later].
Qed.

Lemma wp_pop_zerocopy got c n w Φ :
  consumer_owns c n w →
  (∀ w', later w w' → consumer_owns c n w' → Φ (inl c) w') →
  (∀ w', later w w' → consumer_owns c n w' → consumer_ready c w' →
     Φ (inr (mkElement (slot N (c_head c)) c)) w') →
  WPC got (pop_zerocopy N c) Φ w.
Proof.
  intros O Hnone HΦ. unfold pop_zerocopy. eapply wp_load_tail; [done|].
  intros tl w1 _ Hl1 O1 Hr. bool_case; [by apply wp_ret, Hnone|]. rewrite mask_slot by done.
  apply wp_ret, HΦ; [done..|]. apply Hr. lia.
Qed.

Lemma wp_deref got c n w Φ :
  consumer_owns c n w → consumer_ready c w →
  (∀ v w', later w w' → consumer_owns c n w' → consumer_ready c w' →
     got_published [(n, v)] w' → Φ v w') →
  WPC got (deref (mkElement (slot N (c_head c)) c)) Φ w.
Proof.
  intros O Hr HΦ. unfold deref. cbn [e_value].
  set (i := slot N _). change (@read_cell T i) with (@read_cell T i ≫= Ret). subst i.
  eapply wp_read_cell; [done..|]. intros v w' _ Hl O' Hr' Hg. by apply HΦ.
Qed.

Lemma wp_producer_heartbeat got c n w Φ :
  consumer_owns c n w →
  (∀ c' b w', later w w' → consumer_owns c' n w' → Φ (c', b) w') →
  WPC got (producer_heartbeat c) Φ w.
Proof.
  intros O HΦ. eapply wp_consumer_look; [done|]. intros b w' Hl O'.
  case_match; apply wp_ret, HΦ; try done. by apply consumer_owns_saw.
Qed.

Lemma wp_consumer_beat got c n w Φ :
  consumer_owns c n w →
  (∀ w', later w w' → consumer_owns c n w' → Φ tt w') →
  WPC got (LosslessConsumer.beat c) Φ w.
Proof.
  intros O HΦ. eapply wp_consumer_bump; [done|]. intros b w' Hl O'.
  by apply wp_ret, HΦ.
Qed.

(** ** Threads *)

#[local] Notation answers_ok := (answers_ok N shared t0).

(** What the history of a producer says about its handle, and about its
    answers. *)
Definition history_of p hist : Prop :=
  p_written p = unpublished N shared t0 hist ∧ answers_ok hist.

Lemma history_of_answers p hist : history_of p hist → answers_ok hist.
Proof. by intros []. Qed.

(** What the history of a consumer says about the channel: what was received
    is published, and so is all before the place where it joined. *)
Definition history_got hist w : Prop :=
  joined_at N shared t0 hist ≤ sp_tail w ∧ got_published (received N shared t0 hist) w.

Lemma history_got_later hist w w' : history_got hist w → later w w' → history_got hist w'.
Proof. intros [Hj Hg] Hl. split; [destruct Hl; lia|]. by eapply got_published_later. Qed.

(** What the threads own between calls. *)
Definition handle_inv (i : nat) (h : lossless_handle) hist w : Prop :=
  match i, h with
  | 0%nat, HNoProducer => answers_ok hist ∧ producer_down (sent_state N shared t0 hist).1 w
  | 0%nat, HProducer p =>
      history_of p hist ∧ producer_owns p (sent_state N shared t0 hist).1 [] 0 w
  | 0%nat, HReservation r =>
      history_of (r_producer r) hist ∧
      r_start_tail r = p_tail (r_producer r) ∧
      r_written r = Z.of_nat (length (sent_state N shared t0 hist).2) ∧
      producer_owns (r_producer r) (sent_state N shared t0 hist).1
        (sent_state N shared t0 hist).2 (r_count r) w
  | 1%nat, HNoConsumer => history_got hist w
  | 1%nat, HConsumer c =>
      history_got hist w ∧
      consumer_owns c (received_state N shared t0 hist).1 w
  | 1%nat, HElement e =>
      history_got hist w ∧
      consumer_owns (e_consumer e) (received_state N shared t0 hist).1 w ∧
      e_value e = slot N (c_head (e_consumer e)) ∧ consumer_ready (e_consumer e) w
  | _, _ => False
  end.

(** What is true during a call, and what a crash in the middle of it leaves. *)
Definition call_inv (i : nat) (o : option (lossless_call T)) hist w : Prop :=
  match i with
  | 0%nat => answers_ok hist ∧ sent_published (sent N shared t0 o hist) w
  | 1%nat => joined_at N shared t0 hist ≤ sp_tail w ∧ got_published (received N shared t0 hist) w
  | _ => False
  end.

Definition crash_inv (i : nat) (cl : lossless_call T) hist w : Prop :=
  match i with
  | 0%nat => answers_ok hist ∧ producer_down (sent N shared t0 (Some cl) hist) w
  | 1%nat => joined_at N shared t0 hist ≤ sp_tail w ∧ got_published (received N shared t0 hist) w
  | _ => False
  end.

Lemma history_got_stable hist w w' :
  history_got hist w → producer_move w w' → history_got hist w'.
Proof. intros H HR. eapply history_got_later; [done|]. by eapply producer_move_later. Qed.

Lemma handle_inv_stable i h hist w w' :
  handle_inv i h hist w → rely i w w' → sp_inv w' → handle_inv i h hist w'.
Proof.
  destruct i as [|[|i]], h; cbn; try done.
  - intros [] ? _. split; [done|]. by eapply producer_owns_stable.
  - intros (?&?&?&?) ? _. split_and!; [done..|]. by eapply producer_owns_stable.
  - intros [] ? _. split; [done|]. by eapply producer_down_stable.
  - intros [] ? _. split; [by eapply history_got_stable|by eapply consumer_owns_stable].
  - intros (?&?&?&?) ? _. split_and!; [by eapply history_got_stable
      |by eapply consumer_owns_stable|done|by eapply consumer_ready_stable].
  - intros ? ? _. by eapply history_got_stable.
Qed.

Lemma call_inv_stable i o hist w w' :
  call_inv i o hist w → rely i w w' → sp_inv w' → call_inv i o hist w'.
Proof.
  destruct i as [|[|i]]; cbn; [|intros ? ? _; by eapply history_got_stable|done].
  intros [] ? _. split; [done|]. by eapply sent_published_stable.
Qed.

Lemma handle_inv_call_inv i h hist w :
  handle_inv i h hist w → call_inv i None hist w.
Proof.
  destruct i as [|[|i]], h; cbn; try done; try tauto.
  - intros [[_ ?] ?]. split; [done|]. by eapply producer_owns_sent.
  - intros ([_ ?]&_&_&?). split; [done|]. by eapply producer_owns_sent.
  - by intros [? []].
  - by intros [].
  - by intros (?&_).
Qed.

(** A crash between two calls. *)
Lemma handle_inv_down i h hist d w :
  handle_inv i h hist w → lossless_down shared i = Some d → handle_inv i d hist w.
Proof.
  intros HH Hd. unfold lossless_down in Hd. destruct shared; [|done].
  destruct i as [|[|i]], h; try done; injection Hd as <-; cbn in *;
    intuition eauto using producer_owns_down, history_of_answers.
Qed.

(** The facts about the history after one call more. *)
Lemma history_of_snoc p p' (hist : list (lossless_call T * lossless_answer T)) e :
  history_of p hist → answer_ok N shared t0 hist e →
  p_written p' = unpublished_step N (p_written p)
                   (Z.of_nat (length (sent_state N shared t0 hist).2)) e →
  history_of p' (hist ++ [e]).
Proof.
  intros [Hu Ha] He Hp. split; [|by constructor]. by rewrite unpublished_snoc, Hp, Hu.
Qed.

(** The same for a consumer, whether it receives something or not. *)
Lemma history_got_idle (hist : list (lossless_call T * lossless_answer T)) e w :
  history_got hist w →
  (received_step t0 (received_state N shared t0 hist) e).2 = received N shared t0 hist ∧
  joined_step (joined_at N shared t0 hist) e = joined_at N shared t0 hist →
  history_got (hist ++ [e]) w.
Proof.
  intros [Hj Hg] [E1 E2]. unfold history_got, received.
  rewrite received_state_snoc, joined_at_snoc, E1, E2. done.
Qed.

Lemma history_got_snoc (hist : list (lossless_call T * lossless_answer T)) e v w :
  history_got hist w → got_published [((received_state N shared t0 hist).1, v)] w →
  e = (Pop, AOption (Some v)) ∨ e = (Deref, AValue v) →
  history_got (hist ++ [e]) w.
Proof.
  intros [Hj Hg] Hv He. unfold history_got, received.
  rewrite received_state_snoc, joined_at_snoc.
  destruct He as [-> | ->]; (split; [done|by apply got_published_snoc]).
Qed.

#[local] Notation call_ok i c hist m w :=
  (wp_call M (lossless N shared) sp_safe sp_inv rely guar
     handle_inv call_inv crash_inv i c hist m w).

(** A producer's call: its past answers stay true. *)
Lemma producer_wp_call hist (cl : call (lossless N shared))
    (m : prog T (handle (lossless N shared) * answer (lossless N shared))) w :
  answers_ok hist →
  WPP (sent N shared t0 (Some cl) hist) m
    (fun hr => handle_inv 0 hr.1 (hist ++ [(cl, hr.2)])) w →
  call_ok 0%nat cl hist m w.
Proof. intros Ha. apply (wp_frame M 0 _ _ _ _ (fun _ => answers_ok hist)); done. Qed.

(** A consumer's call. *)
Lemma consumer_wp_call hist (cl : call (lossless N shared))
    (m : prog T (handle (lossless N shared) * answer (lossless N shared))) w :
  WPC (received N shared t0 hist) m
    (fun hr => handle_inv 1 hr.1 (hist ++ [(cl, hr.2)])) w →
  call_ok 1%nat cl hist m w.
Proof.
  apply (wp_frame M 1 _ _ _ _ (fun w => joined_at N shared t0 hist ≤ sp_tail w)).
  intros w1 w2 H1 (E & _ & _)%consumer_move_same. lia.
Qed.

(** Ends a call: the history has one answer more. *)
#[local] Ltac answered :=
  apply wp_ret; cbn; rewrite sent_state_snoc; cbn;
  repeat match goal with |- _ ∧ _ => split end;
  try match goal with
  | |- history_of _ _ => eapply history_of_snoc; [eassumption|..]
  | |- p_written _ = _ ∧ _ => fail
  end; cbn; try done.

Lemma producer_call p hist (cl : lossless_call T) m w :
  handle_inv 0 (HProducer p) hist w →
  lossless_exec N shared (HProducer p) cl = Some m → call_ok 0%nat cl hist m w.
Proof.
  intros [Hh O] Hm. apply producer_wp_call; [apply Hh|]. producer_bounds O.
  pose proof Hh as [Hw _]. pose proof B as (Ht & _).
  destruct cl as [v| | | |count| | | | | | | | | | | | |]; cbn [lossless_exec] in Hm; try done;
    try match type of Hm with (if ?b then _ else _) = _ =>
          destruct b eqn:Hb; [|done] end;
    try rewrite ?andb_true_iff, ?Z.ltb_lt, ?Z.leb_le in Hb;
    apply (inj Some) in Hm as <-;
    apply wp_bind;
    [eapply wp_push|eapply wp_sync|eapply wp_producer_beat
    |eapply wp_consumer_heartbeat|eapply wp_reserve]; try done; try tauto; intros;
    answered; rewrite <- ?Hw, <- ?Ht; done || tauto.
Qed.

Lemma reservation_call r hist (cl : lossless_call T) m w :
  handle_inv 0 (HReservation r) hist w →
  lossless_exec N shared (HReservation r) cl = Some m → call_ok 0%nat cl hist m w.
Proof.
  intros (Hh & Hs & Hw & O) Hm. apply producer_wp_call; [apply Hh|]. producer_bounds O.
  destruct cl as [| | | | |v|us|us| | | | | | | | | |]; cbn [lossless_exec] in Hm; try done.
  - destruct (Z.ltb_spec (r_written r) (r_count r)); [|done].
    apply (inj Some) in Hm as <-. apply wp_bind.
    eapply wp_write_next; [done..|lia|]. intros w' O'. answered.
    rewrite length_zapp. cbn. lia.
  - destruct (Z.leb_spec (r_written r + Z.of_nat (length us)) (r_count r)); [|done].
    apply (inj Some) in Hm as <-. apply wp_bind.
    eapply wp_write_all; [done..|lia|lia|]. intros w' O'. answered.
    rewrite length_zapp. lia.
  - apply (inj Some) in Hm as <-. apply wp_bind.
    eapply wp_write_iter; [done..|lia|].
    intros r' rest n w' E1 E2 E3 E4 O'. answered;
      rewrite ?Nat2Z.id, ?E1, ?E2, ?E3, ?E4, ?take_length_take; try done.
    rewrite length_zapp. lia.
  - apply (inj Some) in Hm as <-. apply wp_bind.
    eapply wp_commit; [done..|]. intros p' w' Hp' O'. answered. by rewrite Hp', Hw.
  - apply (inj Some) in Hm as <-. answered. by eapply producer_owns_cancel.
Qed.

Lemma absent_call i h hist (cl : lossless_call T) m w :
  h = HNoProducer ∨ h = HNoConsumer → handle_inv i h hist w →
  lossless_exec N shared h cl = Some m → call_ok i cl hist m w.
Proof.
  intros Hh HH Hm. destruct Hh as [-> | ->], cl; cbn [lossless_exec] in Hm;
    try done; destruct (shared && mapped_at buffer) eqn:Hb; try done;
    apply andb_true_iff in Hb as [Hsh Hb]; apply (inj Some) in Hm as <-; destruct i as [|[|i]];
    try done; cbn in HH.
  - destruct HH as [Ha HH]. apply producer_wp_call; [done|]. apply wp_bind.
    eapply wp_join_producer; [done|done|exact HH|]. intros p w' Hp O.
    apply wp_ret. cbn. rewrite sent_state_snoc. split; [|done].
    split; [by rewrite unpublished_snoc|by constructor].
  - apply consumer_wp_call, wp_bind. eapply wp_join_consumer; [done|done| |].
    + intros c w' Hl Ht O. apply wp_ret. cbn. rewrite received_state_snoc. cbn. split; [|done].
      pose proof (history_got_later _ _ _ HH Hl) as [_ Hg].
      unfold history_got, received. by rewrite received_state_snoc, joined_at_snoc.
    + intros e w' Hl. apply wp_ret. cbn. by apply history_got_idle; [eapply history_got_later|].
Qed.

Lemma consumer_call h hist (cl : lossless_call T) m w :
  handle_inv 1 h hist w → sp_inv w →
  lossless_exec N shared h cl = Some m → call_ok 1%nat cl hist m w.
Proof.
  intros HH HI Hm. destruct h as [| |c|e| |]; try done;
    [..|by eapply absent_call; eauto]; apply consumer_wp_call.
  - destruct HH as [HJ O].
    destruct cl; cbn [lossless_exec] in Hm; try done; apply (inj Some) in Hm as <-; apply wp_bind;
      [eapply wp_pop|eapply wp_pop_zerocopy|eapply wp_consumer_beat
      |eapply wp_producer_heartbeat]; try done; intros;
      apply wp_ret; cbn; rewrite received_state_snoc; cbn;
      split_and?; try done; try (apply history_got_idle; [|done]; by eapply history_got_later).
    eapply history_got_snoc; [by eapply history_got_later|done|by left].
  - destruct HH as (HJ & O & He & Hr). destruct e as [i c]; cbn in He, O, Hr. subst i.
    destruct cl; cbn [lossless_exec] in Hm; try done; apply (inj Some) in Hm as <-; apply wp_bind.
    + eapply wp_deref; [done..|]. intros v w' Hl O' Hr' Hg. apply wp_ret. cbn.
      rewrite received_state_snoc. cbn. split_and!; [|done..].
      eapply history_got_snoc; [by eapply history_got_later|done|by right].
    + eapply wp_advance; [done..|]. intros c' w' Hl O'. apply wp_ret. cbn.
      rewrite received_state_snoc. cbn. split; [|done].
      apply history_got_idle; [|done]. by eapply history_got_later.
Qed.

Lemma handle_inv_call i h hist (cl : lossless_call T) m w :
  handle_inv i h hist w → sp_inv w →
  lossless_exec N shared h cl = Some m →
  call_inv i (Some cl) hist w ∧ call_ok i cl hist m w.
Proof.
  intros HH HI Hm. destruct i as [|[|i]].
  - pose proof (handle_inv_call_inv _ _ _ _ HH) as HJ. destruct h; try done.
    + split; [|by eapply producer_call]. by destruct cl.
    + split; [|by eapply reservation_call]. destruct HH as (_ & _ & _ & O).
      destruct cl; try exact HJ. split; [apply HJ|].
      by eapply producer_owns_sent, producer_owns_commit.
    + split; [by destruct cl|]. by eapply absent_call; [left|..].
  - pose proof (handle_inv_call_inv _ _ _ _ HH) as HJ.
    split; [exact HJ|by eapply consumer_call].
  - by destruct h.
Qed.

(** A crash in the middle of a call leaves a thread that can join again. *)
Lemma crash_inv_down i (cl : lossless_call T) hist d w :
  crash_inv i cl hist w → lossless_down shared i = Some d →
  handle_inv i d (hist ++ [(cl, ACut)]) w.
Proof.
  intros HK Hd. unfold lossless_down in Hd. destruct shared; [|done].
  destruct i as [|[|i]]; try done; injection Hd as <-; cbn in *.
  - rewrite sent_state_snoc. destruct HK as [Ha HK].
    split; [constructor; [done|]|]; by destruct cl.
  - apply history_got_idle; [exact HK|]. by destruct cl.
Qed.

(** ** Reachable configurations *)

Definition ok : config M (lossless N shared) → Prop :=
  config_ok M (lossless N shared) sp_safe sp_inv rely guar handle_inv call_inv crash_inv.

Lemma rely_refl i w : rely i w w.
Proof.
  destruct i as [|[|i]]; [apply consumer_move_refl|apply producer_move_refl|done].
Qed.

#[local] Instance rely_trans i : Transitive (rely i).
Proof.
  destruct i as [|[|i]]; [apply consumer_move_trans|apply producer_move_trans|by intros ???].
Qed.

Lemma reachable_protocol (s s' : config M (lossless N shared)) : ok s → reachable M s s' → ok s'.
Proof.
  apply reachable_ok; [apply _|..].
  - by intros [|[|i]] [|[|j]] w w'.
  - apply rely_refl.
  - intros. by eapply handle_inv_stable.
  - intros. by eapply call_inv_stable.
  - intros. by eapply handle_inv_call.
  - intros. by eapply handle_inv_down.
  - intros. by eapply crash_inv_down.
Qed.

(** What the history of the producer says about the channel. *)
Lemma ok_sent (s : config M (lossless N shared)) tp :
  ok s → s.2 !! 0%nat = Some tp →
  sent_published (sent N shared t0 (calls_of tp).1 (calls_of tp).2) s.1.
Proof.
  intros Hok Hp.
  exact (proj2 (config_ok_J M (lossless N shared) _ _ _ _ _ _ _ handle_inv_call_inv s 0 tp Hok Hp)).
Qed.

Lemma ok_answers (s : config M (lossless N shared)) tp :
  ok s → s.2 !! 0%nat = Some tp → answers_ok (calls_of tp).2.
Proof.
  intros Hok Hp.
  exact (proj1 (config_ok_J M (lossless N shared) _ _ _ _ _ _ _ handle_inv_call_inv s 0 tp Hok Hp)).
Qed.

(** A consumer joins at a position that is published. *)
Lemma ok_joined (s : config M (lossless N shared)) tc :
  ok s → s.2 !! 1%nat = Some tc → joined_at N shared t0 (calls_of tc).2 ≤ sp_tail s.1.
Proof.
  intros Hok Hc.
  exact (proj1 (config_ok_J M (lossless N shared) _ _ _ _ _ _ _ handle_inv_call_inv s 1 tc Hok Hc)).
Qed.

(** What the histories of the two threads say about the channel. *)
Lemma ok_histories (s : config M (lossless N shared)) tp tc :
  ok s → s.2 !! 0%nat = Some tp → s.2 !! 1%nat = Some tc →
  sent_published (sent N shared t0 (calls_of tp).1 (calls_of tp).2) s.1 ∧
  got_published (received N shared t0 (calls_of tc).2) s.1.
Proof.
  intros Hok Hp Hc. pose proof (ok_sent s tp Hok Hp).
  pose proof (config_ok_J M (lossless N shared) _ _ _ _ _ _ _ handle_inv_call_inv s 1 tc Hok Hc).
  split; [done|apply H0].
Qed.

(** Every element received is the one sent under the same number. *)
Lemma ok_received (s : config M (lossless N shared)) tp tc :
  ok s → s.2 !! 0%nat = Some tp → s.2 !! 1%nat = Some tc →
  ∀ k v, (k, v) ∈ received N shared t0 (calls_of tc).2 →
         sent N shared t0 (calls_of tp).1 (calls_of tp).2 !! k = Some v.
Proof.
  intros Hok Hp Hc k v Hin. destruct (ok_histories s tp tc Hok Hp Hc) as [[_ Hs] HJc].
  unfold LosslessProtocol.got_published in HJc. rewrite Forall_forall in HJc.
  destruct (HJc _ Hin) as [Hlt Hv]; cbn in *. by rewrite <- Hs.
Qed.

(** A busy thread can take its next access, and it is safe. *)
Lemma ok_safe (s : config M (lossless N shared)) i cl m hist :
  ok s → s.2 !! i = Some (Busy cl m hist) →
  match m with
  | Ret _ => True
  | Panic _ => False
  | Do a _ => sp_safe i _ a s.1 ∧ ∃ x w', mstep M i a s.1 x w'
  end.
Proof.
  intros Hok Hi.
  exact (config_ok_safe M (lossless N shared) _ _ _ _ _ _ _ rely_refl s i cl m hist Hok Hi).
Qed.
End Operations.
