(* ===== verification/LosslessClients.v ===== *)
(** * Programs that use the lossless channel

    The programs the repository comes with, as clients: the two threads of
    each test of [src/que/src/lossless/loom_tests.rs], those of
    [src/que/examples/lossless.rs], and the two processes of
    [src/examples/interprocess/src/bin]; and what they keep whatever a
    channel answers.  What they print is left out. *)

From Stdlib Require Import Strings.String.
From S2P Require Import Prelude.
From S2P Require Import Rust.
From S2P Require Import Ring.
From S2P Require Import Errors.
From S2P Require Import Channel.
From S2P Require Import Join.
From S2P Require Import PageSize.
From S2P Require Import Layout.
From S2P Require Import Shmem.
From S2P Require Import Concurrency.
From S2P Require Import Clients.
From S2P Require Import LosslessProducer.
From S2P Require Import LosslessConsumer.
From S2P Require Import LosslessQueue.
From S2P Require Import LosslessReservation.
From S2P Require Import LosslessInterface.
From S2P Require Import LosslessProtocol.
From S2P Require Import LosslessOperations.
From ITree Require Import Core.ITreeDefinition.

(** ** Calls *)

Section Calls.
Context {T : Type} {prof : Profile} (N : Z) (shared : bool).
#[local] Notation C := (lossless (T := T) N shared).

Definition as_unit (a : lossless_answer T) : option unit :=
  match a with AUnit => Some tt | _ => None end.
Definition as_bool (a : lossless_answer T) : option bool :=
  match a with ABool b => Some b | _ => None end.
Definition as_result (a : lossless_answer T) : option (result unit QueError) :=
  match a with AResult r => Some r | _ => None end.
Definition as_option (a : lossless_answer T) : option (option T) :=
  match a with AOption o => Some o | _ => None end.
(** Joining gives a handle, at some position, or an error. *)
Definition as_joined (a : lossless_answer T) : option (result unit QueError) :=
  match a with AJoined _ => Some (Ok tt) | AResult r => Some r | _ => None end.

Definition c_push (v : T) : client C (result unit QueError) := expect (C := C) (Push v) as_result.
Definition c_sync : client C unit := expect (C := C) Sync as_unit.
Definition c_producer_beat : client C unit := expect (C := C) ProducerBeat as_unit.
Definition c_consumer_heartbeat : client C bool := expect (C := C) ConsumerHeartbeat as_bool.
Definition c_reserve (count : Z) : client C (result unit QueError) :=
  expect (C := C) (Reserve count) as_result.
Definition c_write_next (v : T) : client C unit := expect (C := C) (WriteNext v) as_unit.
Definition c_commit : client C unit := expect (C := C) Commit as_unit.
Definition c_pop : client C (option T) := expect (C := C) Pop as_option.
Definition c_consumer_beat : client C unit := expect (C := C) ConsumerBeat as_unit.
Definition c_producer_heartbeat : client C bool := expect (C := C) ProducerHeartbeat as_bool.
Definition c_join_producer (buffer : Z) : client C (result unit QueError) :=
  expect (C := C) (JoinProducer buffer) as_joined.
Definition c_join_consumer (buffer : Z) : client C (result unit QueError) :=
  expect (C := C) (JoinConsumer buffer) as_joined.

(** [while producer.push(value).is_err() {}]. *)
Definition push_retry (value : T) : client C unit :=
  wait (r ← c_push value; mret (is_ok r)).

(** Pops until it has [expected_len] values. *)
Definition drain_all (expected_len : nat) : client C (list T) :=
  ITree.iter (fun out : list T =>
    if (length out <? expected_len)%nat then
      o ← c_pop;
      mret (inl (match o with Some v => out ++ [v] | None => out end))
    else mret (inr out)) [].
End Calls.

(** ** The loom tests *)

Section Loom.
Context {prof : Profile}.

Definition batched_pushes_producer : client (lossless (T := Z) 16 false) unit :=
  _ ← for_each (seqZ 0 5) (push_retry 16 false);
  _ ← c_sync 16 false;
  _ ← for_each (seqZ 5 5) (push_retry 16 false);
  c_sync 16 false.

Definition batched_pushes_consumer : client (lossless (T := Z) 16 false) (list Z) :=
  got ← drain_all 16 false 10;
  _ ← client_assert (bool_decide (got = seqZ 0 10)) "assert_eq!(got, 0..10)";
  mret got.

Definition fill_drain_refill_producer : client (lossless (T := Z) 4 false) unit :=
  for_each (seqZ 0 2) (fun round =>
    let base := round * 3 in
    _ ← for_each (seqZ 0 3) (fun i => push_retry 4 false (base + i));
    c_sync 4 false).

Definition fill_drain_refill_consumer : client (lossless (T := Z) 4 false) (list Z) :=
  first ← drain_all 4 false 3;
  _ ← client_assert (bool_decide (first = [0; 1; 2])) "assert_eq!(first, [0, 1, 2])";
  second ← drain_all 4 false 3;
  _ ← client_assert (bool_decide (second = [3; 4; 5])) "assert_eq!(second, [3, 4, 5])";
  mret (first ++ second).

(** The producer exists, and does nothing. *)
Definition no_false_some_producer : client (lossless (T := Z) 8 false) unit := mret tt.

Definition no_false_some_consumer : client (lossless (T := Z) 8 false) unit :=
  for_each (seqZ 0 8) (fun _ =>
    o ← c_pop 8 false;
    client_assert (bool_decide (o = None)) "assert_eq!(consumer.pop(), None)").
End Loom.

(** ** The example *)

(** [src/que/examples/lossless.rs]: the elements are ranges. *)
Section Example_.
Context {prof : Profile}.

Definition EXAMPLE_N : Z := 1024.
Definition NUM_MSGS : Z := 10000.
#[local] Notation C := (lossless (T := Z * Z) EXAMPLE_N false).

(** The clock says when the next message is due. *)
Definition example_producer : client C unit :=
  ITree.iter (fun msgs : Z =>
    if msgs <? NUM_MSGS then
      due ← ITree.trigger (Ask (C := C) bool);
      if due : bool then
        _ ← push_retry EXAMPLE_N false (msgs, msgs + 1);
        _ ← c_sync EXAMPLE_N false;
        mret (inl (msgs + 1))
      else mret (inl msgs)
    else mret (inr tt)) 0.

Definition example_consumer : client C unit :=
  ITree.iter (fun expected : Z =>
    if expected <? NUM_MSGS then
      o ← c_pop EXAMPLE_N false;
      match o with
      | Some msg =>
          _ ← client_assert (bool_decide ((expected, expected + 1) = msg))
                "assert_eq!(expected..expected + 1, msg)";
          mret (inl (expected + 1))
      | None => mret (inl expected)
      end
    else mret (inr tt)) 0.
End Example_.

(** ** Two processes *)

(** [src/examples/interprocess/src/bin]: [producer.rs] and [consumer.rs].
    The system maps the object ([Ask] stands for [Shmem::open_or_create] and
    for [cleanup_shmem]); then the process joins in it.  A panic is named
    after the [unwrap] or the [assert] it comes from. *)
Section Interprocess.
Context {prof : Profile} (sysconf : sysconf_result).

Definition INTERPROCESS_N : Z := 4.
#[local] Notation N := INTERPROCESS_N.
#[local] Notation C := (lossless (T := Z) N true).

(** The size of the channel of [u64]s. *)
Definition SPSC_SIZE : Z := size_of_channel 8 8 N.

Definition page_size : PageSize := Standard.

Definition client_unwrap {A E} (name : string) (r : result A E) : client C A :=
  match r with Ok a => mret a | Err _ => panic name end.

Definition client_value {A} (name : string) (r : res A) : client C A :=
  match r with Val a => mret a | Pan _ => panic name end.

(** [loop { if let Some(value) = consumer.pop() { break value; } }]. *)
Definition pop_wait : client C Z :=
  ITree.iter (fun _ => o ← c_pop N true;
                       mret (match o with Some v => inr v | None => inl tt end)) tt.

Definition producer_main : client C unit :=
  opened ← ITree.trigger (Ask (C := C) (result Z QueError));
  buffer ← client_unwrap "open" opened;
  joined ← c_join_producer N true buffer;
  _ ← client_unwrap "join_or_create_shmem" joined;
  _ ← wait (c_consumer_heartbeat N true);
  _ ← for_each (seqZ 0 4) (fun _ => r ← c_push N true 42; client_unwrap "push" r);
  r ← c_push N true 42;
  _ ← client_assert (is_err r) "push.is_err()";
  _ ← c_sync N true;
  _ ← wait (c_consumer_heartbeat N true);
  _ ← c_producer_beat N true;
  _ ← wait (r ← c_reserve N true 1; mret (is_ok r));
  _ ← c_write_next N true 420;
  _ ← c_commit N true;
  _ ← wait (c_consumer_heartbeat N true);
  bytes ← client_value "mem_size" (mem_size sysconf page_size SPSC_SIZE);
  match try_into_i64 bytes with
  | None => panic "try_into"
  | Some buffer_size =>
      cleaned ← ITree.trigger (Ask (C := C) (result unit ShmemError));
      client_unwrap "cleanup_shmem" cleaned
  end.

Definition consumer_main : client C unit :=
  opened ← ITree.trigger (Ask (C := C) (result Z QueError));
  buffer ← client_unwrap "open" opened;
  joined ← c_join_consumer N true buffer;
  _ ← client_unwrap "join_shmem" joined;
  _ ← c_consumer_beat N true;
  _ ← for_each (seqZ 0 4) (fun _ => _ ← pop_wait; mret tt);
  _ ← c_consumer_beat N true;
  _ ← wait (c_producer_heartbeat N true);
  value ← pop_wait;
  c_consumer_beat N true.
End Interprocess.
