(* ===== verification/LosslessClientLogic.v ===== *)
(** * What the clients of the lossless channel keep

    The rules of [Clients] for the calls of the lossless channel: a producer
    whose sends stay a prefix of a list, and a consumer that only pops and is
    given nothing but that list. *)

From S2P Require Import Prelude.
From S2P Require Import Rust.
From S2P Require Import Errors.
From S2P Require Import Channel.
From S2P Require Import Concurrency.
From S2P Require Import Clients.
From S2P Require Import LosslessQueue.
From S2P Require Import LosslessInterface.
From S2P Require Import LosslessProtocol.
From S2P Require Import LosslessOperations.
From S2P Require Import LosslessClients.
From ITree Require Import Core.ITreeDefinition.

(** One call more in a history. *)
Ltac snoc :=
  cbn [call answer lossless];
  rewrite ?sent_state_snoc, ?received_state_snoc, ?unpublished_snoc; cbn.

Section Logic.
Context {T : Type} {prof : Profile} (N : Z) (shared : bool) (t0 : Z) (vs : list T).
#[local] Notation C := (lossless (T := T) N shared).
Implicit Types (h hist : list (lossless_call T * lossless_answer T)).

(** ** Producers *)

Definition sends h : list T := (sent_state N shared t0 h).1.

(** What a producer has sent is a prefix of [vs]. *)
Definition sends_prefix (o : option (lossless_call T)) h : Prop :=
  sent N shared t0 o h `prefix_of` vs.

Section Producer.
Context (legal : list (lossless_call T * lossless_answer T) → Prop) (tolerated : string → Prop).
#[local] Notation K := (keeps (C := C) legal sends_prefix tolerated).

Lemma keeps_push_retry n v h :
  sends h ++ [v] `prefix_of` vs →
  K n (push_retry N shared v) h (fun _ h' => sends h' = sends h ++ [v]).
Proof.
  intros Hv. assert (Hh : sends h `prefix_of` vs) by (etrans; [by apply prefix_app_r|done]).
  apply (keeps_wait C _ _ _ _ _ (fun h' => sends h' = sends h)); [done..|].
  intros m h1 Hh1 E1. unfold sends in *.
  eapply keeps_bind.
  - apply keeps_expect; [done|exact Hh1|]. intros a _. unfold sends_prefix, sent in *.
    snoc. destruct a as [| | |[[]|]| | | |]; try done.
    cbn. by rewrite E1.
  - intros m' r h' _ Hh' (a & Ha & -> & _). apply keeps_ret; [done|].
    destruct a as [| | |r'| | | |]; try done. injection Ha as ->.
    snoc. by destruct r as [[]|]; cbn; rewrite E1.
Qed.

Lemma keeps_sync n h :
  sends h `prefix_of` vs → K n (c_sync N shared) h (fun _ h' => sends h' = sends h).
Proof.
  intros Hh. unfold sends in *. eapply keeps_mono; [apply keeps_expect|done|].
  - done.
  - done.
  - intros a _. unfold sends_prefix, sent. by snoc.
  - intros [] h' (a & _ & -> & _). by snoc.
Qed.

(** Pushing one value after another. *)
Lemma keeps_push_all {U} n (f : U → T) us h :
  sends h ++ (f <$> us) `prefix_of` vs →
  K n (for_each us (fun u => push_retry N shared (f u))) h
    (fun _ h' => sends h' = sends h ++ (f <$> us)).
Proof.
  intros Hu. eapply keeps_mono; [apply (keeps_for_each C _ _ _ _ us _
    (fun rest h' => sends h' ++ (f <$> rest) = sends h ++ (f <$> us)))|done|].
  - change (sends h `prefix_of` vs). etrans; [by apply prefix_app_r|done].
  - done.
  - intros m u rest h1 Hh1 E. eapply keeps_mono; [apply keeps_push_retry|done|].
    + rewrite <- E in Hu. cbn in Hu. etrans; [|exact Hu].
      rewrite (cons_middle (f u) (sends h1) (f <$> rest)), app_assoc. by apply prefix_app_r.
    + intros [] h' E'. by rewrite E', <- app_assoc.
  - intros [] h'. cbn. by rewrite app_nil_r.
Qed.
End Producer.

(** ** Consumers *)

(** The consumer has taken [xs], the first elements. *)
Definition took h (xs : list T) : Prop :=
  received_state N shared t0 h = (length xs, imap pair xs).

(** It has been given nothing but [vs]. *)
Definition given h : Prop := ∀ k v, (k, v) ∈ received N shared t0 h → vs !! k = Some v.

Lemma took_values h xs : took h xs → (received N shared t0 h).*2 = xs.
Proof.
  unfold took, received. intros ->. cbn. apply list_eq. intros i.
  rewrite list_lookup_fmap, list_lookup_imap. by destruct (xs !! i).
Qed.

Section Consumer.
Context (Ψ : option (lossless_call T) → list (lossless_call T * lossless_answer T) → Prop).
Context (HΨ : ∀ h, Ψ None h) (HΨpop : ∀ h, Ψ (Some Pop) h) (legal : list (lossless_call T * lossless_answer T) → Prop).
Context (Hgiven : ∀ h, legal h → given h) (tolerated : string → Prop).
#[local] Notation K := (keeps (C := C) legal Ψ tolerated).

Lemma took_snoc h xs v :
  took h xs → took (h ++ [(Pop, AOption (Some v))]) (xs ++ [v]).
Proof.
  unfold took. intros E. rewrite received_state_snoc, E. cbn.
  rewrite length_app, imap_app. cbn. by rewrite Nat.add_1_r, Nat.add_0_r.
Qed.

Lemma took_given h xs v :
  took h xs → xs `prefix_of` vs → given (h ++ [(Pop, AOption (Some v))]) →
  xs ++ [v] `prefix_of` vs.
Proof.
  intros Ht [us Hus] Hg. assert (E : vs !! length xs = Some v).
  { apply Hg. unfold received. rewrite received_state_snoc. unfold took in Ht. rewrite Ht.
    cbn. apply elem_of_app. right. by apply list_elem_of_singleton. }
  rewrite Hus in E |- *. rewrite lookup_app_r, Nat.sub_diag in E by done.
  destruct us as [|u us]; [done|]. injection E as ->.
  rewrite (cons_middle v xs us), app_assoc. by apply prefix_app_r.
Qed.

Lemma keeps_pop n h xs :
  took h xs → xs `prefix_of` vs →
  K n (c_pop N shared) h (fun o h' =>
    match o with
    | Some v => took h' (xs ++ [v]) ∧ xs ++ [v] `prefix_of` vs
    | None => took h' xs
    end).
Proof.
  intros Ht Hp. eapply keeps_mono; [apply keeps_expect; auto|done|].
  intros o h' (a & Ha & -> & Hl). destruct a as [| | | |o'| | |]; try done.
  injection Ha as ->. destruct o as [v|].
  - split; [by apply took_snoc|]. eapply took_given; eauto.
  - unfold took in *. snoc. by rewrite Ht.
Qed.

Lemma keeps_drain_all n k h xs :
  took h xs → xs `prefix_of` vs →
  K n (drain_all N shared k) h (fun out h' =>
    took h' (xs ++ out) ∧ xs ++ out `prefix_of` vs ∧ length out = k).
Proof.
  intros Ht Hp. unfold drain_all.
  apply (keeps_iter C _ _ _ _ _ (fun out h' =>
    took h' (xs ++ out) ∧ xs ++ out `prefix_of` vs ∧ (length out ≤ k)%nat)); [|done|].
  - intros m out h1 _ _ (Ht1 & Hp1 & Hl1).
    destruct (Nat.ltb_spec (length out) k); [|apply keeps_ret; [done|split_and!; done || lia]].
    eapply keeps_bind; [by apply (keeps_pop _ _ (xs ++ out))|].
    intros m' o h' _ _ Ho. apply keeps_ret; [done|]. destruct o as [v|].
    + rewrite app_assoc, length_app. cbn. destruct Ho. split_and!; done || lia.
    + by split_and!.
  - rewrite app_nil_r. split_and!; done || (cbn; lia).
Qed.
End Consumer.

(** ** Producer and consumer together *)

Section Together.
Context (M : memory T).
Context `{P : !spsc M} `{L : !spsc_laws N t0 shared M}.

(** If the producer has sent nothing but [vs], the consumer has been given
    nothing else. *)
Lemma together_given (s : config M C) tp tc :
  ok N t0 shared M s → s.2 !! 0%nat = Some tp → s.2 !! 1%nat = Some tc →
  sends_prefix (calls_of tp).1 (calls_of tp).2 →
  ∀ h, h `prefix_of` (calls_of tc).2 → given h.
Proof.
  intros Hok Hp Hc [us Hsent] h [rest Hh] k v Hin.
  rewrite Hsent. apply lookup_app_l_Some.
  apply (ok_received N t0 shared M s tp tc Hok Hp Hc).
  rewrite Hh. clear Hh. induction rest as [|e rest IH] using rev_ind; [by rewrite app_nil_r|].
  rewrite app_assoc. unfold received. snoc.
  destruct (received_state N shared t0 (h ++ rest)) as [n got] eqn:E.
  unfold received in IH. rewrite E in IH.
  destruct e as [[] []]; cbn in *; try done; try (apply elem_of_app; by left).
  destruct o; [apply elem_of_app; by left|done].
Qed.

(** Two clients, of which the consumer only relies on being given [vs]. *)
Lemma together_outcome {R} (t : client C unit) (u u' : client C R) t' Φ
    (Ψ : R → list (lossless_call T * lossless_answer T) → Prop)
    (s : config M C) tp tc :
  ok N t0 shared M s → s.2 !! 0%nat = Some tp → s.2 !! 1%nat = Some tc →
  (∀ n, keeps (C := C) (fun _ => True) sends_prefix (fun _ => False) n t [] Φ) →
  (∀ n, keeps (C := C) given (fun _ _ => True) (fun _ => False) n u [] Ψ) →
  runs t tp → follows t (calls_of tp).2 t' → follows u (calls_of tc).2 u' →
  ends_well (fun _ => False) (fun _ => True) t' ∧ ends_well (fun _ => False) (fun r => Ψ r (calls_of tc).2) u'.
Proof.
  intros Hok Hp Hc Ht Hu Hr Ht' Hu'. split.
  - pose proof (keeps_outcome C _ _ _ t t' _ _ Ht Ht' (fun _ _ => Logic.I)) as H.
    by eapply ends_well_mono.
  - apply (keeps_outcome C _ _ _ u u' _ _ Hu Hu'), (together_given s tp tc Hok Hp Hc).
    exact (keeps_runs C _ _ _ t tp _ Ht Hr (fun _ _ => Logic.I)).
Qed.
End Together.
End Logic.
