(* ===== verification/Interprocess.v ===== *)
(** * Two processes: what each of them keeps

    [producer_main] and [consumer_main] of [LosslessClients], one by one:
    the producer under what a channel can answer ([answers_ok]), the consumer
    under what it can be given; and where the consumer joins. *)

From Stdlib Require Import Strings.String.
From S2P Require Import Prelude.
From S2P Require Import Rust.
From S2P Require Import Ring.
From S2P Require Import Errors.
From S2P Require Import Channel.
From S2P Require Import PageSize.
From S2P Require Import Layout.
From S2P Require Import Shmem.
From S2P Require Import Concurrency.
From S2P Require Import Clients.
From S2P Require Import LosslessQueue.
From S2P Require Import LosslessInterface.
From S2P Require Import LosslessHeartbeats.
From S2P Require Import LosslessProtocol.
From S2P Require Import LosslessOperations.
From S2P Require Import LosslessClients.
From S2P Require Import LosslessClientLogic.
From ITree Require Import Core.ITreeDefinition.

Section Interprocess.
Context {prof : Profile} (system : Z) (Hsystem : 0 < system ≤ GIGANTIC).
#[local] Notation N := INTERPROCESS_N.
#[local] Notation C := (lossless (T := Z) N true).
Implicit Types (h hist : list (lossless_call Z * lossless_answer Z)).

(** What the consumer is to read. *)
Definition messages : list Z := [42; 42; 42; 42; 420].

Definition unacked h : Prop := Forall (fun e => is_ack e = false) h.

(** ** The producer *)

(** It joins first, and sends the messages, nothing of them before an
    acknowledgement. *)
Definition joins_first (o : option (lossless_call Z)) h : Prop :=
  match o with Some (JoinProducer _) | Some (JoinConsumer _) => h = [] | _ => True end.

Definition producer_keeps (o : option (lossless_call Z)) h : Prop :=
  sends_prefix N true 0 messages o h ∧ (unacked h → sent N true 0 o h = []) ∧ joins_first o h.

Definition producer_panics (name : string) : Prop := name = "open" ∨ name = "cleanup_shmem".

#[local] Notation legal := (answers_ok N true 0).
#[local] Notation K := (keeps (C := C) legal producer_keeps producer_panics).

(** [xs] sent, [batch] reserved and written, [u] unpublished; acknowledged if
    [acked]. *)
Record producer_at (acked : bool) (xs batch : list Z) (u : Z) h : Prop := {
  at_sent : sent_state N true 0 h = (xs, batch);
  at_unpublished : unpublished N true 0 h = u;
  at_acked : if acked then ¬ unacked h else xs ++ batch = []
}.

Lemma unacked_snoc h e : unacked (h ++ [e]) ↔ unacked h ∧ is_ack e = false.
Proof. unfold unacked. by rewrite Forall_app, Forall_singleton. Qed.

Lemma producer_at_keeps acked xs batch u h o :
  producer_at acked xs batch u h → xs ++ batch `prefix_of` messages → joins_first o h →
  producer_keeps o h.
Proof.
  intros [E Eu Ha] Hx Hj. split_and!; [| |done].
  - unfold sends_prefix, sent. rewrite E. cbn.
    assert (xs `prefix_of` messages) by (etrans; [by apply prefix_app_r|done]).
    by destruct o as [[]|].
  - unfold sent. rewrite E. intros Hun. destruct acked; [done|]. cbn.
    apply app_nil in Ha as [-> ->]. by destruct o as [[]|].
Qed.

(** A call that leaves the sends as they are, after which the state is as
    [next] says. *)
Lemma answers_last hist e : legal (hist ++ [e]) → answer_ok N true 0 hist e.
Proof.
  intros H. inversion H as [E|hist' e' Ha He E]; [by destruct hist|].
  by apply app_inj_tail in E as [<- <-].
Qed.

Lemma keeps_unwrap {A E} n name (r : result A E) h :
  producer_keeps None h → (∀ e, r = Err e → producer_panics name) →
  K n (client_unwrap name r) h (fun a h' => r = Ok a ∧ h' = h).
Proof. intros Hh Hr. destruct r as [a|e]; [by apply keeps_ret|]. eapply keeps_panic; eauto. Qed.

(** One call of the producer, from state to state. *)
Lemma producer_call_keeps {X} n (c : lossless_call Z) (f : lossless_answer Z → option X)
    acked xs batch u h (Φ : X → list (lossless_call Z * lossless_answer Z) → Prop) :
  producer_at acked xs batch u h → xs ++ batch `prefix_of` messages → joins_first (Some c) h →
  (∀ a, answer_ok N true 0 h (c, a) →
     producer_keeps None (h ++ [(c, a)]) ∧ ∀ x, f a = Some x → Φ x (h ++ [(c, a)])) →
  K n (expect (C := C) c f) h Φ.
Proof.
  intros Hat Hx Hj Ha. eapply keeps_mono; [apply keeps_expect|done|].
  - by eapply producer_at_keeps.
  - by eapply producer_at_keeps.
  - intros a Hl. by apply Ha, answers_last.
  - intros x h' (a & Hf & -> & Hl). by apply (Ha a (answers_last _ _ Hl)).
Qed.

Lemma producer_at_snoc acked xs batch u h e :
  producer_at acked xs batch u h →
  (acked || is_ack e = true ∨
     (sent_step 0 (xs, batch) e).1 ++ (sent_step 0 (xs, batch) e).2 = []) →
  producer_at (acked || is_ack e) (sent_step 0 (xs, batch) e).1 (sent_step 0 (xs, batch) e).2
    (unpublished_step N u (Z.of_nat (length batch)) e) (h ++ [e]).
Proof.
  intros [E Eu Ha] He. split.
  - rewrite sent_state_snoc, E. apply surjective_pairing.
  - by rewrite unpublished_snoc, E, Eu.
  - pose proof (unacked_snoc h e) as Hu. destruct acked; cbn in *; [tauto|].
    destruct (is_ack e); [by intros []%Hu|]. by destruct He.
Qed.

(** A call that changes nothing. *)
Lemma producer_at_same acked xs batch u h e :
  producer_at acked xs batch u h → sent_step 0 (xs, batch) e = (xs, batch) →
  unpublished_step N u (Z.of_nat (length batch)) e = u →
  producer_at (acked || is_ack e) xs batch u (h ++ [e]).
Proof.
  intros Hat E1 E2. pose proof (producer_at_snoc acked xs batch u h e Hat) as H.
  rewrite E1, E2 in H. apply H. destruct acked; [by left|]. right. apply Hat.
Qed.

Lemma keeps_wait_heartbeat n acked xs u h :
  producer_at acked xs [] u h → xs `prefix_of` messages →
  K n (wait (c_consumer_heartbeat N true)) h (fun _ h' => producer_at true xs [] u h').
Proof.
  intros Hat Hx. rewrite <- (app_nil_r xs) in Hx.
  apply (keeps_wait C _ _ _ _ _ (fun h' => producer_at acked xs [] u h'));
    [by eapply producer_at_keeps|done|].
  intros m h' _ Hat'. apply (producer_call_keeps _ _ _ acked xs [] u); [done..|].
  intros a _.
  pose proof (producer_at_same acked xs [] u h' (ConsumerHeartbeat, a) Hat' eq_refl eq_refl) as H.
  split; [by eapply producer_at_keeps|]. intros b Hb.
  destruct a as [|b'| | | | | |]; try done. injection Hb as ->.
  destruct b; [by rewrite orb_true_r in H|by rewrite orb_false_r in H].
Qed.

(** A push that has room, and one that has none. *)
Lemma keeps_push_room n xs u h v :
  producer_at true xs [] u h → xs ++ [v] `prefix_of` messages → Z.of_nat (length xs) < N →
  K n (r ← c_push N true v; client_unwrap "push" r) h
    (fun _ h' => producer_at true (xs ++ [v]) [] (u + 1) h').
Proof.
  intros Hat Hx Hl.
  assert (Hx0 : xs `prefix_of` messages) by (etrans; [by apply prefix_app_r|done]).
  eapply keeps_bind.
  - apply (producer_call_keeps _ _ _ true xs [] u _
      (fun r h' => r = Ok tt ∧ producer_at true (xs ++ [v]) [] (u + 1) h'));
      [done|by rewrite app_nil_r|done|].
    intros a Ha. pose proof (producer_at_snoc true xs [] u h (Push v, a) Hat (or_introl eq_refl)) as H.
    destruct Hat as [E _ _].
    destruct a as [| | |[[]|e]| | | |]; cbn in Ha, H; rewrite ?E in Ha; cbn in Ha;
      try (split; [eapply producer_at_keeps; [exact H|by rewrite app_nil_r|done]|]); try done.
    + intros r [= <-]. by split.
    + lia.
  - intros m r h' _ Hh' [-> H]. by apply keeps_ret.
Qed.

Lemma keeps_push_full n xs h v :
  producer_at true xs [] N h → xs `prefix_of` messages →
  K n (c_push N true v) h (fun r h' => is_err r = true ∧ producer_at true xs [] N h').
Proof.
  intros Hat Hx. rewrite <- (app_nil_r xs) in Hx.
  apply (producer_call_keeps _ _ _ true xs [] N); [done..|].
  intros a Ha. pose proof (producer_at_snoc true xs [] N h (Push v, a) Hat (or_introl eq_refl)) as H.
  destruct Hat as [E Eu _].
  destruct a as [| | |[[]|e]| | | |]; cbn in Ha, H;
    try (split; [by eapply producer_at_keeps|]); try done.
  - rewrite Eu in Ha. lia.
  - intros r [= <-]. by split.
Qed.

(** The other calls go from one state to another, whatever they answer. *)
Lemma keeps_producer_step {X} n c (f : lossless_answer Z → option X) xs batch u xs' batch' u' h :
  producer_at true xs batch u h → xs ++ batch `prefix_of` messages → joins_first (Some c) h →
  (∀ a, answer_ok N true 0 h (c, a) →
     is_ack (c, a) = false ∧
     (sent_step 0 (xs, batch) (c, a)).1 ++ (sent_step 0 (xs, batch) (c, a)).2 `prefix_of` messages ∧
     ∀ x, f a = Some x → sent_step 0 (xs, batch) (c, a) = (xs', batch') ∧
       unpublished_step N u (Z.of_nat (length batch)) (c, a) = u') →
  K n (expect (C := C) c f) h (fun _ h' => producer_at true xs' batch' u' h').
Proof.
  intros Hat Hx Hj Hstep. apply (producer_call_keeps _ _ _ true xs batch u); [done..|].
  intros a Ha. destruct (Hstep a Ha) as (Hack & Hp & Hf).
  pose proof (producer_at_snoc true xs batch u h (c, a) Hat (or_introl eq_refl)) as Hat'.
  rewrite Hack, orb_false_r in Hat'. split; [by eapply producer_at_keeps|].
  intros x Hx1. destruct (Hf x Hx1) as [E1 E2]. by rewrite E1, E2 in Hat'.
Qed.

Lemma keeps_reserve_one n xs h :
  producer_at true xs [] 0 h → xs `prefix_of` messages →
  K n (wait (r ← c_reserve N true 1; mret (is_ok r))) h
    (fun _ h' => producer_at true xs [] 0 h').
Proof.
  intros Hat Hx. rewrite <- (app_nil_r xs) in Hx.
  apply (keeps_wait C _ _ _ _ _ (fun h' => producer_at true xs [] 0 h'));
    [by eapply producer_at_keeps|done|].
  intros m h' _ Hat'. eapply keeps_bind.
  - apply (keeps_producer_step _ _ _ xs [] 0 xs [] 0); [done..|].
    intros a _. split_and!; [done| |].
    + by destruct a as [| | |[[]|]| | | |].
    + intros r Hr. by destruct a as [| | |[[]|]| | | |].
  - intros m' r h1 _ Hh1 H. apply keeps_ret; [done|]. by destruct (is_ok r).
Qed.

Context (sysconf : sysconf_result) (Hsysconf : sysconf = Ok (Some system)).

Lemma mem_size_fits : ∃ bytes, mem_size sysconf page_size SPSC_SIZE = Val bytes ∧
  try_into_i64 bytes = Some bytes.
Proof.
  assert (Hs : SPSC_SIZE = 768) by (vm_compute; reflexivity).
  assert (EG : GIGANTIC = 1073741824) by done.
  rewrite Hsysconf, mem_size_val by (rewrite ?Hs; unfold i64_max; lia).
  eexists. split; [done|]. unfold try_into_i64. cbn [page_bytes page_size].
  pose proof (uplign_spec system SPSC_SIZE ltac:(lia)). rewrite Hs in *.
  destruct (Z.leb_spec (uplign system 768) i64_max) as [|Hgt]; [done|].
  unfold i64_max in Hgt. lia.
Qed.

#[local] Ltac goes xs batch u xs' batch' u' :=
  eapply keeps_bind;
    [eapply (keeps_producer_step _ _ _ xs batch u xs' batch' u');
      [eassumption|done|done|intros a _; destruct a; by split_and!]|].

(** [producer_main] panics only if the system does not open or clean up the
    object; a producer that has ended has been acknowledged. *)
Lemma producer_main_keeps n : K n (producer_main sysconf) [] (fun _ h => ¬ unacked h).
Proof.
  assert (Hk : ∀ o h acked u, producer_at acked [] [] u h → joins_first o h → producer_keeps o h).
  { intros o h acked u Hat Hj. eapply producer_at_keeps; [exact Hat|apply prefix_nil|done]. }
  assert (Hat0 : producer_at false [] [] 0 []) by done.
  apply keeps_ask; [by eapply Hk|]. intros m1 opened _.
  eapply keeps_bind.
  { apply keeps_unwrap; [by eapply Hk|by left]. }
  intros m2 buffer h _ _ [_ ->].
  eapply keeps_bind.
  { apply (producer_call_keeps _ _ _ false [] [] 0 _
      (fun r h' => r = Ok tt ∧ producer_at false [] [] 0 h')); [done|apply prefix_nil|done|].
    intros a Ha.
    assert (H : producer_at false [] [] 0 [(JoinProducer buffer, a)]).
    { destruct a; split; try done; unfold sent_state; cbn; by rewrite take_nil. }
    split; [by eapply Hk|].
    intros r Hr. destruct a as [| | |[]| | | |]; try done; by injection Hr as <-. }
  intros m3 r h _ Hh [-> Hat]. eapply keeps_bind; [by apply keeps_ret with (Φ := fun _ h' => h' = h)|].
  intros m4 _ h4 _ _ ->.
  eapply keeps_bind; [eapply keeps_wait_heartbeat; [exact Hat|apply prefix_nil]|].
  clear h Hh Hat. intros m5 ? h _ Hh Hat.
  eapply keeps_bind.
  { apply (keeps_for_each C _ _ _ _ (seqZ 0 4) _ (fun rest h' => ∃ k,
      producer_at true (replicate k 42) [] (Z.of_nat k) h' ∧ (k + length rest = 4)%nat)).
    - exact Hh.
    - by exists 0%nat.
    - intros m x rest h1 _ (k & Hat1 & Hl). cbn in Hl.
      eapply keeps_mono; [apply (keeps_push_room _ (replicate k 42) (Z.of_nat k));
        [done|..]|done|].
      + rewrite <- replicate_S_end. do 4 (destruct k as [|k]; [by eexists|]). lia.
      + rewrite length_replicate. unfold INTERPROCESS_N. lia.
      + intros ? h' H. exists (S k). rewrite replicate_S_end.
        split; [by replace (Z.of_nat (S k)) with (Z.of_nat k + 1) by lia|lia]. }
  clear h Hh Hat. intros m6 ? h _ Hh (k & Hat & Hl).
  assert (k = 4%nat) as -> by (cbn in Hl; lia). cbn in Hat.
  assert (H4 : [42; 42; 42; 42] `prefix_of` messages) by (by exists [420]).
  eapply keeps_bind; [by eapply keeps_push_full|].
  clear h Hh Hat Hl. intros m7 pushed h _ Hh [Hr Hat].
  eapply keeps_bind; [by apply keeps_assert|]. intros m8 _ h8 _ _ ->.
  goes [42; 42; 42; 42] (@nil Z) N [42; 42; 42; 42] (@nil Z) 0.
  clear h Hh Hat. intros m9 ? h _ Hh Hat.
  eapply keeps_bind; [eapply keeps_wait_heartbeat; [exact Hat|exact H4]|].
  clear h Hh Hat. intros m10 ? h _ Hh Hat.
  goes [42; 42; 42; 42] (@nil Z) 0 [42; 42; 42; 42] (@nil Z) 0.
  clear h Hh Hat. intros m11 ? h _ Hh Hat.
  eapply keeps_bind; [eapply keeps_reserve_one; [exact Hat|exact H4]|].
  clear h Hh Hat. intros m12 ? h _ Hh Hat.
  goes [42; 42; 42; 42] (@nil Z) 0 [42; 42; 42; 42] [420] 0.
  clear h Hh Hat. intros m13 ? h _ Hh Hat.
  goes [42; 42; 42; 42] [420] 0 messages (@nil Z) 0.
  clear h Hh Hat. intros m14 ? h _ Hh Hat.
  eapply keeps_bind; [eapply keeps_wait_heartbeat; [exact Hat|done]|].
  clear h Hh Hat. intros m15 ? h _ Hh Hat.
  destruct mem_size_fits as (bytes & Eb & Et). rewrite Eb. cbn [client_value].
  eapply keeps_bind; [by apply keeps_ret with (Φ := fun b h' => b = bytes ∧ h' = h)|].
  intros m16 b h16 _ _ [-> ->]. rewrite Et.
  apply keeps_ask; [done|]. intros m17 cleaned _.
  eapply keeps_mono; [apply keeps_unwrap; [done|by right]|done|].
  intros _ h' [_ ->]. apply Hat.
Qed.
(** ** The consumer *)

Definition beaten h : Prop := Exists (fun e => is_beat e.1 = true) h.

Lemma beaten_prefix h h' : h `prefix_of` h' → beaten h → beaten h'.
Proof. intros [k ->] H. apply Exists_app. by left. Qed.

(** What it can rely on: it is given nothing but the messages, and it joins
    before anything is published. *)
Definition joins_at_zero h : Prop :=
  Forall (fun e => match e with (JoinConsumer _, AJoined x) => x ≤ 0 | _ => True end) h.

Definition consumer_given h : Prop := given N true 0 messages h ∧ joins_at_zero h.

(** It joins first, beats, and does not beat again before it has read. *)
Definition consumer_keeps (o : option (lossless_call Z)) h : Prop :=
  match o with
  | Some ConsumerBeat => beaten h → received N true 0 h ≠ []
  | _ => joins_first o h
  end.

Definition consumer_panics (name : string) : Prop := name = "open" ∨ name = "join_shmem".

#[local] Notation KC := (keeps (C := C) consumer_given consumer_keeps consumer_panics).

Lemma keeps_pop_wait n h xs :
  took N true 0 h xs → xs `prefix_of` messages →
  KC n pop_wait h (fun v h' => took N true 0 h' (xs ++ [v]) ∧ xs ++ [v] `prefix_of` messages).
Proof.
  intros Ht Hx. unfold pop_wait.
  apply (keeps_iter C _ _ _ _ _ (fun _ h => took N true 0 h xs)); [|done|exact Ht].
  intros m [] h1 _ _ Ht1. eapply keeps_bind.
  { apply (keeps_pop N true 0 messages consumer_keeps) with (xs := xs); try done. by intros ? []. }
  intros m1 o h2 _ _ Ho. apply keeps_ret; [done|]. by destruct o.
Qed.

Lemma keeps_pop_four n h :
  took N true 0 h [] →
  KC n (for_each (seqZ 0 4) (fun _ => _ ← pop_wait; mret tt)) h
    (fun _ h' => ∃ xs, took N true 0 h' xs ∧ xs `prefix_of` messages ∧ length xs = 4%nat).
Proof.
  intros Ht. eapply keeps_mono; [apply (keeps_for_each C _ _ _ _ (seqZ 0 4) _ (fun rest h' =>
    ∃ xs, took N true 0 h' xs ∧ xs `prefix_of` messages ∧ (length xs + length rest = 4)%nat))|done|].
  - done.
  - exists []. split_and!; [done|apply prefix_nil|done].
  - intros m x rest h1 _ (xs & Ht1 & Hx & Hl). eapply keeps_bind; [by apply keeps_pop_wait|].
    intros m1 v h2 _ _ [Ht2 Hx2]. apply keeps_ret; [done|]. exists (xs ++ [v]).
    split_and!; [done..|]. rewrite length_app. cbn in *. lia.
  - intros _ h' (xs & Ht1 & Hx & Hl). exists xs. cbn in Hl. split_and!; done || lia.
Qed.

(** A call that is not about elements. *)
Lemma keeps_took {X} n c (f : lossless_answer Z → option X) h xs :
  took N true 0 h xs → consumer_keeps (Some c) h →
  (∀ s a, received_step 0 s (c, a) = s) →
  KC n (expect (C := C) c f) h (fun _ h' => took N true 0 h' xs).
Proof.
  intros Ht Hc Hs. eapply keeps_mono; [by apply keeps_expect|done|].
  intros x h' (a & _ & -> & _). unfold took in *.
  cbn [call answer lossless]. by rewrite received_state_snoc, Ht, Hs.
Qed.

Lemma took_received h xs : took N true 0 h xs → xs ≠ [] → received N true 0 h ≠ [].
Proof. unfold took, received. intros -> Hx. by destruct xs. Qed.

(** [consumer_main] panics only if the system does not open the object, or it
    cannot join there; a consumer that has ended has read the messages. *)
Lemma consumer_main_keeps n : KC n consumer_main [] (fun _ h => took N true 0 h messages).
Proof.
  apply keeps_ask; [done|]. intros m1 opened _.
  eapply keeps_bind with (Φ := fun _ h => h = []).
  { destruct opened; [by apply keeps_ret|]. apply keeps_panic; [done|by left]. }
  intros m2 buffer h _ _ ->. eapply keeps_bind; [by apply keeps_expect|].
  intros m3 joined h _ _ (a & Ha & -> & _ & Hz).
  eapply keeps_bind with (Φ := fun _ h => took N true 0 h [] ∧ ¬ beaten h).
  { destruct joined; [|apply keeps_panic; [done|by right]]. apply keeps_ret; [done|].
    unfold joins_at_zero in Hz. cbn in Hz.
    pose proof (Forall_inv Hz) as Hx. split.
    - unfold took, received_state. cbn. destruct a; try done. cbn.
      by rewrite (Z2Nat.nonpos (x - 0)) by lia.
    - unfold beaten. cbn. rewrite Exists_cons, Exists_nil. cbn. by intros [|]. }
  intros m4 _ h _ _ [Ht Hb]. eapply keeps_bind; [apply keeps_took with (xs := []); [done|by intros ?|done]|].
  clear Ht Hb. intros m5 ? h1 _ _ Ht. eapply keeps_bind; [by apply keeps_pop_four|].
  clear Ht. intros m6 ? h2 _ _ (xs & Ht & Hx & Hl).
  assert (Hne : xs ≠ []) by (by intros ->).
  eapply keeps_bind; [apply keeps_took with (xs := xs); [done| |done]|].
  { intros _. by eapply took_received. }
  clear Ht. intros m7 ? h3 _ _ Ht.
  eapply keeps_bind with (Φ := fun _ h => took N true 0 h xs).
  { apply (keeps_wait C _ _ _ _ _ (fun h => took N true 0 h xs)); [done..|].
    intros m h4 _ Ht4. eapply keeps_mono; [by apply keeps_took with (xs := xs)|done|].
    intros b h5 Ht5. destruct b; exact Ht5. }
  intros m8 _ h4 _ _ Ht4. eapply keeps_bind; [by apply keeps_pop_wait with (xs := xs)|].
  intros m9 v h5 _ _ [Ht5 Hx5]. assert (xs ++ [v] = messages) as E.
  { destruct Hx5 as [us E]. rewrite E. destruct us; [by rewrite app_nil_r|].
    apply (f_equal length) in E. rewrite !length_app in E. cbn in E. lia. }
  rewrite E in Ht5. apply keeps_took; [done| |done].
  intros _. by eapply took_received.
Qed.
End Interprocess.
