(* ===== verification/LosslessConcurrent.v ===== *)
(** * The lossless protocol on one shared world

    The protocol of [LosslessProtocol] implemented for accesses that
    interleave on one [World], with crashes at any moment and processes that
    join again: the invariants of the shared counters and cells, and for each
    access what it keeps. *)

From S2P Require Import Prelude.
From S2P Require Import Rust.
From S2P Require Import Ring.
From S2P Require Import Errors.
From S2P Require Import Channel.
From S2P Require Import Join.
From S2P Require Import Concurrency.
From S2P Require Import LosslessProducer.
From S2P Require Import LosslessConsumer.
From S2P Require Import LosslessQueue.
From S2P Require Import LosslessReservation.
From S2P Require Import LosslessInterface.
From S2P Require Import LosslessProtocol.

(** ** Invariants *)

Section Proof.
Context {T : Type} {prof : Profile} (N : Z) (HN : capacity_ok N).
(** The position of the first value sent. *)
Context (t0 : Z) (Ht0 : 0 ≤ t0).
Implicit Types (w : World T) (p : Producer) (c : Consumer) (r : Reservation)
  (s vs : list T).

Let HN0 : 0 < N < usize_lim := capacity_ok_pos N HN.

(** The readable positions hold what was published and are not being
    written.  Memory without the magic number is still blank. *)
Record lossless_inv w : Prop := {
  li_alive : freed w = false;
  li_length : Z.of_nat (length (buffer (chan w))) = N;
  li_start : t0 ≤ tail (chan w);
  li_order : 0 ≤ head (chan w) ≤ tail (chan w);
  li_room : tail (chan w) ≤ head (chan w) + N;
  li_range : tail (chan w) < usize_lim;
  li_published : ∀ x, head (chan w) ≤ x < tail (chan w) →
    published w x = ring_get N (buffer (chan w)) x;
  li_quiet : ∀ x, head (chan w) ≤ x < tail (chan w) →
    begun w (slot N x) = ended w (slot N x);
  li_magic : (magic (chan w) = MAGIC ∧ capacity (chan w) = N) ∨
             (magic (chan w) = 0 ∧ tail (chan w) = 0 ∧ head (chan w) = 0)
}.

(** What the producer may do: it moves [tail] forward and writes only
    outside the readable positions; it sets up blank memory, once. *)
Record producer_guar w w' : Prop := {
  pg_head : head (chan w') = head (chan w);
  pg_tail : tail (chan w) ≤ tail (chan w');
  pg_published : ∀ x, x < tail (chan w) → published w' x = published w x;
  pg_cells : ∀ x, head (chan w) ≤ x < tail (chan w) →
    ring_get N (buffer (chan w')) x = ring_get N (buffer (chan w)) x ∧
    begun w' (slot N x) = begun w (slot N x);
  pg_magic : magic (chan w) = MAGIC →
    magic (chan w') = MAGIC ∧ capacity (chan w') = capacity (chan w)
}.

(** What the consumer may do: it moves [head] forward. *)
Record consumer_guar w w' : Prop := {
  cg_tail : tail (chan w') = tail (chan w);
  cg_head : head (chan w) ≤ head (chan w');
  cg_buffer : buffer (chan w') = buffer (chan w);
  cg_published : published w' = published w;
  cg_begun : begun w' = begun w;
  cg_ended : ended w' = ended w;
  cg_magic : magic (chan w') = magic (chan w);
  cg_capacity : capacity (chan w') = capacity (chan w)
}.

#[local] Instance consumer_guar_trans : Transitive consumer_guar.
Proof. intros w1 w2 w3 [] []. split; congruence || lia. Qed.

#[local] Instance producer_guar_trans : Transitive producer_guar.
Proof.
  intros w1 w2 w3 [H1 H2 H3 H4 H5] [K1 K2 K3 K4 K5].
  split; [congruence|lia|intros x Hx..|].
  - rewrite K3 by lia. by apply H3.
  - destruct (H4 x Hx) as [<- <-]. apply K4. lia.
  - intros Hm. destruct (H5 Hm) as [Hm' Hc]. destruct (K5 Hm'). split; congruence.
Qed.

(** *** The producer's side *)

(** [p] has sent [s]; the values [vs] have been written after them, to a
    reservation of [room] cells. *)
Record producer_inv p s vs (room : Z) w : Prop := {
  pi_tail : t0 ≤ tail (chan w) ≤ t0 + Z.of_nat (length s);
  pi_local : p_tail p = t0 + Z.of_nat (length s);
  pi_written : p_written p = p_tail p - tail (chan w);
  pi_vs : Z.of_nat (length vs) ≤ room ≤ N;
  pi_room : p_tail p + room ≤ head (chan w) + N;
  pi_range : p_tail p + room < usize_lim;
  pi_cells : ∀ k v, (s ++ vs) !! k = Some v → tail (chan w) ≤ t0 + Z.of_nat k →
    ring_get N (buffer (chan w)) (t0 + Z.of_nat k) = Some v;
  pi_published : ∀ k v, s !! k = Some v → t0 + Z.of_nat k < tail (chan w) →
    published w (t0 + Z.of_nat k) = Some v;
  pi_quiet : ∀ i, begun w i = ended w i;
  pi_magic : magic (chan w) = MAGIC
}.

(** *** The consumer's side *)

(** [c] has consumed [n] elements. *)
Record consumer_inv c (n : nat) w : Prop := {
  ci_head : c_head c = t0 + Z.of_nat n;
  ci_order : head (chan w) ≤ c_head c ≤ tail (chan w);
  ci_items : c_items_since_last_sync c = c_head c - head (chan w);
  ci_burst : c_items_since_last_sync c < burst_amount N;
  ci_magic : magic (chan w) = MAGIC
}.

(** *** The protocol *)

#[local] Instance sc_spsc : spsc (sc N) := {
  sp_safe := fun _ => race_free : ∀ X, act T X → mstate (sc N) → Prop;
  sp_inv := lossless_inv : mstate (sc N) → Prop;
  sp_tail := fun w : mstate (sc N) => tail (chan w);
  sp_published := fun w : mstate (sc N) => published w;
  sp_resting := fun w : mstate (sc N) => ∀ i, begun w i = ended w i;
  producer_move := producer_guar : mstate (sc N) → mstate (sc N) → Prop;
  consumer_move := consumer_guar : mstate (sc N) → mstate (sc N) → Prop;
  producer_owns := producer_inv;
  consumer_owns := consumer_inv;
  consumer_ready := fun c (w : mstate (sc N)) => c_head c < tail (chan w)
}.

#[local] Notation sent_published := (sent_published t0 (M := sc N) (P := sc_spsc)).
#[local] Notation producer_down := (producer_down t0 (M := sc N) (P := sc_spsc)).
#[local] Notation got_published := (got_published t0 (M := sc N) (P := sc_spsc)).
#[local] Notation WPP s := (wp (sc N) 0 (sp_safe 0) sp_inv (sent_published s)
  (producer_down s) consumer_move producer_move).
#[local] Notation WPC got := (wp (sc N) 1 (sp_safe 1) sp_inv (got_published got)
  (got_published got) producer_move consumer_move).

Lemma producer_inv_sent p s vs room w :
  producer_inv p s vs room w → sent_published s w.
Proof.
  intros []. split; cbn; [lia|]. intros k Hk.
  destruct (lookup_lt_is_Some_2 s k ltac:(lia)) as [v Hv].
  rewrite Hv. by apply pi_published0.
Qed.

Lemma producer_inv_down p s vs room w :
  producer_inv p s vs room w → producer_down s w.
Proof. intros P. split; [by eapply producer_inv_sent|exact (pi_quiet _ _ _ _ _ P)]. Qed.

Lemma producer_inv_stable p s vs room w w' :
  producer_inv p s vs room w → consumer_guar w w' → producer_inv p s vs room w'.
Proof.
  intros [] [Ht Hh Hb Hp Hbe He Hm Hc].
  split; rewrite ?Ht, ?Hb, ?Hp, ?Hbe, ?He, ?Hm; done || lia.
Qed.

Lemma sc_sent_stable s w w' :
  sent_published s w → consumer_guar w w' → sent_published s w'.
Proof. intros [] []. split; cbn; rewrite ?cg_tail0, ?cg_published0; done. Qed.

Lemma sc_later w w' : producer_guar w w' → later (w : mstate (sc N)) w'.
Proof. intros []. by split. Qed.

Lemma sc_down_stable s w w' :
  producer_down s w → consumer_guar w w' → producer_down s w'.
Proof.
  intros [Hs Hq] HG. split; [by eapply sc_sent_stable|].
  destruct HG. cbn. by rewrite cg_begun0, cg_ended0.
Qed.

Lemma consumer_inv_stable c n w w' :
  consumer_inv c n w → producer_guar w w' → consumer_inv c n w'.
Proof.
  intros [] []. split; rewrite ?pg_head0; done || lia.
Qed.

Lemma sc_got_stable got w w' :
  got_published got w → producer_guar w w' → got_published got w'.
Proof.
  intros H []. eapply Forall_impl; [exact H|]. cbn.
  intros [k v] [H1 H2]; cbn in *. split; [lia|]. by rewrite pg_published0.
Qed.

(** A crash at a moment when the producer is not writing. *)
Lemma producer_crash sj p s vs room w :
  producer_inv p s vs room w → sent_published sj w → producer_down sj w.
Proof. intros P HJ. split; [done|exact (pi_quiet _ _ _ _ _ P)]. Qed.

(** A free position and a readable one are in different cells. *)
Lemma slot_free_ne w x y :
  head (chan w) ≤ x < tail (chan w) → tail (chan w) ≤ y < head (chan w) + N →
  slot N y ≠ slot N x.
Proof. intros Hx Hy E. apply slot_window in E; lia. Qed.

Lemma write_begin_ok d y w :
  lossless_inv w → tail (chan w) ≤ y < head (chan w) + N →
  producer_guar w (do_write_begin (slot N y) d w) ∧
  lossless_inv (do_write_begin (slot N y) d w).
Proof.
  intros [] Hy. split; split; cbn; try done; intros x Hx;
    rewrite ?bump_ne by (by eapply slot_free_ne); auto.
Qed.

Lemma write_end_ok v y w :
  lossless_inv w → tail (chan w) ≤ y < head (chan w) + N →
  producer_guar w (do_write_end (slot N y) v w) ∧
  lossless_inv (do_write_end (slot N y) v w).
Proof.
  intros [] Hy. split; split; cbn; rewrite ?length_insert; try done; intros x Hx;
    rewrite ?ring_get_set_ne by lia;
    rewrite ?bump_ne by (by eapply slot_free_ne); auto.
Qed.

(** A store to a heartbeat does not concern the queue. *)
Lemma heartbeat_ok l v w :
  l = PRODUCER_HEARTBEAT ∨ l = CONSUMER_HEARTBEAT → lossless_inv w →
  producer_guar w (do_store N l v w) ∧ consumer_guar w (do_store N l v w) ∧
  lossless_inv (do_store N l v w).
Proof. intros [-> | ->] []; by split_and!; split. Qed.

Lemma release_ok w x :
  lossless_inv w → head (chan w) ≤ x ≤ tail (chan w) →
  consumer_guar w (do_store N HEAD x w) ∧ lossless_inv (do_store N HEAD x w).
Proof.
  intros [] Hx. split; split; cbn; try done; try lia; intros y Hy.
  - apply li_published0. lia.
  - apply li_quiet0. lia.
Qed.

(** Publishing: the store to [tail]. *)
Lemma publish_ok p s vs w :
  producer_inv p s vs 0 w → lossless_inv w →
  let w' := do_store N TAIL (p_tail p) w in
  producer_guar w w' ∧ lossless_inv w' ∧ sent_published s w' ∧
  producer_inv (producer_synced p) s [] 0 w'.
Proof.
  intros P HI w'. destruct P as [? Hl ? Hv ? ? Hcells Hpub Hq Hm].
  destruct vs as [|v vs]; [|cbn [length] in Hv; lia]. rewrite app_nil_r in Hcells.
  pose proof HI as [].
  assert (Hold : ∀ x, x < tail (chan w) → published w' x = published w x).
  { intros x Hx. apply published_store_old. lia. }
  assert (Hnew : ∀ x, tail (chan w) ≤ x < p_tail p →
    published w' x = ring_get N (buffer (chan w)) x).
  { intros x Hx. by apply published_store_new. }
  assert (Hall : ∀ k v, s !! k = Some v → published w' (t0 + Z.of_nat k) = Some v).
  { intros k v Hk. pose proof (lookup_lt_Some _ _ _ Hk).
    destruct (Z.lt_ge_cases (t0 + Z.of_nat k) (tail (chan w))).
    - rewrite Hold by done. by apply Hpub.
    - rewrite Hnew by lia. by apply Hcells. }
  split_and!.
  - split; cbn; try done; lia.
  - split; cbn; try done; try lia; [|by left; destruct li_magic0 as [|[? _]]; [|pose proof MAGIC_nonzero; congruence]].
    intros x Hx. change (published w' x = ring_get N (buffer (chan w)) x).
    destruct (Z.lt_ge_cases x (tail (chan w))); [|apply Hnew; lia].
    rewrite Hold by done. apply li_published0. lia.
  - split; [cbn; lia|]. intros k Hk.
    change (t0 + Z.of_nat k < p_tail p) in Hk. change (published w' (t0 + Z.of_nat k) = s !! k).
    destruct (lookup_lt_is_Some_2 s k ltac:(lia)) as [v Hv']. rewrite Hv'.
    by apply Hall.
  - split; cbn -[published]; rewrite ?app_nil_r; try done; try lia.
    + intros k v Hk ?. pose proof (lookup_lt_Some _ _ _ Hk). lia.
    + intros k v Hk _. by apply Hall.
Qed.

(** The reservation's values become sent values. *)
Lemma producer_inv_commit p s vs room w :
  producer_inv p s vs room w →
  producer_inv (producer_wrote p (Z.of_nat (length vs))) (s ++ vs) [] 0 w.
Proof.
  intros []. split; cbn; rewrite ?app_nil_r, ?length_zapp; try done; try lia.
  intros k v Hk Hlt. pose proof (lookup_lt_Some _ _ _ Hk).
  rewrite lookup_app_l in Hk by lia. by apply pi_published0.
Qed.

(** *** The producer's accesses *)

(** Loads change nothing. *)
Lemma sc_producer_load {A} sj p s l (k : Z → prog T A) Φ w :
  producer_inv p s [] 0 w →
  (∀ w', producer_inv p s [] 0 w' → lossless_inv w' → WPP sj (k (get_loc l (chan w'))) Φ w') →
  WPP sj (load l Acquire ≫= k) Φ w.
Proof.
  intros P Hk. apply wp_load. intros w1 HR HI HJ.
  pose proof (producer_inv_stable _ _ _ _ _ _ P HR) as P1.
  split_and!; [apply HI|done|by eapply producer_crash|]. by apply Hk.
Qed.

Lemma sc_load_head {A} sj p s (k : Z → prog T A) Φ w :
  producer_inv p s [] 0 w →
  (∀ head w', 0 ≤ head → head + p_written p ≤ p_tail p → p_tail p ≤ head + N →
     (∀ room, 0 ≤ room → p_tail p + room ≤ head + N → p_tail p + room < usize_lim →
              producer_inv p s [] room w') → WPP sj (k head) Φ w') →
  WPP sj (load HEAD Acquire ≫= k) Φ w.
Proof.
  intros P Hk. apply (sc_producer_load sj p s); [done|]. intros w1 P1 HI.
  pose proof (li_order _ HI). pose proof P1 as []. cbn [get_loc].
  apply Hk; [lia..|]. intros room H1 H2 H3. split; cbn; done || lia.
Qed.

(** Writing the next free cell, from beginning to end. *)
Lemma sc_write_cell {A} sj p s vs room d v (k : unit → prog T A) Φ w :
  producer_inv p s vs room w → Z.of_nat (length vs) < room →
  (∀ w', producer_inv p s (vs ++ [v]) room w' → WPP sj (k tt) Φ w') →
  let i := slot N (p_tail p + Z.of_nat (length vs)) in
  WPP sj (Do (WriteBegin i d) (fun _ => Do (WriteEnd i v) Ret) ≫= k) Φ w.
Proof.
  intros P Hlt Hk. cbn zeta. set (y := p_tail p + Z.of_nat (length vs)) in *.
  apply wp_write. intros w1 HR1 HI1 HJ1 w2.
  pose proof (producer_inv_stable _ _ _ _ _ _ P HR1) as P1.
  assert (Hy1 : tail (chan w1) ≤ y < head (chan w1) + N)
    by (subst y; destruct P1; lia).
  destruct (write_begin_ok d y w1 HI1 Hy1) as [HG2 HI2].
  split_and!; [apply HI1|apply slot_in_buffer, HI1; done|done| |done|done|done|].
  { by eapply producer_crash. }
  intros w3 HR3 HI3 HJ3. pose proof HR3 as [Et Hh Eb Ep Ebe Een Em _]. cbn in *.
  assert (Hy3 : tail (chan w3) ≤ y < head (chan w3) + N) by lia.
  assert (Hq3 : ∀ u j, begun (do_write_end (slot N y) u w3) j = ended (do_write_end (slot N y) u w3) j).
  { intros u j. cbn. rewrite Ebe, Een. unfold bump. rewrite (pi_quiet _ _ _ _ _ P1).
    by case_decide. }
  split_and!; [apply HI3|apply slot_in_buffer, HI3; done|done| |done|].
  { intros u. destruct (write_end_ok u y w3 HI3 Hy3). split_and!; [done|done|].
    split; [done|exact (Hq3 u)]. }
  apply Hk.
  pose proof (li_length _ HI3). pose proof (li_order _ HI1).
  destruct P1 as [? ? ? ? ? ? Hcells Hpub Hq].
  split; cbn; rewrite ?length_zapp, ?Et, ?Ep, ?Em; cbn; try done; try lia.
  - intros k' u Hk' Hge. rewrite app_assoc in Hk'.
    apply list_lookup_snoc_cases in Hk' as [Hk'|[-> ->]].
    + pose proof (lookup_lt_Some _ _ _ Hk') as Hl%inj_lt.
      rewrite length_zapp in Hl.
      rewrite ring_get_set_ne by (subst y; lia). rewrite Eb. by apply Hcells.
    + replace (t0 + Z.of_nat _) with y by (subst y; rewrite length_zapp; lia).
      apply ring_get_set_eq; [lia|done].
  - apply (Hq3 v).
Qed.

(** Dropping a value that was never in the buffer. *)
Lemma sc_producer_drop {A} sj p s vs room v (k : unit → prog T A) Φ w :
  producer_inv p s vs room w →
  (∀ w', producer_inv p s vs room w' → WPP sj (k tt) Φ w') →
  WPP sj (drop_value v ≫= k) Φ w.
Proof.
  intros P Hk. apply wp_drop_value. intros w1 HR HI HJ.
  pose proof (producer_inv_stable _ _ _ _ _ _ P HR) as P1.
  assert (HI' : lossless_inv (do_drop_value v w1)) by by destruct HI.
  split_and!; [apply HI|done|by eapply producer_crash|by split|done|done|].
  apply Hk. by destruct P1.
Qed.

Lemma sc_publish {A} sj p s (k : unit → prog T A) Φ w :
  producer_inv p s [] 0 w → (∀ w', sent_published s w' → sent_published sj w') →
  (∀ w', producer_inv (producer_synced p) s [] 0 w' → WPP sj (k tt) Φ w') →
  WPP sj (store TAIL Release (p_tail p) ≫= k) Φ w.
Proof.
  intros P HJ Hk. apply wp_store. intros w1 HR HI HJ1.
  pose proof (producer_inv_stable _ _ _ _ _ _ P HR) as P1.
  destruct (publish_ok p s [] w1 P1 HI) as (HG & HI' & Hs & P').
  split_and!; [apply HI|done|by eapply producer_crash|done|done|by apply HJ|]. by apply Hk.
Qed.

Lemma sc_producer_bump {A} sj p s (k : Z → prog T A) Φ w :
  producer_inv p s [] 0 w →
  (∀ b w', producer_inv p s [] 0 w' → WPP sj (k b) Φ w') →
  WPP sj (fetch_add PRODUCER_HEARTBEAT Release 1 ≫= k) Φ w.
Proof.
  intros P Hk. apply wp_fetch_add. intros w1 HR HI HJ.
  pose proof (producer_inv_stable _ _ _ _ _ _ P HR) as P1.
  split_and!; [apply HI|done|by eapply producer_crash|]. intros w2 ->.
  edestruct (heartbeat_ok PRODUCER_HEARTBEAT) as (HG & HC & HI'); [by left|done|].
  pose proof (sc_sent_stable _ _ _ HJ HC).
  split_and!; [done..|]. apply Hk. by eapply producer_inv_stable.
Qed.
(** *** The consumer's accesses *)

Lemma sc_consumer_load {A} got c n l (k : Z → prog T A) Φ w :
  consumer_inv c n w →
  (∀ w', lossless_inv w' → later w w' → consumer_inv c n w' → got_published got w' →
     WPC got (k (get_loc l (chan w'))) Φ w') →
  WPC got (load l Acquire ≫= k) Φ w.
Proof.
  intros P Hk. apply wp_load. intros w1 HR HI HJ.
  pose proof (consumer_inv_stable _ _ _ _ P HR) as P1.
  split_and!; [apply HI|done|done|]. apply Hk; [done| |done|done]. by apply sc_later.
Qed.

(** The read of the cell at the local head is not torn. *)
Lemma sc_read_cell {A} got c n (k : T → prog T A) Φ w :
  consumer_inv c n w → c_head c < tail (chan w) →
  (∀ v w', lossless_inv w' → later w w' → consumer_inv c n w' → c_head c < tail (chan w') →
     got_published [(n, v)] w' → WPC got (k v) Φ w') →
  WPC got (read_cell (slot N (c_head c)) ≫= k) Φ w.
Proof.
  intros P Hlt Hk. set (i := slot N (c_head c)) in *. apply wp_read. intros w1 HR1 HI1 HJ1.
  pose proof (consumer_inv_stable _ _ _ _ P HR1) as P1.
  assert (Hr1 : head (chan w1) ≤ c_head c < tail (chan w1))
    by (destruct P1, HR1; lia).
  pose proof (li_quiet _ HI1 _ Hr1) as Hq1.
  split_and!; [apply HI1|done|done|].
  intros w3 HR3 HI3 HJ3. pose proof (consumer_inv_stable _ _ _ _ P1 HR3) as P3.
  assert (Hr3 : head (chan w3) ≤ c_head c < tail (chan w3))
    by (destruct P3, HR3; lia).
  destruct (pg_cells _ _ HR3 _ Hr1) as [Hg3 Hb3]. fold i in Hb3, Hq1.
  split; [apply HI3|]. split; [by split|]. split_and!; [done| |].
  - apply (ring_get_is_Some N ltac:(lia)), HI3.
  - intros v Hclean. apply Hk; [done| |done|lia|].
    + apply sc_later. by etrans.
    + apply Forall_singleton. cbn. rewrite <- (ci_head _ _ _ P). split; [lia|].
      rewrite (li_published _ HI3) by done. by apply Hclean.
Qed.

Lemma sc_release {A} got c n (k : unit → prog T A) Φ w :
  consumer_inv c n w → c_head c < tail (chan w) →
  (∀ w', later w w' → consumer_inv (consumer_next c 0) (S n) w' → WPC got (k tt) Φ w') →
  WPC got (store HEAD Release (c_head c + 1) ≫= k) Φ w.
Proof.
  intros P Hlt Hk. pose proof P as []. pose proof (burst_amount_bounds N ltac:(lia)).
  apply wp_store. intros w1 HR HI1 HJ1. pose proof HR as [].
  destruct (release_ok w1 (c_head c + 1) HI1) as [HG2 HI2]; [lia|].
  split_and!; [apply HI1|done|done|done|done|exact HJ1|].
  apply Hk; [exact (sc_later _ _ HR)|]. split; cbn; done || lia.
Qed.

Lemma sc_consumer_bump {A} got c n (k : Z → prog T A) Φ w :
  consumer_inv c n w →
  (∀ b w', later w w' → consumer_inv c n w' → WPC got (k b) Φ w') →
  WPC got (fetch_add CONSUMER_HEARTBEAT Release 1 ≫= k) Φ w.
Proof.
  intros P Hk. apply wp_fetch_add. intros w1 HR HI HJ.
  pose proof (consumer_inv_stable _ _ _ _ P HR) as P1.
  split_and!; [apply HI|done|done|]. intros w2 ->.
  edestruct (heartbeat_ok CONSUMER_HEARTBEAT) as (HG & HC & HI'); [by right|done|].
  split_and!; [done|done|exact HJ|]. apply Hk; [exact (sc_later _ _ HR)|].
  by eapply consumer_inv_stable.
Qed.

(** *** Joining *)

(** A store of the set-up of blank memory, before the magic number. *)
Definition setup_store (l : loc) (v : Z) : Prop :=
  (l = TAIL ∧ v = 0) ∨ l = PRODUCER_HEARTBEAT ∨ l = CONSUMER_HEARTBEAT ∨ l = CAPACITY.

Lemma setup_ok l v s w :
  setup_store l v → lossless_inv w → magic (chan w) = 0 → producer_down s w →
  let w' := do_store N l v w in
  producer_guar w w' ∧ lossless_inv w' ∧ magic (chan w') = 0 ∧ producer_down s w'.
Proof.
  intros Hl HI Hm [[Ht Hp] Hq] w'. pose proof MAGIC_nonzero as Hz. pose proof HI as [].
  destruct li_magic0 as [[Em _]|[_ [Et Eh]]]; [congruence|].
  assert (Hpub : ∀ x, published w' x = published w x)
    by (intros x; destruct Hl as [[-> ->]|[-> |[-> | ->]]]; [apply published_store_same; lia|done..]).
  assert (tail (chan w') = tail (chan w) ∧ head (chan w') = head (chan w) ∧
          magic (chan w') = magic (chan w)) as (Et' & Eh' & Em')
    by (destruct Hl as [[-> ->]|[-> |[-> | ->]]]; by rewrite ?Et).
  assert (HD' : producer_down s w').
  { split; [split|exact Hq]; cbn -[published do_store]; fold w'; rewrite ?Et'; [done|].
    intros k Hk. rewrite Hpub. by apply Hp. }
  split_and!; [split|split|congruence|exact HD']; rewrite ?Et', ?Eh', ?Em'; try done; try lia.
  by destruct Hl as [[-> ->]|[-> |[-> | ->]]].
Qed.

Lemma sc_setup {A} l v s (k : unit → prog T A) Φ w :
  setup_store l v → producer_down s w → magic (chan w) = 0 →
  (∀ w', producer_down s w' → magic (chan w') = 0 →
     (l = CAPACITY → capacity (chan w') = v) → WPP s (k tt) Φ w') →
  WPP s (store l Release v ≫= k) Φ w.
Proof.
  intros Hl HD Hm Hk. apply wp_store. intros w1 HR HI HJ.
  pose proof (sc_down_stable _ _ _ HD HR) as HD1.
  rewrite <- (cg_magic _ _ HR) in Hm.
  destruct (setup_ok l v s w1 Hl HI Hm HD1) as (HG & HI' & Hm' & HD').
  split_and!; [apply HI|done|done|done|done|apply HD'|].
  apply Hk; [done|done|]. by intros ->.
Qed.

(** A producer that has joined goes on after the last value published. *)
Lemma producer_inv_joined b s last w :
  lossless_inv w → magic (chan w) = MAGIC → producer_down s w →
  producer_inv (mkProducer b (tail (chan w)) 0 last)
    (take (Z.to_nat (tail (chan w) - t0)) s) [] 0 w.
Proof.
  intros [] Hm [[Ht Hp] Hq]. cbn in Ht, Hp, Hq. pose proof (length_take s (Z.to_nat (tail (chan w) - t0))).
  split; cbn; rewrite ?app_nil_r; try done; try lia.
  - intros k v Hk Hle. apply lookup_lt_Some in Hk. lia.
  - intros k v Hk Hlt. apply lookup_take_Some in Hk as [Hk _]. by rewrite Hp.
Qed.

Lemma sc_join_producer b s w Φ :
  mapped_at b = true → producer_down s w →
  (∀ p w', p_written p = 0 → producer_inv p (take (Z.to_nat (p_tail p - t0)) s) [] 0 w' →
           Φ (Ok p) w') →
  WPP s (join_or_create_mapped N b) Φ w.
Proof.
  intros Hb HD HΦ. destruct (mapped_at_true b Hb) as [Hb0 _]. pose proof MAGIC_nonzero as Hz.
  unfold join_or_create_mapped. apply wp_load. intros w1 HR1 HI1 HJ1.
  pose proof (sc_down_stable _ _ _ HD HR1) as HD1.
  change (get_loc MAGIC_WORD (chan w1)) with (magic (chan w1)).
  split_and!; [apply HI1|done|done|]. apply wp_load. intros w2 HR2 HI2 HJ2.
  pose proof (sc_down_stable _ _ _ HD1 HR2) as HD2.
  change (get_loc CAPACITY (chan w2)) with (capacity (chan w2)).
  split_and!; [apply HI2|done|done|]. rewrite <- (cg_magic _ _ HR2).
  destruct (li_magic _ HI2) as [(Em & Ec)|(Em & Et & Eh)]; rewrite Em.
  - rewrite Ec, !Z.eqb_refl. cbn [negb].
    eapply wp_lift; [by apply NonNull_new_unwrap_val|].
    apply wp_load. intros w3 HR3 HI3 HJ3.
    pose proof (sc_down_stable _ _ _ HD2 HR3) as HD3.
    change (get_loc TAIL (chan w3)) with (tail (chan w3)).
    split_and!; [apply HI3|done|done|]. apply wp_load. intros w4 HR4 HI4 HJ4.
    split_and!; [apply HI4|done|by eapply sc_down_stable|]. apply wp_ret, HΦ; [done|].
    rewrite <- (cg_tail _ _ HR4). apply producer_inv_joined; [done| |].
    + rewrite (cg_magic _ _ HR4), (cg_magic _ _ HR3). done.
    + by eapply sc_down_stable.
  - rewrite (proj2 (Z.eqb_neq 0 MAGIC)) by congruence. cbn [Z.eqb].
    apply (sc_setup _ _ s); [by left|done|done|]. intros w3 HD3 Em3 _.
    apply (sc_setup _ _ s); [by right; left|done|done|]. intros w4 HD4 Em4 _.
    apply (sc_setup _ _ s); [by right; right; left|done|done|]. intros w5 HD5 Em5 _.
    apply (sc_setup _ _ s); [by right; right; right|done|done|].
    intros w6 HD6 Em6 Ec6. specialize (Ec6 eq_refl).
    apply wp_store. intros w7 HR7 HI7 HJ7.
    pose proof (sc_down_stable _ _ _ HD6 HR7) as HD7.
    rewrite <- (cg_magic _ _ HR7) in Em6. rewrite <- (cg_capacity _ _ HR7) in Ec6.
    destruct (li_magic _ HI7) as [[? _]|[_ [Et7 Eh7]]]; [congruence|].
    assert (HI8 : lossless_inv (do_store N MAGIC_WORD MAGIC w7))
      by (destruct HI7; split; try done; by left).
    split_and!; [apply HI7|done|done| |done|done|].
    { split; cbn; done || congruence || lia. }
    eapply wp_lift; [by apply NonNull_new_unwrap_val|].
    apply wp_load. intros w9 HR9 HI9 HJ9.
    assert (HD9 : producer_down s w9)
      by (eapply sc_down_stable; [|exact HR9]; exact HD7).
    split_and!; [apply HI9|done|done|]. apply wp_ret, HΦ; [done|].
    assert (P : magic (chan w9) = MAGIC) by by rewrite (cg_magic _ _ HR9).
    apply (producer_inv_joined b s (get_loc CONSUMER_HEARTBEAT (chan w9)) w9 HI9) in P; [|done].
    replace (tail (chan w9)) with 0 in P by (rewrite (cg_tail _ _ HR9); by rewrite <- Et7).
    exact P.
Qed.

Lemma sc_join_consumer b got Φ w :
  mapped_at b = true →
  (∀ c w', later w w' → c_head c ≤ tail (chan w') →
           consumer_inv c (Z.to_nat (c_head c - t0)) w' → Φ (Ok c) w') →
  (∀ e w', later w w' → Φ (Err e) w') →
  WPC got (join ShmemMode N b) Φ w.
Proof.
  intros Hb HΦ Herr. destruct (mapped_at_true b Hb) as [_ Hb128].
  unfold join. rewrite check_join_ok by done.
  apply wp_load. intros w1 HR1 HI1 HJ1.
  change (get_loc MAGIC_WORD (chan w1)) with (magic (chan w1)).
  split_and!; [apply HI1|done|done|]. apply wp_load. intros w2 HR2 HI2 HJ2.
  assert (HR02 : producer_guar w w2) by by etrans.
  change (get_loc CAPACITY (chan w2)) with (capacity (chan w2)).
  split_and!; [apply HI2|done|done|].
  destruct (Z.eqb_spec (magic (chan w1)) MAGIC) as [Em|_];
    [|bool_case; by apply wp_ret, Herr, sc_later].
  destruct (pg_magic w1 w2 HR2 Em) as [Em2 _].
  destruct (li_magic w2 HI2) as [[_ Ec]|[? _]]; [|pose proof MAGIC_nonzero; congruence].
  rewrite Ec, Z.eqb_refl. cbn [negb]. apply wp_load. intros w3 HR3 HI3 HJ3.
  change (get_loc TAIL (chan w3)) with (tail (chan w3)).
  split_and!; [apply HI3|done|done|]. pose proof (li_order w3 HI3). pose proof (li_start w3 HI3).
  apply wp_store. intros w4 HR4 HI4 HJ4. pose proof HR4 as [].
  assert (HR04 : producer_guar w w4) by (etrans; [exact HR02|by etrans]).
  destruct (release_ok w4 (tail (chan w3)) HI4) as [HG4 HI5]; [lia|].
  assert (Em4 : magic (chan w4) = MAGIC).
  { destruct (pg_magic w2 w3 HR3 Em2) as [? _]. by destruct (pg_magic w3 w4 HR4). }
  split_and!; [apply HI4|done|done|done|done|exact HJ4|].
  cbn [BACKED_BY_ARCC]. apply wp_load. intros w6 HR6 HI6 HJ6. pose proof HR6 as [].
  split_and!; [apply HI6|done|done|].
  pose proof (burst_amount_bounds N ltac:(lia)). apply wp_ret, HΦ.
  - etrans; [exact (sc_later _ _ HR04)|exact (sc_later _ _ HR6)].
  - cbn in *. lia.
  - cbn in *. split; cbn; done || lia.
Qed.

#[local] Instance sc_spsc_laws shared : spsc_laws N t0 shared (sc N).
Proof.
  split.
  - exact producer_guar_trans.
  - exact consumer_guar_trans.
  - by split.
  - by split.
  - apply sc_later.
  - intros w w' []. split_and!; cbn; congruence.
  - exact producer_inv_stable.
  - exact consumer_inv_stable.
  - intros c w w' H []. cbn in *. lia.
  - exact producer_inv_down.
  - intros p s vs room w []. lia.
  - intros c n w []. cbn. lia.
  - intros c w [] H. cbn in *. lia.
  - by intros p s vs room b w [].
  - exact producer_inv_commit.
  - intros p s vs room w []. split; cbn; rewrite ?app_nil_r; try done; try lia.
    intros k v Hk. apply pi_cells0. by apply lookup_app_l_Some.
  - by intros c n b w [].
  - intros c n w [] Hr Hb. cbn in *. split; cbn; done || lia.
  - exact @sc_load_head.
  - exact @sc_write_cell.
  - exact @sc_producer_drop.
  - exact @sc_publish.
  - intros A sj p s k Φ w O Hk. apply (sc_producer_load sj p s); [done|]. intros. by apply Hk.
  - exact @sc_producer_bump.
  - intros A got c n k Φ w O Hk. apply (sc_consumer_load got c n); [done|].
    intros. by apply Hk.
  - exact @sc_read_cell.
  - exact @sc_release.
  - intros A got c n k Φ w O Hk. apply (sc_consumer_load got c n); [done|].
    intros. by apply Hk.
  - exact @sc_consumer_bump.
  - intros b s Φ w _. apply sc_join_producer.
  - intros b got Φ w _. apply sc_join_consumer.
Qed.
End Proof.
