(* ===== verification/LosslessWeak.v ===== *)
(** * The lossless protocol on a release/acquire memory

    The protocol of [LosslessProtocol] implemented for the memory of
    [WeakMemory]: the release stores to [tail] and [head] and the acquire
    loads of them carry enough of the two views for no access of a cell to
    race with another, and for every read to find the value sent, although
    both sides may see old values of all counters. *)

From S2P Require Import Prelude.
From S2P Require Import Rust.
From S2P Require Import Ring.
From S2P Require Import Errors.
From S2P Require Import Channel.
From S2P Require Import Join.
From S2P Require Import Concurrency.
From S2P Require Import WeakMemory.
From S2P Require Import LosslessProducer.
From S2P Require Import LosslessConsumer.
From S2P Require Import LosslessQueue.
From S2P Require Import LosslessReservation.
From S2P Require Import LosslessInterface.
From S2P Require Import LosslessProtocol.

(** ** Histories of a location *)

(** The values stored only grow. *)
Definition rising (ms : list message) : Prop :=
  ∀ k1 k2 m1 m2, (k1 ≤ k2)%nat → ms !! k1 = Some m1 → ms !! k2 = Some m2 →
    m_value m1 ≤ m_value m2.

Section Newest.
Context {T : Type}.
Implicit Types (w : Weak T).

Lemma newest_same l w w' : msgs w' l = msgs w l → newest l w' = newest l w.
Proof. unfold newest. by intros ->. Qed.

Lemma newest_rising l w k m :
  rising (msgs w l) → msgs w l !! k = Some m → m_value m ≤ newest l w.
Proof.
  intros Hr Hk. pose proof (lookup_lt_Some _ _ _ Hk). unfold newest. rewrite last_lookup.
  destruct (msgs w l !! pred (length (msgs w l))) as [m'|] eqn:E.
  - eapply Hr; [|done..]. lia.
  - apply lookup_ge_None in E. lia.
Qed.

Lemma rising_snoc l w v V :
  rising (msgs w l) → newest l w ≤ v → rising (msgs w l ++ [mkMessage v V]).
Proof.
  intros Hr Hv k1 k2 m1 m2 Hle H1 H2. apply list_lookup_snoc_cases in H2 as [H2|[-> <-]].
  - pose proof (lookup_lt_Some _ _ _ H2). rewrite lookup_app_l in H1 by lia.
    by apply (Hr k1 k2).
  - apply list_lookup_snoc_cases in H1 as [H1|[_ <-]]; cbn; [|lia].
    pose proof (newest_rising _ _ _ _ Hr H1). lia.
Qed.
End Newest.

(** ** Invariants *)

Section Proof.
Context {T : Type} {prof : Profile} (N : Z) (HN : capacity_ok N).
(** The position of the first value sent. *)
Context (t0 : Z) (Ht0 : 0 ≤ t0).
Implicit Types (w : Weak T) (p : Producer) (c : Consumer) (s vs : list T) (V : view).

Let HN0 : 0 < N < usize_lim := capacity_ok_pos N HN.

#[local] Notation tail := (newest TAIL).
#[local] Notation head := (newest HEAD).
#[local] Notation slot := (slot N).
#[local] Arguments Ring.slot : simpl never.

(** A view of what has happened. *)
Record view_ok w V : Prop := {
  vo_msg : ∀ l, (v_msg V l < length (msgs w l))%nat;
  vo_writes : ∀ x, (v_writes V (slot x) < length (values w (slot x)))%nat
}.

(** The readable positions hold what was published and are not being written.
    Who reads a message of [tail] knows of the writes of the positions below
    it, and who reads a message of [head] of the reads of the cells it gives
    back. *)
Record weak_inv w : Prop := {
  wi_views : ∀ i, view_ok w (views w i);
  wi_msgs : ∀ l k m, msgs w l !! k = Some m → view_ok w (m_view m);
  wi_start : t0 ≤ tail w;
  wi_order : 0 ≤ head w ≤ tail w;
  wi_room : tail w ≤ head w + N;
  wi_range : tail w < usize_lim;
  wi_rising : rising (msgs w TAIL) ∧ rising (msgs w HEAD);
  wi_positive : ∀ k m, msgs w HEAD !! k = Some m → 0 ≤ m_value m;
  wi_published : ∀ x, head w ≤ x < tail w →
    weak_published w x = last (values w (slot x));
  wi_quiet : ∀ x, head w ≤ x < tail w →
    length (values w (slot x)) = S (writes w (slot x));
  wi_tail_view : ∀ k m x, msgs w TAIL !! k = Some m → head w ≤ x < m_value m →
    (writes w (slot x) ≤ v_writes (m_view m) (slot x))%nat;
  wi_head_view : ∀ k m y, msgs w HEAD !! k = Some m → tail w ≤ y < m_value m + N →
    (reads w 1 (slot y) ≤ v_reads (m_view m) 1 (slot y))%nat;
  wi_reads : ∀ j i, j ≠ 1%nat → reads w j i = 0%nat
}.

(** What the producer may do: store to [tail], and write outside the readable
    positions. *)
Record weak_producer_guar w w' : Prop := {
  wpg_view : views w' 1 = views w 1;
  wpg_head : msgs w' HEAD = msgs w HEAD;
  wpg_beat : msgs w' CONSUMER_HEARTBEAT = msgs w CONSUMER_HEARTBEAT;
  wpg_reads : ∀ j i, reads w' j i = reads w j i;
  wpg_tail : msgs w TAIL `prefix_of` msgs w' TAIL;
  wpg_le : tail w ≤ tail w';
  wpg_published : ∀ x, x < tail w → weak_published w' x = weak_published w x;
  wpg_cells : ∀ x, head w ≤ x < tail w →
    values w' (slot x) = values w (slot x) ∧ writes w' (slot x) = writes w (slot x)
}.

(** What the consumer may do: store to [head], and read readable positions. *)
Record weak_consumer_guar w w' : Prop := {
  wcg_view : views w' 0 = views w 0;
  wcg_tail : msgs w' TAIL = msgs w TAIL;
  wcg_beat : msgs w' PRODUCER_HEARTBEAT = msgs w PRODUCER_HEARTBEAT;
  wcg_values : ∀ i, values w' i = values w i;
  wcg_writes : ∀ i, writes w' i = writes w i;
  wcg_published : ∀ x, weak_published w' x = weak_published w x;
  wcg_head : msgs w HEAD `prefix_of` msgs w' HEAD;
  wcg_le : head w ≤ head w';
  wcg_reads : ∀ y, tail w ≤ y < head w + N → reads w' 1 (slot y) = reads w 1 (slot y)
}.

#[local] Instance weak_producer_guar_trans : Transitive weak_producer_guar.
Proof.
  intros w1 w2 w3 [] []. split; try congruence; try lia.
  - by etrans.
  - intros x Hx. rewrite wpg_published1 by lia. by apply wpg_published0.
  - intros x Hx. destruct (wpg_cells0 x Hx) as [<- <-]. apply wpg_cells1.
    rewrite (newest_same HEAD _ _ wpg_head0). lia.
Qed.

#[local] Instance weak_consumer_guar_trans : Transitive weak_consumer_guar.
Proof.
  intros w1 w2 w3 [] []. split; try congruence; try lia.
  - by etrans.
  - intros y Hy. rewrite wcg_reads1; [by apply wcg_reads0|].
    rewrite (newest_same TAIL _ _ wcg_tail0). lia.
Qed.

(** [p] has sent [s] and has written [vs] to a reservation of [room] cells. *)
Record weak_producer_inv p s vs (room : Z) w : Prop := {
  pi_tail : t0 ≤ tail w ≤ t0 + Z.of_nat (length s);
  pi_local : p_tail p = t0 + Z.of_nat (length s);
  pi_written : p_written p = p_tail p - tail w;
  pi_vs : Z.of_nat (length vs) ≤ room ≤ N;
  pi_range : p_tail p + room < usize_lim;
  pi_room : p_tail p + room ≤ head w + N;
  pi_known : ∃ m, msgs w HEAD !! v_msg (views w 0) HEAD = Some m ∧
                  p_tail p + room ≤ m_value m + N;
  pi_cells : ∀ k v, (s ++ vs) !! k = Some v → tail w ≤ t0 + Z.of_nat k →
    last (values w (slot (t0 + Z.of_nat k))) = Some v;
  pi_published : ∀ k v, s !! k = Some v → t0 + Z.of_nat k < tail w →
    weak_published w (t0 + Z.of_nat k) = Some v;
  pi_quiet : ∀ x, length (values w (slot x)) = S (writes w (slot x));
  pi_writes : ∀ x, (writes w (slot x) ≤ v_writes (views w 0) (slot x))%nat;
  pi_reads : ∀ y, tail w ≤ y < p_tail p + room →
    (reads w 1 (slot y) ≤ v_reads (views w 0) 1 (slot y))%nat;
  pi_own : length (msgs w TAIL) = S (v_msg (views w 0) TAIL) ∧
           length (msgs w PRODUCER_HEARTBEAT) = S (v_msg (views w 0) PRODUCER_HEARTBEAT)
}.

(** [c] has consumed [n] elements. *)
Record weak_consumer_inv c (n : nat) w : Prop := {
  ci_head : c_head c = t0 + Z.of_nat n;
  ci_order : head w ≤ c_head c;
  ci_known : ∃ m, msgs w TAIL !! v_msg (views w 1) TAIL = Some m ∧ c_head c ≤ m_value m;
  ci_items : c_items_since_last_sync c = c_head c - head w;
  ci_burst : c_items_since_last_sync c < burst_amount N;
  ci_reads : ∀ i, (reads w 1 i ≤ v_reads (views w 1) 1 i)%nat;
  ci_own : length (msgs w HEAD) = S (v_msg (views w 1) HEAD) ∧
           length (msgs w CONSUMER_HEARTBEAT) = S (v_msg (views w 1) CONSUMER_HEARTBEAT)
}.

(** It knows that the element at its head is there. *)
Record weak_ready c w : Prop := {
  rd_order : head w ≤ c_head c < tail w;
  rd_known : ∃ m, msgs w TAIL !! v_msg (views w 1) TAIL = Some m ∧ c_head c < m_value m;
  rd_writes : (writes w (slot (c_head c)) ≤ v_writes (views w 1) (slot (c_head c)))%nat
}.

(** ** The protocol *)

#[local] Instance weak_spsc : spsc (weak N) := {
  sp_safe := fun i X a (w : mstate (weak N)) => weak_race_free i X a w;
  sp_inv := weak_inv : mstate (weak N) → Prop;
  sp_tail := fun w : mstate (weak N) => tail w;
  sp_published := fun w : mstate (weak N) => weak_published w;
  sp_resting := fun w : mstate (weak N) => True;
  producer_move := weak_producer_guar : mstate (weak N) → mstate (weak N) → Prop;
  consumer_move := weak_consumer_guar : mstate (weak N) → mstate (weak N) → Prop;
  producer_owns := weak_producer_inv;
  consumer_owns := weak_consumer_inv;
  consumer_ready := weak_ready
}.

#[local] Notation sent_published := (sent_published t0 (M := weak N) (P := weak_spsc)).
#[local] Notation producer_down := (producer_down t0 (M := weak N) (P := weak_spsc)).
#[local] Notation got_published := (got_published t0 (M := weak N) (P := weak_spsc)).
#[local] Notation WPP s := (wp (weak N) 0 (sp_safe 0) sp_inv (sent_published s)
  (producer_down s) consumer_move producer_move).
#[local] Notation WPC got := (wp (weak N) 1 (sp_safe 1) sp_inv (got_published got)
  (got_published got) producer_move consumer_move).
(** *** Stability *)

Lemma weak_producer_stable p s vs room w w' :
  weak_producer_inv p s vs room w → weak_consumer_guar w w' →
  weak_producer_inv p s vs room w'.
Proof.
  intros [] []. pose proof (newest_same TAIL _ _ wcg_tail0) as Et.
  split; rewrite ?Et, ?wcg_view0, ?wcg_tail0, ?wcg_beat0; try done; try lia.
  - destruct pi_known0 as (m & Hm & Hle). exists m. split; [|done].
    by eapply prefix_lookup_Some.
  - intros k v Hk Hle. rewrite wcg_values0. by apply pi_cells0.
  - intros k v Hk Hlt. rewrite wcg_published0. by apply pi_published0.
  - intros x. by rewrite wcg_values0, wcg_writes0.
  - intros x. by rewrite wcg_writes0.
  - intros y Hy. rewrite wcg_reads0 by lia. by apply pi_reads0.
Qed.

Lemma weak_consumer_stable c n w w' :
  weak_consumer_inv c n w → weak_producer_guar w w' → weak_consumer_inv c n w'.
Proof.
  intros [] []. pose proof (newest_same HEAD _ _ wpg_head0) as Eh.
  split; rewrite ?Eh, ?wpg_view0, ?wpg_head0, ?wpg_beat0; try done.
  - destruct ci_known0 as (m & Hm & Hle). exists m. split; [|done].
    by eapply prefix_lookup_Some.
  - intros i. by rewrite wpg_reads0.
Qed.

Lemma weak_ready_stable c w w' :
  weak_ready c w → weak_producer_guar w w' → weak_ready c w'.
Proof.
  intros [] []. pose proof (newest_same HEAD _ _ wpg_head0) as Eh.
  destruct (wpg_cells0 _ rd_order0) as [_ Ew].
  split; rewrite ?Eh, ?wpg_view0, ?Ew; [lia| |done].
  destruct rd_known0 as (m & Hm & Hle). exists m. split; [|done].
  by eapply prefix_lookup_Some.
Qed.

(** *** Taking over a view *)

Lemma view_ok_grows w w' V :
  (∀ l, (length (msgs w l) ≤ length (msgs w' l))%nat) →
  (∀ x, (length (values w (slot x)) ≤ length (values w' (slot x)))%nat) →
  view_ok w V → view_ok w' V.
Proof.
  intros Hm Hv []. split; [intros l; specialize (Hm l); specialize (vo_msg0 l)
    |intros x; specialize (Hv x); specialize (vo_writes0 x)]; lia.
Qed.

Lemma view_ok_join w V W : view_ok w V → view_ok w W → view_ok w (view_join V W).
Proof.
  intros [Vm Vw] [Wm Ww]. split; cbn; intros x;
    [specialize (Vm x); specialize (Wm x)|specialize (Vw x); specialize (Ww x)]; lia.
Qed.

Lemma view_ok_load w l k m V :
  weak_inv w → msgs w l !! k = Some m → view_ok w V →
  view_ok w (view_load l Acquire k m V).
Proof.
  intros HI Hk []. pose proof (lookup_lt_Some _ _ _ Hk).
  apply view_ok_join; [|by eapply wi_msgs]. split; [|done]. intros x. cbn.
  specialize (vo_msg0 x). case_decide; subst; lia.
Qed.

Lemma weak_inv_view i V w : weak_inv w → view_ok w V → weak_inv (with_view i V w).
Proof.
  intros [] HV. split; try done.
  - intros j. apply (view_ok_grows w); [done|done|]. cbn. by case_decide.
  - intros l k m Hk. apply (view_ok_grows w); [done|done|]. by eapply wi_msgs0.
Qed.

Lemma weak_producer_view p s vs room w V :
  weak_inv w → weak_producer_inv p s vs room w → view_le (views w 0) V → view_ok w V →
  weak_producer_inv p s vs room (with_view 0 V w).
Proof.
  intros HI [] [Hm Hw Hr] [Hvm _]. split; try done.
  - destruct pi_known0 as (m & Hk & Hle).
    destruct (lookup_lt_is_Some_2 _ _ (Hvm HEAD)) as [m' Hk']. exists m'. split; [done|].
    destruct (wi_rising _ HI) as [_ Hrise].
    pose proof (Hrise _ _ _ _ (Hm HEAD) Hk Hk'). lia.
  - intros x. specialize (pi_writes0 x). specialize (Hw (slot x)). rewrite views_with_view. cbn. lia.
  - intros y Hy. specialize (pi_reads0 y Hy). specialize (Hr 1%nat (slot y)). rewrite views_with_view. cbn. lia.
  - rewrite views_with_view. cbn. pose proof (Hm TAIL). pose proof (Hvm TAIL). pose proof (Hm PRODUCER_HEARTBEAT).
    pose proof (Hvm PRODUCER_HEARTBEAT). lia.
Qed.

Lemma weak_consumer_view c n w V :
  weak_inv w → weak_consumer_inv c n w → view_le (views w 1) V → view_ok w V →
  weak_consumer_inv c n (with_view 1 V w).
Proof.
  intros HI [] [Hm Hw Hr] [Hvm _]. split; try done.
  - destruct ci_known0 as (m & Hk & Hle).
    destruct (lookup_lt_is_Some_2 _ _ (Hvm TAIL)) as [m' Hk']. exists m'. split; [done|].
    destruct (wi_rising _ HI) as [Hrise _].
    pose proof (Hrise _ _ _ _ (Hm TAIL) Hk Hk'). lia.
  - intros i. specialize (ci_reads0 i). specialize (Hr 1%nat i). rewrite views_with_view. cbn. lia.
  - rewrite views_with_view. cbn. pose proof (Hm HEAD). pose proof (Hvm HEAD). pose proof (Hm CONSUMER_HEARTBEAT).
    pose proof (Hvm CONSUMER_HEARTBEAT). lia.
Qed.

Lemma weak_ready_view c w V :
  weak_inv w → weak_ready c w → view_le (views w 1) V → view_ok w V →
  weak_ready c (with_view 1 V w).
Proof.
  intros HI [] [Hm Hw Hr] [Hvm _]. split; try done.
  - destruct rd_known0 as (m & Hk & Hle).
    destruct (lookup_lt_is_Some_2 _ _ (Hvm TAIL)) as [m' Hk']. exists m'. split; [done|].
    destruct (wi_rising _ HI) as [Hrise _].
    pose proof (Hrise _ _ _ _ (Hm TAIL) Hk Hk'). lia.
  - specialize (Hw (slot (c_head c))). rewrite views_with_view. cbn. lia.
Qed.

Lemma producer_guar_view V w : weak_producer_guar w (with_view 0 V w).
Proof. by split. Qed.

Lemma consumer_guar_view V w : weak_consumer_guar w (with_view 1 V w).
Proof. by split. Qed.
(** *** Writing a cell *)

(** A free position and a readable one are in different cells. *)
Lemma weak_slot_ne w x y :
  head w ≤ x < tail w → tail w ≤ y < head w + N → slot y ≠ slot x.
Proof. intros Hx Hy E. apply slot_window in E; lia. Qed.

Lemma weak_write_begin_ok y w :
  weak_inv w → tail w ≤ y < head w + N →
  weak_producer_guar w (weak_write_begin (slot y) w) ∧
  weak_inv (weak_write_begin (slot y) w).
Proof.
  intros HI Hy. pose proof HI as []. split; split; try done.
  - intros x Hx. cbn. by rewrite bump_ne by by eapply weak_slot_ne.
  - intros i. apply (view_ok_grows w); [done..|]. apply wi_views0.
  - intros l k m Hk. apply (view_ok_grows w); [done..|]. by eapply wi_msgs0.
  - intros x Hx. cbn. rewrite bump_ne by by eapply weak_slot_ne. by apply wi_quiet0.
  - intros k m x Hk Hx. cbn. pose proof (newest_rising TAIL w k m (proj1 wi_rising0) Hk).
    rewrite bump_ne; [by eapply wi_tail_view0|]. eapply weak_slot_ne; [|done].
    change (head w ≤ x < m_value m) in Hx. lia.
Qed.

Lemma weak_write_end_ok y v w :
  weak_inv w → tail w ≤ y < head w + N →
  weak_producer_guar w (weak_write_end 0 (slot y) v w) ∧
  weak_inv (weak_write_end 0 (slot y) v w).
Proof.
  intros HI Hy. pose proof HI as []. set (w' := weak_write_end 0 (slot y) v w).
  assert (Hlen : ∀ i, (length (values w i) ≤ length (values w' i))%nat).
  { intros i. cbn. case_decide; [|done]. rewrite length_app. lia. }
  assert (Hne : ∀ x, head w ≤ x < tail w → values w' (slot x) = values w (slot x)).
  { intros x Hx. cbn. rewrite decide_False; [done|]. by eapply weak_slot_ne. }
  split; split; try done.
  - intros x Hx. by rewrite Hne.
  - intros i. cbn. case_decide; [subst i|by apply (view_ok_grows w)].
    pose proof (wi_views0 0%nat) as []. split; [done|]. intros x. cbn.
    case_decide as E; [rewrite E, length_app; cbn; lia|done].
  - intros l k m Hk. apply (view_ok_grows w); [done..|]. by eapply wi_msgs0.
  - intros x Hx. rewrite Hne by done. by apply wi_published0.
  - intros x Hx. rewrite Hne by done. by apply wi_quiet0.
Qed.

Lemma weak_producer_wrote p s vs room v w1 w3 :
  let y := p_tail p + Z.of_nat (length vs) in
  weak_producer_inv p s vs room w1 → head w1 ≤ tail w1 → Z.of_nat (length vs) < room →
  weak_consumer_guar (weak_write_begin (slot y) w1) w3 →
  weak_producer_inv p s (vs ++ [v]) room (weak_write_end 0 (slot y) v w3).
Proof.
  intros y P Hht Hlt HR. pose proof P as [].
  pose proof HR as [Ev Et Eb Ea Ew Ep Eh Hle Er]. cbn in Ev, Et, Eb, Ea, Ew, Ep, Er.
  change (head (weak_write_begin (slot y) w1)) with (head w1) in *.
  change (tail (weak_write_begin (slot y) w1)) with (tail w1) in *.
  assert (Etl : tail (weak_write_end 0 (slot y) v w3) = tail w1) by exact (newest_same TAIL _ _ Et).
  assert (Hval : ∀ x, values (weak_write_end 0 (slot y) v w3) (slot x) =
    if decide (slot y = slot x) then values w1 (slot x) ++ [v] else values w1 (slot x)).
  { intros x. cbn. by rewrite Ea. }
  assert (Hwr : ∀ x, writes (weak_write_end 0 (slot y) v w3) (slot x) =
    if decide (slot y = slot x) then S (writes w1 (slot x)) else writes w1 (slot x))
    by (intros x; cbn; by rewrite Ew).
  split; rewrite ?Etl; try done; try lia.
  - rewrite length_zapp. cbn. lia.
  - change (head (weak_write_end 0 (slot y) v w3)) with (head w3). lia.
  - destruct pi_known0 as (m & Hm & Hle'). exists m. split; [|done].
    unfold weak_write_end. rewrite views_with_view. cbn. rewrite Ev.
    by eapply prefix_lookup_Some.
  - intros k u Hk Hge. rewrite app_assoc in Hk. rewrite Hval.
    apply list_lookup_snoc_cases in Hk as [Hk|[-> ->]].
    + pose proof (lookup_lt_Some _ _ _ Hk) as Hl%inj_lt. rewrite length_zapp in Hl.
      rewrite decide_False; [by apply pi_cells0|]. intros E.
      apply slot_window in E; subst y; lia.
    + rewrite decide_True; [apply last_snoc|]. f_equal. subst y. rewrite length_zapp. lia.
  - intros k u Hk Hlt'. cbn. rewrite Ep. by apply pi_published0.
  - intros x. rewrite Hval, Hwr. specialize (pi_quiet0 x). case_decide; [|done].
    rewrite length_app. cbn. lia.
  - intros x. rewrite Hwr. unfold weak_write_end. rewrite views_with_view. cbn.
    rewrite Ea, Ev. specialize (pi_writes0 x). specialize (pi_quiet0 x).
    case_decide as E; [rewrite E; lia|done].
  - intros z Hz. unfold weak_write_end. rewrite views_with_view. cbn.
    rewrite Ev, Er by lia. by apply pi_reads0.
  - unfold weak_write_end. rewrite views_with_view. cbn. by rewrite Ev, Et, Eb.
Qed.
(** *** Storing *)

Section Append.
Context (i : nat) (l : loc) (v : Z) (Vi Vm : view) (w : Weak T).
Let w' : Weak T := do_append N i l v Vi Vm w.

Lemma msgs_append l' :
  msgs w' l' = if decide (l = l') then msgs w l' ++ [mkMessage v Vm] else msgs w l'.
Proof. done. Qed.

Lemma msgs_append_lookup l' k m :
  msgs w' l' !! k = Some m →
  msgs w l' !! k = Some m ∨ (l' = l ∧ k = length (msgs w l) ∧ m = mkMessage v Vm).
Proof.
  rewrite msgs_append. case_decide as E; [subst l'|by left].
  intros [?|[-> <-]]%list_lookup_snoc_cases; [by left|by right].
Qed.

Lemma msgs_append_old l' k m : msgs w l' !! k = Some m → msgs w' l' !! k = Some m.
Proof.
  intros H. rewrite msgs_append. case_decide; [|done]. by apply lookup_app_l_Some.
Qed.

Lemma newest_append : newest l w' = v.
Proof. unfold newest. by rewrite msgs_append, decide_True, last_snoc. Qed.

Lemma newest_append_ne l' : l ≠ l' → newest l' w' = newest l' w.
Proof. intros H. apply newest_same. by rewrite msgs_append, decide_False. Qed.

Lemma view_ok_append_old V : view_ok w V → view_ok w' V.
Proof.
  apply view_ok_grows; [|done]. intros l'. rewrite msgs_append. case_decide; [|done].
  rewrite length_app. lia.
Qed.

Lemma view_ok_append V : view_ok w V → view_ok w' (view_at_msg l (length (msgs w l)) V).
Proof.
  intros []. split; [|done]. intros l'. rewrite msgs_append. cbn. specialize (vo_msg0 l').
  case_decide as E; [rewrite E, length_app; cbn; lia|done].
Qed.

Lemma view_le_append V : view_ok w V → view_le V (view_at_msg l (length (msgs w l)) V).
Proof.
  intros []. split; cbn; [|done..]. intros l'. specialize (vo_msg0 l').
  case_decide; [subst l'; lia|done].
Qed.

Lemma views_append_ok :
  weak_inv w → view_ok w' Vi → ∀ j, view_ok w' (views w' j).
Proof.
  intros HI HVi j. cbn. case_decide; [exact HVi|]. apply view_ok_append_old, HI.
Qed.

Lemma msgs_append_ok :
  weak_inv w → view_ok w' Vm → ∀ l' k m, msgs w' l' !! k = Some m → view_ok w' (m_view m).
Proof.
  intros HI HVm l' k m [Hk|(_ & _ & ->)]%msgs_append_lookup; [|exact HVm].
  by eapply view_ok_append_old, wi_msgs.
Qed.

(** A store to a heartbeat does not concern the queue. *)
Lemma weak_heartbeat_ok :
  l = PRODUCER_HEARTBEAT ∨ l = CONSUMER_HEARTBEAT →
  weak_inv w → view_ok w' Vi → view_ok w' Vm → weak_inv w'.
Proof.
  intros Hl HI HVi HVm. pose proof (views_append_ok HI HVi). pose proof (msgs_append_ok HI HVm).
  destruct HI.
  assert (msgs w' TAIL = msgs w TAIL ∧ msgs w' HEAD = msgs w HEAD ∧
          weak_published w' = weak_published w) as (Et & Eh & Ep)
    by by destruct Hl as [-> | ->].
  pose proof (newest_same TAIL _ _ Et) as Nt. pose proof (newest_same HEAD _ _ Eh) as Nh.
  split; rewrite ?Nt, ?Nh, ?Et, ?Eh, ?Ep; done.
Qed.
End Append.

(** Publishing: the store to [tail]. *)
Lemma weak_publish_ok p s w :
  weak_producer_inv p s [] 0 w → weak_inv w →
  let w' := weak_store N 0 TAIL Release (p_tail p) w in
  weak_producer_guar w w' ∧ weak_inv w' ∧ weak_producer_inv (producer_synced p) s [] 0 w'.
Proof.
  intros P HI w'. pose proof P as []. rewrite app_nil_r in pi_cells0.
  pose proof (wi_views _ HI 0%nat) as HV0.
  set (V := view_at_msg TAIL (length (msgs w TAIL)) (views w 0)).
  assert (HV : view_ok w' V) by by apply view_ok_append.
  assert (HVle : view_le (views w 0) V) by by apply view_le_append.
  pose proof (views_append_ok 0 TAIL (p_tail p) V V w HI HV) as Hviews.
  pose proof (msgs_append_ok 0 TAIL (p_tail p) V V w HI HV) as Hmsgs.
  pose proof HI as [].
  assert (Nt : tail w' = p_tail p) by apply newest_append.
  assert (Nh : head w' = head w) by by apply newest_append_ne.
  assert (Hold : ∀ x, x < tail w → weak_published w' x = weak_published w x).
  { intros x Hx%Z.leb_gt. unfold w'. by rewrite weak_published_store, Hx. }
  assert (Hnew : ∀ x, tail w ≤ x < p_tail p → weak_published w' x = last (values w (slot x))).
  { intros x [H1%Z.leb_le H2%Z.ltb_lt]. unfold w'. by rewrite weak_published_store, H1, H2. }
  assert (Hall : ∀ k v, s !! k = Some v → weak_published w' (t0 + Z.of_nat k) = Some v).
  { intros k v Hk. pose proof (lookup_lt_Some _ _ _ Hk).
    destruct (Z.lt_ge_cases (t0 + Z.of_nat k) (tail w)).
    - rewrite Hold by done. by apply pi_published0.
    - rewrite Hnew by lia. by apply pi_cells0. }
  split_and!.
  - split; rewrite ?Nt; try done; [apply prefix_app_r; done|lia].
  - split; rewrite ?Nt, ?Nh; try done; try lia.
    + destruct wi_rising0 as [Hr ?]. split; [|done]. apply (rising_snoc TAIL w); [done|lia].
    + intros x Hx. destruct (Z.lt_ge_cases x (tail w)); [|apply Hnew; lia].
      rewrite Hold by done. apply wi_published0. lia.
    + intros x _. apply pi_quiet0.
    + intros k m x [Hk|(_ & _ & ->)]%msgs_append_lookup Hx; [by eapply wi_tail_view0|].
      apply pi_writes0.
    + intros k m y Hk Hy. eapply wi_head_view0; [exact Hk|]. lia.
  - split; cbn [producer_synced p_tail p_written]; rewrite ?app_nil_r, ?Nt, ?Nh; try done; try lia.
    + intros k v Hk ?. pose proof (lookup_lt_Some _ _ _ Hk). lia.
    + intros k v Hk _. by apply Hall.
    + split; [|exact (proj2 pi_own0)].
      change (length (msgs w TAIL ++ [mkMessage (p_tail p) V]) = S (length (msgs w TAIL))).
      rewrite length_app. cbn. lia.
Qed.

(** Giving cells back: the store to [head]. *)
Lemma weak_release_ok c n w :
  weak_consumer_inv c n w → weak_ready c w → weak_inv w →
  let w' := weak_store N 1 HEAD Release (c_head c + 1) w in
  weak_consumer_guar w w' ∧ weak_inv w' ∧ weak_consumer_inv (consumer_next c 0) (S n) w'.
Proof.
  intros P Hr HI w'. pose proof P as []. pose proof Hr as [].
  pose proof (burst_amount_bounds N ltac:(lia)).
  pose proof (wi_views _ HI 1%nat) as HV1.
  set (V := view_at_msg HEAD (length (msgs w HEAD)) (views w 1)).
  assert (HV : view_ok w' V) by by apply view_ok_append.
  pose proof (views_append_ok 1 HEAD (c_head c + 1) V V w HI HV) as Hviews.
  pose proof (msgs_append_ok 1 HEAD (c_head c + 1) V V w HI HV) as Hmsgs.
  pose proof HI as [].
  assert (Nt : tail w' = tail w) by by apply newest_append_ne.
  assert (Nh : head w' = c_head c + 1) by apply newest_append.
  split_and!.
  - split; rewrite ?Nh; try done; [apply prefix_app_r; done|lia].
  - split; rewrite ?Nt, ?Nh; try done; try lia.
    + destruct wi_rising0 as [? Hrise]. split; [done|]. apply (rising_snoc HEAD w); [done|lia].
    + intros k m [Hk|(_ & _ & ->)]%msgs_append_lookup; [by eapply wi_positive0|cbn; lia].
    + intros x Hx. apply wi_published0. lia.
    + intros x Hx. apply wi_quiet0. lia.
    + intros k m x Hk Hx. eapply wi_tail_view0; [exact Hk|lia].
    + intros k m y [Hk|(_ & _ & ->)]%msgs_append_lookup Hy; [by eapply wi_head_view0|].
      apply ci_reads0.
  - split; cbn [consumer_next c_head c_items_since_last_sync]; rewrite ?Nh; try done; try lia.
    + destruct rd_known0 as (m & Hm & Hle). exists m. split; [|lia].
      unfold w', weak_store, do_append. rewrite views_with_view. exact Hm.
    + split; [|exact (proj2 ci_own0)].
      change (length (msgs w HEAD ++ [mkMessage (c_head c + 1) V]) = S (length (msgs w HEAD))).
      rewrite length_app. cbn. lia.
Qed.
(** ** The laws *)

Lemma weak_later w w' : weak_producer_guar w w' → later (w : mstate (weak N)) w'.
Proof. intros []. by split. Qed.

Lemma weak_sent p s vs room w : weak_producer_inv p s vs room w → sent_published s w.
Proof.
  intros []. split; cbn; [lia|]. intros k Hk.
  destruct (lookup_lt_is_Some_2 s k ltac:(lia)) as [v Hv].
  rewrite Hv. by apply pi_published0.
Qed.

(** *** Changes of the handle alone *)

Lemma weak_commit p s vs room w :
  weak_producer_inv p s vs room w →
  weak_producer_inv (producer_wrote p (Z.of_nat (length vs))) (s ++ vs) [] 0 w.
Proof.
  intros []. destruct pi_known0 as (m & Hm & Hle).
  split; cbn [producer_wrote p_tail p_written]; rewrite ?app_nil_r, ?length_zapp; try done;
    try (cbn [length]; lia).
  - exists m. split; [done|lia].
  - intros k v Hk Hlt. pose proof (lookup_lt_Some _ _ _ Hk).
    rewrite lookup_app_l in Hk by lia. by apply pi_published0.
  - intros y Hy. apply pi_reads0. lia.
Qed.

Lemma weak_cancel p s vs room w :
  weak_producer_inv p s vs room w → weak_producer_inv p s [] 0 w.
Proof.
  intros []. destruct pi_known0 as (m & Hm & Hle).
  split; rewrite ?app_nil_r; try done; try (cbn [length]; lia).
  - exists m. split; [done|lia].
  - intros k v Hk. apply pi_cells0. by apply lookup_app_l_Some.
  - intros y Hy. apply pi_reads0. lia.
Qed.

Lemma weak_next c n w :
  weak_consumer_inv c n w → weak_ready c w →
  c_items_since_last_sync c + 1 < burst_amount N →
  weak_consumer_inv (consumer_next c (c_items_since_last_sync c + 1)) (S n) w.
Proof.
  intros [] [] Hb. split; cbn [consumer_next c_head c_items_since_last_sync]; try done; try lia.
  destruct rd_known0 as (m & Hm & Hle). exists m. split; [done|lia].
Qed.

(** *** The producer's accesses *)

Lemma weak_producer_load {A} sj p s l (k : Z → prog T A) Φ w :
  weak_producer_inv p s [] 0 w →
  (∀ w1 n m, weak_inv w1 → weak_producer_inv p s [] 0 w1 →
     msgs w1 l !! n = Some m → (v_msg (views w1 0) l ≤ n)%nat →
     let w' := with_view 0 (view_load l Acquire n m (views w1 0)) w1 in
     weak_producer_inv p s [] 0 w' → WPP sj (k (m_value m)) Φ w') →
  WPP sj (load l Acquire ≫= k) Φ w.
Proof.
  intros P Hk. apply weak_wp_load. intros w1 HR HI HJ.
  pose proof (weak_producer_stable _ _ _ _ _ _ P HR) as P1.
  pose proof (wi_views w1 HI 0%nat) as HV. split_and!; [done|apply HV|].
  intros n m Hm Hn. cbn zeta.
  assert (HV' : view_ok w1 (view_load l Acquire n m (views w1 0))) by by apply view_ok_load.
  split_and!; [by apply producer_guar_view|by apply weak_inv_view|exact HJ|].
  apply Hk; [done..|]. apply weak_producer_view; [done..| |done]. by apply view_load_le.
Qed.

Lemma weak_load_head {A} sj p s (k : Z → prog T A) Φ w :
  weak_producer_inv p s [] 0 w →
  (∀ head w', 0 ≤ head → head + p_written p ≤ p_tail p → p_tail p ≤ head + N →
     (∀ room, 0 ≤ room → p_tail p + room ≤ head + N → p_tail p + room < usize_lim →
              weak_producer_inv p s [] room w') → WPP sj (k head) Φ w') →
  WPP sj (load HEAD Acquire ≫= k) Φ w.
Proof.
  intros P Hk. apply (weak_producer_load sj p s); [done|]. intros w1 n m HI P1 Hm Hn w' P'.
  destruct (wi_rising _ HI) as [_ Hrise]. pose proof (newest_rising _ _ _ _ Hrise Hm).
  pose proof (wi_order _ HI). pose proof (wi_positive _ HI _ _ Hm). pose proof P1 as [].
  destruct pi_known0 as (m0 & Hm0 & Hle0). pose proof (Hrise _ _ _ _ Hn Hm0 Hm).
  apply Hk; [lia..|]. intros room Hr1 Hr2 Hr3.
  assert (Hl : view_ok w1 (view_load HEAD Acquire n m (views w1 0))).
  { apply view_ok_load; [done|done|]. apply HI. }
  destruct (lookup_lt_is_Some_2 _ _ (vo_msg _ _ Hl HEAD)) as [m' Hm'].
  assert (n ≤ v_msg (view_load HEAD Acquire n m (views w1 0)) HEAD)%nat as Hnn
    by apply view_load_msg.
  pose proof (Hrise _ _ _ _ Hnn Hm Hm').
  destruct P'. split; try done; try (cbn [length]; lia).
  - change (p_tail p + room ≤ head w1 + N). lia.
  - exists m'. split; [|lia]. unfold w'. by rewrite views_with_view.
  - intros y Hy. unfold w'. rewrite views_with_view.
    change (tail w') with (tail w1) in Hy.
    etrans; [exact (wi_head_view _ HI _ _ y Hm ltac:(lia))|apply view_load_acquire].
Qed.

Lemma weak_write_cell {A} sj p s vs room d v (k : unit → prog T A) Φ w :
  weak_producer_inv p s vs room w → Z.of_nat (length vs) < room →
  (∀ w', weak_producer_inv p s (vs ++ [v]) room w' → WPP sj (k tt) Φ w') →
  let i := slot (p_tail p + Z.of_nat (length vs)) in
  WPP sj (Do (WriteBegin i d) (fun _ => Do (WriteEnd i v) Ret) ≫= k) Φ w.
Proof.
  intros P Hlt Hk. cbn zeta. set (y := p_tail p + Z.of_nat (length vs)).
  apply weak_wp_write. intros w1 HR1 HI1 HJ1 w2.
  pose proof (weak_producer_stable _ _ _ _ _ _ P HR1) as P1. pose proof P1 as [].
  assert (Hy1 : tail w1 ≤ y < head w1 + N) by (subst y; lia).
  destruct (weak_write_begin_ok y w1 HI1 Hy1) as [HG2 HI2].
  split_and!; [|split|done|done|exact HJ1|].
  - intros E. specialize (pi_quiet0 y). by rewrite E in pi_quiet0.
  - apply pi_writes0.
  - intros [|[|j]] Hj; [done| |rewrite (wi_reads _ HI1) by done; lia].
    apply pi_reads0. subst y. lia.
  - intros w3 HR3 HI3 HJ3.
    pose proof HR3 as [Ev Et Eb Ea Ew Ep Eh Hle Er].
    change (head w2) with (head w1) in Hle.
    assert (Hy3 : tail w3 ≤ y < head w3 + N).
    { rewrite (newest_same TAIL _ _ Et : tail w3 = tail w1). lia. }
    destruct (weak_write_end_ok y v w3 HI3 Hy3) as [HG4 HI4].
    split_and!; [|done|done|done|exact HJ3|].
    + rewrite Ea. intros E. specialize (pi_quiet0 y). change (values w1 (slot y) = []) in E.
      by rewrite E in pi_quiet0.
    + apply Hk. apply (weak_producer_wrote p s vs room v w1); [done| |done|done].
      apply HI1.
Qed.

Lemma weak_producer_drop {A} sj p s vs room v (k : unit → prog T A) Φ w :
  weak_producer_inv p s vs room w →
  (∀ w', weak_producer_inv p s vs room w' → WPP sj (k tt) Φ w') →
  WPP sj (drop_value v ≫= k) Φ w.
Proof.
  intros P Hk. apply weak_wp_drop_value. intros w1 HR HI HJ. split; [done|].
  by eapply Hk, weak_producer_stable.
Qed.

Lemma weak_publish {A} sj p s (k : unit → prog T A) Φ w :
  weak_producer_inv p s [] 0 w → (∀ w', sent_published s w' → sent_published sj w') →
  (∀ w', weak_producer_inv (producer_synced p) s [] 0 w' → WPP sj (k tt) Φ w') →
  WPP sj (store TAIL Release (p_tail p) ≫= k) Φ w.
Proof.
  intros P HJ Hk. apply weak_wp_store. intros w1 HR HI HJ1.
  pose proof (weak_producer_stable _ _ _ _ _ _ P HR) as P1.
  destruct (weak_publish_ok p s w1 P1 HI) as (HG & HI' & P').
  split_and!; [apply P1|done|done|by eapply HJ, weak_sent|]. by apply Hk.
Qed.
(** A heartbeat: the memory after a read-modify-write by the only thread that
    writes the location. *)
Lemma weak_fetch_add_ok i l d m w :
  l = PRODUCER_HEARTBEAT ∨ l = CONSUMER_HEARTBEAT → weak_inv w → last (msgs w l) = Some m →
  weak_inv (weak_fetch_add N i l Release d m w).
Proof.
  intros Hl HI Hm. pose proof (wi_views _ HI i) as HV.
  assert (HV' : view_ok (weak_fetch_add N i l Release d m w)
                  (view_at_msg l (length (msgs w l)) (views w i)))
    by by apply view_ok_append.
  apply weak_heartbeat_ok; [done|done|exact HV'|].
  rewrite last_lookup in Hm. apply view_ok_join; [|exact HV'].
  by eapply view_ok_append_old, wi_msgs.
Qed.

Lemma weak_producer_bump {A} sj p s (k : Z → prog T A) Φ w :
  weak_producer_inv p s [] 0 w →
  (∀ b w', weak_producer_inv p s [] 0 w' → WPP sj (k b) Φ w') →
  WPP sj (fetch_add PRODUCER_HEARTBEAT Release 1 ≫= k) Φ w.
Proof.
  intros P Hk. apply weak_wp_fetch_add. intros w1 HR HI HJ.
  pose proof (weak_producer_stable _ _ _ _ _ _ P HR) as P1. pose proof P1 as [].
  split; [apply pi_own0|]. destruct (last (msgs w1 PRODUCER_HEARTBEAT)) as [m|] eqn:Hm.
  2:{ apply last_None in Hm. rewrite Hm in pi_own0. by destruct pi_own0. }
  exists m. split; [done|]. cbn zeta. split_and!; [by split| |exact HJ|].
  - apply weak_fetch_add_ok; [by left|done|done].
  - apply Hk. split; try done. split; [exact (proj1 pi_own0)|].
    change (length (msgs w1 PRODUCER_HEARTBEAT ++ [mkMessage (wrap64 (m_value m + 1))
      (view_join (m_view m) (view_at_msg PRODUCER_HEARTBEAT (length (msgs w1 PRODUCER_HEARTBEAT))
         (views w1 0)))]) = S (length (msgs w1 PRODUCER_HEARTBEAT))).
    rewrite length_app. cbn. lia.
Qed.

(** *** The consumer's accesses *)

Lemma weak_consumer_load {A} got c n l (k : Z → prog T A) Φ w :
  weak_consumer_inv c n w →
  (∀ w1 j m, weak_inv w1 → weak_consumer_inv c n w1 → later w w1 →
     msgs w1 l !! j = Some m → (v_msg (views w1 1) l ≤ j)%nat →
     let w' := with_view 1 (view_load l Acquire j m (views w1 1)) w1 in
     weak_inv w' → weak_consumer_inv c n w' → WPC got (k (m_value m)) Φ w') →
  WPC got (load l Acquire ≫= k) Φ w.
Proof.
  intros P Hk. apply weak_wp_load. intros w1 HR HI HJ.
  pose proof (weak_consumer_stable _ _ _ _ P HR) as P1.
  pose proof (wi_views w1 HI 1%nat) as HV. split_and!; [done|apply HV|].
  intros j m Hm Hj. cbn zeta.
  assert (HV' : view_ok w1 (view_load l Acquire j m (views w1 1))) by by apply view_ok_load.
  assert (HI' : weak_inv (with_view 1 (view_load l Acquire j m (views w1 1)) w1))
    by by apply weak_inv_view.
  split_and!; [by apply consumer_guar_view|done|exact HJ|].
  apply Hk; [done|done|by apply weak_later|done|done|done|].
  apply weak_consumer_view; [done..| |done]. by apply view_load_le.
Qed.

Lemma weak_load_tail {A} got c n (k : Z → prog T A) Φ w :
  weak_consumer_inv c n w →
  (∀ tl w', weak_inv w' → later w w' → weak_consumer_inv c n w' →
     (c_head c < tl → weak_ready c w') → WPC got (k tl) Φ w') →
  WPC got (load TAIL Acquire ≫= k) Φ w.
Proof.
  intros P Hk. apply (weak_consumer_load got c n); [done|].
  intros w1 j m HI P1 Hl Hm Hj w' HI' P'. apply Hk; [done|exact Hl|done|]. intros Hlt.
  destruct (wi_rising _ HI) as [Hrise _]. pose proof (newest_rising _ _ _ _ Hrise Hm).
  assert (HV : view_ok w1 (view_load TAIL Acquire j m (views w1 1))).
  { apply view_ok_load; [done|done|]. apply HI. }
  destruct (lookup_lt_is_Some_2 _ _ (vo_msg _ _ HV TAIL)) as [m' Hm'].
  assert (j ≤ v_msg (view_load TAIL Acquire j m (views w1 1)) TAIL)%nat as Hjj
    by apply view_load_msg.
  pose proof (Hrise _ _ _ _ Hjj Hm Hm'). pose proof (ci_order _ _ _ P1). split.
  - change (head w1 ≤ c_head c < tail w1). lia.
  - exists m'. split; [|lia]. unfold w'. by rewrite views_with_view.
  - unfold w'. rewrite views_with_view.
    etrans; [exact (wi_tail_view _ HI _ _ (c_head c) Hm ltac:(lia))|apply view_load_acquire].
Qed.

Lemma weak_release {A} got c n (k : unit → prog T A) Φ w :
  weak_consumer_inv c n w → weak_ready c w →
  (∀ w', later w w' → weak_consumer_inv (consumer_next c 0) (S n) w' → WPC got (k tt) Φ w') →
  WPC got (store HEAD Release (c_head c + 1) ≫= k) Φ w.
Proof.
  intros P Hr Hk. apply weak_wp_store. intros w1 HR HI HJ.
  pose proof (weak_consumer_stable _ _ _ _ P HR) as P1.
  pose proof (weak_ready_stable _ _ _ Hr HR) as Hr1.
  destruct (weak_release_ok c n w1 P1 Hr1 HI) as (HG & HI' & P').
  split_and!; [apply P1|done|done|exact HJ|]. apply Hk; [exact (weak_later _ _ HR)|done].
Qed.

Lemma weak_consumer_bump {A} got c n (k : Z → prog T A) Φ w :
  weak_consumer_inv c n w →
  (∀ b w', later w w' → weak_consumer_inv c n w' → WPC got (k b) Φ w') →
  WPC got (fetch_add CONSUMER_HEARTBEAT Release 1 ≫= k) Φ w.
Proof.
  intros P Hk. apply weak_wp_fetch_add. intros w1 HR HI HJ.
  pose proof (weak_consumer_stable _ _ _ _ P HR) as P1. pose proof P1 as [].
  split; [apply ci_own0|]. destruct (last (msgs w1 CONSUMER_HEARTBEAT)) as [m|] eqn:Hm.
  2:{ apply last_None in Hm. rewrite Hm in ci_own0. by destruct ci_own0. }
  exists m. split; [done|]. cbn zeta. split_and!; [by split| |exact HJ|].
  - apply weak_fetch_add_ok; [by right|done|done].
  - apply Hk; [exact (weak_later _ _ HR)|]. split; try done. split; [exact (proj1 ci_own0)|].
    change (length (msgs w1 CONSUMER_HEARTBEAT ++ [mkMessage (wrap64 (m_value m + 1))
      (view_join (m_view m) (view_at_msg CONSUMER_HEARTBEAT (length (msgs w1 CONSUMER_HEARTBEAT))
         (views w1 1)))]) = S (length (msgs w1 CONSUMER_HEARTBEAT))).
    rewrite length_app. cbn. lia.
Qed.
(** Reading the cell at the local head. *)
Lemma weak_read_begin_ok h w :
  weak_inv w → head w ≤ h < tail w →
  weak_consumer_guar w (weak_read_begin 1 (slot h) w) ∧
  weak_inv (weak_read_begin 1 (slot h) w).
Proof.
  intros HI Hh. pose proof HI as [].
  assert (Hne : ∀ y, tail w ≤ y < head w + N →
    reads (weak_read_begin 1 (slot h) w) 1 (slot y) = reads w 1 (slot y)).
  { intros y Hy. cbn. rewrite decide_False; [done|]. intros [_ E]. symmetry in E.
    by eapply weak_slot_ne. }
  split; split; try done.
  - intros i. apply (view_ok_grows w); [done..|]. apply wi_views0.
  - intros l k m Hk. apply (view_ok_grows w); [done..|]. by eapply wi_msgs0.
  - intros k m y Hk Hy. change (tail w ≤ y < m_value m + N) in Hy.
    pose proof (newest_rising HEAD w k m (proj2 wi_rising0) Hk).
    rewrite Hne by lia. by eapply wi_head_view0.
  - intros j i Hj. cbn. rewrite decide_False by naive_solver. by apply wi_reads0.
Qed.

Lemma weak_read_end_ok c n w1 w3 :
  weak_consumer_inv c n w1 →
  weak_producer_guar (weak_read_begin 1 (slot (c_head c)) w1) w3 → weak_inv w3 →
  weak_inv (weak_read_end 1 (slot (c_head c)) w3) ∧
  weak_consumer_inv c n (weak_read_end 1 (slot (c_head c)) w3).
Proof.
  intros P [Hv Hh Hb Hr Hpre _ _ _] HI3. pose proof P as [].
  set (V := view_at_read 1 (slot (c_head c)) (reads w3 1 (slot (c_head c))) (views w3 1)).
  assert (HV : view_ok w3 V) by by destruct (wi_views _ HI3 1%nat).
  split; [by apply weak_inv_view|]. cbn in Hv, Hh, Hb, Hr, Hpre.
  assert (Eh : head (weak_read_end 1 (slot (c_head c)) w3) = head w1) by exact (newest_same HEAD _ _ Hh).
  split; rewrite ?Eh; try done; unfold weak_read_end; rewrite ?views_with_view; cbn;
    rewrite ?Hv, ?Hh, ?Hb; try done.
  - destruct ci_known0 as (m & Hm & Hle). exists m. split; [|done].
    by eapply prefix_lookup_Some.
  - intros i. rewrite !Hr. specialize (ci_reads0 i). repeat case_decide; naive_solver lia.
Qed.

Lemma weak_read_cell {A} got c n (k : T → prog T A) Φ w :
  weak_consumer_inv c n w → weak_ready c w →
  (∀ v w', weak_inv w' → later w w' → weak_consumer_inv c n w' → weak_ready c w' →
     got_published [(n, v)] w' → WPC got (k v) Φ w') →
  WPC got (read_cell (slot (c_head c)) ≫= k) Φ w.
Proof.
  intros P Hrd Hk. set (h := c_head c) in *. apply weak_wp_read. intros w1 HR1 HI1 HJ1 w2.
  pose proof (weak_consumer_stable _ _ _ _ P HR1) as P1.
  pose proof (weak_ready_stable _ _ _ Hrd HR1) as Hr1. pose proof (rd_order _ _ Hr1) as Ho1.
  fold h in Ho1. pose proof (wi_quiet _ HI1 _ Ho1) as Hq1.
  destruct (weak_read_begin_ok h w1 HI1 Ho1) as [HG2 HI2].
  assert (Hr2 : weak_ready c w2) by by destruct Hr1.
  split_and!; [intros E; by rewrite E in Hq1|apply Hr1|done|done|exact HJ1|].
  intros w3 HR3 HI3 HJ3. pose proof (weak_ready_stable _ _ _ Hr2 HR3) as Hr3.
  pose proof (rd_order _ _ Hr3) as Ho3.
  destruct (wpg_cells _ _ HR3 h Ho1) as [Ev Ew].
  change (values w2 (slot h)) with (values w1 (slot h)) in Ev.
  change (writes w2 (slot h)) with (writes w1 (slot h)) in Ew.
  destruct (weak_read_end_ok c n w1 w3 P1 HR3 HI3) as [HI4 P4].
  assert (Hr4 : weak_ready c (weak_read_end 1 (slot h) w3)) by by destruct Hr3.
  split_and!; [apply (wi_views _ HI3)|cbn; lia|by apply consumer_guar_view|done|exact HJ3|].
  intros v Hclean.
  assert (Hlast : last (values w3 (slot h)) = Some v).
  { apply Hclean; [done|done|]. pose proof (rd_writes _ _ Hr3). fold h in H. rewrite Ev. lia. }
  apply Hk; [done| |done|done|].
  - etrans; [exact (weak_later _ _ HR1)|exact (weak_later _ _ HR3)].
  - apply Forall_singleton. cbn -[sp_published]. rewrite <- (ci_head _ _ _ P). fold h.
    split; [apply Ho3|]. etrans; [exact (wi_published _ HI3 h Ho3)|exact Hlast].
Qed.

#[local] Instance weak_spsc_laws : spsc_laws N t0 false (weak N).
Proof.
  split.
  - exact weak_producer_guar_trans.
  - exact weak_consumer_guar_trans.
  - by split.
  - by split.
  - apply weak_later.
  - intros w w' []. split_and!; [exact (newest_same TAIL _ _ wcg_tail0)|done|done].
  - exact weak_producer_stable.
  - exact weak_consumer_stable.
  - exact weak_ready_stable.
  - intros p s vs room w P. split; [by eapply weak_sent|done].
  - intros p s vs room w []. lia.
  - intros c n w []. lia.
  - intros c w [] []. lia.
  - by intros p s vs room b w [].
  - exact weak_commit.
  - exact weak_cancel.
  - by intros c n b w [].
  - exact weak_next.
  - exact @weak_load_head.
  - exact @weak_write_cell.
  - exact @weak_producer_drop.
  - exact @weak_publish.
  - intros A sj p s k Φ w O Hk. apply (weak_producer_load sj p s); [done|]. intros. by apply Hk.
  - exact @weak_producer_bump.
  - exact @weak_load_tail.
  - exact @weak_read_cell.
  - exact @weak_release.
  - intros A got c n k Φ w O Hk. apply (weak_consumer_load got c n); [done|].
    intros. by apply Hk.
  - exact @weak_consumer_bump.
  - done.
  - done.
Qed.
End Proof.
