(* ===== verification/LosslessPair.v ===== *)
(** * Joining a lossless channel, and process-local pairs

    What each way of joining does in every state of the shared memory, and
    [lossless_pair] of [src/que/src/lossless/mod.rs]: allocation in an [Arc],
    the two joins, and the release of the memory with the last handle. *)

From S2P Require Import Prelude.
From S2P Require Import Rust.
From S2P Require Import Ring.
From S2P Require Import Errors.
From S2P Require Import Channel.
From S2P Require Import Join.
From S2P Require Import LosslessProducer.
From S2P Require Import LosslessConsumer.
From S2P Require Import LosslessQueue.

Section Pair.
Context {T : Type} {prof : Profile} (N : Z).

(** [lossless_pair] from the point where the memory at [buffer], allocated
    by [Arc::new_uninit], has been zeroed. *)
Definition lossless_pair (buffer : Z) : prog T (Producer * Consumer) :=
  r ← join_or_initialize_in_ LocalMode N buffer;
  producer ← lift (unwrap r);
  r ← join LocalMode N buffer;
  consumer ← lift (unwrap r);
  _ ← arc_drop;
  mret (producer, consumer).

(** The memory it starts from. *)
Definition new_uninit_zeroed (zeroed : T) : World T :=
  world_of (zeroed_channel zeroed N).
End Pair.

Section Joining.
Context {T : Type} {prof : Profile} (M : mode) (N : Z).
Implicit Types (w : World T).

(** The stores that set up a channel. *)
Definition init_stores w : World T :=
  do_store N MAGIC_WORD MAGIC (do_store N CAPACITY N
    (do_store N PRODUCER_HEARTBEAT 0 (do_store N CONSUMER_HEARTBEAT 0
      (do_store N TAIL 0 w)))).

(** [join_or_create_shmem] stores the heartbeats in the other order. *)
Definition init_stores_mapped w : World T :=
  do_store N MAGIC_WORD MAGIC (do_store N CAPACITY N
    (do_store N CONSUMER_HEARTBEAT 0 (do_store N PRODUCER_HEARTBEAT 0
      (do_store N TAIL 0 w)))).

Lemma init_stores_chan w :
  chan (init_stores w) = initialised N (chan w) ∧
  chan (init_stores_mapped w) = initialised N (chan w).
Proof. done. Qed.

(** [Producer::join_]. *)
Lemma join__spec buffer w :
  capacity_ok N → buffer mod 128 = 0 → buffer ≠ 0 → freed w = false →
  run N (join_ M N buffer) w = join_cases N w
    (Done (Ok (mkProducer buffer (tail (chan w)) 0
                 (Channel.consumer_heartbeat (chan w)))) (attach M w))
    (Done (Err Uninitialized) w).
Proof.
  intros HN Hb H0 Hf. unfold join_. rewrite run_check_join by done.
  join_split N w; join_steps.
Qed.

(** [Producer::join_or_initialize_in_]. *)
Lemma join_or_initialize_in__spec buffer w :
  capacity_ok N → buffer mod 128 = 0 → buffer ≠ 0 → freed w = false →
  run N (join_or_initialize_in_ M N buffer) w = join_cases N w
    (Done (Ok (mkProducer buffer (tail (chan w)) 0
                 (Channel.consumer_heartbeat (chan w))))
       (attach M (do_store N PRODUCER_HEARTBEAT
                  (wrap64 (Channel.producer_heartbeat (chan w) + 1)) w)))
    (Done (Ok (mkProducer buffer 0 0 0)) (attach M (init_stores w))).
Proof.
  intros HN Hb H0 Hf. unfold join_or_initialize_in_. rewrite run_check_join by done.
  join_split N w; join_steps.
Qed.

(** The producer's [join_or_create_shmem], in the mapped memory. *)
Lemma join_or_create_mapped_spec buffer w :
  buffer ≠ 0 → freed w = false →
  run N (join_or_create_mapped N buffer) w = join_cases N w
    (Done (Ok (mkProducer buffer (tail (chan w)) 0
                 (Channel.consumer_heartbeat (chan w)))) w)
    (Done (Ok (mkProducer buffer 0 0 0)) (init_stores_mapped w)).
Proof. intros H0 Hf. unfold join_or_create_mapped. join_split N w; join_steps. Qed.

(** [Consumer::join]: the consumer starts at the published tail, and gives
    every cell back to the producer. *)
Lemma join_spec buffer w :
  capacity_ok N → buffer mod 128 = 0 → freed w = false →
  run N (join M N buffer) w = join_cases N w
    (Done (Ok (mkConsumer buffer (tail (chan w)) 0 0
                 (Channel.producer_heartbeat (chan w))))
       (attach M (do_store N HEAD (tail (chan w)) w)))
    (Done (Err Uninitialized) w).
Proof.
  intros HN Hb Hf. unfold join. rewrite run_check_join by done.
  join_split N w; join_steps.
Qed.
End Joining.

(** ** Pairs *)

Section PairSpec.
Context {T : Type} {prof : Profile} (N : Z).
Context (HN : capacity_ok N).
Implicit Types (w : World T).

Let HN0 : 0 < N < usize_lim := capacity_ok_pos N HN.

(** The state right after [lossless_pair]: an empty queue, two owners. *)
Record fresh_pair (zeroed : T) (buffer : Z) (pc : Producer * Consumer) w : Prop := {
  fp_producer : pc.1 = mkProducer buffer 0 0 0;
  fp_consumer : pc.2 = mkConsumer buffer 0 0 0 0;
  fp_chan : chan w = mkChannel 0 0 0 0 (replicate 112 0) N MAGIC
                       (replicate (Z.to_nat N) zeroed);
  fp_strong : strong w = 2;
  fp_alive : freed w = false;
  fp_dropped : dropped w = [];
  fp_quiet : ∀ i, begun w i = ended w i
}.

Lemma lossless_pair_spec zeroed buffer :
  buffer mod 128 = 0 → buffer ≠ 0 →
  ∃ pc w, run N (lossless_pair N buffer) (new_uninit_zeroed N zeroed) = Done pc w ∧
          fresh_pair zeroed buffer pc w.
Proof.
  intros Hb H0. unfold lossless_pair, new_uninit_zeroed.
  rewrite run_bind, join_or_initialize_in__spec, join_cases_fresh by done.
  cbn [obind unwrap lift]. rewrite run_bind, run_Ret. cbn [obind].
  rewrite run_bind, join_spec, join_cases_joined by done.
  cbn [obind unwrap lift]. rewrite run_bind, run_Ret. cbn [obind].
  rewrite run_bind, run_arc_drop by done. cbn [obind]. rewrite run_ret.
  eexists _, _. split; [done|]. by split.
Qed.

(** It represents the empty queue. *)
Lemma fresh_pair_represents zeroed buffer pc w :
  fresh_pair zeroed buffer pc w → represents N (mkQueue [] [] 0) pc.1 pc.2 w.
Proof.
  intros [-> -> Ec ? ? ? ?]. pose proof (burst_amount_bounds N ltac:(lia)).
  split; rewrite ?Ec; cbn; rewrite ?length_replicate; try done; unfold q_used; cbn; try lia.
Qed.

(** Dropping handles, in any order. *)
Definition drop_handle (h : Producer + Consumer) : prog T unit :=
  match h with
  | inl p => drop_producer LocalMode p
  | inr c => drop_consumer LocalMode c
  end.

Fixpoint drop_handles (hs : list (Producer + Consumer)) : prog T unit :=
  match hs with
  | [] => mret tt
  | h :: hs => _ ← drop_handle h; drop_handles hs
  end.

Lemma drop_handles_arc hs w :
  run N (drop_handles hs) w = run N (arc_drops (length hs)) w.
Proof.
  revert w. induction hs as [|h hs IH]; intros w; [done|].
  cbn [drop_handles length arc_drops]. rewrite !run_bind.
  replace (drop_handle h) with (arc_drop (T := T)) by (by destruct h).
  destruct (run N arc_drop w); cbn [obind]; [apply IH|done..].
Qed.
End PairSpec.
