(* ===== verification/LosslessTheorems.v ===== *)
(** * The lossless channel: theorems

    What the lossless channel promises to its users, in three groups: under
    concurrency, for sequential runs, and for each operation. *)

From S2P Require Import Prelude.
From S2P Require Import Rust.
From S2P Require Import Ring.
From S2P Require Import Errors.
From S2P Require Import Channel.
From S2P Require Import Join.
From S2P Require Import Concurrency.
From S2P Require Import LosslessProducer.
From S2P Require Import LosslessConsumer.
From S2P Require Import LosslessQueue.
From S2P Require Import LosslessReservation.
From S2P Require Import LosslessRefinement.
From S2P Require Import LosslessInterface.
From S2P Require Import Words.
From S2P Require Import LosslessWords.
From S2P Require Import LosslessProtocol.
From S2P Require Import LosslessOperations.
From S2P Require Import LosslessConcurrent.
From S2P Require Import LosslessPair.

(** ** Threads over an empty queue *)

Section Start.
Context {T : Type} {prof : Profile} (N : Z) (shared : bool).
Implicit Types (w : World T) (p : Producer) (c : Consumer).

(** A producer and a consumer own an empty channel, in range, on which no
    write is in progress. *)
Record startable p c w : Prop := {
  st_empty : represents N (mkQueue [] [] 0) p c w;
  st_range : p_tail p < usize_lim;
  st_quiet : ∀ i, begun w i = ended w i;
  st_magic : magic (chan w) = MAGIC;
  st_capacity : capacity (chan w) = N
}.

(** Shared memory as the operating system hands it out: zeroed where the
    channel keeps its positions and its magic number. *)
Record blank w : Prop := {
  bl_alive : freed w = false;
  bl_length : Z.of_nat (length (buffer (chan w))) = N;
  bl_tail : tail (chan w) = 0;
  bl_head : head (chan w) = 0;
  bl_magic : magic (chan w) = 0;
  bl_quiet : ∀ i, begun w i = ended w i
}.

(** The threads of a producer and a consumer that have not done anything. *)
Definition start p c w : config (sc N) (lossless N shared) :=
  (w, [Idle (C := lossless N shared) (HProducer p) [];
       Idle (C := lossless N shared) (HConsumer c) []]).

(** The threads of two processes that have not joined yet. *)
Definition boot w : config (sc N) (lossless N shared) :=
  (w, [Idle (C := lossless N shared) HNoProducer [];
       Idle (C := lossless N shared) HNoConsumer []]).

(** Where a system may start, and the position of the first value it sends. *)
Inductive initial : Z → config (sc N) (lossless N shared) → Prop :=
  | initial_start p c w : startable p c w → initial (p_tail p) (start p c w)
  | initial_boot w : blank w → initial 0 (boot w).

Context (HN : capacity_ok N).

Let HN0 : 0 < N < usize_lim := capacity_ok_pos N HN.

(** The invariant of [LosslessConcurrent] holds of a configuration. *)
Definition channel_ok (t0 : Z) : config (sc N) (lossless (T := T) N shared) → Prop :=
  ok N t0 shared (sc N) (P := sc_spsc N t0).

Lemma initial_ok t0 s : initial t0 s → 0 ≤ t0 ∧ channel_ok t0 s.
Proof.
  destruct 1 as [p c w [R Hlt Hq Hm Hc]|w []].
  - pose proof R as []. cbn in *. pose proof (burst_amount_bounds N ltac:(lia)).
    split; [lia|].
    apply (config_ok_idle (sc N) (lossless N shared) _ _ _ _ _ _ _ w [HProducer p; HConsumer c]).
    + split; try done; lia || by left.
    + intros [|[|[|i]]] h [= <-]; cbn.
      * split; [by split; [|constructor]|]. split; cbn; done || lia.
      * split; [split; [cbn; lia|constructor]|]. split; cbn; done || lia.
  - split; [done|].
    apply (config_ok_idle (sc N) (lossless N shared) _ _ _ _ _ _ _ w [HNoProducer; HNoConsumer]).
    + split; try done; lia || by right.
    + intros [|[|[|i]]] h [= <-]; cbn; [|split; [cbn; lia|constructor]].
      split; [constructor|]. split; [|done]. split; cbn; [lia|]. intros k. lia.
Qed.

Lemma reachable_ok_initial t0 s0 s : initial t0 s0 → reachable (sc N) s0 s → channel_ok t0 s.
Proof.
  intros [Ht0 Hok]%initial_ok. revert Hok.
  apply (reachable_protocol N HN t0 Ht0 shared (sc N) (L := sc_spsc_laws N HN t0 Ht0 shared)).
Qed.

(** What [lossless_pair] returns can be given to two threads. *)
Lemma fresh_pair_startable zeroed buffer pc w :
  fresh_pair N zeroed buffer pc w → startable pc.1 pc.2 w.
Proof.
  intros Hf. split; [by eapply fresh_pair_represents| |by apply Hf|..].
  - by rewrite (fp_producer _ _ _ _ _ Hf).
  - by rewrite (fp_chan _ _ _ _ _ Hf).
  - by rewrite (fp_chan _ _ _ _ _ Hf).
Qed.

(** Every element received is the one sent under the same number. *)
Lemma received_sent t0 s0 s tp tc k v :
  initial t0 s0 → reachable (sc N) s0 s →
  s.2 !! 0%nat = Some tp → s.2 !! 1%nat = Some tc →
  (k, v) ∈ received N shared t0 (calls_of tc).2 →
  sent N shared t0 (calls_of tp).1 (calls_of tp).2 !! k = Some v.
Proof.
  intros Hs Hr Hp Hc. pose proof (proj1 (initial_ok t0 s0 Hs)) as Ht0.
  exact (ok_received N t0 shared (sc N) (L := sc_spsc_laws N HN t0 Ht0 shared) s tp tc
           (reachable_ok_initial t0 s0 s Hs Hr) Hp Hc k v).
Qed.
End Start.

(** ** Under concurrency *)

Section Concurrent.
Context {T : Type} {prof : Profile} (N : Z) (HN : capacity_ok N).
Context (shared : bool).
Implicit Types (s : config (sc N) (lossless (T := T) N shared))
  (tp tc : thread (lossless (T := T) N shared)).

(** C1: FIFO under every interleaving, crash and restart.  Whatever calls the
    two threads make, however their accesses interleave, and, if they are
    processes that share memory, wherever one of them dies and joins again,
    every value the consumer reads as element number [k] (with [pop], or
    through a zero-copy element) is the [k]-th value the producer sent
    ([push] and committed reservations, including a commit in progress, less
    what a crash has lost before it was published): nothing published is
    lost, duplicated, reordered or torn. *)
Theorem lossless_fifo t0 s0 s tp tc k v :
  initial N shared t0 s0 → reachable (sc N) s0 s →
  s.2 !! 0%nat = Some tp → s.2 !! 1%nat = Some tc →
  (k, v) ∈ received N shared t0 (calls_of tc).2 →
  sent N shared t0 (calls_of tp).1 (calls_of tp).2 !! k = Some v.
Proof.
  intros Hs Hr Hp Hc. by apply (received_sent N shared HN t0 s0 s).
Qed.

(** A consumer that only pops. *)
Definition only_pops (e : lossless_call T * lossless_answer T) : bool :=
  match e.1 with Deref | DropElement | JoinConsumer _ => false | _ => true end.

Lemma received_numbered t0 (hist : list (lossless_call T * lossless_answer T)) :
  Forall (fun e => only_pops e = true) hist →
  received_state N shared t0 hist =
    (length (received N shared t0 hist),
     imap (fun k e => (k, e.2)) (received N shared t0 hist)).
Proof.
  induction hist as [|e hist IH] using rev_ind; [done|].
  intros [Hh [He _]%Forall_cons]%Forall_app. specialize (IH Hh).
  unfold received in *. rewrite received_state_snoc.
  destruct (received_state N shared t0 hist) as [n got]; cbn [snd] in *.
  injection IH as -> IH. destruct e as [[] []]; try done;
    cbn [received_step snd fst]; try (by rewrite <- IH).
  destruct o as [v|]; cbn [snd]; [|by rewrite <- IH].
  rewrite length_app, imap_app, <- IH. cbn. f_equal; [lia|].
  by rewrite Nat.add_0_r.
Qed.

(** A consumer that only pops receives a prefix of the values sent, in
    the order they were sent. *)
Theorem lossless_pop_prefix t0 s0 s tp tc :
  initial N shared t0 s0 → reachable (sc N) s0 s →
  s.2 !! 0%nat = Some tp → s.2 !! 1%nat = Some tc →
  Forall (fun e => only_pops e = true) (calls_of tc).2 →
  (received N shared t0 (calls_of tc).2).*2 `prefix_of`
    sent N shared t0 (calls_of tp).1 (calls_of tp).2.
Proof.
  intros Hs Hr Hp Hc Hz.
  pose proof (fun k v => received_sent N shared HN t0 s0 s tp tc k v Hs Hr Hp Hc) as Hrec.
  apply (received_numbered t0) in Hz. apply prefix_of_lookup.
  intros k v Hk. apply list_lookup_fmap_Some in Hk as ([k' v'] & -> & Hk).
  apply Hrec, (list_elem_of_lookup_2 _ k).
  replace (received N shared t0 (calls_of tc).2) with
    (imap (fun k e => (k, e.2)) (received N shared t0 (calls_of tc).2))
    by (unfold received at 2; by rewrite Hz).
  by rewrite list_lookup_imap, Hk.
Qed.

(** C5: no data race, no panic, no undefined behaviour.  A thread that is in
    the middle of a call is never about to panic; its next access is
    possible (the memory is alive, the cell is inside the buffer), and when
    it is half of a cell read, no write of that cell is in progress nor has
    started since the read began. *)
Theorem lossless_no_race_no_panic t0 s0 s i cl m hist :
  initial N shared t0 s0 → reachable (sc N) s0 s →
  s.2 !! i = Some (Busy cl m hist) →
  match m with
  | Ret _ => True
  | Panic _ => False
  | Do a _ => race_free _ a s.1 ∧ ∃ x w', act_step N a s.1 x w'
  end.
Proof.
  intros Hs Hr Hi. pose proof (proj1 (initial_ok N shared HN t0 s0 Hs)) as Ht0.
  exact (ok_safe N t0 shared (sc N) (L := sc_spsc_laws N HN t0 Ht0 shared) s i cl m hist
           (reachable_ok_initial N shared HN t0 s0 s Hs Hr) Hi).
Qed.

(** C12: in every reachable state the shared counters delimit a window of at
    most [N] cells, the memory is alive, and every published element that
    has not been given back is intact in the buffer: the cell of position
    [t0 + k] holds the [k]-th value sent.  Before a producer has set the
    memory up the window is empty. *)
Theorem lossless_window t0 s0 s tp :
  initial N shared t0 s0 → reachable (sc N) s0 s → s.2 !! 0%nat = Some tp →
  let ch := chan s.1 in
  freed s.1 = false ∧
  0 ≤ head ch ≤ tail ch ∧ tail ch ≤ head ch + N ∧
  (magic ch = MAGIC ∧ capacity ch = N ∨ magic ch = 0 ∧ tail ch = 0) ∧
  ∀ k, head ch ≤ t0 + Z.of_nat k < tail ch →
    ∃ v, sent N shared t0 (calls_of tp).1 (calls_of tp).2 !! k = Some v ∧
         buffer ch !! Z.to_nat ((t0 + Z.of_nat k) mod N) = Some v.
Proof.
  intros Hs Hr Hp ch. pose proof (reachable_ok_initial N shared HN t0 s0 s Hs Hr) as Hok.
  pose proof (proj1 (initial_ok N shared HN t0 s0 Hs)) as Ht0.
  destruct (ok_sent N t0 shared (sc N) (L := sc_spsc_laws N HN t0 Ht0 shared) s tp Hok Hp)
    as [Ht Hpub]. cbn in Ht, Hpub.
  destruct Hok as [HI _]. pose proof (capacity_ok_pos N HN).
  destruct s as [ws ts]; cbn in *.
  destruct HI as [? Hl ? ? ? ? Hb _ Hm]. split_and!; try done; try (subst ch; lia).
  intros k Hk. destruct (ring_get_is_Some N ltac:(lia) _ (t0 + Z.of_nat k) Hl) as [v Hv].
  exists v. rewrite <- Hpub by (subst ch; lia). by rewrite Hb.
Qed.
End Concurrent.

(** ** Sequential runs *)

Section Sequential.
Context {T : Type} {prof : Profile} (N : Z) (HN : capacity_ok N).
Implicit Types (w : World T) (q : Queue T) (p : Producer) (c : Consumer)
  (r : Reservation) (vs us : list T).

(** C6: refinement.  Any sequence of pushes, syncs, pops and reserved
    batches, on a channel that represents the queue [q], terminates without
    panic, gives exactly the replies of the abstract bounded queue, and
    leaves a channel that represents the queue's final state. *)
Theorem lossless_refines_queue cmds q p c w :
  represents N q p c w → p_tail p + costs cmds + N < usize_lim →
  ∃ p' c' w',
    run N (exec_all N cmds (p, c)) w = Done (p', c', (q_exec_all N cmds q).2) w' ∧
    represents N (q_exec_all N cmds q).1 p' c' w'.
Proof. apply exec_all_spec, HN. Qed.


(** Conservation.  In a sequential run of the code the values delivered,
    followed by those still queued, are the values that were queued followed
    by those accepted: FIFO, no loss, no duplication, also across failed
    pushes and reservations. *)
Theorem lossless_run_conserves cmds q p c w :
  represents N q p c w → p_tail p + costs cmds + N < usize_lim →
  ∃ p' c' w' rs q',
    run N (exec_all N cmds (p, c)) w = Done (p', c', rs) w' ∧
    represents N q' p' c' w' ∧
    contents q ++ all_accepted cmds rs = all_delivered rs ++ contents q'.
Proof.
  intros R Hb. destruct (exec_all_spec N HN cmds q p c w R Hb) as (p' & c' & w' & E & R').
  eexists _, _, _, _, _. split_and!; [exact E|exact R'|]. apply q_exec_all_fifo.
Qed.

(** A push fails with [Full] exactly when [N] cells are in use (values
    not yet read, or read but not yet given back in a burst); it then
    drops the value and changes nothing else.  Otherwise the value is appended, unpublished. *)
Theorem lossless_push_spec q p c w v :
  represents N q p c w → p_tail p + N < usize_lim →
  if N <=? q_used q then run N (push N p v) w =
    Done (p, Err Full) (do_drop_value v w)
  else ∃ p' w', run N (push N p v) w = Done (p', Ok tt) w' ∧
       represents N (mkQueue (q_items q) (q_pending q ++ [v]) (q_credit q)) p' c w'.
Proof.
  intros R Hb. pose proof (rep_used _ _ _ _ _ R) as Hu. pose proof R as [].
  destruct (Z.leb_spec N (q_used q)).
  - pose proof (rep_tail_nonneg _ _ _ _ _ R). unfold push. run_step.
    change (get_loc HEAD (chan w)) with (head (chan w)).
    run_lift lia. rewrite (proj2 (Z.eqb_eq _ _)) by lia. by run_step.
  - destruct (push_spec N HN q p c w v R Hb) as (p' & w' & E & R' & _).
    unfold q_push in *. rewrite (proj2 (Z.leb_gt _ _)) in * by lia. eauto.
Qed.

(** C23: backpressure cannot jam.  When everything pushed has been popped,
    less than [burst_amount N] cells are withheld, so a push succeeds, and
    so does every reservation of at most [N + 1 - burst_amount N] cells. *)
Theorem lossless_drained_accepts q p c w v count :
  represents N q p c w → p_tail p + N < usize_lim →
  q_items q = [] → q_pending q = [] →
  0 < count ≤ N + 1 - burst_amount N →
  (∃ p' w', run N (push N p v) w = Done (p', Ok tt) w') ∧
  (∃ r, run N (reserve N p count) w = Done (Ok r) w).
Proof.
  intros R Hb Ei Ep Hc. pose proof (capacity_ok_pos N HN).
  pose proof (burst_amount_bounds N ltac:(lia)). pose proof R as [].
  assert (Hu : q_used q < burst_amount N) by (unfold q_used; rewrite Ei, Ep; cbn; lia).
  split.
  - destruct (push_spec N HN q p c w v R Hb) as (p' & w' & E & _).
    unfold q_push in E. rewrite (proj2 (Z.leb_gt _ _)) in E by lia. eauto.
  - destruct (reserve_spec N HN q p c w count R) as (o & E & Ho); [lia..|].
    unfold q_reserve in Ho. rewrite (proj2 (Z.eqb_neq _ _)) in Ho by lia.
    rewrite (proj2 (Z.ltb_ge N count)) in Ho by lia.
    rewrite (proj2 (Z.ltb_ge N _)) in Ho by lia. cbn in Ho.
    destruct Ho as (r & -> & _). eauto.
Qed.

(** C27: reading in place is [pop].  Taking an element with [pop_zerocopy],
    reading through it and dropping it behaves like [pop] from every state:
    same value, same consumer, same shared memory. *)
Theorem lossless_zerocopy_is_pop c w :
  run N (pop_through_element N c) w = run N (pop N c) w.
Proof. apply pop_through_element_spec. Qed.

(** C22: [write_all] with its one or two block copies writes what a loop of
    [write_next] writes: same reservation, same channel, for every position
    of the reservation relative to the end of the buffer. *)
Theorem write_all_equals_write_each q r vs c w us :
  reserved N q r vs c w →
  Z.of_nat (length vs) + Z.of_nat (length us) ≤ r_count r →
  p_tail (r_producer r) + N < usize_lim →
  ∃ r' w1 w2,
    run N (write_all N r us) w = Done r' w1 ∧
    run N (write_each N r us) w = Done r' w2 ∧
    chan w1 = chan w2 ∧ reserved N q r' (vs ++ us) c w1.
Proof.
  intros R Hl Hb. destruct (write_all_spec N HN q r vs c w us R Hl Hb) as (r' & w1 & E & R').
  pose proof E as E'. erewrite write_all_run in E' by done. injection E' as <- <-.
  erewrite write_each_run by done. eexists _, _, _. split_and!; [exact E|done| |done].
  by rewrite !ring_writes_chan.
Qed.

(** C26: the two writing methods refuse to leave the reservation: they panic
    and write nothing. *)
Theorem reservation_overflow_panics q r vs c w v us :
  reserved N q r vs c w → r_count r < usize_lim →
  (Z.of_nat (length vs) = r_count r →
   ∃ msg, run N (write_next N r v) w = Panicked (ExplicitPanic msg) w) ∧
  (r_count r < Z.of_nat (length vs) + Z.of_nat (length us) →
   ∃ msg, run N (write_all N r us) w = Panicked (ExplicitPanic msg) w).
Proof.
  intros R Hc. split; intros; [by eapply write_next_full|by eapply write_all_full].
Qed.

(** C25: [write_iter] writes as many items as there is room for, in order,
    and returns their number; but when it stops because the reservation is
    full it has already taken one more item, which it drops: the iterator is
    left after [S k] items, not after [k], and the item is lost to the
    caller. *)
Theorem write_iter_takes_one_more q r vs c w us :
  reserved N q r vs c w → p_tail (r_producer r) + N < usize_lim →
  let k := Z.to_nat (r_count r - r_written r) in
  ∃ r' w', run N (write_iter N list_next r us) w =
           Done (r', drop (S k) us, Z.of_nat (length (take k us))) w' ∧
           reserved N q r' (vs ++ take k us) c w' ∧
           (∀ u, us !! k = Some u → last (dropped w') = Some u).
Proof. intros R Hb. by apply write_iter_spec. Qed.

(** C24: [commit] adds the values written to the queue, and publishes them
    (with everything pushed before) only if at least [burst_amount N] values
    are then unpublished; otherwise they stay invisible to the consumer. *)
Theorem commit_publishes_bursts q r vs c w :
  reserved N q r vs c w → p_tail (r_producer r) + N < usize_lim →
  let pending := q_pending q ++ vs in
  ∃ p' w', run N (commit N r) w = Done p' w' ∧
    if burst_amount N <=? Z.of_nat (length pending)
    then represents N (mkQueue (q_items q ++ pending) [] (q_credit q)) p' c w'
    else represents N (mkQueue (q_items q) pending (q_credit q)) p' c w' ∧
         tail (chan w') = tail (chan w).
Proof.
  intros R Hb pending. destruct (commit_spec N HN q r vs c w R Hb) as (p' & w' & E & R' & Ht).
  exists p', w'. split; [exact E|]. unfold q_commit in R'. cbn [q_pending] in R'.
  fold pending in R'. destruct (Z.leb_spec (burst_amount N) (Z.of_nat (length pending)));
    [exact R'|]. split; [exact R'|].
  rewrite (rep_tail _ _ _ _ _ R'), (rep_tail _ _ _ _ _ (res_rep _ _ _ _ _ _ R)). done.
Qed.
End Sequential.

(** ** Joining, lifetime, heartbeats *)

Section Lifecycle.
Context {T : Type} {prof : Profile} (N : Z) (HN : capacity_ok N).
Implicit Types (w : World T) (p : Producer) (c : Consumer).

(** [lossless_pair] succeeds on every aligned allocation: it returns a
    producer and a consumer of an empty queue, which own the memory (strong
    count 2) and can be given to two threads; no element has been dropped. *)
Theorem lossless_pair_makes_empty_queue (zeroed : T) buffer :
  buffer mod 128 = 0 → buffer ≠ 0 →
  ∃ p c w, run N (lossless_pair N buffer) (new_uninit_zeroed N zeroed) = Done (p, c) w ∧
    represents N (mkQueue [] [] 0) p c w ∧ startable N p c w ∧
    strong w = 2 ∧ freed w = false ∧ dropped w = [].
Proof.
  intros Hb H0. destruct (lossless_pair_spec N HN zeroed buffer Hb H0)
    as ([p c] & w & E & Hf). exists p, c, w.
  split; [exact E|]. pose proof (fresh_pair_startable N HN _ _ _ _ Hf) as Hs.
  split_and!; [apply Hs|apply Hs|apply Hf..].
Qed.

(** The memory of a pair is released when the last of its two handles
    is dropped, in either order, and not before. *)
Theorem lossless_pair_lifetime zeroed addr p c w hs :
  fresh_pair N zeroed addr (p, c) w → hs ≡ₚ [inl p; inr c] →
  (∃ w1, run N (drop_handles (take 1 hs)) w = Done tt w1 ∧ freed w1 = false) ∧
  (∃ w2, run N (drop_handles hs) w = Done tt w2 ∧ freed w2 = true ∧
         dropped w2 = buffer (chan w)).
Proof.
  intros Hf Hp. apply Permutation_length in Hp as Hl.
  destruct hs as [|h1 [|h2 [|h3 hs]]]; try done.
  rewrite !drop_handles_arc. cbn [take length].
  pose proof (fp_strong _ _ _ _ _ Hf) as Hs. pose proof (fp_alive _ _ _ _ _ Hf).
  destruct (run_arc_drops N 1 w) as (w1 & E1 & _ & F1 & _); [done|lia|].
  destruct (run_arc_drops N 2 w) as (w2 & E2 & _ & F2 & D2); [done|lia|].
  rewrite Hs in F1, F2, D2. rewrite (fp_dropped _ _ _ _ _ Hf) in D2.
  split; [by exists w1|by exists w2].
Qed.

(** [join_or_initialize_in_] of the producer: joins a channel of the
    right capacity at its published tail (raising the heartbeat and the
    [Arc]'s count), sets up fresh memory, and reports every other state as
    an error without touching it. *)
Theorem lossless_join_or_initialize_cases M buffer w :
  buffer mod 128 = 0 → buffer ≠ 0 → freed w = false →
  run N (join_or_initialize_in_ M N buffer) w =
    if magic (chan w) =? MAGIC then
      if capacity (chan w) =? N then
        Done (Ok (mkProducer buffer (tail (chan w)) 0
                    (Channel.consumer_heartbeat (chan w))))
          (attach M (do_store N PRODUCER_HEARTBEAT
             (wrap64 (Channel.producer_heartbeat (chan w) + 1)) w))
      else Done (Err (IncorrectCapacity (capacity (chan w)))) w
    else if magic (chan w) =? 0 then
      Done (Ok (mkProducer buffer 0 0 0)) (attach M (init_stores N w))
    else Done (Err CorruptionDetected) w.
Proof. intros. by apply join_or_initialize_in__spec. Qed.

(** [Consumer::join] starts at the published tail and gives every cell
    back to the producer (whatever the previous consumer had not read is
    skipped); it never sets memory up. *)
Theorem lossless_consumer_join_cases M buffer w :
  buffer mod 128 = 0 → freed w = false →
  run N (join M N buffer) w =
    if magic (chan w) =? MAGIC then
      if capacity (chan w) =? N then
        Done (Ok (mkConsumer buffer (tail (chan w)) 0 0
                    (Channel.producer_heartbeat (chan w))))
          (attach M (do_store N HEAD (tail (chan w)) w))
      else Done (Err (IncorrectCapacity (capacity (chan w)))) w
    else if magic (chan w) =? 0 then Done (Err Uninitialized) w
    else Done (Err CorruptionDetected) w.
Proof. intros. by apply join_spec. Qed.

(** Every join panics, before it touches the memory, when the capacity
    is not a power of two or the address is not a multiple of 128. *)
Theorem lossless_join_rejects (K : Z) M addr w :
  is_power_of_two K = false ∨ (capacity_ok K ∧ addr mod 128 ≠ 0) →
  ∃ msg,
    run K (join_or_initialize_in_ M K addr) w = Panicked (AssertFailed msg) w ∧
    run K (join_ M K addr) w = Panicked (AssertFailed msg) w ∧
    run K (join M K addr) w = Panicked (AssertFailed msg) w.
Proof.
  unfold join_or_initialize_in_, join_, join. intros [H|[H1 H2]].
  - rewrite !run_check_join_capacity by done. eauto.
  - rewrite !run_check_join_unaligned by done. eauto.
Qed.

(** [n] beats of the consumer. *)
Fixpoint beats (n : nat) c : prog T unit :=
  match n with O => mret tt | S n => _ ← beat c; beats n c end.

Lemma run_beats n c w :
  freed w = false → is_usize (Channel.consumer_heartbeat (chan w)) →
  ∃ w', run N (beats n c) w = Done tt w' ∧ freed w' = false ∧
    Channel.consumer_heartbeat (chan w') =
    wrap64 (Channel.consumer_heartbeat (chan w) + Z.of_nat n).
Proof.
  revert w. induction n as [|n IH]; intros w Hf Hu.
  - exists w. rewrite Z.add_0_r, wrap64_small by done. done.
  - cbn [beats]. rewrite run_bind. unfold beat. run_step. rewrite run_ret. cbn [obind].
    set (w1 := do_store N CONSUMER_HEARTBEAT _ w).
    destruct (IH w1) as (w' & E & Hf' & Hh); [done|apply wrap64_is_usize|].
    exists w'. split_and!; [exact E|done|]. rewrite Hh.
    change (Channel.consumer_heartbeat (chan w1)) with
      (wrap64 (Channel.consumer_heartbeat (chan w) + 1)).
    unfold wrap64. rewrite Z.add_mod_idemp_l by done. f_equal. lia.
Qed.

(** The producer can tell a live consumer from a silent one: after [n]
    beats, fewer than [2 ^ 64], [consumer_heartbeat] is true iff there was
    at least one, and asking again without a beat gives false. *)
Theorem heartbeat_detects_beats n p c w :
  freed w = false → is_usize (Channel.consumer_heartbeat (chan w)) →
  Z.of_nat n < usize_lim →
  p_last_consumer_heartbeat p = Channel.consumer_heartbeat (chan w) →
  ∃ p' w', run N (_ ← beats n c; consumer_heartbeat p) w =
             Done (p', negb (Z.of_nat n =? 0)) w' ∧
           run N (consumer_heartbeat p') w' = Done (p', false) w'.
Proof.
  intros Hf Hu Hn Hp. destruct (run_beats n c w Hf Hu) as (w' & E & Hf' & Hh).
  rewrite run_bind, E. cbn [obind]. unfold consumer_heartbeat. run_step.
  change (get_loc CONSUMER_HEARTBEAT (chan w')) with (Channel.consumer_heartbeat (chan w')).
  destruct (Z.eqb_spec (Channel.consumer_heartbeat (chan w')) (p_last_consumer_heartbeat p))
    as [Eq|Ne]; cbn [negb]; rewrite run_ret; eexists _, _; split; try reflexivity.
  - f_equal. f_equal. rewrite Hh, Hp in Eq.
    destruct (Z.eqb_spec (Z.of_nat n) 0) as [|Hne]; [done|exfalso].
    apply Hne. unfold wrap64 in Eq. unfold is_usize in Hu.
    pose proof (Z.div_mod (Channel.consumer_heartbeat (chan w) + Z.of_nat n) usize_lim
      ltac:(done)). rewrite Eq in *. nia.
  - run_step. change (get_loc CONSUMER_HEARTBEAT (chan w')) with
      (Channel.consumer_heartbeat (chan w')). by rewrite Eq, Z.eqb_refl.
  - f_equal. f_equal. destruct (Z.eqb_spec (Z.of_nat n) 0) as [E0|]; [exfalso|done].
    rewrite Hh, Hp, E0, Z.add_0_r, wrap64_small in Ne; done.
  - run_step. change (get_loc CONSUMER_HEARTBEAT (chan w')) with
      (Channel.consumer_heartbeat (chan w')). cbn. by rewrite Z.eqb_refl.
Qed.
End Lifecycle.

(** ** Progress *)

Section Progress.
Context {T : Type} {prof : Profile} (N : Z).
Implicit Types (p : Producer) (c : Consumer) (r : Reservation).


End Progress.

(** ** Limits of the code *)

Section Limits.
Context {T : Type} {prof : Profile} (N : Z) (HN : capacity_ok N).
Implicit Types (w : World T) (p : Producer).


(** Where the counters end: the value pushed at the last position of all
    makes a build with overflow checks panic; otherwise the tail wraps to 0,
    and the consumer, which compares it with its head, never reads the value. *)
Theorem lossless_counters_end p c w (v : T) :
  freed w = false → Z.of_nat (length (buffer (chan w))) = N → 0 ≤ p_written p < usize_lim - 1 →
  p_tail p = usize_lim - 1 → head (chan w) = usize_lim - 1 → c_head c = usize_lim - 1 →
  if overflow_checks then run N (push N p v) w = Panicked AddOverflow w
  else ∃ p1 w1 p2 w2,
    run N (push N p v) w = Done (p1, Ok tt) w1 ∧ run N (sync p1) w1 = Done p2 w2 ∧
    buffer (chan w2) !! Z.to_nat (p_tail p mod N) = Some v ∧
    tail (chan w2) = 0 ∧ run N (pop N c) w2 = Done (c, None) w2.
Proof.
  intros Hf Hl Hw Ht Hh Hc. pose proof (capacity_ok_pos N HN). pose proof (capacity_ok_double N HN).
  assert (Hs : (slot N (p_tail p) < length (buffer (chan w)))%nat) by (by apply slot_in_buffer).
  destruct overflow_checks eqn:Ho; unfold push; run_step;
    change (get_loc HEAD (chan w)) with (head (chan w));
    (assert (E : uadd (head (chan w)) N = if overflow_checks then Pan AddOverflow
         else Val (wrap64 (head (chan w) + N))) by (apply checked_out; unfold is_usize; lia));
    rewrite Ho in E; rewrite E; [done|].
  cbn [lift]. rewrite run_bind, run_Ret. cbn [obind].
  assert (wrap64 (head (chan w) + N) = N - 1) as ->.
  { unfold wrap64. rewrite Hh. replace (usize_lim - 1 + N) with (N - 1 + 1 * usize_lim) by lia.
    rewrite Z.mod_add by done. apply Z.mod_small. lia. }
  rewrite (proj2 (Z.eqb_neq _ _)) by lia. rewrite (mask_slot N HN). run_step.
  assert (E' : uadd (p_tail p) 1 = if overflow_checks then Pan AddOverflow
    else Val (wrap64 (p_tail p + 1))) by (apply checked_out; unfold is_usize; lia).
  rewrite Ho in E'. rewrite E'. cbn [lift]. rewrite run_bind, run_Ret. cbn [obind]. run_lift lia. rewrite run_ret.
  eexists _, _, _, _. split; [done|]. split; [unfold sync; by rewrite run_bind, run_store|].
  split_and!.
  - cbn. by apply list_lookup_insert_eq.
  - cbn. by rewrite Ht.
  - unfold pop. run_step. cbn [chan do_store get_loc set_loc tail]. rewrite Ht.
    by rewrite (proj2 (Z.leb_le _ _)) by (rewrite Hc; vm_compute; discriminate).
Qed.

(** [push] assigns to the cell, so it drops the value it overwrites: a
    value that [pop] moved out of that cell [N] positions ago and handed to
    its caller, or, in the first round, the zeroed memory. *)
Theorem push_drops_overwritten q p c w v :
  represents N q p c w → p_tail p + N < usize_lim → q_used q < N →
  ∃ p' w' u, run N (push N p v) w = Done (p', Ok tt) w' ∧
    buffer (chan w) !! Z.to_nat (p_tail p mod N) = Some u ∧
    dropped w' = dropped w ++ [u].
Proof.
  intros R Hb Hu. pose proof (rep_used _ _ _ _ _ R) as Hq.
  pose proof (rep_used_nonneg _ _ _ _ _ R). pose proof (capacity_ok_pos N HN).
  pose proof R as []. unfold push. run_step.
  change (get_loc HEAD (chan w)) with (head (chan w)).
  run_lift (unfold q_used in *; lia). rewrite (proj2 (Z.eqb_neq _ _)) by lia.
  rewrite (mask_slot N HN). pose proof (slot_in_buffer N HN w (p_tail p) rep_length) as Hs.
  destruct (lookup_lt_is_Some_2 _ _ Hs) as [u Eu].
  run_step. run_lift (unfold q_used in *; lia). run_lift (unfold q_used in *; lia).
  rewrite run_ret. eexists _, _, u. split_and!; [done|exact Eu|].
  cbn. by rewrite Eu.
Qed.
End Limits.
