(* ===== verification/HeadlessProducer.v ===== *)
(** * The headless producer

    [src/que/src/headless_spmc/producer.rs] (and [burst_amount] of
    [src/que/src/headless_spmc/mod.rs]): the producer that never waits for its
    consumers and overwrites the oldest elements. *)

From S2P Require Import Prelude.
From S2P Require Import Rust.
From S2P Require Import Ring.
From S2P Require Import Errors.
From S2P Require Import Channel.
From S2P Require Import Join.

Definition BURST_DENOM : Z := 4.

Definition burst_amount (N : Z) : Z :=
  let x := N / BURST_DENOM in
  if x =? 0 then 1 else x.

Record Producer : Type := mkProducer {
  p_spsc : Z;
  p_tail : Z;
  p_written : Z;
  p_last_consumer_heartbeat : Z
}.

Section Producer.
Context {T : Type} {prof : Profile} (M : mode) (N : Z).

Definition MODULO_MASK : Z := N - 1.

Definition mask_index (x : Z) : nat := Z.to_nat (Z.land x MODULO_MASK).

Definition join_ (buffer : Z) : prog T (result Producer QueError) :=
  _ ← check_join N buffer;
  magic ← load MAGIC_WORD Acquire;
  capacity ← load CAPACITY Acquire;
  if magic =? MAGIC then
    if negb (capacity =? N) then mret (Err (IncorrectCapacity capacity))
    else
      _ ← (if BACKED_BY_ARCC M then arc_increment else mret tt);
      spsc ← lift (NonNull_new_unwrap buffer);
      tail ← load TAIL Acquire;
      last ← load CONSUMER_HEARTBEAT Acquire;
      mret (Ok (mkProducer spsc tail 0 last))
  else if magic =? 0 then mret (Err Uninitialized)
  else mret (Err CorruptionDetected).

Definition join_or_initialize_in_ (buffer : Z) :
    prog T (result Producer QueError) :=
  _ ← check_join N buffer;
  magic ← load MAGIC_WORD Acquire;
  capacity ← load CAPACITY Acquire;
  if magic =? MAGIC then
    if negb (capacity =? N) then mret (Err (IncorrectCapacity capacity))
    else
      _ ← fetch_add PRODUCER_HEARTBEAT Release 1;
      _ ← (if BACKED_BY_ARCC M then arc_increment else mret tt);
      spsc ← lift (NonNull_new_unwrap buffer);
      tail ← load TAIL Acquire;
      last ← load CONSUMER_HEARTBEAT Acquire;
      mret (Ok (mkProducer spsc tail 0 last))
  else if magic =? 0 then
    _ ← store MAGIC_WORD Release 0;
    _ ← store TAIL Release 0;
    _ ← store PRODUCER_HEARTBEAT Release 0;
    _ ← store CONSUMER_HEARTBEAT Release 0;
    _ ← store CAPACITY Release N;
    _ ← store MAGIC_WORD Release MAGIC;
    _ ← (if BACKED_BY_ARCC M then arc_increment else mret tt);
    spsc ← lift (NonNull_new_unwrap buffer);
    last ← load CONSUMER_HEARTBEAT Acquire;
    mret (Ok (mkProducer spsc 0 0 last))
  else mret (Err CorruptionDetected).

(** The part of [join_or_create_shmem] that follows the opening of the
    shared memory, mapped at [buffer]. *)
Definition join_or_create_mapped (buffer : Z) :
    prog T (result Producer QueError) :=
  magic ← load MAGIC_WORD Acquire;
  capacity ← load CAPACITY Acquire;
  if magic =? MAGIC then
    if negb (capacity =? N) then mret (Err (IncorrectCapacity capacity))
    else
      _ ← fetch_add PRODUCER_HEARTBEAT Release 1;
      spsc ← lift (NonNull_new_unwrap buffer);
      tail ← load TAIL Acquire;
      last ← load CONSUMER_HEARTBEAT Acquire;
      mret (Ok (mkProducer spsc tail 0 last))
  else if magic =? 0 then
    _ ← store TAIL Release 0;
    _ ← store PRODUCER_HEARTBEAT Release 0;
    _ ← store CONSUMER_HEARTBEAT Release 0;
    _ ← store CAPACITY Release N;
    _ ← store MAGIC_WORD Release MAGIC;
    spsc ← lift (NonNull_new_unwrap buffer);
    last ← load CONSUMER_HEARTBEAT Acquire;
    mret (Ok (mkProducer spsc 0 0 last))
  else mret (Err CorruptionDetected).

Definition sync (self : Producer) : prog T Producer :=
  let self := mkProducer (p_spsc self) (p_tail self) 0
                (p_last_consumer_heartbeat self) in
  _ ← store TAIL Release (p_tail self);
  mret self.

Definition push (self : Producer) (value : T) : prog T Producer :=
  self ← (if p_written self =? burst_amount N then sync self else mret self);
  _ ← assign_cell (mask_index (p_tail self)) value;
  tail ← lift (uadd (p_tail self) 1);
  written ← lift (uadd (p_written self) 1);
  mret (mkProducer (p_spsc self) tail written (p_last_consumer_heartbeat self)).

Definition beat (self : Producer) : prog T unit :=
  _ ← fetch_add PRODUCER_HEARTBEAT Release 1; mret tt.

Definition consumer_heartbeat (self : Producer) : prog T (Producer * bool) :=
  heartbeat ← load CONSUMER_HEARTBEAT Acquire;
  if negb (heartbeat =? p_last_consumer_heartbeat self) then
    mret (mkProducer (p_spsc self) (p_tail self) (p_written self) heartbeat, true)
  else mret (self, false).

Definition get_padding_ptr (self : Producer) : Z := p_spsc self + 512.

(** [impl Drop for Producer]. *)
Definition drop_producer (self : Producer) : prog T unit :=
  if BACKED_BY_ARCC M then arc_drop else mret tt.
End Producer.

(** *** In shared memory *)

(** Joins, and sets the channel up if it is not. *)
Definition join_or_initialize_in {T} {prof : Profile} (N buffer : Z) :
    prog T (result Producer QueError) := join_or_initialize_in_ ShmemMode N buffer.

(** Joins a channel that exists. *)
Definition join {T} {prof : Profile} (N buffer : Z) : prog T (result Producer QueError) :=
  join_ ShmemMode N buffer.
