(* ===== verification/HeadlessConsumer.v ===== *)
(** * The headless consumer

    [src/que/src/headless_spmc/consumer.rs]: consumers with a stride.  [pop]
    is an optimistic read that is validated afterwards and retried; its loop
    takes a bound on the number of iterations ([fuel]) and returns [None] in
    place of a result if it has not finished by then. *)

From S2P Require Import Prelude.
From S2P Require Import Rust.
From S2P Require Import Ring.
From S2P Require Import Errors.
From S2P Require Import Channel.
From S2P Require Import Join.
From S2P Require Import HeadlessProducer.

Record Consumer : Type := mkConsumer {
  c_spsc : Z;
  c_head : Z;
  c_interval : Z;
  c_consumer_index : Z;
  c_last_producer_heartbeat : Z
}.

Section Consumer.
Context {T : Type} {prof : Profile} (M : mode) (N : Z).

Definition next_modulo (head target_mod mod_value : Z) : res Z :=
  head_mod ← urem head mod_value;
  sum ← uadd target_mod mod_value;
  difference ← usub sum head_mod;
  add_value ← urem difference mod_value;
  uadd head add_value.

Definition join_multi_ (buffer index consumers : Z) :
    prog T (result Consumer QueError) :=
  _ ← check_join N buffer;
  _ ← assert (consumers <=? 64) "interval must be less than or equal to 64";
  _ ← assert (index <? consumers)
        "index must be less than the total number of consumers";
  magic ← load MAGIC_WORD Acquire;
  capacity ← load CAPACITY Acquire;
  if magic =? MAGIC then
    if negb (capacity =? N) then mret (Err (IncorrectCapacity capacity))
    else
      head ← load TAIL Acquire;
      _ ← (if BACKED_BY_ARCC M then arc_increment else mret tt);
      head ← lift (next_modulo head index consumers);
      last ← load PRODUCER_HEARTBEAT Acquire;
      mret (Ok (mkConsumer buffer head consumers index last))
  else if magic =? 0 then mret (Err Uninitialized)
  else mret (Err CorruptionDetected).

(** [N - burst_amount::<N>()]: how far behind [tail] a cell can be read. *)
Definition window : res Z := usub N (burst_amount N).

Definition with_head (self : Consumer) (head : Z) : Consumer :=
  mkConsumer (c_spsc self) head (c_interval self) (c_consumer_index self)
    (c_last_producer_heartbeat self).

(** Moves an overrun consumer to the oldest position it may still read. *)
Definition reset_head (self : Consumer) (tail : Z) : prog T Consumer :=
  window ← lift window;
  head ← lift (next_modulo (wrapping_sub tail window)
                 (c_consumer_index self) (c_interval self));
  mret (with_head self head).

(** One iteration of the loop: [inl] is [continue], [inr] is [return]. *)
Definition pop_iteration (self : Consumer) :
    prog T (Consumer + (Consumer * option T)) :=
  initial_tail ← load TAIL Acquire;
  if initial_tail <=? c_head self then mret (inr (self, None))
  else
    window ← lift window;
    let not_overrun := initial_tail <=? wrapping_add (c_head self) window in
    if negb not_overrun then
      self ← reset_head self initial_tail; mret (inl self)
    else
      let head_index := mask_index N (c_head self) in
      value ← read_cell head_index;
      current_tail ← load TAIL Acquire;
      let still_not_overrun := current_tail <=? wrapping_add (c_head self) window in
      if negb still_not_overrun then
        self ← reset_head self current_tail;
        _ ← drop_value value;
        mret (inl self)
      else
        head ← lift (uadd (c_head self) (c_interval self));
        mret (inr (with_head self head, Some value)).

Fixpoint pop (fuel : nat) (self : Consumer) :
    prog T (Consumer * option (option T)) :=
  match fuel with
  | O => mret (self, None)
  | S fuel =>
      r ← pop_iteration self;
      match r with
      | inl self => pop fuel self
      | inr (self, o) => mret (self, Some o)
      end
  end.

Definition beat (self : Consumer) : prog T unit :=
  _ ← fetch_add CONSUMER_HEARTBEAT Release 1; mret tt.

Definition producer_heartbeat (self : Consumer) : prog T (Consumer * bool) :=
  heartbeat ← load PRODUCER_HEARTBEAT Acquire;
  if negb (heartbeat =? c_last_producer_heartbeat self) then
    mret (mkConsumer (c_spsc self) (c_head self) (c_interval self)
            (c_consumer_index self) heartbeat, true)
  else mret (self, false).

Definition get_padding_ptr (self : Consumer) : Z := c_spsc self + 512.

(** [impl Drop for Consumer]. *)
Definition drop_consumer (self : Consumer) : prog T unit :=
  if BACKED_BY_ARCC M then arc_drop else mret tt.
End Consumer.

(** *** In shared memory *)

Definition join_multi {T} {prof : Profile} (N buffer index consumers : Z) :
    prog T (result Consumer QueError) := join_multi_ ShmemMode N buffer index consumers.

(** Joins as the only consumer. *)
Definition join {T} {prof : Profile} (N buffer : Z) : prog T (result Consumer QueError) :=
  join_multi N buffer 0 1.


(** ** [next_modulo] *)

(** The least position not before [head] that is [target] modulo [m]. *)
Definition next_congruent (head target m : Z) : Z :=
  head + (target - head) mod m.

Lemma next_congruent_spec head target m :
  0 ≤ target < m →
  next_congruent head target m mod m = target ∧
  head ≤ next_congruent head target m < head + m ∧
  ∀ x, head ≤ x → x mod m = target → next_congruent head target m ≤ x.
Proof.
  intros Ht. unfold next_congruent.
  pose proof (Z.mod_pos_bound (target - head) m ltac:(lia)).
  assert (Hm : (head + (target - head) mod m) mod m = target).
  { rewrite Z.add_mod_idemp_r by lia.
    replace (head + (target - head)) with target by lia. by apply Z.mod_small. }
  split_and!; [done|lia|lia|]. intros x Hx Hxm.
  destruct (Z.le_gt_cases (head + (target - head) mod m) x); [done|].
  assert (x = head + (target - head) mod m); [|lia].
  apply (Ring.mod_window m); lia.
Qed.

Lemma next_modulo_val {prof : Profile} head target m :
  0 ≤ head → 0 ≤ target < m → target + m < usize_lim → head + m ≤ usize_lim →
  next_modulo head target m = Val (next_congruent head target m).
Proof.
  intros Hh Ht H1 H2. unfold next_modulo, next_congruent.
  pose proof (Z.mod_pos_bound head m ltac:(lia)).
  pose proof (Z.mod_pos_bound (target - head) m ltac:(lia)).
  rewrite urem_val by lia. cbn [mbind res_bind].
  rewrite uadd_val by (unfold is_usize; lia). cbn [mbind res_bind].
  rewrite usub_val by (unfold is_usize; lia). cbn [mbind res_bind].
  rewrite urem_val by lia. cbn [mbind res_bind].
  replace (target + m - head mod m) with (target - head mod m + 1 * m) by lia.
  rewrite Z.mod_add by lia. rewrite Zminus_mod_idemp_r.
  by rewrite uadd_val by (unfold is_usize; lia).
Qed.
