(* ===== verification/HeadlessLog.v ===== *)
(** * The headless channel as a log with a sliding window

    The functional behaviour of the headless operations, run alone.  The
    producer appends to a log; a consumer reads every [interval]-th entry and
    can go back at most [N - burst_amount N] entries behind the published end
    of the log, the oldest entry the producer cannot be overwriting. *)

From S2P Require Import Prelude.
From S2P Require Import Rust.
From S2P Require Import Ring.
From S2P Require Import Errors.
From S2P Require Import Channel.
From S2P Require Import HeadlessProducer.
From S2P Require Import HeadlessConsumer.

Lemma headless_burst_amount_bounds N : 0 < N → 1 ≤ burst_amount N ≤ N.
Proof.
  intros. unfold burst_amount, BURST_DENOM.
  pose proof (Z.div_le_upper_bound N 4 N). pose proof (Z.div_pos N 4).
  bool_cases; lia.
Qed.

(** How far behind the published tail a consumer may read. *)
Definition reach (N : Z) : Z := N - burst_amount N.

Lemma reach_pos N : 2 ≤ N → 1 ≤ reach N.
Proof.
  intros. unfold reach, burst_amount, BURST_DENOM.
  pose proof (Z.div_lt N 4 ltac:(lia) ltac:(lia)). bool_cases; lia.
Qed.

Lemma window_val {prof : Profile} N : 0 < N < usize_lim → window N = Val (reach N).
Proof.
  intros. pose proof (headless_burst_amount_bounds N). unfold window.
  apply usub_val. unfold is_usize. lia.
Qed.

(** ** The specification of [pop] *)

(** Where a consumer with cursor [head] reads when the published tail is
    [tail]. *)
Definition cursor (N index interval tail head : Z) : Z :=
  if tail <=? head + reach N then head
  else next_congruent (tail - reach N) index interval.

(** The next cursor, and the position read if any. *)
Definition log_pop (N index interval tail head : Z) : Z * option Z :=
  let h := cursor N index interval tail head in
  if tail <=? h then (h, None) else (h + interval, Some h).

(** ** The specification of [push] and [sync] *)

(** Everything pushed so far, and how much of it is published. *)
Record Log (T : Type) : Type := mkLog {
  l_items : list T;
  l_synced : nat
}.
Arguments mkLog {T}. Arguments l_items {T}. Arguments l_synced {T}.

Definition log_sync {T} (l : Log T) : Log T :=
  mkLog (l_items l) (length (l_items l)).

Definition log_unsynced {T} (l : Log T) : Z :=
  Z.of_nat (length (l_items l)) - Z.of_nat (l_synced l).

(** A push first publishes a full burst. *)
Definition log_push {T} (N : Z) (v : T) (l : Log T) : Log T :=
  let l := if log_unsynced l =? burst_amount N then log_sync l else l in
  mkLog (l_items l ++ [v]) (l_synced l).

Section Log.
Context {T : Type} {prof : Profile} (N : Z).
Context (HN : capacity_ok N).
Implicit Types (w : World T) (p : Producer) (c : Consumer).

Let HN0 : 0 < N < usize_lim := capacity_ok_pos N HN.
Let Hpow : is_power_of_two N = true := proj1 HN.

Lemma reach_bounds : 0 ≤ reach N < N.
Proof. pose proof (headless_burst_amount_bounds N). unfold reach. lia. Qed.

Lemma headless_mask_slot x : mask_index N x = slot N x.
Proof. unfold mask_index, MODULO_MASK, slot. by rewrite land_mask. Qed.

Lemma headless_slot_in_buffer w x :
  Z.of_nat (length (buffer (chan w))) = N →
  (slot N x < length (buffer (chan w)))%nat.
Proof. intros E. pose proof (slot_lt N (proj1 HN0) x). lia. Qed.

(** A consumer as [join_multi_] and [pop] leave it. *)
Record consumer_wf c : Prop := {
  wf_interval : 0 < c_interval c ≤ 64;
  wf_index : 0 ≤ c_consumer_index c < c_interval c;
  wf_head : 0 ≤ c_head c;
  wf_congruent : c_head c mod c_interval c = c_consumer_index c
}.

(** Shared memory a consumer can read, the counters being in range. *)
Record readable w : Prop := {
  rd_alive : freed w = false;
  rd_length : Z.of_nat (length (buffer (chan w))) = N;
  rd_tail : 0 ≤ tail (chan w);
  rd_range : tail (chan w) + N + 64 < usize_lim
}.

(** The cursor is at most one stride ahead of the published tail. *)
Definition near (t : Z) c : Prop := c_head c < t + c_interval c.

Lemma wrapping_window c t :
  consumer_wf c → near t c → t + N + 64 < usize_lim →
  wrapping_add (c_head c) (reach N) = c_head c + reach N.
Proof.
  intros [] Hn Ht. pose proof reach_bounds. unfold near in Hn.
  apply wrap64_small. unfold is_usize. lia.
Qed.

(** The position an overrun consumer is reset to. *)
Lemma reset_head_val c t :
  consumer_wf c → reach N ≤ t → t + N + 64 < usize_lim →
  ∀ {B} (f : Consumer → prog T B),
  (reset_head N c t ≫= f) =
  f (with_head c (next_congruent (t - reach N) (c_consumer_index c) (c_interval c))).
Proof.
  intros [] Ht Hr B f. pose proof reach_bounds. unfold reset_head.
  rewrite window_val by done. cbn [lift mbind prog_mbind prog_bind].
  unfold wrapping_sub. rewrite wrap64_small by (unfold is_usize; lia).
  by rewrite next_modulo_val by lia.
Qed.

Lemma reset_wf c t :
  consumer_wf c → reach N ≤ t →
  let c' := with_head c
    (next_congruent (t - reach N) (c_consumer_index c) (c_interval c)) in
  consumer_wf c' ∧ near t c' ∧ t - reach N ≤ c_head c'.
Proof.
  intros [] Ht c'. pose proof reach_bounds.
  destruct (next_congruent_spec (t - reach N) (c_consumer_index c) (c_interval c))
    as (H1 & H2 & _); [done|].
  subst c'. split_and!; [split; cbn; try done; lia| |cbn; lia].
  unfold near. cbn. lia.
Qed.

(** *** One iteration *)

Lemma iteration_caught_up c w :
  freed w = false → tail (chan w) ≤ c_head c →
  run N (pop_iteration N c) w = Done (inr (c, None)) w.
Proof.
  intros Hf Ht. unfold pop_iteration. run_step.
  change (get_loc TAIL (chan w)) with (tail (chan w)).
  by rewrite (proj2 (Z.leb_le _ _)).
Qed.

Lemma iteration_overrun c w :
  readable w → consumer_wf c → near (tail (chan w)) c →
  c_head c + reach N < tail (chan w) →
  run N (pop_iteration N c) w =
  Done (inl (with_head c (next_congruent (tail (chan w) - reach N)
               (c_consumer_index c) (c_interval c)))) w.
Proof.
  intros [] Hwf Hn Ht. pose proof reach_bounds. pose proof Hwf as [].
  unfold pop_iteration. run_step.
  change (get_loc TAIL (chan w)) with (tail (chan w)).
  rewrite (proj2 (Z.leb_gt _ _)) by lia.
  rewrite window_val by done. cbn [lift]. rewrite run_bind. cbn [run obind].
  erewrite wrapping_window by done. rewrite (proj2 (Z.leb_gt _ _)) by lia.
  cbn [negb]. by rewrite reset_head_val by (done || lia).
Qed.

Lemma iteration_read c w :
  readable w → consumer_wf c →
  c_head c < tail (chan w) ≤ c_head c + reach N →
  ∃ v, ring_get N (buffer (chan w)) (c_head c) = Some v ∧
    run N (pop_iteration N c) w =
    Done (inr (with_head c (c_head c + c_interval c), Some v)) w.
Proof.
  intros [] Hwf Ht. pose proof reach_bounds. pose proof Hwf as [].
  destruct (ring_get_is_Some N ltac:(lia) (buffer (chan w)) (c_head c)) as [v Hv];
    [done|]. exists v. split; [done|].
  unfold pop_iteration. run_step.
  change (get_loc TAIL (chan w)) with (tail (chan w)).
  rewrite (proj2 (Z.leb_gt _ _)) by lia.
  rewrite window_val by done. cbn [lift]. rewrite run_bind. cbn [run obind].
  rewrite (wrapping_window c (tail (chan w))) by (done || (unfold near; lia)).
  rewrite (proj2 (Z.leb_le _ _)) by lia. cbn [negb].
  rewrite headless_mask_slot. unfold ring_get in Hv. run_step. run_step.
  change (get_loc TAIL (chan w)) with (tail (chan w)).
  rewrite (proj2 (Z.leb_le _ _)) by lia. cbn [negb].
  by run_lift lia.
Qed.

(** *** The loop: two iterations are enough *)

Lemma headless_pop_spec c w fuel :
  readable w → consumer_wf c → near (tail (chan w)) c → (2 ≤ fuel)%nat →
  let '(h, o) := log_pop N (c_consumer_index c) (c_interval c)
                   (tail (chan w)) (c_head c) in
  ∃ v, run N (pop N fuel c) w = Done (with_head c h, Some v) w ∧
       v = (o ≫= ring_get N (buffer (chan w))) ∧ (is_Some o → is_Some v).
Proof.
  intros R Hwf Hn Hfuel. pose proof reach_bounds. pose proof Hwf as [].
  destruct fuel as [|[|fuel]]; [lia..|].
  assert (Hread : ∀ c' n, consumer_wf c' → tail (chan w) ≤ c_head c' + reach N →
    let h := c_head c' in
    ∃ v, run N (pop N (S n) c') w =
         Done (with_head c' (if tail (chan w) <=? h then h else h + c_interval c'),
               Some v) w ∧
         v = (if tail (chan w) <=? h then None else ring_get N (buffer (chan w)) h) ∧
         (h < tail (chan w) → is_Some v)).
  { intros c' n Hwf' Ht h. subst h. cbn [pop]. rewrite run_bind. bool_case.
    - rewrite iteration_caught_up by (apply R || done). cbn [obind]. rewrite run_ret.
      exists None. split_and!; [by destruct c'|done|lia].
    - destruct (iteration_read c' w R Hwf') as (v & Hv & ->); [lia|].
      cbn [obind]. rewrite run_ret, Hv. eauto. }
  unfold log_pop, cursor. destruct (Z.leb_spec (tail (chan w)) (c_head c + reach N)).
  - destruct (Hread c (S fuel) Hwf) as (v & -> & -> & Hs); [done|].
    destruct (Z.leb_spec (tail (chan w)) (c_head c)); eexists; (split; [done|]).
    + split; [done|]. by intros [].
    + split; [done|]. intros _. by apply Hs.
  - destruct (reset_wf c (tail (chan w)) Hwf) as (Hwf' & Hn' & Hge); [lia|].
    cbn [pop]. rewrite run_bind, iteration_overrun by done. cbn [obind].
    destruct (Hread _ fuel Hwf') as (v & E & -> & Hs); [lia|]. cbn in E, Hs |- *.
    rewrite E. clear E.
    destruct (Z.leb_spec (tail (chan w)) (next_congruent (tail (chan w) - reach N)
      (c_consumer_index c) (c_interval c))); eexists; (split; [done|]).
    + split; [done|]. by intros [].
    + split; [done|]. intros _. by apply Hs.
Qed.

(** *** The producer *)

#[local] Hint Resolve headless_slot_in_buffer : que.

(** The producer and the shared memory represent the log [l], whose first
    entry is at position [t0]: the last [N] entries are in the buffer. *)
Record logs (t0 : Z) (l : Log T) p w : Prop := {
  lg_alive : freed w = false;
  lg_length : Z.of_nat (length (buffer (chan w))) = N;
  lg_start : 0 ≤ t0;
  lg_tail : tail (chan w) = t0 + Z.of_nat (l_synced l);
  lg_local : p_tail p = t0 + Z.of_nat (length (l_items l));
  lg_written : p_written p = log_unsynced l;
  lg_burst : 0 ≤ log_unsynced l ≤ burst_amount N;
  lg_cells : ∀ k v, l_items l !! k = Some v →
    Z.of_nat (length (l_items l)) ≤ Z.of_nat k + N →
    ring_get N (buffer (chan w)) (t0 + Z.of_nat k) = Some v
}.

Lemma headless_sync_spec t0 l p w :
  logs t0 l p w →
  ∃ p' w', run N (sync p) w = Done p' w' ∧ logs t0 (log_sync l) p' w' ∧
           p_tail p' = p_tail p.
Proof.
  intros []. pose proof (headless_burst_amount_bounds N). unfold sync. run_step.
  rewrite run_ret. eexists _, _. split; [done|]. split; [|done].
  split; unfold log_unsynced; cbn; done || lia.
Qed.

(** A push that does not need to publish first. *)
Lemma append_spec t0 l p w v :
  logs t0 l p w → log_unsynced l < burst_amount N → p_tail p + 1 < usize_lim →
  ∃ p' w', run N (_ ← assign_cell (mask_index N (p_tail p)) v;
                  tail ← lift (uadd (p_tail p) 1);
                  written ← lift (uadd (p_written p) 1);
                  mret (mkProducer (p_spsc p) tail written
                          (p_last_consumer_heartbeat p))) w = Done p' w' ∧
           logs t0 (mkLog (l_items l ++ [v]) (l_synced l)) p' w' ∧
           p_tail p' = p_tail p + 1.
Proof.
  intros [] Hlt Hb. pose proof (headless_burst_amount_bounds N). unfold log_unsynced in *.
  rewrite headless_mask_slot. run_step. run_lift lia. run_lift lia. rewrite run_ret.
  eexists _, _. split; [done|]. split; [|done].
  split; unfold log_unsynced; cbn; rewrite ?length_insert, ?length_zapp; cbn;
    try done; try lia.
  intros k u Hk Hge. rewrite lg_local0.
  apply list_lookup_snoc_cases in Hk as [Hk|[-> ->]].
  - pose proof (lookup_lt_Some _ _ _ Hk).
    rewrite ring_get_set_ne by lia. apply lg_cells0; [done|lia].
  - apply ring_get_set_eq; [lia|done].
Qed.

Lemma headless_push_spec t0 l p w v :
  logs t0 l p w → p_tail p + 1 < usize_lim →
  ∃ p' w', run N (push N p v) w = Done p' w' ∧ logs t0 (log_push N v l) p' w' ∧
           p_tail p' = p_tail p + 1.
Proof.
  intros L Hb. unfold push, log_push. rewrite run_bind, (lg_written _ _ _ _ L).
  pose proof (lg_burst _ _ _ _ L). pose proof (headless_burst_amount_bounds N ltac:(lia)).
  bool_case.
  - destruct (headless_sync_spec t0 l p w L) as (p1 & w1 & -> & L1 & Ht). cbn [obind].
    edestruct (append_spec t0 (log_sync l) p1 w1 v L1) as (p2 & w2 & E2 & L2 & Ht2);
      [unfold log_unsynced; cbn; lia|lia|].
    rewrite E2. eexists _, _. split_and!; [done..|lia].
  - rewrite run_ret. cbn [obind]. by apply append_spec; [|lia|].
Qed.

(** *** Reading the log *)

(** What a consumer at a position of the window finds there. *)
Lemma logs_read t0 l p w h :
  logs t0 l p w → t0 ≤ h → tail (chan w) - reach N ≤ h < tail (chan w) →
  ring_get N (buffer (chan w)) h = l_items l !! Z.to_nat (h - t0).
Proof.
  intros [] Hh Hw. unfold reach, log_unsynced in *.
  destruct (lookup_lt_is_Some_2 (l_items l) (Z.to_nat (h - t0))) as [v Hv]; [lia|].
  rewrite Hv. rewrite <- (lg_cells0 _ _ Hv) by lia. f_equal. lia.
Qed.

Lemma logs_readable t0 l p w :
  logs t0 l p w → p_tail p + N + 64 < usize_lim → readable w.
Proof. intros [] Hb. unfold log_unsynced in *. split; done || lia. Qed.

Lemma cursor_bounds index interval t h :
  0 ≤ index < interval → t - reach N ≤ cursor N index interval t h ∧
  h ≤ cursor N index interval t h.
Proof.
  intros Hi. unfold cursor. destruct (Z.leb_spec t (h + reach N)); [lia|].
  destruct (next_congruent_spec (t - reach N) index interval) as (_ & H1 & _);
    [done|lia].
Qed.
End Log.
