(* ===== verification/HeadlessRefinement.v ===== *)
(** * Runs of the headless channel refine runs of the log

    A run is a sequence of calls on the producer and on any of the consumers,
    each executed to its end before the next.  Whatever the sequence, every
    consumer reads what the log and its own cursor say. *)

From S2P Require Import Prelude.
From S2P Require Import Rust.
From S2P Require Import Ring.
From S2P Require Import Errors.
From S2P Require Import Channel.
From S2P Require Import HeadlessProducer.
From S2P Require Import HeadlessConsumer.
From S2P Require Import HeadlessLog.

Inductive command (T : Type) : Type :=
  | CPush (v : T)
  | CSync
  | CPop (i : nat).
Arguments CPush {T}. Arguments CSync {T}. Arguments CPop {T}.

(** A consumer of the specification: its stride and its position. *)
Record Cursor : Type := mkCursor {
  u_index : Z;
  u_interval : Z;
  u_head : Z
}.

Section Runs.
Context {T : Type} {prof : Profile} (N : Z).
Implicit Types (w : World T) (l : Log T) (p : Producer) (c : Consumer)
  (cs : list Consumer) (us : list Cursor).

(** ** Runs of the code *)

(** The reply is the result of a [pop] that has finished. *)
Definition exec (cmd : command T) (s : Producer * list Consumer) :
    prog T (Producer * list Consumer * option (option T)) :=
  let '(p, cs) := s in
  match cmd with
  | CPush v => p ← push N p v; mret (p, cs, Some None)
  | CSync => p ← sync p; mret (p, cs, Some None)
  | CPop i =>
      match cs !! i with
      | Some c => '(c, o) ← pop N 2 c; mret (p, <[i := c]> cs, o)
      | None => mret (p, cs, Some None)
      end
  end.

Fixpoint exec_all (cmds : list (command T)) (s : Producer * list Consumer) :
    prog T (Producer * list Consumer * list (option (option T))) :=
  match cmds with
  | [] => mret (s, [])
  | cmd :: cmds =>
      '(s, r) ← exec cmd s;
      '(s, rs) ← exec_all cmds s;
      mret (s, r :: rs)
  end.

(** ** Runs of the log *)

Context (t0 : Z).

(** What a consumer reads next, and where it is then. *)
Definition log_read l (u : Cursor) : Cursor * option T :=
  let '(h, o) := log_pop N (u_index u) (u_interval u)
                   (t0 + Z.of_nat (l_synced l)) (u_head u) in
  (mkCursor (u_index u) (u_interval u) h,
   o ≫= fun h => l_items l !! Z.to_nat (h - t0)).

Definition log_exec (cmd : command T) (s : Log T * list Cursor) :
    Log T * list Cursor * option T :=
  let '(l, us) := s in
  match cmd with
  | CPush v => (log_push N v l, us, None)
  | CSync => (log_sync l, us, None)
  | CPop i =>
      match us !! i with
      | Some u => let '(u, o) := log_read l u in (l, <[i := u]> us, o)
      | None => (l, us, None)
      end
  end.

Fixpoint log_exec_all (cmds : list (command T)) (s : Log T * list Cursor) :
    Log T * list Cursor * list (option T) :=
  match cmds with
  | [] => (s, [])
  | cmd :: cmds =>
      let '(s, r) := log_exec cmd s in
      let '(s, rs) := log_exec_all cmds s in
      (s, r :: rs)
  end.

(** ** The simulation *)

Context (HN : capacity_ok N).

Definition consumer_log (t : Z) c (u : Cursor) : Prop :=
  u = mkCursor (c_consumer_index c) (c_interval c) (c_head c) ∧
  consumer_wf c ∧ near t c ∧ t0 ≤ c_head c.

Definition simulates (s : Log T * list Cursor) (x : Producer * list Consumer)
    w : Prop :=
  logs N t0 s.1 x.1 w ∧ Forall2 (consumer_log (tail (chan w))) x.2 s.2.

Lemma consumer_log_mono t t' c u :
  t ≤ t' → consumer_log t c u → consumer_log t' c u.
Proof. intros Ht (?&?&Hn&?). split_and!; try done. unfold near in *. lia. Qed.

Definition is_push (cmd : command T) : Z :=
  match cmd with CPush _ => 1 | _ => 0 end.

Fixpoint pushes (cmds : list (command T)) : Z :=
  match cmds with [] => 0 | cmd :: cmds => is_push cmd + pushes cmds end.

Lemma pushes_nonneg cmds : 0 ≤ pushes cmds.
Proof. induction cmds as [|[] ?]; cbn; lia. Qed.

(** A [pop] of one consumer. *)
Lemma pop_log l p w c u :
  logs N t0 l p w → p_tail p + N + 64 < usize_lim →
  consumer_log (tail (chan w)) c u →
  ∃ c', run N (pop N 2 c) w = Done (c', Some (log_read l u).2) w ∧
        consumer_log (tail (chan w)) c' (log_read l u).1.
Proof.
  intros L Hb (-> & Hwf & Hn & H0).
  pose proof (logs_readable N t0 l p w L Hb) as Rd. pose proof Hwf as [].
  pose proof (headless_pop_spec N HN c w 2 Rd Hwf Hn ltac:(lia)) as Hp.
  unfold log_read. cbn [u_index u_interval u_head].
  rewrite <- (lg_tail _ _ _ _ _ L).
  unfold log_pop in *. set (h := cursor _ _ _ _ _) in *.
  destruct (cursor_bounds N (c_consumer_index c) (c_interval c)
    (tail (chan w)) (c_head c)) as [Hlo Hh]; [done|]. fold h in Hlo, Hh.
  assert (Hcon : h mod c_interval c = c_consumer_index c).
  { subst h. unfold cursor. destruct (Z.leb_spec (tail (chan w)) (c_head c + reach N));
      [done|]. by apply next_congruent_spec. }
  assert (Hnear : h < tail (chan w) + c_interval c).
  { subst h. unfold cursor. destruct (Z.leb_spec (tail (chan w)) (c_head c + reach N));
      [done|]. pose proof (reach_bounds N HN).
    destruct (next_congruent_spec (tail (chan w) - reach N) (c_consumer_index c)
      (c_interval c)) as (_ & Hnc & _); [done|lia]. }
  destruct (Z.leb_spec (tail (chan w)) h); destruct Hp as (v & -> & -> & _);
    eexists; (split; [cbn; do 3 f_equal|]).
  - split_and!; [done|by split; cbn; done || lia|done|cbn; lia].
  - by apply (logs_read N t0 l p); [done|lia|lia].
  - split_and!; [done| |cbn|cbn; lia].
    + split; cbn; try done; try lia. by rewrite <- Z.add_mod_idemp_r, Z.mod_same, Z.add_0_r by lia.
    + unfold near; cbn; lia.
Qed.

Lemma headless_exec_spec s p cs w cmd :
  simulates s (p, cs) w → p_tail p + is_push cmd + N + 64 < usize_lim →
  ∃ p' cs' w',
    run N (exec cmd (p, cs)) w = Done (p', cs', Some (log_exec cmd s).2) w' ∧
    simulates (log_exec cmd s).1 (p', cs') w' ∧
    p_tail p' = p_tail p + is_push cmd.
Proof.
  destruct s as [l us]. intros [L Hcs] Hb. cbn [fst snd] in L, Hcs.
  pose proof (lg_length _ _ _ _ _ L).
  assert (Hmono : ∀ w', tail (chan w) ≤ tail (chan w') →
    Forall2 (consumer_log (tail (chan w'))) cs us).
  { intros w' Ht. eapply Forall2_impl; [done|].
    intros c u. by apply consumer_log_mono. }
  pose proof (lg_burst _ _ _ _ _ L) as Hu. unfold log_unsynced in Hu.
  pose proof (lg_tail _ _ _ _ _ L) as Ht.
  destruct cmd as [v| |i]; cbn [exec log_exec is_push] in *.
  - destruct (headless_push_spec N HN t0 l p w v L) as (p' & w' & E & L' & Ht'); [lia|].
    rewrite run_bind, E. cbn [obind]. rewrite run_ret.
    eexists _, _, _. split; [done|]. split; [|done]. split; [done|].
    apply Hmono. rewrite (lg_tail _ _ _ _ _ L'), Ht.
    unfold log_push. bool_case; cbn; lia.
  - destruct (headless_sync_spec N HN t0 l p w L) as (p' & w' & E & L' & Ht').
    rewrite run_bind, E. cbn [obind]. rewrite run_ret.
    eexists _, _, _. split; [done|]. split; [|lia]. split; [done|].
    apply Hmono. rewrite (lg_tail _ _ _ _ _ L'), Ht. cbn. lia.
  - destruct (cs !! i) as [c|] eqn:Hi.
    + destruct (Forall2_lookup_l _ _ _ _ _ Hcs Hi) as (u & Hu' & Hc). rewrite Hu'.
      destruct (pop_log l p w c u L ltac:(lia) Hc) as (c' & E & Hc').
      rewrite run_bind, E. cbn [obind]. rewrite run_ret.
      destruct (log_read l u) as [u' o]. cbn [fst snd] in *.
      eexists _, _, _. split; [done|]. split; [|lia]. split; [done|].
      by apply Forall2_insert.
    + rewrite (proj1 (Forall2_lookup_None _ _ _ i Hcs) Hi) || idtac.
      destruct (us !! i) as [u|] eqn:Hu'.
      { destruct (Forall2_lookup_r _ _ _ _ _ Hcs Hu') as (c & Hc & _). congruence. }
      rewrite run_ret. eexists _, _, _. split; [done|]. by split; [|lia].
Qed.

Lemma headless_exec_all_spec cmds s p cs w :
  simulates s (p, cs) w → p_tail p + pushes cmds + N + 64 < usize_lim →
  ∃ p' cs' w',
    run N (exec_all cmds (p, cs)) w =
      Done (p', cs', Some <$> (log_exec_all cmds s).2) w' ∧
    simulates (log_exec_all cmds s).1 (p', cs') w'.
Proof.
  revert s p cs w. induction cmds as [|cmd cmds IH]; intros s p cs w R Hb.
  { eexists _, _, _. by split. }
  cbn [exec_all log_exec_all pushes] in *. pose proof (pushes_nonneg cmds).
  destruct (headless_exec_spec s p cs w cmd R) as (p1 & cs1 & w1 & E1 & R1 & Ht1); [lia|].
  destruct (log_exec cmd s) as [s1 r1]; cbn [fst snd] in *.
  destruct (IH s1 p1 cs1 w1 R1) as (p2 & cs2 & w2 & E2 & R2); [lia|].
  destruct (log_exec_all cmds s1) as [s2 rs]; cbn [fst snd] in *.
  rewrite run_bind, E1. cbn [obind]. rewrite run_bind, E2. cbn [obind].
  rewrite run_ret. eexists _, _, _. by split.
Qed.

(** ** Round trips of the log *)

Lemma log_exec_all_app cmds cmds' s :
  log_exec_all (cmds ++ cmds') s =
  ((log_exec_all cmds' (log_exec_all cmds s).1).1,
   (log_exec_all cmds s).2 ++ (log_exec_all cmds' (log_exec_all cmds s).1).2).
Proof.
  revert s. induction cmds as [|cmd cmds IH]; intros s; cbn.
  { by destruct (log_exec_all cmds' s). }
  destruct (log_exec cmd s) as [s1 r]. rewrite IH. by destruct (log_exec_all cmds s1).
Qed.

Lemma log_push_all vs l us :
  ∃ n, log_exec_all (CPush <$> vs) (l, us) =
       (mkLog (l_items l ++ vs) n, us, (fun _ => None) <$> vs).
Proof.
  revert l. induction vs as [|v vs IH]; intros l; cbn.
  { exists (l_synced l). rewrite app_nil_r. by destruct l. }
  destruct (IH (log_push N v l)) as (n & ->). exists n.
  assert (E : l_items (log_push N v l) = l_items l ++ [v]) by (unfold log_push; by case_match).
  by rewrite E, <- app_assoc.
Qed.

(** Popping the entries [vs] at the end of a log that is published. *)
Lemma log_pop_all vs items us i :
  us !! i = Some (mkCursor 0 1 (t0 + Z.of_nat (length items))) →
  Z.of_nat (length vs) ≤ reach N →
  log_exec_all ((fun _ => CPop i) <$> vs) (mkLog (items ++ vs) (length (items ++ vs)), us) =
  (mkLog (items ++ vs) (length (items ++ vs)),
   <[i := mkCursor 0 1 (t0 + Z.of_nat (length (items ++ vs)))]> us, Some <$> vs).
Proof.
  revert items us. induction vs as [|v vs IH]; intros items us Hi Hv; cbn.
  { rewrite app_nil_r. by rewrite list_insert_id. }
  rewrite Hi. unfold log_read, log_pop, cursor. cbn [u_index u_interval u_head l_items l_synced].
  pose proof (length_app items (v :: vs)) as El. cbn [length] in *.
  bool_cases; try lia. cbn [mbind option_bind].
  rewrite (list_lookup_middle items vs v) by lia.
  specialize (IH (items ++ [v])
    (<[i := mkCursor 0 1 (t0 + Z.of_nat (length items) + 1)]> us)).
  rewrite <- app_assoc in IH. cbn [app] in IH. rewrite IH; [|..|lia].
  - by rewrite list_insert_insert_eq.
  - rewrite list_lookup_insert_eq by (by eapply lookup_lt_Some).
    rewrite length_app. cbn [length]. do 2 f_equal. lia.
Qed.

(** Sending values and reading them with consumer [i]. *)
Definition round_trip (i : nat) (vs : list T) : list (command T) :=
  (CPush <$> vs) ++ CSync :: ((fun _ => CPop i) <$> vs).

Lemma log_round_trip i vs l us :
  us !! i = Some (mkCursor 0 1 (t0 + Z.of_nat (length (l_items l)))) →
  Z.of_nat (length vs) ≤ reach N →
  log_exec_all (round_trip i vs) (l, us) =
  (mkLog (l_items l ++ vs) (length (l_items l ++ vs)),
   <[i := mkCursor 0 1 (t0 + Z.of_nat (length (l_items l ++ vs)))]> us,
   ((fun _ => None) <$> vs) ++ None :: (Some <$> vs)).
Proof.
  intros Hi Hv. unfold round_trip. rewrite log_exec_all_app.
  destruct (log_push_all vs l us) as (n & ->).
  cbn [fst snd log_exec_all log_exec]. unfold log_sync. cbn [l_items].
  by rewrite log_pop_all.
Qed.

Lemma pushes_round_trip i vs : pushes (round_trip i vs) = Z.of_nat (length vs).
Proof.
  unfold round_trip. induction vs as [|v vs IH]; cbn [fmap list_fmap app pushes is_push length].
  - done.
  - assert (E : ∀ us : list T, pushes ((CPush <$> us) ++ CSync :: CPop i :: ((fun _ => CPop i) <$> vs))
                 = pushes ((CPush <$> us) ++ CSync :: ((fun _ => CPop i) <$> vs))).
    { induction us as [|u us IHu]; cbn; [done|]. by rewrite IHu. }
    rewrite E, IH. lia.
Qed.
End Runs.
