(* ===== verification/HeadlessInterface.v ===== *)
(** * The calls of the headless channel's threads

    What a producer thread and consumer threads can call, for every memory
    the calls may run on, and what their histories say: the values pushed,
    the values popped in each session of a consumer, and the positions a
    consumer may read. *)

From S2P Require Import Prelude.
From S2P Require Import Rust.
From S2P Require Import Ring.
From S2P Require Import Errors.
From S2P Require Import Channel.
From S2P Require Import Join.
From S2P Require Import Concurrency.
From S2P Require Import HeadlessProducer.
From S2P Require Import HeadlessConsumer.
From S2P Require Import HeadlessLog.

(** ** The interface of the threads *)

(** A process that has crashed, or not joined yet, owns nothing but its role:
    a consumer's is its index and the number of consumers. *)
Inductive headless_handle : Type :=
  | HProducer (p : Producer)
  | HConsumer (c : Consumer)
  | HNoProducer
  | HNoConsumer (index consumers : Z).

(** A [Pop] runs at most [fuel] iterations of the loop; a caller that is
    answered [APop None] and calls again continues it. *)
Inductive headless_call (T : Type) : Type :=
  | Push (v : T) | Sync | ProducerBeat | ConsumerHeartbeat
  | Pop (fuel : nat) | ConsumerBeat | ProducerHeartbeat
  | JoinProducer (buffer : Z) | JoinConsumer (buffer : Z).
Arguments Push {T}. Arguments Sync {T}. Arguments ProducerBeat {T}.
Arguments ConsumerHeartbeat {T}. Arguments Pop {T}. Arguments ConsumerBeat {T}.
Arguments ProducerHeartbeat {T}. Arguments JoinProducer {T}.
Arguments JoinConsumer {T}.

#[export] Instance headless_call_eq_dec {T} `{EqDecision T} : EqDecision (headless_call T).
Proof. solve_decision. Defined.

Inductive headless_answer (T : Type) : Type :=
  | AUnit
  | ABool (b : bool)
  | APop (o : option (option T))
  | AJoined (x : Z)   (* the position the new handle is at *)
  | AError (e : QueError)
  | ACut.
Arguments AUnit {T}. Arguments ABool {T}. Arguments APop {T}.
Arguments AJoined {T}. Arguments AError {T}. Arguments ACut {T}.

Section Interface.
Context {T : Type} {prof : Profile} (N : Z).
(** Is the channel in memory that processes share (see [LosslessInterface])?
    The index of each consumer thread, with the number of consumers. *)
Context (shared : bool) (role : nat → Z * Z).

Definition roles_ok : Prop := ∀ i, 0 ≤ (role i).1 < (role i).2 ∧ (role i).2 ≤ 64.

(** The calls a handle offers; a push that could move a counter past
    [2 ^ 64 - N - 64] is not offered. *)
Definition headless_exec (h : headless_handle) (c : headless_call T) :
    option (prog T (headless_handle * headless_answer T)) :=
  match h, c with
  | HProducer p, Push v =>
      if p_tail p + N + 65 <? usize_lim then
        Some (p ← push N p v; mret (HProducer p, AUnit))
      else None
  | HProducer p, Sync => Some (p ← sync p; mret (HProducer p, AUnit))
  | HProducer p, ProducerBeat =>
      Some (_ ← HeadlessProducer.beat p; mret (HProducer p, AUnit))
  | HProducer p, ConsumerHeartbeat =>
      Some ('(p, b) ← consumer_heartbeat p; mret (HProducer p, ABool b))
  | HConsumer c, Pop fuel =>
      Some ('(c, o) ← pop N fuel c; mret (HConsumer c, APop o))
  | HConsumer c, ConsumerBeat =>
      Some (_ ← HeadlessConsumer.beat c; mret (HConsumer c, AUnit))
  | HConsumer c, ProducerHeartbeat =>
      Some ('(c, b) ← producer_heartbeat c; mret (HConsumer c, ABool b))
  | HNoProducer, JoinProducer buffer =>
      if shared && mapped_at buffer then
      Some (r ← join_or_create_mapped N buffer;
            match r with
            | Ok p => mret (HProducer p, AJoined (p_tail p))
            | Err e => mret (HNoProducer, AError e)
            end)
      else None
  | HNoConsumer index consumers, JoinConsumer buffer =>
      if shared && mapped_at buffer then
      Some (r ← join_multi_ ShmemMode N buffer index consumers;
            match r with
            | Ok c => mret (HConsumer c, AJoined (c_head c))
            | Err e => mret (HNoConsumer index consumers, AError e)
            end)
      else None
  | _, _ => None
  end.

(** What is left of thread [i]: thread 0 is the producer's, the others are
    consumers'. *)
Definition headless_down (i : nat) : option headless_handle :=
  if shared then
    Some (match i with
          | 0%nat => HNoProducer
          | S _ => HNoConsumer (role i).1 (role i).2
          end)
  else None.

Definition headless : interface T :=
  mkInterface T headless_handle (headless_call T) (headless_answer T) headless_exec
    headless_down ACut.

(** ** What the histories say *)

(** The values pushed, [t0] being the position of the first.  A producer that
    joins again goes on after the last value published. *)
Definition pushed_step (t0 : Z) (s : list T) (e : headless_call T * headless_answer T) :
    list T :=
  match e with
  | (Push v, AUnit) => s ++ [v]
  | (JoinProducer _, AJoined t) => take (Z.to_nat (t - t0)) s
  | _ => s
  end.

Definition pushed (t0 : Z) (hist : history headless) : list T :=
  foldl (pushed_step t0) [] hist.

(** A consumer's sessions, the latest first: the position at which it joined
    and the values popped since. *)
Definition record (v : T) (ss : list (Z * list T)) : list (Z * list T) :=
  match ss with [] => [] | (h, vs) :: ss => (h, vs ++ [v]) :: ss end.

Definition session_step (ss : list (Z * list T))
    (e : headless_call T * headless_answer T) : list (Z * list T) :=
  match e with
  | (Pop _, APop (Some (Some v))) => record v ss
  | (JoinConsumer _, AJoined h) => (h, []) :: ss
  | _ => ss
  end.

(** The session a thread starts with. *)
Definition opening (h : headless_handle) : list (Z * list T) :=
  match h with HConsumer c => [(c_head c, [])] | _ => [] end.

Definition sessions (ss : list (Z * list T)) (hist : history headless) :
    list (Z * list T) :=
  foldl session_step ss hist.

Lemma pushed_snoc t0 (hist : list (headless_call T * headless_answer T)) e :
  pushed t0 (hist ++ [e]) = pushed_step t0 (pushed t0 hist) e.
Proof. unfold pushed. by rewrite foldl_app. Qed.

Lemma sessions_snoc ss (hist : list (headless_call T * headless_answer T)) e :
  sessions ss (hist ++ [e]) = session_step (sessions ss hist) e.
Proof. unfold sessions. by rewrite foldl_app. Qed.

(** ** The trail of a consumer *)

(** From cursor [h0] a consumer of stride [interval] has read the positions
    [ks] and is at [h], [t] being the published tail by now: each position
    is the cursor, which advances by the stride; the cursor skips only when
    the producer is more than [reach N] past it, and then to the oldest
    position of its stride the producer had left readable. *)
Inductive trail (t index interval h0 : Z) : list Z → Z → Prop :=
  | trail_start : trail t index interval h0 [] h0
  | trail_read ks h :
      trail t index interval h0 ks h → h < t →
      trail t index interval h0 (ks ++ [h]) (h + interval)
  | trail_skip ks h t' :
      trail t index interval h0 ks h → h + reach N < t' ≤ t →
      trail t index interval h0 ks (next_congruent (t' - reach N) index interval).

Lemma trail_mono t t' index interval h0 ks h :
  t ≤ t' → trail t index interval h0 ks h → trail t' index interval h0 ks h.
Proof.
  intros Ht. induction 1; [constructor|constructor; [done|lia]|].
  eapply trail_skip; [done|lia].
Qed.

(** The positions read are below the tail and the cursor, at or after the
    start, in the consumer's residue class. *)
Lemma trail_positions t index interval h0 ks h :
  0 ≤ index < interval → h0 mod interval = index →
  trail t index interval h0 ks h →
  h mod interval = index ∧ h0 ≤ h ∧
  Forall (fun k => h0 ≤ k < t ∧ k < h ∧ k mod interval = index) ks.
Proof.
  intros Hi H0. induction 1 as [|ks h Htr (Hm & Hh & IH) Ht|ks h t' Htr (Hm & Hh & IH) Ht].
  - by split_and!.
  - split_and!.
    + by rewrite <- Z.add_mod_idemp_r, Z.mod_same, Z.add_0_r by lia.
    + lia.
    + apply Forall_app. split; [|apply Forall_singleton; lia].
      eapply Forall_impl; [exact IH|]. intros k ?. cbn in *. lia.
  - destruct (next_congruent_spec (t' - reach N) index interval) as (E & Hb & _);
      [done|]. split_and!; [done|lia|].
    eapply Forall_impl; [exact IH|]. intros k ?. cbn in *. lia.
Qed.

Lemma trail_increasing t index interval h0 ks h :
  0 ≤ index < interval → h0 mod interval = index →
  trail t index interval h0 ks h →
  ∀ i j a b, (i < j)%nat → ks !! i = Some a → ks !! j = Some b → a < b.
Proof.
  intros Hi H0. induction 1 as [|ks h Htr IH Ht|ks h t' Htr IH Ht]; [done| |exact IH].
  intros i j a b Hlt Ha Hb.
  apply list_lookup_snoc_cases in Hb as [Hb|[-> ->]].
  - pose proof (lookup_lt_Some _ _ _ Hb). rewrite lookup_app_l in Ha by lia. eauto.
  - rewrite lookup_app_l in Ha by done.
    destruct (trail_positions t index interval h0 ks b Hi H0 Htr) as (_ & _ & HF).
    rewrite Forall_lookup in HF. specialize (HF i a Ha). cbn in HF. lia.
Qed.

(** Without lapping every position of the stride is read, in order. *)
Lemma trail_lossless t index interval h0 ks h :
  0 ≤ interval → t ≤ h0 + reach N →
  trail t index interval h0 ks h →
  h = h0 + Z.of_nat (length ks) * interval ∧
  ∀ j k, ks !! j = Some k → k = h0 + Z.of_nat j * interval.
Proof.
  intros Hi Ht. induction 1 as [|ks h Htr [IH1 IH2] Hlt|ks h t' Htr [IH1 IH2] Hlt].
  - split; [cbn; lia|done].
  - split; [rewrite length_zapp; cbn; lia|]. intros j k Hj.
    apply list_lookup_snoc_cases in Hj as [Hj|[-> <-]]; [by apply IH2|done].
  - nia.
Qed.

(** The sessions of a consumer, latest first, with the positions read in
    each, [t] being the published tail by now and [t0] the first position of
    the channel: each session is a trail, and starts after everything that
    was published during the one before. *)
Fixpoint itinerary (t0 index interval t : Z) (its : list (Z * list Z)) : Prop :=
  match its with
  | [] => True
  | (h0, ks) :: its =>
      t0 ≤ h0 ∧ h0 mod interval = index ∧ (∃ h, trail t index interval h0 ks h) ∧
      ∃ t', t' ≤ t ∧ t' ≤ h0 ∧ itinerary t0 index interval t' its
  end.

(** The same for a consumer that is at [h] in its latest session. *)
Definition visiting (t0 index interval t h : Z) (its : list (Z * list Z)) : Prop :=
  match its with
  | [] => False
  | (h0, ks) :: its =>
      t0 ≤ h0 ∧ h0 mod interval = index ∧ trail t index interval h0 ks h ∧
      ∃ t', t' ≤ t ∧ t' ≤ h0 ∧ itinerary t0 index interval t' its
  end.

Lemma visiting_itinerary t0 index interval t h its :
  visiting t0 index interval t h its → itinerary t0 index interval t its.
Proof. destruct its as [|[h0 ks] its]; [done|]. intros (?&?&?&?). split_and!; eauto. Qed.

Lemma visiting_mono t0 index interval t t' h its :
  t ≤ t' → visiting t0 index interval t h its → visiting t0 index interval t' h its.
Proof.
  destruct its as [|[h0 ks] its]; [done|]. intros Ht (? & ? & Htr & t1 & ? & ? & Hi).
  split_and!; [done|done|by eapply trail_mono|]. exists t1. split_and!; [lia|done..].
Qed.

(** The cursor is a position of the class. *)
Lemma visiting_cursor t0 index interval t h its :
  0 ≤ index < interval → visiting t0 index interval t h its →
  h mod interval = index ∧ t0 ≤ h.
Proof.
  destruct its as [|[h0 ks] its]; [done|]. intros Hi (H0 & Hm & Htr & _).
  destruct (trail_positions _ _ _ _ _ _ Hi Hm Htr) as (? & ? & _). split; [done|lia].
Qed.

Lemma itinerary_mono t0 t t' index interval its :
  t ≤ t' → itinerary t0 index interval t its → itinerary t0 index interval t' its.
Proof.
  destruct its as [|[h0 ks] its]; [done|]. intros Ht (? & ? & (h & Htr) & t1 & ? & ? & Hi).
  split_and!; [done|done|exists h; by eapply trail_mono|]. exists t1. split_and!; [lia|done..].
Qed.

(** Everything read is at or after [t0], below the tail, and of the class of
    the consumer; the positions of a session are above those of the earlier
    ones. *)
Lemma itinerary_positions t0 t index interval its :
  0 ≤ index < interval → itinerary t0 index interval t its →
  Forall (fun it => Forall (fun k => t0 ≤ k < t ∧ k mod interval = index) it.2) its.
Proof.
  intros Hi. revert t. induction its as [|[h0 ks] its IH]; intros t; [constructor|].
  intros (H0 & Hm & (h & Htr) & t' & Ht' & _ & Hits). constructor.
  - destruct (trail_positions _ _ _ _ _ _ Hi Hm Htr) as (_ & _ & Hks).
    eapply Forall_impl; [exact Hks|]. cbn. intros k ?. lia.
  - eapply Forall_impl; [by apply (IH t')|]. intros it Hit.
    eapply Forall_impl; [exact Hit|]. cbn. intros k ?. lia.
Qed.

(** Each session by itself. *)
Lemma itinerary_lookup t0 t index interval its n h0 ks :
  itinerary t0 index interval t its → its !! n = Some (h0, ks) →
  ∃ t', t' ≤ t ∧ ∃ h, trail t' index interval h0 ks h.
Proof.
  revert t its. induction n as [|n IH]; intros t [|[h1 ks1] its]; cbn; try done;
    intros (_ & _ & Htr & t' & Ht' & _ & Hits) Hn.
  - injection Hn as -> ->. exists t. split; [lia|done].
  - destruct (IH t' its Hits Hn) as (t1 & Ht1 & Htr1). exists t1. split; [lia|done].
Qed.

(** Where each session starts. *)
Lemma itinerary_start t0 t index interval its n h0 ks :
  itinerary t0 index interval t its → its !! n = Some (h0, ks) →
  t0 ≤ h0 ∧ h0 mod interval = index.
Proof.
  revert t its. induction n as [|n IH]; intros t [|[h1 ks1] its]; cbn; try done;
    intros (H0 & Hm & _ & t' & _ & _ & Hits) Hn; [by injection Hn as -> ->|by eapply IH].
Qed.

(** The positions read, latest session first, in the order of reading. *)
Fixpoint positions (its : list (Z * list Z)) : list Z :=
  match its with [] => [] | (_, ks) :: its => positions its ++ ks end.

Lemma itinerary_increasing t0 t index interval its :
  0 ≤ index < interval → itinerary t0 index interval t its →
  Forall (fun k => k < t) (positions its) ∧
  ∀ i j a b, (i < j)%nat → positions its !! i = Some a → positions its !! j = Some b →
             a < b.
Proof.
  intros Hi. revert t. induction its as [|[h0 ks] its IH]; intros t; [done|].
  intros (H0 & Hm & (h & Htr) & t' & Ht' & Hh0 & Hits).
  destruct (IH t' Hits) as [HF Hinc]. cbn [positions].
  destruct (trail_positions _ _ _ _ _ _ Hi Hm Htr) as (_ & _ & Hks).
  split.
  - apply Forall_app. split; (eapply Forall_impl; [eassumption|]); cbn; lia.
  - intros i j a b Hij Ha Hb.
    apply lookup_app_Some in Ha as [Ha|[Hl Ha]], Hb as [Hb|[Hl' Hb]].
    + by eapply Hinc.
    + rewrite Forall_lookup in HF, Hks. specialize (HF _ _ Ha).
      specialize (Hks _ _ Hb). cbn in *. lia.
    + apply lookup_lt_Some in Hb. lia.
    + eapply (trail_increasing t index interval h0 ks h Hi Hm Htr); [|done..]. lia.
Qed.
End Interface.
