(* ===== verification/HeadlessLifetime.v ===== *)
(** * Dropping the handles of the headless channel

    The producer and the consumers of a channel in the memory of one process,
    which they share through an [Arc], with [impl Drop] of each as a call of
    [Lifetime.droppable]. *)

From S2P Require Import Prelude.
From S2P Require Import Rust.
From S2P Require Import Channel.
From S2P Require Import Concurrency.
From S2P Require Import Typing.
From S2P Require Import Lifetime.
From S2P Require Import HeadlessProducer.
From S2P Require Import HeadlessConsumer.
From S2P Require Import HeadlessInterface.

Section Headless.
Context {T : Type} {prof : Profile} (N : Z).

Definition headless_drop (h : headless_handle) : option (prog T unit) :=
  match h with
  | HProducer p => Some (drop_producer LocalMode p)
  | HConsumer c => Some (drop_consumer LocalMode c)
  | _ => None
  end.

Lemma headless_drops_arc h m : headless_drop h = Some m → m = arc_drop.
Proof. by destruct h; intros [= <-]. Qed.

Lemma headless_pop_arcless fuel c : arcless (T := T) (pop N fuel c).
Proof.
  revert c. induction fuel as [|fuel IH]; intros c; [done|]. cbn [pop].
  apply arcless_bind; [unfold pop_iteration, reset_head; follow_arcless|].
  intros [c'|[c' o]]; [apply IH|done].
Qed.

(** No call of threads that have joined touches the count. *)
Lemma headless_exec_arcless h (c : headless_call T) m :
  headless_exec N false h c = Some m → arcless m.
Proof.
  destruct h, c; cbn [headless_exec]; try done; intros Hm; try case_match; try done;
    apply (inj Some) in Hm as <-; (apply arcless_bind; [|intros ?; by repeat case_match]).
  - unfold push, sync, assign_cell. follow_arcless.
  - done.
  - done.
  - unfold HeadlessProducer.consumer_heartbeat. follow_arcless.
  - apply headless_pop_arcless.
  - done.
  - unfold HeadlessConsumer.producer_heartbeat. follow_arcless.
Qed.
End Headless.
