(* ===== verification/HeadlessClients.v ===== *)
(** * Programs that use the headless channel

    The threads of [src/que/examples/broadcast.rs] and of
    [src/examples/benchmark/src/main.rs] as clients, and what they keep
    whatever a channel answers.  What they print is left out. *)

From Stdlib Require Import Strings.String.
From S2P Require Import Prelude.
From S2P Require Import Rust.
From S2P Require Import Errors.
From S2P Require Import Channel.
From S2P Require Import Concurrency.
From S2P Require Import Clients.
From S2P Require Import HeadlessInterface.
From ITree Require Import Core.ITreeDefinition.

(** ** Calls *)

Section Calls.
Context {T : Type} {prof : Profile} (N : Z) (shared : bool) (role : nat → Z * Z).
#[local] Notation C := (headless (T := T) N shared role).

Definition as_unit (a : headless_answer T) : option unit :=
  match a with AUnit => Some tt | _ => None end.
Definition as_pop (a : headless_answer T) : option (option (option T)) :=
  match a with APop o => Some o | _ => None end.

Definition c_push (v : T) : client C unit := expect (C := C) (Push v) as_unit.
Definition c_sync : client C unit := expect (C := C) Sync as_unit.

(** A pop, one iteration of its loop after the other. *)
Definition c_pop : client C (option T) :=
  ITree.iter (fun _ : unit =>
    o ← expect (C := C) (Pop 1) as_pop;
    mret (match o with Some o => inr o | None => inl tt end)) tt.

End Calls.

(** ** The broadcast example *)

Section Broadcast.
Context {prof : Profile} (role : nat → Z * Z).

Definition BROADCAST_N : Z := 1024.
Definition NUM_CONSUMERS : nat := 10.
Definition BROADCAST_MSGS : Z := 10000.
#[local] Notation N := BROADCAST_N.
#[local] Notation C := (headless (T := Z) N false role).

(** The clock says when the next message is due. *)
Definition broadcast_producer : client C unit :=
  ITree.iter (fun msgs : Z =>
    if msgs <? BROADCAST_MSGS then
      due ← ITree.trigger (Ask (C := C) bool);
      if due : bool then
        _ ← c_push N false role msgs;
        _ ← c_sync N false role;
        mret (inl (msgs + 1))
      else mret (inl msgs)
    else mret (inr tt)) 0.

Definition broadcast_consumer : client C unit :=
  ITree.iter (fun expected : Z =>
    if expected <? BROADCAST_MSGS then
      o ← c_pop N false role;
      match o with
      | Some msg =>
          _ ← client_assert (expected =? msg) "assert_eq!(expected, msg)";
          mret (inl (expected + 1))
      | None => mret (inl expected)
      end
    else mret (inr tt)) 0.
End Broadcast.

(** ** The benchmark *)

Section Benchmark.
Context {T : Type} {prof : Profile} (role : nat → Z * Z) (tx : T) (iters : Z).

Definition BENCH_N : Z := 8192.
(** The number of messages, [iters] below. *)
Definition ITERS : Z := 100000000.
#[local] Notation N := BENCH_N.
#[local] Notation C := (headless (T := T) N false role).

(** [while !START_FLAG.load(Relaxed) {}]. *)
Definition wait_for_start : client C unit := wait (ITree.trigger (Ask (C := C) bool)).

Definition bench_producer : client C unit :=
  _ ← wait_for_start;
  ITree.iter (fun i : Z =>
    if i <? iters then
      _ ← c_push N false role tx;
      _ ← c_sync N false role;
      mret (inl (i + 1))
    else mret (inr tt)) 0.

(** The sums of [consume_until_empty]. *)
Definition client_sum (x y : Z) : client C Z :=
  match uadd x y with Val z => mret z | Pan _ => panic "overflow" end.

Definition consume_until_empty : client C Z :=
  ITree.iter (fun '(consumed, empty) =>
    if consumed <? iters then
      o ← c_pop N false role;
      let pop_res_usize := match o with Some _ => 1 | None => 0 end in
      consumed ← client_sum consumed pop_res_usize;
      empty ← client_sum empty (Z.lxor pop_res_usize 1);
      mret (inl (consumed, empty))
    else mret (inr empty)) (0, 0).

Definition bench_consumer : client C Z := _ ← wait_for_start; consume_until_empty.
End Benchmark.

(** ** What they keep *)

Section Logic.
Context {T : Type} {prof : Profile} (N : Z) (role : nat → Z * Z).
#[local] Notation C := (headless (T := T) N false role).
Implicit Types (h hist : list (headless_call T * headless_answer T)).

(** *** Producers *)

Section Producer.
Context (t0 : Z) (vs : list T).

#[local] Notation pushed_by h := (pushed N false role t0 h).

(** What has been pushed is a prefix of [vs]. *)
Definition pushes_prefix (o : option (headless_call T)) h : Prop := pushed_by h `prefix_of` vs.

#[local] Notation K := (keeps (C := C) (fun _ => True) pushes_prefix (fun _ => False)).

Lemma keeps_headless_push n v h :
  pushed_by h ++ [v] `prefix_of` vs →
  K n (c_push N false role v) h (fun _ h' => pushed_by h' = pushed_by h ++ [v]).
Proof.
  intros Hv. assert (Hh : pushed_by h `prefix_of` vs) by (etrans; [by apply prefix_app_r|done]).
  eapply keeps_mono; [apply keeps_expect|done|].
  - exact Hh.
  - exact Hh.
  - intros a _. unfold pushes_prefix. cbn [call answer headless]. rewrite pushed_snoc.
    by destruct a.
  - intros [] h' (a & Ha & -> & _). cbn [call answer headless]. rewrite pushed_snoc. by destruct a.
Qed.

Lemma keeps_headless_sync n h :
  pushed_by h `prefix_of` vs → K n (c_sync N false role) h (fun _ h' => pushed_by h' = pushed_by h).
Proof.
  intros Hh. eapply keeps_mono; [apply keeps_expect|done|].
  - exact Hh.
  - exact Hh.
  - intros a _. unfold pushes_prefix. cbn [call answer headless]. by rewrite pushed_snoc.
  - intros [] h' (a & _ & -> & _). cbn [call answer headless]. by rewrite pushed_snoc.
Qed.
End Producer.

(** *** Consumers *)

Section Consumer.
Context (h0 : Z).

(** In its only session, which started at [h0], it has popped [vs]. *)
Definition popped h (vs : list T) : Prop :=
  sessions N false role [(h0, [])] h = [(h0, vs)].

Lemma popped_snoc h vs e :
  popped h vs → match e.1 with JoinConsumer _ => False | _ => True end →
  popped (h ++ [e]) (match e with (Pop _, APop (Some (Some v))) => vs ++ [v] | _ => vs end).
Proof.
  unfold popped. intros E He. rewrite sessions_snoc, E.
  destruct e as [[] []]; try done. by destruct o as [[v|]|].
Qed.

(** What a session holds, it still holds later. *)
Lemma sessions_extend h ss x vs :
  ∃ pre us, sessions N false role (ss ++ [(x, vs)]) h = pre ++ [(x, vs ++ us)].
Proof.
  unfold sessions. revert ss vs. induction h as [|e h IH]; intros ss vs; cbn.
  - exists ss, []. by rewrite app_nil_r.
  - assert (H : ∃ ss' us, session_step (ss ++ [(x, vs)]) e = ss' ++ [(x, vs ++ us)]).
    { assert (Hn : session_step (ss ++ [(x, vs)]) e = ss ++ [(x, vs)] →
        ∃ ss' us, session_step (ss ++ [(x, vs)]) e = ss' ++ [(x, vs ++ us)]).
      { intros ->. exists ss, []. by rewrite app_nil_r. }
      destruct e as [[] []]; try (by apply Hn).
      - destruct o as [[v|]|]; try (by apply Hn). destruct ss as [|[y us] ss].
        + by exists [], [v].
        + exists ((y, us ++ [v]) :: ss), []. by rewrite app_nil_r.
      - exists ((x0, []) :: ss), []. by rewrite app_nil_r. }
    destruct H as (ss' & us & ->). destruct (IH ss' (vs ++ us)) as (pre & us' & ->).
    exists pre, (us ++ us'). by rewrite app_assoc.
Qed.

Lemma popped_prefix h rest vs :
  popped h vs → ∃ pre us, sessions N false role [(h0, [])] (h ++ rest) = pre ++ [(h0, vs ++ us)].
Proof.
  unfold popped, sessions. intros E. rewrite foldl_app, E. apply (sessions_extend rest []).
Qed.

Context (legal : list (headless_call T * headless_answer T) → Prop).
Context (Ψ : option (headless_call T) → list (headless_call T * headless_answer T) → Prop).
Context (tolerated : string → Prop).
#[local] Notation K := (keeps (C := C) legal Ψ tolerated).

(** A pop adds the value it returns. *)
Lemma keeps_headless_pop n h vs :
  popped h vs →
  (∀ o h, popped h vs → Ψ o h) → (∀ h v, legal h → popped h (vs ++ [v]) → Ψ None h) →
  K n (c_pop N false role) h (fun o h' =>
    match o with
    | Some v => popped h' (vs ++ [v]) ∧ legal h'
    | None => popped h' vs
    end).
Proof.
  intros Hp HΨ HΨv. unfold c_pop.
  apply (keeps_iter C _ _ _ _ _ (fun _ h => popped h vs)); [|by apply HΨ|done].
  intros m [] h1 _ _ Hp1. eapply keeps_bind.
  - eapply keeps_mono; [apply keeps_expect|done|].
    + by apply HΨ.
    + by apply HΨ.
    + intros a Hl. pose proof (popped_snoc h1 vs (Pop 1, a) Hp1 Logic.I) as H.
      destruct a as [| |[[v|]|]| | |]; try (by apply HΨ). by eapply HΨv.
    + intros o h' (a & Ha & -> & Hl).
      pose proof (popped_snoc h1 vs (Pop 1, a) Hp1 Logic.I) as H. revert Hl H.
      destruct a as [| |o'| | |]; try done. injection Ha as ->. intros Hl H.
      instantiate (1 := fun o h' => match o with
        | Some (Some v) => popped h' (vs ++ [v]) ∧ legal h' | _ => popped h' vs end).
      destruct o as [[v|]|]; [by split|done|done].
  - intros m' o h' _ Hh' Ho. apply keeps_ret; [done|]. by destruct o as [[v|]|].
Qed.
End Consumer.
End Logic.
