(* ===== verification/HeadlessWords.v ===== *)
(** * The headless channel computes on machine words

    Every operation of the headless channel keeps the words of its handle
    words, and stores only words. *)

From S2P Require Import Prelude.
From S2P Require Import Rust.
From S2P Require Import Ring.
From S2P Require Import Errors.
From S2P Require Import Channel.
From S2P Require Import Join.
From S2P Require Import Concurrency.
From S2P Require Import Words.
From S2P Require Import HeadlessProducer.
From S2P Require Import HeadlessConsumer.
From S2P Require Import HeadlessLog.
From S2P Require Import HeadlessInterface.

Section Headless.
Context {T : Type} {prof : Profile} (N : Z) (HN : is_usize N).
Context (shared : bool) (role : nat → Z * Z) (Hrole : roles_ok role).
Implicit Types (p : Producer) (c : Consumer).

Definition headless_producer_words (p : Producer) : Prop :=
  is_usize (p_tail p) ∧ is_usize (p_written p) ∧ is_usize (p_last_consumer_heartbeat p).

Definition headless_consumer_words (c : Consumer) : Prop :=
  is_usize (c_head c) ∧ is_usize (c_interval c) ∧ is_usize (c_consumer_index c) ∧
  is_usize (c_last_producer_heartbeat c).

Definition headless_handle_words (h : headless_handle) : Prop :=
  match h with
  | HProducer p => headless_producer_words p
  | HConsumer c => headless_consumer_words c
  | HNoProducer => True
  | HNoConsumer index consumers => is_usize index ∧ is_usize consumers
  end.

#[local] Ltac word_facts :=
  unfold headless_handle_words, headless_producer_words, headless_consumer_words in *;
  cbn in *; destruct_and?; split_and?; eauto with words.

Lemma headless_MAGIC_word : is_usize MAGIC.
Proof. split; vm_compute; [discriminate|reflexivity]. Qed.
#[local] Hint Resolve headless_MAGIC_word : words.

Lemma next_modulo_word head index interval h :
  next_modulo head index interval = Val h → is_usize h.
Proof.
  unfold next_modulo. unfold mbind, res_bind.
  destruct (urem head interval) as [x|]; [|done].
  destruct (uadd index interval) as [y|]; [|done].
  destruct (usub y x) as [z|]; [|done].
  destruct (urem z interval); [|done]. apply uadd_word.
Qed.
#[local] Hint Resolve next_modulo_word : words.

Lemma headless_sync_words p :
  headless_producer_words p → words (T := T) headless_producer_words (sync p).
Proof. intros. unfold sync. cbn zeta. follow_words; word_facts. Qed.

Lemma headless_push_words p (v : T) :
  headless_producer_words p → words headless_producer_words (push N p v).
Proof.
  intros Hp. unfold push. apply (words_bind headless_producer_words).
  - case_match; [by apply headless_sync_words|done].
  - intros p' Hp'. unfold assign_cell. follow_words; word_facts.
Qed.

Lemma headless_consumer_heartbeat_words p :
  headless_producer_words p →
  words (T := T) (fun pr => headless_producer_words pr.1) (consumer_heartbeat p).
Proof. intros. unfold consumer_heartbeat. follow_words; word_facts. Qed.

Lemma reset_head_words c tail :
  headless_consumer_words c → words (T := T) headless_consumer_words (reset_head N c tail).
Proof. intros. unfold reset_head. follow_words; word_facts. Qed.

Lemma pop_iteration_words c :
  headless_consumer_words c →
  words (T := T) (fun o => match o with inl c => headless_consumer_words c
                                      | inr co => headless_consumer_words co.1 end)
    (pop_iteration N c).
Proof.
  intros Hc. unfold pop_iteration. apply words_load; intros tail Htail.
  case_match; [done|]. apply words_lift; intros win Hwin. cbn zeta. case_match.
  - eapply words_bind; [by apply reset_head_words|]. by intros c'.
  - apply words_read; intros v. apply words_load; intros tail' Htail'. case_match.
    + eapply words_bind; [by apply reset_head_words|]. intros c' Hc'. by apply words_drop_value.
    + follow_words. word_facts.
Qed.

Lemma headless_pop_words fuel c :
  headless_consumer_words c →
  words (T := T) (fun co => headless_consumer_words co.1) (pop N fuel c).
Proof.
  revert c. induction fuel as [|fuel IH]; intros c Hc; [done|]. cbn [pop].
  eapply words_bind; [by apply pop_iteration_words|]. intros [c'|[c' o]] Hc'; [by apply IH|done].
Qed.

Lemma headless_producer_heartbeat_words c :
  headless_consumer_words c →
  words (T := T) (fun cb => headless_consumer_words cb.1) (producer_heartbeat c).
Proof. intros. unfold producer_heartbeat. follow_words; word_facts. Qed.

Lemma headless_join_words buffer :
  words (T := T) (fun o => match o with Ok p => headless_producer_words p | Err _ => True end)
    (join_or_create_mapped N buffer).
Proof. unfold join_or_create_mapped. follow_words; word_facts. Qed.

Lemma join_multi_words buffer index consumers :
  is_usize index → is_usize consumers →
  words (T := T) (fun o => match o with Ok c => headless_consumer_words c | Err _ => True end)
    (join_multi_ ShmemMode N buffer index consumers).
Proof.
  intros Hi Hc. unfold join_multi_.
  assert (Hassert : ∀ b msg, words (T := T) (fun _ => True) (assert b msg))
    by (by intros [] msg).
  eapply words_bind; [|intros _ _].
  { eapply words_bind; [apply Hassert|]. intros _ _. apply Hassert. }
  eapply words_bind; [apply Hassert|]. intros _ _.
  eapply words_bind; [apply Hassert|]. intros _ _.
  cbn [BACKED_BY_ARCC]. follow_words; word_facts.
Qed.

(** Every call the threads can make. *)
Lemma headless_exec_words h (cl : headless_call T) m :
  headless_handle_words h → headless_exec N shared h cl = Some m →
  words (fun hr => headless_handle_words hr.1) m.
Proof.
  intros Hh Hm.
  destruct h as [p|c| |index consumers], cl; cbn [headless_exec] in Hm; try done;
    try match type of Hm with (if ?b then _ else _) = _ => destruct b eqn:Hb; [|done] end;
    apply (inj Some) in Hm as <-; cbn [headless_handle_words] in Hh.
  - eapply words_bind; [by apply headless_push_words|]. by intros p'.
  - eapply words_bind; [by apply headless_sync_words|]. by intros p'.
  - unfold HeadlessProducer.beat. follow_words; word_facts.
  - eapply words_bind; [by apply headless_consumer_heartbeat_words|]. by intros [p' b].
  - eapply words_bind; [by apply headless_pop_words|]. by intros [c' o].
  - unfold HeadlessConsumer.beat. follow_words; word_facts.
  - eapply words_bind; [by apply headless_producer_heartbeat_words|]. by intros [c' b].
  - eapply words_bind; [apply headless_join_words|]. by intros [p|e].
  - eapply words_bind; [by apply join_multi_words; apply Hh|]. by intros [c|e].
Qed.

Lemma headless_down_words i d : headless_down shared role i = Some d → headless_handle_words d.
Proof.
  unfold headless_down. destruct shared; [|done]. destruct i; intros [= <-]; [done|].
  destruct (Hrole (S i)). cbn. unfold is_usize. lia.
Qed.
End Headless.
