(* ===== verification/HeadlessConcurrent.v ===== *)
(** * The headless channel under concurrency

    One producer thread and any number of consumer threads run any sequence
    of calls, their accesses interleaved freely (see [Concurrency]).  A read
    may be torn, since the producer does not wait; the theorems say that a
    torn value is never returned: what a consumer returns is what the producer
    pushed at the position the consumer was at, and a consumer leaves a
    position unread only when the producer has lapped it. *)

From S2P Require Import Prelude.
From S2P Require Import Rust.
From S2P Require Import Ring.
From S2P Require Import Errors.
From S2P Require Import Channel.
From S2P Require Import Join.
From S2P Require Import Concurrency.
From S2P Require Import HeadlessProducer.
From S2P Require Import HeadlessConsumer.
From S2P Require Import HeadlessLog.
From S2P Require Import HeadlessInterface.

(** ** Invariants *)

Section Proof.
Context {T : Type} {prof : Profile} (N : Z) (HN : capacity_ok N).
(** Where the channel is mapped, the consumers' roles, and the position of the
    first value pushed. *)
Context (shared : bool).
Context (role : nat → Z * Z) (Hrole : roles_ok role).
Context (t0 : Z).
Implicit Types (w : World T) (p : Producer) (c : Consumer)
  (s vs : list T) (ss : list (Z * list T))
  (hist : history (headless (T := T) N shared role)).

Let HN0 : 0 < N < usize_lim := capacity_ok_pos N HN.

(** The positions the producer cannot be overwriting hold what was
    published and are not being written.  Memory without the magic number is still
    blank. *)
Record headless_inv w : Prop := {
  hi_alive : freed w = false;
  hi_length : Z.of_nat (length (buffer (chan w))) = N;
  hi_start : 0 ≤ t0 ≤ tail (chan w);
  hi_range : tail (chan w) + N + 64 < usize_lim;
  hi_published : ∀ x, t0 ≤ x → tail (chan w) - reach N ≤ x < tail (chan w) →
    published w x = ring_get N (buffer (chan w)) x;
  hi_quiet : ∀ x, t0 ≤ x → tail (chan w) - reach N ≤ x < tail (chan w) →
    begun w (slot N x) = ended w (slot N x);
  hi_magic : (magic (chan w) = MAGIC ∧ capacity (chan w) = N) ∨
             (magic (chan w) = 0 ∧ tail (chan w) = 0)
}.

(** What the producer may do: it moves [tail] forward, and does not start
    to write a cell a consumer may still read; it sets up blank memory,
    once. *)
Record producer_guar w w' : Prop := {
  pg_tail : tail (chan w) ≤ tail (chan w');
  pg_published : ∀ x, x < tail (chan w) → published w' x = published w x;
  pg_begun : ∀ x, tail (chan w') - reach N ≤ x < tail (chan w) →
    begun w' (slot N x) = begun w (slot N x);
  pg_magic : magic (chan w) = MAGIC →
    magic (chan w') = MAGIC ∧ capacity (chan w') = capacity (chan w)
}.

(** What a consumer may do: nothing but heartbeats. *)
Record consumer_guar w w' : Prop := {
  cg_tail : tail (chan w') = tail (chan w);
  cg_buffer : buffer (chan w') = buffer (chan w);
  cg_published : published w' = published w;
  cg_begun : begun w' = begun w;
  cg_ended : ended w' = ended w;
  cg_magic : magic (chan w') = magic (chan w);
  cg_capacity : capacity (chan w') = capacity (chan w)
}.

(** Thread 0 is the producer, the others are consumers. *)
Definition guar (i : nat) : World T → World T → Prop :=
  match i with 0%nat => producer_guar | _ => consumer_guar end.
Definition rely (i : nat) : World T → World T → Prop :=
  match i with 0%nat => consumer_guar | _ => producer_guar end.

Lemma consumer_producer_guar w w' : consumer_guar w w' → producer_guar w w'.
Proof.
  intros [Ht Hb Hp Hbe He Hm Hc]. split; rewrite ?Ht, ?Hp, ?Hbe, ?Hm, ?Hc; done || lia.
Qed.

#[local] Instance consumer_guar_trans : Transitive consumer_guar.
Proof. intros w1 w2 w3 [] []. split; congruence. Qed.

#[local] Instance producer_guar_trans : Transitive producer_guar.
Proof.
  intros w1 w2 w3 [H1 H2 H3 H4] [K1 K2 K3 K4]. split; [lia|intros x Hx..|].
  - rewrite K2 by lia. by apply H2.
  - rewrite K3 by lia. apply H3. lia.
  - intros Hm. destruct (H4 Hm) as [Hm' Hc]. destruct (K4 Hm'). split; congruence.
Qed.

#[local] Instance rely_trans i : Transitive (rely i).
Proof. destruct i; cbn; apply _. Qed.

Lemma headless_rely_refl i w : rely i w w.
Proof. destruct i; cbn; by split. Qed.

Lemma headless_guar_rely i j w w' : i ≠ j → guar i w w' → rely j w w'.
Proof. destruct i, j; cbn; auto using consumer_producer_guar. done. Qed.

(** *** The two sides *)

(** [p] has pushed [s]. *)
Record producer_inv p s w : Prop := {
  pi_tail : t0 ≤ tail (chan w) ≤ t0 + Z.of_nat (length s);
  pi_local : p_tail p = t0 + Z.of_nat (length s);
  pi_written : p_written p = p_tail p - tail (chan w);
  pi_burst : p_written p ≤ burst_amount N;
  pi_range : p_tail p + N + 64 < usize_lim;
  pi_cells : ∀ k v, s !! k = Some v → tail (chan w) ≤ t0 + Z.of_nat k →
    ring_get N (buffer (chan w)) (t0 + Z.of_nat k) = Some v;
  pi_published : ∀ k v, s !! k = Some v → t0 + Z.of_nat k < tail (chan w) →
    published w (t0 + Z.of_nat k) = Some v;
  pi_quiet : ∀ i, begun w i = ended w i;
  pi_magic : magic (chan w) = MAGIC
}.

(** At any time, the published values are those pushed. *)
Definition pushed_published s w : Prop :=
  t0 ≤ tail (chan w) ≤ t0 + Z.of_nat (length s) ∧
  ∀ k, t0 + Z.of_nat k < tail (chan w) → published w (t0 + Z.of_nat k) = s !! k.

(** What a producer that is gone leaves behind. *)
Definition producer_down s w : Prop :=
  pushed_published s w ∧ ∀ i, begun w i = ended w i.

(** In each session, a consumer has read what was published at the positions
    it visited. *)
Definition read_published (its : list (Z * list Z)) ss w : Prop :=
  Forall2 (fun it se => it.1 = se.1 ∧
             Forall2 (fun k v => published w k = Some v) it.2 se.2) its ss.

Definition popped_ok (i : nat) ss w : Prop :=
  ∃ its, itinerary N t0 (role i).1 (role i).2 (tail (chan w)) its ∧
         read_published its ss w.

Record consumer_inv (i : nat) c ss w : Prop := {
  ci_index : c_consumer_index c = (role i).1;
  ci_interval : c_interval c = (role i).2;
  ci_near : near (tail (chan w)) c;
  ci_popped : ∃ its,
    visiting N t0 (role i).1 (role i).2 (tail (chan w)) (c_head c) its ∧
    read_published its ss w
}.

(** The sessions of thread [i], which has started with those of [ini]. *)
Context (ini : nat → list (Z * list T)).

Definition handle_inv (i : nat) (h : headless_handle)
    (hist : history (headless (T := T) N shared role)) w : Prop :=
  match i, h with
  | 0%nat, HProducer p => producer_inv p (pushed N shared role t0 hist) w
  | 0%nat, HNoProducer => producer_down (pushed N shared role t0 hist) w
  | S _, HConsumer c => consumer_inv i c (sessions N shared role (ini i) hist) w
  | S _, HNoConsumer index consumers =>
      (index, consumers) = role i ∧ popped_ok i (sessions N shared role (ini i) hist) w
  | _, _ => False
  end.

Definition call_inv (i : nat) (o : option (headless_call T))
    (hist : history (headless (T := T) N shared role)) w : Prop :=
  match i with
  | 0%nat => pushed_published (pushed N shared role t0 hist) w
  | S _ => popped_ok i (sessions N shared role (ini i) hist) w
  end.

(** What a crash in the middle of a call leaves. *)
Definition crash_inv (i : nat) (cl : headless_call T)
    (hist : history (headless (T := T) N shared role)) w : Prop :=
  match i with
  | 0%nat => producer_down (pushed N shared role t0 hist) w
  | S _ => popped_ok i (sessions N shared role (ini i) hist) w
  end.

Lemma producer_inv_pushed p s w :
  producer_inv p s w → pushed_published s w.
Proof.
  intros []. split; [lia|]. intros k Hk.
  destruct (lookup_lt_is_Some_2 s k ltac:(lia)) as [v Hv].
  rewrite Hv. by apply pi_published0.
Qed.

Lemma headless_producer_inv_down p s w : producer_inv p s w → producer_down s w.
Proof. intros P. split; [by eapply producer_inv_pushed|apply P]. Qed.

Lemma consumer_inv_popped i c ss w : consumer_inv i c ss w → popped_ok i ss w.
Proof. intros [_ _ _ (its & Hv & HF)]. exists its. eauto using visiting_itinerary. Qed.

(** *** Stability *)

Lemma headless_producer_inv_stable p s w w' :
  producer_inv p s w → consumer_guar w w' → producer_inv p s w'.
Proof.
  intros [] [Ht Hb Hp Hbe He Hm Hc].
  split; rewrite ?Ht, ?Hb, ?Hp, ?Hbe, ?He, ?Hm; done || lia.
Qed.

Lemma pushed_published_stable s w w' :
  pushed_published s w → consumer_guar w w' → pushed_published s w'.
Proof. intros [] []. split; rewrite ?cg_tail0, ?cg_published0; done. Qed.

Lemma headless_producer_down_stable s w w' :
  producer_down s w → consumer_guar w w' → producer_down s w'.
Proof.
  intros [Hs Hq] HG. split; [by eapply pushed_published_stable|].
  destruct HG. by rewrite cg_begun0, cg_ended0.
Qed.

Lemma read_published_stable its ss i w w' :
  itinerary N t0 (role i).1 (role i).2 (tail (chan w)) its →
  read_published its ss w → producer_guar w w' → read_published its ss w'.
Proof.
  intros Hits HF []. apply itinerary_positions in Hits; [|apply Hrole].
  eapply Forall2_and_l; [exact HF|exact Hits|]. cbn. intros it se [E HF'] Hks.
  split; [done|]. eapply Forall2_and_l; [exact HF'|exact Hks|]. cbn. intros k v Hv Hk.
  rewrite pg_published0; [done|lia].
Qed.

Lemma popped_ok_stable i ss w w' :
  popped_ok i ss w → producer_guar w w' → popped_ok i ss w'.
Proof.
  intros (its & Hits & HF) HG. exists its.
  split; [|by eapply read_published_stable].
  destruct HG. by eapply itinerary_mono.
Qed.

Lemma headless_consumer_inv_stable i c ss w w' :
  consumer_inv i c ss w → producer_guar w w' → consumer_inv i c ss w'.
Proof.
  intros [? ? Hn (its & Hv & HF)] HG. split; [done|done| |].
  - destruct HG. unfold near in *. lia.
  - exists its. split; [destruct HG; by eapply visiting_mono|].
    eapply read_published_stable; [by eapply visiting_itinerary|done..].
Qed.

Lemma headless_handle_inv_stable i h hist w w' :
  handle_inv i h hist w → rely i w w' → headless_inv w' → handle_inv i h hist w'.
Proof.
  destruct i, h; cbn; try done;
    intuition eauto using headless_producer_inv_stable, headless_consumer_inv_stable,
      headless_producer_down_stable, popped_ok_stable.
Qed.

Lemma headless_call_inv_stable i o hist w w' :
  call_inv i o hist w → rely i w w' → headless_inv w' → call_inv i o hist w'.
Proof.
  destruct i; cbn; eauto using pushed_published_stable, popped_ok_stable.
Qed.

Lemma headless_handle_inv_call_inv i h hist w :
  handle_inv i h hist w → call_inv i None hist w.
Proof.
  destruct i, h; cbn; try done; try tauto.
  - apply producer_inv_pushed.
  - by intros [].
  - apply consumer_inv_popped.
Qed.

(** A crash between two calls. *)
Lemma headless_handle_inv_down i h hist d w :
  handle_inv i h hist w → headless_down shared role i = Some d → handle_inv i d hist w.
Proof.
  intros HH Hd. unfold headless_down in Hd. destruct shared; [|done].
  destruct i, h; try done; injection Hd as <-; cbn in *.
  - by eapply headless_producer_inv_down.
  - done.
  - split; [by destruct (role (S i))|by eapply consumer_inv_popped].
  - split; [by destruct (role (S i))|apply HH].
Qed.

(** A consumer in the middle of its trail is well formed. *)
Lemma consumer_inv_wf i c ss w : headless_inv w → consumer_inv i c ss w → consumer_wf c.
Proof.
  intros HI [Ei Ev Hn (its & Hv & _)]. destruct (Hrole i) as [Hr1 Hr2].
  destruct (visiting_cursor _ _ _ _ _ _ _ Hr1 Hv) as [Hm Hh]. pose proof (hi_start _ HI).
  split; rewrite ?Ei, ?Ev; done || lia.
Qed.

Lemma consumer_inv_head i c ss w : consumer_inv i c ss w → t0 ≤ c_head c.
Proof.
  intros [_ _ _ (its & Hv & _)]. by destruct (visiting_cursor _ _ _ _ _ _ _ (proj1 (Hrole i)) Hv).
Qed.

#[local] Notation WPP s := (wp (sc N) 0 (fun _ _ _ => True) headless_inv
  (pushed_published s) (producer_down s) consumer_guar producer_guar).
#[local] Notation WPC i ss := (wp (sc N) i (fun _ _ _ => True) headless_inv
  (popped_ok i ss) (popped_ok i ss) producer_guar consumer_guar).

(** A crash at a moment when the producer is not writing. *)
Lemma headless_producer_crash sj p s w :
  producer_inv p s w → pushed_published sj w → producer_down sj w.
Proof. intros P HJ. split; [done|apply P]. Qed.

(** *** The producer's operations *)

(** The next cell to write is not readable. *)
Lemma headless_slot_free_ne w x y :
  tail (chan w) - reach N ≤ x < tail (chan w) →
  tail (chan w) ≤ y < tail (chan w) + burst_amount N →
  slot N y ≠ slot N x.
Proof. unfold reach. intros Hx Hy E. apply slot_window in E; lia. Qed.

Lemma headless_write_begin_ok d y w :
  headless_inv w → tail (chan w) ≤ y < tail (chan w) + burst_amount N →
  producer_guar w (do_write_begin (slot N y) d w) ∧
  headless_inv (do_write_begin (slot N y) d w).
Proof.
  intros [] Hy. split; split; cbn; try done; intros x Hx; try intros Hx';
    rewrite ?bump_ne by (by eapply headless_slot_free_ne); auto.
Qed.

Lemma headless_write_end_ok v y w :
  headless_inv w → tail (chan w) ≤ y < tail (chan w) + burst_amount N →
  producer_guar w (do_write_end (slot N y) v w) ∧
  headless_inv (do_write_end (slot N y) v w).
Proof.
  intros [] Hy. split; split; cbn; rewrite ?length_insert; try done;
    intros x Hx Hx';
    rewrite ?ring_get_set_ne by (unfold reach in *; lia);
    rewrite ?bump_ne by (by eapply headless_slot_free_ne); auto.
Qed.

(** Publishing: the store to [tail]. *)
Lemma headless_wp_sync p s w Φ :
  producer_inv p s w →
  (∀ p' w', producer_inv p' s w' → p_written p' = 0 → p_tail p' = p_tail p → Φ p' w') →
  WPP s (sync p) Φ w.
Proof.
  intros P HΦ. unfold sync. apply wp_store. intros w1 HR HI HJ.
  pose proof (headless_producer_inv_stable _ _ _ _ P HR) as P1.
  pose proof (headless_producer_crash _ _ _ _ P1 HJ). destruct P1 as [].
  pose proof HI as [].
  pose proof (headless_burst_amount_bounds N ltac:(lia)).
  set (w2 := do_store N TAIL _ w1).
  assert (Hold : ∀ x, x < tail (chan w1) → published w2 x = published w1 x).
  { intros x Hx. apply published_store_old. lia. }
  assert (Hnew : ∀ x, tail (chan w1) ≤ x < p_tail p →
    published w2 x = ring_get N (buffer (chan w1)) x).
  { intros x Hx. by apply published_store_new. }
  assert (Hall : ∀ k v, s !! k = Some v →
    published w2 (t0 + Z.of_nat k) = Some v).
  { intros k v Hk. pose proof (lookup_lt_Some _ _ _ Hk).
    destruct (Z.lt_ge_cases (t0 + Z.of_nat k) (tail (chan w1))).
    - rewrite Hold by done. by apply pi_published0.
    - rewrite Hnew by lia. by apply pi_cells0. }
  split_and!; [done|done|done| | | |apply HΦ; [|done|done]].
  - split; cbn; try done; lia.
  - split; cbn -[published]; try done; try lia;
      [|by left; destruct hi_magic0 as [|[? _]]; [|pose proof MAGIC_nonzero; congruence]].
    intros x Hx0 Hx. destruct (Z.lt_ge_cases x (tail (chan w1))); [|apply Hnew; lia].
    rewrite Hold by done. apply hi_published0; lia.
  - split; [cbn; lia|]. intros k Hk. change (t0 + Z.of_nat k < p_tail p) in Hk.
    destruct (lookup_lt_is_Some_2 s k ltac:(lia)) as [v Hv']. rewrite Hv'.
    by apply Hall.
  - split; cbn -[published]; try done; try lia.
    + intros k v Hk ?. pose proof (lookup_lt_Some _ _ _ Hk). lia.
    + intros k v Hk _. by apply Hall.
Qed.

Lemma wp_append p s v w Φ :
  producer_inv p s w → p_written p < burst_amount N →
  p_tail p + N + 65 < usize_lim →
  (∀ p' w', producer_inv p' (s ++ [v]) w' → Φ p' w') →
  WPP s (_ ← assign_cell (mask_index N (p_tail p)) v;
         tail ← lift (uadd (p_tail p) 1);
         written ← lift (uadd (p_written p) 1);
         mret (mkProducer (p_spsc p) tail written (p_last_consumer_heartbeat p))) Φ w.
Proof.
  intros P Hlt Hb HΦ. rewrite (headless_mask_slot N HN). set (y := p_tail p) in *.
  apply wp_write. intros w1 HR1 HI1 HJ1 w2.
  pose proof (headless_producer_inv_stable _ _ _ _ P HR1) as P1.
  pose proof (headless_burst_amount_bounds N ltac:(lia)) as HB.
  assert (Hy1 : tail (chan w1) ≤ y < tail (chan w1) + burst_amount N)
    by (subst y; destruct P1; lia).
  destruct (headless_write_begin_ok true y w1 HI1 Hy1) as [HG2 HI2].
  split_and!; [apply HI1|by apply headless_slot_in_buffer, HI1|done| |done|done|done|].
  { by eapply headless_producer_crash. }
  intros w3 HR3 HI3 HJ3. pose proof HR3 as [Et Eb Ep Ebe Een Em _]. cbn in *.
  assert (Hy3 : tail (chan w3) ≤ y < tail (chan w3) + burst_amount N) by lia.
  assert (Hq3 : ∀ u j, begun (do_write_end (slot N y) u w3) j = ended (do_write_end (slot N y) u w3) j).
  { intros u j. cbn. rewrite Ebe, Een. unfold bump. rewrite (pi_quiet _ _ _ P1).
    by case_decide. }
  split_and!; [apply HI3|by apply headless_slot_in_buffer, HI3|done| |done|].
  { intros u. destruct (headless_write_end_ok u y w3 HI3 Hy3). by split_and!. }
  subst y.
  pose proof (hi_start _ HI1). pose proof (hi_length _ HI3).
  destruct P1 as [? ? ? ? ? Hcells Hpub Hq]. cbn.
  eapply wp_lift; [apply uadd_val; unfold is_usize; lia|].
  eapply wp_lift; [apply uadd_val; unfold is_usize; lia|].
  apply wp_ret, HΦ.
  split; cbn; rewrite ?length_zapp, ?Et, ?Ep, ?Em; cbn; try done; try lia.
  - intros k u Hk Hge. apply list_lookup_snoc_cases in Hk as [Hk|[-> ->]].
    + pose proof (lookup_lt_Some _ _ _ Hk).
      rewrite ring_get_set_ne by lia. rewrite Eb. by apply Hcells.
    + rewrite <- pi_local0. apply ring_get_set_eq; [lia|done].
  - intros k u Hk Hlt'. apply list_lookup_snoc_cases in Hk as [Hk|[-> ->]]; [|lia].
    by apply Hpub.
  - apply (Hq3 v).
Qed.

Lemma headless_wp_push p s v w Φ :
  producer_inv p s w → headless_inv w → p_tail p + N + 65 < usize_lim →
  (∀ p' w', producer_inv p' (s ++ [v]) w' → Φ p' w') →
  WPP s (push N p v) Φ w.
Proof.
  intros P HI Hb HΦ. pose proof (headless_burst_amount_bounds N ltac:(lia)).
  unfold push. apply wp_bind. bool_case.
  - eapply headless_wp_sync; [done|]. intros p' w' P' Hw Ht. apply wp_append; [done|lia..|done].
  - apply wp_ret, wp_append; try done. destruct P. lia.
Qed.

(** Accesses to the heartbeats do not concern the log. *)
Lemma headless_heartbeat_ok l v w :
  l = PRODUCER_HEARTBEAT ∨ l = CONSUMER_HEARTBEAT → headless_inv w →
  consumer_guar w (do_store N l v w) ∧ headless_inv (do_store N l v w).
Proof. intros [-> | ->] []; split; by split. Qed.

Lemma headless_wp_producer_beat p s w Φ :
  producer_inv p s w →
  (∀ w', producer_inv p s w' → Φ tt w') →
  WPP s (HeadlessProducer.beat p) Φ w.
Proof.
  intros P HΦ. apply wp_fetch_add. intros w1 HR HI HJ.
  pose proof (headless_producer_inv_stable _ _ _ _ P HR) as P1.
  split_and!; [apply HI|done|by eapply headless_producer_crash|]. intros w2 ->.
  edestruct (headless_heartbeat_ok PRODUCER_HEARTBEAT) as (HC & HI'); [by left|done|].
  pose proof (pushed_published_stable _ _ _ HJ HC).
  split_and!; [by apply consumer_producer_guar|done|done|]. apply wp_ret, HΦ.
  by eapply headless_producer_inv_stable.
Qed.

Lemma headless_wp_consumer_heartbeat p s w Φ :
  producer_inv p s w →
  (∀ p' b w', producer_inv p' s w' → Φ (p', b) w') →
  WPP s (consumer_heartbeat p) Φ w.
Proof.
  intros P HΦ. apply wp_load. intros w1 HR HI HJ.
  pose proof (headless_producer_inv_stable _ _ _ _ P HR) as P1.
  split_and!; [apply HI|done|by eapply headless_producer_crash|].
  case_match; apply wp_ret, HΦ; [|done]. by destruct P1.
Qed.

(** *** The consumers' operations *)

Lemma visiting_skip t' i c its t :
  visiting N t0 (role i).1 (role i).2 t (c_head c) its →
  c_head c + reach N < t' ≤ t →
  visiting N t0 (role i).1 (role i).2 t
    (next_congruent (t' - reach N) (role i).1 (role i).2) its.
Proof.
  destruct its as [|[h0 ks] its]; [done|]. intros (? & ? & Htr & Hp) Ht'.
  split_and!; [done|done|by eapply trail_skip|done].
Qed.

Lemma consumer_inv_reset i c ss w t :
  headless_inv w → consumer_inv i c ss w →
  c_head c + reach N < t ≤ tail (chan w) →
  consumer_inv i (with_head c (next_congruent (t - reach N) (c_consumer_index c)
                                 (c_interval c))) ss w.
Proof.
  intros HI P Ht. pose proof (consumer_inv_wf _ _ _ _ HI P) as Hwf.
  pose proof (reach_bounds N HN). pose proof (consumer_inv_head _ _ _ _ P).
  pose proof (hi_start _ HI).
  destruct (reset_wf N HN c t Hwf ltac:(lia)) as (_ & Hn & _).
  destruct P as [Ei Ev _ (its & Hv & HF)]. split; cbn; [done|done| |].
  - unfold near in *. cbn in *. lia.
  - exists its. rewrite Ei, Ev. split; [|done]. by eapply visiting_skip.
Qed.

(** Reading the cell at the cursor: if the producer has still not lapped the
    cursor when the read is over, then the read was not torn. *)
Lemma headless_wp_read_cell {A} i c ss (k : T → prog T A) Φ w :
  consumer_inv i c ss w → c_head c < tail (chan w) →
  (∀ v w', headless_inv w' → consumer_inv i c ss w' → c_head c < tail (chan w') →
     (tail (chan w') ≤ c_head c + reach N → published w' (c_head c) = Some v) →
     WPC i ss (k v) Φ w') →
  WPC i ss (read_cell (slot N (c_head c)) ≫= k) Φ w.
Proof.
  intros P Hlt Hk. apply wp_read. intros w1 HR1 HI1 HJ1. set (j := slot N (c_head c)) in *.
  pose proof (headless_consumer_inv_stable _ _ _ _ _ P HR1) as P1.
  pose proof (consumer_inv_head _ _ _ _ P1) as H0.
  pose proof (pg_tail _ _ HR1). split_and!; [apply HI1|done|done|].
  intros w3 HR3 HI3 HJ3. pose proof (headless_consumer_inv_stable _ _ _ _ _ P1 HR3) as P3.
  pose proof (pg_tail _ _ HR3). split_and!; [apply HI3|done|done| |].
  { apply (ring_get_is_Some N ltac:(lia)), HI3. }
  intros x Hclean. apply Hk; [done|done|lia|]. intros Hin.
  pose proof (hi_quiet _ HI1 (c_head c) H0 ltac:(lia)) as Hq1.
  rewrite (hi_published _ HI3) by lia.
  apply Hclean; [exact Hq1|]. apply (pg_begun _ _ HR3). lia.
Qed.

Definition iteration_post (i : nat) ss (r : Consumer + (Consumer * option T)) w : Prop :=
  match r with
  | inl c => consumer_inv i c ss w
  | inr (c, None) => consumer_inv i c ss w
  | inr (c, Some v) => consumer_inv i c (record v ss) w
  end.

Lemma wp_reset_head i c ss w t {A} (f : Consumer → prog T A) Φ :
  headless_inv w → consumer_inv i c ss w →
  c_head c + reach N < t ≤ tail (chan w) →
  (∀ c', consumer_inv i c' ss w → WPC i ss (f c') Φ w) →
  WPC i ss (reset_head N c t ≫= f) Φ w.
Proof.
  intros HI P Ht Hf. pose proof (consumer_inv_head _ _ _ _ P).
  pose proof (hi_start _ HI). pose proof (hi_range _ HI).
  rewrite (reset_head_val N HN);
    [|by eapply consumer_inv_wf|lia|lia].
  by apply Hf, consumer_inv_reset.
Qed.

(** A copy that failed the validation is dropped. *)
Lemma wp_consumer_drop {A} i c ss v (k : unit → prog T A) Φ w :
  consumer_inv i c ss w →
  (∀ w', consumer_inv i c ss w' → WPC i ss (k tt) Φ w') →
  WPC i ss (drop_value v ≫= k) Φ w.
Proof.
  intros P Hk. apply wp_drop_value. intros w1 HR HI HJ.
  pose proof (headless_consumer_inv_stable _ _ _ _ _ P HR) as P1.
  assert (HI' : headless_inv (do_drop_value v w1)) by by destruct HI.
  split_and!; [apply HI|done|done|by split|done|done|]. apply Hk. by destruct P1.
Qed.

(** A successful read adds a position to the trail and a value to the
    session. *)
Lemma consumer_inv_read i c ss v w :
  consumer_wf c → consumer_inv i c ss w → c_head c < tail (chan w) →
  published w (c_head c) = Some v →
  consumer_inv i (with_head c (c_head c + c_interval c)) (record v ss) w.
Proof.
  intros [] [Ei Ev Hn (its & Hv & HF)] Hlt Hpub. split; cbn; [done|done| |].
  - unfold near. cbn. lia.
  - destruct its as [|[h0 ks] its]; [done|]. destruct Hv as (H0 & Hm & Htr & Hits).
    inversion HF as [|? [h0' vs] ? ss' [E HF1] HF2]; subst. cbn in E. subst h0'.
    exists ((h0, ks ++ [c_head c]) :: its). split.
    + split_and!; [done|done| |done]. rewrite Ev. by constructor.
    + constructor; [|done]. split; [done|]. cbn. apply Forall2_app; [done|]. by constructor.
Qed.

Lemma wp_pop_iteration i c ss w :
  consumer_inv i c ss w →
  WPC i ss (pop_iteration N c) (iteration_post i ss) w.
Proof.
  intros P. unfold pop_iteration. apply wp_load. intros w1 HR HI HJ.
  pose proof (headless_consumer_inv_stable _ _ _ _ _ P HR) as P1.
  pose proof (consumer_inv_wf _ _ _ _ HI P1) as Hwf.
  change (get_loc TAIL (chan w1)) with (tail (chan w1)).
  split_and!; [apply HI|done|done|].
  pose proof (reach_bounds N HN).
  bool_case; [by apply wp_ret|].
  eapply wp_lift; [by apply window_val|].
  rewrite (wrapping_window N HN c (tail (chan w1)))
    by (apply P1 || apply HI || done).
  destruct (Z.leb_spec (tail (chan w1)) (c_head c + reach N)); cbn [negb];
    [|by eapply wp_reset_head; [..|intros; apply wp_ret]].
  rewrite (headless_mask_slot N HN). apply (headless_wp_read_cell i c ss); [done|lia|].
  intros v w2 HI2 P2 Hlt Hv. apply wp_load. intros w3 HR3 HI3 HJ3.
  pose proof (headless_consumer_inv_stable _ _ _ _ _ P2 HR3) as P3.
  change (get_loc TAIL (chan w3)) with (tail (chan w3)).
  split_and!; [apply HI3|done|done|].
  pose proof (pg_tail _ _ HR3).
  destruct (Z.leb_spec (tail (chan w3)) (c_head c + reach N)); cbn [negb];
    [|by eapply wp_reset_head; [..|intros; eapply wp_consumer_drop;
        [|intros; apply wp_ret]]].
  pose proof Hwf as []. pose proof (hi_range _ HI3).
  eapply wp_lift; [apply uadd_val; unfold is_usize; lia|]. apply wp_ret.
  apply consumer_inv_read; [done|done|lia|].
  rewrite (pg_published _ _ HR3) by done. apply Hv. lia.
Qed.

Lemma headless_wp_pop i c ss w fuel :
  consumer_inv i c ss w →
  WPC i ss (pop N fuel c) (fun r w' =>
    consumer_inv i r.1 (session_step ss (Pop fuel, APop r.2)) w') w.
Proof.
  revert c w. induction fuel as [|fuel IH]; intros c w P; cbn [pop]; [by apply wp_ret|].
  apply wp_bind. eapply wp_mono; [|by apply wp_pop_iteration].
  intros [c'|[c' [v|]]] w' P'; cbn in P'; [by apply IH|by apply wp_ret..].
Qed.

Lemma headless_wp_producer_heartbeat i c ss w Φ :
  consumer_inv i c ss w →
  (∀ c' b w', consumer_inv i c' ss w' → Φ (c', b) w') →
  WPC i ss (producer_heartbeat c) Φ w.
Proof.
  intros P HΦ. apply wp_load. intros w1 HR HI HJ.
  pose proof (headless_consumer_inv_stable _ _ _ _ _ P HR) as P1.
  split_and!; [apply HI|done|done|].
  case_match; apply wp_ret, HΦ; try done. by destruct P1.
Qed.

Lemma headless_wp_consumer_beat i c ss w Φ :
  consumer_inv i c ss w →
  (∀ w', consumer_inv i c ss w' → Φ tt w') →
  WPC i ss (HeadlessConsumer.beat c) Φ w.
Proof.
  intros P HΦ. apply wp_fetch_add. intros w1 HR HI HJ.
  pose proof (headless_consumer_inv_stable _ _ _ _ _ P HR) as P1.
  split_and!; [apply HI|done|done|]. intros w2 ->.
  edestruct (headless_heartbeat_ok CONSUMER_HEARTBEAT) as (HC & HI'); [by right|done|].
  pose proof (consumer_producer_guar _ _ HC) as HG.
  split_and!; [done|done|by eapply popped_ok_stable|].
  apply wp_ret, HΦ. by eapply headless_consumer_inv_stable.
Qed.

(** *** Joining *)

(** A store of the set-up of blank memory, before the magic number. *)
Definition setup_store (l : loc) (v : Z) : Prop :=
  (l = TAIL ∧ v = 0) ∨ l = PRODUCER_HEARTBEAT ∨ l = CONSUMER_HEARTBEAT ∨ l = CAPACITY.

Lemma headless_setup_ok l v s w :
  setup_store l v → headless_inv w → magic (chan w) = 0 → producer_down s w →
  let w' := do_store N l v w in
  producer_guar w w' ∧ headless_inv w' ∧ magic (chan w') = 0 ∧ producer_down s w'.
Proof.
  intros Hl HI Hm [[Ht Hp] Hq] w'. pose proof MAGIC_nonzero as Hz. pose proof HI as [].
  destruct hi_magic0 as [[Em _]|[_ Et]]; [congruence|].
  assert (Hpub : ∀ x, published w' x = published w x)
    by (intros x; destruct Hl as [[-> ->]|[-> |[-> | ->]]]; [apply published_store_same; lia|done..]).
  assert (tail (chan w') = tail (chan w) ∧ buffer (chan w') = buffer (chan w) ∧
          magic (chan w') = magic (chan w)) as (Et' & Eb' & Em')
    by (destruct Hl as [[-> ->]|[-> |[-> | ->]]]; by rewrite ?Et).
  split_and!; [split|split|congruence|split; [split|done]];
    rewrite ?Et', ?Eb', ?Em'; intros; rewrite ?Hpub; auto; try lia; congruence.
Qed.

Lemma headless_wp_setup {A} l v s (k : unit → prog T A) Φ w :
  setup_store l v → producer_down s w → magic (chan w) = 0 →
  (∀ w', producer_down s w' → magic (chan w') = 0 →
     (l = CAPACITY → capacity (chan w') = v) → WPP s (k tt) Φ w') →
  WPP s (store l Release v ≫= k) Φ w.
Proof.
  intros Hl HD Hm Hk. apply wp_store. intros w1 HR HI HJ.
  pose proof (headless_producer_down_stable _ _ _ HD HR) as HD1.
  rewrite <- (cg_magic _ _ HR) in Hm.
  destruct (headless_setup_ok l v s w1 Hl HI Hm HD1) as (HG & HI' & Hm' & HD').
  split_and!; [apply HI|done|done|done|done|apply HD'|].
  apply Hk; [done|done|]. by intros ->.
Qed.

(** A producer that has joined goes on after the last value published. *)
Lemma headless_producer_inv_joined b s last w :
  headless_inv w → magic (chan w) = MAGIC → producer_down s w →
  producer_inv (mkProducer b (tail (chan w)) 0 last)
    (take (Z.to_nat (tail (chan w) - t0)) s) w.
Proof.
  intros [] Hm [[Ht Hp] Hq]. pose proof (length_take s (Z.to_nat (tail (chan w) - t0))).
  pose proof (headless_burst_amount_bounds N ltac:(lia)).
  split; cbn; try done; try lia.
  - intros k v Hk Hle. apply lookup_lt_Some in Hk. lia.
  - intros k v Hk Hlt. apply lookup_take_Some in Hk as [Hk _]. by rewrite Hp.
Qed.

Lemma headless_wp_join_producer b s w Φ :
  mapped_at b = true → producer_down s w →
  (∀ p w', producer_inv p (take (Z.to_nat (p_tail p - t0)) s) w' → Φ (Ok p) w') →
  WPP s (join_or_create_mapped N b) Φ w.
Proof.
  intros Hb HD HΦ. destruct (mapped_at_true b Hb) as [Hb0 _]. pose proof MAGIC_nonzero as Hz.
  unfold join_or_create_mapped. apply wp_load. intros w1 HR1 HI1 HJ1.
  pose proof (headless_producer_down_stable _ _ _ HD HR1) as HD1.
  change (get_loc MAGIC_WORD (chan w1)) with (magic (chan w1)).
  split_and!; [apply HI1|done|done|]. apply wp_load. intros w2 HR2 HI2 HJ2.
  pose proof (headless_producer_down_stable _ _ _ HD1 HR2) as HD2.
  change (get_loc CAPACITY (chan w2)) with (capacity (chan w2)).
  split_and!; [apply HI2|done|done|]. rewrite <- (cg_magic _ _ HR2).
  destruct (hi_magic _ HI2) as [(Em & Ec)|(Em & Et)]; rewrite Em.
  - rewrite Ec, !Z.eqb_refl. cbn [negb].
    apply wp_fetch_add. intros w3 HR3 HI3 HJ3.
    pose proof (headless_producer_down_stable _ _ _ HD2 HR3) as HD3.
    split_and!; [apply HI3|done|done|]. intros w4 ->.
    edestruct (headless_heartbeat_ok PRODUCER_HEARTBEAT) as (HC & HI'); [by left|exact HI3|].
    pose proof (headless_producer_down_stable _ _ _ HD3 HC) as HD4.
    split_and!; [by apply consumer_producer_guar|done|apply HD4|].
    eapply wp_lift; [by apply NonNull_new_unwrap_val|].
    apply wp_load. intros w5 HR5 HI5 HJ5.
    pose proof (headless_producer_down_stable _ _ _ HD4 HR5) as HD5.
    change (get_loc TAIL (chan w5)) with (tail (chan w5)).
    split_and!; [apply HI5|done|done|]. apply wp_load. intros w6 HR6 HI6 HJ6.
    pose proof (headless_producer_down_stable _ _ _ HD5 HR6) as HD6.
    split_and!; [apply HI6|done|done|]. apply wp_ret, HΦ.
    rewrite <- (cg_tail _ _ HR6). apply headless_producer_inv_joined; [done| |done].
    rewrite (cg_magic _ _ HR6), (cg_magic _ _ HR5), (cg_magic _ _ HC), (cg_magic _ _ HR3).
    done.
  - rewrite (proj2 (Z.eqb_neq 0 MAGIC)) by congruence. cbn [Z.eqb].
    apply (headless_wp_setup _ _ s); [by left|done|done|]. intros w3 HD3 Em3 _.
    apply (headless_wp_setup _ _ s); [by right; left|done|done|]. intros w4 HD4 Em4 _.
    apply (headless_wp_setup _ _ s); [by right; right; left|done|done|]. intros w5 HD5 Em5 _.
    apply (headless_wp_setup _ _ s); [by right; right; right|done|done|].
    intros w6 HD6 Em6 Ec6. specialize (Ec6 eq_refl).
    apply wp_store. intros w7 HR7 HI7 HJ7.
    pose proof (headless_producer_down_stable _ _ _ HD6 HR7) as HD7.
    rewrite <- (cg_magic _ _ HR7) in Em6. rewrite <- (cg_capacity _ _ HR7) in Ec6.
    destruct (hi_magic _ HI7) as [[? _]|[_ Et7]]; [congruence|].
    assert (HI8 : headless_inv (do_store N MAGIC_WORD MAGIC w7))
      by (destruct HI7; split; try done; by left).
    split_and!; [apply HI7|done|done| |done|done|].
    { split; cbn; done || congruence || lia. }
    eapply wp_lift; [by apply NonNull_new_unwrap_val|].
    apply wp_load. intros w9 HR9 HI9 HJ9.
    assert (HD9 : producer_down s w9)
      by (eapply headless_producer_down_stable; [|exact HR9]; exact HD7).
    split_and!; [apply HI9|done|done|]. apply wp_ret, HΦ.
    assert (P : magic (chan w9) = MAGIC) by by rewrite (cg_magic _ _ HR9).
    apply (headless_producer_inv_joined b s (get_loc CONSUMER_HEARTBEAT (chan w9)) w9 HI9) in P;
      [|done].
    replace (tail (chan w9)) with 0 in P by (rewrite (cg_tail _ _ HR9); by rewrite <- Et7).
    exact P.
Qed.

(** A consumer's new session starts at the first position of its class not
    published yet. *)
Lemma consumer_inv_joined i b ss last t w :
  t0 ≤ t → t ≤ tail (chan w) →
  (∃ its, itinerary N t0 (role i).1 (role i).2 t its ∧ read_published its ss w) →
  consumer_inv i (mkConsumer b (next_congruent t (role i).1 (role i).2)
                    (role i).2 (role i).1 last)
    ((next_congruent t (role i).1 (role i).2, []) :: ss) w.
Proof.
  intros H0 Ht (its & Hits & HF). destruct (Hrole i) as [Hr _].
  destruct (next_congruent_spec t _ _ Hr) as (Em & Hb & _).
  split; cbn; [done|done|unfold near; cbn; lia|].
  exists ((next_congruent t (role i).1 (role i).2, []) :: its). split.
  - split_and!; [lia|done|constructor|]. exists t. split_and!; [done|lia|done].
  - constructor; [|done]. by split.
Qed.

Lemma headless_wp_join_consumer i b ss w Φ :
  mapped_at b = true → popped_ok i ss w →
  (∀ c w', consumer_inv i c ((c_head c, []) :: ss) w' → Φ (Ok c) w') →
  (∀ e w', popped_ok i ss w' → Φ (Err e) w') →
  WPC i ss (join_multi_ ShmemMode N b (role i).1 (role i).2) Φ w.
Proof.
  intros Hb HP HΦ Herr. destruct (mapped_at_true b Hb) as [_ Hb128]. destruct (Hrole i) as [Hr1 Hr2].
  unfold join_multi_. rewrite check_join_ok by done. unfold assert.
  rewrite (proj2 (Z.leb_le _ _) Hr2), (proj2 (Z.ltb_lt _ _) (proj2 Hr1)).
  apply wp_load. intros w1 HR1 HI1 HJ1.
  change (get_loc MAGIC_WORD (chan w1)) with (magic (chan w1)).
  split_and!; [apply HI1|done|done|]. apply wp_load. intros w2 HR2 HI2 HJ2.
  change (get_loc CAPACITY (chan w2)) with (capacity (chan w2)).
  split_and!; [apply HI2|done|done|].
  destruct (Z.eqb_spec (magic (chan w1)) MAGIC) as [Em|_];
    [|bool_case; by apply wp_ret, Herr].
  destruct (pg_magic _ _ HR2 Em) as [Em2 _].
  destruct (hi_magic _ HI2) as [[_ Ec]|[? _]]; [|pose proof MAGIC_nonzero; congruence].
  rewrite Ec, Z.eqb_refl. cbn [negb]. apply wp_load. intros w3 HR3 HI3 HJ3.
  change (get_loc TAIL (chan w3)) with (tail (chan w3)).
  split_and!; [apply HI3|done|done|]. cbn [BACKED_BY_ARCC].
  pose proof (hi_start _ HI3). pose proof (hi_range _ HI3).
  change (WPC i ss (head ← lift (next_modulo (tail (chan w3)) (role i).1 (role i).2);
    last ← load PRODUCER_HEARTBEAT Acquire;
    mret (Ok (mkConsumer b head (role i).2 (role i).1 last))) Φ w3).
  eapply wp_lift; [apply next_modulo_val; lia|].
  apply wp_load. intros w4 HR4 HI4 HJ4. split_and!; [apply HI4|done|done|].
  apply wp_ret, HΦ. cbn [c_head]. apply consumer_inv_joined; [lia|apply HR4|].
  destruct HJ3 as (its & Hits & HF). exists its. split; [done|].
  by eapply read_published_stable.
Qed.

(** *** Every call keeps the invariants *)

#[local] Notation call_ok i c hist m w :=
  (wp_call (sc N) (headless N shared role) (fun _ _ _ _ => True) headless_inv rely guar
     handle_inv call_inv crash_inv i c hist m w).

Lemma headless_producer_call p hist (cl : headless_call T) m w :
  handle_inv 0 (HProducer p) hist w → headless_inv w →
  headless_exec N shared (HProducer p) cl = Some m → call_ok 0%nat cl hist m w.
Proof.
  intros P HI Hm. cbn [handle_inv] in P. unfold wp_call.
  destruct cl; cbn [headless_exec] in Hm; try done;
    try (destruct (Z.ltb_spec (p_tail p + N + 65) usize_lim); [|done]);
    apply (inj Some) in Hm as <-; apply wp_bind;
    [eapply headless_wp_push|eapply headless_wp_sync|eapply headless_wp_producer_beat
    |eapply headless_wp_consumer_heartbeat]; try done; intros;
    apply wp_ret; cbn; by rewrite pushed_snoc.
Qed.

Lemma headless_consumer_call i c hist (cl : headless_call T) m w :
  handle_inv (S i) (HConsumer c) hist w → headless_inv w →
  headless_exec N shared (HConsumer c) cl = Some m → call_ok (S i) cl hist m w.
Proof.
  intros P HI Hm. cbn [handle_inv] in P. unfold wp_call.
  destruct cl as [| | | |fuel| | | |]; cbn [headless_exec] in Hm; try done;
    apply (inj Some) in Hm as <-; apply wp_bind.
  - eapply wp_mono; [|by apply headless_wp_pop]. intros [c' o] w' P'.
    apply wp_ret. cbn [fst snd handle_inv call answer headless]. by rewrite sessions_snoc.
  - eapply headless_wp_consumer_beat; [done|]. intros. apply wp_ret. cbn.
    by rewrite sessions_snoc.
  - eapply headless_wp_producer_heartbeat; [done|]. intros. apply wp_ret. cbn.
    by rewrite sessions_snoc.
Qed.

Lemma headless_absent_call i h hist (cl : headless_call T) m w :
  match h with HNoProducer | HNoConsumer _ _ => True | _ => False end →
  handle_inv i h hist w →
  headless_exec N shared h cl = Some m → call_ok i cl hist m w.
Proof.
  intros Hh HH Hm. unfold wp_call. destruct h, cl; try done; cbn [headless_exec] in Hm;
    try done; destruct (shared && mapped_at buffer) eqn:Hb; try done;
    apply andb_true_iff in Hb as [_ Hb]; apply (inj Some) in Hm as <-;
    destruct i as [|i]; try done; cbn [handle_inv] in HH; apply wp_bind.
  - eapply headless_wp_join_producer; [done|exact HH|]. intros p w' P.
    apply wp_ret. cbn. by rewrite pushed_snoc.
  - destruct HH as [Er HP]. pose proof (headless_wp_join_consumer (S i) buffer) as Hwp.
    rewrite <- Er in Hwp. eapply Hwp; [done|exact HP| |]; intros; apply wp_ret; cbn;
      by rewrite sessions_snoc.
Qed.

Lemma headless_handle_inv_call i h hist (cl : headless_call T) m w :
  handle_inv i h hist w → headless_inv w →
  headless_exec N shared h cl = Some m →
  call_inv i (Some cl) hist w ∧ call_ok i cl hist m w.
Proof.
  intros HH HI Hm. split; [exact (headless_handle_inv_call_inv _ _ _ _ HH)|].
  destruct h; [destruct i; [|done]; by eapply headless_producer_call
              |destruct i; [done|]; by eapply headless_consumer_call
              |eapply headless_absent_call; [|exact HH|exact Hm]; done..].
Qed.

(** A crash in the middle of a call leaves a thread that can join again. *)
Lemma headless_crash_inv_down i (cl : headless_call T) hist d w :
  crash_inv i cl hist w → headless_down shared role i = Some d →
  handle_inv i d (hist ++ [(cl, ACut)]) w.
Proof.
  intros HK Hd. unfold headless_down in Hd. destruct shared; [|done].
  destruct i as [|i]; injection Hd as <-; cbn in *.
  - rewrite pushed_snoc. by destruct cl.
  - rewrite sessions_snoc. split; [by destruct (role (S i))|]. by destruct cl.
Qed.
End Proof.
