(* ===== verification/HeadlessPair.v ===== *)
(** * Joining a headless channel, and process-local groups

    What each way of joining does in every state of the shared memory, and
    [headless_pair] and [headless_multi] of
    [src/que/src/headless_spmc/mod.rs]. *)

From S2P Require Import Prelude.
From S2P Require Import Rust.
From S2P Require Import Ring.
From S2P Require Import Errors.
From S2P Require Import Channel.
From S2P Require Import Join.
From S2P Require Import HeadlessProducer.
From S2P Require Import HeadlessConsumer.
From S2P Require Import HeadlessLog.
From S2P Require Import HeadlessRefinement.

Section Pair.
Context {T : Type} {prof : Profile} (N : Z).

(** From the point where the memory at [buffer], allocated by
    [Arc::new_uninit], has been zeroed. *)
Definition headless_pair (buffer : Z) : prog T (Producer * Consumer) :=
  r ← join_or_initialize_in_ LocalMode N buffer;
  producer ← lift (unwrap r);
  r ← join_multi_ LocalMode N buffer 0 1;
  consumer ← lift (unwrap r);
  _ ← arc_drop;
  mret (producer, consumer).

(** [for i in 0..NUM_CONSUMERS], [n] iterations being left. *)
Fixpoint join_consumers (buffer : Z) (num : nat) (n : nat) : prog T (list Consumer) :=
  match n with
  | O => mret []
  | S n' =>
      r ← join_multi_ LocalMode N buffer (Z.of_nat (num - n)) (Z.of_nat num);
      consumer ← lift (unwrap r);
      consumers ← join_consumers buffer num n';
      mret (consumer :: consumers)
  end.

Definition headless_multi (buffer : Z) (NUM_CONSUMERS : nat) :
    prog T (Producer * list Consumer) :=
  r ← join_or_initialize_in_ LocalMode N buffer;
  producer ← lift (unwrap r);
  consumers ← join_consumers buffer NUM_CONSUMERS NUM_CONSUMERS;
  _ ← arc_drop;
  mret (producer, consumers).

Definition new_uninit_zeroed (zeroed : T) : World T :=
  world_of (zeroed_channel zeroed N).
End Pair.

Section Joining.
Context {T : Type} {prof : Profile} (M : mode) (N : Z).
Implicit Types (w : World T).

(** The stores that set up a channel, in [join_or_initialize_in_] and in
    [join_or_create_shmem]. *)
Definition init_stores_mapped w : World T :=
  do_store N MAGIC_WORD MAGIC (do_store N CAPACITY N
    (do_store N CONSUMER_HEARTBEAT 0 (do_store N PRODUCER_HEARTBEAT 0
      (do_store N TAIL 0 w)))).

Definition init_stores w : World T :=
  init_stores_mapped (do_store N MAGIC_WORD 0 w).

Lemma headless_init_stores_chan w :
  chan (init_stores w) = initialised N (chan w) ∧
  chan (init_stores_mapped w) = initialised N (chan w).
Proof. done. Qed.

Lemma headless_join__spec buffer w :
  capacity_ok N → buffer mod 128 = 0 → buffer ≠ 0 → freed w = false →
  run N (join_ M N buffer) w = join_cases N w
    (Done (Ok (mkProducer buffer (tail (chan w)) 0
                 (Channel.consumer_heartbeat (chan w)))) (attach M w))
    (Done (Err Uninitialized) w).
Proof.
  intros HN Hb H0 Hf. unfold join_. rewrite run_check_join by done.
  join_split N w; join_steps.
Qed.

Lemma headless_join_or_initialize_in__spec buffer w :
  capacity_ok N → buffer mod 128 = 0 → buffer ≠ 0 → freed w = false →
  run N (join_or_initialize_in_ M N buffer) w = join_cases N w
    (Done (Ok (mkProducer buffer (tail (chan w)) 0
                 (Channel.consumer_heartbeat (chan w))))
       (attach M (do_store N PRODUCER_HEARTBEAT
                  (wrap64 (Channel.producer_heartbeat (chan w) + 1)) w)))
    (Done (Ok (mkProducer buffer 0 0 0)) (attach M (init_stores w))).
Proof.
  intros HN Hb H0 Hf. unfold join_or_initialize_in_. rewrite run_check_join by done.
  join_split N w; join_steps.
Qed.

Lemma headless_join_or_create_mapped_spec buffer w :
  buffer ≠ 0 → freed w = false →
  run N (join_or_create_mapped N buffer) w = join_cases N w
    (Done (Ok (mkProducer buffer (tail (chan w)) 0
                 (Channel.consumer_heartbeat (chan w))))
       (do_store N PRODUCER_HEARTBEAT
          (wrap64 (Channel.producer_heartbeat (chan w) + 1)) w))
    (Done (Ok (mkProducer buffer 0 0 0)) (init_stores_mapped w)).
Proof. intros H0 Hf. unfold join_or_create_mapped. join_split N w; join_steps. Qed.

(** [Consumer::join_multi_]: the consumer starts at the first position of
    its stride from the published tail on. *)
Lemma join_multi__spec buffer index consumers w :
  capacity_ok N → buffer mod 128 = 0 → freed w = false →
  0 ≤ index < consumers → consumers ≤ 64 →
  0 ≤ tail (chan w) → tail (chan w) + 64 ≤ usize_lim →
  run N (join_multi_ M N buffer index consumers) w = join_cases N w
    (Done (Ok (mkConsumer buffer (next_congruent (tail (chan w)) index consumers)
                 consumers index (Channel.producer_heartbeat (chan w)))) (attach M w))
    (Done (Err Uninitialized) w).
Proof.
  intros HN Hb Hf Hi Hc Ht0 Ht. unfold join_multi_. rewrite run_check_join by done.
  unfold assert. rewrite (proj2 (Z.leb_le _ _) Hc), (proj2 (Z.ltb_lt _ _) (proj2 Hi)).
  rewrite !run_bind, !run_Ret. cbn [obind]. rewrite !run_bind, !run_Ret. cbn [obind].
  join_split N w; join_steps.
  cbn [get_loc]. rewrite next_modulo_val by lia. cbn [lift].
  rewrite run_bind, run_Ret. cbn [obind]. join_steps.
Qed.

(** Too many consumers, or an index out of range: a panic. *)
Lemma join_multi__invalid buffer index consumers w :
  capacity_ok N → buffer mod 128 = 0 →
  64 < consumers ∨ consumers ≤ index →
  ∃ msg, run N (join_multi_ M N buffer index consumers) w =
         Panicked (AssertFailed msg) w.
Proof.
  intros HN Hb H. unfold join_multi_. rewrite run_check_join by done.
  unfold assert. destruct (Z.leb_spec consumers 64); [|eexists; reflexivity].
  rewrite run_bind, run_Ret. cbn [obind].
  destruct (Z.ltb_spec index consumers); [lia|]. eexists; reflexivity.
Qed.
End Joining.

(** ** Groups *)

Section GroupSpec.
Context {T : Type} {prof : Profile} (N : Z).
Context (HN : capacity_ok N).
Implicit Types (w : World T).

Let HN0 : 0 < N < usize_lim := capacity_ok_pos N HN.

(** The consumers [headless_multi] makes. *)
Definition group (buffer : Z) (num : nat) : list Consumer :=
  (fun i => mkConsumer buffer (Z.of_nat i) (Z.of_nat num) (Z.of_nat i) 0) <$> seq 0 num.

(** The state right after it: an empty log, one owner per handle. *)
Record fresh_group (zeroed : T) (buffer : Z) (num : nat)
    (pcs : Producer * list Consumer) w : Prop := {
  fg_producer : pcs.1 = mkProducer buffer 0 0 0;
  fg_consumers : pcs.2 = group buffer num;
  fg_chan : chan w = mkChannel 0 0 0 0 (replicate 112 0) N MAGIC
                       (replicate (Z.to_nat N) zeroed);
  fg_strong : strong w = Z.of_nat num + 1;
  fg_alive : freed w = false;
  fg_dropped : dropped w = [];
  fg_quiet : ∀ i, begun w i = ended w i
}.

(** A channel that is set up and empty. *)
Definition empty_channel w : Prop :=
  freed w = false ∧ tail (chan w) = 0 ∧ magic (chan w) = MAGIC ∧
  capacity (chan w) = N ∧ Channel.producer_heartbeat (chan w) = 0.

Lemma join_consumers_spec buffer num n w :
  buffer mod 128 = 0 → (n ≤ num)%nat → Z.of_nat num ≤ 64 → empty_channel w →
  run N (join_consumers N buffer num n) w =
  Done (drop (num - n) (group buffer num)) (with_strong (strong w + Z.of_nat n) w).
Proof.
  intros Hb. revert w. induction n as [|n IH]; intros w Hn Hnum Hw.
  - cbn [join_consumers]. rewrite run_ret. f_equal.
    + rewrite drop_ge; [done|]. unfold group. rewrite length_fmap, length_seq. lia.
    + destruct w. unfold with_strong. cbn. by rewrite Z.add_0_r.
  - pose proof Hw as (Hf & Ht & Hm & Hc & Hh). cbn [join_consumers].
    rewrite run_bind, join_multi__spec, join_cases_joined by (done || lia).
    cbn [obind unwrap lift]. rewrite run_bind, run_Ret. cbn [obind].
    rewrite run_bind, IH by (done || lia). cbn [obind]. rewrite run_ret. f_equal.
    + rewrite Ht, Hh. unfold next_congruent.
      rewrite Z.add_0_l, Z.sub_0_r, Z.mod_small by lia.
      rewrite (drop_S (group buffer num)
        (mkConsumer buffer (Z.of_nat (num - S n)) (Z.of_nat num)
           (Z.of_nat (num - S n)) 0) (num - S n)).
      * by replace (S (num - S n)) with (num - n)%nat by lia.
      * unfold group. by rewrite list_lookup_fmap, lookup_seq_lt by lia.
    + unfold with_strong. cbn. f_equal. lia.
Qed.

Lemma headless_multi_spec zeroed buffer num :
  buffer mod 128 = 0 → buffer ≠ 0 → Z.of_nat num ≤ 64 →
  ∃ pcs w, run N (headless_multi N buffer num) (new_uninit_zeroed N zeroed) = Done pcs w ∧
           fresh_group zeroed buffer num pcs w.
Proof.
  intros Hb H0 Hnum. unfold headless_multi, new_uninit_zeroed.
  rewrite run_bind, headless_join_or_initialize_in__spec, join_cases_fresh by done.
  cbn [obind unwrap lift]. rewrite run_bind, run_Ret. cbn [obind].
  rewrite run_bind, join_consumers_spec by done. cbn [obind].
  rewrite Nat.sub_diag. rewrite run_bind, run_arc_drop by done. cbn [obind].
  rewrite run_ret. eexists _, _. split; [done|].
  rewrite do_arc_drop_shared by (cbn; lia).
  split; [done|done|done|cbn; lia|done..].
Qed.

(** [headless_pair] is the group with one consumer. *)
Lemma headless_pair_multi buffer w :
  run N (headless_pair N buffer) w =
  obind (run N (headless_multi N buffer 1) w) (fun pcs w' =>
    match pcs with (p, [c]) => Done (p, c) w' | _ => UB end).
Proof.
  unfold headless_pair, headless_multi, join_consumers.
  change (Z.of_nat (1 - 1)) with 0. change (Z.of_nat 1) with 1.
  repeat (repeat (progress (rewrite ?run_bind, ?run_ret; cbn [obind]));
    match goal with
    | |- context [obind (run N ?m ?w1) _] => destruct (run N m w1); cbn [obind]
    end; try done).
Qed.

(** A fresh group represents the empty log with the cursors at the first
    positions of the strides. *)
Lemma fresh_group_simulates zeroed buffer num pcs w :
  (0 < num)%nat → Z.of_nat num ≤ 64 → fresh_group zeroed buffer num pcs w →
  simulates N 0 (mkLog [] 0, (fun i => mkCursor (Z.of_nat i) (Z.of_nat num)
                                (Z.of_nat i)) <$> seq 0 num) pcs w.
Proof.
  intros Hn Hnum [Ep Ecs Ec ? ? ? ?]. pose proof (headless_burst_amount_bounds N ltac:(lia)).
  split; cbn [fst snd].
  - rewrite Ep. split; unfold log_unsynced; rewrite ?Ec; cbn;
      rewrite ?length_replicate; try done; lia.
  - rewrite Ecs, Ec. unfold group. cbn [tail]. apply Forall2_fmap, Forall_Forall2_diag.
    apply Forall_forall. intros i Hi%elem_of_seq.
    split_and!; [done| |unfold near; cbn; lia|cbn; lia].
    split; cbn; try lia. apply Z.mod_small. lia.
Qed.
End GroupSpec.
