(* ===== verification/HeadlessTheorems.v ===== *)
(** * The headless channel: theorems

    What the headless channel promises to its users: under concurrency, for
    sequential runs, and for each operation. *)

From S2P Require Import Prelude.
From S2P Require Import Rust.
From S2P Require Import Ring.
From S2P Require Import Errors.
From S2P Require Import Channel.
From S2P Require Import Join.
From S2P Require Import Concurrency.
From S2P Require Import HeadlessProducer.
From S2P Require Import HeadlessConsumer.
From S2P Require Import HeadlessLog.
From S2P Require Import HeadlessRefinement.
From S2P Require Import HeadlessInterface.
From S2P Require Import Words.
From S2P Require Import HeadlessWords.
From S2P Require Import HeadlessConcurrent.
From S2P Require Import HeadlessPair.

(** ** Threads over an empty log *)

Section Start.
Context {T : Type} {prof : Profile} (N : Z) (shared : bool) (role : nat → Z * Z).
Implicit Types (w : World T) (p : Producer) (c : Consumer) (hs : list headless_handle).

(** The handle of thread [i] before it does anything: it has joined a channel
    whose tail is [t0], or not joined. *)
Definition unused (t0 : Z) (i : nat) (h : headless_handle) : Prop :=
  match i, h with
  | 0%nat, HProducer p => p_tail p = t0 ∧ p_written p = 0
  | 0%nat, HNoProducer => True
  | S _, HConsumer c =>
      c_consumer_index c = (role i).1 ∧ c_interval c = (role i).2 ∧
      c_head c = next_congruent t0 (role i).1 (role i).2
  | S _, HNoConsumer index consumers => (index, consumers) = role i
  | _, _ => False
  end.

(** A channel in range on which no write is in progress, everything in it
    published; or memory that has not been set up, as the operating system
    hands it out, which nobody has joined. *)
Record initial (t0 : Z) w hs : Prop := {
  in_alive : freed w = false;
  in_length : Z.of_nat (length (buffer (chan w))) = N;
  in_tail : tail (chan w) = t0;
  in_start : 0 ≤ t0;
  in_range : t0 + N + 64 < usize_lim;
  in_quiet : ∀ i, begun w i = ended w i;
  in_magic : (magic (chan w) = MAGIC ∧ capacity (chan w) = N) ∨
             (magic (chan w) = 0 ∧ t0 = 0 ∧
              Forall (fun h => match h with
                               | HNoProducer | HNoConsumer _ _ => True
                               | _ => False
                               end) hs);
  in_handles : ∀ i h, hs !! i = Some h → unused t0 i h
}.

(** The threads that own these handles. *)
Definition start w hs : config (sc N) (headless N shared role) :=
  (w, (fun h => Idle (C := headless N shared role) h []) <$> hs).

(** The sessions with which the threads start. *)
Definition openings hs (i : nat) : list (Z * list T) :=
  match hs !! i with Some h => opening h | None => [] end.

Context (HN : capacity_ok N) (Hrole : roles_ok role).

Let HN0 : 0 < N < usize_lim := capacity_ok_pos N HN.

Definition ok (t0 : Z) hs : config (sc N) (headless (T := T) N shared role) → Prop :=
  config_ok (sc N) (headless N shared role) (fun _ _ _ _ => True) (headless_inv N t0)
    (rely N) (guar N) (handle_inv N shared role t0 (openings hs))
    (call_inv N shared role t0 (openings hs)) (crash_inv N shared role t0 (openings hs)).

Lemma headless_initial_ok t0 w hs : initial t0 w hs → ok t0 hs (start w hs).
Proof.
  intros []. pose proof (headless_burst_amount_bounds N ltac:(lia)). pose proof (reach_bounds N HN).
  apply (config_ok_idle (sc N) (headless N shared role)).
  - split; done || lia.
  - intros i h Hh. change headless_handle in h.
    assert (Eo : openings hs i = opening h) by exact (f_equal (fun o => match o with Some h => opening h | None => [] end) Hh).
    pose proof (in_handles0 i h Hh) as Hu.
    assert (Hpub : pushed_published t0 [] w) by (split; [cbn; lia|intros k; lia]).
    destruct i as [|i], h as [p|c| |index consumers]; try done; cbn in Hu |- *.
    + assert (magic (chan w) = MAGIC).
      { destruct in_magic0 as [[? _]|(_ & _ & HF)]; [done|].
        by apply (Forall_lookup_1 _ _ _ _ HF) in Hh. }
      split; cbn; done || lia.
    + destruct Hu as (Ei & Ev & Eh). destruct (Hrole (S i)) as [Hr _].
      destruct (next_congruent_spec t0 _ _ Hr) as (Em & Hb & _).
      split; [done|done|unfold near; lia|].
      exists [(c_head c, [])]. rewrite Eo. split.
      * rewrite Eh. split_and!; [lia|done|constructor|]. exists t0. split_and!; done || lia.
      * repeat constructor.
    + split; [done|]. exists []. split; [done|]. rewrite Eo. constructor.
Qed.

Lemma headless_reachable_ok t0 w hs s :
  initial t0 w hs → reachable (sc N) (start w hs) s → ok t0 hs s.
Proof.
  intros Hi%headless_initial_ok. revert Hi.
  apply reachable_ok; [apply rely_trans|apply headless_guar_rely|apply headless_rely_refl|..].
  - intros. by eapply headless_handle_inv_stable.
  - intros. by eapply headless_call_inv_stable.
  - intros. by eapply headless_handle_inv_call.
  - intros. by eapply headless_handle_inv_down.
  - intros. by eapply headless_crash_inv_down.
Qed.
End Start.

(** ** Under concurrency *)

Section Concurrent.
Context {T : Type} {prof : Profile} (N : Z) (HN : capacity_ok N).
Context (shared : bool) (role : nat → Z * Z) (Hrole : roles_ok role).
Implicit Types (w : World T) (p : Producer) (c : Consumer) (hs : list headless_handle)
  (s : config (sc N) (headless (T := T) N shared role))
  (tp tc : thread (headless (T := T) N shared role)).

(** The number of the value at position [k] in the sequence of the pushes of
    a producer that started at position [t0]. *)
Definition item_at (t0 : Z) (s : list T) (k : Z) : option T := s !! Z.to_nat (k - t0).

(** The values of a session are what was pushed at the positions visited. *)
Definition popped_from (t0 : Z) (s : list T) : list (Z * list Z) → list (Z * list T) → Prop :=
  Forall2 (fun it se => it.1 = se.1 ∧
             Forall2 (fun k v => item_at t0 s k = Some v) it.2 se.2).

Lemma popped_itinerary t0 w hs s tp tc i :
  initial N role t0 w hs → reachable (sc N) (start N shared role w hs) s →
  s.2 !! 0%nat = Some tp → s.2 !! S i = Some tc →
  ∃ its, itinerary N t0 (role (S i)).1 (role (S i)).2 (tail (chan s.1)) its ∧
    popped_from t0 (pushed N shared role t0 (calls_of tp).2) its
      (sessions N shared role (openings hs (S i)) (calls_of tc).2).
Proof.
  intros Hs Hr Hp Hc. destruct s as [ws ts]; cbn [fst snd] in *.
  pose proof (headless_reachable_ok N shared role HN Hrole t0 w hs (ws, ts) Hs Hr) as Hok.
  pose proof (config_ok_J (sc N) (headless N shared role) _ _ _ _ _ _ _
    (headless_handle_inv_call_inv N HN shared role t0 (openings hs)) (ws, ts) 0 tp Hok Hp) as [Ht Hpub].
  pose proof (config_ok_J (sc N) (headless N shared role) _ _ _ _ _ _ _
    (headless_handle_inv_call_inv N HN shared role t0 (openings hs)) (ws, ts) (S i) tc Hok Hc)
    as (its & Hits & HF).
  pose proof (itinerary_positions N _ _ _ _ _ (proj1 (Hrole (S i))) Hits) as Hpos.
  cbn [fst snd] in *. exists its. split; [done|].
  eapply Forall2_and_l; [exact HF|exact Hpos|]. cbn. intros it se [E HF'] Hks.
  split; [done|]. eapply Forall2_and_l; [exact HF'|exact Hks|]. cbn. intros k v Hv Hk.
  unfold item_at. rewrite <- Hpub by lia. rewrite <- Hv. f_equal. lia.
Qed.

(** C4: no consumer ever returns a torn or stale value.  Under every
    interleaving of one producer and any number of consumers, in which
    processes may crash at any moment and join again, the values a consumer
    has popped in each of its sessions are values the producer pushed, at
    the positions of an itinerary: each session starts at or after what was
    published in the one before; in a session the cursor goes on by its
    stride, and skips only when the producer has lapped it, and then to the
    oldest position of its class still readable.  All positions read are
    strictly increasing, below the published tail and of the consumer's
    residue class. *)
Theorem headless_pops_what_was_pushed t0 w hs s tp tc i :
  initial N role t0 w hs → reachable (sc N) (start N shared role w hs) s →
  s.2 !! 0%nat = Some tp → s.2 !! S i = Some tc →
  ∃ its, itinerary N t0 (role (S i)).1 (role (S i)).2 (tail (chan s.1)) its ∧
    popped_from t0 (pushed N shared role t0 (calls_of tp).2) its
      (sessions N shared role (openings hs (S i)) (calls_of tc).2) ∧
    (∀ j1 j2 k1 k2, (j1 < j2)%nat →
       positions its !! j1 = Some k1 → positions its !! j2 = Some k2 → k1 < k2) ∧
    Forall (fun it => Forall (fun k => t0 ≤ k < tail (chan s.1) ∧
                        k mod (role (S i)).2 = (role (S i)).1) it.2) its.
Proof.
  intros Hs Hr Hp Hc. destruct (popped_itinerary t0 w hs s tp tc i Hs Hr Hp Hc)
    as (its & Hits & HF).
  exists its. split_and!; [done|done|..].
  - by apply (itinerary_increasing N _ _ _ _ _ (proj1 (Hrole (S i))) Hits).
  - by apply (itinerary_positions N _ _ _ _ _ (proj1 (Hrole (S i))) Hits).
Qed.


(** C14: no call panics or is stuck, and every access is inside the living
    memory: in every reachable state a busy thread can take its next step. *)
Theorem headless_no_panic t0 w hs s i cl m hist :
  initial N role t0 w hs → reachable (sc N) (start N shared role w hs) s →
  s.2 !! i = Some (Busy cl m hist) →
  match m with
  | Ret _ => True
  | Panic _ => False
  | Do a _ => ∃ x w', act_step N a s.1 x w'
  end.
Proof.
  intros Hs Hr Hi.
  pose proof (config_ok_safe (sc N) (headless N shared role) _ _ _ _ _ _ _
    (headless_rely_refl N) s i cl m hist
    (headless_reachable_ok N shared role HN Hrole t0 w hs s Hs Hr) Hi) as H.
  destruct m; [done|done|apply H].
Qed.
End Concurrent.

(** ** Sequential runs *)

Section Sequential.
Context {T : Type} {prof : Profile} (N : Z) (HN : capacity_ok N).
Implicit Types (w : World T) (p : Producer) (c : Consumer) (cs : list Consumer).

(** C7: refinement.  Any sequence of pushes, syncs and pops by any of the
    consumers terminates (two iterations of the loop of [pop] are enough),
    and gives the replies of the abstract log with one cursor per consumer. *)
Theorem headless_refines_log t0 cmds s p cs w :
  simulates N t0 s (p, cs) w → p_tail p + pushes cmds + N + 64 < usize_lim →
  ∃ p' cs' w',
    run N (exec_all N cmds (p, cs)) w =
      Done (p', cs', Some <$> (log_exec_all N t0 cmds s).2) w' ∧
    simulates N t0 (log_exec_all N t0 cmds s).1 (p', cs') w'.
Proof. apply headless_exec_all_spec, HN. Qed.


(** C29: [pop] alone: with fuel for two iterations it returns; it returns
    [None] exactly when its cursor, moved to the oldest readable position of
    its class if it was lapped, is not below the published tail, and
    otherwise the value in that position's cell, one stride further on. *)
Theorem headless_pop_result c w fuel :
  readable N w → consumer_wf c → near (tail (chan w)) c → (2 ≤ fuel)%nat →
  let h := cursor N (c_consumer_index c) (c_interval c) (tail (chan w)) (c_head c) in
  if tail (chan w) <=? h
  then run N (pop N fuel c) w = Done (with_head c h, Some None) w
  else ∃ v, run N (pop N fuel c) w =
            Done (with_head c (h + c_interval c), Some (Some v)) w ∧
            buffer (chan w) !! Z.to_nat (h mod N) = Some v.
Proof.
  intros R Hwf Hn Hf h. pose proof (headless_pop_spec N HN c w fuel R Hwf Hn Hf) as H.
  unfold log_pop in H. fold h in H. destruct (Z.leb_spec (tail (chan w)) h);
    destruct H as (v & -> & -> & Hv); [done|].
  destruct (Hv (ex_intro _ h eq_refl)) as [u Eu]. cbn in Eu |- *.
  exists u. by rewrite Eu.
Qed.

(** A headless channel of capacity 1 never delivers anything: the one
    cell may always be about to be overwritten, so nothing is readable. *)
Theorem headless_capacity_one_is_mute c w :
  N = 1 → readable N w → consumer_wf c → near (tail (chan w)) c →
  ∃ c', run N (pop N 2 c) w = Done (c', Some None) w.
Proof.
  intros HN1 R Hwf Hn. pose proof (headless_pop_spec N HN c w 2 R Hwf Hn ltac:(lia)) as H.
  assert (Hr : reach N = 0) by (by rewrite HN1).
  pose proof (cursor_bounds N _ (c_interval c) (tail (chan w)) (c_head c)
    (wf_index _ Hwf)) as [Hc _]. rewrite Hr in Hc.
  unfold log_pop in H. rewrite (proj2 (Z.leb_le _ _)) in H by lia.
  destruct H as (v & -> & -> & _). by eexists.
Qed.

(** C34: where the counters end.  Within [N - burst] positions of [2 ^ 64] the
    sum that tells whether a consumer has been lapped wraps: a consumer that
    has not been takes itself for lapped, in either build, and [pop] moves it
    back to the oldest readable position.  From there it reads the same values
    again, and never those beyond. *)
Theorem headless_repeats_at_the_limit c w :
  freed w = false → Z.of_nat (length (buffer (chan w))) = N → 2 ≤ N →
  c_interval c = 1 → c_consumer_index c = 0 →
  usize_lim - reach N ≤ c_head c < tail (chan w) → tail (chan w) < usize_lim →
  let h := tail (chan w) - reach N in
  h < c_head c ∧
  ∃ v, run N (pop N 2 c) w = Done (with_head c (h + 1), Some (Some v)) w ∧
       ring_get N (buffer (chan w)) h = Some v.
Proof.
  intros Hf Hl HN2 Hi Hx Hh Ht h. pose proof (capacity_ok_double N HN).
  assert (Hr : 1 ≤ reach N < N).
  { pose proof (headless_burst_amount_bounds N ltac:(lia)).
    pose proof (reach_pos N HN2). unfold reach in *. lia. }
  split; [lia|]. set (t := tail (chan w)) in *.
  assert (E1 : run N (pop_iteration N c) w = Done (inl (with_head c h)) w).
  { unfold pop_iteration. run_step. change (get_loc TAIL (chan w)) with t.
    rewrite (proj2 (Z.leb_gt _ _)) by lia. rewrite window_val by lia. cbn [lift]. rewrite run_bind, run_Ret. cbn [obind].
    assert (wrapping_add (c_head c) (reach N) = c_head c + reach N - usize_lim) as ->.
    { unfold wrapping_add, wrap64. rewrite <- (Z.mod_add _ (-1)) by done. apply Z.mod_small. lia. }
    rewrite (proj2 (Z.leb_gt _ _)) by lia. cbn [negb]. unfold reset_head.
    rewrite window_val by lia. cbn [lift mbind prog_mbind prog_bind].
    unfold wrapping_sub. rewrite wrap64_small by (unfold is_usize; lia).
    rewrite Hi, Hx, next_modulo_val by lia. unfold next_congruent. rewrite Z.mod_1_r, Z.add_0_r.
    done. }
  destruct (ring_get_is_Some N ltac:(lia) (buffer (chan w)) h Hl) as [v Hv].
  assert (E2 : run N (pop_iteration N (with_head c h)) w =
    Done (inr (with_head c (h + 1), Some v)) w).
  { unfold pop_iteration. run_step. change (get_loc TAIL (chan w)) with t. cbn [c_head with_head].
    rewrite (proj2 (Z.leb_gt _ _)) by lia. rewrite window_val by lia. cbn [lift]. rewrite run_bind, run_Ret. cbn [obind].
    assert (wrapping_add h (reach N) = t) as ->
      by (unfold wrapping_add; rewrite wrap64_small by (unfold is_usize; lia); lia).
    rewrite (proj2 (Z.leb_le _ _)) by lia. cbn [negb].
    rewrite (headless_mask_slot N HN). unfold ring_get in Hv. run_step. run_step.
    change (get_loc TAIL (chan w)) with t. rewrite (proj2 (Z.leb_le _ _)) by lia. cbn [negb].
    change (c_interval (with_head c h)) with (c_interval c). rewrite Hi. by run_lift lia. }
  exists v. split; [|done]. cbn [pop]. rewrite run_bind, E1. cbn [obind].
  rewrite run_bind, E2. cbn [obind]. by rewrite run_ret.
Qed.

(** [next_modulo] is the least position, from the given one on, in the
    residue class of the consumer. *)
Theorem next_modulo_is_least pos index interval :
  0 ≤ pos → 0 ≤ index < interval → interval ≤ 64 → pos + 64 ≤ usize_lim →
  ∃ x, next_modulo pos index interval = Val x ∧
    x mod interval = index ∧ pos ≤ x < pos + interval ∧
    ∀ y, pos ≤ y → y mod interval = index → x ≤ y.
Proof.
  intros. exists (next_congruent pos index interval).
  split; [apply next_modulo_val; lia|]. by apply next_congruent_spec.
Qed.
End Sequential.

(** ** Joining, lifetime, progress *)

Section Lifecycle.
Context {T : Type} {prof : Profile} (N : Z) (HN : capacity_ok N).
Implicit Types (w : World T) (p : Producer) (c : Consumer) (cs : list Consumer).

Let HN0 : 0 < N < usize_lim := capacity_ok_pos N HN.

(** The role of each consumer of a group of [num]. *)
Definition group_role (num : nat) (i : nat) : Z * Z :=
  if (pred i <? num)%nat then (Z.of_nat (pred i), Z.of_nat num) else (0, 1).

Lemma group_role_ok num : (num ≤ 64)%nat → roles_ok (group_role num).
Proof.
  intros H i. unfold group_role. destruct (Nat.ltb_spec (pred i) num); cbn; lia.
Qed.

Lemma fresh_group_initial zeroed addr num pcs w :
  N + 64 < usize_lim →
  fresh_group N zeroed addr num pcs w →
  initial N (group_role num) 0 w (HProducer pcs.1 :: (HConsumer <$> pcs.2)).
Proof.
  intros Hr [Ep Ecs Ec ? ? ? ?]. split; rewrite ?Ep, ?Ec; cbn; try done; try lia.
  - rewrite length_replicate. lia.
  - intros [|i] h Hi; [by injection Hi as <-|]. cbn in Hi.
    apply list_lookup_fmap_Some in Hi as (c & -> & Hc). rewrite Ecs in Hc.
    apply list_lookup_fmap_Some in Hc as (j & -> & Hj).
    apply lookup_seq in Hj as [-> Hj]. cbn [unused]. unfold group_role. cbn [pred].
    rewrite (proj2 (Nat.ltb_lt _ _) Hj). split_and!; [done|done|]. cbn. unfold next_congruent. rewrite Z.sub_0_r, Z.add_0_l. symmetry.
    apply Z.mod_small. lia.
Qed.

(** Consumer [i] reads the positions congruent to [i], from [i] on. *)
Lemma group_role_lookup num i :
  (i < num)%nat → group_role num (S i) = (Z.of_nat i, Z.of_nat num).
Proof. intros H. unfold group_role. cbn [pred]. by rewrite (proj2 (Nat.ltb_lt _ _) H). Qed.

Lemma fresh_group_openings zeroed addr num pcs w i :
  fresh_group N zeroed addr num pcs w → (i < num)%nat →
  openings (T := T) (HProducer pcs.1 :: (HConsumer <$> pcs.2)) (S i) = [(Z.of_nat i, [])].
Proof.
  intros F Hi. unfold openings.
  change ((HProducer pcs.1 :: (HConsumer <$> pcs.2)) !! S i) with ((HConsumer <$> pcs.2) !! i).
  rewrite (fg_consumers _ _ _ _ _ _ F). unfold group.
  by rewrite !list_lookup_fmap, lookup_seq_lt.
Qed.

(** [headless_multi] makes one producer and [num] consumers, the
    [i]-th reading the positions congruent to [i] modulo [num], which own
    the memory together (strong count [num + 1]), represent the empty log and
    can be given to as many threads. *)
Theorem headless_multi_makes_group (zeroed : T) addr num :
  addr mod 128 = 0 → addr ≠ 0 → (num ≤ 64)%nat → N + 64 < usize_lim →
  ∃ p cs w, run N (headless_multi N addr num) (new_uninit_zeroed N zeroed) =
              Done (p, cs) w ∧
    initial N (group_role num) 0 w (HProducer p :: (HConsumer <$> cs)) ∧
    roles_ok (group_role num) ∧ strong w = Z.of_nat num + 1 ∧ length cs = num ∧
    ((0 < num)%nat →
       simulates N 0 (mkLog [] 0, (fun i => mkCursor (Z.of_nat i) (Z.of_nat num)
                                     (Z.of_nat i)) <$> seq 0 num) (p, cs) w) ∧
    ∀ i, (i < num)%nat → ∃ c, cs !! i = Some c ∧ c_head c = Z.of_nat i ∧
           c_consumer_index c = Z.of_nat i ∧ c_interval c = Z.of_nat num.
Proof.
  intros Hb H0 Hnum Hr.
  destruct (headless_multi_spec N HN zeroed addr num Hb H0 ltac:(lia))
    as ([p cs] & w & E & Hf). exists p, cs, w. split; [exact E|].
  split; [by apply (fresh_group_initial zeroed addr num (p, cs))|].
  split; [by apply group_role_ok|].
  assert (Hsim : (0 < num)%nat → simulates N 0 (mkLog [] 0, (fun i => mkCursor (Z.of_nat i)
    (Z.of_nat num) (Z.of_nat i)) <$> seq 0 num) (p, cs) w).
  { intros Hpos. apply (fresh_group_simulates N HN zeroed addr num (p, cs) w); [done|lia|done]. }
  pose proof (fg_consumers _ _ _ _ _ _ Hf) as Hcs. cbn in Hcs. subst cs.
  split; [apply Hf|]. split; [unfold group; by rewrite length_fmap, length_seq|].
  split; [exact Hsim|]. unfold group. intros i Hi. eexists. rewrite list_lookup_fmap, lookup_seq_lt by done.
  done.
Qed.

(** More than 64 consumers, or none for a given index, is refused with
    a panic before the memory is touched. *)
Theorem headless_join_rejects M addr index consumers w :
  addr mod 128 = 0 → 64 < consumers ∨ consumers ≤ index →
  ∃ msg, run N (join_multi_ M N addr index consumers) w = Panicked (AssertFailed msg) w.
Proof. intros. by apply join_multi__invalid. Qed.

(** A consumer joins at the first position of its class from the
    published tail on; it cannot join memory that no producer has set up. *)
Theorem headless_join_cases M addr index consumers w :
  addr mod 128 = 0 → freed w = false → 0 ≤ index < consumers → consumers ≤ 64 →
  0 ≤ tail (chan w) → tail (chan w) + 64 ≤ usize_lim →
  run N (join_multi_ M N addr index consumers) w =
    if magic (chan w) =? MAGIC then
      if capacity (chan w) =? N then
        Done (Ok (mkConsumer addr (next_congruent (tail (chan w)) index consumers)
                    consumers index (Channel.producer_heartbeat (chan w)))) (attach M w)
      else Done (Err (IncorrectCapacity (capacity (chan w)))) w
    else if magic (chan w) =? 0 then Done (Err Uninitialized) w
    else Done (Err CorruptionDetected) w.
Proof. intros. by apply join_multi__spec. Qed.

(** [push] is wait-free, and [pop] takes at most five steps per
    iteration of its loop (two loads, the two halves of a cell read, and the
    drop of a copy that failed the validation); another iteration is needed only when the
    producer has lapped the cursor. *)
Theorem headless_accesses p c (v : T) fuel :
  accesses_le 3 (push N p v) ∧ accesses_le (T := T) (5 * fuel) (pop N fuel c).
Proof.
  split; [unfold push, sync; count_accesses|].
  revert c. induction fuel as [|fuel IH]; intros c; [done|].
  replace (5 * S fuel)%nat with (5 + 5 * fuel)%nat by lia. cbn [pop].
  apply accesses_le_bind; [unfold pop_iteration, reset_head; count_accesses|].
  intros [c'|[c' o]]; [apply IH|done].
Qed.
End Lifecycle.
