(* ===== verification/LifetimeTheorems.v ===== *)
(** * Dropping handles: theorems

    The handles of a channel in the memory of one process may be dropped at
    any time, by any thread, in any order. *)

From S2P Require Import Prelude.
From S2P Require Import Rust.
From S2P Require Import Channel.
From S2P Require Import Concurrency.
From S2P Require Import Lifetime.
From S2P Require Import LosslessProducer.
From S2P Require Import LosslessConsumer.
From S2P Require Import LosslessInterface.
From S2P Require Import LosslessLifetime.
From S2P Require Import LosslessPair.
From S2P Require Import LosslessTheorems.
From S2P Require Import HeadlessInterface.
From S2P Require Import HeadlessLifetime.
From S2P Require Import HeadlessPair.
From S2P Require Import HeadlessTheorems.

Section Lossless.
Context {T : Type} {prof : Profile} (N : Z) (HN : capacity_ok N).
#[local] Notation C := (lossless (T := T) N false).
#[local] Notation D := (droppable C lossless_drop).
Implicit Types (s : config (sc N) D) (tp tc : thread D).

(** C31: from [lossless_pair] on, and whichever of its two handles is dropped
    when, while the other thread is in the middle of a call or not: nothing
    panics or touches memory that has been released; the memory is released
    exactly when both handles are gone, and the buffer dropped with it; and
    what the consumer has read is what the producer sent, in order, also after
    the producer is gone. *)
Theorem lossless_drops_any_time (zeroed : T) addr p c w s :
  addr mod 128 = 0 → addr ≠ 0 →
  run N (lossless_pair N addr) (LosslessPair.new_uninit_zeroed N zeroed) = Done (p, c) w →
  reachable (sc N) (droppable_start N C lossless_drop w
    [LosslessInterface.HProducer p; LosslessInterface.HConsumer c]) s →
  can_go N s ∧ freed s.1 = bool_decide (shares s.2 = 0) ∧
  (freed s.1 = true → ∃ vs, dropped s.1 = vs ++ buffer (chan s.1)) ∧
  ∀ tp tc k v, s.2 !! 0%nat = Some tp → s.2 !! 1%nat = Some tc →
    (k, v) ∈ received N false 0 (used (calls_of tc).2) →
    sent N false 0 (current (calls_of tp).1) (used (calls_of tp).2) !! k = Some v.
Proof.
  intros Ha H0 E Hr. destruct (lossless_pair_spec N HN zeroed addr Ha H0) as (pc & w' & E' & Hf).
  rewrite E in E'. injection E' as <- <-.
  pose proof (fresh_pair_startable N HN _ _ _ _ Hf) as Hs. cbn [fst snd] in Hs.
  pose proof (initial_start N false p c w Hs) as Hi.
  assert (Ep : p_tail p = 0) by (pose proof (fp_producer _ _ _ _ _ Hf) as Ep; cbn in Ep; by rewrite Ep).
  rewrite Ep in Hi.
  destruct (droppable_erases N C lossless_drop (lossless_exec_arcless N) lossless_drops_arc _ _ s _
    (erases_start N C lossless_drop w [LosslessInterface.HProducer p; LosslessInterface.HConsumer c]
       (fp_alive _ _ _ _ _ Hf) ltac:(done) (fp_strong _ _ _ _ _ Hf)) Hr) as (s' & Hr' & He).
  split_and!.
  - apply (erases_can_go N C lossless_drop _ _ _ He). intros i cl m hist Hcl.
    pose proof (lossless_no_race_no_panic N HN false 0 _ s' i cl m hist Hi Hr' Hcl) as H.
    destruct m; [done|done|apply H].
  - exact (erases_freed N C lossless_drop _ _ _ He).
  - exact (erases_dropped N C lossless_drop _ _ _ He).
  - intros tp tc k v Hp Hc.
    destruct (erases_calls N C lossless_drop _ _ _ _ _ He Hp) as (tp' & Hp' & -> & ->).
    destruct (erases_calls N C lossless_drop _ _ _ _ _ He Hc) as (tc' & Hc' & -> & _).
    apply (received_sent N false HN 0 _ s' tp' tc' k v Hi Hr' Hp' Hc').
Qed.
End Lossless.

Section Headless.
Context {T : Type} {prof : Profile} (N : Z) (HN : capacity_ok N).
Context (num : nat) (Hnum : (num ≤ 64)%nat) (Hrange : N + 64 < usize_lim).
#[local] Notation role := (group_role num).
#[local] Notation C := (headless (T := T) N false role).
#[local] Notation D := (droppable C headless_drop).
Implicit Types (s : config (sc N) D) (tp tc : thread D).

(** C35: the same for a group of [headless_multi]: its handles may be dropped
    in any order, at any time; the memory is released exactly with the last
    of them, and no earlier access finds it released; every value popped is
    the one pushed at its position, also when the producer is gone. *)
Theorem headless_drops_any_time (zeroed : T) addr p cs w s :
  addr mod 128 = 0 → addr ≠ 0 →
  run N (headless_multi N addr num) (HeadlessPair.new_uninit_zeroed N zeroed) = Done (p, cs) w →
  reachable (sc N) (droppable_start N C headless_drop w (HProducer p :: (HConsumer <$> cs))) s →
  can_go N s ∧ freed s.1 = bool_decide (shares s.2 = 0) ∧
  (freed s.1 = true → ∃ vs, dropped s.1 = vs ++ buffer (chan s.1)) ∧
  ∀ tp tc i, s.2 !! 0%nat = Some tp → s.2 !! S i = Some tc → (i < num)%nat →
    ∃ its, itinerary N 0 (Z.of_nat i) (Z.of_nat num) (tail (chan s.1)) its ∧
      popped_from 0 (pushed N false role 0 (used (calls_of tp).2)) its
        (sessions N false role [(Z.of_nat i, [])] (used (calls_of tc).2)).
Proof.
  intros Ha H0 E Hr.
  destruct (headless_multi_spec N HN zeroed addr num Ha H0 ltac:(lia)) as (pcs & w' & E' & Hf).
  rewrite E in E'. injection E' as <- <-.
  pose proof (fresh_group_initial N HN zeroed addr num (p, cs) w Hrange Hf) as Hi. cbn [fst snd] in Hi.
  pose proof (group_role_ok num Hnum) as Hrole.
  pose proof (fg_consumers _ _ _ _ _ _ Hf) as Ecs. cbn in Ecs.
  assert (Hlen : strong w = Z.of_nat (length (HProducer p :: (HConsumer <$> cs)))).
  { rewrite (fg_strong _ _ _ _ _ _ Hf), Ecs. cbn. unfold group.
    rewrite !length_fmap, length_seq. lia. }
  destruct (droppable_erases N C headless_drop (headless_exec_arcless N) headless_drops_arc _ _ s _
    (erases_start N C headless_drop w (HProducer p :: (HConsumer <$> cs))
       (fg_alive _ _ _ _ _ _ Hf) ltac:(done) Hlen) Hr) as (s' & Hr' & He).
  split_and!.
  - apply (erases_can_go N C headless_drop _ _ _ He). intros i cl m hist.
    exact (headless_no_panic N HN false role Hrole 0 w _ s' i cl m hist Hi Hr').
  - exact (erases_freed N C headless_drop _ _ _ He).
  - exact (erases_dropped N C headless_drop _ _ _ He).
  - intros tp tc i Hp Hc Hlt.
    destruct (erases_calls N C headless_drop _ _ _ _ _ He Hp) as (tp' & Hp' & -> & _).
    destruct (erases_calls N C headless_drop _ _ _ _ _ He Hc) as (tc' & Hc' & -> & _).
    pose proof (popped_itinerary N HN false role Hrole 0 w _ s' tp' tc' i Hi Hr' Hp' Hc') as H.
    pose proof (fresh_group_openings N zeroed addr num (p, cs) w i Hf Hlt) as Ho.
    cbn [fst snd] in Ho. rewrite Ho in H.
    by rewrite (group_role_lookup num i Hlt), <- (erases_chan N C headless_drop _ _ _ He) in H.
Qed.
End Headless.
