(* ===== verification/ShmemJoin.v ===== *)
(** * Joining a channel in shared memory

    The entry points that open (or create) a shared memory object by name and
    join the channel in it: [join_or_create_shmem] of both producers,
    [join_shmem] of the lossless consumer, [join_shmem] and
    [join_shmem_multi] of the headless one.  They return the program that runs
    in the mapped memory once the object is open. *)

From S2P Require Import Prelude.
From S2P Require Import Rust.
From S2P Require Import Ring.
From S2P Require Import Errors.
From S2P Require Import Channel.
From S2P Require Import Join.
From S2P Require Import PageSize.
From S2P Require Import Layout.
From S2P Require Import Shmem.
From S2P Require Import LosslessProducer.
From S2P Require Import LosslessConsumer.
From S2P Require Import HeadlessProducer.
From S2P Require Import HeadlessConsumer.

Section Join.
Context {S : Type} {os : OS S} {T : Type} {prof : Profile}.
(** [sysconf(PAGE_SIZE)], the size and alignment of [T], the capacity. *)
Context (sysconf : sysconf_result) (size align N : Z).

(** The beginning of all four: the size of the object, and its opening. *)
Definition open_channel (shmem_id : string) (page_size : PageSize) :
    io S (result Shmem QueError) :=
  bytes ← pure_io (mem_size sysconf page_size (size_of_channel size align N));
  match try_into_i64 bytes with
  | None => mret (Err InvalidSize)
  | Some buffer_size =>
      shmem ← open_or_create shmem_id buffer_size page_size;
      mret (map_err QueError_from shmem)
  end.

(** Opens, then joins with the program [k] at the address of the mapping. *)
Definition open_and {A} (k : Z → prog T (result A QueError)) (shmem_id : string)
    (page_size : PageSize) : io S (result (prog T (result A QueError)) QueError) :=
  shmem ← open_channel shmem_id page_size;
  match shmem with
  | Ok shmem => mret (Ok (k (get_mut_ptr shmem)))
  | Err e => mret (Err e)
  end.

Definition lossless_join_or_create_shmem :=
  open_and (LosslessProducer.join_or_create_mapped N).

Definition lossless_join_shmem := open_and (LosslessConsumer.join ShmemMode N).

Definition headless_join_or_create_shmem :=
  open_and (HeadlessProducer.join_or_create_mapped N).

Definition headless_join_shmem_multi (shmem_id : string) (page_size : PageSize)
    (index num_consumers : Z) :=
  open_and (fun buffer => join_multi N buffer index num_consumers)
    shmem_id page_size.

Definition headless_join_shmem (shmem_id : string) (page_size : PageSize) :=
  headless_join_shmem_multi shmem_id page_size 0 1.

(** The bytes asked of the system. *)
Definition object_size (system : Z) (page_size : PageSize) : Z :=
  uplign (page_bytes system page_size) (size_of_channel size align N).

Lemma open_channel_cases system id ps s :
  sysconf = Ok (Some system) → 0 < system ≤ GIGANTIC →
  0 ≤ size_of_channel size align N ≤ i64_max →
  open_channel id ps s =
  if i64_max <? object_size system ps then (Val (Err InvalidSize), s)
  else match open_or_create id (object_size system ps) ps s with
       | (Val r, s') => (Val (map_err QueError_from r), s')
       | (Pan p, s') => (Pan p, s')
       end.
Proof.
  intros Es Hp Hs. unfold open_channel, object_size. rewrite Es, mem_size_val by done.
  unfold pure_io, mbind, io_bind, try_into_i64. cbn [fst snd].
  rewrite Z.leb_antisym. destruct (Z.ltb_spec i64_max (uplign (page_bytes system ps)
    (size_of_channel size align N))); cbn [negb]; [done|].
  by destruct (open_or_create _ _ _ s) as [[r|p] s'].
Qed.
End Join.
