(* ===== verification/Process.v ===== *)
(** * Processes

    A sequential program over the operating system and the memories of the
    shared objects it maps, in which it owns a producer and a consumer of a
    headless channel: the programs of [src/examples/intraprocess], the set-up
    of [src/examples/benchmark] and [src/que/benches/bench.rs]. *)

From Stdlib Require Import Strings.String.
From S2P Require Import Prelude.
From S2P Require Import Rust.
From S2P Require Import Ring.
From S2P Require Import Errors.
From S2P Require Import Channel.
From S2P Require Import Join.
From S2P Require Import PageSize.
From S2P Require Import Layout.
From S2P Require Import Shmem.
From S2P Require Import HeadlessProducer.
From S2P Require Import HeadlessConsumer.
From S2P Require Import HeadlessLog.
From S2P Require Import HeadlessRefinement.
From S2P Require Import HeadlessPair.
From S2P Require Import ShmemJoin.

(** ** Programs of a process *)

(** A process uses the operating system and, behind the mappings, the memory
    of the objects, one per page size: all mappings of an object give the
    same memory.  [None] stands for undefined behaviour. *)
Definition state (S T : Type) : Type := S * (PageSize → World T).
Definition process (S T A : Type) : Type := state S T → option (res A * state S T).

#[export] Instance process_ret {S T} : MRet (process S T) := fun A a s => Some (Val a, s).
#[export] Instance process_bind {S T} : MBind (process S T) := fun A B f m s =>
  match m s with
  | Some (Val a, s') => f a s'
  | Some (Pan p, s') => Some (Pan p, s')
  | None => None
  end.

Definition from_outcome {S T A} (put : World T → state S T) (o : outcome T A) :
    option (res A * state S T) :=
  match o with
  | Done a w => Some (Val a, put w)
  | Panicked p w => Some (Pan p, put w)
  | UB => None
  end.

Definition os_call {S T A} (m : io S A) : process S T A := fun s =>
  Some ((m s.1).1, ((m s.1).2, s.2)).

Definition pure_process {S T A} (r : res A) : process S T A := fun s => Some (r, s).

#[export] Instance PageSize_eq_dec : EqDecision PageSize.
Proof. solve_decision. Defined.

(** The memory of one object after an access. *)
Definition put_object {T} (ps : PageSize) (w : World T) (ws : PageSize → World T) :
    PageSize → World T := fun ps' => if decide (ps' = ps) then w else ws ps'.

(** Accesses to the object of a page size. *)
Definition in_object {S T A} (N : Z) (ps : PageSize) (m : prog T A) : process S T A := fun s =>
  from_outcome (fun w => (s.1, put_object ps w s.2)) (run N m (s.2 ps)).

(** *** Steps *)

Section Steps.
Context {S T : Type}.

Lemma process_bind_done {A B} (m : process S T A) (f : A → process S T B) s a s' :
  m s = Some (Val a, s') → (m ≫= f) s = f a s'.
Proof. unfold mbind, process_bind. by intros ->. Qed.

Lemma os_call_done {A} (m : io S A) s a s' (objects : PageSize → World T) :
  m s = (Val a, s') → os_call m (s, objects) = Some (Val a, (s', objects)).
Proof. unfold os_call. cbn. by intros ->. Qed.

Lemma in_object_done {A} N ps (m : prog T A) s objects a w :
  run N m (objects ps) = Done a w →
  in_object (S := S) N ps m (s, objects) = Some (Val a, (s, put_object ps w objects)).
Proof. unfold in_object. cbn. by intros ->. Qed.

Lemma put_object_eq ps (w : World T) objects : put_object ps w objects ps = w.
Proof. unfold put_object. by rewrite decide_True. Qed.

Lemma put_object_ne ps ps' (w : World T) objects :
  ps' ≠ ps → put_object ps w objects ps' = objects ps'.
Proof. intros. unfold put_object. by rewrite decide_False. Qed.
End Steps.

(** ** A producer and a consumer in one process *)

Section Ends.
Context {S : Type} {os : OS S} {T : Type} {prof : Profile}.
(** As in [ShmemJoin]. *)
Context (sysconf : sysconf_result) (size align N : Z).

(** [Producer::join_or_create_shmem(id, page_size).unwrap()] and
    [Consumer::join_shmem(id, page_size).unwrap()], one after the other. *)
Definition both_ends (id : string) (page_size : PageSize) : process S T (Producer * Consumer) :=
  joining ← os_call (headless_join_or_create_shmem sysconf size align N id page_size);
  joining ← pure_process (unwrap joining);
  joined ← in_object N page_size joining;
  producer ← pure_process (unwrap joined);
  joining ← os_call (headless_join_shmem sysconf size align N id page_size);
  joining ← pure_process (unwrap joining);
  joined ← in_object N page_size joining;
  consumer ← pure_process (unwrap joined);
  mret (producer, consumer).

(** *** What they do *)

(** A producer and a consumer that has read all there is. *)
Record caught_up (p : Producer) (c : Consumer) (w : World T) : Prop := {
  cu_alive : freed w = false;
  cu_length : Z.of_nat (length (buffer (chan w))) = N;
  cu_start : 0 ≤ tail (chan w);
  cu_tail : p_tail p = tail (chan w);
  cu_written : p_written p = 0;
  cu_head : c_head c = tail (chan w);
  cu_interval : c_interval c = 1;
  cu_index : c_consumer_index c = 0
}.

(** [k] messages more leave the counters in range. *)
Definition room (k : Z) (w : World T) : Prop := tail (chan w) + k + N + 64 < usize_lim.

(** Memory of an object that is new, or where such a channel has been set up
    before. *)
Record usable (k : Z) (w : World T) : Prop := {
  us_alive : freed w = false;
  us_length : Z.of_nat (length (buffer (chan w))) = N;
  us_joinable : magic (chan w) = 0 ∧ k + N + 64 < usize_lim ∨
    magic (chan w) = MAGIC ∧ capacity (chan w) = N ∧ 0 ≤ tail (chan w) ∧ room k w
}.

Context (HN : capacity_ok N) (HN2 : 2 ≤ N).

(** Push, publish and pop: the message comes out. *)
Lemma exchange_spec p c w v :
  caught_up p c w → room 1 w →
  ∃ p1 p2 c' w1 w2,
    run N (push N p v) w = Done p1 w1 ∧ run N (sync p1) w1 = Done p2 w2 ∧
    run N (pop N 2 c) w2 = Done (c', Some (Some v)) w2 ∧
    caught_up p2 c' w2 ∧ tail (chan w2) = tail (chan w) + 1 ∧ strong w2 = strong w.
Proof.
  intros [Hf Hl H0 Ht Hw Hh Hi Hc] Hr. unfold room in Hr. set (t := tail (chan w)) in *.
  pose proof (headless_burst_amount_bounds N ltac:(lia)) as Hb.
  assert (Hslot : (slot N t < length (buffer (chan w)))%nat)
    by (by apply headless_slot_in_buffer).
  assert (E : run N (push N p v) w =
    Done (mkProducer (p_spsc p) (t + 1) 1 (p_last_consumer_heartbeat p))
      (do_write (slot N t) true v w)).
  { unfold push. rewrite Hw, (proj2 (Z.eqb_neq 0 (burst_amount N))) by lia.
    rewrite run_bind, run_ret. cbn [obind].
    rewrite (headless_mask_slot N HN), Ht. run_step.
    run_lift lia. run_lift lia. cbn. by rewrite Hw. }
  set (w2 := do_store N TAIL (t + 1) (do_write (slot N t) true v w)).
  assert (R : readable N w2).
  { split; cbn; rewrite ?length_insert; try done; lia. }
  assert (Hwf : consumer_wf c).
  { split; rewrite ?Hi, ?Hc, ?Hh; try lia. apply Z.mod_1_r. }
  pose proof (headless_pop_spec N HN c w2 2 R Hwf) as Hpop.
  change (tail (chan w2)) with (t + 1) in Hpop.
  pose proof (reach_pos N HN2).
  assert (Elog : log_pop N 0 1 (t + 1) t = (t + 1, Some t)).
  { unfold log_pop, cursor. rewrite (proj2 (Z.leb_le (t + 1) (t + reach N))) by lia.
    by rewrite (proj2 (Z.leb_gt (t + 1) t)) by lia. }
  rewrite Hi, Hc, Hh, Elog in Hpop.
  destruct Hpop as (x & Epop & Ex & _); [unfold near; lia|lia|].
  assert (Ecell : ring_get N (buffer (chan w2)) t = Some v).
  { unfold ring_get, w2. cbn. by rewrite list_lookup_insert_eq. }
  assert (x = Some v) as -> by (rewrite Ex; exact Ecell).
  eexists _, _, _, _, w2. split; [exact E|]. split; [|split; [exact Epop|]].
  - unfold sync. by rewrite run_bind, run_store.
  - split_and!; [split; cbn; rewrite ?length_insert; try done; lia|done|done].
Qed.

(** Joining an object that is usable, the producer first. *)
Lemma usable_joins k w a1 a2 :
  0 ≤ k → usable k w → a1 ≠ 0 → a2 mod 128 = 0 →
  ∃ p c w1,
    run N (join_or_create_mapped N a1) w = Done (Ok p) w1 ∧
    run N (join N a2) w1 = Done (Ok c) w1 ∧ caught_up p c w1 ∧ room k w1 ∧
    magic (chan w1) = MAGIC ∧ capacity (chan w1) = N ∧
    begun w1 = begun w ∧ ended w1 = ended w.
Proof.
  intros Hk [Hf Hl Hj] H1 H2. unfold room in *.
  assert (Hjoin : ∀ w1 : World T, freed w1 = false → magic (chan w1) = MAGIC → capacity (chan w1) = N →
    0 ≤ tail (chan w1) → tail (chan w1) + N + 64 < usize_lim →
    ∃ c, run N (join N a2) w1 = Done (Ok c) w1 ∧
         c_head c = tail (chan w1) ∧ c_interval c = 1 ∧ c_consumer_index c = 0).
  { intros w1 Hf1 Hm Hc Ht0 Ht. unfold join, join_multi.
    rewrite join_multi__spec, join_cases_joined by (done || lia).
    eexists. split; [done|]. cbn. unfold next_congruent. rewrite Z.mod_1_r. split_and!; lia. }
  rewrite headless_join_or_create_mapped_spec by done.
  destruct Hj as [[Hm Hr]|(Hm & Hc & Ht & Hr)].
  - rewrite join_cases_fresh by done.
    destruct (Hjoin (init_stores_mapped N w)) as (c & E & Eh & Ei & Ec); [done..|cbn; lia|].
    eexists _, c, _. split; [done|]. split_and!; done || (split; done).
  - rewrite join_cases_joined by done. set (w1 := do_store _ _ _ w).
    destruct (Hjoin w1) as (c & E & Eh & Ei & Ec); [done..|cbn; lia|].
    eexists _, c, _. split; [done|]. split_and!; done || (split; done).
Qed.

Context (system : Z) (Hsystem : 0 < system ≤ GIGANTIC) (Hsysconf : sysconf = Ok (Some system)).
Context (Hsize : 0 ≤ size_of_channel size align N ≤ i64_max).

(** The system opens and maps the object twice. *)
Definition maps (id : string) (ps : PageSize) (s s' : S) : Prop :=
  let bytes := object_size size align N system ps in
  ∃ sh1 s1 sh2,
    open_or_create id bytes ps s = (Val (Ok sh1), s1) ∧ s_addr sh1 ≠ 0 ∧
    open_or_create id bytes ps s1 = (Val (Ok sh2), s') ∧ s_addr sh2 mod 128 = 0.

Context (Hfits : ∀ ps, object_size size align N system ps ≤ i64_max).

Lemma opened_join {A} (k : Z → prog T (result A QueError)) id ps s sh s1 :
  open_or_create id (object_size size align N system ps) ps s = (Val (Ok sh), s1) →
  open_and sysconf size align N k id ps s = (Val (Ok (k (s_addr sh))), s1).
Proof.
  intros E. pose proof (Hfits ps). unfold open_and, mbind at 1, io_bind at 1.
  rewrite (open_channel_cases sysconf size align N system) by done.
  rewrite (proj2 (Z.ltb_ge _ _)) by lia. by rewrite E.
Qed.

Lemma both_ends_spec k id ps s s' objects :
  0 ≤ k → maps id ps s s' → usable k (objects ps) →
  ∃ p c objects', both_ends id ps (s, objects) = Some (Val (p, c), (s', objects')) ∧
    caught_up p c (objects' ps) ∧ room k (objects' ps) ∧
    magic (chan (objects' ps)) = MAGIC ∧ capacity (chan (objects' ps)) = N ∧
    begun (objects' ps) = begun (objects ps) ∧ ended (objects' ps) = ended (objects ps) ∧
    ∀ ps', ps' ≠ ps → objects' ps' = objects ps'.
Proof.
  intros Hk (sh1 & s1 & sh2 & E1 & A1 & E2 & A2) Hu.
  destruct (usable_joins _ _ _ _ Hk Hu A1 A2) as (p & c & w1 & Ej1 & Ej2 & H).
  unfold both_ends, headless_join_or_create_shmem, headless_join_shmem, headless_join_shmem_multi.
  rewrite (process_bind_done _ _ _ _ _ (os_call_done _ _ _ _ objects (opened_join _ _ _ _ _ _ E1))).
  rewrite (process_bind_done _ _ _ _ _ eq_refl).
  rewrite (process_bind_done _ _ _ _ _ (in_object_done _ _ _ s1 _ _ _ Ej1)).
  rewrite (process_bind_done _ _ _ _ _ eq_refl).
  set (objects1 := put_object ps w1 objects).
  rewrite (process_bind_done _ _ _ _ _ (os_call_done _ _ _ _ objects1 (opened_join _ _ _ _ _ _ E2))).
  rewrite (process_bind_done _ _ _ _ _ eq_refl).
  rewrite <- (put_object_eq ps w1 objects) in Ej2 at 1. fold objects1 in Ej2.
  rewrite (process_bind_done _ _ _ _ _ (in_object_done _ _ _ s' _ _ _ Ej2)).
  rewrite (process_bind_done _ _ _ _ _ eq_refl).
  eexists p, c, _. split; [done|]. rewrite put_object_eq. destruct H as (? & ? & ? & ? & ? & ?).
  split_and!; [done..|]. intros ps' Hne. unfold objects1. by rewrite !put_object_ne.
Qed.
End Ends.
