(* ===== verification/Intraprocess.v ===== *)
(** * The example in one process

    [src/examples/intraprocess/src/main.rs]: one thread owns the producer and
    the consumer of a headless channel, in its own memory and then in shared
    memory objects of two page sizes, which it maps twice and removes. *)

From Stdlib Require Import Strings.String.
From S2P Require Import Prelude.
From S2P Require Import Rust.
From S2P Require Import Ring.
From S2P Require Import Errors.
From S2P Require Import Channel.
From S2P Require Import Join.
From S2P Require Import PageSize.
From S2P Require Import Layout.
From S2P Require Import Shmem.
From S2P Require Import HeadlessProducer.
From S2P Require Import HeadlessConsumer.
From S2P Require Import HeadlessLog.
From S2P Require Import HeadlessRefinement.
From S2P Require Import HeadlessPair.
From S2P Require Import ShmemJoin.
From S2P Require Import Process.

Section Intraprocess.
Context {S : Type} {os : OS S} {prof : Profile} (sysconf : sysconf_result).

Definition INTRAPROCESS_N : Z := 1024.
#[local] Notation N := INTRAPROCESS_N.
Definition SPSC_SIZE : Z := size_of_channel 8 8 N.

#[local] Notation process := (process S Z).

(** Memory of the process itself, just zeroed. *)
Definition in_own_memory {A} (m : prog Z A) : process A := fun s =>
  from_outcome (fun _ => s) (run N m (new_uninit_zeroed N 0)).

(** [consumer.pop().unwrap()]; two iterations of the loop of [pop] are
    enough. *)
Definition pop_unwrap (consumer : Consumer) : prog Z (Consumer * Z) :=
  '(consumer, o) ← pop N 2 consumer;
  match o with
  | Some (Some v) => mret (consumer, v)
  | _ => Panic UnwrapFailed
  end.

(** The lines both functions share: push, publish, pop and compare. *)
Definition push_and_pop (producer : Producer) (consumer : Consumer) :
    prog Z (Producer * Consumer) :=
  producer ← push N producer 69;
  producer ← sync producer;
  '(consumer, v) ← pop_unwrap consumer;
  _ ← assert (v =? 69) "assert_eq!(consumer.pop().unwrap(), 69)";
  mret (producer, consumer).

Definition with_process_exclusive_mem (ptr : Z) : process unit :=
  in_own_memory (
    '(producer, consumer) ← headless_pair N ptr;
    '(producer, consumer) ← push_and_pop producer consumer;
    _ ← drop_consumer LocalMode consumer;
    drop_producer LocalMode producer).

Definition with_shmem (page_size : PageSize) : process unit :=
  '(producer, consumer) ← both_ends sysconf 8 8 N "shmem" page_size;
  '(producer, consumer) ← in_object N page_size (push_and_pop producer consumer);
  bytes ← pure_process (mem_size sysconf page_size SPSC_SIZE);
  buffer_size ← pure_process (match try_into_i64 bytes with
                              | Some n => Val n
                              | None => Pan UnwrapFailed
                              end);
  cleaned ← os_call (cleanup_shmem "shmem" buffer_size page_size);
  _ ← pure_process (unwrap cleaned);
  in_object N page_size (_ ← drop_consumer ShmemMode consumer; drop_producer ShmemMode producer).

Definition main (ptr : Z) : process unit :=
  _ ← with_process_exclusive_mem ptr;
  _ ← with_shmem Standard;
  with_shmem Huge.

(** ** What it does *)

Lemma intraprocess_capacity : capacity_ok N.
Proof. by split. Qed.

Lemma push_and_pop_spec p c w :
  caught_up N p c w → room N 1 w →
  ∃ p' c' w', run N (push_and_pop p c) w = Done (p', c') w' ∧
    freed w' = false ∧ strong w' = strong w.
Proof.
  intros Hc Hr.
  destruct (exchange_spec N intraprocess_capacity ltac:(done) p c w 69 Hc Hr)
    as (p1 & p2 & c' & w1 & w2 & E1 & E2 & E3 & [Hf _ _ _ _ _ _ _] & _ & Es).
  unfold push_and_pop, pop_unwrap.
  rewrite run_bind, E1. cbn [obind]. rewrite run_bind, E2. cbn [obind].
  rewrite !run_bind, E3. cbn [obind]. rewrite run_ret. cbn [obind].
  unfold assert. cbn [Z.eqb Pos.eqb]. rewrite run_bind, run_Ret. cbn [obind].
  rewrite run_ret. by eexists _, _, _.
Qed.

(** [with_process_exclusive_mem] *)
Lemma with_process_exclusive_mem_spec ptr s :
  ptr mod 128 = 0 → ptr ≠ 0 → with_process_exclusive_mem ptr s = Some (Val tt, s).
Proof.
  intros Ha H0. unfold with_process_exclusive_mem, in_own_memory.
  rewrite run_bind, headless_pair_multi.
  destruct (headless_multi_spec N intraprocess_capacity 0 ptr 1 Ha H0)
    as ([p cs] & w & -> & F); [done|].
  destruct F as [Ep Ecs Ec Es Ef _ _]. cbn in Ep, Ecs, Es. subst p cs. cbn [obind].
  destruct (push_and_pop_spec (mkProducer ptr 0 0 0)
    (mkConsumer ptr (Z.of_nat 0) (Z.of_nat 1) (Z.of_nat 0) 0) w)
    as (p' & c' & w2 & E & Ef2 & Es2);
    [split; by rewrite ?Ec|unfold room; by rewrite Ec|].
  unfold group. cbn [seq fmap list_fmap]. rewrite run_bind, E. cbn [obind].
  rewrite Es in Es2. rewrite run_bind. cbn [drop_consumer drop_producer BACKED_BY_ARCC].
  rewrite run_arc_drop by done. cbn [obind]. rewrite do_arc_drop_shared by lia.
  by rewrite run_arc_drop.
Qed.

Context (system : Z) (Hsystem : 0 < system ≤ GIGANTIC) (Hsysconf : sysconf = Ok (Some system)).

(** The system serves [with_shmem]: it opens and maps the object twice, and
    removes it. *)
Definition served (ps : PageSize) (s s' : S) : Prop :=
  ∃ s1, maps 8 8 N system "shmem" ps s s1 ∧
    cleanup_shmem "shmem" (object_size 8 8 N system ps) ps s1 = (Val (Ok tt), s').

Lemma spsc_size_val : SPSC_SIZE = 8832.
Proof. vm_compute. reflexivity. Qed.

Lemma object_size_fits ps :
  object_size 8 8 N system ps ≤ i64_max.
Proof.
  unfold object_size. change (size_of_channel 8 8 N) with SPSC_SIZE. rewrite spsc_size_val.
  assert (EG : GIGANTIC = 1073741824) by done. assert (EH : HUGE = 2097152) by done.
  assert (Hp : 0 < page_bytes system ps ≤ GIGANTIC) by (destruct ps; cbn; lia).
  pose proof (uplign_spec (page_bytes system ps) 8832 ltac:(lia)). unfold i64_max. lia.
Qed.

Lemma with_shmem_spec ps s s' objects :
  served ps s s' → usable N 1 (objects ps) →
  ∃ objects', with_shmem ps (s, objects) = Some (Val tt, (s', objects')) ∧
    ∀ ps', ps' ≠ ps → objects' ps' = objects ps'.
Proof.
  intros (s2 & Hm & E3) Hu.
  assert (Hsz : 0 ≤ SPSC_SIZE ≤ i64_max)
    by (rewrite spsc_size_val; split; [lia|vm_compute; discriminate]).
  destruct (both_ends_spec sysconf 8 8 N intraprocess_capacity ltac:(done) system Hsystem Hsysconf Hsz
    object_size_fits 1 "shmem" ps s s2 objects ltac:(lia) Hm Hu)
    as (p & c & objects2 & Eb & Hc & Hr & _ & _ & _ & _ & Hother).
  destruct (push_and_pop_spec p c (objects2 ps) Hc Hr) as (p' & c' & w' & Ep & _).
  assert (Hfit : try_into_i64 (object_size 8 8 N system ps) = Some (object_size 8 8 N system ps)).
  { unfold try_into_i64. by rewrite (proj2 (Z.leb_le _ _) (object_size_fits ps)). }
  assert (Emem : mem_size sysconf ps SPSC_SIZE = Val (object_size 8 8 N system ps)).
  { rewrite Hsysconf. by apply mem_size_val. }
  unfold with_shmem. rewrite (process_bind_done _ _ _ _ _ Eb).
  rewrite (process_bind_done _ _ _ _ _ (in_object_done _ _ _ s2 _ _ _ Ep)). cbv beta iota.
  rewrite Emem, (process_bind_done _ _ _ _ _ eq_refl), Hfit, (process_bind_done _ _ _ _ _ eq_refl).
  rewrite (process_bind_done _ _ _ _ _ (os_call_done _ _ _ _ _ E3)).
  rewrite (process_bind_done _ _ _ _ _ eq_refl).
  eexists. split; [by apply in_object_done|].
  intros ps' Hne. by rewrite !put_object_ne, Hother.
Qed.

(** Whatever memory the example finds, new or used by an earlier run, it
    completes if the system serves its requests. *)
Lemma main_spec ptr s s1 s2 objects :
  ptr mod 128 = 0 → ptr ≠ 0 → served Standard s s1 → served Huge s1 s2 →
  usable N 1 (objects Standard) → usable N 1 (objects Huge) →
  ∃ objects', main ptr (s, objects) = Some (Val tt, (s2, objects')).
Proof.
  intros Ha H0 S1 S2 U1 U2. unfold main.
  rewrite (process_bind_done _ _ _ _ _ (with_process_exclusive_mem_spec ptr (s, objects) Ha H0)).
  destruct (with_shmem_spec _ _ _ objects S1 U1) as (objects1 & E1 & H1).
  rewrite (process_bind_done _ _ _ _ _ E1).
  destruct (with_shmem_spec Huge s1 s2 objects1 S2) as (objects2 & E2 & _);
    [by rewrite H1|]. by eexists.
Qed.
End Intraprocess.
