(* ===== verification/Benchmark.v ===== *)
(** * Benchmarks

    The set-up of [src/examples/benchmark/src/main.rs], whose threads are in
    [HeadlessClients], and the benchmark of the channel in
    [src/que/benches/bench.rs].  Timing, and what they print, is left out. *)

From Stdlib Require Import Strings.String.
From S2P Require Import Prelude.
From S2P Require Import Rust.
From S2P Require Import Ring.
From S2P Require Import Errors.
From S2P Require Import Channel.
From S2P Require Import PageSize.
From S2P Require Import Layout.
From S2P Require Import Shmem.
From S2P Require Import HeadlessProducer.
From S2P Require Import HeadlessConsumer.
From S2P Require Import HeadlessInterface.
From S2P Require Import HeadlessClients.
From S2P Require Import HeadlessTheorems.
From S2P Require Import ShmemJoin.
From S2P Require Import Process.

(** [usize as i64]. *)
Definition as_i64 (x : Z) : Z := if x <=? i64_max then x else x - 2 ^ 64.

(** [Transaction<TX_TEST_SIZE>]: [repr(C, align(128))] in the one program, an
    array of bytes in the other. *)
Definition TX_TEST_SIZE : Z := 1232.
Definition TX_ALIGN : Z := 128.
Definition TX_SIZE : Z := align_up TX_TEST_SIZE TX_ALIGN.

Section Benchmark.
Context {S : Type} {os : OS S} {T : Type} {prof : Profile} (sysconf : sysconf_result).
#[local] Notation N := BENCH_N.

(** The removal of the object at the beginning of [main] and, once the
    consumer has been joined, at its end; [main] prints the result. *)
Definition bench_cleanup : process S T (result unit ShmemError) :=
  size ← pure_process (umul TX_TEST_SIZE N);
  bytes ← pure_process (mem_size sysconf Huge size);
  os_call (cleanup_shmem "sh_bench" (as_i64 bytes) Huge).

(** The beginning of [main]: what is left of an earlier run is removed, if it
    can be, and both ends join the object. *)
Definition bench_ends : process S T (Producer * Consumer) :=
  res ← bench_cleanup;
  both_ends sysconf TX_SIZE TX_ALIGN N "sh_bench" Huge.

(** The removal returns, whatever it does, and the system then maps the
    object twice.  Its memory is new, or a channel was set up there before,
    and nobody writes to it. *)
Record bench_served (system : Z) (s s' : S) (objects : PageSize → World T) : Prop := {
  bs_page : 0 < system ≤ GIGANTIC;
  bs_sysconf : sysconf = Ok (Some system);
  bs_cleanup : ∃ r s1,
    cleanup_shmem "sh_bench" (uplign HUGE (TX_TEST_SIZE * N)) Huge s = (Val r, s1) ∧
    maps TX_SIZE TX_ALIGN N system "sh_bench" Huge s1 s';
  bs_usable : usable N 0 (objects Huge);
  bs_quiet : ∀ i, begun (objects Huge) i = ended (objects Huge) i
}.

Lemma bench_capacity : capacity_ok N.
Proof. by split. Qed.

Lemma bench_object_size system ps :
  0 < system ≤ GIGANTIC → object_size TX_SIZE TX_ALIGN N system ps ≤ i64_max.
Proof.
  intros Hs. unfold object_size.
  assert (size_of_channel TX_SIZE TX_ALIGN N = 10486400) as -> by (vm_compute; reflexivity).
  assert (EG : GIGANTIC = 1073741824) by done. assert (EH : HUGE = 2097152) by done.
  assert (Hp : 0 < page_bytes system ps ≤ GIGANTIC) by (destruct ps; cbn; lia).
  pose proof (uplign_spec (page_bytes system ps) 10486400 ltac:(lia)). unfold i64_max. lia.
Qed.

(** A removal is one of the object's name and of fewer pages than the object
    has: the size is that of the messages alone.  [cleanup_shmem] opens the
    object with that size, so that it cuts the object short first. *)
Lemma bench_cleanup_spec system s objects :
  0 < system ≤ GIGANTIC → sysconf = Ok (Some system) →
  bench_cleanup (s, objects) = os_call
    (cleanup_shmem "sh_bench" (uplign HUGE (TX_TEST_SIZE * N)) Huge) (s, objects).
Proof.
  intros Hp Hs. unfold bench_cleanup.
  rewrite (process_bind_done (pure_process (umul TX_TEST_SIZE N)) _ _ (TX_TEST_SIZE * N) (s, objects))
    by (unfold pure_process; by rewrite umul_val).
  rewrite (process_bind_done (pure_process (mem_size sysconf Huge _)) _ _
    (uplign HUGE (TX_TEST_SIZE * N)) (s, objects))
    by (unfold pure_process; rewrite Hs, (mem_size_val system) by (done || lia); done).
  done.
Qed.

Lemma bench_cleanup_cuts system :
  uplign HUGE (TX_TEST_SIZE * N) < object_size TX_SIZE TX_ALIGN N system Huge.
Proof. done. Qed.

(** The consumer reads every position. *)
Definition bench_role (_ : nat) : Z * Z := (0, 1).

Lemma bench_ends_spec system s s' objects :
  bench_served system s s' objects →
  ∃ p c objects', bench_ends (s, objects) = Some (Val (p, c), (s', objects')) ∧
    initial N bench_role (tail (chan (objects' Huge))) (objects' Huge) [HProducer p; HConsumer c].
Proof.
  intros [Hp Hs (r & s1 & Ec & Hm) Hu Hq].
  destruct (both_ends_spec sysconf TX_SIZE TX_ALIGN N bench_capacity ltac:(done) system Hp Hs
    ltac:(split; vm_compute; discriminate) (fun ps => bench_object_size system ps Hp)
    0 "sh_bench" Huge s1 s' objects ltac:(lia) Hm Hu)
    as (p & c & objects' & E & [Hf Hl H0 Ht Hw Hh Hi Hx] & Hr & Hmag & Hcap & Hbeg & Hend & _).
  exists p, c, objects'. split.
  - unfold bench_ends. rewrite (process_bind_done bench_cleanup _ _ r (s1, objects)); [exact E|].
    rewrite (bench_cleanup_spec system) by (done || lia). by apply os_call_done.
  - unfold room in Hr. split; try done; try lia.
    + intros i. by rewrite Hbeg, Hend.
    + intros [|[|i]] h Hhs; [by injection Hhs as <-|injection Hhs as <-|done].
      cbn. unfold next_congruent. rewrite Z.mod_1_r. split_and!; [done|done|lia].
Qed.
End Benchmark.

(** ** The benchmark of [bench.rs] *)

Section PushPop.
Context {S : Type} {os : OS S} {T : Type} `{EqDecision T} {prof : Profile}.
Context (sysconf : sysconf_result) (tx : T).

Definition PUSH_POP_N : Z := 16384.
#[local] Notation N := PUSH_POP_N.
#[local] Notation CHANNEL_SIZE := (size_of_channel TX_TEST_SIZE 1 N).

(** The check before the measurement. *)
Definition check_once (producer : Producer) (consumer : Consumer) :
    prog T (Producer * Consumer) :=
  producer ← push N producer tx;
  producer ← sync producer;
  '(consumer, o) ← pop N 2 consumer;
  match o with
  | Some (Some v) =>
      _ ← assert (bool_decide (v = tx)) "assert_eq!(consumer.pop().unwrap(), tx)";
      mret (producer, consumer)
  | _ => Panic UnwrapFailed
  end.

(** What is measured, [n] times. *)
Fixpoint iterate (n : nat) (producer : Producer) (consumer : Consumer) :
    prog T (Producer * Consumer) :=
  match n with
  | O => mret (producer, consumer)
  | Datatypes.S n =>
      producer ← push N producer tx;
      producer ← sync producer;
      '(consumer, _) ← pop N 2 consumer;
      iterate n producer consumer
  end.

Definition push_pop (n : nat) : process S T unit :=
  bytes ← pure_process (mem_size sysconf Huge CHANNEL_SIZE);
  buffer_size ← pure_process (match try_into_i64 bytes with
                              | Some x => Val x
                              | None => Pan UnwrapFailed
                              end);
  _ ← os_call (cleanup_shmem "sh_bench" buffer_size Huge);
  '(producer, consumer) ← both_ends sysconf TX_TEST_SIZE 1 N "sh_bench" Huge;
  '(producer, consumer) ← in_object N Huge (check_once producer consumer);
  '(producer, consumer) ← in_object N Huge (iterate n producer consumer);
  in_object N Huge (_ ← drop_consumer ShmemMode consumer; drop_producer ShmemMode producer).

Lemma push_pop_capacity : capacity_ok N.
Proof. by split. Qed.

Lemma iterate_spec n p c w :
  caught_up N p c w → room N (Z.of_nat n) w →
  ∃ p' c' w', run N (iterate n p c) w = Done (p', c') w' ∧ caught_up N p' c' w' ∧
    tail (chan w') = tail (chan w) + Z.of_nat n.
Proof.
  revert p c w. induction n as [|n IH]; intros p c w Hc Hr.
  - exists p, c, w. split_and!; [done|done|lia].
  - destruct (exchange_spec N push_pop_capacity ltac:(done) p c w tx Hc)
      as (p1 & p2 & c' & w1 & w2 & E1 & E2 & E3 & Hc' & Ht & _); [unfold room in *; lia|].
    destruct (IH p2 c' w2 Hc') as (p3 & c3 & w3 & E & Hc3 & Ht3); [unfold room in *; lia|].
    exists p3, c3, w3. split_and!; [|done|lia]. cbn [iterate].
    rewrite run_bind, E1. cbn [obind]. rewrite run_bind, E2. cbn [obind].
    rewrite run_bind, E3. cbn [obind]. exact E.
Qed.

Lemma check_once_spec p c w :
  caught_up N p c w → room N 1 w →
  ∃ p' c' w', run N (check_once p c) w = Done (p', c') w' ∧ caught_up N p' c' w' ∧
    tail (chan w') = tail (chan w) + 1.
Proof.
  intros Hc Hr. destruct (exchange_spec N push_pop_capacity ltac:(done) p c w tx Hc Hr)
    as (p1 & p2 & c' & w1 & w2 & E1 & E2 & E3 & Hc' & Ht & _).
  exists p2, c', w2. split_and!; [|done|done]. unfold check_once.
  rewrite run_bind, E1. cbn [obind]. rewrite run_bind, E2. cbn [obind].
  rewrite run_bind, E3. cbn [obind]. by rewrite bool_decide_eq_true_2.
Qed.

Context (system : Z) (Hsystem : 0 < system ≤ GIGANTIC) (Hsysconf : sysconf = Ok (Some system)).

Lemma push_pop_object_size ps : object_size TX_TEST_SIZE 1 N system ps ≤ i64_max.
Proof.
  unfold object_size. assert (CHANNEL_SIZE = 20185728) as -> by (vm_compute; reflexivity).
  assert (EG : GIGANTIC = 1073741824) by done. assert (EH : HUGE = 2097152) by done.
  assert (Hp : 0 < page_bytes system ps ≤ GIGANTIC) by (destruct ps; cbn; lia).
  pose proof (uplign_spec (page_bytes system ps) 20185728 ltac:(lia)). unfold i64_max. lia.
Qed.

(** If the system maps the object, whatever the removal before does, the
    benchmark passes its check and makes any number of iterations. *)
Lemma push_pop_spec n s r s1 s2 objects :
  cleanup_shmem "sh_bench" (object_size TX_TEST_SIZE 1 N system Huge) Huge s = (Val r, s1) →
  maps TX_TEST_SIZE 1 N system "sh_bench" Huge s1 s2 →
  usable N (1 + Z.of_nat n) (objects Huge) →
  ∃ objects', push_pop n (s, objects) = Some (Val tt, (s2, objects')).
Proof.
  intros Ec Hm Hu.
  assert (Hsz : 0 ≤ CHANNEL_SIZE ≤ i64_max) by (split; vm_compute; discriminate).
  destruct (both_ends_spec sysconf TX_TEST_SIZE 1 N push_pop_capacity ltac:(done) system Hsystem
    Hsysconf Hsz push_pop_object_size (1 + Z.of_nat n) "sh_bench" Huge s1 s2 objects ltac:(lia) Hm Hu)
    as (p & c & objects2 & Eb & Hc & Hr & _). unfold room in Hr.
  destruct (check_once_spec p c (objects2 Huge) Hc) as (p1 & c1 & w1 & E1 & Hc1 & Ht1);
    [unfold room; lia|].
  set (objects3 := put_object Huge w1 objects2).
  destruct (iterate_spec n p1 c1 w1 Hc1) as (p2 & c2 & w2 & E2 & Hc2 & Ht2); [unfold room; lia|].
  assert (E2' : run N (iterate n p1 c1) (objects3 Huge) = Done (p2, c2) w2)
    by (unfold objects3; by rewrite put_object_eq).
  assert (Emem : mem_size sysconf Huge CHANNEL_SIZE = Val (object_size TX_TEST_SIZE 1 N system Huge)).
  { rewrite Hsysconf. by apply mem_size_val. }
  assert (Hfit : try_into_i64 (object_size TX_TEST_SIZE 1 N system Huge) =
    Some (object_size TX_TEST_SIZE 1 N system Huge)).
  { unfold try_into_i64. by rewrite (proj2 (Z.leb_le _ _) (push_pop_object_size Huge)). }
  unfold push_pop. rewrite Emem, (process_bind_done _ _ _ _ _ eq_refl), Hfit,
    (process_bind_done _ _ _ _ _ eq_refl).
  rewrite (process_bind_done _ _ _ _ _ (os_call_done _ _ _ _ objects Ec)).
  rewrite (process_bind_done _ _ _ _ _ Eb).
  rewrite (process_bind_done _ _ _ _ _ (in_object_done N _ _ s2 _ _ _ E1)). fold objects3.
  rewrite (process_bind_done _ _ _ _ _ (in_object_done N _ _ s2 _ _ _ E2')).
  eexists. by apply in_object_done.
Qed.
End PushPop.
