(* ===== verification/HeadlessClientTheorems.v ===== *)
(** * Programs that use the headless channel: theorems

    What the broadcast example and the benchmark do, in every execution. *)

From S2P Require Import Prelude.
From S2P Require Import Rust.
From S2P Require Import Ring.
From S2P Require Import Errors.
From S2P Require Import Channel.
From S2P Require Import Join.
From S2P Require Import Concurrency.
From S2P Require Import Clients.
From S2P Require Import HeadlessProducer.
From S2P Require Import HeadlessConsumer.
From S2P Require Import HeadlessLog.
From S2P Require Import HeadlessRefinement.
From S2P Require Import HeadlessInterface.
From S2P Require Import HeadlessClients.
From S2P Require Import HeadlessConcurrent.
From S2P Require Import HeadlessPair.
From S2P Require Import HeadlessTheorems.
From S2P Require Import PageSize.
From S2P Require Import Shmem.
From S2P Require Import Process.
From S2P Require Import Benchmark.

(** ** What a consumer can have popped *)

Section Popped.
Context {T : Type} {prof : Profile} (N : Z) (HN : capacity_ok N).
Context (role : nat → Z * Z) (Hrole : roles_ok role).
#[local] Notation C := (headless (T := T) N false role).
Implicit Types (w : World T) (s : config (sc N) C) (tp tc : thread C).

(** At any time of a thread that started as a consumer at [h0], and has
    popped [vs] since: the values are those pushed at increasing positions of
    its class, below what is published. *)
Lemma popped_positions t0 w hs s tp tc i h0 vs h :
  initial N role t0 w hs → reachable (sc N) (start N false role w hs) s →
  s.2 !! 0%nat = Some tp → s.2 !! S i = Some tc →
  openings (T := T) hs (S i) = [(h0, [])] → h `prefix_of` (calls_of tc).2 →
  popped N role h0 h vs →
  ∃ ks, Forall2 (fun k v => item_at t0 (pushed N false role t0 (calls_of tp).2) k = Some v) ks vs ∧
    (∀ j1 j2 k1 k2, (j1 < j2)%nat → ks !! j1 = Some k1 → ks !! j2 = Some k2 → k1 < k2) ∧
    Forall (fun k => h0 ≤ k ∧ k mod (role (S i)).2 = (role (S i)).1) ks.
Proof.
  intros Hs Hr Hp Hc Ho [rest Hh] Hpop.
  destruct (popped_itinerary N HN false role Hrole t0 w hs s tp tc i Hs Hr Hp Hc)
    as (its & Hits & HF).
  destruct (popped_prefix N role h0 h rest vs Hpop) as (pre & us & E).
  pose proof (eq_trans (f_equal2 (sessions N false role) Ho Hh) E) as Es.
  destruct (Forall2_lookup_r _ _ _ (length pre) (h0, vs ++ us) HF) as ([h0' ks] & Hk & Eh & HF').
  { refine (eq_trans (f_equal (lookup (length pre)) Es) _). by rewrite lookup_app_r, Nat.sub_diag. }
  cbn in Eh, HF'. subst h0'.
  destruct (Hrole (S i)) as [Hr' _].
  destruct (itinerary_lookup N _ _ _ _ _ _ _ _ Hits Hk) as (t & _ & hd & Htr).
  destruct (itinerary_start N _ _ _ _ _ _ _ _ Hits Hk) as [_ Hm].
  destruct (trail_positions N _ _ _ _ _ _ Hr' Hm Htr) as (_ & _ & Hpos).
  exists (take (length vs) ks). split_and!.
  - apply (Forall2_take _ _ _ (length vs)) in HF'. by rewrite take_app_length in HF'.
  - intros j1 j2 k1 k2 Hj H1 H2. apply lookup_take_Some in H1 as [H1 _], H2 as [H2 _].
    by eapply (trail_increasing N _ _ _ _ _ _ Hr' Hm Htr).
  - apply Forall_take. eapply Forall_impl; [exact Hpos|]. cbn. intros k ?. lia.
Qed.
End Popped.

(** ** The broadcast example *)

Section Broadcast.
Context {prof : Profile}.
#[local] Notation N := BROADCAST_N.
#[local] Notation role := (group_role NUM_CONSUMERS).
#[local] Notation C := (headless (T := Z) N false role).
Implicit Types (w : World Z) (s : config (sc N) C) (tp tc : thread C).

Lemma broadcast_capacity : capacity_ok N.
Proof. by split. Qed.

Lemma broadcast_roles : roles_ok role.
Proof. apply group_role_ok. unfold NUM_CONSUMERS. lia. Qed.

Lemma broadcast_role i : (i < NUM_CONSUMERS)%nat → role (S i) = (Z.of_nat i, 10).
Proof. apply group_role_lookup. Qed.

(** The threads of the example, from where [headless_multi] has returned. *)
Definition broadcast_start (p : Producer) (cs : list Consumer) w : config (sc N) C :=
  start N false role w (HProducer p :: (HConsumer <$> cs)).

Definition broadcast_ready (p : Producer) (cs : list Consumer) w : Prop :=
  ∃ addr, addr mod 128 = 0 ∧ addr ≠ 0 ∧
    run N (headless_multi N addr NUM_CONSUMERS) (new_uninit_zeroed N 0) = Done (p, cs) w.

Lemma broadcast_initial p cs w :
  broadcast_ready p cs w →
  initial N role 0 w (HProducer p :: (HConsumer <$> cs)) ∧
  ∀ i, (i < NUM_CONSUMERS)%nat →
    openings (T := Z) (HProducer p :: (HConsumer <$> cs)) (S i) = [(Z.of_nat i, [])].
Proof.
  intros (addr & Ha & H0 & E).
  destruct (headless_multi_spec N broadcast_capacity 0 addr NUM_CONSUMERS Ha H0)
    as (pcs & w' & E' & F); [done|].
  rewrite E in E'. injection E' as <- <-. split.
  - by apply (fresh_group_initial N broadcast_capacity 0 addr NUM_CONSUMERS (p, cs)).
  - intros i. exact (fresh_group_openings BROADCAST_N 0 addr NUM_CONSUMERS (p, cs) w i F).
Qed.

(** The producer pushes 0, 1, 2, and so on. *)
Lemma broadcast_producer_keeps n :
  keeps (C := C) (fun _ => True) (pushes_prefix N role 0 (seqZ 0 BROADCAST_MSGS)) (fun _ => False)
    n (broadcast_producer role) [] (fun _ _ => True).
Proof.
  unfold broadcast_producer.
  apply (keeps_iter C _ _ _ _ _ (fun msgs h => 0 ≤ msgs ∧ pushed N false role 0 h = seqZ 0 msgs));
    [|apply prefix_nil|done].
  intros m msgs h _ Hh [Hm E]. destruct (Z.ltb_spec msgs BROADCAST_MSGS); [|by apply keeps_ret].
  apply keeps_ask; [done|]. intros m1 [] _; [|by apply keeps_ret].
  assert (E' : seqZ 0 (msgs + 1) = seqZ 0 msgs ++ [msgs]) by (by rewrite seqZ_app by lia).
  assert (Hpre : seqZ 0 (msgs + 1) `prefix_of` seqZ 0 BROADCAST_MSGS).
  { exists (seqZ (msgs + 1) (BROADCAST_MSGS - (msgs + 1))).
    rewrite <- (Z.add_0_l (msgs + 1)) at 2. rewrite <- seqZ_app by lia. f_equal. lia. }
  eapply keeps_bind; [apply keeps_headless_push; by rewrite E, <- E'|].
  intros m2 [] h2 _ _ E2. rewrite E, <- E' in E2.
  eapply keeps_bind; [apply keeps_headless_sync; by rewrite E2|].
  intros m3 [] h3 _ Hh3 E3. apply keeps_ret; [done|]. split; [lia|by rewrite E3].
Qed.

(** Consumer [i] is given numbers of its class. *)
Definition broadcast_given (i : nat) (h : list (headless_call Z * headless_answer Z)) : Prop :=
  ∀ vs, popped N role (Z.of_nat i) h vs → Forall (fun v => v mod 10 = Z.of_nat i) vs.

(** It gets that many messages at most. *)
Definition broadcast_bound (i : nat) : nat := if decide (i = 0%nat) then 2 else 1.

Definition broadcast_keeps (i : nat) (_ : option (headless_call Z))
    (h : list (headless_call Z * headless_answer Z)) : Prop :=
  ∃ vs, popped N role (Z.of_nat i) h vs ∧ (length vs ≤ broadcast_bound i)%nat.

Definition assertion (name : string) : Prop := name = "assert_eq!(expected, msg)"%string.

(** No consumer gets past its second message. *)
Lemma broadcast_consumer_keeps i n :
  (i < NUM_CONSUMERS)%nat →
  keeps (C := C) (broadcast_given i) (broadcast_keeps i) assertion
    n (broadcast_consumer role) [] (fun _ _ => False).
Proof.
  intros Hi. assert (H0 : ∀ h, popped N role (Z.of_nat i) h [] → broadcast_keeps i None h).
  { intros h Hh. exists []. split; [done|cbn; lia]. }
  assert (H1 : ∀ o h v, popped N role (Z.of_nat i) h [v] → broadcast_keeps i o h).
  { intros o h v Hh. exists [v]. split; [done|]. cbn. unfold broadcast_bound. case_decide; lia. }
  unfold broadcast_consumer.
  apply (keeps_iter C _ _ _ _ _ (fun expected h =>
    expected = 0 ∧ popped N role (Z.of_nat i) h [] ∨
    expected = 1 ∧ i = 0%nat ∧ popped N role (Z.of_nat i) h [0]));
    [|by apply H0|by left].
  intros m expected h _ Hh [[-> Hp]|(-> & Hi0 & Hp)].
  - change (0 <? BROADCAST_MSGS) with true. cbv iota.
    eapply keeps_bind.
    { apply keeps_headless_pop with (h0 := Z.of_nat i) (vs := []); [done|..].
      - intros o h1 Hh1. exists []. split; [done|cbn; lia].
      - intros h1 v _ Hh1. by eapply H1. }
    intros m1 [msg|] h1 _ Hh1 Ho; [|apply keeps_ret; [done|by left]].
    destruct Ho as [Hp1 Hl]. pose proof (Hl _ Hp1) as HF. pose proof (Forall_inv HF) as Hmsg.
    destruct (Z.eqb_spec 0 msg) as [<-|Hne].
    + eapply keeps_bind; [by apply keeps_assert|]. intros m2 [] h2 _ _ ->.
      apply keeps_ret; [done|]. right. split_and!; [done| |done].
      change (0 = Z.of_nat i) in Hmsg. lia.
    + eapply keeps_bind; [by apply keeps_panic with (Φ := fun _ _ => False)|done].
  - change (1 <? BROADCAST_MSGS) with true. cbv iota.
    eapply keeps_bind.
    { apply keeps_headless_pop with (h0 := Z.of_nat i) (vs := [0]); [done|..].
      - intros o h1 Hh1. by eapply H1.
      - intros h1 v _ Hh1. exists [0; v]. split; [done|]. unfold broadcast_bound.
        rewrite decide_True by done. done. }
    intros m1 [msg|] h1 _ Hh1 Ho; [|apply keeps_ret; [done|by right]].
    destruct Ho as [Hp1 Hl]. pose proof (Hl _ Hp1) as HF.
    pose proof (Forall_inv (Forall_inv_tail HF)) as Hmsg. cbn in Hmsg.
    destruct (Z.eqb_spec 1 msg) as [<-|Hne].
    + by subst i.
    + eapply keeps_bind; [by apply keeps_panic with (Φ := fun _ _ => False)|done].
Qed.

(** C19: The broadcast example: no consumer reads the messages it expects.  The
    consumers share the messages, ten apart, and every one of them expects
    all: in every execution consumer 0 stops at its second message at the
    latest and each other at its first, none ever returns, and the only
    panic is the failed assertion. *)
Theorem broadcast_never_completes p cs w s tp tc i u' :
  broadcast_ready p cs w → (i < NUM_CONSUMERS)%nat →
  reachable (sc N) (broadcast_start p cs w) s →
  s.2 !! 0%nat = Some tp → s.2 !! S i = Some tc →
  runs (broadcast_producer role) tp → runs (broadcast_consumer role) tc →
  follows (broadcast_consumer role) (calls_of tc).2 u' →
  ends_well assertion (fun _ => False) u' ∧ broadcast_keeps i None (calls_of tc).2.
Proof.
  intros Hb Hi Hr Hp Hc Rp Rc Hu. destruct (broadcast_initial p cs w Hb) as [Hinit Ho].
  pose proof (keeps_runs C _ _ _ (broadcast_producer role) tp _ broadcast_producer_keeps Rp
    (fun _ _ => Logic.I)) as [rest Hpush].
  assert (Hl : ∀ h, h `prefix_of` (calls_of tc).2 → broadcast_given i h).
  { intros h Hh vs Hvs.
    destruct (popped_positions N broadcast_capacity role broadcast_roles 0 w _ s tp tc i
      (Z.of_nat i) vs h Hinit Hr Hp Hc (Ho i Hi) Hh Hvs) as (ks & HF & _ & Hcls).
    assert (ks = vs) as ->.
    { apply list_eq_Forall2, (Forall2_and_l _ _ _ _ _ HF Hcls). cbn. intros k v Hv [Hk _].
      unfold item_at in Hv. rewrite Z.sub_0_r in Hv.
      assert (Hin : seqZ 0 BROADCAST_MSGS !! Z.to_nat k = Some v)
        by (rewrite Hpush; by apply lookup_app_l_Some).
      apply lookup_seqZ in Hin as [-> _]. lia. }
    eapply Forall_impl; [exact Hcls|]. cbn. intros k [_ Hk].
    by rewrite broadcast_role in Hk. }
  split.
  - exact (keeps_outcome C _ _ _ _ u' _ (fun _ _ => False)
      (fun n => broadcast_consumer_keeps i n Hi) Hu Hl).
  - destruct (keeps_runs C _ _ _ (broadcast_consumer role) tc _
      (fun n => broadcast_consumer_keeps i n Hi) Rc Hl) as (vs & Hvs & Hlen). by exists vs.
Qed.
End Broadcast.

(** ** The benchmark *)

(** Increasing positions from [a] on. *)
Lemma increasing_room (a : Z) ks :
  (∀ j1 j2 k1 k2, (j1 < j2)%nat → ks !! j1 = Some k1 → ks !! j2 = Some k2 → k1 < k2) →
  Forall (fun k => a ≤ k) ks → ∀ j k, ks !! j = Some k → a + Z.of_nat j ≤ k.
Proof.
  intros Hinc Ha j. induction j as [|j IH]; intros k Hk.
  - rewrite Forall_lookup in Ha. specialize (Ha _ _ Hk). cbn in Ha. lia.
  - destruct (lookup_lt_is_Some_2 ks j) as [k' Hk']; [apply lookup_lt_Some in Hk; lia|].
    specialize (IH k' Hk'). specialize (Hinc j (S j) k' k ltac:(lia) Hk' Hk). lia.
Qed.

Section Benchmark.
Context {T : Type} {prof : Profile} (tx : T) (iters : Z) (Hiters : 0 ≤ iters < usize_lim).
#[local] Notation N := BENCH_N.

#[local] Notation C := (headless (T := T) N false bench_role).
Implicit Types (w : World T) (s : config (sc N) C) (tp tc : thread C).

Lemma bench_roles : roles_ok bench_role.
Proof. intros i. cbn. lia. Qed.

Lemma keeps_wait_for_start Ψ legal tolerated n h :
  Ψ None h → keeps (C := C) legal Ψ tolerated n (wait_for_start bench_role) h (fun _ h' => h' = h).
Proof.
  intros Hh. apply (keeps_wait C _ _ _ _ _ (fun h' => h' = h)); [done..|].
  intros [|m] h' Hh' ->; [done|]. split; [done|]. cbn. intros [|]; by apply keeps_ret.
Qed.

Lemma bench_producer_keeps t0 n :
  keeps (C := C) (fun _ => True) (pushes_prefix N bench_role t0 (replicate (Z.to_nat iters) tx))
    (fun _ => False) n (bench_producer bench_role tx iters) [] (fun _ _ => True).
Proof.
  unfold bench_producer.
  assert (Hpre : ∀ i, 0 ≤ i ≤ iters →
    replicate (Z.to_nat i) tx `prefix_of` replicate (Z.to_nat iters) tx).
  { intros i Hi. exists (replicate (Z.to_nat (iters - i)) tx). rewrite <- replicate_add. f_equal. lia. }
  eapply keeps_bind; [apply keeps_wait_for_start, prefix_nil|]. intros m1 [] h1 _ _ ->.
  apply (keeps_iter C _ _ _ _ _ (fun i h =>
    0 ≤ i ≤ iters ∧ pushed N false bench_role t0 h = replicate (Z.to_nat i) tx));
    [|apply prefix_nil|by split; [lia|]].
  intros m i h _ Hh [Hi E]. destruct (Z.ltb_spec i iters); [|by apply keeps_ret].
  assert (E' : replicate (Z.to_nat (i + 1)) tx = replicate (Z.to_nat i) tx ++ [tx]).
  { rewrite Z2Nat.inj_add by lia. by rewrite replicate_add. }
  eapply keeps_bind; [apply keeps_headless_push; rewrite E, <- E'; apply Hpre; lia|].
  intros m2 [] h2 _ _ E2. rewrite E, <- E' in E2.
  eapply keeps_bind; [apply keeps_headless_sync; rewrite E2; apply Hpre; lia|].
  intros m3 [] h3 _ Hh3 E3. apply keeps_ret; [done|]. split; [lia|by rewrite E3].
Qed.

Definition overflow (name : string) : Prop := name = "overflow"%string.

(** It returns only when it has popped [iters] messages. *)
Lemma bench_consumer_keeps t0 n :
  keeps (C := C) (fun _ => True) (fun _ _ => True) overflow n (bench_consumer bench_role iters) []
    (fun _ h => ∃ vs, popped N bench_role t0 h vs ∧ Z.of_nat (length vs) = iters).
Proof.
  unfold bench_consumer. eapply keeps_bind; [by apply keeps_wait_for_start|].
  intros m1 [] h1 _ _ ->. unfold consume_until_empty.
  apply (keeps_iter C _ _ _ _ _ (fun ce h =>
    ∃ vs, popped N bench_role t0 h vs ∧ Z.of_nat (length vs) = ce.1 ∧ ce.1 ≤ iters));
    [|done|exists []; split_and!; [done|done|cbn; lia]].
  intros m [consumed empty] h _ _ (vs & Hp & Hl & Hle). cbn [fst] in Hl, Hle.
  destruct (Z.ltb_spec consumed iters); [|apply keeps_ret; [done|]; exists vs; split; [done|lia]].
  eapply keeps_bind; [by apply keeps_headless_pop with (h0 := t0) (vs := vs)|].
  intros m2 o h2 _ _ Ho.
  assert (Hsum : ∀ x y m h (Q : Z → Prop), (∀ z, uadd x y = Val z → Q z) →
    keeps (C := C) (fun _ => True) (fun _ _ => True) overflow m (client_sum bench_role x y) h
      (fun z h' => h' = h ∧ Q z)).
  { intros x y m' h' Q HQ. unfold client_sum. destruct (uadd x y) eqn:E.
    - apply keeps_ret; [done|]. split; [done|by apply HQ].
    - by apply keeps_panic. }
  eapply keeps_bind.
  { apply (Hsum _ _ _ _ (fun z => z = consumed + match o with Some _ => 1 | None => 0 end)).
    intros z. rewrite uadd_val; [congruence|]. unfold is_usize. destruct o; lia. }
  intros m3 z h3 _ _ [-> ->]. eapply keeps_bind; [by apply (Hsum _ _ _ _ (fun _ => True))|].
  intros m4 e h4 _ _ [-> _]. apply keeps_ret; [done|]. destruct o as [v|].
  - destruct Ho as [Hp2 _]. exists (vs ++ [v]). rewrite length_app. cbn. split_and!; [done|lia|lia].
  - exists vs. cbn. split_and!; [done|lia|lia].
Qed.

(** The same from wherever the two ends have joined. *)
Lemma bench_consumer_needs_every_message t0 p c w s tp tc u' :
  initial N bench_role t0 w [HProducer p; HConsumer c] →
  reachable (sc N) (start N false bench_role w [HProducer p; HConsumer c]) s →
  s.2 !! 0%nat = Some tp → s.2 !! 1%nat = Some tc →
  runs (bench_producer bench_role tx iters) tp →
  follows (bench_consumer bench_role iters) (calls_of tc).2 u' →
  ends_well overflow (fun _ =>
    pushed N false bench_role t0 (calls_of tp).2 = replicate (Z.to_nat iters) tx ∧
    popped N bench_role t0 (calls_of tc).2 (pushed N false bench_role t0 (calls_of tp).2)) u'.
Proof.
  intros Hi Hr Hp Hc Rp Hu.
  pose proof (keeps_runs C _ _ _ (bench_producer bench_role tx iters) tp _
    (bench_producer_keeps t0) Rp (fun _ _ => Logic.I)) as [rest Hpush].
  eapply ends_well_mono; [exact (keeps_outcome C _ _ _ _ u' _ _ (bench_consumer_keeps t0) Hu
    (fun _ _ => Logic.I))|].
  intros _ (vs & Hvs & Hlen).
  assert (Hhead : c_head c = t0).
  { destruct (in_handles _ _ _ _ _ Hi 1%nat _ eq_refl) as (_ & _ & E). rewrite E.
    unfold next_congruent. cbn. rewrite Z.mod_1_r. lia. }
  destruct (popped_positions N bench_capacity bench_role bench_roles t0 w _ s tp tc 0 t0 vs
    (calls_of tc).2 Hi Hr Hp Hc) as (ks & HF & Hinc & Hge); [by cbn; rewrite Hhead|reflexivity|done|].
  set (us := pushed N false bench_role t0 (calls_of tp).2) in *.
  assert (Hus : length us = Z.to_nat iters).
  { pose proof (f_equal length Hpush) as E. rewrite length_replicate, length_app in E.
    pose proof (Forall2_length _ _ _ HF) as El.
    destruct (decide (iters = 0)) as [->|]; [lia|].
    destruct (lookup_lt_is_Some_2 ks (length ks - 1)) as [k Hk]; [lia|].
    pose proof (increasing_room t0 ks Hinc ltac:(by eapply Forall_impl; [exact Hge|intros ? []])
      _ _ Hk) as Hroom.
    destruct (Forall2_lookup_l _ _ _ _ _ HF Hk) as (v & _ & Hv).
    unfold item_at in Hv. apply lookup_lt_Some in Hv. lia. }
  assert (Erest : rest = []).
  { pose proof (f_equal length Hpush) as E. rewrite length_replicate, length_app in E.
    destruct rest; [done|cbn in E; lia]. }
  rewrite Erest, app_nil_r in Hpush. split; [done|].
  assert (vs = us) as <-; [|done].
  rewrite <- Hpush. symmetry. apply replicate_as_Forall. split; [lia|].
  apply Forall_lookup. intros j v Hv.
  destruct (Forall2_lookup_r _ _ _ _ _ HF Hv) as (k & _ & Hk). unfold item_at in Hk.
  rewrite <- Hpush in Hk. by apply lookup_replicate in Hk as [-> _].
Qed.
(** C20: The benchmark, from its set-up on: its consumer returns only if it has
    popped every message the producer has sent, all [iters] of them.  One
    message lost to an overrun, and it never does: the thread that joins it
    waits for ever. *)
Theorem benchmark_needs_every_message {S} {os : OS S} sysconf system (s1 s2 : S) objects objects'
    p c s tp tc u' :
  bench_served sysconf system s1 s2 objects →
  bench_ends sysconf (s1, objects) = Some (Val (p, c), (s2, objects')) →
  reachable (sc N) (start N false bench_role (objects' Huge) [HProducer p; HConsumer c]) s →
  s.2 !! 0%nat = Some tp → s.2 !! 1%nat = Some tc →
  runs (bench_producer bench_role tx iters) tp →
  follows (bench_consumer bench_role iters) (calls_of tc).2 u' →
  let t0 := p_tail p in
  ends_well overflow (fun _ =>
    pushed N false bench_role t0 (calls_of tp).2 = replicate (Z.to_nat iters) tx ∧
    popped N bench_role t0 (calls_of tc).2 (pushed N false bench_role t0 (calls_of tp).2)) u'.
Proof.
  intros Hserved Hends Hr Hp Hc Rp Hu t0.
  destruct (bench_ends_spec sysconf system s1 s2 objects Hserved) as (p' & c' & ob & E & Hi).
  rewrite Hends in E. injection E as <- <- <-.
  assert (Et : tail (chan (objects' Huge)) = t0)
    by (symmetry; exact (proj1 (in_handles _ _ _ _ _ Hi 0%nat _ eq_refl))).
  rewrite Et in Hi.
  apply (bench_consumer_needs_every_message t0 p c (objects' Huge) s tp tc u' Hi Hr Hp Hc Rp Hu).
Qed.
End Benchmark.
