(* ===== verification/SystemTheorems.v ===== *)
(** * Memory layout, page sizes, shared memory: theorems

    The guarantees that connect the channel's operations to the memory they
    run in, and the two processes to each other. *)

From S2P Require Import Prelude.
From S2P Require Import Rust.
From S2P Require Import Ring.
From S2P Require Import Errors.
From S2P Require Import Channel.
From S2P Require Import Join.
From S2P Require Import Concurrency.
From S2P Require Import PageSize.
From S2P Require Import Layout.
From S2P Require Import Shmem.
From S2P Require Import LosslessProducer.
From S2P Require Import LosslessConsumer.
From S2P Require Import LosslessQueue.
From S2P Require Import LosslessPair.
From S2P Require Import LosslessConcurrent.
From S2P Require Import LosslessTheorems.
From S2P Require Import HeadlessProducer.
From S2P Require Import HeadlessConsumer.
From S2P Require Import ShmemJoin.
From S2P Require Import Process.
From S2P Require Import Intraprocess.

(** ** Layout *)

Section LayoutTheorems.
Context (size align N : Z).
Context (Halign : 0 < align) (Hsize : 0 ≤ size) (Hmult : size mod align = 0) (HN : 0 < N).

(** C36: the layout of [Channel] for every element type: the four counters
    are on cache lines (128 bytes) of their own, the padding, capacity and
    magic number share the fifth, the buffer follows at the next multiple of
    the element's alignment (640 if that divides 128); all of it is inside
    [size_of::<Channel>()]. *)
Theorem channel_layout :
  layout size align N = [0; 128; 256; 384; 512; 624; 632; align_up 640 align] ∧
  (640 mod align = 0 → align_up 640 align = 640) ∧
  640 ≤ align_up 640 align ∧
  align_up 640 align + N * size ≤ size_of_channel size align N ∧
  size_of_channel size align N mod channel_align size align N = 0.
Proof.
  assert (0 ≤ N * size) by nia.
  split_and!.
  - by apply layout_val.
  - intros. by apply align_up_id.
  - by apply align_up_spec.
  - rewrite size_of_channel_val by done. apply align_up_spec. lia.
  - unfold size_of_channel. apply align_up_spec.
    rewrite channel_align_val by done. lia.
Qed.

(** Every cell the operations touch is a properly aligned object inside
    the memory of the channel: for a base address aligned for [Channel] and
    an index below [N]. *)
Theorem cells_inside base (i : nat) :
  base mod align = 0 → Z.of_nat i < N →
  base + 640 ≤ cell_address size align base i ∧
  cell_address size align base i + size ≤ base + size_of_channel size align N ∧
  cell_address size align base i mod align = 0.
Proof.
  intros Hb Hi. unfold cell_address.
  destruct (align_up_spec 640 align Halign) as [Hm H640].
  assert (0 ≤ N * size) by nia.
  assert (Hs : align_up 640 align + N * size ≤ size_of_channel size align N).
  { rewrite size_of_channel_val by done. apply align_up_spec. lia. }
  split_and!; [nia|nia|].
  apply Z.mod_divide; [lia|]. repeat apply Z.divide_add_r.
  - apply Z.mod_divide; [lia|done].
  - apply Z.mod_divide; [lia|done].
  - apply Z.divide_mul_r, Z.mod_divide; [lia|done].
Qed.

(** The pointers [get_padding_ptr] returns, on all four kinds of
    handles: the offset of the field [padding], a multiple of 128 like the
    channel itself, 112 bytes before [capacity]. *)
Theorem padding_pointers (lp : LosslessProducer.Producer) (lc : LosslessConsumer.Consumer)
    (hp : HeadlessProducer.Producer) (hc : HeadlessConsumer.Consumer) base :
  base mod 128 = 0 →
  LosslessProducer.p_spsc lp = base → LosslessConsumer.c_spsc lc = base →
  HeadlessProducer.p_spsc hp = base → HeadlessConsumer.c_spsc hc = base →
  ∃ padding capacity,
    layout size align N !! 4%nat = Some padding ∧
    layout size align N !! 5%nat = Some capacity ∧ capacity = padding + 112 ∧
    LosslessProducer.get_padding_ptr lp = base + padding ∧
    LosslessConsumer.get_padding_ptr lc = base + padding ∧
    HeadlessProducer.get_padding_ptr hp = base + padding ∧
    HeadlessConsumer.get_padding_ptr hc = base + padding ∧
    (base + padding) mod 128 = 0.
Proof.
  intros Hb E1 E2 E3 E4. exists 512, 624. rewrite layout_val by done.
  unfold LosslessProducer.get_padding_ptr, LosslessConsumer.get_padding_ptr,
    HeadlessProducer.get_padding_ptr, HeadlessConsumer.get_padding_ptr.
  rewrite E1, E2, E3, E4. split_and!; try done.
  by rewrite Z.add_mod, Hb by done.
Qed.
End LayoutTheorems.

(** ** Sizes *)

Section SizeTheorems.
Context {prof : Profile}.

(** [mem_size] never overflows for a size Rust allows ([isize::MAX] at
    most): it is the least multiple of the page size that is large enough. *)
Theorem mem_size_is_least_multiple system ps bytes :
  0 < system ≤ GIGANTIC → 0 ≤ bytes ≤ i64_max →
  ∃ m, mem_size (Ok (Some system)) ps bytes = Val m ∧
    m mod page_bytes system ps = 0 ∧ bytes ≤ m < bytes + page_bytes system ps.
Proof.
  intros Hp Hs. exists (uplign (page_bytes system ps) bytes).
  split; [by apply mem_size_val|]. apply uplign_spec.
  destruct ps; cbn; [lia|done|done].
Qed.
End SizeTheorems.

(** ** Shared memory *)

Section ShmemTheorems.
Context {S : Type} {os : OS S}.

(** The descriptor [open_or_create] works on. *)
Definition opened (id : string) (ps : PageSize) (s : S) : result Z Errno * S :=
  match ps with
  | Gigantic => os_open ("/mnt/gigantic/" +:+ id) s
  | Huge => os_open ("/mnt/hugepages/" +:+ id) s
  | Standard => os_shm_open id s
  end.

Lemma map_fd_closes id size ps fd s :
  ∃ s1, map_fd id size ps fd s =
    (Val (match (os_mmap (wrap64 size) (map_flags ps) fd s).1 with
          | Ok addr => Ok (mkShmem id size fd addr ps)
          | Err e => Err (ShmemErrno e)
          end), os_close fd s1).
Proof.
  unfold map_fd, call_os, mbind, io_bind, mret, io_ret. cbn.
  destruct (os_mmap _ _ _ s) as [[addr|e] s1]; cbn; eauto.
Qed.

Lemma open_or_create_opened id size ps s :
  has_nul id = false →
  open_or_create id size ps s =
  match opened id ps s with
  | (Err e, s1) => (Val (Err (ShmemError_from e)), s1)
  | (Ok fd, s1) =>
      if is_huge ps || is_gigantic ps then map_fd id size ps fd s1
      else resize_fd size fd (map_fd id size ps fd) s1
  end.
Proof.
  intros Hn. unfold open_or_create, opened, call_os, pure_io, CString_new_unwrap.
  rewrite Hn. unfold mbind, io_bind, mret, io_ret.
  destruct ps; cbn [is_gigantic is_huge orb fst snd].
  - by destruct (os_shm_open id s) as [[fd|e] s1].
  - by destruct (os_open _ s) as [[fd|e] s1].
  - by destruct (os_open _ s) as [[fd|e] s1].
Qed.

(** It returns on every path; what it maps is what was asked for. *)
Lemma open_or_create_cases id size ps s :
  has_nul id = false →
  ∃ r s', open_or_create id size ps s = (Val r, s') ∧
    match r with Ok sh => s_size sh = size ∧ s_page_size sh = ps | Err _ => True end.
Proof.
  intros Hn. rewrite open_or_create_opened by done.
  destruct (opened id ps s) as [[fd|e] s1]; [|by eexists _, _].
  assert (Hmap : ∀ s0, ∃ r s', map_fd id size ps fd s0 = (Val r, s') ∧
    match r with Ok sh => s_size sh = size ∧ s_page_size sh = ps | Err _ => True end).
  { intros s0. destruct (map_fd_closes id size ps fd s0) as [s2 ->].
    eexists _, _. split; [done|]. by destruct (os_mmap _ _ _ s0).1. }
  destruct (is_huge ps || is_gigantic ps); [apply Hmap|].
  rewrite resize_fd_cases. destruct (os_fstat_size fd s1) as [n|e]; [|by eexists _, _].
  destruct (n =? size); [apply Hmap|].
  destruct (os_ftruncate fd size s1) as [[[]|e] s2]; [apply Hmap|by eexists _, _].
Qed.

(** C38: the descriptor does not outlive [open_or_create], on any path: if
    the object can be opened, then whatever happens next the last system
    call closes its descriptor, also on success, where the [Shmem] that is
    returned still carries its number; if not, the error is converted and
    nothing else is called. *)
Theorem open_or_create_closes_fd id size ps s :
  has_nul id = false →
  match opened id ps s with
  | (Err e, s1) => open_or_create id size ps s = (Val (Err (ShmemError_from e)), s1)
  | (Ok fd, s1) =>
      ∃ r s2, open_or_create id size ps s = (Val r, os_close fd s2) ∧
        match r with
        | Ok sh => s_fd sh = fd ∧ s_size sh = size ∧ s_id sh = id ∧ s_page_size sh = ps
        | Err e => e ≠ UnlinkError
        end
  end.
Proof.
  intros Hn. rewrite open_or_create_opened by done.
  destruct (opened id ps s) as [[fd|e] s1]; [|done].
  assert (Hmap : ∀ s0, ∃ r s2, map_fd id size ps fd s0 = (Val r, os_close fd s2) ∧
    match r with
    | Ok sh => s_fd sh = fd ∧ s_size sh = size ∧ s_id sh = id ∧ s_page_size sh = ps
    | Err e => e ≠ UnlinkError
    end).
  { intros s0. destruct (map_fd_closes id size ps fd s0) as [s2 ->].
    eexists _, _. split; [done|]. by destruct (os_mmap _ _ _ s0).1. }
  destruct (is_huge ps || is_gigantic ps); [apply Hmap|].
  rewrite resize_fd_cases. destruct (os_fstat_size fd s1) as [n|e].
  - destruct (n =? size); [apply Hmap|].
    destruct (os_ftruncate fd size s1) as [[[]|e] s2]; [apply Hmap|].
    eexists _, _. split; [done|]. apply ShmemError_from_not_unlink.
  - eexists _, _. split; [done|]. apply ShmemError_from_not_unlink.
Qed.

(** Joining does not destroy: an object that already has the right
    size is mapped as it is, without [ftruncate]; and a failure of [mmap] is
    reported as [Errno] with its number, so running out of huge pages
    ([ENOMEM]) does not give [AllocationFailedErr]. *)
Theorem open_existing_maps_as_is id size s fd s1 :
  has_nul id = false → os_shm_open id s = (Ok fd, s1) → os_fstat_size fd s1 = Ok size →
  ∃ s2, open_or_create id size Standard s =
    (Val (match os_mmap (wrap64 size) MAP_SHARED fd s1 with
          | (Ok addr, _) => Ok (mkShmem id size fd addr Standard)
          | (Err e, _) => Err (ShmemErrno e)
          end), os_close fd s2) ∧ s2 = (os_mmap (wrap64 size) MAP_SHARED fd s1).2.
Proof.
  intros Hn Ho Hs. rewrite open_or_create_opened by done. cbn [opened]. rewrite Ho.
  cbn [is_huge is_gigantic orb]. rewrite resize_fd_cases, Hs, Z.eqb_refl.
  unfold map_fd, call_os, mbind, io_bind, mret, io_ret. cbn.
  destruct (os_mmap _ _ _ s1) as [[addr|e] s2]; cbn; eauto.
Qed.

(** C39: [close] always unmaps; it fails only for huge and gigantic pages
    and only with [UnlinkError], exactly when [unlink] fails; for ordinary
    objects it reports success whatever the system says. *)
Theorem close_results sh s :
  has_nul (s_id sh) = false →
  let unmapped := (os_munmap (s_addr sh) (wrap64 (s_size sh)) s).2 in
  let unlinked :=
    match s_page_size sh with
    | Standard => os_shm_unlink (s_id sh) unmapped
    | Huge => os_unlink ("/mnt/hugepages/" +:+ s_id sh) unmapped
    | Gigantic => os_unlink ("/mnt/gigantic/" +:+ s_id sh) unmapped
    end in
  close sh s =
    (Val (match s_page_size sh with
          | Standard => Ok tt
          | _ => if unlinked.1 =? 0 then Ok tt else Err UnlinkError
          end), unlinked.2).
Proof.
  intros Hn unmapped unlinked. unfold close, call_os, pure_io, mbind, io_bind.
  cbn [fst snd]. fold unmapped. unfold CString_new_unwrap.
  subst unlinked. destruct (s_page_size sh); cbn [is_gigantic is_huge];
    rewrite ?has_nul_app, ?Hn; [done|..];
    match goal with |- context [has_nul ?c || false] =>
      change (has_nul c || false) with false end;
    cbv beta iota; by destruct ((os_unlink _ unmapped).1 =? 0).
Qed.
End ShmemTheorems.

(** ** Opening a channel's object *)

Section OpenTheorems.
Context {S : Type} {os : OS S} {prof : Profile} (system size align N : Z).
Context (Hsystem : 0 < system ≤ GIGANTIC).

(** C37: a channel whose object would not fit [i64] is refused with
    [InvalidSize] before any system call; otherwise a successful opening
    maps a whole number of pages that contain the channel, and its errors
    are those of the shared memory. *)
Theorem open_channel_covers id ps s :
  has_nul id = false → 0 ≤ size_of_channel size align N ≤ i64_max →
  if i64_max <? object_size size align N system ps
  then open_channel (Ok (Some system)) size align N id ps s = (Val (Err InvalidSize), s)
  else ∃ r s', open_channel (Ok (Some system)) size align N id ps s = (Val r, s') ∧
       match r with
       | Ok sh => size_of_channel size align N ≤ s_size sh ∧
                  s_size sh mod page_bytes system ps = 0 ∧ s_page_size sh = ps
       | Err e => ∃ e', e = QueShmemError e'
       end.
Proof.
  intros Hn Hs. rewrite (open_channel_cases _ _ _ _ system) by done.
  destruct (Z.ltb_spec i64_max (object_size size align N system ps)); [done|].
  assert (Hpb : 0 < page_bytes system ps) by (destruct ps; [cbn; lia|done|done]).
  destruct (uplign_spec (page_bytes system ps) (size_of_channel size align N) Hpb)
    as [Hmod Hle].
  destruct (open_or_create_cases id (object_size size align N system ps) ps s Hn)
    as (r & s' & -> & Hr).
  eexists _, _. split; [done|]. destruct r as [sh|e]; cbn; [|eauto].
  destruct Hr as [-> ->]. unfold object_size. split_and!; [lia|done|done].
Qed.
End OpenTheorems.

(** ** Two processes *)

Section Bootstrap.
Context {T : Type} {prof : Profile} (N : Z) (HN : capacity_ok N).

(** C32: two processes that map the same fresh object, each at its own
    address, get the two ends of an empty queue: the producer sets the
    channel up, the consumer joins it, and all theorems about threads apply
    to them. *)
Theorem shmem_bootstrap (w : World T) addr_p addr_c :
  freed w = false → Z.of_nat (length (buffer (chan w))) = N →
  magic (chan w) = 0 → (∀ i, begun w i = ended w i) →
  addr_p ≠ 0 → addr_c mod 128 = 0 →
  ∃ p c w1 w2,
    run N (LosslessProducer.join_or_create_mapped N addr_p) w = Done (Ok p) w1 ∧
    run N (LosslessConsumer.join ShmemMode N addr_c) w1 = Done (Ok c) w2 ∧
    represents N (mkQueue [] [] 0) p c w2 ∧ startable N p c w2 ∧ freed w2 = false.
Proof.
  intros Hf Hl Hm Hq Hp Hc. pose proof (capacity_ok_pos N HN).
  pose proof (burst_amount_bounds N ltac:(lia)).
  rewrite LosslessPair.join_or_create_mapped_spec, join_cases_fresh by done.
  eexists _, _, _, _. split; [done|].
  rewrite LosslessPair.join_spec, join_cases_joined by done. split; [done|].
  assert (R : represents N (mkQueue [] [] 0) (LosslessProducer.mkProducer addr_p 0 0 0)
    (LosslessConsumer.mkConsumer addr_c 0 0 0 0)
    (do_store N HEAD 0 (LosslessPair.init_stores_mapped N w))).
  { split; cbn; try done; try lia. unfold q_used; cbn; lia. }
  split_and!; [exact R|by split|done].
Qed.
End Bootstrap.

(** ** The example in one process *)

(** C33: [src/examples/intraprocess]: if the system opens, maps and removes
    the objects it is asked for, the example completes: in its own memory, in
    a standard object and in one of huge pages, whether an object is new or
    an earlier run has left a channel in it. *)
Theorem intraprocess_completes {S} {os : OS S} {prof : Profile} sysconf system ptr
    (s s1 s2 : S) (objects : PageSize → World Z) :
  0 < system ≤ GIGANTIC → sysconf = Ok (Some system) →
  ptr mod 128 = 0 → ptr ≠ 0 →
  served system Standard s s1 → served system Huge s1 s2 →
  usable INTRAPROCESS_N 1 (objects Standard) → usable INTRAPROCESS_N 1 (objects Huge) →
  ∃ objects', main sysconf ptr (s, objects) = Some (Val tt, (s2, objects')).
Proof. intros Hp Hs. by apply main_spec. Qed.
