(* ===== verification/WeakTheorems.v ===== *)
(** * Both channels on a release/acquire memory: theorems

    The orderings the code asks for are enough for the lossless channel, and
    not for the headless one. *)

From S2P Require Import Prelude.
From S2P Require Import Rust.
From S2P Require Import Ring.
From S2P Require Import Errors.
From S2P Require Import Channel.
From S2P Require Import Join.
From S2P Require Import Concurrency.
From S2P Require Import WeakMemory.
From S2P Require Import LosslessProducer.
From S2P Require Import LosslessConsumer.
From S2P Require Import LosslessQueue.
From S2P Require Import LosslessReservation.
From S2P Require Import LosslessInterface.
From S2P Require Import LosslessProtocol.
From S2P Require Import LosslessOperations.
From S2P Require Import LosslessWeak.
From S2P Require Import LosslessTheorems.
From S2P Require HeadlessProducer.
From S2P Require HeadlessConsumer.
From S2P Require HeadlessInterface.
From S2P Require Import HeadlessPair.

(** ** The lossless channel *)

Section Lossless.
Context {T : Type} {prof : Profile} (N : Z) (HN : capacity_ok N).
Implicit Types (p : Producer) (c : Consumer) (w : World T)
  (s : config (weak N) (lossless (T := T) N false)).

Let HN0 : 0 < N < usize_lim := capacity_ok_pos N HN.

(** Two threads to which a pair has been given. *)
Definition weak_start p c w : config (weak N) (lossless N false) :=
  (weaken w, [Idle (C := lossless N false) (HProducer p) [];
              Idle (C := lossless N false) (HConsumer c) []]).

Definition weak_ok (t0 : Z) : config (weak N) (lossless (T := T) N false) → Prop :=
  ok N t0 false (weak N) (P := weak_spsc N t0).

Lemma weak_start_ok p c w : startable N p c w → 0 ≤ p_tail p ∧ weak_ok (p_tail p) (weak_start p c w).
Proof.
  intros [R Hlt Hq Hm Hc]. pose proof R as []. cbn in *.
  pose proof (burst_amount_bounds N ltac:(lia)). split; [lia|].
  assert (Hv : ∀ x, length (values (weaken w) (slot N x)) = 1%nat).
  { intros x. cbn. destruct (ring_get_is_Some N ltac:(lia) (buffer (chan w)) x) as [v Hv]; [done|].
    unfold ring_get in Hv. by rewrite Hv. }
  apply (config_ok_idle (weak N) (lossless N false) _ _ _ _ _ _ _ (weaken w) [HProducer p; HConsumer c]).
  - assert (HV : ∀ V, V = view_bottom → view_ok N (weaken w) V).
    { intros V ->. split; intros x; [cbn; lia|]. rewrite Hv. cbn. lia. }
    assert (Hsingle : ∀ l k m, msgs (weaken w) l !! k = Some m →
      m = mkMessage (get_loc l (chan w)) view_bottom).
    { intros l [|k] m Hk; [by injection Hk as <-|done]. }
    assert (Hrise : ∀ l, rising (msgs (weaken w) l)).
    { intros l k1 k2 m1 m2 _ H1 H2. by rewrite (Hsingle _ _ _ H1), (Hsingle _ _ _ H2). }
    split; unfold newest; cbn [weaken msgs last m_value get_loc]; try done; try lia.
    + intros i. by apply HV.
    + intros l k m ->%Hsingle. by apply HV.
    + split; [exact (Hrise TAIL)|exact (Hrise HEAD)].
    + intros k m Hk. rewrite (Hsingle HEAD k m Hk). cbn. lia.
    + intros. cbn. lia.
    + intros. cbn. lia.
  - intros [|[|[|i]]] h [= <-]; cbn [handle_inv].
    + split; [by split; [|constructor]|].
      split; unfold newest; cbn [weaken msgs last m_value get_loc length]; try done; try (cbn; lia).
      eexists. split; [done|]. cbn. lia.
    + split; [split; [change (p_tail p ≤ tail (chan w)); lia|constructor]|].
      split; unfold newest; cbn [weaken msgs last m_value get_loc length]; try done; try (cbn; lia).
      eexists. split; [done|]. cbn. lia.
Qed.

Lemma weak_reachable_ok p c w s :
  startable N p c w → reachable (weak N) (weak_start p c w) s → weak_ok (p_tail p) s.
Proof.
  intros [Ht0 Hok]%weak_start_ok. revert Hok.
  apply (reachable_protocol N HN (p_tail p) Ht0 false (weak N)
           (L := weak_spsc_laws N HN (p_tail p) Ht0)).
Qed.

(** C2: FIFO under release/acquire.  The stores to [tail] and [head] are
    releases and the loads acquires, and that is enough: although either
    thread may see old values of every counter for as long as it likes, every
    value the consumer reads as element number [k] is the [k]-th value the
    producer sent. *)
Theorem lossless_weak_fifo p c w s tp tc k v :
  startable N p c w → reachable (weak N) (weak_start p c w) s →
  s.2 !! 0%nat = Some tp → s.2 !! 1%nat = Some tc →
  (k, v) ∈ received N false (p_tail p) (calls_of tc).2 →
  sent N false (p_tail p) (calls_of tp).1 (calls_of tp).2 !! k = Some v.
Proof.
  intros Hs Hr Hp Hc. pose proof (proj1 (weak_start_ok p c w Hs)) as Ht0.
  exact (ok_received N (p_tail p) false (weak N) (L := weak_spsc_laws N HN (p_tail p) Ht0)
           s tp tc (weak_reachable_ok p c w s Hs Hr) Hp Hc k v).
Qed.

(** C3: the channel is free of data races under release/acquire: whenever a
    thread begins to read or write a cell, every conflicting access is over
    and happens before it; whenever it stores to a counter it knows the
    counter's newest value.  No call panics, and every access is possible. *)
Theorem lossless_weak_race_free p c w s i cl m hist :
  startable N p c w → reachable (weak N) (weak_start p c w) s →
  s.2 !! i = Some (Busy cl m hist) →
  match m with
  | Ret _ => True
  | Panic _ => False
  | Do a _ => weak_race_free i _ a s.1 ∧ ∃ x (w' : Weak T), weak_step N i a s.1 x w'
  end.
Proof.
  intros Hs Hr Hi. pose proof (proj1 (weak_start_ok p c w Hs)) as Ht0.
  exact (ok_safe N (p_tail p) false (weak N) (L := weak_spsc_laws N HN (p_tail p) Ht0)
           s i cl m hist (weak_reachable_ok p c w s Hs Hr) Hi).
Qed.
End Lossless.

(** ** The headless channel *)

Section Headless.
Context {prof : Profile}.
Import HeadlessInterface.

(** One consumer, that reads every position. *)
Definition every (i : nat) : Z * Z := (0, 1).

#[local] Notation C := (headless (T := Z) 4 false every).

(** The threads of a new pair of capacity 4. *)
Definition headless_weak_start (p : HeadlessProducer.Producer) (c : HeadlessConsumer.Consumer)
    (w : World Z) : config (weak 4) C :=
  (weaken w, [Idle (C := C) (HProducer p) []; Idle (C := C) (HConsumer c) []]).

(** The producer pushes five values; all but the last are published. *)
Definition five_pushes : list (move C) :=
  Start (C := C) 0 (Push 69) :: replicate 3 (Go 0) ++
  concat ((fun v => Start (C := C) 0 (Push v) :: replicate 4 (Go 0)) <$> [70; 71; 72; 73]).

(** The consumer begins to pop.  The first load of [tail] returns 1: only the
    value 69 has been published as far as it knows. *)
Definition begin_pop : list (move C) := [Start (C := C) 1 (Pop 1); Pick 1 1].

(** It reads cell 0, which holds the fifth value by now, and the load that
    should notice returns 1 again. *)
Definition end_pop : list (move C) := [Go 1; Go 1; Pick 1 1; Go 1].

Definition pair0 : HeadlessProducer.Producer * HeadlessConsumer.Consumer :=
  (HeadlessProducer.mkProducer 128 0 0 0, HeadlessConsumer.mkConsumer 128 0 1 0 0).

Definition memory0 : World Z :=
  match run 4 (headless_pair 4 128) (new_uninit_zeroed 4 0) with
  | Done _ w => w
  | _ => new_uninit_zeroed 4 0
  end.

Definition start0 : config (weak 4) C := headless_weak_start pair0.1 pair0.2 memory0.

Definition racing : config (weak 4) C :=
  default start0 (play (weak 4) (five_pushes ++ begin_pop) start0).

Definition returned : config (weak 4) C :=
  default racing (play (weak 4) end_pop racing).

(** C21: the orderings are not enough for the headless channel.  From a new
    pair the producer pushes 69, 70, 71, 72, 73.  The consumer, whose cursor
    is 0, may still see the [tail] of the first publication; its read of cell
    0 is a data race with the write of 73, and if the cell behaves as plainly
    as an atomic one would, the read returns 73 and the second load of [tail]
    the same old value (an acquire load does not order the reads before it),
    so that the validation succeeds and [pop] returns 73 as the value at
    position 0. *)
Theorem headless_weak_returns_overwritten :
  ∃ p c w s1 s2 tp tc c',
    run 4 (headless_pair 4 128) (new_uninit_zeroed 4 0) = Done (p, c) w ∧
    reachable (weak 4) (headless_weak_start p c w) s1 ∧
    (match s1.2 !! 1%nat with
     | Some (Busy _ (Do a _) _) => ¬ weak_race_free 1 _ a s1.1
     | _ => False
     end) ∧
    reachable (weak 4) s1 s2 ∧
    s2.2 !! 0%nat = Some tp ∧
    pushed 4 false every 0 (calls_of tp).2 = [69; 70; 71; 72; 73] ∧
    s2.2 !! 1%nat = Some tc ∧
    (calls_of tc).2 = [(Pop 1, APop (Some (Some 73)))] ∧
    (match tc with Idle h _ => h = HConsumer c' | _ => False end) ∧
    HeadlessConsumer.c_head c = 0 ∧ HeadlessConsumer.c_head c' = 1.
Proof.
  exists pair0.1, pair0.2, memory0, racing, returned,
    (default (Idle (C := C) HNoProducer []) (returned.2 !! 0%nat)),
    (default (Idle (C := C) HNoProducer []) (returned.2 !! 1%nat)),
    (HeadlessConsumer.mkConsumer 128 1 1 0 0).
  split; [vm_compute; reflexivity|]. split.
  { apply (play_reachable (weak 4) (five_pushes ++ begin_pop) _ start0); [constructor|].
    apply default_Some. vm_compute. reflexivity. }
  split; [vm_compute; lia|]. split.
  { apply (play_reachable (weak 4) end_pop _ racing); [constructor|].
    apply default_Some. vm_compute. reflexivity. }
  split; [apply default_Some; vm_compute; reflexivity|].
  split; [vm_compute; reflexivity|].
  split; [apply default_Some; vm_compute; reflexivity|].
  do 3 (split; [vm_compute; reflexivity|]). reflexivity.
Qed.
End Headless.
