(* ===== verification/ClientTheorems.v ===== *)
(** * Programs that use the lossless channel: theorems

    The tests and examples of the repository do what they assert, in every
    execution. *)

From S2P Require Import Prelude.
From S2P Require Import Rust.
From S2P Require Import Ring.
From S2P Require Import Errors.
From S2P Require Import Channel.
From S2P Require Import Join.
From S2P Require Import PageSize.
From S2P Require Import Layout.
From S2P Require Import Shmem.
From S2P Require Import Concurrency.
From S2P Require Import WeakMemory.
From S2P Require Import Clients.
From S2P Require Import LosslessProducer.
From S2P Require Import LosslessConsumer.
From S2P Require Import LosslessQueue.
From S2P Require Import LosslessInterface.
From S2P Require Import LosslessHeartbeats.
From S2P Require Import LosslessProtocol.
From S2P Require Import LosslessOperations.
From S2P Require Import LosslessClients.
From S2P Require Import LosslessClientLogic.
From S2P Require Import Interprocess.
From S2P Require Import LosslessConcurrent.
From S2P Require Import LosslessWeak.
From S2P Require Import LosslessPair.
From S2P Require Import LosslessTheorems.
From S2P Require Import WeakTheorems.

(** Decides that a concrete list is a prefix of another. *)
Ltac prefix := eapply bool_decide_unpack; vm_compute; exact Logic.I.

Lemma prefix_of_length {A} (l l' : list A) n : l `prefix_of` l' → length l = n → l = take n l'.
Proof. intros [k ->] <-. by rewrite take_app_length. Qed.

(** ** The loom tests *)

Section Loom.
Context {prof : Profile}.

(** [Channel::loom_write_fresh_empty_at]: an empty channel at [ptr]. *)
Definition loom_write_fresh_empty_at (N ptr : Z) : res (Channel Z) :=
  if ptr mod 128 =? 0 then
    Val (mkChannel 0 0 0 0 (replicate 112 0) N MAGIC (replicate (Z.to_nat N) 0))
  else Pan (AssertFailed "unaligned").

(** The beginning of each test: storage, and the two joins. *)
Definition loom_setup (N ptr : Z) : prog Z (Producer * Consumer) :=
  r ← LosslessProducer.join N ptr;
  producer ← lift (unwrap r);
  r ← LosslessConsumer.join ShmemMode N ptr;
  consumer ← lift (unwrap r);
  mret (producer, consumer).

(** A test has its channel at [ptr] and its two handles. *)
Definition loom_ready (N ptr : Z) (p : Producer) (c : Consumer) (w : World Z) : Prop :=
  ∃ ch, loom_write_fresh_empty_at N ptr = Val ch ∧ ptr ≠ 0 ∧
        run N (loom_setup N ptr) (world_of ch) = Done (p, c) w.

Lemma loom_ready_startable N ptr p c w :
  capacity_ok N → loom_ready N ptr p c w → startable N p c w ∧ p_tail p = 0.
Proof.
  intros HN (ch & Hch & Hp & Hr). pose proof (capacity_ok_pos N HN).
  unfold loom_write_fresh_empty_at in Hch.
  destruct (Z.eqb_spec (ptr mod 128) 0) as [Ha|]; [|done]. injection Hch as <-.
  set (w0 := world_of _) in Hr.
  assert (Hc : magic (chan w0) = MAGIC ∧ capacity (chan w0) = N) by done.
  unfold loom_setup, LosslessProducer.join in Hr.
  rewrite run_bind, join__spec, join_cases_joined in Hr by done.
  cbn [obind] in Hr. erewrite run_lift_bind in Hr by reflexivity.
  rewrite run_bind, join_spec, join_cases_joined in Hr by done.
  cbn [obind] in Hr. erewrite run_lift_bind in Hr by reflexivity. rewrite run_ret in Hr.
  injection Hr as <- <- <-. split; [|done].
  split; cbn; try done; try lia.
  split; cbn; try done; try lia.
  - rewrite length_replicate. lia.
  - pose proof (burst_amount_bounds N ltac:(lia)). lia.
  - unfold q_used. cbn. lia.
Qed.

(** A consumer that only asserts what it is given never fails. *)
Lemma loom_ends {R} N ptr p c w s tp tc (vs : list Z) (t : client (lossless (T := Z) N false) unit) t'
    (u u' : client (lossless (T := Z) N false) R) (Ψ : R → Prop) :
  capacity_ok N → loom_ready N ptr p c w → reachable (weak N) (weak_start N p c w) s →
  s.2 !! 0%nat = Some tp → s.2 !! 1%nat = Some tc →
  (∀ n, keeps (C := lossless (T := Z) N false) (fun _ => True) (sends_prefix N false 0 vs) (fun _ => False) n t [] (fun _ _ => True)) →
  (∀ n, keeps (C := lossless (T := Z) N false) (given N false 0 vs) (fun _ _ => True) (fun _ => False) n u [] (fun r _ => Ψ r)) →
  runs t tp → follows t (calls_of tp).2 t' → follows u (calls_of tc).2 u' →
  ends_well (fun _ => False) (fun _ => True) t' ∧ ends_well (fun _ => False) Ψ u'.
Proof.
  intros HN Hr. destruct (loom_ready_startable N ptr p c w HN Hr) as [Hs H0].
  intros Hreach Hp Hc Ht Hu. pose proof (weak_reachable_ok N HN p c w s Hs Hreach) as Hok.
  rewrite H0 in Hok.
  exact (together_outcome N false 0 vs (weak N) (P := weak_spsc N 0)
           (L := weak_spsc_laws N HN 0 ltac:(done)) t u u' t' _ (fun r _ => Ψ r) s tp tc Hok Hp Hc Ht Hu).
Qed.

Lemma four_capacity : capacity_ok 4.
Proof. by split. Qed.
Lemma eight_capacity : capacity_ok 8.
Proof. by split. Qed.
Lemma sixteen_capacity : capacity_ok 16.
Proof. by split. Qed.

Context (ptr : Z) (p : Producer) (c : Consumer) (w : World Z).

(** C17: [loom_lossless_batched_pushes]: in every execution on release/acquire
    memory, neither thread panics, the consumer's assertion included; a
    consumer that ends has drained 0 to 9, in order. *)
Theorem loom_lossless_batched_pushes s tp tc t' u' :
  loom_ready 16 ptr p c w → reachable (weak 16) (weak_start 16 p c w) s →
  s.2 !! 0%nat = Some tp → s.2 !! 1%nat = Some tc →
  runs batched_pushes_producer tp →
  follows batched_pushes_producer (calls_of tp).2 t' →
  follows batched_pushes_consumer (calls_of tc).2 u' →
  ends_well (fun _ => False) (fun _ => True) t' ∧
  ends_well (fun _ => False) (fun got => got = seqZ 0 10) u'.
Proof.
  intros Hr Hs Hp Hc Hrun. revert Hrun.
  eapply (loom_ends 16 ptr p c w s tp tc (seqZ 0 10)); [apply sixteen_capacity|done..| |].
  - intros n. eapply keeps_bind; [apply (keeps_push_all _ _ _ _ _ _ _ id); prefix|]. intros m1 [] h1 _ _ E1.
    eapply keeps_bind; [apply keeps_sync; rewrite E1; prefix|]. intros m2 [] h2 _ _ E2.
    rewrite E1 in E2.
    eapply keeps_bind; [apply (keeps_push_all _ _ _ _ _ _ _ id); rewrite E2; prefix|]. intros m3 [] h3 _ _ E3.
    rewrite E2 in E3. eapply keeps_mono; [apply keeps_sync; rewrite E3; prefix|done..].
  - intros n. eapply keeps_bind; [by apply (keeps_drain_all 16 false 0 (seqZ 0 10)) with (xs := []); try apply prefix_nil|].
    intros m out h _ _ (_ & Hpre & Hlen). cbn [app] in Hpre.
    assert (E : out = seqZ 0 10) by (apply prefix_length_eq; [done|by rewrite Hlen]).
    eapply keeps_bind; [apply keeps_assert; [done|by apply bool_decide_eq_true]|].
    intros m' [] h' _ _ _. by apply keeps_ret.
Qed.

(** [loom_lossless_fill_drain_refill]: in every execution on
    release/acquire memory, a producer that fills a channel of four cells in
    two rounds of three, and a consumer that drains it, never panic: both of
    the consumer's assertions hold. *)
Theorem loom_lossless_fill_drain_refill s tp tc t' u' :
  loom_ready 4 ptr p c w → reachable (weak 4) (weak_start 4 p c w) s →
  s.2 !! 0%nat = Some tp → s.2 !! 1%nat = Some tc →
  runs fill_drain_refill_producer tp →
  follows fill_drain_refill_producer (calls_of tp).2 t' →
  follows fill_drain_refill_consumer (calls_of tc).2 u' →
  ends_well (fun _ => False) (fun _ => True) t' ∧
  ends_well (fun _ => False) (fun got => got = seqZ 0 6) u'.
Proof.
  intros Hr Hs Hp Hc Hrun. revert Hrun.
  eapply (loom_ends 4 ptr p c w s tp tc (seqZ 0 6)); [apply four_capacity|done..| |].
  - intros n. unfold fill_drain_refill_producer. set (values rounds := rounds ≫= fun round => (fun i => round * 3 + i) <$> seqZ 0 3).
    eapply keeps_mono; [apply (keeps_for_each (lossless (T := Z) 4 false)) with
      (Inv := fun rounds h => sends 4 false 0 h ++ values rounds = seqZ 0 6)|done|done].
    + exact (prefix_nil _).
    + by vm_compute.
    + intros m round rounds h _ E. cbn [values mbind list_bind] in E. rewrite app_assoc in E.
      eapply keeps_bind; [apply keeps_push_all; exists (values rounds); by symmetry|].
      intros m1 [] h1 _ _ E1.
      eapply keeps_mono; [apply keeps_sync; exists (values rounds); by rewrite E1|done|].
      intros [] h2 E2. by rewrite E2, E1.
  - intros n. eapply keeps_bind;
      [by apply (keeps_drain_all 4 false 0 (seqZ 0 6)) with (xs := []); try apply prefix_nil|].
    intros m out h _ _ (Ht & Hpre & Hlen). cbn [app] in *.
    assert (E : out = [0; 1; 2]) by exact (prefix_of_length out (seqZ 0 6) 3 Hpre Hlen).
    eapply keeps_bind; [apply keeps_assert; [done|by apply bool_decide_eq_true]|].
    intros m1 [] h1 _ _ ->.
    eapply keeps_bind; [by apply (keeps_drain_all 4 false 0 (seqZ 0 6)) with (xs := out)|].
    intros m2 out2 h2 _ _ (_ & Hpre2 & Hlen2).
    assert (E2 : out ++ out2 = seqZ 0 6).
    { apply prefix_length_eq; [done|]. rewrite length_app, Hlen, Hlen2. by vm_compute. }
    rewrite E in E2. change (seqZ 0 6) with ([0; 1; 2] ++ [3; 4; 5]) in E2. apply (inj _) in E2.
    eapply keeps_bind; [apply keeps_assert; [done|by apply bool_decide_eq_true]|].
    intros m3 [] h3 _ _ _. apply keeps_ret; [done|]. by rewrite E, E2.
Qed.

(** [loom_lossless_no_false_some_on_empty]: in every execution on
    release/acquire memory, no pop of an empty channel finds a value. *)
Theorem loom_lossless_no_false_some_on_empty s tp tc u' :
  loom_ready 8 ptr p c w → reachable (weak 8) (weak_start 8 p c w) s →
  s.2 !! 0%nat = Some tp → s.2 !! 1%nat = Some tc →
  runs no_false_some_producer tp → follows no_false_some_consumer (calls_of tc).2 u' →
  ends_well (fun _ => False) (fun _ => True) u'.
Proof.
  intros Hr Hs Hp Hc Hrun Hu.
  pose proof Hrun as (t' & Hf & _).
  eapply (loom_ends 8 ptr p c w s tp tc []);
    [apply eight_capacity|done..| | |exact Hrun|exact Hf|exact Hu].
  - intros n. apply keeps_ret; [exact (prefix_nil _)|done].
  - intros n. unfold no_false_some_consumer.
    eapply keeps_mono; [apply (keeps_for_each (lossless (T := Z) 8 false)) with
      (Inv := fun _ h => took 8 false 0 h [])|done|done]; [done|done|].
    intros m x xs h _ Ht.
    eapply keeps_bind; [by apply (keeps_pop 8 false 0 []); [..|apply prefix_nil]|].
    intros m' o h' _ _ Ho. destruct o as [v|].
    + destruct Ho as [_ [us Hus]]. by destruct us.
    + eapply keeps_mono; [apply keeps_assert; [done|by apply bool_decide_eq_true]|done|].
      by intros [] h'' ->.
Qed.
End Loom.

(** ** The example *)

Section Example_.
Context {prof : Profile}.

(** The first [n] messages. *)
Definition ranges (n : Z) : list (Z * Z) := (fun k => (k, k + 1)) <$> seqZ 0 n.

Lemma ranges_app n m : 0 ≤ n → 0 ≤ m →
  ranges (n + m) = ranges n ++ ((fun k => (k, k + 1)) <$> seqZ n m).
Proof. intros. unfold ranges. by rewrite seqZ_app, fmap_app by done. Qed.

Lemma ranges_prefix n m : 0 ≤ n ≤ m → ranges n `prefix_of` ranges m.
Proof.
  intros. exists ((fun k => (k, k + 1)) <$> seqZ n (m - n)).
  rewrite <- ranges_app by lia. by replace (n + (m - n)) with m by lia.
Qed.

Lemma ranges_lookup n k : 0 ≤ k < n → ranges n !! Z.to_nat k = Some (k, k + 1).
Proof.
  intros. unfold ranges. rewrite list_lookup_fmap, lookup_seqZ_lt by lia.
  cbn. by rewrite Z2Nat.id by lia.
Qed.

Lemma ranges_length n : length (ranges n) = Z.to_nat n.
Proof. unfold ranges. by rewrite length_fmap, length_seqZ. Qed.

Lemma example_capacity : capacity_ok EXAMPLE_N.
Proof. by split. Qed.

Lemma example_producer_keeps t0 n :
  keeps (C := lossless EXAMPLE_N false) (fun _ => True)
    (sends_prefix EXAMPLE_N false t0 (ranges NUM_MSGS)) (fun _ => False)
    n example_producer [] (fun _ _ => True).
Proof.
  unfold example_producer.
  apply (keeps_iter (lossless (T := Z * Z) EXAMPLE_N false)) with
    (Inv := fun msgs h => 0 ≤ msgs ≤ NUM_MSGS ∧ sends EXAMPLE_N false t0 h = ranges msgs).
  - intros m msgs h _ Hh [Hm E].
    assert (Hsame : 0 ≤ msgs ≤ NUM_MSGS ∧ sends EXAMPLE_N false t0 h = ranges msgs) by done.
    destruct (Z.ltb_spec msgs NUM_MSGS); [|by apply keeps_ret].
    apply keeps_ask; [done|]. intros m1 [] _; [|by apply keeps_ret].
    assert (E' : ranges (msgs + 1) = ranges msgs ++ [(msgs, msgs + 1)])
      by (rewrite ranges_app by lia; done).
    eapply keeps_bind;
      [apply keeps_push_retry; rewrite E, <- E'; apply ranges_prefix; lia|].
    intros m2 [] h2 _ _ E2. rewrite E, <- E' in E2.
    eapply keeps_bind; [apply keeps_sync; rewrite E2; apply ranges_prefix; lia|].
    intros m3 [] h3 _ Hh3 E3. apply keeps_ret; [done|]. split; [lia|by rewrite E3].
  - exact (prefix_nil _).
  - split; [done|]. done.
Qed.

Lemma example_consumer_keeps t0 n :
  keeps (C := lossless EXAMPLE_N false) (given EXAMPLE_N false t0 (ranges NUM_MSGS))
    (fun _ _ => True) (fun _ => False) n example_consumer []
    (fun _ h => (received EXAMPLE_N false t0 h).*2 = ranges NUM_MSGS).
Proof.
  unfold example_consumer.
  apply (keeps_iter (lossless (T := Z * Z) EXAMPLE_N false)) with
    (Inv := fun expected h => ∃ xs, 0 ≤ expected ∧ length xs = Z.to_nat expected ∧
              xs `prefix_of` ranges NUM_MSGS ∧ took EXAMPLE_N false t0 h xs); [|done|].
  - intros m expected h _ _ (xs & He & Hl & Hx & Ht).
    destruct (Z.ltb_spec expected NUM_MSGS);
      [|apply keeps_ret; [done|]; rewrite (took_values _ _ _ _ _ Ht);
        apply prefix_length_eq; [done|]; rewrite ranges_length; lia].
    eapply keeps_bind; [by apply (keeps_pop EXAMPLE_N false t0 (ranges NUM_MSGS)) with (xs := xs)|].
    intros m1 [msg|] h1 _ _ Ho; [|apply keeps_ret; [done|by exists xs]].
    destruct Ho as [Ht1 Hx1].
    assert (E : (expected, expected + 1) = msg).
    { apply (inj Some). rewrite <- (ranges_lookup NUM_MSGS expected), <- Hl by lia.
      apply (prefix_lookup_Some _ _ _ _ ltac:(exact (list_lookup_middle xs [] msg _ eq_refl)) Hx1). }
    eapply keeps_bind; [apply keeps_assert; [done|by apply bool_decide_eq_true]|].
    intros m2 [] h2 _ _ ->. apply keeps_ret; [done|]. exists (xs ++ [msg]).
    split_and!; [lia|rewrite length_app; cbn; lia|done|done].
  - exists []. split_and!; [done|done|apply prefix_nil|done].
Qed.

(** C18: [src/que/examples/lossless.rs]: neither thread panics, however the clock
    and the scheduler behave, so that [join().unwrap()] succeeds; a consumer
    that ends has read every message. *)
Theorem example_delivers p c w s tp tc t' u' :
  startable EXAMPLE_N p c w → reachable (sc EXAMPLE_N) (start EXAMPLE_N false p c w) s →
  s.2 !! 0%nat = Some tp → s.2 !! 1%nat = Some tc →
  runs example_producer tp →
  follows example_producer (calls_of tp).2 t' → follows example_consumer (calls_of tc).2 u' →
  ends_well (fun _ => False) (fun _ => True) t' ∧
  ends_well (fun _ => False)
    (fun _ => (received EXAMPLE_N false (p_tail p) (calls_of tc).2).*2 = ranges NUM_MSGS) u'.
Proof.
  intros Hs Hr Hp Hc. set (t0 := p_tail p).
  pose proof (initial_start EXAMPLE_N false p c w Hs) as Hi.
  pose proof (reachable_ok_initial EXAMPLE_N false example_capacity _ _ s Hi Hr) as Hok.
  pose proof (proj1 (initial_ok EXAMPLE_N false example_capacity _ _ Hi)) as Ht0.
  apply (together_outcome EXAMPLE_N false t0 (ranges NUM_MSGS) (sc EXAMPLE_N)
           (P := sc_spsc EXAMPLE_N t0) (L := sc_spsc_laws EXAMPLE_N example_capacity t0 Ht0 false)
           example_producer example_consumer u' t' (fun _ _ => True)
           (fun _ h => (received EXAMPLE_N false t0 h).*2 = ranges NUM_MSGS) s tp tc Hok Hp Hc
           (example_producer_keeps t0) (example_consumer_keeps t0)).
Qed.
End Example_.

(** ** Two processes *)

Section Interprocess.
Context {prof : Profile} (system : Z) (Hsystem : 0 < system ≤ GIGANTIC).
Context (sysconf : sysconf_result) (Hsysconf : sysconf = Ok (Some system)).
#[local] Notation N := INTERPROCESS_N.
#[local] Notation C := (lossless (T := Z) N true).
Implicit Types (w : World Z) (s : config (sc N) C) (tp tc : thread C).

(** The producer process and the consumer process of the example have come to
    [s], from a fresh object. *)
Record two_processes w s tp tc : Prop := {
  tw_blank : blank N w;
  tw_beat : Channel.consumer_heartbeat (chan w) = 0;
  tw_reached : reachable (sc N) (boot N true w) s;
  tw_producer : s.2 !! 0%nat = Some tp;
  tw_consumer : s.2 !! 1%nat = Some tc;
  tw_produces : runs (producer_main sysconf) tp;
  tw_consumes : runs consumer_main tc
}.

Lemma two_processes_ok w s tp tc : two_processes w s tp tc → channel_ok N true 0 s.
Proof.
  intros H. eapply (reachable_ok_initial N true four_capacity 0 (boot N true w) s); [|apply H].
  constructor. apply H.
Qed.

#[local] Notation laws := (sc_spsc_laws N four_capacity 0 (Z.le_refl 0) true).

Lemma two_processes_answers w s tp tc :
  two_processes w s tp tc → ∀ h, h `prefix_of` (calls_of tp).2 → answers_ok N true 0 h.
Proof.
  intros H h. apply answers_ok_prefix.
  exact (ok_answers N 0 true (sc N) (L := laws) s tp (two_processes_ok _ _ _ _ H)
           (tw_producer _ _ _ _ H)).
Qed.

Lemma two_processes_producer w s tp tc :
  two_processes w s tp tc → producer_keeps (calls_of tp).1 (calls_of tp).2.
Proof.
  intros H. eapply keeps_runs; [|apply H|exact (two_processes_answers _ _ _ _ H)].
  intros n. by apply (producer_main_keeps system Hsystem sysconf).
Qed.

(** As long as nothing is acknowledged, nothing is published, or received. *)
Lemma unacked_unpublished w s tp tc :
  two_processes w s tp tc → unacked (calls_of tp).2 →
  joined_at N true 0 (calls_of tc).2 ≤ 0 ∧ received N true 0 (calls_of tc).2 = [].
Proof.
  intros H Hun. pose proof (two_processes_ok _ _ _ _ H) as Hok.
  destruct (two_processes_producer _ _ _ _ H) as (_ & Hs & _). specialize (Hs Hun).
  pose proof H as [_ _ _ Hp Hc _ _]. split.
  - etrans; [exact (ok_joined N 0 true (sc N) (L := laws) s tc Hok Hc)|].
    destruct (ok_sent N 0 true (sc N) (L := laws) s tp Hok Hp) as [[_ Ht] _].
    rewrite Hs in Ht. exact Ht.
  - destruct (received N true 0 (calls_of tc).2) as [|[k v] got] eqn:E; [done|].
    assert (Hin : (k, v) ∈ received N true 0 (calls_of tc).2) by (rewrite E; by left).
    apply (ok_received N 0 true (sc N) (L := laws) s tp tc Hok Hp Hc) in Hin.
    rewrite Hs in Hin. by destruct k.
Qed.

(** Up to its first beat, the consumer has not been noticed. *)
Lemma unbeaten_unacked w s tp tc :
  two_processes w s tp tc → Forall (fun c => is_beat c = false) (calls_since N true 0 tc) →
  unacked (calls_of tp).2.
Proof.
  intros [] Hb. apply (no_beat_no_ack N true 0 w HNoProducer HNoConsumer [] [] s tp tc); try done.
  apply Forall_true. intros. done.
Qed.

Lemma two_processes_before w s s' tp' tc' :
  reachable (sc N) (boot N true w) s → step (sc N) s s' → two_processes w s' tp' tc' →
  ∃ tp tc, two_processes w s tp tc ∧ calls_step C (calls_of tp) (calls_of tp') ∧
           calls_step C (calls_of tc) (calls_of tc').
Proof.
  intros Hr Hs [? ? _ Hp Hc Rp Rc].
  destruct (step_calls C s s' _ _ Hs Hp) as (tp & Htp & Sp).
  destruct (step_calls C s s' _ _ Hs Hc) as (tc & Htc & Sc).
  exists tp, tc. split; [split; try done; by eapply runs_before|done].
Qed.

(** The consumer is given nothing but the messages; it has joined before any
    was published. *)
Lemma two_processes_consumer w s tp tc :
  two_processes w s tp tc →
  (∀ h, h `prefix_of` (calls_of tc).2 → consumer_given h) ∧
  consumer_keeps (calls_of tc).1 (calls_of tc).2.
Proof.
  assert (Hgiven : ∀ s tp tc, two_processes w s tp tc → joins_at_zero (calls_of tc).2 →
    (∀ h, h `prefix_of` (calls_of tc).2 → consumer_given h) ∧
    consumer_keeps (calls_of tc).1 (calls_of tc).2).
  { intros s1 tp1 tc1 H Hz.
    assert (Hl : ∀ h, h `prefix_of` (calls_of tc1).2 → consumer_given h).
    { intros h Hh. split.
      - apply (together_given N true 0 messages (sc N) (L := laws) s1 tp1 tc1
          (two_processes_ok _ _ _ _ H) (tw_producer _ _ _ _ H) (tw_consumer _ _ _ _ H)); [|done].
        apply (two_processes_producer _ _ _ _ H).
      - destruct Hh as [k E]. unfold joins_at_zero in *. rewrite E in Hz.
        by apply Forall_app in Hz as [? _]. }
    split; [done|]. eapply keeps_runs; [apply consumer_main_keeps|apply H|exact Hl]. }
  intros H. apply (Hgiven s tp tc H). pose proof (tw_reached _ _ _ _ H) as Hr.
  revert tp tc H. induction Hr as [|s1 s2 Hr IH Hs]; intros tp tc H.
  - pose proof (tw_consumer _ _ _ _ H) as Hc. injection Hc as <-. constructor.
  - destruct (two_processes_before w s1 s2 tp tc Hr Hs H) as (tp1 & tc1 & H1 & Sp & Sc).
    specialize (IH _ _ H1). pose proof (proj2 (Hgiven _ _ _ H1 IH)) as Hk.
    destruct (calls_of tc1) as [o1 h1] eqn:E1, (calls_of tc) as [o h] eqn:E. cbn in *.
    inversion Sc as [x|c hist|c a hist]; subst; [done..|].
    apply Forall_app. split; [done|]. apply Forall_singleton.
    destruct c as [| | | | | | | | | | | | | | | | |b]; try done.
    destruct a as [| | | | | |x|]; try done. cbn in Hk. subst h1.
    assert (Hun : unacked (calls_of tp).2).
    { apply (unbeaten_unacked w s2 tp tc H). unfold calls_since. rewrite E. by constructor. }
    destruct (unacked_unpublished _ _ _ _ H Hun) as [Hj _]. by rewrite E in Hj.
Qed.

Lemma two_processes_end w s tp tc t' u' :
  two_processes w s tp tc →
  follows (producer_main sysconf) (calls_of tp).2 t' → follows consumer_main (calls_of tc).2 u' →
  ends_well producer_panics (fun _ => ¬ unacked (calls_of tp).2) t' ∧
  ends_well consumer_panics (fun _ => (received N true 0 (calls_of tc).2).*2 = messages) u'.
Proof.
  intros H Ht Hu. split.
  - apply (keeps_outcome C _ _ _ _ t' _ (fun _ h => ¬ unacked h)
      (producer_main_keeps system Hsystem sysconf Hsysconf) Ht), (two_processes_answers w s tp tc H).
  - eapply ends_well_mono.
    + exact (keeps_outcome C _ _ _ _ u' _ _ consumer_main_keeps Hu
        (proj1 (two_processes_consumer w s tp tc H))).
    + intros ? Ht1. unfold took, received in *. by rewrite Ht1.
Qed.


(** *** The acknowledgement that is lost *)

(** The producer publishes the magic number; the consumer joins and beats;
    then the producer looks at the heartbeat for the first time. *)
Definition zeroed : World Z :=
  world_of (mkChannel 0 0 0 0 (replicate 112 0) 0 0 [0; 0; 0; 0]).

Definition late_look : list (move C) :=
  Start (C := C) 0 (JoinProducer 4096) :: replicate 7 (Go 0) ++
  Start (C := C) 1 (JoinConsumer 8192) :: replicate 6 (Go 1) ++
  Start (C := C) 1 ConsumerBeat :: replicate 2 (Go 1) ++ replicate 2 (Go 0).

Definition missed : config (sc N) C :=
  default (boot N true zeroed) (play (sc N) late_look (boot N true zeroed)).

Definition missed_p : thread C :=
  Idle (C := C) (HProducer (mkProducer 4096 0 0 1)) [(JoinProducer 4096, AJoined 0)].
Definition missed_c : thread C :=
  Idle (C := C) (HConsumer (mkConsumer 8192 0 0 0 0))
    [(JoinConsumer 8192, AJoined 0); (ConsumerBeat, AUnit)].

Lemma missed_threads : missed.2 = [missed_p; missed_c].
Proof. reflexivity. Qed.

Lemma missed_reached : reachable (sc N) (boot N true zeroed) missed.
Proof.
  apply (play_reachable (sc N) late_look _ (boot N true zeroed)); [constructor|].
  apply default_Some. vm_compute. reflexivity.
Qed.

Lemma missed_two_processes : two_processes zeroed missed missed_p missed_c.
Proof.
  split; [by split|done|apply missed_reached|by rewrite missed_threads..| |].
  - eexists. split; [|done].
    eapply follows_ask with (X := result Z QueError) (x := Ok 4096); [observed|].
    eapply follows_call; [observed|constructor].
  - eexists. split; [|done].
    eapply follows_ask with (X := result Z QueError) (x := Ok 8192); [observed|].
    eapply follows_call; [observed|]. eapply follows_call; [observed|constructor].
Qed.

(** From there on: the two processes have made no call that would help. *)
Record stuck tp tc : Prop := {
  stuck_p : (calls_of missed_p).2 `prefix_of` (calls_of tp).2;
  stuck_c : (calls_of missed_c).2 `prefix_of` (calls_of tc).2;
  stuck_joined : Forall (fun c => is_join c = false) (calls_since N true 1 tp);
  stuck_beat : Forall (fun c => is_beat c = false) (calls_since N true 2 tc)
}.

Lemma stuck_unacked s tp tc :
  reachable (sc N) missed s → two_processes zeroed s tp tc → stuck tp tc → unacked (calls_of tp).2.
Proof.
  intros Hr H [[k Ek] Hc Hj Hb]. unfold unacked. rewrite Ek. apply Forall_app. split; [by repeat constructor|].
  change k with (drop 1 ((calls_of missed_p).2 ++ k)). rewrite <- Ek.
  apply (no_beat_no_ack N true 1 missed.1 (HProducer (mkProducer 4096 0 0 1))
    (HConsumer (mkConsumer 8192 0 0 0 0)) (calls_of missed_p).2 (calls_of missed_c).2 s tp tc);
    [reflexivity|done|done| |apply H|apply H| |done].
  - change [_; _] with [missed_p; missed_c]. rewrite <- missed_threads. by destruct missed.
  - eapply Forall_impl; [exact Hj|]. cbn. by intros c ->.
Qed.

Lemma stuck_step s s' tp tc tp' tc' :
  reachable (sc N) missed s → two_processes zeroed s tp tc → stuck tp tc →
  two_processes zeroed s' tp' tc' → calls_step C (calls_of tp) (calls_of tp') →
  calls_step C (calls_of tc) (calls_of tc') → stuck tp' tc'.
Proof.
  intros Hr H Hst H' Sp Sc. pose proof (stuck_unacked s tp tc Hr H Hst) as Hun.
  destruct (unacked_unpublished _ _ _ _ H Hun) as [_ Hrec].
  destruct Hst as [Hp Hc Hj Hb].
  assert (Hp' : (calls_of missed_p).2 `prefix_of` (calls_of tp').2)
    by (etrans; [exact Hp|by apply (calls_step_prefix N true)]).
  assert (Hc' : (calls_of missed_c).2 `prefix_of` (calls_of tc').2)
    by (etrans; [exact Hc|by apply (calls_step_prefix N true)]).
  split; [done|done| |].
  - eapply (calls_since_step N true 1); [exact Sp|by apply prefix_length in Hp| |done].
    intros c E _. destruct (two_processes_producer _ _ _ _ H') as (_ & _ & Hk).
    rewrite E in Hk. destruct c; try done. destruct Hp' as [k Ek].
    by pose proof (eq_trans (eq_sym Ek) Hk).
  - eapply (calls_since_step N true 2); [exact Sc|by apply prefix_length in Hc| |done].
    intros c E E0. destruct (two_processes_consumer _ _ _ _ H') as [_ Hk].
    rewrite E in Hk. destruct c; try done. cbn in Hk. exfalso. apply Hk.
    + apply (beaten_prefix _ _ Hc'). right. by left.
    + pose proof (calls_step_begin C _ _ _ Sc E0 E) as Eh.
      exact (eq_trans (f_equal (received N true 0) Eh) Hrec).
Qed.

Lemma missed_stuck s tp tc :
  reachable (sc N) missed s → two_processes zeroed s tp tc → stuck tp tc.
Proof.
  intros Hr. revert tp tc. induction Hr as [|s1 s2 Hr IH Hs]; intros tp tc H.
  - pose proof (tw_producer _ _ _ _ H) as Hp. pose proof (tw_consumer _ _ _ _ H) as Hc.
    rewrite missed_threads in Hp, Hc. injection Hp as <-. injection Hc as <-.
    split; [done|done|by constructor..].
  - destruct (two_processes_before zeroed s1 s2 tp tc) as (tp1 & tc1 & H1 & Sp & Sc);
      [|exact Hs|exact H|].
    + by eapply reachable_trans; [apply missed_reached|].
    + by eapply (stuck_step s1 s2 tp1 tc1); [| |apply IH| | |].
Qed.

(** C16: The acknowledgement that is lost: [join_or_create_shmem] takes the heartbeat
    it compares with after it has published the channel.  If the consumer
    joins and beats in between, the producer never sees that beat: it waits
    for ever, nothing is sent, and neither process of the example ends. *)
Theorem interprocess_ack_missed :
  reachable (sc N) (boot N true zeroed) missed ∧
  two_processes zeroed missed missed_p missed_c ∧
  ∀ s tp tc t' u',
    reachable (sc N) missed s → two_processes zeroed s tp tc →
    follows (producer_main sysconf) (calls_of tp).2 t' →
    follows consumer_main (calls_of tc).2 u' →
    unacked (calls_of tp).2 ∧ received N true 0 (calls_of tc).2 = [] ∧
    ends_well producer_panics (fun _ => False) t' ∧
    ends_well consumer_panics (fun _ => False) u'.
Proof.
  split_and!; [apply missed_reached|apply missed_two_processes|].
  intros s tp tc t' u' Hr H Ht Hu.
  pose proof (stuck_unacked s tp tc Hr H (missed_stuck s tp tc Hr H)) as Hun.
  destruct (unacked_unpublished _ _ _ _ H Hun) as [_ Hrec].
  destruct (two_processes_end _ _ _ _ _ _ H Ht Hu) as [Hep Hec].
  split_and!; [done|done|by eapply ends_well_mono|].
  eapply ends_well_mono; [exact Hec|]. cbv beta. intros _ Hm.
  by pose proof (eq_trans (eq_sym (f_equal (fmap snd) Hrec)) Hm).
Qed.
End Interprocess.
