(* ===== verification/LosslessWitnesses.v ===== *)
(** * The lossless channel: concrete instances

    The theorems of [LosslessTheorems] applied to concrete channels of [Z]
    values and capacity 4: their hypotheses hold there, and what they say can
    be read off. *)

From S2P Require Import Prelude.
From S2P Require Import Rust.
From S2P Require Import Ring.
From S2P Require Import Errors.
From S2P Require Import Channel.
From S2P Require Import Join.
From S2P Require Import Concurrency.
From S2P Require Import LosslessProducer.
From S2P Require Import LosslessConsumer.
From S2P Require Import LosslessQueue.
From S2P Require Import LosslessReservation.
From S2P Require Import LosslessRefinement.
From S2P Require Import LosslessInterface.
From S2P Require Import Words.
From S2P Require Import LosslessWords.
From S2P Require Import LosslessConcurrent.
From S2P Require Import LosslessPair.
From S2P Require Import LosslessTheorems.

#[local] Existing Instance debug_profile.

Lemma four_ok : capacity_ok 4.
Proof. by split. Defined.

(** ** Channels *)

(** Memory at rest: nothing is being written. *)
Definition at_rest (c : Channel Z) (strong : Z) : World Z :=
  mkWorld c strong false [] (fun _ => None) (fun _ => 0%nat) (fun _ => 0%nat).

(** What [lossless_pair] makes at address 128. *)
Definition w0 : World Z :=
  at_rest (mkChannel 0 0 0 0 (replicate 112 0) 4 MAGIC [0; 0; 0; 0]) 2.
Definition p0 : Producer := mkProducer 128 0 0 0.
Definition c0 : Consumer := mkConsumer 128 0 0 0 0.

(** Position 6: [7] and [8] readable, [9] pushed and not published. *)
Definition w1 : World Z :=
  at_rest (mkChannel 8 6 0 0 (replicate 112 0) 4 MAGIC [9; 0; 7; 8]) 2.
Definition p1 : Producer := mkProducer 128 9 1 0.
Definition c1 : Consumer := mkConsumer 128 6 0 0 0.
Definition q1 : Queue Z := mkQueue [7; 8] [9] 0.

(** The same with a reservation of one cell. *)
Definition r1 : Reservation := mkReservation p1 9 1 0 false.

(** An empty channel with a reservation of three cells that wraps around. *)
Definition w2 : World Z :=
  at_rest (mkChannel 6 6 0 0 (replicate 112 0) 4 MAGIC [0; 0; 0; 0]) 2.
Definition p2 : Producer := mkProducer 128 6 0 0.
Definition c2 : Consumer := mkConsumer 128 6 0 0 0.
Definition r2 : Reservation := mkReservation p2 6 3 0 false.

(** Evaluates the fields of a relation between concrete states. *)
Ltac concrete :=
  split; cbn; unfold q_used; cbn; try done; try lia;
  try (intros i v Hi; repeat (destruct i as [|i]; [by injection Hi as <-|]); done).

Lemma rep0 : represents 4 (mkQueue [] [] 0) p0 c0 w0.
Proof. concrete. Defined.

Lemma rep1 : represents 4 q1 p1 c1 w1.
Proof. concrete. Defined.

Lemma rep2 : represents 4 (mkQueue [] [] 0) p2 c2 w2.
Proof. concrete. Defined.

Lemma res1 : reserved 4 q1 r1 [] c1 w1.
Proof. split; [apply rep1|done|done|cbn; lia|cbn; unfold q_used; cbn; lia|]. done. Defined.

Lemma res2 : reserved 4 (mkQueue [] [] 0) r2 [] c2 w2.
Proof. split; [apply rep2|done|done|cbn; lia|cbn; unfold q_used; cbn; lia|]. done. Defined.

Lemma fresh0 : fresh_pair 4 0 128 (p0, c0) w0.
Proof. by split. Defined.

(** ** A schedule *)

(** Two processes share zeroed memory.  The consumer comes too early; the
    producer sets the channel up; both join.  The producer publishes 7, and
    dies while it writes 8.  It joins again, at another address, and sends 9;
    the consumer reads both while the producer begins to write 10, and dies
    in the middle of its third read. *)
Definition blank0 : World Z :=
  at_rest (mkChannel 0 0 0 0 (replicate 112 0) 0 0 [0; 0; 0; 0]) 1.

Lemma blank0_ok : blank 4 blank0.
Proof. by split. Defined.

#[local] Notation C := (lossless (T := Z) 4 true).

Definition finish (i : nat) (c : call C) (n : nat) : list (move C) :=
  Start (C := C) i c :: replicate n (Go i).

Definition schedule : list (move C) :=
  finish 1 (JoinConsumer 8192) 3 ++ finish 0 (JoinProducer 4096) 9 ++
  finish 1 (JoinConsumer 8192) 6 ++ finish 0 (Push 7) 4 ++ finish 0 Sync 2 ++
  finish 0 (Push 8) 2 ++ [Crash 0] ++ finish 0 (JoinProducer 12288) 5 ++
  finish 0 (Push 9) 4 ++ finish 0 Sync 2 ++ finish 1 Pop 5 ++
  finish 0 (Push 10) 2 ++ finish 1 Pop 5 ++ finish 1 Pop 1.

Definition s1 : config (sc 4) C :=
  default (boot 4 true blank0) (play (sc 4) schedule (boot 4 true blank0)).

Lemma reach1 : reachable (sc 4) (boot 4 true blank0) s1.
Proof.
  apply (play_reachable (sc 4) schedule _ (boot 4 true blank0)); [constructor|].
  apply default_Some. vm_compute. reflexivity.
Defined.

Lemma initial1 : initial 4 true 0 (boot 4 true blank0).
Proof. constructor. exact blank0_ok. Defined.

Definition thread0 : thread C := default (Idle (C := C) HNoProducer []) (s1.2 !! 0%nat).
Definition thread1 : thread C := default (Idle (C := C) HNoProducer []) (s1.2 !! 1%nat).

Lemma thread0_in : s1.2 !! 0%nat = Some thread0.
Proof. apply default_Some. vm_compute. reflexivity. Defined.
Lemma thread1_in : s1.2 !! 1%nat = Some thread1.
Proof. apply default_Some. vm_compute. reflexivity. Defined.

(** 8 was lost with the first producer; 9 took its place. *)
Lemma lossless_fifo_witness :
  received 4 true 0 (calls_of thread1).2 = [(0%nat, 7); (1%nat, 9)] ∧
  sent 4 true 0 (calls_of thread0).1 (calls_of thread0).2 !! 1%nat = Some 9.
Proof.
  split; [vm_compute; reflexivity|].
  apply (lossless_fifo 4 four_ok true 0 _ s1 thread0 thread1 1 9 initial1 reach1
           thread0_in thread1_in).
  replace (received 4 true 0 (calls_of thread1).2) with [(0%nat, 7); (1%nat, 9)]
    by (vm_compute; reflexivity).
  apply list_elem_of_further, list_elem_of_singleton. reflexivity.
Defined.

Lemma lossless_window_witness :
  head (chan s1.1) = 2 ∧ tail (chan s1.1) = 2 ∧ tail (chan s1.1) ≤ head (chan s1.1) + 4.
Proof.
  destruct (lossless_window 4 four_ok true 0 _ s1 thread0 initial1 reach1 thread0_in)
    as (_ & _ & H & _).
  split; [vm_compute; reflexivity|]. split; [vm_compute; reflexivity|]. exact H.
Defined.

(** *** Two threads of one process *)

#[local] Notation L := (lossless (T := Z) 4 false).

Lemma initial0 : initial 4 false 0 (start 4 false p0 c0 w0).
Proof. apply (initial_start 4 false p0 c0 w0). split; [apply rep0|done..]. Defined.

(** The producer pushes 7 and publishes it; while it pushes 8 (the write has
    begun), the consumer pops. *)
Definition schedule2 : list (move L) :=
  let push v := Start (C := L) 0 (Push v) in
  [push 7; Go 0; Go 0; Go 0; Go 0; Start (C := L) 0 Sync; Go 0; Go 0;
   push 8; Go 0; Go 0; Start (C := L) 1 Pop; Go 1; Go 1; Go 1; Go 0; Go 1; Go 1].

Definition s2 : config (sc 4) L :=
  default (start 4 false p0 c0 w0) (play (sc 4) (take 13 schedule2) (start 4 false p0 c0 w0)).

Definition s3 : config (sc 4) L :=
  default (start 4 false p0 c0 w0) (play (sc 4) schedule2 (start 4 false p0 c0 w0)).

Lemma reach2 : reachable (sc 4) (start 4 false p0 c0 w0) s2.
Proof.
  apply (play_reachable (sc 4) (take 13 schedule2) _ (start 4 false p0 c0 w0)); [constructor|].
  apply default_Some. vm_compute. reflexivity.
Defined.

Lemma reach3 : reachable (sc 4) (start 4 false p0 c0 w0) s3.
Proof.
  apply (play_reachable (sc 4) schedule2 _ (start 4 false p0 c0 w0)); [constructor|].
  apply default_Some. vm_compute. reflexivity.
Defined.

Definition thread2 : thread L := default (Idle (C := L) HNoProducer []) (s2.2 !! 1%nat).
Definition thread30 : thread L := default (Idle (C := L) HNoProducer []) (s3.2 !! 0%nat).
Definition thread31 : thread L := default (Idle (C := L) HNoProducer []) (s3.2 !! 1%nat).

Lemma thread2_in : s2.2 !! 1%nat = Some thread2.
Proof. apply default_Some. vm_compute. reflexivity. Defined.
Lemma thread30_in : s3.2 !! 0%nat = Some thread30.
Proof. apply default_Some. vm_compute. reflexivity. Defined.
Lemma thread31_in : s3.2 !! 1%nat = Some thread31.
Proof. apply default_Some. vm_compute. reflexivity. Defined.

Lemma lossless_pop_prefix_witness :
  (received 4 false 0 (calls_of thread31).2).*2 = [7] ∧
  (received 4 false 0 (calls_of thread31).2).*2 `prefix_of`
    sent 4 false 0 (calls_of thread30).1 (calls_of thread30).2.
Proof.
  split; [vm_compute; reflexivity|].
  apply (lossless_pop_prefix 4 four_ok false 0 _ s3 thread30 thread31
           initial0 reach3 thread30_in thread31_in).
  replace (calls_of thread31).2 with
    [(Pop, AOption (Some 7)) : call L * answer L]
    by (vm_compute; reflexivity).
  repeat constructor.
Defined.

(** It is about to read cell 0 while the producer writes cell 1. *)
Lemma lossless_no_race_no_panic_witness :
  begun s2.1 1%nat = S (ended s2.1 1%nat) ∧
  match prog_of thread2 with
  | Some (Do a _) => race_free _ a s2.1 ∧ ∃ x w', act_step 4 a s2.1 x w'
  | _ => False
  end.
Proof.
  split; [vm_compute; reflexivity|].
  pose proof thread2_in as E.
  assert (Hb : match prog_of thread2 with Some (Do _ _) => true | _ => false end = true)
    by (vm_compute; reflexivity).
  destruct thread2 as [h hist|c m hist]; [discriminate Hb|].
  pose proof (lossless_no_race_no_panic 4 four_ok false 0 _ s2 1 c m hist initial0 reach2 E) as H.
  destruct m; [discriminate Hb|discriminate Hb|exact H].
Defined.

(** *** A release build at the end of the range *)

Section Release.
#[local] Existing Instance release_profile.

#[local] Notation R := (lossless (prof := release_profile) (T := Z) 4 false).






End Release.

(** ** Sequential runs *)

Definition commands : list (command Z) :=
  [CPop; CPush 10; CPush 11; CSync; CPop; CBatch [12; 13]; CPop; CPop; CPop; CPop].

Lemma lossless_refines_queue_witness :
  (q_exec_all 4 commands q1).2 =
    [RPop (Some 7); RPush (Ok tt); RPush (Ok tt); RSync; RPop (Some 8);
     RBatch (Err Full); RPop (Some 9); RPop (Some 10); RPop (Some 11); RPop None] ∧
  ∃ p' c' w',
    run 4 (exec_all 4 commands (p1, c1)) w1 = Done (p', c', (q_exec_all 4 commands q1).2) w' ∧
    represents 4 (q_exec_all 4 commands q1).1 p' c' w'.
Proof.
  split; [vm_compute; reflexivity|].
  apply (lossless_refines_queue 4 four_ok commands q1 p1 c1 w1 rep1). cbn. lia.
Defined.


Lemma lossless_run_conserves_witness :
  ∃ p' c' w' rs q',
    run 4 (exec_all 4 commands (p1, c1)) w1 = Done (p', c', rs) w' ∧
    represents 4 q' p' c' w' ∧
    contents q1 ++ all_accepted commands rs = all_delivered rs ++ contents q'.
Proof. apply (lossless_run_conserves 4 four_ok commands q1 p1 c1 w1 rep1). cbn. lia. Defined.

Lemma lossless_push_spec_witness :
  ∃ p' w', run 4 (push 4 p1 5) w1 = Done (p', Ok tt) w' ∧
           represents 4 (mkQueue [7; 8] [9; 5] 0) p' c1 w'.
Proof. apply (lossless_push_spec 4 four_ok q1 p1 c1 w1 5 rep1). cbn. lia. Defined.

Lemma lossless_drained_accepts_witness :
  (∃ p' w', run 4 (push 4 p2 5) w2 = Done (p', Ok tt) w') ∧
  (∃ r, run 4 (reserve 4 p2 4) w2 = Done (Ok r) w2).
Proof.
  apply (lossless_drained_accepts 4 four_ok (mkQueue [] [] 0) p2 c2 w2 5 4 rep2);
    [cbn; lia|reflexivity|reflexivity|vm_compute; split; [reflexivity|discriminate]].
Defined.

Lemma write_all_equals_write_each_witness :
  ∃ r' w3 w4,
    run 4 (write_all 4 r2 [1; 2; 3]) w2 = Done r' w3 ∧
    run 4 (write_each 4 r2 [1; 2; 3]) w2 = Done r' w4 ∧
    chan w3 = chan w4 ∧ reserved 4 (mkQueue [] [] 0) r' [1; 2; 3] c2 w3.
Proof.
  apply (write_all_equals_write_each 4 four_ok (mkQueue [] [] 0) r2 [] c2 w2 [1; 2; 3] res2);
    cbn; lia.
Defined.

Lemma reservation_overflow_panics_witness :
  ∃ msg, run 4 (write_all 4 r1 [1; 2]) w1 = Panicked (ExplicitPanic msg) w1.
Proof.
  apply (reservation_overflow_panics 4 q1 r1 [] c1 w1 0 [1; 2] res1); cbn; lia.
Defined.

(** Three cells, five items: the item 4 is dropped. *)
Lemma write_iter_takes_one_more_witness :
  ∃ r' w', run 4 (write_iter 4 list_next r2 [1; 2; 3; 4; 5]) w2 = Done (r', [5], 3) w' ∧
           reserved 4 (mkQueue [] [] 0) r' [1; 2; 3] c2 w' ∧
           last (dropped w') = Some 4.
Proof.
  destruct (write_iter_takes_one_more 4 four_ok (mkQueue [] [] 0) r2 [] c2 w2
              [1; 2; 3; 4; 5] res2 ltac:(cbn; lia)) as (r' & w' & E & R & Hd).
  exists r', w'. split_and!; [exact E|exact R|]. by apply Hd.
Defined.

Lemma commit_publishes_bursts_witness :
  ∃ p' w', run 4 (commit 4 r1) w1 = Done p' w' ∧
           represents 4 (mkQueue [7; 8; 9] [] 0) p' c1 w'.
Proof. apply (commit_publishes_bursts 4 four_ok q1 r1 [] c1 w1 res1). cbn. lia. Defined.

(** ** Joining, lifetime, heartbeats *)

Lemma lossless_pair_makes_empty_queue_witness :
  ∃ p c w, run 4 (lossless_pair 4 128) (new_uninit_zeroed 4 0) = Done (p, c) w ∧
    represents 4 (mkQueue [] [] 0) p c w ∧ startable 4 p c w ∧
    strong w = 2 ∧ freed w = false ∧ dropped w = [].
Proof. apply (lossless_pair_makes_empty_queue 4 four_ok 0 128); [reflexivity|lia]. Defined.

Lemma lossless_pair_lifetime_witness :
  ∃ w', run 4 (drop_handles [inr c0; inl p0]) w0 = Done tt w' ∧ freed w' = true ∧
        dropped w' = [0; 0; 0; 0].
Proof.
  apply (lossless_pair_lifetime 4 0 128 p0 c0 w0 [inr c0; inl p0] fresh0). constructor.
Defined.

Lemma lossless_join_or_initialize_cases_witness :
  run 4 (join_or_initialize_in_ ShmemMode 4 128) w1 =
  Done (Ok (mkProducer 128 8 0 0)) (do_store 4 PRODUCER_HEARTBEAT 1 w1).
Proof.
  apply (lossless_join_or_initialize_cases 4 four_ok ShmemMode 128 w1);
    [reflexivity|lia|reflexivity].
Defined.

Lemma lossless_consumer_join_cases_witness :
  run 4 (join ShmemMode 4 128) w1 = Done (Ok (mkConsumer 128 8 0 0 0)) (do_store 4 HEAD 8 w1).
Proof.
  apply (lossless_consumer_join_cases 4 four_ok ShmemMode 128 w1); reflexivity.
Defined.

Lemma lossless_join_rejects_witness :
  ∃ msg,
    run 6 (join_or_initialize_in_ ShmemMode 6 128) w0 = Panicked (AssertFailed msg) w0 ∧
    run 6 (join_ ShmemMode 6 128) w0 = Panicked (AssertFailed msg) w0 ∧
    run 6 (join ShmemMode 6 128) w0 = Panicked (AssertFailed msg) w0.
Proof. apply (lossless_join_rejects 6 ShmemMode 128 w0). left. reflexivity. Defined.

Lemma heartbeat_detects_beats_witness :
  ∃ p' w', run 4 (_ ← beats 2 c0; consumer_heartbeat p0) w0 = Done (p', true) w' ∧
           run 4 (consumer_heartbeat p') w' = Done (p', false) w'.
Proof.
  apply (heartbeat_detects_beats 4 2 p0 c0 w0); [reflexivity|split; cbn; lia|cbn; lia|reflexivity].
Defined.

(** ** Limits *)

(** A headless producer left [tail] at 8 and [head] at 0. *)
Definition w3 : World Z :=
  at_rest (mkChannel 8 0 0 0 (replicate 112 0) 4 MAGIC [5; 6; 7; 8]) 2.


Lemma push_drops_overwritten_witness :
  ∃ p' w' u, run 4 (push 4 p1 5) w1 = Done (p', Ok tt) w' ∧
    buffer (chan w1) !! 1%nat = Some u ∧ dropped w' = [u].
Proof.
  apply (push_drops_overwritten 4 four_ok q1 p1 c1 w1 5 rep1); cbn; unfold q_used; cbn; lia.
Defined.
