(* ===== verification/WeakWitnesses.v ===== *)
(** * Release/acquire memory: concrete instances

    The theorems of [WeakTheorems] on a concrete schedule, in which both
    threads see old values of the counters. *)

From S2P Require Import Prelude.
From S2P Require Import Rust.
From S2P Require Import Ring.
From S2P Require Import Errors.
From S2P Require Import Channel.
From S2P Require Import Join.
From S2P Require Import Concurrency.
From S2P Require Import WeakMemory.
From S2P Require Import LosslessProducer.
From S2P Require Import LosslessConsumer.
From S2P Require Import LosslessQueue.
From S2P Require Import LosslessReservation.
From S2P Require Import LosslessInterface.
From S2P Require Import LosslessTheorems.
From S2P Require Import WeakTheorems.
From S2P Require Import LosslessWitnesses.

#[local] Existing Instance debug_profile.

#[local] Notation L := (lossless (T := Z) 4 false).

Lemma weak_startable : startable 4 p0 c0 w0.
Proof. split; [apply rep0|done..]. Defined.

Definition weak_finish (i : nat) (c : call L) (n : nat) : list (move L) :=
  Start (C := L) i c :: replicate n (Go i).

(** 7 and 8 are published one after the other.  The consumer sees the first
    publication only: it pops 7, which gives the cell back, and then finds
    nothing.  The producer does not see that, and pushes 9.  The consumer
    sees the second publication and is about to read 8 while 10 is being
    written. *)
Definition weak_schedule : list (move L) :=
  weak_finish 0 (Push 7) 4 ++ weak_finish 0 Sync 2 ++
  weak_finish 0 (Push 8) 4 ++ weak_finish 0 Sync 2 ++
  [Start (C := L) 1 Pop; Pick 1 1] ++ replicate 4 (Go 1) ++
  [Start (C := L) 1 Pop; Pick 1 1; Go 1] ++
  [Start (C := L) 0 (Push 9); Pick 0 0] ++ replicate 3 (Go 0) ++
  [Start (C := L) 1 Pop; Pick 1 2] ++ [Start (C := L) 0 (Push 10); Go 0; Go 0].

Definition weak_state : config (weak 4) L :=
  default (weak_start 4 p0 c0 w0) (play (weak 4) weak_schedule (weak_start 4 p0 c0 w0)).

Lemma weak_reach : reachable (weak 4) (weak_start 4 p0 c0 w0) weak_state.
Proof.
  apply (play_reachable (weak 4) weak_schedule _ (weak_start 4 p0 c0 w0)); [constructor|].
  apply default_Some. vm_compute. reflexivity.
Defined.

Definition weak_thread0 : thread L := default (Idle (C := L) HNoProducer []) (weak_state.2 !! 0%nat).
Definition weak_thread1 : thread L := default (Idle (C := L) HNoProducer []) (weak_state.2 !! 1%nat).

Lemma weak_thread0_in : weak_state.2 !! 0%nat = Some weak_thread0.
Proof. apply default_Some. vm_compute. reflexivity. Defined.
Lemma weak_thread1_in : weak_state.2 !! 1%nat = Some weak_thread1.
Proof. apply default_Some. vm_compute. reflexivity. Defined.

Lemma lossless_weak_fifo_witness :
  (calls_of weak_thread1).2 = [(Pop, AOption (Some 7)); (Pop, AOption None)] ∧
  sent 4 false 0 (calls_of weak_thread0).1 (calls_of weak_thread0).2 !! 0%nat = Some 7.
Proof.
  split; [vm_compute; reflexivity|].
  apply (lossless_weak_fifo 4 four_ok p0 c0 w0 weak_state weak_thread0 weak_thread1 0 7
           weak_startable weak_reach weak_thread0_in weak_thread1_in).
  replace (calls_of weak_thread1).2 with
    [(Pop, AOption (Some 7)) : call L * answer L; (Pop, AOption None)] by (vm_compute; reflexivity).
  apply list_elem_of_singleton. reflexivity.
Defined.

(** The producer has begun to write cell 3, the consumer is about to begin to
    read cell 1. *)
Lemma lossless_weak_race_free_witness :
  writes weak_state.1 3%nat = 1%nat ∧
  match prog_of weak_thread1 with
  | Some (Do a _) => weak_race_free 1 _ a weak_state.1 ∧
                     ∃ x (w' : Weak Z), weak_step 4 1 a weak_state.1 x w'
  | _ => False
  end.
Proof.
  split; [vm_compute; reflexivity|].
  pose proof weak_thread1_in as E.
  assert (Hb : match prog_of weak_thread1 with Some (Do _ _) => true | _ => false end = true)
    by (vm_compute; reflexivity).
  destruct weak_thread1 as [h hist|c m hist]; [discriminate Hb|].
  pose proof (lossless_weak_race_free 4 four_ok p0 c0 w0 weak_state 1 c m hist
                weak_startable weak_reach E) as H.
  destruct m; [discriminate Hb|discriminate Hb|exact H].
Defined.
