(* ===== verification/LifetimeWitnesses.v ===== *)
(** * Dropping handles: concrete instances

    The theorems of [LifetimeTheorems] on executions that drop every handle,
    the producer's first, in the middle of another thread's call. *)

From S2P Require Import Prelude.
From S2P Require Import Rust.
From S2P Require Import Channel.
From S2P Require Import Concurrency.
From S2P Require Import Lifetime.
From S2P Require Import LosslessProducer.
From S2P Require Import LosslessConsumer.
From S2P Require Import LosslessInterface.
From S2P Require Import LosslessLifetime.
From S2P Require Import LosslessPair.
From S2P Require Import HeadlessProducer.
From S2P Require Import HeadlessConsumer.
From S2P Require Import HeadlessInterface.
From S2P Require Import HeadlessLifetime.
From S2P Require Import HeadlessPair.
From S2P Require Import HeadlessTheorems.
From S2P Require Import LifetimeTheorems.

#[local] Existing Instance debug_profile.

Definition world_made {A} (o : outcome Z A) : World Z :=
  match o with Done _ w => w | _ => world_of (zeroed_channel 0 4) end.

(** ** The lossless channel *)

#[local] Notation L := (droppable (lossless (T := Z) 4 false) lossless_drop).

Definition pair_world : World Z :=
  world_made (run 4 (lossless_pair 4 128) (LosslessPair.new_uninit_zeroed 4 0)).
Definition pair_p : LosslessProducer.Producer := LosslessProducer.mkProducer 128 0 0 0.
Definition pair_c : LosslessConsumer.Consumer := LosslessConsumer.mkConsumer 128 0 0 0 0.

Definition pair_start : config (sc 4) L :=
  droppable_start 4 (lossless 4 false) lossless_drop pair_world
    [LosslessInterface.HProducer pair_p; LosslessInterface.HConsumer pair_c].

(** 69 is pushed and published; the consumer begins to pop, the producer is
    dropped, the pop goes on, and the consumer is dropped. *)
Definition pair_moves : list (move L) :=
  (Start (C := L) 0 (Some (LosslessInterface.Push 69)) :: replicate 4 (Go 0)) ++
  (Start (C := L) 0 (Some LosslessInterface.Sync) :: replicate 2 (Go 0)) ++
  [Start (C := L) 1 (Some LosslessInterface.Pop); Go 1;
   Start (C := L) 0 None; Go 0; Go 0] ++ replicate 4 (Go 1) ++
  [Start (C := L) 1 None; Go 1; Go 1].

Definition pair_end : config (sc 4) L := default pair_start (play (sc 4) pair_moves pair_start).

Lemma pair_reached : reachable (sc 4) pair_start pair_end.
Proof.
  apply (play_reachable (sc 4) pair_moves _ pair_start); [constructor|].
  apply default_Some. vm_compute. reflexivity.
Qed.

Definition pair_thread (i : nat) : thread L :=
  default (Idle (C := L) None []) (pair_end.2 !! i).

Lemma pair_threads :
  pair_end.2 !! 0%nat = Some (pair_thread 0) ∧ pair_end.2 !! 1%nat = Some (pair_thread 1).
Proof. split; apply default_Some; vm_compute; reflexivity. Qed.

Lemma lossless_drops_any_time_witness :
  freed pair_end.1 = true ∧ dropped pair_end.1 = [0; 69; 0; 0; 0] ∧
  shares pair_end.2 = 0 ∧
  sent 4 false 0 (current (calls_of (pair_thread 0)).1) (used (calls_of (pair_thread 0)).2) !! 0%nat =
    Some 69.
Proof.
  assert (E : run 4 (lossless_pair 4 128) (LosslessPair.new_uninit_zeroed 4 0) =
    Done (pair_p, pair_c) pair_world) by (vm_compute; reflexivity).
  destruct (lossless_drops_any_time 4 (conj eq_refl eq_refl) 0 128 pair_p pair_c pair_world pair_end
    eq_refl ltac:(lia) E pair_reached) as (_ & Hf & _ & Hr).
  assert (Ef : freed pair_end.1 = true) by (vm_compute; reflexivity).
  rewrite Ef in Hf. symmetry in Hf. apply bool_decide_eq_true in Hf.
  split; [exact Ef|]. split; [vm_compute; reflexivity|]. split; [exact Hf|].
  apply (Hr (pair_thread 0) (pair_thread 1) 0%nat 69 (proj1 pair_threads) (proj2 pair_threads)).
  replace (received 4 false 0 (used (calls_of (pair_thread 1)).2)) with [(0%nat, 69)]
    by (vm_compute; reflexivity).
  apply list_elem_of_singleton. reflexivity.
Defined.

(** ** The headless channel *)

#[local] Notation role := (group_role 2).
#[local] Notation H := (droppable (headless (T := Z) 4 false role) headless_drop).

Definition drops_world : World Z :=
  world_made (run 4 (headless_multi 4 128 2) (HeadlessPair.new_uninit_zeroed 4 0)).
Definition group_p : HeadlessProducer.Producer := HeadlessProducer.mkProducer 128 0 0 0.
Definition group_cs : list HeadlessConsumer.Consumer :=
  [HeadlessConsumer.mkConsumer 128 0 2 0 0; HeadlessConsumer.mkConsumer 128 1 2 1 0].

Definition drops_start : config (sc 4) H :=
  droppable_start 4 (headless 4 false role) headless_drop drops_world
    (HProducer group_p :: (HConsumer <$> group_cs)).

(** 69 is pushed and published; consumer 1 is dropped at once; consumer 0
    begins to pop, the producer is dropped, the pop goes on, and consumer 0 is
    dropped. *)
Definition drops_moves : list (move H) :=
  (Start (C := H) 0 (Some (Push 69)) :: replicate 3 (Go 0)) ++
  (Start (C := H) 0 (Some Sync) :: replicate 2 (Go 0)) ++
  [Start (C := H) 2 None; Go 2; Go 2; Start (C := H) 1 (Some (Pop 1)); Go 1;
   Start (C := H) 0 None; Go 0; Go 0] ++ replicate 4 (Go 1) ++
  [Start (C := H) 1 None; Go 1; Go 1].

Definition drops_end : config (sc 4) H :=
  default drops_start (play (sc 4) drops_moves drops_start).
Definition drops_thread (i : nat) : thread H :=
  default (Idle (C := H) None []) (drops_end.2 !! i).

Lemma drops_reached : reachable (sc 4) drops_start drops_end.
Proof.
  apply (play_reachable (sc 4) drops_moves _ drops_start); [constructor|].
  apply default_Some. vm_compute. reflexivity.
Qed.

Lemma drops_threads :
  drops_end.2 !! 0%nat = Some (drops_thread 0) ∧ drops_end.2 !! 1%nat = Some (drops_thread 1).
Proof. split; apply default_Some; vm_compute; reflexivity. Qed.

Lemma headless_drops_any_time_witness :
  freed drops_end.1 = true ∧ shares drops_end.2 = 0 ∧
  ∃ its, itinerary 4 0 0 2 (tail (chan drops_end.1)) its ∧
    popped_from 0 [69] its [(0, [69])].
Proof.
  assert (E : run 4 (headless_multi 4 128 2) (HeadlessPair.new_uninit_zeroed 4 0) =
    Done (group_p, group_cs) drops_world) by (vm_compute; reflexivity).
  destruct (headless_drops_any_time 4 (conj eq_refl eq_refl) 2 ltac:(lia) eq_refl 0 128 group_p group_cs
    drops_world drops_end eq_refl ltac:(lia) E drops_reached) as (_ & Hf & _ & Hr).
  assert (Ef : freed drops_end.1 = true) by (vm_compute; reflexivity).
  rewrite Ef in Hf. symmetry in Hf. apply bool_decide_eq_true in Hf.
  split; [exact Ef|]. split; [exact Hf|].
  destruct (Hr (drops_thread 0) (drops_thread 1) 0%nat (proj1 drops_threads) (proj2 drops_threads)
    ltac:(lia)) as (its & Hits & Hpop).
  exists its. split; [exact Hits|].
  replace [69] with (pushed 4 false role 0 (used (calls_of (drops_thread 0)).2)) at 1
    by (vm_compute; reflexivity).
  replace [(0, [69])] with (sessions 4 false role [(Z.of_nat 0, [])] (used (calls_of (drops_thread 1)).2))
    by (vm_compute; reflexivity).
  exact Hpop.
Defined.
