(* ===== verification/ClientWitnesses.v ===== *)
(** * Programs that use the lossless channel: concrete instances

    The theorems of [ClientTheorems] on executions of the programs: the loom
    tests from beginning to end, and the examples part of the way. *)

From S2P Require Import Prelude.
From S2P Require Import Rust.
From S2P Require Import Ring.
From S2P Require Import Errors.
From S2P Require Import Channel.
From S2P Require Import Join.
From S2P Require Import PageSize.
From S2P Require Import Concurrency.
From S2P Require Import WeakMemory.
From S2P Require Import Clients.
From S2P Require Import LosslessProducer.
From S2P Require Import LosslessConsumer.
From S2P Require Import LosslessQueue.
From S2P Require Import LosslessInterface.
From S2P Require Import LosslessClients.
From S2P Require Import LosslessClientLogic.
From S2P Require Import Interprocess.
From S2P Require Import LosslessTheorems.
From S2P Require Import WeakTheorems.
From S2P Require Import ClientTheorems.
From ITree Require Import Core.ITreeDefinition.

#[local] Existing Instance debug_profile.

#[export] Instance interface_call_eq_dec {T} `{EqDecision T} N shared :
  EqDecision (call (lossless (T := T) N shared)) := lossless_call_eq_dec.

(** ** The loom tests *)

Section Loom.
Context (N : Z).
#[local] Notation C := (lossless (T := Z) N false).

(** A test at address 128, with its two handles. *)
Definition test_world : World Z :=
  world_of (mkChannel 0 0 0 0 (replicate 112 0) N MAGIC (replicate (Z.to_nat N) 0)).

Definition test_start : config (weak N) C :=
  weak_start N (mkProducer 128 0 0 0) (mkConsumer 128 0 0 0 0) test_world.

(** Calls of thread [i], with the number of their steps, one after the other. *)
Definition calls (i : nat) (cs : list (call C * nat)) : list (move C) :=
  cs ≫= fun cn => Start (C := C) i cn.1 :: replicate cn.2 (Go i).

(** The producer's pushes and its sync; and pops of the consumer, of which
    those that give cells back take one step more. *)
Definition pushes (vs : list Z) : list (move C) :=
  calls 0 (((fun v => (Push v, 4%nat)) <$> vs) ++ [(Sync, 2%nat)]).

Definition pops (steps : list nat) : list (move C) := calls 1 ((fun n => (Pop, n)) <$> steps).

Context (schedule : list (move C)).

Definition test_state : config (weak N) C :=
  default test_start (play (weak N) schedule test_start).

Definition test_thread (i : nat) : thread C :=
  default (Idle (C := C) HNoProducer []) (test_state.2 !! i).

(** Evaluates whether both threads exist, and the schedule is one. *)
Definition test_played : bool :=
  match play (weak N) schedule test_start with
  | Some s => bool_decide (length s.2 = 2%nat)
  | None => false
  end.

Lemma test_reached : test_played = true → reachable (weak N) test_start test_state.
Proof.
  unfold test_played, test_state. intros H.
  destruct (play (weak N) schedule test_start) as [s|] eqn:E; [|discriminate H].
  apply (play_reachable (weak N) schedule _ test_start); [constructor|exact E].
Qed.

Lemma test_threads i : test_played = true → (i < 2)%nat →
  test_state.2 !! i = Some (test_thread i).
Proof.
  unfold test_played, test_thread, test_state. intros H Hi.
  destruct (play (weak N) schedule test_start) as [s|]; [|discriminate H].
  apply bool_decide_eq_true in H. cbn.
  apply default_Some. destruct (lookup_lt_is_Some_2 s.2 i) as [th E]; [by rewrite H|].
  exact (f_equal (fun o : option (thread C) => if o then true else false) E).
Qed.

End Loom.

Lemma test_ready N :
  N = 4 ∨ N = 8 ∨ N = 16 →
  loom_ready N 128 (mkProducer 128 0 0 0) (mkConsumer 128 0 0 0 0) (test_world N).
Proof.
  intros [->|[->| ->]]; (eexists; split_and!; [reflexivity|lia|vm_compute; reflexivity]).
Qed.

(** All ten values are pushed, in two batches, and then popped. *)
Definition batched : list (move (lossless (T := Z) 16 false)) :=
  pushes 16 (seqZ 0 5) ++ pops 16 [4; 4]%nat ++ pushes 16 (seqZ 5 5) ++
  pops 16 [4; 5; 4; 4; 4; 5; 4; 4]%nat.

Lemma loom_lossless_batched_pushes_witness :
  ends_well (fun _ => False) (fun got => got = seqZ 0 10)
    (left_of 400 batched_pushes_consumer (test_thread 16 batched 1)) ∧
  result_of (left_of 400 batched_pushes_consumer (test_thread 16 batched 1)) = Some (seqZ 0 10).
Proof.
  assert (H : test_played 16 batched = true) by (vm_compute; reflexivity).
  assert (Hp : made 400 batched_pushes_producer (test_thread 16 batched 0) = true) by (vm_compute; reflexivity).
  assert (Hc : made 400 batched_pushes_consumer (test_thread 16 batched 1) = true) by (vm_compute; reflexivity).
  split; [|vm_compute; reflexivity].
  exact (proj2 (loom_lossless_batched_pushes 128 _ _ _ _ _ _ _ _
    (test_ready 16 ltac:(lia)) (test_reached _ _ H)
    (test_threads _ _ 0 H ltac:(lia)) (test_threads _ _ 1 H ltac:(lia))
    (made_runs _ _ _ _ Hp) (made_follows _ _ _ _ Hp) (made_follows _ _ _ _ Hc))).
Defined.

(** The channel is filled, drained and filled again. *)
Definition refill : list (move (lossless (T := Z) 4 false)) :=
  pushes 4 [0; 1; 2] ++ pops 4 [5; 5; 5]%nat ++ pushes 4 [3; 4; 5] ++ pops 4 [5; 5; 5]%nat.

Lemma loom_lossless_fill_drain_refill_witness :
  ends_well (fun _ => False) (fun got => got = seqZ 0 6)
    (left_of 400 fill_drain_refill_consumer (test_thread 4 refill 1)) ∧
  result_of (left_of 400 fill_drain_refill_consumer (test_thread 4 refill 1)) = Some (seqZ 0 6).
Proof.
  assert (H : test_played 4 refill = true) by (vm_compute; reflexivity).
  assert (Hp : made 400 fill_drain_refill_producer (test_thread 4 refill 0) = true) by (vm_compute; reflexivity).
  assert (Hc : made 400 fill_drain_refill_consumer (test_thread 4 refill 1) = true) by (vm_compute; reflexivity).
  split; [|vm_compute; reflexivity].
  exact (proj2 (loom_lossless_fill_drain_refill 128 _ _ _ _ _ _ _ _
    (test_ready 4 ltac:(lia)) (test_reached _ _ H)
    (test_threads _ _ 0 H ltac:(lia)) (test_threads _ _ 1 H ltac:(lia))
    (made_runs _ _ _ _ Hp) (made_follows _ _ _ _ Hp) (made_follows _ _ _ _ Hc))).
Defined.

(** Eight pops find nothing, and the program ends. *)
Definition eight_pops : list (move (lossless (T := Z) 8 false)) := pops 8 (replicate 8 2%nat).

Lemma loom_lossless_no_false_some_on_empty_witness :
  ends_well (fun _ => False) (fun _ => True) (left_of 400 no_false_some_consumer (test_thread 8 eight_pops 1)) ∧
  result_of (left_of 400 no_false_some_consumer (test_thread 8 eight_pops 1)) = Some tt.
Proof.
  assert (H : test_played 8 eight_pops = true) by (vm_compute; reflexivity).
  assert (Hp : made 400 no_false_some_producer (test_thread 8 eight_pops 0) = true) by (vm_compute; reflexivity).
  assert (Hc : made 400 no_false_some_consumer (test_thread 8 eight_pops 1) = true) by (vm_compute; reflexivity).
  split; [|vm_compute; reflexivity].
  exact (loom_lossless_no_false_some_on_empty 128 _ _ _ _ _ _ _
    (test_ready 8 ltac:(lia)) (test_reached _ _ H)
    (test_threads _ _ 0 H ltac:(lia)) (test_threads _ _ 1 H ltac:(lia))
    (made_runs _ _ _ _ Hp) (made_follows _ _ _ _ Hc)).
Defined.

(** ** The example *)

#[local] Notation E := (lossless (T := Z * Z) EXAMPLE_N false).

(** What [lossless_pair] makes at address 128. *)
Definition example_world : World (Z * Z) :=
  mkWorld (mkChannel 0 0 0 0 (replicate 112 0) EXAMPLE_N MAGIC (replicate 1024 (0, 0)))
    2 false [] (fun _ => None) (fun _ => 0%nat) (fun _ => 0%nat).

Definition example_p : Producer := mkProducer 128 0 0 0.
Definition example_c : Consumer := mkConsumer 128 0 0 0 0.

Definition example_start : config (sc EXAMPLE_N) E :=
  start EXAMPLE_N false example_p example_c example_world.

Lemma example_startable : startable EXAMPLE_N example_p example_c example_world.
Proof.
  apply (fresh_pair_startable EXAMPLE_N example_capacity (0, 0) 128
    (example_p, example_c)). split; reflexivity.
Qed.

(** The first message is due, sent and received. *)
Definition first_message : list (move E) :=
  (Start (C := E) 0 (Push (0, 1)) :: replicate 4 (Go 0)) ++
  (Start (C := E) 0 Sync :: replicate 2 (Go 0)) ++
  (Start (C := E) 1 Pop :: replicate 4 (Go 1)).

Definition example_state : config (sc EXAMPLE_N) E :=
  default example_start (play (sc EXAMPLE_N) first_message example_start).

Definition example_thread (i : nat) : thread E :=
  default (Idle (C := E) HNoProducer []) (example_state.2 !! i).

Lemma example_reached : reachable (sc EXAMPLE_N) example_start example_state.
Proof.
  apply (play_reachable (sc EXAMPLE_N) first_message _ example_start); [constructor|].
  apply default_Some. vm_compute. reflexivity.
Qed.

Lemma example_threads :
  example_state.2 !! 0%nat = Some (example_thread 0) ∧
  example_state.2 !! 1%nat = Some (example_thread 1).
Proof. split; apply default_Some; vm_compute; reflexivity. Qed.

Lemma example_delivers_witness :
  (calls_of (example_thread 1)).2 = [(Pop, AOption (Some (0, 1)))] ∧
  ends_well (fun _ => False)
    (fun _ => (received EXAMPLE_N false (p_tail example_p) (calls_of (example_thread 1)).2).*2 =
              ranges NUM_MSGS)
    (left_of 50 example_consumer (example_thread 1)).
Proof.
  split; [vm_compute; reflexivity|].
  assert (Hp : ∃ t', follows example_producer (calls_of (example_thread 0)).2 t').
  { eexists. eapply follows_ask with (X := bool) (x := true); [observed|].
    apply (made_follows E 50). vm_compute. reflexivity. }
  assert (Hi : (calls_of (example_thread 0)).1 = None) by (vm_compute; reflexivity).
  assert (Hc : made 50 example_consumer (example_thread 1) = true) by (vm_compute; reflexivity).
  destruct Hp as [t' Ht].
  exact (proj2 (example_delivers example_p example_c example_world example_state
    (example_thread 0) (example_thread 1) t' (left_of 50 example_consumer (example_thread 1))
    example_startable example_reached (proj1 example_threads) (proj2 example_threads)
    (runs_idle E example_producer t' (example_thread 0) Hi Ht) Ht
    (made_follows E 50 example_consumer (example_thread 1) Hc))).
Defined.

(** ** Two processes *)

#[local] Notation I := (lossless (T := Z) INTERPROCESS_N true).







Definition page_4096 : sysconf_result := Ok (Some 4096).





(** Where the acknowledgement has just been lost. *)
Lemma interprocess_ack_missed_witness :
  ∃ t' u', follows (producer_main page_4096) (calls_of missed_p).2 t' ∧
           follows consumer_main (calls_of missed_c).2 u' ∧
           ends_well producer_panics (fun _ => False) t' ∧
           ends_well consumer_panics (fun _ => False) u'.
Proof.
  assert (H : 0 < 4096 ≤ GIGANTIC) by (split; [lia|vm_compute; discriminate]).
  destruct (interprocess_ack_missed 4096 H page_4096 eq_refl) as (_ & H2 & H3).
  destruct (tw_produces _ _ _ _ _ H2) as (t' & Ht & _).
  destruct (tw_consumes _ _ _ _ _ H2) as (u' & Hu & _).
  exists t', u'. split; [exact Ht|]. split; [exact Hu|].
  exact (proj2 (proj2 (H3 missed missed_p missed_c t' u'
    (reachable_refl (sc INTERPROCESS_N) missed) H2 Ht Hu))).
Defined.
