(* ===== verification/HeadlessWitnesses.v ===== *)
(** * The headless channel: concrete instances

    The theorems of [HeadlessTheorems] applied to concrete channels of [Z]
    values and capacity 4 (of which three positions are readable). *)

From S2P Require Import Prelude.
From S2P Require Import Rust.
From S2P Require Import Ring.
From S2P Require Import Errors.
From S2P Require Import Channel.
From S2P Require Import Join.
From S2P Require Import Concurrency.
From S2P Require Import HeadlessProducer.
From S2P Require Import HeadlessConsumer.
From S2P Require Import HeadlessLog.
From S2P Require Import HeadlessRefinement.
From S2P Require Import HeadlessInterface.
From S2P Require Import Words.
From S2P Require Import HeadlessWords.
From S2P Require Import HeadlessConcurrent.
From S2P Require Import HeadlessPair.
From S2P Require Import HeadlessTheorems.

#[local] Existing Instance debug_profile.

Lemma headless_four_ok : capacity_ok 4.
Proof. by split. Defined.

Definition at_rest (c : Channel Z) (strong : Z) : World Z :=
  mkWorld c strong false [] (fun _ => None) (fun _ => 0%nat) (fun _ => 0%nat).

(** What [headless_multi] makes for two consumers. *)
Definition w0 : World Z :=
  at_rest (mkChannel 0 0 0 0 (replicate 112 0) 4 MAGIC [0; 0; 0; 0]) 3.
Definition p0 : Producer := mkProducer 128 0 0 0.
Definition ca : Consumer := mkConsumer 128 0 2 0 0.
Definition cb : Consumer := mkConsumer 128 1 2 1 0.

(** ** A schedule *)

(** The producer and two consumers are processes that share zeroed memory.
    The producer sets the channel up and pushes 69 to 71; the consumer of the
    even positions joins at 2.  The producer dies while it writes 72 to cell
    3, joins again, pushes 73 there, then 74, and begins to write 75 to the
    cell after.  The consumer pops 71 and dies while it pops 74; it joins
    again at 6, where there is nothing yet. *)
Definition blank0 : World Z :=
  at_rest (mkChannel 0 0 0 0 (replicate 112 0) 0 0 [0; 0; 0; 0]) 1.

Definition parity (i : nat) : Z * Z := (Z.of_nat (pred i) mod 2, 2).

Definition hs0 : list headless_handle := [HNoProducer; HNoConsumer 0 2; HNoConsumer 1 2].

Lemma parity_ok : roles_ok parity.
Proof. intros i. unfold parity. cbn. pose proof (Z.mod_pos_bound (Z.of_nat (pred i)) 2). lia. Defined.

Lemma headless_initial0 : initial 4 parity 0 blank0 hs0.
Proof.
  split; try done; try (cbn; lia).
  - right. by repeat constructor.
  - intros [|[|[|i]]] h Hi; [by injection Hi as <-..|done].
Defined.

#[local] Notation C := (headless (T := Z) 4 true parity).

Definition finish (i : nat) (c : call C) (n : nat) : list (move C) :=
  Start (C := C) i c :: replicate n (Go i).

Definition schedule : list (move C) :=
  finish 0 (JoinProducer 4096) 9 ++ finish 0 (Push 69) 3 ++ finish 0 (Push 70) 4 ++
  finish 0 (Push 71) 4 ++ finish 1 (JoinConsumer 8192) 5 ++
  finish 0 (Push 72) 2 ++ [Crash 0] ++ finish 0 (JoinProducer 12288) 6 ++
  finish 0 (Push 73) 3 ++ finish 0 (Push 74) 4 ++ finish 0 (Push 75) 2 ++
  finish 1 (Pop 1) 5 ++ finish 1 (Pop 1) 1 ++ [Crash 1] ++
  finish 1 (JoinConsumer 16384) 5 ++ finish 1 (Pop 1) 2.

Definition s1 : config (sc 4) C :=
  default (start 4 true parity blank0 hs0)
    (play (sc 4) schedule (start 4 true parity blank0 hs0)).

Lemma headless_reach1 : reachable (sc 4) (start 4 true parity blank0 hs0) s1.
Proof.
  apply (play_reachable (sc 4) schedule _ (start 4 true parity blank0 hs0)); [constructor|].
  apply default_Some. vm_compute. reflexivity.
Defined.

Definition thread0 : thread C := default (Idle (C := C) HNoProducer []) (s1.2 !! 0%nat).
Definition thread1 : thread C := default (Idle (C := C) HNoProducer []) (s1.2 !! 1%nat).

Lemma headless_thread0_in : s1.2 !! 0%nat = Some thread0.
Proof. apply default_Some. vm_compute. reflexivity. Defined.
Lemma headless_thread1_in : s1.2 !! 1%nat = Some thread1.
Proof. apply default_Some. vm_compute. reflexivity. Defined.

#[local] Notation sessions1 :=
  (sessions 4 true parity (openings hs0 1) (calls_of thread1).2).
#[local] Notation pushed0 := (pushed 4 true parity 0 (calls_of thread0).2).

(** 72 was lost with the producer; 74 was lost with the consumer. *)
Lemma headless_pops_what_was_pushed_witness :
  sessions1 = [(6, []); (2, [71])] ∧ pushed0 = [69; 70; 71; 73; 74] ∧
  ∃ its, itinerary 4 0 0 2 (tail (chan s1.1)) its ∧
    popped_from 0 pushed0 its sessions1 ∧
    (∀ j1 j2 k1 k2, (j1 < j2)%nat →
       positions its !! j1 = Some k1 → positions its !! j2 = Some k2 → k1 < k2) ∧
    Forall (fun it => Forall (fun k => 0 ≤ k < tail (chan s1.1) ∧ k mod 2 = 0) it.2) its.
Proof.
  split; [vm_compute; reflexivity|]. split; [vm_compute; reflexivity|].
  exact (headless_pops_what_was_pushed 4 headless_four_ok true parity parity_ok 0 blank0
           hs0 s1 thread0 thread1 0 headless_initial0 headless_reach1 headless_thread0_in headless_thread1_in).
Defined.


(** The producer is in the middle of a write. *)
Lemma headless_no_panic_witness :
  match prog_of thread0 with
  | Some (Do a _) => ∃ x w', act_step 4 a s1.1 x w'
  | _ => False
  end.
Proof.
  pose proof headless_thread0_in as E.
  assert (Hb : match prog_of thread0 with Some (Do _ _) => true | _ => false end = true)
    by (vm_compute; reflexivity).
  destruct thread0 as [h hist|c m hist]; [discriminate Hb|].
  pose proof (headless_no_panic 4 headless_four_ok true parity parity_ok 0 blank0 hs0 s1 0
                c m hist headless_initial0 headless_reach1 E) as H.
  destruct m; [discriminate Hb|discriminate Hb|exact H].
Defined.


(** ** Sequential runs *)

Definition commands : list (command Z) :=
  [CPush 69; CPush 70; CPop 0; CPush 71; CPush 72; CPush 73; CSync;
   CPop 0; CPop 1; CPop 0; CPop 1].

Definition log0 : Log Z * list Cursor := (mkLog [] 0, [mkCursor 0 2 0; mkCursor 1 2 1]).

Lemma sim0 : simulates 4 0 log0 (p0, [ca; cb]) w0.
Proof.
  split.
  - split; cbn; try done; unfold log_unsynced; cbn; try lia; try done.
  - repeat constructor; cbn; lia.
Defined.

Lemma headless_refines_log_witness :
  (log_exec_all 4 0 commands log0).2 =
    [None; None; Some 69; None; None; None; None; Some 71; Some 72; Some 73; None] ∧
  ∃ p' cs' w',
    run 4 (exec_all 4 commands (p0, [ca; cb])) w0 =
      Done (p', cs', Some <$> (log_exec_all 4 0 commands log0).2) w' ∧
    simulates 4 0 (log_exec_all 4 0 commands log0).1 (p', cs') w'.
Proof.
  split; [vm_compute; reflexivity|].
  apply (headless_refines_log 4 headless_four_ok 0 commands log0 p0 [ca; cb] w0 sim0). cbn. lia.
Defined.




(** Five values published, the consumer still at 0: it has been lapped. *)
Definition w1 : World Z :=
  at_rest (mkChannel 5 0 0 0 (replicate 112 0) 4 MAGIC [73; 70; 71; 72]) 3.

Lemma headless_pop_result_witness :
  ∃ v, run 4 (pop 4 2 ca) w1 = Done (with_head ca 4, Some (Some v)) w1 ∧
       buffer (chan w1) !! 2%nat = Some v.
Proof.
  apply (headless_pop_result 4 headless_four_ok ca w1 2).
  - split; cbn; done || lia.
  - split; cbn; done || lia.
  - unfold near. cbn. lia.
  - lia.
Defined.

Definition w2 : World Z :=
  at_rest (mkChannel 5 0 0 0 (replicate 112 0) 1 MAGIC [73]) 3.

Lemma headless_capacity_one_is_mute_witness :
  ∃ c', run 1 (pop 1 2 ca) w2 = Done (c', Some None) w2.
Proof.
  apply (headless_capacity_one_is_mute 1 (conj eq_refl eq_refl) ca w2); [reflexivity|..].
  - split; cbn; done || lia.
  - split; cbn; done || lia.
  - unfold near. cbn. lia.
Defined.

Lemma next_modulo_is_least_witness :
  ∃ x, next_modulo 7 1 3 = Val x ∧ x mod 3 = 1 ∧ 7 ≤ x < 10 ∧
       ∀ y, 7 ≤ y → y mod 3 = 1 → x ≤ y.
Proof. apply (next_modulo_is_least 7 1 3); lia. Defined.

(** ** Joining *)

Lemma headless_multi_makes_group_witness :
  ∃ (p : Producer) (cs : list Consumer) (w : World Z), run 4 (headless_multi 4 128 2) (new_uninit_zeroed 4 0) = Done (p, cs) w ∧
    initial 4 (group_role 2) 0 w (HProducer p :: (HConsumer <$> cs)) ∧
    roles_ok (group_role 2) ∧ strong w = 3 ∧ length cs = 2%nat ∧
    ((0 < 2)%nat → simulates 4 0 log0 (p, cs) w) ∧
    ∀ i, (i < 2)%nat → ∃ c, cs !! i = Some c ∧ c_head c = Z.of_nat i ∧
           c_consumer_index c = Z.of_nat i ∧ c_interval c = 2.
Proof.
  apply (headless_multi_makes_group 4 headless_four_ok 0 128 2); [reflexivity|lia|lia|lia].
Defined.

Lemma headless_join_cases_witness :
  run 4 (join_multi_ ShmemMode 4 128 0 2) w1 = Done (Ok (mkConsumer 128 6 2 0 0)) w1.
Proof.
  apply (headless_join_cases 4 headless_four_ok ShmemMode 128 0 2 w1);
    [reflexivity|reflexivity|lia|lia|cbn; lia|cbn; lia].
Defined.

(** ** Where the counters end *)

(** The consumer has read position [2 ^ 64 - 4] and reads it again. *)
Definition w_last : World Z :=
  at_rest (mkChannel (usize_lim - 1) 0 0 0 (replicate 112 0) 4 MAGIC [60; 61; 62; 63]) 2.
Definition c_last : Consumer := mkConsumer 128 (usize_lim - 3) 1 0 0.

Lemma headless_repeats_at_the_limit_witness :
  usize_lim - 4 < c_head c_last ∧
  ∃ v, run 4 (pop 4 2 c_last) w_last = Done (with_head c_last (usize_lim - 4 + 1), Some (Some v)) w_last.
Proof.
  destruct (headless_repeats_at_the_limit 4 headless_four_ok c_last w_last) as (H & v & E & _);
    try reflexivity; try lia.
  - split; vm_compute; [discriminate|reflexivity].
  - split; [exact H|]. exists v. exact E.
Defined.
