(* ===== verification/SystemWitnesses.v ===== *)
(** * Memory and system: concrete instances

    The theorems of [SystemTheorems] applied to a concrete element type
    (8 bytes, alignment 8), capacity and operating system: [tiny_os], which
    keeps the sizes of the named objects and the open descriptors. *)

From S2P Require Import Prelude.
From S2P Require Import Rust.
From S2P Require Import Ring.
From S2P Require Import Errors.
From S2P Require Import Channel.
From S2P Require Import Join.
From S2P Require Import Concurrency.
From S2P Require Import PageSize.
From S2P Require Import Layout.
From S2P Require Import Shmem.
From S2P Require Import LosslessProducer.
From S2P Require Import LosslessConsumer.
From S2P Require Import LosslessQueue.
From S2P Require Import LosslessPair.
From S2P Require Import LosslessConcurrent.
From S2P Require Import LosslessTheorems.
From S2P Require Import ShmemJoin.
From S2P Require Import Process.
From S2P Require Import Intraprocess.
From S2P Require Import SystemTheorems.

#[local] Existing Instance debug_profile.

(** ** An operating system *)

Record tiny : Type := mkTiny {
  t_objects : list (string * Z);
  t_fds : list (Z * string)
}.

Fixpoint find {A B} `{EqDecision A} (a : A) (l : list (A * B)) : option B :=
  match l with
  | [] => None
  | (a', b) :: l => if decide (a = a') then Some b else find a l
  end.

Definition forget {A B} `{EqDecision A} (a : A) (l : list (A * B)) : list (A * B) :=
  filter (fun e => e.1 ≠ a) l.

Definition tiny_open (name : string) (s : tiny) : result Z Errno * tiny :=
  let fd := Z.of_nat (length (t_fds s)) + 3 in
  let objects := match find name (t_objects s) with
                 | Some _ => t_objects s
                 | None => (name, 0) :: t_objects s
                 end in
  (Ok fd, mkTiny objects ((fd, name) :: t_fds s)).

#[local] Instance tiny_os : OS tiny := {|
  os_open := tiny_open;
  os_shm_open := tiny_open;
  os_fstat_size fd s :=
    match find fd (t_fds s) ≫= fun n => find n (t_objects s) with
    | Some n => Ok n
    | None => Err EBADF
    end;
  os_ftruncate fd n s :=
    match find fd (t_fds s) with
    | Some name => (Ok tt, mkTiny ((name, n) :: forget name (t_objects s)) (t_fds s))
    | None => (Err EBADF, s)
    end;
  os_mmap n flags fd s :=
    (match find fd (t_fds s) with Some _ => Ok 4096 | None => Err EBADF end, s);
  os_close fd s := mkTiny (t_objects s) (forget fd (t_fds s));
  os_munmap _ _ s := (0, s);
  os_unlink name s := (0, mkTiny (forget name (t_objects s)) (t_fds s));
  os_shm_unlink name s := (0, mkTiny (forget name (t_objects s)) (t_fds s))
|}.

Definition no_objects : tiny := mkTiny [] [].

(** ** Layout and sizes *)

Lemma channel_layout_witness :
  layout 8 8 16 = [0; 128; 256; 384; 512; 624; 632; 640] ∧
  640 + 16 * 8 ≤ size_of_channel 8 8 16.
Proof.
  destruct (channel_layout 8 8 16) as (H1 & H2 & _ & H4 & _); [lia|lia|lia|].
  split; [exact H1|exact H4].
Defined.

Lemma cells_inside_witness :
  4096 + 640 ≤ cell_address 8 8 4096 15 ∧
  cell_address 8 8 4096 15 + 8 ≤ 4096 + size_of_channel 8 8 16 ∧
  cell_address 8 8 4096 15 mod 8 = 0.
Proof. apply (cells_inside 8 8 16); [lia|lia|reflexivity|lia|reflexivity|lia]. Defined.

Lemma mem_size_is_least_multiple_witness :
  ∃ m, mem_size (Ok (Some 4096)) Huge 768 = Val m ∧ m mod HUGE = 0 ∧ 768 ≤ m < 768 + HUGE.
Proof.
  apply (mem_size_is_least_multiple 4096 Huge 768); [split; [lia|vm_compute; discriminate]|lia].
Defined.

(** ** Shared memory *)

Lemma open_or_create_closes_fd_witness :
  ∃ r s2, open_or_create "que" 4096 Standard no_objects = (Val r, os_close 3 s2) ∧
    match r with
    | Ok sh => s_fd sh = 3 ∧ s_size sh = 4096 ∧ s_id sh = "que"%string ∧
               s_page_size sh = Standard
    | Err e => e ≠ UnlinkError
    end.
Proof. exact (open_or_create_closes_fd "que" 4096 Standard no_objects eq_refl). Defined.

Definition one_object : tiny := mkTiny [("que"%string, 4096)] [].

Lemma open_existing_maps_as_is_witness :
  ∃ s2, open_or_create "que" 4096 Standard one_object =
    (Val (Ok (mkShmem "que" 4096 3 4096 Standard)), os_close 3 s2) ∧
    s2 = mkTiny [("que"%string, 4096)] [(3, "que"%string)].
Proof.
  exact (open_existing_maps_as_is "que" 4096 one_object 3
           (mkTiny [("que"%string, 4096)] [(3, "que"%string)]) eq_refl eq_refl eq_refl).
Defined.

Lemma close_results_witness :
  close (mkShmem "que" 4096 3 4096 Standard) one_object = (Val (Ok tt), no_objects).
Proof. exact (close_results (mkShmem "que" 4096 3 4096 Standard) one_object eq_refl). Defined.

Lemma open_channel_covers_witness :
  ∃ r s', open_channel (Ok (Some 4096)) 8 8 16 "que" Standard no_objects = (Val r, s') ∧
    match r with
    | Ok sh => size_of_channel 8 8 16 ≤ s_size sh ∧ s_size sh mod 4096 = 0 ∧
               s_page_size sh = Standard
    | Err e => ∃ e', e = QueShmemError e'
    end.
Proof.
  assert (H1 : 0 < 4096 ≤ GIGANTIC) by (split; [lia|vm_compute; discriminate]).
  assert (H2 : 0 ≤ size_of_channel 8 8 16 ≤ i64_max) by (vm_compute; split; discriminate).
  exact (open_channel_covers 4096 8 8 16 H1 "que" Standard no_objects eq_refl H2).
Defined.

(** ** Two processes *)

Definition fresh_object : World Z := world_of (zeroed_channel 0 4).

Lemma shmem_bootstrap_witness :
  ∃ p c w1 w2,
    run 4 (LosslessProducer.join_or_create_mapped 4 4096) fresh_object = Done (Ok p) w1 ∧
    run 4 (LosslessConsumer.join ShmemMode 4 8192) w1 = Done (Ok c) w2 ∧
    represents 4 (mkQueue [] [] 0) p c w2 ∧ startable 4 p c w2 ∧ freed w2 = false.
Proof.
  apply (shmem_bootstrap 4 (conj eq_refl eq_refl) fresh_object 4096 8192);
    [reflexivity|reflexivity|reflexivity|reflexivity|lia|reflexivity].
Defined.

(** ** One process *)

Definition new_objects (ps : PageSize) : World Z := world_of (zeroed_channel 0 1024).

Lemma intraprocess_completes_witness :
  ∃ objects', main (Ok (Some 4096)) 128 (no_objects, new_objects) =
              Some (Val tt, (no_objects, objects')).
Proof.
  assert (Hs : ∀ ps, served 4096 ps no_objects no_objects).
  { intros ps. destruct ps;
      (eexists _; split; [eexists _, _, _; split_and!;
        [vm_compute; reflexivity|discriminate|vm_compute; reflexivity|reflexivity]
        |vm_compute; reflexivity]). }
  assert (Hu : ∀ ps, usable INTRAPROCESS_N 1 (new_objects ps)).
  { intros ps. split; [reflexivity|reflexivity|left; split; reflexivity]. }
  apply (intraprocess_completes (Ok (Some 4096)) 4096 128 no_objects no_objects no_objects
           new_objects); [split; [lia|vm_compute; discriminate]|reflexivity|reflexivity|lia
    |apply Hs|apply Hs|apply Hu|apply Hu].
Defined.
