(* ===== verification/HeadlessClientWitnesses.v ===== *)
(** * Programs that use the headless channel: concrete instances

    The theorems of [HeadlessClientTheorems] on executions of the broadcast
    example and of the benchmark. *)

From Stdlib Require Import Strings.String.
From S2P Require Import Prelude.
From S2P Require Import Rust.
From S2P Require Import Ring.
From S2P Require Import Channel.
From S2P Require Import Concurrency.
From S2P Require Import Clients.
From S2P Require Import HeadlessProducer.
From S2P Require Import HeadlessConsumer.
From S2P Require Import HeadlessInterface.
From S2P Require Import HeadlessClients.
From S2P Require Import HeadlessPair.
From S2P Require Import HeadlessTheorems.
From S2P Require Import PageSize.
From S2P Require Import Shmem.
From S2P Require Import Process.
From S2P Require Import Benchmark.
From S2P Require Import HeadlessClientTheorems.
From S2P Require Import SystemWitnesses.
From ITree Require Import Core.ITreeDefinition.

#[local] Existing Instance debug_profile.
#[local] Existing Instance tiny_os.

#[export] Instance headless_interface_call_eq_dec {T} `{EqDecision T} N shared role :
  EqDecision (call (headless (T := T) N shared role)) := headless_call_eq_dec.

(** ** The broadcast example *)

#[local] Notation role := (group_role NUM_CONSUMERS).
#[local] Notation B := (headless (T := Z) BROADCAST_N false role).

(** What [headless_multi] makes at address 128. *)
Definition group_world : World Z :=
  match run BROADCAST_N (headless_multi BROADCAST_N 128 NUM_CONSUMERS)
      (new_uninit_zeroed BROADCAST_N 0) with
  | Done _ w => w
  | _ => new_uninit_zeroed BROADCAST_N 0
  end.
Definition group_p : Producer := mkProducer 128 0 0 0.
Definition group_cs : list Consumer :=
  (fun i => mkConsumer 128 (Z.of_nat i) 10 (Z.of_nat i) 0) <$> seq 0 NUM_CONSUMERS.

Lemma group_ready : broadcast_ready group_p group_cs group_world.
Proof. exists 128. split_and!; [done|lia|vm_compute; reflexivity]. Qed.

Definition group_start : config (sc BROADCAST_N) B :=
  broadcast_start group_p group_cs group_world.

(** Two messages are due and sent; consumer 1 pops. *)
Definition second_message : list (move B) :=
  (Start (C := B) 0 (Push 0) :: replicate 3 (Go 0)) ++
  (Start (C := B) 0 Sync :: replicate 2 (Go 0)) ++
  (Start (C := B) 0 (Push 1) :: replicate 3 (Go 0)) ++
  (Start (C := B) 0 Sync :: replicate 2 (Go 0)) ++
  (Start (C := B) 2 (Pop 1) :: replicate 5 (Go 2)).

Definition group_state : config (sc BROADCAST_N) B :=
  default group_start (play (sc BROADCAST_N) second_message group_start).

Definition group_thread (i : nat) : thread B :=
  default (Idle (C := B) HNoProducer []) (group_state.2 !! i).

Lemma group_reached : reachable (sc BROADCAST_N) group_start group_state.
Proof.
  apply (play_reachable (sc BROADCAST_N) second_message _ group_start); [constructor|].
  apply default_Some. vm_compute. reflexivity.
Qed.

Lemma group_threads :
  group_state.2 !! 0%nat = Some (group_thread 0) ∧ group_state.2 !! 2%nat = Some (group_thread 2).
Proof. split; apply default_Some; vm_compute; reflexivity. Qed.

Lemma group_idle i : i = 0%nat ∨ i = 2%nat → (calls_of (group_thread i)).1 = None.
Proof. intros [-> | ->]; vm_compute; reflexivity. Qed.

(** Makes the calls of a history, one event after the other; every question
    is answered [true]. *)
Ltac follow :=
  repeat first
    [ eapply follows_ask with (X := bool) (x := true); [observed|]
    | eapply follows_call; [observed|]
    | eapply follows_tau; [observed|] ].

Lemma group_producer : ∃ t', follows (broadcast_producer role) (calls_of (group_thread 0)).2 t'.
Proof.
  assert (E : (calls_of (group_thread 0)).2 =
    [(Push 0, AUnit); (Sync, AUnit); (Push 1, AUnit); (Sync, AUnit)]) by (vm_compute; reflexivity).
  rewrite E. eexists. follow. apply follows_nil.
Qed.

(** Consumer 1 panics at its first message. *)
Lemma broadcast_never_completes_witness :
  (calls_of (group_thread 2)).2 = [(Pop 1, APop (Some (Some 1)))] ∧
  ends_well assertion (fun _ => False) (left_of 50 (broadcast_consumer role) (group_thread 2)) ∧
  broadcast_keeps 1 None (calls_of (group_thread 2)).2.
Proof.
  split; [vm_compute; reflexivity|].
  destruct group_producer as [t' Ht].
  assert (Hc : made 50 (broadcast_consumer role) (group_thread 2) = true) by (vm_compute; reflexivity).
  exact (broadcast_never_completes group_p group_cs group_world group_state
    (group_thread 0) (group_thread 2) 1 _ group_ready ltac:(unfold NUM_CONSUMERS; lia)
    group_reached (proj1 group_threads) (proj2 group_threads)
    (runs_idle B _ t' _ (group_idle 0 (or_introl eq_refl)) Ht)
    (made_runs B 50 _ _ Hc) (made_follows B 50 _ _ Hc)).
Defined.

(** ** The benchmark *)

#[local] Notation M := (headless (T := Z) BENCH_N false bench_role).

(** The object is new. *)
Definition bench_objects (ps : PageSize) : World Z := new_uninit_zeroed BENCH_N 0.

Definition bench_os : tiny := mkTiny [("/mnt/hugepages/sh_bench"%string, 0)] [].

Lemma bench_is_served : bench_served (Ok (Some 4096)) 4096 no_objects bench_os bench_objects.
Proof.
  split; [split; [lia|vm_compute; discriminate]|reflexivity| |split; [reflexivity..|left; split; reflexivity]|reflexivity].
  eexists _, _. split; [vm_compute; reflexivity|].
  eexists _, _, _. split_and!; [vm_compute; reflexivity|discriminate|vm_compute; reflexivity|reflexivity].
Qed.

(** What the set-up makes. *)
Definition bench_set_up : option (res (Producer * Consumer) * state tiny Z) :=
  bench_ends (Ok (Some 4096)) (no_objects, bench_objects).
Definition bench_made : PageSize → World Z :=
  match bench_set_up with Some (_, (_, objects)) => objects | None => bench_objects end.
Definition bench_p : Producer := mkProducer 4096 0 0 0.
Definition bench_c : Consumer := mkConsumer 4096 0 1 0 0.

Lemma bench_set_up_done :
  bench_set_up = Some (Val (bench_p, bench_c), (bench_os, bench_made)).
Proof.
  destruct (bench_ends_spec (Ok (Some 4096)) 4096 no_objects bench_os bench_objects bench_is_served)
    as (p & c & objects & E & _).
  assert (H : option_map fst bench_set_up = Some (Val (bench_p, bench_c)))
    by (vm_compute; reflexivity).
  unfold bench_made. unfold bench_set_up in *. rewrite E in H |- *. by injection H as <- <-.
Qed.

Definition bench_start : config (sc BENCH_N) M :=
  start BENCH_N false bench_role (bench_made Huge) [HProducer bench_p; HConsumer bench_c].

(** One message is sent and received, and the consumer returns. *)
Definition one_message : list (move M) :=
  (Start (C := M) 0 (Push 7) :: replicate 3 (Go 0)) ++
  (Start (C := M) 0 Sync :: replicate 2 (Go 0)) ++
  (Start (C := M) 1 (Pop 1) :: replicate 5 (Go 1)).

Definition bench_state : config (sc BENCH_N) M :=
  default bench_start (play (sc BENCH_N) one_message bench_start).

Definition bench_thread (i : nat) : thread M :=
  default (Idle (C := M) HNoProducer []) (bench_state.2 !! i).

Lemma bench_reached : reachable (sc BENCH_N) bench_start bench_state.
Proof.
  apply (play_reachable (sc BENCH_N) one_message _ bench_start); [constructor|].
  apply default_Some. vm_compute. reflexivity.
Qed.

Lemma bench_threads :
  bench_state.2 !! 0%nat = Some (bench_thread 0) ∧ bench_state.2 !! 1%nat = Some (bench_thread 1).
Proof. split; apply default_Some; vm_compute; reflexivity. Qed.

Lemma bench_made_by_producer :
  ∃ t', follows (bench_producer bench_role 7 1) (calls_of (bench_thread 0)).2 t'.
Proof.
  assert (E : (calls_of (bench_thread 0)).2 = [(Push 7, AUnit); (Sync, AUnit)])
    by (vm_compute; reflexivity).
  rewrite E. eexists. follow. apply follows_nil.
Qed.

Lemma bench_made_by_consumer :
  ∃ u', follows (bench_consumer bench_role 1) (calls_of (bench_thread 1)).2 u' ∧
        result_of u' = Some 0.
Proof.
  assert (E : (calls_of (bench_thread 1)).2 = [(Pop 1, APop (Some (Some 7)))])
    by (vm_compute; reflexivity).
  rewrite E. eexists. split; [follow; apply follows_nil|vm_compute; reflexivity].
Qed.

Lemma benchmark_needs_every_message_witness :
  popped BENCH_N bench_role 0 (calls_of (bench_thread 1)).2 [7].
Proof.
  destruct bench_made_by_producer as [t' Ht], bench_made_by_consumer as (u' & Hu & Hr).
  assert (Hi : (calls_of (bench_thread 0)).1 = None) by (vm_compute; reflexivity).
  assert (H1 : 0 ≤ 1 < usize_lim) by (split; [lia|reflexivity]).
  pose proof (benchmark_needs_every_message 7 1 H1 (Ok (Some 4096)) 4096 no_objects bench_os
    bench_objects bench_made bench_p bench_c bench_state
    (bench_thread 0) (bench_thread 1) u' bench_is_served bench_set_up_done bench_reached
    (proj1 bench_threads) (proj2 bench_threads) (runs_idle M _ t' _ Hi Ht) Hu) as Hend.
  destruct (ends_well_result M _ _ u' 0 Hend Hr) as [Hp Hc].
  rewrite Hp in Hc. exact Hc.
Defined.
