(* ===== verification/MetadataTest.v ===== *)
(** * Metadata in the padding of a lossless channel

    The accesses of [Metadata] among the calls of the lossless channel, and
    the test [test_synchronized_metadata] of [src/que/src/lossless/mod.rs],
    whose two threads are clients. *)

From S2P Require Import Prelude.
From S2P Require Import Rust.
From S2P Require Import Ring.
From S2P Require Import Channel.
From S2P Require Import Join.
From S2P Require Import Concurrency.
From S2P Require Import Typing.
From S2P Require Import Words.
From S2P Require Import Metadata.
From S2P Require Import Clients.
From S2P Require Import LosslessProducer.
From S2P Require Import LosslessConsumer.
From S2P Require Import LosslessReservation.
From S2P Require Import LosslessInterface.
From S2P Require Import LosslessWords.
From S2P Require Import LosslessPair.
From ITree Require Import Core.ITreeDefinition.

(** The pointer a thread has got, before it reserved or popped. *)
Definition lossless_padding_ptr (h : lossless_handle) : option Z :=
  match h with
  | HProducer p => Some (LosslessProducer.get_padding_ptr p)
  | HReservation r => Some (LosslessProducer.get_padding_ptr (r_producer r))
  | HConsumer c => Some (LosslessConsumer.get_padding_ptr c)
  | HElement e => Some (LosslessConsumer.get_padding_ptr (e_consumer e))
  | HNoProducer | HNoConsumer => None
  end.

Definition lossless_metadata {T} {prof : Profile} (N : Z) (shared : bool) : interface T :=
  with_metadata (lossless (T := T) N shared) lossless_padding_ptr.

(** ** Metadata and the channel *)

Section Metadata.
Context {T : Type} {prof : Profile} (N : Z) (HN : capacity_ok N) (shared : bool).
#[local] Notation C := (lossless (T := T) N shared).
#[local] Notation CM := (lossless_metadata (T := T) N shared).

End Metadata.

(** ** The test *)

Section Test.
Context {prof : Profile}.
#[local] Notation C := (lossless (T := Z) 4 false).
#[local] Notation CM := (lossless_metadata (T := Z) 4 false).













End Test.

(** ** Concrete executions *)

Section Executions.
#[local] Existing Instance debug_profile.
#[local] Notation CM := (lossless_metadata (T := Z) 4 false).

#[local] Instance lossless_metadata_call_eq_dec : EqDecision (call CM) :=
  metadata_call_eq_dec (K := lossless_call Z).















#[local] Notation idle := (idle_history (lossless (T := Z) 4 false) lossless_padding_ptr 4).









End Executions.
