(* ===== verification/LosslessTests.v ===== *)
(** * The unit tests of the lossless channel

    The tests of [src/que/src/lossless/mod.rs] as programs of the model, each
    on the channel [lossless_pair] makes at an aligned address; every
    assertion is one of the program, and the examples say that none fails.
    They check the definitions against the behaviour the authors expect.
    ([test_synchronized_metadata], whose threads run at the same time, is in
    [MetadataTest].) *)

From S2P Require Import Prelude.
From S2P Require Import Rust.
From S2P Require Import Ring.
From S2P Require Import Errors.
From S2P Require Import Channel.
From S2P Require Import LosslessProducer.
From S2P Require Import LosslessConsumer.
From S2P Require Import LosslessPair.

#[local] Existing Instance debug_profile.

Section Tests.
(** The address the allocator returned. *)
Context (ptr : Z).

Definition assert_eq (a b : option Z) : prog Z unit :=
  assert (bool_decide (a = b)) "assert_eq".

Definition push_unwrap (N : Z) (p : Producer) (v : Z) : prog Z Producer :=
  '(p, r) ← push N p v; _ ← lift (unwrap r); mret p.

Definition pop_eq (N : Z) (c : Consumer) (expected : option Z) : prog Z Consumer :=
  '(c, o) ← pop N c; _ ← assert_eq o expected; mret c.

(** [for v in vs { assert_eq!(consumer.pop(), Some(v)) }]. *)
Fixpoint pops_eq (N : Z) (c : Consumer) (vs : list Z) : prog Z Consumer :=
  match vs with
  | [] => mret c
  | v :: vs => c ← pop_eq N c (Some v); pops_eq N c vs
  end.

(** [for v in vs { producer.push(v).unwrap() }]. *)
Fixpoint pushes_unwrap (N : Z) (p : Producer) (vs : list Z) : prog Z Producer :=
  match vs with
  | [] => mret p
  | v :: vs => p ← push_unwrap N p v; pushes_unwrap N p vs
  end.

Definition test_push_pop_multiple : prog Z unit :=
  '(producer, consumer) ← lossless_pair 16 ptr;
  producer ← push_unwrap 16 producer 69;
  producer ← push_unwrap 16 producer 70;
  consumer ← pop_eq 16 consumer None;
  producer ← sync producer;
  consumer ← pop_eq 16 consumer (Some 69);
  consumer ← pop_eq 16 consumer (Some 70);
  mret tt.

(** [assert_eq!(consumer.pop_zerocopy().map(|e| *e), expected)]. *)
Definition pop_zerocopy_eq (c : Consumer) (expected : option Z) : prog Z Consumer :=
  r ← pop_zerocopy 16 c;
  match r with
  | inl c => _ ← assert_eq None expected; mret c
  | inr e =>
      v ← deref e;
      c ← drop_element 16 e;
      _ ← assert_eq (Some v) expected;
      mret c
  end.

Definition test_push_pop_zerocopy : prog Z unit :=
  '(producer, consumer) ← lossless_pair 16 ptr;
  producer ← push_unwrap 16 producer 69;
  producer ← push_unwrap 16 producer 70;
  consumer ← pop_zerocopy_eq consumer None;
  producer ← sync producer;
  consumer ← pop_zerocopy_eq consumer (Some 69);
  consumer ← pop_zerocopy_eq consumer (Some 70);
  producer ← push_unwrap 16 producer 71;
  producer ← push_unwrap 16 producer 72;
  consumer ← pop_eq 16 consumer None;
  producer ← sync producer;
  consumer ← pop_zerocopy_eq consumer (Some 71);
  mret tt.

Definition test_push_pop_overrun : prog Z unit :=
  '(producer, consumer) ← lossless_pair 4 ptr;
  producer ← pushes_unwrap 4 producer [69; 70; 71; 72];
  '(producer, r) ← push 4 producer 73;
  _ ← assert (is_err r) "push(73).is_err()";
  producer ← sync producer;
  consumer ← pops_eq 4 consumer [69; 70; 71; 72];
  '(producer, r) ← push 4 producer 73;
  _ ← assert (is_ok r) "push(73).is_ok()";
  producer ← sync producer;
  consumer ← pop_eq 4 consumer (Some 73);
  mret tt.

Definition test_restart_producer : prog Z unit :=
  '(producer, consumer) ← lossless_pair 16 ptr;
  producer ← push_unwrap 16 producer 69;
  producer ← push_unwrap 16 producer 70;
  producer ← sync producer;
  let spsc := p_spsc producer in
  _ ← drop_producer LocalMode producer;
  r ← join_ LocalMode 16 spsc;
  producer ← lift (unwrap r);
  consumer ← pop_eq 16 consumer (Some 69);
  consumer ← pop_eq 16 consumer (Some 70);
  producer ← push_unwrap 16 producer 71;
  consumer ← pop_eq 16 consumer None;
  producer ← sync producer;
  consumer ← pop_eq 16 consumer (Some 71);
  mret tt.

Definition test_detect_offline_consumer : prog Z unit :=
  '(producer, consumer) ← lossless_pair 4 ptr;
  '(producer, b) ← consumer_heartbeat producer;
  _ ← assert (negb b) "!consumer_heartbeat()";
  _ ← beat consumer;
  '(producer, b) ← consumer_heartbeat producer;
  _ ← assert b "consumer_heartbeat()";
  '(producer, b) ← consumer_heartbeat producer;
  assert (negb b) "!consumer_heartbeat()".

Definition test_reserve_write_all_single_slice : prog Z unit :=
  let data := [1; 2; 3; 4; 5; 6; 7; 8] in
  '(producer, consumer) ← lossless_pair 8 ptr;
  r ← reserve 8 producer (Z.of_nat (length data));
  reservation ← lift (unwrap r);
  reservation ← write_all 8 reservation data;
  producer ← commit 8 reservation;
  consumer ← pops_eq 8 consumer data;
  consumer ← pop_eq 8 consumer None;
  mret tt.

Definition test_reserve_write_all_wraparound : prog Z unit :=
  let data := [10; 11; 12; 13; 14; 15] in
  '(producer, consumer) ← lossless_pair 8 ptr;
  producer ← pushes_unwrap 8 producer [0; 1; 2; 3; 4; 5];
  producer ← sync producer;
  consumer ← pops_eq 8 consumer [0; 1; 2; 3];
  r ← reserve 8 producer (Z.of_nat (length data));
  reservation ← lift (unwrap r);
  reservation ← write_all 8 reservation data;
  producer ← commit 8 reservation;
  consumer ← pops_eq 8 consumer [4; 5];
  consumer ← pops_eq 8 consumer data;
  consumer ← pop_eq 8 consumer None;
  mret tt.

Definition test_reserve_no_capacity : prog Z unit :=
  '(producer, consumer) ← lossless_pair 4 ptr;
  producer ← pushes_unwrap 4 producer [1; 2; 3; 4];
  producer ← sync producer;
  r ← reserve 4 producer 2;
  _ ← assert (is_err r) "reserve(2).is_err()";
  consumer ← pop_eq 4 consumer (Some 1);
  r ← reserve 4 producer 1;
  reservation ← lift (unwrap r);
  reservation ← write_next 4 reservation 5;
  producer ← commit 4 reservation;
  consumer ← pops_eq 4 consumer [2; 3; 4; 5];
  consumer ← pop_eq 4 consumer None;
  mret tt.
End Tests.

(** The value of a test that runs to its end. *)
Definition passes (N : Z) (test : Z → prog Z unit) : Prop :=
  value (run N (test 128) (new_uninit_zeroed N 0)) = Some tt.

Example lossless_tests_pass :
  passes 16 test_push_pop_multiple ∧ passes 16 test_push_pop_zerocopy ∧
  passes 4 test_push_pop_overrun ∧ passes 16 test_restart_producer ∧
  passes 4 test_detect_offline_consumer ∧
  passes 8 test_reserve_write_all_single_slice ∧
  passes 8 test_reserve_write_all_wraparound ∧ passes 4 test_reserve_no_capacity.
Proof. unfold passes. split_and!; vm_compute; reflexivity. Qed.
