(* ===== verification/HeadlessTests.v ===== *)
(** * The unit tests of the headless channel

    The tests of [src/que/src/headless_spmc/mod.rs] as programs of the model;
    every assertion is one of the program, and the example says that none
    fails. *)

From S2P Require Import Prelude.
From S2P Require Import Rust.
From S2P Require Import Ring.
From S2P Require Import Errors.
From S2P Require Import Channel.
From S2P Require Import HeadlessProducer.
From S2P Require Import HeadlessConsumer.
From S2P Require Import HeadlessPair.

#[local] Existing Instance debug_profile.

Section Tests.
Context (ptr : Z).

Fixpoint push_all (N : Z) (p : Producer) (vs : list Z) : prog Z Producer :=
  match vs with
  | [] => mret p
  | v :: vs => p ← push N p v; push_all N p vs
  end.

(** [assert_eq!(consumer.pop(), expected)]. *)
Definition pop_eq (N : Z) (c : Consumer) (expected : option Z) : prog Z Consumer :=
  '(c, o) ← pop N 2 c;
  _ ← assert (bool_decide (o = Some expected)) "assert_eq";
  mret c.

Definition test_push_pop_multiple : prog Z unit :=
  '(producer, consumer) ← headless_pair 8 ptr;
  producer ← push_all 8 producer [69; 70];
  consumer ← pop_eq 8 consumer None;
  producer ← sync producer;
  consumer ← pop_eq 8 consumer (Some 69);
  consumer ← pop_eq 8 consumer (Some 70);
  mret tt.

Definition test_push_pop_overrun : prog Z unit :=
  '(producer, consumer) ← headless_pair 4 ptr;
  producer ← push_all 4 producer [69; 70; 71; 72; 73];
  producer ← sync producer;
  consumer ← pop_eq 4 consumer (Some 71);
  consumer ← pop_eq 4 consumer (Some 72);
  consumer ← pop_eq 4 consumer (Some 73);
  mret tt.

(** [let (mut producer, [mut consumer1, mut consumer2]) =
    headless_multi::<u64, 4, 2>()]. *)
Definition with_two {A} (k : Producer → Consumer → Consumer → prog Z A) : prog Z A :=
  '(producer, consumers) ← headless_multi 4 ptr 2;
  match consumers with
  | [consumer1; consumer2] => k producer consumer1 consumer2
  | _ => Panic UnwrapFailed
  end.

Definition test_multi_consumer_sequential_reads : prog Z unit :=
  with_two (fun producer consumer1 consumer2 =>
    producer ← push_all 4 producer [69; 70; 71; 72; 73];
    producer ← sync producer;
    consumer1 ← pop_eq 4 consumer1 (Some 71);
    consumer1 ← pop_eq 4 consumer1 (Some 73);
    consumer2 ← pop_eq 4 consumer2 (Some 72);
    mret tt).

Definition test_multi_consumer_interleave_reads : prog Z unit :=
  with_two (fun producer consumer1 consumer2 =>
    producer ← push_all 4 producer [69; 70; 71; 72; 73];
    producer ← sync producer;
    consumer1 ← pop_eq 4 consumer1 (Some 71);
    consumer2 ← pop_eq 4 consumer2 (Some 72);
    consumer1 ← pop_eq 4 consumer1 (Some 73);
    mret tt).

Definition test_multi_consumer_uninitialized : prog Z unit :=
  with_two (fun producer consumer1 consumer2 =>
    consumer1 ← pop_eq 4 consumer1 None;
    consumer2 ← pop_eq 4 consumer2 None;
    producer ← push 4 producer 5;
    producer ← sync producer;
    consumer2 ← pop_eq 4 consumer2 None;
    consumer1 ← pop_eq 4 consumer1 (Some 5);
    producer ← push 4 producer 6;
    producer ← sync producer;
    consumer1 ← pop_eq 4 consumer1 None;
    consumer2 ← pop_eq 4 consumer2 (Some 6);
    consumer2 ← pop_eq 4 consumer2 None;
    mret tt).

Definition test_restart_producer : prog Z unit :=
  '(producer, consumer) ← headless_pair 4 ptr;
  producer ← push_all 4 producer [69; 70];
  producer ← sync producer;
  let spsc := p_spsc producer in
  _ ← drop_producer LocalMode producer;
  r ← join_ LocalMode 4 spsc;
  producer ← lift (unwrap r);
  consumer ← pop_eq 4 consumer (Some 69);
  consumer ← pop_eq 4 consumer (Some 70);
  producer ← push 4 producer 71;
  consumer ← pop_eq 4 consumer None;
  producer ← sync producer;
  consumer ← pop_eq 4 consumer (Some 71);
  mret tt.

Definition test_detect_offline_consumer : prog Z unit :=
  with_two (fun producer consumer1 consumer2 =>
    '(producer, b) ← consumer_heartbeat producer;
    _ ← assert (negb b) "!consumer_heartbeat()";
    _ ← beat consumer1;
    '(producer, b) ← consumer_heartbeat producer;
    _ ← assert b "consumer_heartbeat()";
    _ ← beat consumer2;
    '(producer, b) ← consumer_heartbeat producer;
    _ ← assert b "consumer_heartbeat()";
    '(producer, b) ← consumer_heartbeat producer;
    assert (negb b) "!consumer_heartbeat()").
End Tests.

Definition passes (N : Z) (test : Z → prog Z unit) : Prop :=
  value (run N (test 128) (new_uninit_zeroed N 0)) = Some tt.

Example headless_tests_pass :
  passes 8 test_push_pop_multiple ∧ passes 4 test_push_pop_overrun ∧
  passes 4 test_multi_consumer_sequential_reads ∧
  passes 4 test_multi_consumer_interleave_reads ∧
  passes 4 test_multi_consumer_uninitialized ∧ passes 4 test_restart_producer ∧
  passes 4 test_detect_offline_consumer.
Proof. unfold passes. split_and!; vm_compute; reflexivity. Qed.
